(* ===== verification/_CoqProject ===== *)
-Q . S2P
Prelude.v
AbtTypes.v
Config.v
Objects.v
Storage.v
PoolList.v
Spinlock.v
Sleepers.v
WakeSteps.v
ListConc.v
ListSafe.v
TimedPop.v
TimedSafe.v
PoolMpsc.v
MpscConc.v
MpscSafe.v
MpscSpec.v
Pool.v
PoolWorld.v
PoolApi.v
PoolClient.v
UserPool.v
PoolExamples.v
MpscExamples.v
ListExamples.v
Park.v
ParkSafe.v
ParkMpsc.v
ParkList.v
ParkExamples.v
ConfigApi.v
Sched.v
SchedSpec.v
PoolEquiv.v
SchedLife.v
SchedExamples.v
Waitlist.v
Sync.v
SyncMutex.v
SyncTokens.v
SyncWake.v
SyncSteps.v
SyncRaces.v
SyncExamples.v
Monitor.v
Rwlock.v
Barrier.v
Future.v
SyncObjects.v
MonitorExamples.v
Info.v
Unsupported.v
Thread.v
ThreadSpec.v
ThreadJoin.v
ThreadSafe.v
Timer.v
Xstream.v
XstreamJoin.v
XstreamSafe.v
XstreamPe.v
XstreamSpec.v
RunOnPe.v
Run.v
Ready.v
RunSpec.v
Yield.v
Init.v
InitSpec.v
Print.v
ThreadExamples.v
XstreamExamples.v
SwitchExamples.v
InitExamples.v
RunExamples.v
