(* ===== verification/Prelude.v ===== *)
(** * abt-reconverse, verified

    abt-reconverse implements the Argobots threading interface on top of the
    Reconverse runtime.  This library models its implementation, [src/src/*.cpp]
    with [src/src/abti.h] and the constants of [src/include/abt.h], and proves
    what its parts promise.  This file, the first of the library, also holds what
    all others share: addresses and handles, record update, the state-and-fault
    monad [M] with its two triples ([wp]: no fault, [wlp]: if no fault), frames
    ([preserves]), and tactics.

    ** The program

    An execution stream (xstream.cpp) is a lease of a processing element (PE) of
    the runtime; its PE runs a scheduler (sched.cpp), which pops units from pools
    (pool.cpp) and runs them: tasklets on the PE's own stack, user-level threads
    (thread.cpp) by switching to their Converse thread.  A thread that waits
    (sync.cpp; joins in thread.cpp and xstream.cpp) suspends and is put back into
    its pool by whoever wakes it, which also wakes the PEs asleep on that pool.
    init.cpp starts and stops the runtime and leases the primary stream; misc.cpp
    has keys, timers, information and printing.

    ** Files

    - data: [AbtTypes] (abt.h), [Objects] (the structs of abti.h, handles, the
      [world] of all objects, and [Ext], the code outside the repository),
      [Storage] (what a method of [ABTI_pool] works on, and [PoolSpec], the
      abstract pool);
    - pools (pool.cpp), one call at a time: [PoolList] and [PoolMpsc], the two
      storages, which discharge the interface [FifoStore] of [Storage];
      [Sleepers], the mask of sleeping PEs; [Pool], the methods that choose
      between storage and user callbacks and the [ABT_pool_*] calls; [PoolWorld]
      and [PoolApi], their contract on the whole world; [PoolClient], a typed
      language of programs that use it; [UserPool], pools defined by the program;
      [PoolEquiv], the two storages compared;
    - pools, everybody at once: [Spinlock], [ABTI_spinlock] and the interface
      [LockedBy] it gives to what is kept under it; [WakeSteps], the end of a push
      access by access; [MpscConc], [MpscSafe] and [MpscSpec], the lock-free
      storage with any number of producers; [ListConc] and [ListSafe], the locked
      one; [TimedPop] and [TimedSafe], threads that wait in a timed pop of it;
      [Park] and [ParkSafe], PEs that go to sleep, over the interface
      [PoolMachine], which [ParkMpsc] and [ParkList] discharge for the two;
    - configurations (sched.cpp, pool.cpp): [Config], [ConfigApi];
    - schedulers (sched.cpp): [Sched], [SchedSpec], [SchedLife];
    - synchronisation (sync.cpp): [Waitlist]; [Sync], the blocking calls as code
      for a machine that interleaves threads; [SyncMutex], [SyncTokens],
      [SyncWake] and [SyncSteps], its invariants; [SyncRaces], the races of timed
      waits; [Monitor], [Rwlock], [Barrier]
      and [Future], the objects built from mutexes and conditions; [SyncObjects],
      creation, freeing and attributes;
    - threads (thread.cpp): [Thread], [ThreadSpec]; [ThreadJoin] and [ThreadSafe],
      joins against terminations; [Run], units while they run, [Ready], the joiners
      a termination makes ready, and [RunSpec];
    - streams (xstream.cpp): [Xstream]; [XstreamJoin], [XstreamSafe], [XstreamPe]
      and [XstreamSpec], joins and frees against the release of a lease;
      [RunOnPe], a function sent to a PE while its caller waits; [Yield], where a
      PE goes when a thread suspends;
    - init.cpp: [Init], [InitSpec]; misc.cpp: [Info], [Unsupported], [Timer],
      [Print];
    - the files named [Examples] hold runs on concrete states: the witnesses of
      the theorems, and executions that end in a fault.

    ** What is shown

    - pools: push appends and pop takes the oldest unit the calling PE may run,
      whatever the storage ([PoolApi.push_thread_appends], [pop_thread_takes],
      [PoolEquiv.storages_equivalent]); the lock-free queue is a queue under every
      interleaving of its producers with the consumer, and its pop comes back
      empty only from an empty queue or next to a push under way
      ([MpscSpec.mpsc_fifo], [mpsc_empty_pop], [mpsc_never_dangles],
      [mpsc_rest_is_store]); the locked list is one under every interleaving, as
      long as no unit is removed while it is being pushed
      ([ListSafe.list_linearizes]), which breaks it ([ListExamples.remove_races_push]);
      the spinlock excludes ([Spinlock.spinlock_excludes]); the sleeper mask is a
      set ([Sleepers]), and a PE that parks is notified or has nothing to find,
      with either storage ([ParkMpsc.mpsc_park_misses_nothing],
      [ParkList.list_park_misses_nothing]); nor does a timed pop sleep on a unit
      ([TimedSafe.timed_pop_misses_nothing]); pools of the program refine the same
      queue if their callbacks are one ([UserPool]); programs that use handles at
      their types never touch what is not there ([PoolClient.typed_clients_run]);
    - schedulers: the policies, creation, counting and destruction of pools
      ([SchedSpec], [SchedLife]), a stacked scheduler returns only when its pools
      are drained, and does if its units and waits get there ([RunSpec]);
    - synchronisation: mutual exclusion among threads that unlock only what they
      hold ([SyncMutex.mutex_exclusion]); without timed waits no wake-up is lost
      and no dead waiter is touched ([SyncSteps]); from every state in which a
      timed waiter gives up while its waker is under way, the waker can touch the
      dead record, or awaken the thread in its next wait ([SyncRaces]); readers against writers,
      barriers, futures ([Rwlock], [Barrier], [Future]);
    - threads: creation, migration and making ready ([ThreadSpec]); a join returns
      only after the termination and none is forgotten ([ThreadSafe]);
    - streams: no PE and no call touches a freed stream or scheduler, and joins
      return only when the lease was given back ([XstreamSpec]), for programs that
      keep the rules of use stated there and with the release handler's critical
      section run in one piece; run access by access it can use a freed stream
      ([XstreamExamples.release_uses_freed_stream]); changing the main scheduler
      under a polling PE frees what it polls
      ([XstreamSpec.set_main_sched_frees_polled]); a function sent
      to a PE runs once, before its caller goes on ([RunOnPe.run_on_pe_served]);
    - init and finalize: the booted state, nesting, the round trip ([InitSpec]).

    ** Choices

    - A pointer is an address, an object a record in the heap of its type; using
      an address that is not in the heap is the fault [BadDeref], [CmiAbort] is
      the fault [Aborted].  Allocation gives addresses never used
      before, so a stale pointer is always seen; [ABTI_thread_cache], which only
      reuses memory, is left out.
    - Integers are [Z] with their wrap-around written where the code can reach it
      (barrier and future counters, [max_pools], environment numbers, masks);
      [double]s are [spec_float]s.
    - Output parameters are part of the result: [(code, Some v)] is a call that
      returned [code] and stored [v].
    - Sequential code is a function on the state.  Code that waits or runs against
      other threads is a step relation: [MpscConc] (one access to a shared field
      per step, sequentially consistent; pops and removals update the counter
      after they have released the lock; of other pools' units it knows that they
      are not in this one), [ListConc] (the same, and what is done under the
      spinlock is one step), [Park] (one access; a PE is the thread of the same
      number), [RunOnPe] (one message, look or store), [Sync] (one critical
      section), [Monitor] (one field access or call), [ThreadJoin] and [XstreamJoin] (one access, message or
      critical section; the two that publish a flag read without the lock are
      split).
    - Code outside the repository is an argument: the runtime and the callbacks of
      the program ([Ext], [Cth]); a callback sees its arguments and its own state.
      The program's functions and stack switches are the arguments [call] and
      [resume] of [Run].  Awakening a Converse thread there includes the awaken
      callback the code has set for it ([Run.awaken_fn]); in the machines of joins
      and of [Sync] the callback is a step of the rest of the program.  In [Run], [ABTI_run_on_pe] is the call on the chosen PE
      while its caller waits.
    - Fuel: [pop_mpsc] and the walk of [for_each_unit] take one turn per thread of
      the heap and one more, which [PoolMpsc] proves to be enough; the overhead
      loop of [Timer] its 5000 turns; [drain] as many as its caller gives, and
      [InitSpec] proves that what is queued is enough; [stacked_sched_main] likewise,
      which may run for ever in the code too: [RunSpec] proves that any measure the
      units and waits lower is enough.

    ** Not modelled

    Stack switching itself, memory exhaustion, weak memory orders, the relation of
    deadlines to steps (a time-out may come at any step of a machine;
    [realtime_to_wall] of [Timer] is only the conversion), the argument strings
    handed to the runtime, traces on standard error and the counters of
    [ABT_RECONVERSE_STATS]. *)

From Stdlib Require Export ZArith Lia.
From stdpp Require Export base tactics gmap strings numbers.
From stdpp Require Export list.

#[global] Open Scope Z_scope.

(** ** Addresses and handles

    An address is a [Z] (a [uintptr_t]); an internal C++ pointer is an
    [option ptr] whose [None] is [nullptr]; an [ABT_*] handle is a plain [Z],
    because the API mixes real addresses with small sentinel values. *)
Abbreviation ptr := Z (only parsing).

(** ** Record update *)

Class Eta (R : Type) := eta : R → R.
Class Setter {R E : Type} (proj : R → E) := upd : (E → E) → R → R.
#[global] Arguments upd {R E} proj {_} _ _ : assert.

Ltac build_setter :=
  lazymatch goal with
  | |- @Setter ?R ?E ?proj =>
      let s := constr:(fun (f : E → E) (r : R) => ltac:(
        let e := constr:(ltac:(typeclasses eauto) : Eta R) in
        let e' := eval hnf in e in
        let b := eval cbv beta in (e' r) in
        let b' := eval pattern (proj r) in b in
        lazymatch b' with
        | ?g _ => let c := eval cbv beta in (g (f (proj r))) in exact c
        end)) in
      exact s
  end.
#[global] Hint Extern 1 (Setter _) => build_setter : typeclass_instances.

Declare Scope record_scope.
Delimit Scope record_scope with rec.
#[global] Open Scope record_scope.
#[warnings="-postfix-notation-not-level-1"]
Notation "x <| proj := v |>" := (upd proj (λ _, v) x)
  (at level 12, left associativity, proj at level 9, v at level 200,
   format "x  <| proj  :=  v |>") : record_scope.
#[warnings="-postfix-notation-not-level-1"]
Notation "x <| proj ::= f |>" := (upd proj f x)
  (at level 12, left associativity, proj at level 9, f at level 200,
   format "x  <| proj  ::=  f |>") : record_scope.

(** ** Machine integers *)

(** [(uint32_t)x], [(uint64_t)x] and [(int)x]. *)
Definition wrapu32 (x : Z) : Z := x mod 2 ^ 32.
Definition wrapu64 (x : Z) : Z := x mod 2 ^ 64.
Definition wraps32 (x : Z) : Z := (x + 2 ^ 31) mod 2 ^ 32 - 2 ^ 31.

Lemma wraps32_small x : - 2 ^ 31 ≤ x < 2 ^ 31 → wraps32 x = x.
Proof. unfold wraps32. intros. rewrite Z.mod_small; lia. Qed.
Lemma wrapu64_small x : 0 ≤ x < 2 ^ 64 → wrapu64 x = x.
Proof. unfold wrapu64. intros. by rewrite Z.mod_small. Qed.
Lemma wrapu32_small x : 0 ≤ x < 2 ^ 32 → wrapu32 x = x.
Proof. unfold wrapu32. intros. by rewrite Z.mod_small. Qed.

(** A C condition on an [int]. *)
Definition truthy (x : Z) : bool := negb (x =? 0).
Definition of_bool (b : bool) : Z := if b then 1 else 0.
Definition is_null {A} (p : option A) : bool := match p with Some _ => false | None => true end.
Definition non_null {A} (p : option A) : bool := negb (is_null p).

(** ** Lists *)

Lemma filter_all {A} (P : A → Prop) `{∀ x, Decision (P x)} (l : list A) :
  (∀ x, x ∈ l → P x) → filter P l = l.
Proof.
  induction l as [|a l IH]; intros HP; [done|].
  rewrite filter_cons_True by (apply HP; set_solver). f_equal. apply IH. set_solver.
Qed.

Lemma filter_none {A} (P : A → Prop) `{∀ x, Decision (P x)} (l : list A) :
  (∀ x, x ∈ l → ¬ P x) → filter P l = [].
Proof.
  induction l as [|a l IH]; intros HP; [done|].
  rewrite filter_cons_False by (apply HP; set_solver). apply IH. set_solver.
Qed.
Lemma filter_ext_in {A} (P Q : A → Prop) `{∀ x, Decision (P x), ∀ x, Decision (Q x)} (l : list A) :
  (∀ x, x ∈ l → P x ↔ Q x) → filter P l = filter Q l.
Proof.
  induction l as [|a l IH]; intros HPQ; [done|].
  assert (P a ↔ Q a) as Ha by (apply HPQ; set_solver).
  rewrite !filter_cons, IH by set_solver. repeat case_decide; tauto.
Qed.

(** ** Outcomes

    Code that dereferences a dangling or null pointer, calls [CmiAbort] or
    exhausts the fuel of a loop ends in a fault; everything else returns. *)
Inductive fault : Type :=
  | BadDeref
  | Aborted (msg : string)
  | OutOfFuel.

Inductive outcome (S A : Type) : Type :=
  | Done (a : A) (s : S)
  | Faulted (f : fault).
Arguments Done {S A} _ _.
Arguments Faulted {S A} _.

Definition M (S A : Type) : Type := S → outcome S A.

#[global] Instance M_ret {S} : MRet (M S) := λ A a s, Done a s.
#[global] Instance M_bind {S} : MBind (M S) := λ A B k m s,
  match m s with
  | Done a s' => k a s'
  | Faulted f => Faulted f
  end.

Section monad.
Context {S : Type}.
Definition get : M S S := λ s, Done s s.
Definition gets {A} (f : S → A) : M S A := λ s, Done (f s) s.
Definition modify (f : S → S) : M S unit := λ s, Done tt (f s).
Definition fail {A} (f : fault) : M S A := λ s, Faulted f.
Definition when (b : bool) (m : M S unit) : M S unit := if b then m else mret tt.
End monad.

(** ** Postconditions: [wp m Q s] is total correctness, no fault included. *)
Definition wp {S A} (m : M S A) (Q : A → S → Prop) (s : S) : Prop :=
  match m s with
  | Done a s' => Q a s'
  | Faulted _ => False
  end.

Section wp.
Context {S : Type}.
Implicit Types s : S.

Lemma wp_ret {A} (a : A) (Q : A → S → Prop) s : Q a s → wp (mret a) Q s.
Proof. done. Qed.
Lemma wp_bind {A B} (m : M S A) (k : A → M S B) Q s :
  wp m (λ a, wp (k a) Q) s → wp (m ≫= k) Q s.
Proof. unfold wp, mbind, M_bind. by destruct (m s). Qed.
Lemma wp_mono {A} (m : M S A) (Q Q' : A → S → Prop) s :
  wp m Q s → (∀ a s', Q a s' → Q' a s') → wp m Q' s.
Proof. unfold wp. destruct (m s); naive_solver. Qed.
Lemma wp_get (Q : S → S → Prop) s : Q s s → wp get Q s.
Proof. done. Qed.
Lemma wp_gets {A} (f : S → A) (Q : A → S → Prop) s : Q (f s) s → wp (gets f) Q s.
Proof. done. Qed.
Lemma wp_modify f (Q : unit → S → Prop) s : Q tt (f s) → wp (modify f) Q s.
Proof. done. Qed.
Lemma wp_when b (m : M S unit) Q s :
  (b = true → wp m Q s) → (b = false → Q tt s) → wp (when b m) Q s.
Proof. destruct b; unfold when; auto using wp_ret. Qed.
Lemma wp_and {A} (m : M S A) (Q Q' : A → S → Prop) s : wp m Q s → wp m Q' s → wp m (λ a s', Q a s' ∧ Q' a s') s.
Proof. unfold wp. by destruct (m s). Qed.
Lemma wp_elim {A} (m : M S A) Q s : wp m Q s → ∃ a s', m s = Done a s' ∧ Q a s'.
Proof. unfold wp. destruct (m s); naive_solver. Qed.
Lemma wp_intro {A} (m : M S A) (Q : A → S → Prop) s a s' :
  m s = Done a s' → Q a s' → wp m Q s.
Proof. unfold wp. by intros ->. Qed.
End wp.

(** Partial correctness: [wlp m Q s] also holds when [m] ends in a fault. *)
Definition wlp {S A} (m : M S A) (Q : A → S → Prop) (s : S) : Prop :=
  match m s with
  | Done a s' => Q a s'
  | Faulted _ => True
  end.

Section wlp.
Context {S : Type}.
Implicit Types s : S.

Lemma wlp_ret {A} (a : A) (Q : A → S → Prop) s : Q a s → wlp (mret a) Q s.
Proof. done. Qed.
Lemma wlp_bind {A B} (m : M S A) (k : A → M S B) Q s :
  wlp m (λ a, wlp (k a) Q) s → wlp (m ≫= k) Q s.
Proof. unfold wlp, mbind, M_bind. by destruct (m s). Qed.
Lemma wlp_mono {A} (m : M S A) (Q Q' : A → S → Prop) s :
  wlp m Q s → (∀ a s', Q a s' → Q' a s') → wlp m Q' s.
Proof. unfold wlp. destruct (m s); naive_solver. Qed.
Lemma wlp_gets {A} (f : S → A) (Q : A → S → Prop) s : Q (f s) s → wlp (gets f) Q s.
Proof. done. Qed.
Lemma wlp_modify f (Q : unit → S → Prop) s : Q tt (f s) → wlp (modify f) Q s.
Proof. done. Qed.
Lemma wp_wlp {A} (m : M S A) (Q : A → S → Prop) s : wp m Q s → wlp m Q s.
Proof. unfold wp, wlp. by destruct (m s). Qed.
End wlp.

(** The state a computation ends in and its result, for evaluation. *)
Definition run {S A} (m : M S A) (s : S) : S :=
  match m s with Done _ s' => s' | Faulted _ => s end.
Definition result {S A} (m : M S A) (s : S) : option A :=
  match m s with Done a _ => Some a | Faulted _ => None end.
Lemma wp_run {S A} (m : M S A) Q s : wp m Q s → ∃ a, Q a (run m s).
Proof. unfold wp, run. destruct (m s); naive_solver. Qed.
Lemma wp_result {S A} (m : M S A) s a :
  wp m (λ b _, b = a) s → result m s = Some a.
Proof. unfold wp, result. destruct (m s); naive_solver. Qed.

(** Runs that did not fault. *)
Lemma bind_Done {S A B} (m : M S A) (k : A → M S B) s v s' :
  (m ≫= k) s = Done v s' → ∃ u s1, m s = Done u s1 ∧ k u s1 = Done v s'.
Proof. unfold mbind, M_bind. destruct (m s); naive_solver. Qed.
Lemma wlp_Done {S A} (m : M S A) (Q : A → S → Prop) s v s' : wlp m Q s → m s = Done v s' → Q v s'.
Proof. unfold wlp. intros H Hm. by rewrite Hm in H. Qed.

Lemma wp_Done {S A} (m : M S A) (Q : A → S → Prop) s v s' : wp m Q s → m s = Done v s' → Q v s'.
Proof. unfold wp. intros H Hm. by rewrite Hm in H. Qed.
Lemma bind_runs {S A B} (m : M S A) (k : A → M S B) s v s' : m s = Done v s' → (m ≫= k) s = k v s'.
Proof. unfold mbind, M_bind. by intros ->. Qed.
Lemma bind_ext {S A B} (m : M S A) (k k' : A → M S B) s : (∀ v s', m s = Done v s' → k v s' = k' v s') → (m ≫= k) s = (m ≫= k') s.
Proof. unfold mbind, M_bind. destruct (m s); auto. Qed.
Lemma bind_bind {S A B C} (m : M S A) (k : A → M S B) (h : B → M S C) s : ((m ≫= k) ≫= h) s = (m ≫= λ v, k v ≫= h) s.
Proof. unfold mbind, M_bind. by destruct (m s). Qed.

(** ** Counting the threads of a machine

    [tally f m]: the sum of [f] over the points of the threads. *)
Definition tally {P} (f : P → Z) (m : gmap Z P) : Z := map_fold (λ _ p n, f p + n) 0 m.
Section tally.
Context {P : Type} (f : P → Z).
Lemma tally_empty : tally f ∅ = 0.
Proof. apply map_fold_empty. Qed.
Lemma tally_new (m : gmap Z P) a p : m !! a = None → tally f (<[a := p]> m) = f p + tally f m.
Proof. intros Ha. unfold tally. rewrite map_fold_insert_L; [done| |done]. intros. lia. Qed.
Lemma tally_split (m : gmap Z P) a p : m !! a = Some p → tally f m = f p + tally f (delete a m).
Proof. intros Ha. rewrite <-(tally_new (delete a m) a p) by apply lookup_delete_eq. by rewrite insert_delete_eq, insert_id. Qed.
Lemma tally_insert (m : gmap Z P) a p p' : m !! a = Some p → tally f (<[a := p']> m) = tally f m - f p + f p'.
Proof.
  intros Ha. rewrite (tally_split (<[a := p']> m) a p') by apply lookup_insert_eq. rewrite (tally_split m a p Ha), delete_insert_eq. lia.
Qed.
Lemma tally_nonneg (m : gmap Z P) : (∀ p, 0 ≤ f p) → 0 ≤ tally f m.
Proof.
  intros Hf. induction m as [|a p m Ha IH] using map_ind; [by rewrite tally_empty|].
  rewrite tally_new by done. pose proof (Hf p). lia.
Qed.
Lemma tally_pos (m : gmap Z P) : (∀ p, 0 ≤ f p) → 0 < tally f m → ∃ a p, m !! a = Some p ∧ 0 < f p.
Proof.
  intros Hf. induction m as [|a p m Ha IH] using map_ind; [by rewrite tally_empty|].
  rewrite tally_new by done. intros Hp. destruct (decide (0 < f p)) as [|Hz].
  - exists a, p. by rewrite lookup_insert_eq.
  - destruct IH as (b & q & Hb & ?); [lia|]. exists b, q. split; [|done]. rewrite lookup_insert_ne; [done|]. intros ->. congruence.
Qed.
Lemma tally_le (g : P → Z) (m : gmap Z P) : (∀ a p, m !! a = Some p → f p ≤ g p) → tally f m ≤ map_fold (λ _ p n, g p + n) 0 m.
Proof.
  induction m as [|a p m Ha IH] using map_ind; [done|]. intros Hle. rewrite tally_new by done.
  rewrite map_fold_insert_L; [|intros; lia|done]. pose proof (Hle a p (lookup_insert_eq _ _ _)).
  assert (tally f m ≤ map_fold (λ _ p n, g p + n) 0 m); [|lia]. apply IH. intros b q Hb. apply (Hle b q).
  rewrite lookup_insert_ne; [exact Hb|]. intros ->. congruence.
Qed.
Lemma tally_zero (m : gmap Z P) : (∀ a p, m !! a = Some p → f p = 0) → tally f m = 0.
Proof.
  induction m as [|a p m Ha IH] using map_ind; [by rewrite tally_empty|]. intros Hz. rewrite tally_new by done.
  rewrite (Hz a p) by (by rewrite lookup_insert_eq). rewrite IH; [done|]. intros b q Hb. apply (Hz b q).
  rewrite lookup_insert_ne; [exact Hb|]. intros ->. congruence.
Qed.
End tally.

(** ** Frames

    [preserves f m]: when [m] returns, it has left [f] of the state alone. *)
Definition preserves {S A B} (f : S → B) (m : M S A) : Prop := ∀ s, wlp m (λ _ s', f s' = f s) s.

Section preserves.
Context {S B : Type} (f : S → B).
Lemma preserves_ret {A} (v : A) : preserves f (mret v).
Proof. by intros s. Qed.
Lemma preserves_fail {A} e : preserves f (fail e : M S A).
Proof. by intros s. Qed.
Lemma preserves_get : preserves f get.
Proof. by intros s. Qed.
Lemma preserves_gets {A} (g : S → A) : preserves f (gets g).
Proof. by intros s. Qed.
Lemma preserves_modify g : (∀ s, f (g s) = f s) → preserves f (modify g).
Proof. intros Hg s. apply Hg. Qed.
Lemma preserves_bind {A C} (m : M S A) (k : A → M S C) : preserves f m → (∀ v, preserves f (k v)) → preserves f (m ≫= k).
Proof.
  intros Hm Hk s. apply wlp_bind. eapply wlp_mono; [apply Hm|]. intros v s' E1. eapply wlp_mono; [apply Hk|].
  intros v' s'' E2. by rewrite E2.
Qed.
Lemma preserves_when c (m : M S unit) : preserves f m → preserves f (when c m).
Proof. destruct c; [done|]. intros _. apply preserves_ret. Qed.
Lemma preserves_wp {A} (m : M S A) Q s : preserves f m → wp m Q s → wp m (λ v s', f s' = f s ∧ Q v s') s.
Proof. intros Hp. specialize (Hp s). unfold wp, wlp in *. by destruct (m s). Qed.
End preserves.
Create HintDb frame discriminated.
#[export] Hint Resolve preserves_ret preserves_fail preserves_get preserves_gets : frame.
#[export] Hint Extern 2 (preserves _ (modify _)) => (apply preserves_modify; intros; reflexivity) : frame.
Ltac solve_preserves :=
  repeat first [progress eauto with frame|apply preserves_bind; [|intros ?]|apply preserves_when|case_match].

Create HintDb abt_wp discriminated.

(** Symbolic execution of one monadic operation. *)
Ltac wp_step :=
  lazymatch goal with
  | |- wp (mbind _ _) _ _ => apply wp_bind
  | |- wp (mret _) _ _ => apply wp_ret
  | |- wp get _ _ => apply wp_get
  | |- wp (gets _) _ _ => apply wp_gets
  | |- wp (modify _) _ _ => apply wp_modify
  | |- wp (when ?b _) _ _ => apply wp_when; intros ?
  end.
Ltac wlp_step :=
  lazymatch goal with
  | |- wlp (mbind _ _) _ _ => apply wlp_bind
  | |- wlp (mret _) _ _ => apply wlp_ret
  | |- wlp (gets _) _ _ => apply wlp_gets
  | |- wlp (modify _) _ _ => apply wlp_modify
  end.
