(* ===== verification/AbtTypes.v ===== *)
(** * Public constants of the C ABI

    The integer constants of [include/abt.h]: return codes, enumerations,
    null handles.  They stay integers, because the API compares and range
    checks them as C integers.  Their names are in [Info]. *)

From S2P Require Import Prelude.

(** ** Return codes *)

Definition ABT_SUCCESS : Z := 0.
Definition ABT_ERR_UNINITIALIZED : Z := 1.
Definition ABT_ERR_MEM : Z := 2.
Definition ABT_ERR_OTHER : Z := 3.
Definition ABT_ERR_INV_XSTREAM : Z := 4.
Definition ABT_ERR_INV_XSTREAM_RANK : Z := 5.
Definition ABT_ERR_INV_XSTREAM_BARRIER : Z := 6.
Definition ABT_ERR_INV_SCHED : Z := 7.
Definition ABT_ERR_INV_SCHED_KIND : Z := 8.
Definition ABT_ERR_INV_SCHED_PREDEF : Z := 9.
Definition ABT_ERR_INV_SCHED_TYPE : Z := 10.
Definition ABT_ERR_INV_SCHED_CONFIG : Z := 11.
Definition ABT_ERR_INV_POOL : Z := 12.
Definition ABT_ERR_INV_POOL_KIND : Z := 13.
Definition ABT_ERR_INV_POOL_ACCESS : Z := 14.
Definition ABT_ERR_INV_POOL_CONFIG : Z := 56.
Definition ABT_ERR_INV_POOL_USER_DEF : Z := 57.
Definition ABT_ERR_INV_UNIT : Z := 15.
Definition ABT_ERR_INV_THREAD : Z := 16.
Definition ABT_ERR_INV_THREAD_ATTR : Z := 17.
Definition ABT_ERR_INV_TASK : Z := 18.
Definition ABT_ERR_INV_KEY : Z := 19.
Definition ABT_ERR_INV_MUTEX : Z := 20.
Definition ABT_ERR_INV_MUTEX_ATTR : Z := 21.
Definition ABT_ERR_INV_COND : Z := 22.
Definition ABT_ERR_INV_RWLOCK : Z := 23.
Definition ABT_ERR_INV_EVENTUAL : Z := 24.
Definition ABT_ERR_INV_FUTURE : Z := 25.
Definition ABT_ERR_INV_BARRIER : Z := 26.
Definition ABT_ERR_INV_TIMER : Z := 27.
Definition ABT_ERR_INV_QUERY_KIND : Z := 28.
Definition ABT_ERR_INV_TOOL_CONTEXT : Z := 52.
Definition ABT_ERR_INV_ARG : Z := 53.
Definition ABT_ERR_XSTREAM : Z := 29.
Definition ABT_ERR_XSTREAM_STATE : Z := 30.
Definition ABT_ERR_XSTREAM_BARRIER : Z := 31.
Definition ABT_ERR_SCHED : Z := 32.
Definition ABT_ERR_SCHED_CONFIG : Z := 33.
Definition ABT_ERR_POOL : Z := 34.
Definition ABT_ERR_UNIT : Z := 35.
Definition ABT_ERR_THREAD : Z := 36.
Definition ABT_ERR_TASK : Z := 37.
Definition ABT_ERR_KEY : Z := 38.
Definition ABT_ERR_MUTEX : Z := 39.
Definition ABT_ERR_MUTEX_LOCKED : Z := 40.
Definition ABT_ERR_COND : Z := 41.
Definition ABT_ERR_COND_TIMEDOUT : Z := 42.
Definition ABT_ERR_RWLOCK : Z := 43.
Definition ABT_ERR_EVENTUAL : Z := 44.
Definition ABT_ERR_FUTURE : Z := 45.
Definition ABT_ERR_BARRIER : Z := 46.
Definition ABT_ERR_TIMER : Z := 47.
Definition ABT_ERR_MIGRATION_TARGET : Z := 48.
Definition ABT_ERR_MIGRATION_NA : Z := 49.
Definition ABT_ERR_MISSING_JOIN : Z := 50.
Definition ABT_ERR_FEATURE_NA : Z := 51.
Definition ABT_ERR_SYS : Z := 54.
Definition ABT_ERR_CPUID : Z := 55.

(** ** Null handles: small non-zero sentinels, one per handle type *)

Definition ABT_XSTREAM_NULL : Z := 1.
Definition ABT_XSTREAM_BARRIER_NULL : Z := 2.
Definition ABT_SCHED_NULL : Z := 3.
Definition ABT_SCHED_CONFIG_NULL : Z := 4.
Definition ABT_POOL_NULL : Z := 5.
Definition ABT_POOL_CONFIG_NULL : Z := 6.
Definition ABT_UNIT_NULL : Z := 7.
Definition ABT_THREAD_NULL : Z := 8.
Definition ABT_THREAD_ATTR_NULL : Z := 9.
Definition ABT_TASK_NULL : Z := 10.
Definition ABT_KEY_NULL : Z := 11.
Definition ABT_MUTEX_NULL : Z := 12.
Definition ABT_MUTEX_ATTR_NULL : Z := 13.
Definition ABT_COND_NULL : Z := 14.
Definition ABT_RWLOCK_NULL : Z := 15.
Definition ABT_EVENTUAL_NULL : Z := 16.
Definition ABT_FUTURE_NULL : Z := 17.
Definition ABT_BARRIER_NULL : Z := 18.
Definition ABT_TIMER_NULL : Z := 19.
Definition ABT_TOOL_CONTEXT_NULL : Z := 20.
Definition ABT_POOL_USER_DEF_NULL : Z := 21.

Definition ABT_TRUE : Z := 1.
Definition ABT_FALSE : Z := 0.

(** ** Enumerations *)

(** [enum ABT_xstream_state] *)
Definition ABT_XSTREAM_STATE_RUNNING : Z := 0.
Definition ABT_XSTREAM_STATE_TERMINATED : Z := 1.

(** [enum ABT_thread_state] *)
Definition ABT_THREAD_STATE_READY : Z := 0.
Definition ABT_THREAD_STATE_RUNNING : Z := 1.
Definition ABT_THREAD_STATE_BLOCKED : Z := 2.
Definition ABT_THREAD_STATE_TERMINATED : Z := 3.

(** [enum ABT_task_state] *)
Definition ABT_TASK_STATE_READY : Z := 0.
Definition ABT_TASK_STATE_RUNNING : Z := 1.
Definition ABT_TASK_STATE_TERMINATED : Z := 2.

(** [enum ABT_sched_predef] *)
Definition ABT_SCHED_DEFAULT : Z := 0.
Definition ABT_SCHED_BASIC : Z := 1.
Definition ABT_SCHED_PRIO : Z := 2.
Definition ABT_SCHED_RANDWS : Z := 3.
Definition ABT_SCHED_BASIC_WAIT : Z := 4.

(** [enum ABT_pool_kind] *)
Definition ABT_POOL_FIFO : Z := 0.
Definition ABT_POOL_FIFO_WAIT : Z := 1.
Definition ABT_POOL_RANDWS : Z := 2.

(** [enum ABT_pool_access] *)
Definition ABT_POOL_ACCESS_PRIV : Z := 0.
Definition ABT_POOL_ACCESS_SPSC : Z := 1.
Definition ABT_POOL_ACCESS_MPSC : Z := 2.
Definition ABT_POOL_ACCESS_SPMC : Z := 3.
Definition ABT_POOL_ACCESS_MPMC : Z := 4.

(** [enum ABT_unit_type] *)
Definition ABT_UNIT_TYPE_THREAD : Z := 0.
Definition ABT_UNIT_TYPE_TASK : Z := 1.
Definition ABT_UNIT_TYPE_XSTREAM : Z := 2.
Definition ABT_UNIT_TYPE_EXT : Z := 3.

(** [enum ABT_info_query_kind] *)
Definition ABT_INFO_QUERY_KIND_ENABLED_DEBUG : Z := 0.
Definition ABT_INFO_QUERY_KIND_ENABLED_PRINT_ERRNO : Z := 1.
Definition ABT_INFO_QUERY_KIND_ENABLED_LOG : Z := 2.
Definition ABT_INFO_QUERY_KIND_ENABLED_VALGRIND : Z := 3.
Definition ABT_INFO_QUERY_KIND_ENABLED_CHECK_ERROR : Z := 4.
Definition ABT_INFO_QUERY_KIND_ENABLED_CHECK_POOL_PRODUCER : Z := 5.
Definition ABT_INFO_QUERY_KIND_ENABLED_CHECK_POOL_CONSUMER : Z := 6.
Definition ABT_INFO_QUERY_KIND_ENABLED_PRESERVE_FPU : Z := 7.
Definition ABT_INFO_QUERY_KIND_ENABLED_THREAD_CANCEL : Z := 8.
Definition ABT_INFO_QUERY_KIND_ENABLED_TASK_CANCEL : Z := 9.
Definition ABT_INFO_QUERY_KIND_ENABLED_MIGRATION : Z := 10.
Definition ABT_INFO_QUERY_KIND_ENABLED_STACKABLE_SCHED : Z := 11.
Definition ABT_INFO_QUERY_KIND_ENABLED_EXTERNAL_THREAD : Z := 12.
Definition ABT_INFO_QUERY_KIND_ENABLED_SCHED_SLEEP : Z := 13.
Definition ABT_INFO_QUERY_KIND_ENABLED_PRINT_CONFIG : Z := 14.
Definition ABT_INFO_QUERY_KIND_ENABLED_AFFINITY : Z := 15.
Definition ABT_INFO_QUERY_KIND_MAX_NUM_XSTREAMS : Z := 16.
Definition ABT_INFO_QUERY_KIND_DEFAULT_THREAD_STACKSIZE : Z := 17.
Definition ABT_INFO_QUERY_KIND_DEFAULT_SCHED_STACKSIZE : Z := 18.
Definition ABT_INFO_QUERY_KIND_DEFAULT_SCHED_EVENT_FREQ : Z := 19.
Definition ABT_INFO_QUERY_KIND_DEFAULT_SCHED_SLEEP_NSEC : Z := 20.
Definition ABT_INFO_QUERY_KIND_ENABLED_TOOL : Z := 21.
Definition ABT_INFO_QUERY_KIND_FCONTEXT : Z := 22.
Definition ABT_INFO_QUERY_KIND_DYNAMIC_PROMOTION : Z := 23.
Definition ABT_INFO_QUERY_KIND_ENABLED_STACK_UNWIND : Z := 24.
Definition ABT_INFO_QUERY_KIND_ENABLED_STACK_OVERFLOW_CHECK : Z := 25.
Definition ABT_INFO_QUERY_KIND_WAIT_POLICY : Z := 26.
Definition ABT_INFO_QUERY_KIND_ENABLED_LAZY_STACK_ALLOC : Z := 27.

(** [ABT_sched_config_type] and [ABT_pool_config_type] *)
Definition ABT_SCHED_CONFIG_INT : Z := 0.
Definition ABT_SCHED_CONFIG_DOUBLE : Z := 1.
Definition ABT_SCHED_CONFIG_PTR : Z := 2.
Definition ABT_POOL_CONFIG_INT : Z := 0.
Definition ABT_POOL_CONFIG_DOUBLE : Z := 1.
Definition ABT_POOL_CONFIG_PTR : Z := 2.
