(* ===== verification/Config.v ===== *)
(** * Configuration objects

    The typed key/value maps of src/sched.cpp ([ABT_sched_config_*]) and
    src/pool.cpp ([ABT_pool_config_*]).  Values go in and out through untyped
    pointers, so the memory they point to is a list of bytes, little-endian:
    an [int] is its first four bytes, a [double] or a pointer its first eight.
    Touching a buffer that is too short is a fault.  A [double] is kept as its
    bit pattern, since no arithmetic is done on it here. *)

From S2P Require Import Prelude AbtTypes.

(** ** Memory *)

Abbreviation bytes := (list Z) (only parsing).
Definition byte_ok (b : Z) : Prop := 0 ≤ b < 256.

Fixpoint le_decode (l : bytes) : Z :=
  match l with [] => 0 | b :: l => b + 256 * le_decode l end.
Fixpoint le_encode (n : nat) (x : Z) : bytes :=
  match n with O => [] | S n => x mod 256 :: le_encode n (x / 256) end.

(** [*(const T * )val] for a type of [n] bytes, as an unsigned number *)
Definition load (n : nat) (buf : bytes) : option Z :=
  if decide (n ≤ length buf)%nat then Some (le_decode (take n buf)) else None.
(** [*(T * )val = x] *)
Definition store (n : nat) (x : Z) (buf : bytes) : option bytes :=
  if decide (n ≤ length buf)%nat then Some (le_encode n x ++ drop n buf) else None.
(** The memory behind a pointer, when a fault is the alternative. *)
Definition deref {S A} (o : option A) : M S A :=
  match o with Some a => mret a | None => fail BadDeref end.

Section bytes.
Implicit Types (l : bytes) (n : nat) (x : Z).

Lemma le_encode_length n x : length (le_encode n x) = n.
Proof. revert x. induction n; intros; simpl; auto. Qed.
Lemma le_encode_mod n x : le_encode n (x mod 256 ^ Z.of_nat n) = le_encode n x.
Proof.
  revert x. induction n as [|n IH]; intros x; [done|]. cbn [le_encode].
  rewrite Nat2Z.inj_succ, Z.pow_succ_r by lia.
  assert (0 < 256 ^ Z.of_nat n) by (apply Z.pow_pos_nonneg; lia). f_equal.
  - apply Z.mod_mod_divide. by exists (256 ^ Z.of_nat n); rewrite Z.mul_comm.
  - rewrite <-(IH (x / 256)). f_equal. rewrite Z.rem_mul_r by lia.
    rewrite (Z.mul_comm 256 (_ mod _)), Z.div_add by lia.
    by rewrite Z.div_small by (apply Z.mod_pos_bound; lia).
Qed.
Lemma le_encode_decode l : Forall byte_ok l → le_encode (length l) (le_decode l) = l.
Proof.
  induction 1 as [|b l Hb _ IH]; [done|]. unfold byte_ok in Hb. cbn [le_encode le_decode length].
  rewrite (Z.mul_comm 256), Z.mod_add, Z.div_add by lia.
  by rewrite Z.mod_small, Z.div_small, Z.add_0_l, IH by lia.
Qed.
Lemma le_decode_bound l : Forall byte_ok l → 0 ≤ le_decode l < 256 ^ Z.of_nat (length l).
Proof.
  induction 1 as [|b l Hb _ IH]; [done|]. unfold byte_ok in Hb. cbn [le_decode length].
  rewrite Nat2Z.inj_succ, Z.pow_succ_r by lia. lia.
Qed.
Lemma load_Some n buf : (n ≤ length buf)%nat → load n buf = Some (le_decode (take n buf)).
Proof. intros. unfold load. by rewrite decide_True. Qed.
Lemma store_Some n x buf : (n ≤ length buf)%nat → store n x buf = Some (le_encode n x ++ drop n buf).
Proof. intros. unfold store. by rewrite decide_True. Qed.
End bytes.

(** ** Values *)

(** [ABTI_sched_config_val] and [ABTI_pool_config_val]; the three types have
    the same numbers in both enumerations. *)
Record config_val : Type := mk_val {
  v_type : Z;
  v_i : Z;
  v_d : Z;
  v_p : Z;
}.
#[global] Instance eta_config_val : Eta config_val := λ v, mk_val (v_type v) (v_i v) (v_d v) (v_p v).
Abbreviation config_map := (gmap Z config_val).

(** The bytes a value of a type takes. *)
Definition val_width (type : Z) : nat := if type =? ABT_SCHED_CONFIG_INT then 4 else 8.

(** [v{}; v.type = type; v.i/.d/.p = *val] *)
Definition read_val (type : Z) (buf : bytes) : option config_val :=
  let v := mk_val type 0 0 0 in
  if type =? ABT_SCHED_CONFIG_INT then i ← load 4 buf; Some (v <| v_i := wraps32 i |>)
  else if type =? ABT_SCHED_CONFIG_DOUBLE then d ← load 8 buf; Some (v <| v_d := d |>)
  else p ← load 8 buf; Some (v <| v_p := p |>).
(** [*val = v.i/.d/.p] *)
Definition write_val (v : config_val) (buf : bytes) : option bytes :=
  if v_type v =? ABT_SCHED_CONFIG_INT then store 4 (v_i v) buf
  else if v_type v =? ABT_SCHED_CONFIG_DOUBLE then store 8 (v_d v) buf
  else store 8 (v_p v) buf.

Lemma take_encode n buf x :
  Forall byte_ok buf → (n ≤ length buf)%nat → x mod 256 ^ Z.of_nat n = le_decode (take n buf) →
  le_encode n x = take n buf.
Proof.
  intros Hb Hn Hx. rewrite <-le_encode_mod, Hx. rewrite <-(le_encode_decode (take n buf)) at 2.
  - by rewrite length_take, Nat.min_l.
  - by apply Forall_take.
Qed.

(** What a value holds is the bytes it was read from. *)
Lemma write_read type src v dst :
  Forall byte_ok src → read_val type src = Some v → (val_width type ≤ length dst)%nat →
  v_type v = type ∧ write_val v dst = Some (take (val_width type) src ++ drop (val_width type) dst).
Proof.
  intros Hb Hr Hd. unfold read_val, val_width, write_val in *.
  assert (∀ n, (n ≤ length src)%nat → 0 ≤ le_decode (take n src) < 256 ^ Z.of_nat n) as Hbound.
  { intros n Hn. rewrite <-(Nat.min_l n (length src)) at 3 by done. rewrite <-length_take.
    apply le_decode_bound. by apply Forall_take. }
  destruct (type =? ABT_SCHED_CONFIG_INT) eqn:Hi; [|destruct (type =? ABT_SCHED_CONFIG_DOUBLE) eqn:Hdb];
    unfold load in Hr; (case_decide as Hn; [|done]); simplify_eq/=; rewrite ?Hi, ?Hdb;
    (split; [done|]); rewrite store_Some by done; do 2 f_equal; apply take_encode; try done.
  - unfold wraps32. specialize (Hbound _ Hn). change (256 ^ Z.of_nat 4) with (2 ^ 32) in *.
    rewrite Zminus_mod_idemp_l. rewrite Z.add_simpl_r. by apply Z.mod_small.
  - by apply Z.mod_small, Hbound.
  - by apply Z.mod_small, Hbound.
Qed.

(** ** The maps *)

(** [ABT_*_config_set] once the handle is resolved; a null [val] erases *)
Definition vals_set (key type : Z) (val : option bytes) (m : config_map) : option config_map :=
  match val with
  | None => Some (delete key m)
  | Some buf => v ← read_val type buf; Some (<[key := v]> m)
  end.

(** [ABT_*_config_get] once the handle is resolved: the code, the type stored
    through [p_type] and the bytes behind [val] after the call. *)
Definition vals_get (key : Z) (p_type : bool) (val : option bytes) (bad : Z) (m : config_map) :
    option (Z * option Z * option bytes) :=
  match m !! key with
  | None => Some (bad, None, val)
  | Some v =>
      let t := if p_type then Some (v_type v) else None in
      match val with
      | None => Some (ABT_SUCCESS, t, None)
      | Some buf => buf' ← write_val v buf; Some (ABT_SUCCESS, t, Some buf')
      end
  end.
