(* ===== verification/Objects.v ===== *)
(** * Objects and global state of the library

    The structs of [src/abti.h] as records, the handle conversions, the calls
    into code outside the repository (the Reconverse runtime and the callbacks
    of user-defined pools and schedulers) as a class, and the [world]: one
    heap per object type, the fields of [ABTI_global], an allocator and the
    log of wake-ups sent to other execution streams. *)

From Stdlib Require Import SpecFloat.
From S2P Require Import Prelude AbtTypes Config.

(** ** Handles *)

(** Null and the sentinels 0x01..0x15 all mean "no object". *)
Definition ABTI_is_null_handle (h : Z) : bool := h <? 256.
Definition ABTI_obj (h : Z) : option ptr :=
  if ABTI_is_null_handle h then None else Some h.
Definition ABTI_pool_get (h : Z) : option ptr := ABTI_obj h.
Definition ABTI_pool_handle (p : option ptr) : Z := default ABT_POOL_NULL p.
Definition ABTI_sched_get (h : Z) : option ptr := ABTI_obj h.
Definition ABTI_sched_handle (s : option ptr) : Z := default ABT_SCHED_NULL s.
Definition ABTI_xstream_get (h : Z) : option ptr := ABTI_obj h.
Definition ABTI_xstream_handle (x : option ptr) : Z := default ABT_XSTREAM_NULL x.
Definition ABTI_thread_get (h : Z) : option ptr := ABTI_obj h.
Definition ABTI_thread_handle (t : option ptr) : Z := default ABT_THREAD_NULL t.
Definition ABTI_attr_get (h : Z) : option ptr := ABTI_obj h.
Definition ABTI_key_get (h : Z) : option ptr := ABTI_obj h.

(** ** Structs *)

(** A pointer to an [ABTI_qnode]: the pool's own stub node or the node
    embedded in a thread, whose [owner] is that thread. *)
Inductive qref : Type :=
  | Stub
  | Qn (t : ptr).
#[global] Instance qref_eq_dec : EqDecision qref.
Proof. solve_decision. Defined.
Definition owner (q : qref) : option ptr :=
  match q with Stub => None | Qn t => Some t end.

Inductive ABTI_thread_type : Type :=
  | ABTI_THREAD_PRIMARY
  | ABTI_THREAD_NAMED
  | ABTI_THREAD_DETACHED
  | ABTI_THREAD_SCHED.
#[global] Instance ABTI_thread_type_eq_dec : EqDecision ABTI_thread_type.
Proof. solve_decision. Defined.

Record ABTI_thread_attr : Type := mk_attr {
  stacksize : Z;
  stackaddr : option ptr;
  migratable : Z;
}.

#[global] Instance eta_attr : Eta ABTI_thread_attr := λ a,
  mk_attr (stacksize a) (stackaddr a) (migratable a).

Record ABTI_thread : Type := mk_thread {
  qn_next : option qref;
  lprev : option ptr;
  lnext : option ptr;
  in_pool : bool;
  removed : bool;
  cth : option Z;
  t_pool : option ptr;
  t_unit : Z;
  t_type : ABTI_thread_type;
  fn : option Z;
  arg : Z;
  t_attr : ABTI_thread_attr;
  t_id : Z;
  last_xstream : option ptr;
  migrate_to : option ptr;
  terminated : bool;
  t_joiners : list Z;
  t_keys : list Z;
  freed_by_exit : bool;
  is_task : bool;
  blocked_pool : option ptr;
  t_parent : option Z;
  blocked_counted : bool;
  tstate : Z;
}.
#[global] Instance eta_thread : Eta ABTI_thread := λ t,
  mk_thread (qn_next t) (lprev t) (lnext t) (in_pool t) (removed t) (cth t) (t_pool t)
    (t_unit t) (t_type t) (fn t) (arg t) (t_attr t) (t_id t) (last_xstream t)
    (migrate_to t) (terminated t) (t_joiners t) (t_keys t) (freed_by_exit t)
    (is_task t) (blocked_pool t) (t_parent t) (blocked_counted t) (tstate t).

(** A user-defined pool's callbacks, as function pointers. *)
Record ABT_pool_def : Type := mk_pool_def {
  d_access : Z;
  u_get_type : option Z;
  u_get_thread : option Z;
  u_get_task : option Z;
  u_is_in_pool : option Z;
  u_create_from_thread : option Z;
  u_create_from_task : option Z;
  u_free : option Z;
  p_init : option Z;
  p_get_size : option Z;
  p_push : option Z;
  p_pop : option Z;
  p_pop_timedwait : option Z;
  p_remove : option Z;
  p_free : option Z;
  p_print_all : option Z;
}.

Record ABTI_pool : Type := mk_pool {
  access : Z;
  kind : Z;
  p_automatic : Z;
  p_id : Z;
  user : bool;
  def : option ABT_pool_def;
  p_data : Z;
  single_consumer : bool;
  stub_next : option qref;
  q_tail : qref;
  q_head : qref;
  lhead : option ptr;
  ltail : option ptr;
  count : Z;
  waiters : Z;
  num_blocked : Z;
  num_scheds : Z;
  nsleepers : Z;
  smask : list Z;
}.
#[global] Instance eta_pool : Eta ABTI_pool := λ p,
  mk_pool (access p) (kind p) (p_automatic p) (p_id p) (user p) (def p) (p_data p)
    (single_consumer p) (stub_next p) (q_tail p) (q_head p) (lhead p) (ltail p) (count p)
    (waiters p) (num_blocked p) (num_scheds p) (nsleepers p) (smask p).

(** A user-defined scheduler's callbacks. *)
Record ABT_sched_def : Type := mk_sched_def {
  sd_init : option Z;
  sd_run : option Z;
  sd_free : option Z;
}.

Record ABTI_sched : Type := mk_sched {
  predef : Z;
  user_def : bool;
  pools : list ptr;
  s_automatic : Z;
  event_freq : Z;
  used_by : option ptr;
  s_data : Z;
  request : Z;
  s_def : option ABT_sched_def;
  s_config : Z;
  runner : option Z;
  s_in_pool : bool;
}.
#[global] Instance eta_sched : Eta ABTI_sched := λ s,
  mk_sched (predef s) (user_def s) (pools s) (s_automatic s) (event_freq s) (used_by s)
    (s_data s) (request s) (s_def s) (s_config s) (runner s) (s_in_pool s).

Definition ABTI_SCHED_REQ_FINISH : Z := 1.
Definition ABTI_SCHED_REQ_EXIT : Z := 2.

Record ABTI_key : Type := mk_key {
  k_destructor : option Z;
  k_id : Z;
}.

(** ** Code outside the repository *)

(** The Reconverse runtime and the user's callbacks, with the state they keep
    between calls.  A function pointer is a [Z]; [call_f] is what calling it
    does.  The callbacks see the library only through the arguments they are
    given. *)
Class Ext : Type := {
  ext_st : Type;
  (** the PE a Converse thread may be resumed on *)
  CthGetHomeRank : Z → ext_st → Z;
  (** the clock, in seconds *)
  CmiWallTimer : ext_st → spec_float * ext_st;
  (** the C library's [random()] *)
  random : ext_st → Z * ext_st;
  call_u_create_from_thread : Z → Z → ext_st → Z * ext_st;
  call_u_free : Z → Z → ext_st → ext_st;
  call_p_init : Z → Z → Z → ext_st → Z * ext_st;
  call_p_get_size : Z → Z → ext_st → Z;
  call_p_push : Z → Z → Z → ext_st → ext_st;
  call_p_pop : Z → Z → ext_st → Z * ext_st;
  call_p_pop_timedwait : Z → Z → spec_float → ext_st → Z * ext_st;
  call_p_remove : Z → Z → Z → ext_st → ext_st;
  call_p_free : Z → Z → ext_st → ext_st;
  call_p_print_all : Z → Z → Z → Z → ext_st → ext_st;
  (** the [print_fn] a caller hands to [ABT_pool_print_all] *)
  call_print : Z → Z → Z → ext_st → ext_st;
  call_sched_init : Z → Z → Z → ext_st → Z * ext_st;
  call_sched_free : Z → Z → ext_st → ext_st;
  (** Converse threads: creation (for the unit at an address, with a stack
      size), freeing, and their state, one of four constants *)
  CthCreate : Z → Z → ext_st → Z * ext_st;
  CthFree : Z → ext_st → ext_st;
  CthGetState : Z → ext_st → Z;
  CTH_STATE_READY : Z;
  CTH_STATE_RUNNING : Z;
  CTH_STATE_BLOCKED : Z;
  CTH_STATE_TERMINATED : Z;
  (** a key's destructor, on a value *)
  call_key_dtor : Z → Z → ext_st → ext_st;
}.

(** ** The world *)

(** What other execution streams are told to do. *)
Inductive event : Type :=
  | CsdIdleNotify (rank : Z)
  | CvNotifyOne (pool : ptr)
  | CsdReleaseIdle (rank : Z)
  (** the token of Converse thread [k] queued for a PE *)
  | CthTokenPushed (rank k : Z).

Record world `{Ext} : Type := mk_world {
  w_pools : gmap Z ABTI_pool;
  w_threads : gmap Z ABTI_thread;
  w_scheds : gmap Z ABTI_sched;
  (** scheduler and pool configuration objects: their [vals] *)
  w_sconfigs : gmap Z config_map;
  w_pconfigs : gmap Z config_map;
  w_brk : Z;
  w_log : list event;
  (** [ABTI_global] *)
  g_initialized : bool;
  g_next_id : Z;
  g_num_user_pools : Z;
  g_units : gmap Z ptr;
  g_next_key : Z;
  g_default_stacksize : Z;
  (** attribute and key objects, and the key destructors by key id *)
  w_attrs : gmap Z ABTI_thread_attr;
  w_keys : gmap Z ABTI_key;
  g_key_dtors : list (option Z);
  (** the state of code outside the repository *)
  w_ext : ext_st;
}.
Arguments world {_}.

Section world.
Context `{Ext}.

#[global] Instance eta_world : Eta world := λ w,
  mk_world _ (w_pools w) (w_threads w) (w_scheds w) (w_sconfigs w) (w_pconfigs w) (w_brk w) (w_log w) (g_initialized w)
    (g_next_id w) (g_num_user_pools w) (g_units w) (g_next_key w) (g_default_stacksize w)
    (w_attrs w) (w_keys w) (g_key_dtors w) (w_ext w).

(** [*p], [p->f = v] for each object type: a fault when [p] is dangling. *)
Definition thread (t : ptr) : M world ABTI_thread := λ w,
  match w_threads w !! t with Some x => Done x w | None => Faulted BadDeref end.
Definition set_thread (t : ptr) (f : ABTI_thread → ABTI_thread) : M world unit := λ w,
  match w_threads w !! t with
  | Some x => Done tt (w <| w_threads ::= insert t (f x) |>)
  | None => Faulted BadDeref
  end.
Definition pool (p : ptr) : M world ABTI_pool := λ w,
  match w_pools w !! p with Some x => Done x w | None => Faulted BadDeref end.
Definition set_pool (p : ptr) (f : ABTI_pool → ABTI_pool) : M world unit := λ w,
  match w_pools w !! p with
  | Some x => Done tt (w <| w_pools ::= insert p (f x) |>)
  | None => Faulted BadDeref
  end.
Definition sched (s : ptr) : M world ABTI_sched := λ w,
  match w_scheds w !! s with Some x => Done x w | None => Faulted BadDeref end.
Definition set_sched (s : ptr) (f : ABTI_sched → ABTI_sched) : M world unit := λ w,
  match w_scheds w !! s with
  | Some x => Done tt (w <| w_scheds ::= insert s (f x) |>)
  | None => Faulted BadDeref
  end.
Definition emit (e : event) : M world unit := modify (λ w, w <| w_log ::= λ l, l ++ [e] |>).
(** a call into code outside the repository *)
Definition ext {A} (f : ext_st → A * ext_st) : M world A := λ w,
  let '(a, x) := f (w_ext w) in Done a (w <| w_ext := x |>).
Definition ext_ (f : ext_st → ext_st) : M world unit :=
  modify (λ w, w <| w_ext ::= f |>).
(** [new]: an address that no object has and no sentinel is. *)
Definition new_addr : M world ptr := λ w, Done (w_brk w) (w <| w_brk ::= Z.succ |>).
(** [ABTI_g->next_id.fetch_add(1)] *)
Definition fetch_id : M world Z := λ w,
  Done (g_next_id w) (w <| g_next_id ::= λ n, wrapu64 (n + 1) |>).
(** calling through a function pointer that is null is a fault *)
Definition callee (f : option Z) : M world Z :=
  match f with Some a => mret a | None => fail BadDeref end.

Lemma wp_thread t x Q w : w_threads w !! t = Some x → Q x w → wp (thread t) Q w.
Proof. unfold wp, thread. by intros ->. Qed.
Lemma wp_set_thread t x f (Q : unit → world → Prop) w :
  w_threads w !! t = Some x → Q tt (w <| w_threads ::= insert t (f x) |>) →
  wp (set_thread t f) Q w.
Proof. unfold wp, set_thread. by intros ->. Qed.
Lemma wp_pool p x Q w : w_pools w !! p = Some x → Q x w → wp (pool p) Q w.
Proof. unfold wp, pool. by intros ->. Qed.
Lemma wp_set_pool p x f (Q : unit → world → Prop) w :
  w_pools w !! p = Some x → Q tt (w <| w_pools ::= insert p (f x) |>) →
  wp (set_pool p f) Q w.
Proof. unfold wp, set_pool. by intros ->. Qed.
Lemma wp_sched s x Q w : w_scheds w !! s = Some x → Q x w → wp (sched s) Q w.
Proof. unfold wp, sched. by intros ->. Qed.
Lemma wp_set_sched s x f (Q : unit → world → Prop) w :
  w_scheds w !! s = Some x → Q tt (w <| w_scheds ::= insert s (f x) |>) →
  wp (set_sched s f) Q w.
Proof. unfold wp, set_sched. by intros ->. Qed.
Lemma wp_emit e (Q : unit → world → Prop) w :
  Q tt (w <| w_log ::= λ l, l ++ [e] |>) → wp (emit e) Q w.
Proof. done. Qed.
Lemma wp_ext_ f (Q : unit → world → Prop) w : Q tt (w <| w_ext ::= f |>) → wp (ext_ f) Q w.
Proof. done. Qed.
Lemma wp_ext {A} (f : ext_st → A * ext_st) (Q : A → world → Prop) w :
  Q (f (w_ext w)).1 (w <| w_ext := (f (w_ext w)).2 |>) → wp (ext f) Q w.
Proof. unfold wp, ext. by destruct (f (w_ext w)). Qed.
Lemma wp_callee f a (Q : Z → world → Prop) w : f = Some a → Q a w → wp (callee f) Q w.
Proof. by intros ->. Qed.

(** What the accesses leave alone. *)
Section frames.
Context {B : Type} (ob : world → B).
Lemma preserves_thread t : preserves ob (thread t).
Proof. intros w. unfold wlp, thread. by destruct (_ !! t). Qed.
Lemma preserves_pool p : preserves ob (pool p).
Proof. intros w. unfold wlp, pool. by destruct (_ !! p). Qed.
Lemma preserves_sched s : preserves ob (sched s).
Proof. intros w. unfold wlp, sched. by destruct (_ !! s). Qed.
Lemma preserves_set_thread t g : (∀ w x, w_threads w !! t = Some x → ob (w <| w_threads ::= insert t (g x) |>) = ob w) →
  preserves ob (set_thread t g).
Proof. intros Hf w. unfold wlp, set_thread. destruct (w_threads w !! t) as [x|] eqn:Hx; [by apply Hf|done]. Qed.
Lemma preserves_set_pool p g : (∀ w x, ob (w <| w_pools ::= insert p (g x) |>) = ob w) → preserves ob (set_pool p g).
Proof. intros Hf w. unfold wlp, set_pool. destruct (w_pools w !! p); [apply Hf|done]. Qed.
Lemma preserves_set_sched s g : (∀ w x, ob (w <| w_scheds ::= insert s (g x) |>) = ob w) → preserves ob (set_sched s g).
Proof. intros Hf w. unfold wlp, set_sched. destruct (w_scheds w !! s); [apply Hf|done]. Qed.
Lemma preserves_ext_ g : (∀ w, ob (w <| w_ext ::= g |>) = ob w) → preserves ob (ext_ g).
Proof. intros Hf. by apply preserves_modify. Qed.
End frames.
End world.

#[export] Hint Resolve preserves_thread preserves_pool preserves_sched : frame.
#[export] Hint Extern 2 (preserves _ (set_thread _ _)) => (apply preserves_set_thread; intros; reflexivity) : frame.
#[export] Hint Extern 2 (preserves _ (set_pool _ _)) => (apply preserves_set_pool; intros; reflexivity) : frame.
#[export] Hint Extern 2 (preserves _ (set_sched _ _)) => (apply preserves_set_sched; intros; reflexivity) : frame.
#[export] Hint Extern 2 (preserves _ (ext_ _)) => (apply preserves_ext_; intros; reflexivity) : frame.
