(* ===== verification/Storage.v ===== *)
(** * The state a method of [ABTI_pool] works on

    A member function of [ABTI_pool] (src/pool.cpp) reads and writes the fields
    of its own pool object and of the threads linked into it.  [pst] is that
    state; [on_pool] runs such a method on the pool at an address of the
    [world].  The abstract pool the two storage implementations refine, and the
    interface both discharge, are here too. *)

From S2P Require Import Prelude AbtTypes Objects.

Record pst : Type := mk_pst {
  addr : ptr;
  this : ABTI_pool;
  heap : gmap Z ABTI_thread;
  evs : list event;
}.
#[global] Instance eta_pst : Eta pst := λ s, mk_pst (addr s) (this s) (heap s) (evs s).

(** The same state with another heap, or another own pool object. *)
Abbreviation with_heap s h := (mk_pst (addr s) (this s) h (evs s)).
Abbreviation with_this s p := (mk_pst (addr s) p (heap s) (evs s)).

(** ** Field accesses *)

Definition th (t : ptr) : M pst ABTI_thread := λ s,
  match heap s !! t with Some x => Done x s | None => Faulted BadDeref end.
Definition set_th (t : ptr) (f : ABTI_thread → ABTI_thread) : M pst unit := λ s,
  match heap s !! t with
  | Some x => Done tt (with_heap s (<[t := f x]> (heap s)))
  | None => Faulted BadDeref
  end.
Definition self : M pst ABTI_pool := gets this.
Definition set_self (f : ABTI_pool → ABTI_pool) : M pst unit :=
  modify (λ s, with_this s (f (this s))).
Definition notify (e : event) : M pst unit := modify (λ s, s <| evs ::= λ l, l ++ [e] |>).

Definition put_pst `{Ext} (p : ptr) (s : pst) (w : world) : world :=
  w <| w_pools ::= insert p (this s) |> <| w_threads := heap s |> <| w_log := evs s |>.
Definition on_pool `{Ext} {A} (p : ptr) (m : M pst A) : M world A := λ w,
  match w_pools w !! p with
  | None => Faulted BadDeref
  | Some x =>
      match m (mk_pst p x (w_threads w) (w_log w)) with
      | Faulted f => Faulted f
      | Done a s => Done a (put_pst p s w)
      end
  end.

Section rules.
Lemma wp_th t x Q s : heap s !! t = Some x → Q x s → wp (th t) Q s.
Proof. unfold wp, th. by intros ->. Qed.
Lemma wp_set_th t x f (Q : unit → pst → Prop) s :
  heap s !! t = Some x → Q tt (with_heap s (<[t := f x]> (heap s))) →
  wp (set_th t f) Q s.
Proof. unfold wp, set_th. by intros ->. Qed.
Lemma wp_self Q s : Q (this s) s → wp self Q s.
Proof. done. Qed.
Lemma wp_set_self f (Q : unit → pst → Prop) s :
  Q tt (with_this s (f (this s))) → wp (set_self f) Q s.
Proof. done. Qed.
Lemma wp_on_pool `{Ext} {A} p x (m : M pst A) Q w :
  w_pools w !! p = Some x →
  wp m (λ a s, Q a (put_pst p s w)) (mk_pst p x (w_threads w) (w_log w)) →
  wp (on_pool p m) Q w.
Proof. unfold wp, on_pool. intros ->. by destruct (m _). Qed.
End rules.

(** Symbolic execution of a pool method. *)
Ltac st_step :=
  lazymatch goal with
  | |- wp (th _) _ _ => eapply wp_th
  | |- wp (set_th _ _) _ _ => eapply wp_set_th
  | |- wp self _ _ => apply wp_self
  | |- wp (set_self _) _ _ => apply wp_set_self
  | |- _ => wp_step
  end.

(** ** The abstract pool: a queue of units *)

Module PoolSpec.
(** [pop] passes over a unit at the front that only another PE may resume. *)
Definition pop (pinned : ptr → bool) (l : list ptr) : option ptr * list ptr :=
  match l with
  | [] => (None, [])
  | a :: l' =>
      if pinned a
      then match l' with [] => (None, l) | b :: l'' => (Some b, a :: l'') end
      else (Some a, l')
  end.
Definition push (t : ptr) (l : list ptr) : list ptr := l ++ [t].
Definition remove (t : ptr) (l : list ptr) : list ptr := filter (λ a, a ≠ t) l.

Lemma pop_none pinned l :
  (pop pinned l).1 = None → l = [] ∨ ∃ a, l = [a] ∧ pinned a = true.
Proof. destruct l as [|a [|b l]]; simpl; auto; destruct (pinned a) eqn:?; naive_solver. Qed.
Lemma pop_some pinned l t :
  (pop pinned l).1 = Some t → t ∈ l ∧ (pop pinned l).2 ⊆ l.
Proof.
  destruct l as [|a [|b l]]; simpl; [done|..]; destruct (pinned a); simpl;
    intros; simplify_eq; set_solver.
Qed.
Lemma pop_perm pinned l t :
  (pop pinned l).1 = Some t → l ≡ₚ t :: (pop pinned l).2.
Proof.
  destruct l as [|a [|b l]]; simpl; [done|..]; destruct (pinned a); simpl;
    intros; simplify_eq; auto using Permutation_swap.
Qed.
End PoolSpec.

(** ** What the storage layer owns *)

(** The fields of a thread and of a pool that only the storage layer writes. *)
Definition queue_of (x : ABTI_thread) : option qref * option ptr * option ptr * bool * bool :=
  (qn_next x, lprev x, lnext x, in_pool x, removed x).
Definition store_of (p : ABTI_pool) : option qref * qref * qref * option ptr * option ptr :=
  (stub_next p, q_tail p, q_head p, lhead p, ltail p).
(** ... and everything else, which it leaves alone. *)
Definition erase_queue (x : ABTI_thread) : ABTI_thread :=
  x <| qn_next := None |> <| lprev := None |> <| lnext := None |> <| in_pool := false |>
    <| removed := false |>.
Definition erase_store (p : ABTI_pool) : ABTI_pool :=
  p <| stub_next := None |> <| q_tail := Stub |> <| q_head := Stub |> <| lhead := None |>
    <| ltail := None |> <| count := 0 |>.

Record queue_frame (c : list ptr) (s s' : pst) : Prop := {
  qf_threads : erase_queue <$> heap s' = erase_queue <$> heap s;
  qf_pool : erase_store (this s') = erase_store (this s);
  qf_addr : addr s' = addr s;
  qf_out : ∀ t, t ∉ c → heap s' !! t = heap s !! t;
}.

Lemma queue_frame_refl c s : queue_frame c s s.
Proof. by split. Qed.
Lemma queue_frame_trans c s1 s2 s3 :
  queue_frame c s1 s2 → queue_frame c s2 s3 → queue_frame c s1 s3.
Proof.
  intros [? ? ? Ho] [? ? ? Ho']. split; [congruence..|].
  intros t Ht. by rewrite Ho', Ho.
Qed.
Lemma queue_frame_weaken c c' s s' : c ⊆ c' → queue_frame c s s' → queue_frame c' s s'.
Proof. intros ? []. split; auto. Qed.
Lemma queue_frame_th c s t x y :
  heap s !! t = Some x → erase_queue y = erase_queue x → t ∈ c →
  queue_frame c s (with_heap s (<[t := y]> (heap s))).
Proof.
  intros Hx Heq ?. split; simpl; [|done|done|].
  - rewrite fmap_insert, Heq. apply insert_id. by rewrite lookup_fmap, Hx.
  - intros t' ?. apply lookup_insert_ne. set_solver.
Qed.
Lemma queue_frame_this c s p :
  erase_store p = erase_store (this s) → queue_frame c s (with_this s p).
Proof. by intros. Qed.
Lemma queue_frame_evs c s e : queue_frame c s (s <| evs := e |>).
Proof. by split. Qed.
#[export] Hint Resolve queue_frame_refl queue_frame_trans queue_frame_this queue_frame_evs : abt_wp.

(** Units marked by [ABT_pool_remove] on the lock-free path stay linked until
    the next pop passes them: the visible units are the others. *)
Definition is_removed (h : gmap Z ABTI_thread) (t : ptr) : bool :=
  from_option removed true (h !! t).
Definition units (h : gmap Z ABTI_thread) (c : list ptr) : list ptr :=
  filter (λ t, is_removed h t = false) c.
Definition pin_at (h : gmap Z ABTI_thread) (pinned : ABTI_thread → bool) (t : ptr) : bool :=
  from_option pinned false (h !! t).
(** Whether a thread is pinned depends on nothing the storage layer writes. *)
Definition pinned_ok (pinned : ABTI_thread → bool) : Prop :=
  ∀ x, pinned (erase_queue x) = pinned x.
(** A thread that is in no pool. *)
Definition idle_in (h : gmap Z ABTI_thread) (t : ptr) : Prop :=
  ∃ x, h !! t = Some x ∧ in_pool x = false ∧ removed x = false.

Lemma units_app h c1 c2 : units h (c1 ++ c2) = units h c1 ++ units h c2.
Proof. apply filter_app. Qed.
Lemma units_ext h h' c :
  (∀ t, t ∈ c → is_removed h' t = is_removed h t) → units h' c = units h c.
Proof.
  intros Heq. unfold units. induction c as [|a c IH]; [done|]. rewrite !filter_cons.
  rewrite Heq by set_solver. rewrite IH by set_solver. done.
Qed.
Lemma units_elem h c t : t ∈ units h c ↔ t ∈ c ∧ is_removed h t = false.
Proof. unfold units. rewrite list_elem_of_filter. tauto. Qed.

(** The sleeper mask is four 64-bit words. *)
Definition masks_wf (masks : list Z) : Prop :=
  length masks = 4%nat ∧ ∀ m, m ∈ masks → 0 ≤ m < 2 ^ 64.

(** ** The interface of a pool storage

    [sc] is the value of [single_consumer] that selects it; [link] appends a thread whose [in_pool] flag has just been set, [take] is
    the body of [pop], [drop] the locked part of [remove_unit]; [rep s c]
    says that [s] stores the threads [c], oldest first. *)
Class FifoStore (sc : bool) (link : ptr → M pst unit)
    (take : (ABTI_thread → bool) → M pst (option ptr))
    (drop : ptr → M pst bool)
    (spec_take : (ptr → bool) → list ptr → option ptr * list ptr)
    (rep : pst → list ptr → Prop) : Prop := {
  store_members s c :
    rep s c → NoDup c ∧ ∀ t, t ∈ c → ∃ x, heap s !! t = Some x ∧ in_pool x = true;
  store_stable s s' c :
    rep s c → store_of (this s') = store_of (this s) →
    (∀ t, t ∈ c → queue_of <$> heap s' !! t = queue_of <$> heap s !! t) → rep s' c;
  store_link t x s c :
    rep s c → t ∉ c → heap s !! t = Some x → in_pool x = true → removed x = false →
    wp (link t) (λ _ s', rep s' (c ++ [t]) ∧ queue_frame (c ++ [t]) s s' ∧
      units (heap s') (c ++ [t]) = PoolSpec.push t (units (heap s) c) ∧
      count (this s') = count (this s) ∧ evs s' = evs s) s;
  store_take pinned s c :
    rep s c → pinned_ok pinned → single_consumer (this s) = sc → masks_wf (smask (this s)) →
    wp (take pinned) (λ r s', ∃ c', rep s' c' ∧ queue_frame c s s' ∧ c' ⊆ c ∧
      (r, units (heap s') c') = spec_take (pin_at (heap s) pinned) (units (heap s) c) ∧
      (∀ t, t ∈ c → t ∈ c' ∨ idle_in (heap s') t) ∧
      count (this s') = count (this s) - of_bool (non_null r) ∧
      (∀ t, r = Some t → idle_in (heap s') t)) s;
  store_drop t s c :
    rep s c → t ∈ c →
    wp (drop t) (λ hit s', ∃ c', rep s' c' ∧ queue_frame c s s' ∧ c' ⊆ c ∧
      units (heap s') c' = PoolSpec.remove t (units (heap s) c) ∧
      hit = bool_decide (t ∈ units (heap s) c) ∧
      (∀ t', t' ∈ c → t' ∈ c' ∨ idle_in (heap s') t') ∧
      count (this s') = count (this s) ∧ (t ∈ c' ↔ sc = true)) s;
}.
