(* ===== verification/PoolList.v ===== *)
(** * The spinlocked pool storage

    SPMC and MPMC pools keep their units in an intrusive doubly linked list
    ([lhead]/[ltail] in the pool, [lprev]/[lnext] in each thread), all under
    the pool's spinlock: the list branch of [ABTI_pool::push], [list_unlink],
    [pop_list], the list branches of [remove_unit] and [for_each_unit].  The
    bodies below are what runs with the lock held, followed by the update of
    [count]; the refinement theorems relate them to [PoolSpec]. *)

From S2P Require Import Prelude AbtTypes Objects Storage.

(** ** Operations *)

Definition list_push (t : ptr) : M pst unit :=
  set_th t (λ x, x <| lnext := None |>) ;;
  p ← self;
  set_th t (λ x, x <| lprev := ltail p |>) ;;
  (match ltail p with
   | Some q => set_th q (λ x, x <| lnext := Some t |>)
   | None => set_self (λ p, p <| lhead := Some t |>)
   end) ;;
  set_self (λ p, p <| ltail := Some t |>).

Definition list_unlink (t : ptr) : M pst unit :=
  x ← th t;
  (match lprev x with
   | Some q => set_th q (λ y, y <| lnext := lnext x |>)
   | None => set_self (λ p, p <| lhead := lnext x |>)
   end) ;;
  x ← th t;
  (match lnext x with
   | Some q => set_th q (λ y, y <| lprev := lprev x |>)
   | None => set_self (λ p, p <| ltail := lprev x |>)
   end) ;;
  set_th t (λ y, y <| lnext := None |> <| lprev := None |>).

(** [pop_list] while it holds the lock *)
Definition list_take (pinned_elsewhere : ABTI_thread → bool) : M pst (option ptr) :=
  p ← self;
  t ← (match lhead p with
       | Some a => x ← th a; mret (if pinned_elsewhere x then lnext x else Some a)
       | None => mret None
       end);
  (match t with
   | Some a => list_unlink a ;; set_th a (λ x, x <| in_pool := false |>)
   | None => mret tt
   end) ;;
  mret t.
Definition pop_list (pinned_elsewhere : ABTI_thread → bool) : M pst (option ptr) :=
  t ← list_take pinned_elsewhere;
  when (non_null t) (set_self (λ p, p <| count ::= Z.pred |>)) ;;
  mret t.

(** the list branch of [remove_unit] *)
Definition list_drop (t : ptr) : M pst bool :=
  list_unlink t ;;
  set_th t (λ x, x <| in_pool := false |>) ;;
  mret true.

(** the walk of [for_each_unit] over [lnext] *)
Fixpoint list_units (fuel : nat) (t : option ptr) : M pst (list ptr) :=
  match t with
  | None => mret []
  | Some a =>
      match fuel with
      | O => fail OutOfFuel
      | S fuel => x ← th a; l ← list_units fuel (lnext x); mret (a :: l)
      end
  end.

(** ** Representation *)

Definition orelse {A} (o n : option A) : option A :=
  match o with Some _ => o | None => n end.

(** [dseg h p l n]: the threads [l] are linked in this order, preceded by [p]
    and followed by [n]. *)
Fixpoint dseg (h : gmap Z ABTI_thread) (p : option ptr) (l : list ptr) (n : option ptr) : Prop :=
  match l with
  | [] => True
  | t :: l' => ∃ x, h !! t = Some x ∧ lprev x = p ∧ lnext x = orelse (head l') n ∧
                    dseg h (Some t) l' n
  end.

Record list_rep (s : pst) (l : list ptr) : Prop := {
  lr_head : lhead (this s) = head l;
  lr_tail : ltail (this s) = last l;
  lr_nodup : NoDup l;
  lr_seg : dseg (heap s) None l None;
}.

(** What these operations never touch: every field of every thread but its
    links, every field of the pool but the two ends, and the links of threads
    outside the list. *)
Definition erase_links (x : ABTI_thread) : ABTI_thread := x <| lprev := None |> <| lnext := None |>.
Definition erase_ends (p : ABTI_pool) : ABTI_pool := p <| lhead := None |> <| ltail := None |>.
Record list_frame (l : list ptr) (s s' : pst) : Prop := {
  lf_links : erase_links <$> heap s' = erase_links <$> heap s;
  lf_ends : erase_ends (this s') = erase_ends (this s);
  lf_evs : evs s' = evs s ∧ addr s' = addr s;
  lf_out : ∀ t, t ∉ l → heap s' !! t = heap s !! t;
}.

(** ** Segments *)

Section dseg.
Implicit Types (h : gmap Z ABTI_thread) (l : list ptr).

Lemma orelse_assoc {A} (a b c : option A) : orelse (orelse a b) c = orelse a (orelse b c).
Proof. by destruct a. Qed.
Lemma head_app_orelse l1 l2 : head (l1 ++ l2) = orelse (head l1) (head l2).
Proof. by destruct l1. Qed.
Lemma last_app_orelse l1 l2 : last (l1 ++ l2) = orelse (last l2) (last l1).
Proof.
  destruct l2 as [|b l2 _] using rev_ind; simpl.
  - by rewrite app_nil_r.
  - by rewrite app_assoc, !last_snoc.
Qed.

Lemma dseg_app h p l1 l2 n :
  dseg h p (l1 ++ l2) n ↔
  dseg h p l1 (orelse (head l2) n) ∧ dseg h (orelse (last l1) p) l2 n.
Proof.
  revert p. induction l1 as [|a l1 IH]; intros p; simpl.
  { naive_solver. }
  rewrite head_app_orelse, orelse_assoc.
  assert (orelse (last (a :: l1)) p = orelse (last l1) (Some a)) as ->.
  { destruct l1 as [|b l1 _] using rev_ind; [done|].
    by rewrite app_comm_cons, !last_snoc. }
  split.
  - intros (x & ? & ? & ? & Hseg%IH). naive_solver.
  - intros [(x & ? & ? & ? & ?) ?]. exists x. rewrite IH. auto.
Qed.

Lemma dseg_frame h h' p l n :
  (∀ t, t ∈ l → h' !! t = h !! t) → dseg h p l n → dseg h' p l n.
Proof.
  revert p. induction l as [|a l IH]; intros p Hh; simpl; [done|].
  intros (x & ? & ? & ? & ?). exists x. rewrite Hh by set_solver.
  repeat split; auto. apply IH; [|done]. set_solver.
Qed.

Lemma dseg_elem h p l n t : dseg h p l n → t ∈ l → is_Some (h !! t).
Proof.
  revert p. induction l as [|a l IH]; intros p; simpl; [set_solver|].
  intros (x & ? & ? & ? & ?) [->|?]%elem_of_cons; eauto.
Qed.

(** Re-targeting the two outer pointers of a segment. *)
Lemma dseg_set_next h p l a n n' x :
  NoDup (l ++ [a]) → dseg h p (l ++ [a]) n → h !! a = Some x →
  dseg (<[a := x <| lnext := n' |>]> h) p (l ++ [a]) n'.
Proof.
  intros Hnd Hseg Hx. apply dseg_app in Hseg as [Hl (y & ? & ? & ? & _)].
  apply dseg_app. simplify_eq. split.
  - eapply dseg_frame, Hl. intros t Ht. apply lookup_insert_ne.
    intros <-. apply NoDup_app in Hnd. set_solver.
  - simpl. eexists. rewrite lookup_insert_eq. eauto.
Qed.
Lemma dseg_set_prev h p p' l a n x :
  NoDup (a :: l) → dseg h p (a :: l) n → h !! a = Some x →
  dseg (<[a := x <| lprev := p' |>]> h) p' (a :: l) n.
Proof.
  intros Hnd (y & ? & ? & ? & Hl) Hx. simplify_eq. simpl.
  eexists. rewrite lookup_insert_eq. repeat split; eauto.
  eapply dseg_frame, Hl. intros t Ht. apply lookup_insert_ne.
  intros <-. apply NoDup_cons in Hnd. set_solver.
Qed.
End dseg.

(** ** Frames *)

Lemma erase_links_insert (h : gmap Z ABTI_thread) t x y :
  h !! t = Some x → erase_links y = erase_links x →
  erase_links <$> <[t := y]> h = erase_links <$> h.
Proof.
  intros Hx Heq. rewrite fmap_insert, Heq. apply insert_id. by rewrite lookup_fmap, Hx.
Qed.

Lemma list_frame_refl l s : list_frame l s s.
Proof. by constructor. Qed.
Lemma list_frame_trans l s1 s2 s3 :
  list_frame l s1 s2 → list_frame l s2 s3 → list_frame l s1 s3.
Proof. intros [] []. destruct_and!. split; [congruence..|split; congruence|]. intros t Ht. rewrite <-lf_out0; auto. Qed.
Lemma list_frame_th l s t x y :
  heap s !! t = Some x → erase_links y = erase_links x → t ∈ l →
  list_frame l s (with_heap s (<[t := y]> (heap s))).
Proof.
  intros. split; simpl; [by eapply erase_links_insert|done|done|].
  intros t' ?. apply lookup_insert_ne. set_solver.
Qed.
Lemma list_frame_self l s p :
  erase_ends p = erase_ends (this s) → list_frame l s (with_this s p).
Proof. by intros. Qed.

#[export] Hint Resolve list_frame_refl list_frame_self : abt_wp.

(** ** Specifications *)

Section specs.
Implicit Types (s : pst) (l : list ptr) (t : ptr).

Lemma list_push_spec t x l s :
  heap s !! t = Some x → t ∉ l → list_rep s l →
  wp (list_push t) (λ _ s', list_rep s' (l ++ [t]) ∧ list_frame (l ++ [t]) s s') s.
Proof.
  intros Hx Hnt [Hh Ht Hnd Hseg]. unfold list_push.
  st_step. st_step; [done|]. st_step. st_step. st_step. st_step; [apply lookup_insert_eq|].
  simpl. rewrite insert_insert_eq, Ht.
  set (y := x <| lnext := None |> <| lprev := last l |>).
  set (s1 := with_heap s (<[t := y]> (heap s))).
  assert (list_frame (l ++ [t]) s s1) as F1.
  { eapply list_frame_th; [done..|set_solver]. }
  assert (dseg (heap s1) None l None) as Hseg1.
  { eapply dseg_frame, Hseg. intros t' Ht'. apply lookup_insert_ne. set_solver. }
  destruct l as [|a l _] using rev_ind.
  - simpl. st_step. st_step. st_step. simpl. split; [split; simpl; try done|].
    + apply NoDup_singleton.
    + exists y. by rewrite lookup_insert_eq.
    + by eapply list_frame_trans.
  - rewrite last_snoc.
    destruct (dseg_elem _ _ _ _ a Hseg1) as [z Hz]; [set_solver|].
    st_step. st_step; [exact Hz|]. st_step. simpl. split; [split; simpl|].
    + rewrite Hh, !head_app_orelse. by destruct l.
    + by rewrite last_snoc.
    + apply NoDup_app. repeat split; [done|set_solver|apply NoDup_singleton].
    + apply dseg_app. simpl. split; [by eapply dseg_set_next|].
      exists y. rewrite lookup_insert_ne by set_solver.
      simpl. unfold s1; simpl. by rewrite lookup_insert_eq, last_snoc.
    + eapply list_frame_trans; [exact F1|].
      eapply list_frame_trans.
      { eapply (list_frame_th _ s1 a z (z <| lnext := Some t |>)); [done..|set_solver]. }
      by split.
Qed.

(** The two pointer stores of [list_unlink], as one step each. *)
Definition relink_prev (q n : option ptr) : M pst unit :=
  match q with
  | Some a => set_th a (λ y, y <| lnext := n |>)
  | None => set_self (λ p, p <| lhead := n |>)
  end.
Definition relink_next (q n : option ptr) : M pst unit :=
  match q with
  | Some a => set_th a (λ y, y <| lprev := n |>)
  | None => set_self (λ p, p <| ltail := n |>)
  end.

Lemma relink_prev_spec l1 t n n' s :
  NoDup l1 → t ∉ l1 → dseg (heap s) None l1 n →
  wp (relink_prev (last l1) n')
    (λ _ s', dseg (heap s') None l1 n' ∧
             lhead (this s') = (match l1 with [] => n' | _ => lhead (this s) end) ∧
             ltail (this s') = ltail (this s) ∧
             list_frame l1 s s') s.
Proof.
  intros Hnd Hnt Hseg. unfold relink_prev. destruct l1 as [|a l1 _] using rev_ind.
  { simpl. st_step. simpl. repeat split; auto. }
  rewrite last_snoc. destruct (dseg_elem _ _ _ _ a Hseg) as [z Hz]; [set_solver|].
  st_step; [exact Hz|]. simpl. split_and!.
  - by eapply dseg_set_next.
  - by destruct l1.
  - done.
  - eapply list_frame_th; [done..|set_solver].
Qed.

Lemma relink_next_spec l2 t p p' s :
  NoDup l2 → t ∉ l2 → dseg (heap s) p l2 None →
  wp (relink_next (head l2) p')
    (λ _ s', dseg (heap s') p' l2 None ∧
             ltail (this s') = (match l2 with [] => p' | _ => ltail (this s) end) ∧
             lhead (this s') = lhead (this s) ∧
             list_frame l2 s s') s.
Proof.
  intros Hnd Hnt Hseg. unfold relink_next. destruct l2 as [|a l2].
  { simpl. st_step. simpl. repeat split; auto. }
  destruct (dseg_elem _ _ _ _ a Hseg) as [z Hz]; [set_solver|].
  simpl. st_step; [exact Hz|]. split_and!; [|done|done|].
  - by eapply dseg_set_prev.
  - eapply list_frame_th; [done..|set_solver].
Qed.

Lemma list_frame_weaken l l' s s' : l ⊆ l' → list_frame l s s' → list_frame l' s s'.
Proof. intros Hl [? ? Hout]. split; auto. Qed.

Lemma list_unlink_spec l1 t l2 s :
  list_rep s (l1 ++ t :: l2) →
  wp (list_unlink t)
    (λ _ s', list_rep s' (l1 ++ l2) ∧ list_frame (l1 ++ t :: l2) s s') s.
Proof.
  intros [Hh Ht Hnd Hseg].
  apply dseg_app in Hseg as [Hs1 (x & Hx & Hp & Hn & Hs2)].
  apply NoDup_app in Hnd as (Hnd1 & Hdisj & [Hnt2 Hnd2]%NoDup_cons).
  assert (Hnt1 : t ∉ l1) by set_solver.
  replace (orelse (last l1) None) with (last l1) in Hp by (by destruct (last l1)).
  replace (orelse (head l2) None) with (head l2) in Hn by (by destruct l2).
  unfold list_unlink. st_step. st_step; [done|]. rewrite Hp, Hn.
  fold (relink_prev (last l1) (head l2)). st_step.
  eapply wp_mono; [by apply relink_prev_spec with (t := t) (n' := head l2) in Hs1|].
  intros [] sa (Ha1 & Hah & Hat & Fa). simpl.
  assert (Hxa : heap sa !! t = Some x) by (rewrite (lf_out _ _ _ Fa); done).
  st_step. st_step; [done|]. rewrite Hp, Hn. fold (relink_next (head l2) (last l1)). st_step.
  assert (Ha2 : dseg (heap sa) (Some t) l2 None).
  { eapply dseg_frame, Hs2. intros a Ha. apply (lf_out _ _ _ Fa). set_solver. }
  eapply wp_mono; [by apply relink_next_spec with (t := t) (p' := last l1) in Ha2|].
  intros [] sb (Hb2 & Hbt & Hbh & Fb). simpl.
  assert (Hxb : heap sb !! t = Some x) by (rewrite (lf_out _ _ _ Fb); done).
  st_step; [done|]. split; [split; simpl|].
  - rewrite Hbh, Hah, Hh, !head_app_orelse. by destruct l1.
  - rewrite Hbt, Hat, Ht, !last_app_orelse. destruct l2 as [|b l2]; [by destruct l1|].
    rewrite (last_cons_cons t b). by destruct (last (b :: l2)) eqn:?; [|apply last_None in Heqo].
  - apply NoDup_app. set_solver.
  - apply dseg_app. split.
    + assert (dseg (heap sb) None l1 (orelse (head l2) None)) as Hb1.
      { replace (orelse (head l2) None) with (head l2) by (by destruct l2).
        eapply dseg_frame, Ha1. intros a Ha. apply (lf_out _ _ _ Fb). set_solver. }
      eapply dseg_frame, Hb1. intros a Ha. apply lookup_insert_ne. set_solver.
    + replace (orelse (last l1) None) with (last l1) by (by destruct (last l1)).
      eapply dseg_frame, Hb2. intros a Ha. apply lookup_insert_ne. set_solver.
  - eapply list_frame_trans; [eapply list_frame_weaken, Fa; set_solver|].
    eapply list_frame_trans; [eapply list_frame_weaken, Fb; set_solver|].
    eapply list_frame_th; [done| |set_solver]. destruct x. by simpl.
Qed.
End specs.

(** ** The list as a pool storage *)

Definition list_store (s : pst) (c : list ptr) : Prop :=
  list_rep s c ∧
  ∀ t, t ∈ c → ∃ x, heap s !! t = Some x ∧ in_pool x = true ∧ removed x = false.

Section store.
Implicit Types (s : pst) (c : list ptr) (t : ptr).

Lemma erase_queue_links x : erase_queue (erase_links x) = erase_queue x.
Proof. done. Qed.

Lemma erase_links_frame (h h' : gmap Z ABTI_thread) :
  erase_links <$> h' = erase_links <$> h → erase_queue <$> h' = erase_queue <$> h.
Proof.
  intros Heq. apply map_eq. intros t.
  assert (erase_links <$> h' !! t = erase_links <$> h !! t) as Ht.
  { rewrite <-!lookup_fmap. by rewrite Heq. }
  rewrite !lookup_fmap.
  destruct (h !! t) as [x|], (h' !! t) as [y|]; try done.
  apply (inj Some) in Ht. simpl. f_equal.
  by rewrite <-(erase_queue_links x), <-(erase_queue_links y), Ht.
Qed.

Lemma list_frame_queue c s s' : list_frame c s s' → queue_frame c s s'.
Proof.
  intros [Hl He [_ Ha] Ho]. split; [by apply erase_links_frame| |done|done].
  change (erase_store (erase_ends (this s')) = erase_store (erase_ends (this s))).
  by rewrite He.
Qed.

(** The flags of a thread survive a change of links. *)
Lemma list_frame_lookup c s s' t x :
  list_frame c s s' → heap s !! t = Some x →
  ∃ y, heap s' !! t = Some y ∧ erase_links y = erase_links x.
Proof.
  intros [Hl _ _ _] Hx.
  assert (erase_links <$> heap s' !! t = Some (erase_links x)) as Ht.
  { rewrite <-lookup_fmap, Hl, lookup_fmap. by rewrite Hx. }
  destruct (heap s' !! t) as [y|]; [|done]. apply (inj Some) in Ht. eauto.
Qed.
Lemma erase_links_flags x y :
  erase_links y = erase_links x → in_pool y = in_pool x ∧ removed y = removed x.
Proof. destruct x, y. cbn. by intros [=]. Qed.
Lemma list_frame_removed c s s' t :
  list_frame c s s' → is_removed (heap s') t = is_removed (heap s) t.
Proof.
  intros F. unfold is_removed. destruct (heap s !! t) as [x|] eqn:Hx.
  - destruct (list_frame_lookup _ _ _ _ _ F Hx) as (y & -> & ?%erase_links_flags).
    simpl. tauto.
  - destruct (heap s' !! t) as [y|] eqn:Hy; [|done]. destruct F as [Hl _ _ _].
    apply (f_equal (.!! t)) in Hl. rewrite !lookup_fmap, Hx, Hy in Hl. done.
Qed.
Lemma list_frame_flags c s s' t x :
  list_frame c s s' → heap s !! t = Some x →
  ∃ y, heap s' !! t = Some y ∧ in_pool y = in_pool x ∧ removed y = removed x.
Proof.
  intros F Hx. destruct (list_frame_lookup _ _ _ _ _ F Hx) as (y & ? & [? ?]%erase_links_flags).
  eauto.
Qed.
Lemma list_frame_count c s s' : list_frame c s s' → count (this s') = count (this s).
Proof. intros [_ He _ _]. apply (f_equal count) in He. done. Qed.

Lemma list_store_units s c : list_store s c → units (heap s) c = c.
Proof.
  intros [_ Hf]. apply filter_all. intros a (x & Hx & _ & Hr)%Hf.
  unfold is_removed. by rewrite Hx.
Qed.

(** Links that hold of one heap hold of any heap with the same links. *)
Lemma dseg_queue_of (h h' : gmap Z ABTI_thread) p c n :
  (∀ t, t ∈ c → queue_of <$> h' !! t = queue_of <$> h !! t) →
  dseg h p c n → dseg h' p c n.
Proof.
  revert p. induction c as [|a c IH]; intros p Hh; simpl; [done|].
  intros (x & Hx & Hp & Hn & Hs). pose proof (Hh a ltac:(set_solver)) as Ha.
  rewrite Hx in Ha. destruct (h' !! a) as [y|] eqn:Hy; simplify_eq/=.
  exists y. repeat split; [congruence..|]. apply IH; [set_solver|done].
Qed.

Lemma list_store_stable s s' c :
  list_store s c → store_of (this s') = store_of (this s) →
  (∀ t, t ∈ c → queue_of <$> heap s' !! t = queue_of <$> heap s !! t) → list_store s' c.
Proof.
  intros [[Hh Ht Hnd Hs] Hf] Hst Hq. injection Hst as ? ? ? Eh Et.
  split; [split; [congruence..|done|by eapply dseg_queue_of]|].
  intros t Ht'. destruct (Hf t Ht') as (x & Hx & ? & ?). specialize (Hq t Ht').
  rewrite Hx in Hq. destruct (heap s' !! t) as [y|]; simplify_eq/=.
  exists y. repeat split; congruence.
Qed.

(** Taking the thread [t] out of the list, with its flag: common to [pop_list]
    and [remove_unit]. *)
Lemma list_take_out c1 t c2 s :
  list_store s (c1 ++ t :: c2) →
  wp (list_unlink t ;; set_th t (λ x, x <| in_pool := false |>))
    (λ _ s', list_store s' (c1 ++ c2) ∧ queue_frame (c1 ++ t :: c2) s s' ∧
             idle_in (heap s') t ∧ count (this s') = count (this s) ∧
             units (heap s') (c1 ++ c2) = c1 ++ c2) s.
Proof.
  intros [Hr Hf]. st_step.
  eapply wp_mono; [by apply list_unlink_spec|]. intros [] s1 [Hr1 F].
  destruct (Hf t) as (x & Hx & _ & Hrx); [set_solver|].
  destruct (list_frame_flags _ _ _ _ _ F Hx) as (y & Hy & _ & Hry).
  assert (Hnt : t ∉ c1 ++ c2).
  { pose proof (lr_nodup _ _ Hr) as (_ & Hd & [Hn _]%NoDup_cons)%NoDup_app. set_solver. }
  st_step; [done|].
  match goal with |- ?P ∧ _ => assert P as Hst end.
  { destruct Hr1 as [Hh Ht Hnd Hs]. split.
    - split; simpl; [done..|]. eapply dseg_frame, Hs. intros a ?.
      apply lookup_insert_ne. set_solver.
    - intros a Ha. destruct (Hf a) as (z & Hz & Hz1 & Hz2); [set_solver|].
      destruct (list_frame_flags _ _ _ _ _ F Hz) as (z' & Hz' & ? & ?).
      exists z'. simpl. rewrite lookup_insert_ne by set_solver.
      repeat split; congruence. }
  split_and!; [done| | | |by apply list_store_units].
  - eapply queue_frame_trans; [by apply list_frame_queue|].
    eapply queue_frame_th; [done..|set_solver].
  - eexists. simpl. rewrite lookup_insert_eq. repeat split; simpl; congruence.
  - simpl. by eapply list_frame_count.
Qed.

Lemma list_store_link t x s c :
  list_store s c → t ∉ c → heap s !! t = Some x → in_pool x = true → removed x = false →
  wp (list_push t) (λ _ s', list_store s' (c ++ [t]) ∧ queue_frame (c ++ [t]) s s' ∧
    units (heap s') (c ++ [t]) = PoolSpec.push t (units (heap s) c) ∧
    count (this s') = count (this s) ∧ evs s' = evs s) s.
Proof.
  intros Hst Hnt Hx Hin Hrm. pose proof Hst as [Hr Hf].
  eapply wp_mono; [by eapply list_push_spec|]. intros [] s1 [Hr1 F].
  assert (list_store s1 (c ++ [t])) as Hst1.
  { split; [done|]. intros a Ha.
    assert (∃ z, heap s !! a = Some z ∧ in_pool z = true ∧ removed z = false)
      as (z & Hz & ? & ?) by set_solver.
    destruct (list_frame_flags _ _ _ _ _ F Hz) as (z' & ? & ? & ?).
    exists z'. repeat split; congruence. }
  split_and!; [done|by apply list_frame_queue| |by eapply list_frame_count|apply F].
  by rewrite !list_store_units.
Qed.

Lemma list_take_spec pinned s c :
  list_store s c →
  wp (list_take pinned) (λ r s', ∃ c', list_store s' c' ∧ queue_frame c s s' ∧ c' ⊆ c ∧
    (r, c') = PoolSpec.pop (pin_at (heap s) pinned) c ∧
    (∀ t, t ∈ c → t ∈ c' ∨ idle_in (heap s') t) ∧
    count (this s') = count (this s) ∧
    (∀ t, r = Some t → idle_in (heap s') t)) s.
Proof.
  intros Hst. pose proof Hst as [[Hh Ht Hnd Hs] Hf].
  assert (∀ c1 a c2, c = c1 ++ a :: c2 →
    wp ((list_unlink a ;; set_th a (λ x, x <| in_pool := false |>)) ;; mret (Some a))
      (λ r s', ∃ c', list_store s' c' ∧ queue_frame c s s' ∧ c' ⊆ c ∧
        (r, c') = (Some a, c1 ++ c2) ∧
        (∀ t, t ∈ c → t ∈ c' ∨ idle_in (heap s') t) ∧
        count (this s') = count (this s) ∧
    (∀ t, r = Some t → idle_in (heap s') t)) s) as Htake.
  { intros c1 a c2 ->. st_step. eapply wp_mono; [by apply list_take_out|].
    intros [] s1 (Hst1 & F & Hi & Hc & Hu). st_step. exists (c1 ++ c2).
    split_and!; [done|done|set_solver|done| |done|naive_solver].
    intros t' Ht'. destruct (decide (t' = a)) as [->|]; [by right|left; set_solver]. }
  unfold list_take. st_step. st_step. rewrite Hh. st_step.
  destruct c as [|a c]; simpl.
  { st_step. st_step. st_step. st_step. exists [].
    split_and!; [done|apply queue_frame_refl|set_solver|done|set_solver|done|done]. }
  destruct (Hf a) as (x & Hx & _); [set_solver|].
  st_step. st_step; [done|]. st_step.
  destruct Hs as (x' & Hx' & _ & Hn & _). assert (x' = x) as -> by congruence.
  unfold pin_at at 1. rewrite Hx. simpl. destruct (pinned x).
  - rewrite Hn. destruct c as [|b c]; simpl.
    + st_step. st_step. st_step. exists [a].
      by split_and!; [done|apply queue_frame_refl|set_solver| |set_solver| |].
    + apply (Htake [a]). done.
  - apply (Htake []). done.
Qed.
Lemma list_store_take pinned s c :
  list_store s c → pinned_ok pinned →
  wp (pop_list pinned) (λ r s', ∃ c', list_store s' c' ∧ queue_frame c s s' ∧ c' ⊆ c ∧
    (r, units (heap s') c') = PoolSpec.pop (pin_at (heap s) pinned) (units (heap s) c) ∧
    (∀ t, t ∈ c → t ∈ c' ∨ idle_in (heap s') t) ∧
    count (this s') = count (this s) - of_bool (non_null r) ∧
    (∀ t, r = Some t → idle_in (heap s') t)) s.
Proof.
  intros Hst _. rewrite (list_store_units s c Hst). unfold pop_list. st_step.
  eapply wp_mono; [by apply list_take_spec|]. intros r s1 (c' & Hst1 & F & Hsub & Heq & Hor & Hc & Hid).
  st_step. destruct r as [t|]; simpl; st_step; st_step; exists c'.
  - assert (list_store (with_this s1 (this s1 <| count ::= Z.pred |>)) c') as Hst2 by (by eapply list_store_stable).
    split_and!; [done| |done|by rewrite (list_store_units _ c' Hst2)|done|simpl; lia|done].
    eapply queue_frame_trans; [done|]. by split.
  - split_and!; [done|done|done|by rewrite (list_store_units _ c' Hst1)|done|cbn; lia|done].
Qed.

Lemma list_store_drop t s c :
  list_store s c → t ∈ c →
  wp (list_drop t) (λ hit s', ∃ c', list_store s' c' ∧ queue_frame c s s' ∧ c' ⊆ c ∧
    units (heap s') c' = PoolSpec.remove t (units (heap s) c) ∧
    hit = bool_decide (t ∈ units (heap s) c) ∧
    (∀ t', t' ∈ c → t' ∈ c' ∨ idle_in (heap s') t') ∧
    count (this s') = count (this s) ∧ (t ∈ c' ↔ false = true)) s.
Proof.
  intros Hst Ht. rewrite (list_store_units s c Hst).
  rewrite bool_decide_true by done.
  apply list_elem_of_split in Ht as (c1 & c2 & ->).
  pose proof (lr_nodup _ _ (proj1 Hst)) as (_ & Hd & [Hn _]%NoDup_cons)%NoDup_app.
  change (wp (list_unlink t ;; (set_th t (λ x, x <| in_pool := false |>) ;; mret true))
    (λ hit s', ∃ c', list_store s' c' ∧ queue_frame (c1 ++ t :: c2) s s' ∧ c' ⊆ c1 ++ t :: c2 ∧
    units (heap s') c' = PoolSpec.remove t (c1 ++ t :: c2) ∧ hit = true ∧
    (∀ t', t' ∈ c1 ++ t :: c2 → t' ∈ c' ∨ idle_in (heap s') t') ∧
    count (this s') = count (this s) ∧ (t ∈ c' ↔ false = true)) s).
  pose proof (list_take_out _ _ _ _ Hst) as Hto.
  apply wp_bind. apply wp_elim in Hto as ([] & s2 & Hrun & Hpost).
  unfold mbind, M_bind in Hrun. destruct (list_unlink t s) as [[] s1|] eqn:Hu; [|done].
  unfold wp. rewrite Hu. unfold mbind, M_bind. rewrite Hrun. simpl.
  destruct Hpost as (Hst2 & F & Hi & Hc & Hun). exists (c1 ++ c2).
  split_and!; [done|done|set_solver| |done| |done|set_solver].
  - rewrite Hun. unfold PoolSpec.remove. rewrite filter_app, filter_cons_False by auto.
    rewrite !filter_all; [done|set_solver..].
  - intros t' Ht'. destruct (decide (t' = t)) as [->|]; [by right|left; set_solver].
Qed.
End store.

#[export] Instance list_fifo_store :
  FifoStore false list_push pop_list list_drop PoolSpec.pop list_store.
Proof.
  split.
  - intros s c [[_ _ Hnd _] Hf]. split; [done|]. naive_solver.
  - apply list_store_stable.
  - apply list_store_link.
  - intros. by apply list_store_take.
  - apply list_store_drop.
Qed.

(** The walk of [for_each_unit] visits every unit, oldest first. *)
Lemma list_units_spec fuel p l s :
  dseg (heap s) p l None → (length l ≤ fuel)%nat →
  wp (list_units fuel (head l)) (λ r s', s' = s ∧ r = l) s.
Proof.
  revert fuel p. induction l as [|a l IH]; intros fuel p Hs Hf; simpl in *.
  { by destruct fuel. }
  destruct fuel as [|fuel]; [lia|]. destruct Hs as (x & Hx & _ & Hn & Hs). cbn [list_units].
  st_step. st_step; [done|]. rewrite Hn. replace (orelse (head l) None) with (head l) by by destruct l.
  st_step. eapply wp_mono; [eapply IH; [done|lia]|]. intros r s' [-> ->]. by st_step.
Qed.
