(* ===== verification/Spinlock.v ===== *)
(** * The spinlock

    [ABTI_spinlock] of src/abti.h: test-and-test-and-set with bounded exponential
    backoff.  [lock] is a machine of its accesses to the flag; any number of
    threads run it, hold the lock and give it back.  [LockedBy] is what a
    component that keeps its data under the lock may rely on. *)

From S2P Require Import Prelude.

(** [lock]: about to exchange the flag, or backing off for [pause] turns before
    the next look at it. *)
Inductive lkpoint : Type :=
  | LTry (pause : Z)
  | LWait (pause : Z).
Definition lk_start : lkpoint := LTry 1.
(** [if (pause < 64) pause <<= 1] *)
Definition longer (pause : Z) : Z := if pause <? 64 then Z.shiftl pause 1 else pause.
(** One access to the flag [f]: its new value, and what comes next; [None]: the
    lock is taken. *)
Definition lk_step (f : bool) (p : lkpoint) : bool * option lkpoint :=
  match p with
  | LTry n => (true, if f then Some (LWait n) else None)
  | LWait n => let n := longer n in (f, Some (if f then LWait n else LTry n))
  end.
(** [unlock] *)
Definition lk_unlock : bool := false.

Definition pause_of (p : lkpoint) : Z := match p with LTry n | LWait n => n end.
Definition pause_ok (n : Z) : Prop := ∃ k, 0 ≤ k ≤ 6 ∧ n = 2 ^ k.
Lemma longer_ok n : pause_ok n → pause_ok (longer n) ∧ n ≤ longer n ≤ 64.
Proof.
  intros (k & Hk & ->). unfold longer. rewrite Z.shiftl_mul_pow2 by lia. change (2 ^ 1) with 2.
  assert (2 ^ k ≤ 2 ^ 6) by (apply Z.pow_le_mono_r; lia). change (2 ^ 6) with 64 in *.
  destruct (Z.ltb_spec (2 ^ k) 64) as [Hlt|Hge].
  - assert (k < 6) by (apply (Z.pow_lt_mono_r_iff 2); lia).
    assert (2 ^ k * 2 = 2 ^ (k + 1)) as E1 by (rewrite Z.pow_add_r by lia; reflexivity).
    assert (2 ^ (k + 1) ≤ 2 ^ 6) by (apply Z.pow_le_mono_r; lia). change (2 ^ 6) with 64 in *.
    split; [exists (k + 1); split; [lia|done]|]. lia.
  - split; [by exists k|]. lia.
Qed.
Lemma lk_step_pause f p f' p' : lk_step f p = (f', Some p') → pause_ok (pause_of p) → pause_ok (pause_of p').
Proof. destruct p as [n|n]; simpl; [destruct f; intros [= _ <-]; done|]. intros [= _ <-] Hn. apply longer_ok in Hn as [Hn _]. by destruct f. Qed.

(** ** Threads *)

(** [KOut]: outside; [KHold]: between [lock] and [unlock]. *)
Inductive kpoint : Type :=
  | KOut
  | KLock (p : lkpoint)
  | KHold.
Record kst : Type := mk_kst { k_flag : bool; k_pts : gmap Z kpoint }.
Inductive kstep (s : kst) : kst → Prop :=
  | kstep_call a : k_pts s !! a = Some KOut → kstep s (mk_kst (k_flag s) (<[a := KLock lk_start]> (k_pts s)))
  | kstep_spin a p f' r : k_pts s !! a = Some (KLock p) → lk_step (k_flag s) p = (f', r) →
      kstep s (mk_kst f' (<[a := match r with Some p => KLock p | None => KHold end]> (k_pts s)))
  | kstep_unlock a : k_pts s !! a = Some KHold → kstep s (mk_kst lk_unlock (<[a := KOut]> (k_pts s))).
Definition kstart (agents : gset Z) : kst := mk_kst false (gset_to_gmap KOut agents).

(** ** Mutual exclusion, for any component

    [f] is the flag, [holds a] that thread [a] is between [lock] and [unlock]. *)
Record LockedBy (f : bool) (holds : Z → Prop) : Prop := {
  lb_one a b : holds a → holds b → a = b;
  lb_flag : f = true ↔ ∃ a, holds a;
}.
Lemma locked_start (holds : Z → Prop) : (∀ a, ¬ holds a) → LockedBy false holds.
Proof. intros Hn. split; [by intros a b ?%Hn|]. split; [done|]. by intros [a ?%Hn]. Qed.
Lemma locked_ext f (holds holds' : Z → Prop) : (∀ a, holds' a ↔ holds a) → LockedBy f holds → LockedBy f holds'.
Proof. intros He [H1 H2]. split; [intros a b; rewrite !He; apply H1|]. rewrite H2. by setoid_rewrite He. Qed.
(** an access of [lock] by a thread that does not hold it *)
Lemma locked_spin f p f' r a (holds holds' : Z → Prop) : LockedBy f holds → lk_step f p = (f', r) → ¬ holds a →
  (∀ b, holds' b ↔ holds b ∨ r = None ∧ b = a) → LockedBy f' holds'.
Proof.
  intros HL Hs Ha Hh. assert (r = None ∧ f = false ∧ f' = true ∨ (∃ p', r = Some p') ∧ f' = f) as [(-> & -> & ->)|[[p' ->] ->]].
  { destruct p as [n|n]; simpl in Hs; [destruct f|]; injection Hs as <- <-; eauto. }
  - assert (∀ b, ¬ holds b) as Hn by (intros b Hb; by assert (false = true) by (apply (lb_flag _ _ HL); eauto)).
    split; [|split; [intros _; exists a; rewrite Hh; by right|done]]. intros b c [?%Hn|[_ ->]]%Hh [?%Hn|[_ ->]]%Hh; done.
  - apply (locked_ext _ holds); [|done]. intros b. rewrite Hh. naive_solver.
Qed.
(** [unlock] by the holder *)
Lemma locked_unlock f a (holds holds' : Z → Prop) : LockedBy f holds → holds a → (∀ b, holds' b ↔ holds b ∧ b ≠ a) → LockedBy lk_unlock holds'.
Proof.
  intros [H1 H2] Ha Hh. apply locked_start. intros b [Hb Hne]%Hh. by rewrite (H1 b a) in Hne.
Qed.

Definition kholds (s : kst) (a : Z) : Prop := k_pts s !! a = Some KHold.
Lemma kholds_insert (s : kst) f a x b : kholds (mk_kst f (<[a := x]> (k_pts s))) b ↔ if decide (b = a) then x = KHold else kholds s b.
Proof.
  unfold kholds. simpl. case_decide as Hb.
  - subst b. rewrite lookup_insert_eq. naive_solver.
  - by rewrite lookup_insert_ne.
Qed.
Definition kinv (s : kst) : Prop :=
  LockedBy (k_flag s) (kholds s) ∧ ∀ a p, k_pts s !! a = Some (KLock p) → pause_ok (pause_of p).
Lemma kstep_inv s s' : kinv s → kstep s s' → kinv s'.
Proof.
  intros [HL HP] [a Ha|a p f' r Ha Hs|a Ha]; split; simpl.
  - eapply locked_ext; [|exact HL]. intros b. rewrite kholds_insert. case_decide as Hb; [|done]. subst b. unfold kholds. rewrite Ha. naive_solver.
  - intros b q. destruct (decide (a = b)) as [<-|]; [|rewrite lookup_insert_ne by done; apply HP].
    rewrite lookup_insert_eq. intros [= <-]. exists 0. by split.
  - eapply (locked_spin _ p _ r a); [exact HL|done|by unfold kholds; rewrite Ha|]. intros b. rewrite kholds_insert. unfold kholds.
    case_decide as Hb; [subst b; rewrite Ha|]; destruct r; naive_solver.
  - intros b q. destruct (decide (a = b)) as [<-|]; [|rewrite lookup_insert_ne by done; apply HP].
    rewrite lookup_insert_eq. destruct r as [p'|]; [|done]. intros [= <-]. eapply lk_step_pause; [exact Hs|]. by eapply HP.
  - eapply (locked_unlock _ a); [exact HL|exact Ha|]. intros b. rewrite kholds_insert. case_decide; naive_solver.
  - intros b q. destruct (decide (a = b)) as [<-|]; [by rewrite lookup_insert_eq|rewrite lookup_insert_ne by done; apply HP].
Qed.
Lemma kreach_inv agents s : rtc kstep (kstart agents) s → kinv s.
Proof.
  apply (rtc_ind_r kinv).
  - split; simpl.
    + apply locked_start. intros a. unfold kholds. simpl. rewrite lookup_gset_to_gmap_Some. by intros [_ ?].
    + intros a p. rewrite lookup_gset_to_gmap_Some. by intros [_ ?].
  - intros s1 s2 _ Hs Hi. by eapply kstep_inv.
Qed.

(** What a waiting thread does when nobody holds the lock: at most two accesses,
    run alone, and it has it. *)
Definition lk_try2 (f : bool) (p : lkpoint) : bool * option lkpoint :=
  match lk_step f p with (f', Some p') => lk_step f' p' | r => r end.

(** C9: the spinlock excludes: whatever the interleaving, at most one thread is
    between [lock] and [unlock], the flag is set exactly when there is one, the
    backoff of a waiting thread is a power of two of at most 64 turns, and when
    nobody holds the lock any waiting thread gets it with its next two accesses at most. *)
Theorem spinlock_excludes agents s : rtc kstep (kstart agents) s →
  (∀ a b, kholds s a → kholds s b → a = b) ∧ (k_flag s = true ↔ ∃ a, kholds s a) ∧
  (∀ a p, k_pts s !! a = Some (KLock p) → pause_ok (pause_of p)) ∧
  ((∀ a, ¬ kholds s a) → ∀ a p, k_pts s !! a = Some (KLock p) →
     lk_step (k_flag s) p = (true, None) ∨ lk_try2 (k_flag s) p = (true, None)).
Proof.
  intros [[H1 H2] HP]%kreach_inv. split_and!; [done..|]. intros Hn a p Ha.
  assert (k_flag s = false) as ->.
  { apply not_true_is_false. intros [b Hb]%H2. by apply (Hn b). }
  destruct p as [n|n]; [by left|by right].
Qed.
