(* ===== verification/Sleepers.v ===== *)
(** * Waking parked execution streams

    [ABTI_pool::add_sleeper], [remove_sleeper] and [wake_after_push]: a PE that
    parks for a pool sets its bit in the pool's four-word mask; a push notifies
    every PE whose bit is set, found by counting trailing zeros and clearing
    the lowest set bit. *)

From S2P Require Import Prelude AbtTypes Objects Storage.

(** ** Operations *)

(** [__builtin_ctzll] *)
Fixpoint pctz (p : positive) : Z :=
  match p with xO p => 1 + pctz p | _ => 0 end.
Definition ctzll (m : Z) : Z := match m with Zpos p => pctz p | _ => 0 end.

(** [smask[w]] *)
Definition mask_word (w : Z) : M pst Z :=
  p ← self;
  match smask p !! Z.to_nat w with Some m => mret m | None => fail BadDeref end.

Definition add_sleeper (rank : Z) : M pst unit :=
  let w := Z.shiftr rank 6 in
  m ← mask_word w;
  set_self (λ p, p <| smask ::= <[Z.to_nat w := Z.lor m (Z.shiftl 1 (Z.land rank 63))]> |>) ;;
  set_self (λ p, p <| nsleepers ::= Z.succ |>).

Definition remove_sleeper (rank : Z) : M pst unit :=
  let w := Z.shiftr rank 6 in
  m ← mask_word w;
  set_self (λ p, p <| smask ::=
    <[Z.to_nat w := Z.land m (2 ^ 64 - 1 - Z.shiftl 1 (Z.land rank 63))]> |>) ;;
  set_self (λ p, p <| nsleepers ::= Z.pred |>).

(** [while (m) { CsdIdleNotify(w * 64 + ctz(m)); m &= m - 1; }] *)
Fixpoint notify_bits (fuel : nat) (base m : Z) : M pst unit :=
  if m =? 0 then mret tt else
  match fuel with
  | O => fail OutOfFuel
  | S fuel => notify (CsdIdleNotify (base + ctzll m)) ;; notify_bits fuel base (Z.land m (m - 1))
  end.

(** [for (int w = 0; w < 4; w++)] *)
Fixpoint notify_words (ws : list Z) : M pst unit :=
  match ws with
  | [] => mret tt
  | w :: ws => m ← mask_word w; notify_bits 64 (w * 64) m ;; notify_words ws
  end.

Definition wake_after_push : M pst unit :=
  p ← self;
  a ← gets addr;
  when (waiters p >? 0) (notify (CvNotifyOne a)) ;;
  p ← self;
  when (nsleepers p >? 0) (notify_words [0; 1; 2; 3]).

(** ** Which PEs are asleep *)

(** The set bits of an [n]-bit word, lowest first. *)
Definition set_bits (n m : Z) : list Z := filter (λ i, Z.testbit m i = true) (seqZ 0 n).
(** The ranks whose bit is set, lowest first. *)
Definition sleepers_in (w m : Z) : list Z := (λ i, w * 64 + i) <$> set_bits 64 m.
Definition sleepers (masks : list Z) : list Z :=
  mjoin (imap (λ i m, sleepers_in (Z.of_nat i) m) masks).

(** ** The lowest set bit *)

Section bits.
Implicit Types (m i n : Z) (p : positive).

Lemma pctz_nonneg p : 0 ≤ pctz p.
Proof. induction p; simpl; lia. Qed.

Lemma land_pred_xO p : Z.land (Zpos p~0) (Zpos p~0 - 1) = 2 * Z.land (Zpos p) (Zpos p - 1).
Proof.
  apply Z.bits_inj'. intros n Hn.
  rewrite Z.land_spec. destruct (Z.eq_dec n 0) as [->|].
  - by rewrite Z.testbit_even_0.
  - replace n with (Z.succ (n - 1)) by lia.
    rewrite Z.testbit_even_succ, Z.land_spec by lia.
    change (Zpos p~0) with (2 * Zpos p). rewrite Z.testbit_even_succ by lia.
    replace (2 * Zpos p - 1) with (2 * (Zpos p - 1) + 1) by lia.
    by rewrite Z.testbit_odd_succ by lia.
Qed.

Lemma land_pred_xI p : Z.land (Zpos p~1) (Zpos p~1 - 1) = Zpos p~0.
Proof.
  replace (Zpos p~1 - 1) with (2 * Zpos p) by lia.
  change (Zpos p~1) with (2 * Zpos p + 1). change (Zpos p~0) with (2 * Zpos p).
  apply Z.bits_inj'. intros n Hn. rewrite Z.land_spec. destruct (Z.eq_dec n 0) as [->|].
  - by rewrite Z.testbit_even_0, Z.testbit_odd_0.
  - replace n with (Z.succ (n - 1)) by lia.
    by rewrite Z.testbit_even_succ, Z.testbit_odd_succ, andb_diag by lia.
Qed.

Lemma testbit_land_pred p i :
  0 ≤ i → Z.testbit (Z.land (Zpos p) (Zpos p - 1)) i = Z.testbit (Zpos p) i && negb (i =? pctz p).
Proof.
  revert i. induction p as [p IH|p IH|]; intros i Hi.
  - replace (Z.land (Zpos p~1) (Zpos p~1 - 1)) with (Zpos p~0).
    2:{ by rewrite land_pred_xI. }
    destruct (Z.eq_dec i 0) as [->|]; [done|]. simpl pctz.
    replace i with (Z.succ (i - 1)) by lia.
    change (Zpos p~0) with (2 * Zpos p). change (Zpos p~1) with (2 * Zpos p + 1).
    rewrite Z.testbit_even_succ, Z.testbit_odd_succ by lia.
    replace (Z.succ (i - 1) =? 0) with false by (symmetry; apply Z.eqb_neq; lia).
    by rewrite andb_true_r.
  - rewrite land_pred_xO. simpl pctz. destruct (Z.eq_dec i 0) as [->|].
    + rewrite Z.testbit_even_0. done.
    + replace i with (Z.succ (i - 1)) at 1 2 by lia.
      change (Zpos p~0) with (2 * Zpos p).
      rewrite !Z.testbit_even_succ by lia. rewrite IH by lia. f_equal. f_equal.
      destruct (Z.eqb_spec (i - 1) (pctz p)), (Z.eqb_spec i (1 + pctz p)); lia.
  - simpl. rewrite Z.bits_0. destruct (Z.eq_dec i 0) as [->|]; [done|].
    change 1 with (2 ^ 0). rewrite Z.pow2_bits_false by lia. done.
Qed.

Lemma testbit_pctz p : Z.testbit (Zpos p) (pctz p) = true.
Proof.
  induction p as [p IH|p IH|]; simpl pctz; [done| |done].
  pose proof (pctz_nonneg p). replace (1 + pctz p) with (Z.succ (pctz p)) by lia.
  change (Zpos p~0) with (2 * Zpos p). by rewrite Z.testbit_even_succ by lia.
Qed.
Lemma testbit_below_pctz p i : 0 ≤ i < pctz p → Z.testbit (Zpos p) i = false.
Proof.
  revert i. induction p as [p IH|p IH|]; simpl pctz; intros i Hi; [lia| |lia].
  change (Zpos p~0) with (2 * Zpos p). destruct (Z.eq_dec i 0) as [->|].
  - by rewrite Z.testbit_even_0.
  - replace i with (Z.succ (i - 1)) by lia. rewrite Z.testbit_even_succ by lia. apply IH. lia.
Qed.
Lemma testbit_true_bound m n i : 0 ≤ m < 2 ^ n → 0 ≤ i → Z.testbit m i = true → i < n.
Proof.
  intros Hm Hi Hb. destruct (Z.lt_ge_cases i n) as [|Hge]; [done|].
  rewrite Z.bits_above_log2 in Hb; [done|lia|].
  destruct (Z.eq_dec m 0) as [->|]; [by rewrite Z.bits_0 in Hb|].
  apply Z.lt_le_trans with n; [|done]. apply Z.log2_lt_pow2; lia.
Qed.

(** One turn of the loop takes the lowest set bit. *)
Lemma set_bits_step n p :
  Zpos p < 2 ^ n → 0 ≤ n →
  set_bits n (Zpos p) = pctz p :: set_bits n (Z.land (Zpos p) (Zpos p - 1)).
Proof.
  intros Hp Hn. pose proof (pctz_nonneg p). pose proof (testbit_pctz p).
  assert (pctz p < n) as Hlt by (eapply testbit_true_bound; [|done..]; lia).
  unfold set_bits.
  assert (seqZ 0 n = seqZ 0 (pctz p) ++ pctz p :: seqZ (pctz p + 1) (n - pctz p - 1)) as ->.
  { replace n with (pctz p + (n - pctz p)) at 1 by lia.
    rewrite seqZ_app by lia. f_equal.
    rewrite seqZ_cons, Z.add_0_l by lia. f_equal; lia. }
  rewrite !filter_app, filter_cons_True, filter_cons_False by
    (rewrite ?testbit_land_pred, ?Z.eqb_refl, ?andb_false_r by lia; done).
  rewrite !(filter_none _ (seqZ 0 (pctz p))).
  - simpl. f_equal. apply filter_ext_in. intros i Hi%elem_of_seqZ.
    rewrite testbit_land_pred by lia.
    replace (i =? pctz p) with false by (symmetry; apply Z.eqb_neq; lia). by rewrite andb_true_r.
  - intros i Hi%elem_of_seqZ. rewrite testbit_land_pred, testbit_below_pctz by lia. done.
  - intros i Hi%elem_of_seqZ. rewrite testbit_below_pctz by lia. done.
Qed.
End bits.

(** ** Specifications *)

Definition add_evs (s : pst) (l : list event) : pst := mk_pst (addr s) (this s) (heap s) (evs s ++ l).

Section specs.
Implicit Types (s : pst) (m w : Z).

Lemma wp_notify e (Q : unit → pst → Prop) s : Q tt (add_evs s [e]) → wp (notify e) Q s.
Proof. done. Qed.
Lemma add_evs_app s l1 l2 : add_evs (add_evs s l1) l2 = add_evs s (l1 ++ l2).
Proof. unfold add_evs. simpl. by rewrite app_assoc. Qed.
Lemma add_evs_nil s : add_evs s [] = s.
Proof. destruct s. unfold add_evs. simpl. by rewrite app_nil_r. Qed.

Lemma land_pred_bound n p :
  Zpos p < 2 ^ n → 0 ≤ n → 0 ≤ Z.land (Zpos p) (Zpos p - 1) < 2 ^ n.
Proof.
  intros Hp Hn. split; [apply Z.land_nonneg; lia|].
  destruct (Z.eq_dec (Z.land (Zpos p) (Zpos p - 1)) 0) as [->|]; [lia|].
  apply Z.log2_lt_cancel. rewrite Z.log2_pow2 by lia.
  eapply Z.le_lt_trans; [apply Z.log2_land; lia|].
  eapply Z.le_lt_trans; [apply Z.le_min_l|]. apply Z.log2_lt_pow2; lia.
Qed.

Lemma set_bits_0 n : set_bits n 0 = [].
Proof. apply filter_none. intros i _. by rewrite Z.bits_0. Qed.

Lemma notify_bits_spec fuel base m s :
  0 ≤ m < 2 ^ 64 → (length (set_bits 64 m) ≤ fuel)%nat →
  wp (notify_bits fuel base m)
    (λ _ s', s' = add_evs s ((λ i, CsdIdleNotify (base + i)) <$> set_bits 64 m)) s.
Proof.
  revert m s. induction fuel as [|fuel IH]; intros m s Hm Hlen; simpl;
    destruct (Z.eqb_spec m 0) as [->|Hnz].
  1,3: st_step; rewrite set_bits_0; simpl; by rewrite add_evs_nil.
  - destruct m as [|p|p]; [lia| |lia]. rewrite set_bits_step in Hlen by lia. simpl in Hlen. lia.
  - destruct m as [|p|p]; [lia| |lia]. rewrite set_bits_step in * by lia. simpl in Hlen.
    st_step. apply wp_notify.
    eapply wp_mono; [apply IH; [apply land_pred_bound; lia|lia]|].
    intros [] s' ->. by rewrite add_evs_app.
Qed.

Lemma set_bits_length m : (length (set_bits 64 m) ≤ 64)%nat.
Proof. unfold set_bits. rewrite length_filter. rewrite length_seqZ. lia. Qed.

Lemma notify_words_spec ws s :
  masks_wf (smask (this s)) → (∀ w, w ∈ ws → 0 ≤ w < 4) →
  wp (notify_words ws)
    (λ _ s', s' = add_evs s (CsdIdleNotify <$>
       (ws ≫= λ w, sleepers_in w (default 0 (smask (this s) !! Z.to_nat w))))) s.
Proof.
  intros [Hlen Hb]. revert s Hlen Hb. induction ws as [|w ws IH]; intros s Hlen Hb Hws;
    cbn [notify_words mbind list_bind fmap list_fmap].
  { st_step. by rewrite add_evs_nil. }
  assert (is_Some (smask (this s) !! Z.to_nat w)) as [m Hm].
  { apply lookup_lt_is_Some. rewrite Hlen. assert (0 ≤ w < 4) by (apply Hws; set_solver). lia. }
  st_step. unfold mask_word. st_step. st_step. rewrite Hm. st_step. st_step.
  eapply wp_mono.
  { apply notify_bits_spec; [apply Hb; by eapply list_elem_of_lookup_2|apply set_bits_length]. }
  intros [] s1 ->. eapply wp_mono; [apply IH; [done|done|set_solver]|].
  intros [] s2 ->. rewrite add_evs_app, fmap_app. cbn [this add_evs]. do 2 f_equal.
  unfold sleepers_in. by rewrite <-list_fmap_compose.
Qed.

(** The wake-ups a push sends: one timed pop, and every parked PE. *)
Definition wake_events (s : pst) : list event :=
  (if waiters (this s) >? 0 then [CvNotifyOne (addr s)] else []) ++
  (if nsleepers (this s) >? 0 then CsdIdleNotify <$> sleepers (smask (this s)) else []).

Lemma wake_after_push_spec s :
  masks_wf (smask (this s)) →
  wp wake_after_push (λ _ s', s' = add_evs s (wake_events s)) s.
Proof.
  intros Hwf. unfold wake_after_push, wake_events. st_step. st_step. st_step. st_step. st_step.
  apply wp_mono with (Q := λ _ s', s' = add_evs s
    (if waiters (this s) >? 0 then [CvNotifyOne (addr s)] else [])).
  { st_step; [apply wp_notify|]; rewrite H; [done|by rewrite add_evs_nil]. }
  intros [] s1 ->. st_step. st_step. cbn [this add_evs].
  destruct (nsleepers (this s) >? 0); unfold when.
  - eapply wp_mono; [apply notify_words_spec; [done|set_solver by lia]|].
    intros [] s2 ->. rewrite add_evs_app. cbn [this add_evs]. do 3 f_equal.
    destruct Hwf as [Hlen _]. destruct (smask (this s)) as [|a [|b [|c [|d [|]]]]]; try done.
  - st_step. by rewrite app_nil_r.
Qed.

(** Words and bits of the mask, by rank. *)
Definition asleep (masks : list Z) (rank : Z) : bool :=
  Z.testbit (default 0 (masks !! Z.to_nat (Z.shiftr rank 6))) (Z.land rank 63).

Lemma shiftr6_range rank : 0 ≤ rank < 256 → 0 ≤ Z.shiftr rank 6 < 4.
Proof. intros. rewrite Z.shiftr_div_pow2 by lia. change (2 ^ 6) with 64. split; [apply Z.div_pos|apply Z.div_lt_upper_bound]; lia. Qed.
Lemma land63 rank : Z.land rank 63 = rank mod 64.
Proof. change 63 with (Z.ones 6). by rewrite Z.land_ones. Qed.
Lemma shiftr6 rank : Z.shiftr rank 6 = rank / 64.
Proof. by rewrite Z.shiftr_div_pow2. Qed.

Lemma rank_word_bit rank rank' :
  0 ≤ rank → 0 ≤ rank' → Z.to_nat (Z.shiftr rank 6) = Z.to_nat (Z.shiftr rank' 6) →
  Z.land rank 63 = Z.land rank' 63 → rank = rank'.
Proof.
  rewrite !shiftr6, !land63. intros ? ? Hw Hb.
  apply Z2Nat.inj in Hw; [|apply Z.div_pos; lia..].
  rewrite (Z.div_mod rank 64), (Z.div_mod rank' 64) by lia. congruence.
Qed.

Lemma bit_range rank : 0 ≤ Z.land rank 63 < 64.
Proof. rewrite land63. apply Z.mod_pos_bound. lia. Qed.

Lemma set_bit_testbit m k i :
  0 ≤ k → 0 ≤ i → Z.testbit (Z.lor m (Z.shiftl 1 k)) i = Z.testbit m i || (k =? i).
Proof. intros. by rewrite Z.lor_spec, Z.shiftl_1_l, Z.pow2_bits_eqb. Qed.

Lemma clear_mask_testbit k i :
  0 ≤ k < 64 → 0 ≤ i < 64 → Z.testbit (2 ^ 64 - 1 - Z.shiftl 1 k) i = negb (k =? i).
Proof.
  intros Hk Hi.
  replace (2 ^ 64 - 1 - Z.shiftl 1 k) with (Z.ldiff (Z.ones 64) (Z.shiftl 1 k)).
  - rewrite Z.ldiff_spec, Z.shiftl_1_l, Z.pow2_bits_eqb, Z.ones_spec_low by lia. done.
  - rewrite <-Z.sub_nocarry_ldiff; [done|].
    apply Z.bits_inj'. intros n Hn. rewrite Z.bits_0, Z.ldiff_spec, Z.shiftl_1_l.
    rewrite Z.pow2_bits_eqb by lia. destruct (Z.eqb_spec k n) as [->|]; [|done].
    by rewrite Z.ones_spec_low by lia.
Qed.
Lemma clear_bit_testbit m k i :
  0 ≤ k < 64 → 0 ≤ i < 64 →
  Z.testbit (Z.land m (2 ^ 64 - 1 - Z.shiftl 1 k)) i = Z.testbit m i && negb (k =? i).
Proof. intros. by rewrite Z.land_spec, clear_mask_testbit. Qed.

Lemma elem_of_set_bits n m i : i ∈ set_bits n m ↔ 0 ≤ i < n ∧ Z.testbit m i = true.
Proof. unfold set_bits. rewrite list_elem_of_filter, elem_of_seqZ. rewrite Z.add_0_l. tauto. Qed.

(** The ranks the loop notifies are the ranks that are asleep. *)
Lemma elem_of_sleepers masks rank :
  length masks = 4%nat → 0 ≤ rank < 256 → rank ∈ sleepers masks ↔ asleep masks rank = true.
Proof.
  intros Hlen Hr. unfold sleepers, asleep. rewrite list_elem_of_join.
  pose proof (shiftr6_range rank Hr) as Hw. pose proof (bit_range rank) as Hb.
  assert (rank = Z.shiftr rank 6 * 64 + Z.land rank 63) as Hrank.
  { rewrite shiftr6, land63. rewrite (Z.div_mod rank 64) at 1 by lia. lia. }
  split.
  - intros (l & Hl & Hin). apply list_elem_of_lookup in Hin as [i Hi].
    rewrite list_lookup_imap in Hi. destruct (masks !! i) as [m|] eqn:Hm; simplify_eq/=.
    apply list_elem_of_fmap in Hl as (b & Hbr & [Hb' Htb]%elem_of_set_bits).
    assert (i < 4)%nat by (rewrite <-Hlen; by eapply lookup_lt_Some).
    assert (Z.land rank 63 = b ∧ Z.shiftr rank 6 = Z.of_nat i) as [-> ->].
    { rewrite shiftr6, land63, Hbr. rewrite (Z.add_comm _ b), Z.mod_add, Z.div_add by lia.
      rewrite Z.mod_small, Z.div_small by lia. lia. }
    rewrite Nat2Z.id, Hm. done.
  - intros Hbit.
    assert (is_Some (masks !! Z.to_nat (Z.shiftr rank 6))) as [m Hm].
    { apply lookup_lt_is_Some. lia. }
    rewrite Hm in Hbit. simpl in Hbit.
    exists (sleepers_in (Z.shiftr rank 6) m). split.
    + apply list_elem_of_fmap. exists (Z.land rank 63). split; [done|].
      apply elem_of_set_bits. done.
    + apply list_elem_of_lookup. exists (Z.to_nat (Z.shiftr rank 6)).
      rewrite list_lookup_imap, Hm. simpl. by rewrite Z2Nat.id by lia.
Qed.

Lemma word_bound_lor m k : 0 ≤ m < 2 ^ 64 → 0 ≤ k < 64 → 0 ≤ Z.lor m (Z.shiftl 1 k) < 2 ^ 64.
Proof.
  intros Hm Hk. rewrite Z.shiftl_1_l.
  assert (0 ≤ 2 ^ k < 2 ^ 64) by (split; [lia|apply Z.pow_lt_mono_r; lia]).
  split; [apply Z.lor_nonneg; lia|].
  destruct (Z.eq_dec (Z.lor m (2 ^ k)) 0) as [->|]; [lia|].
  apply Z.log2_lt_cancel. rewrite Z.log2_lor, Z.log2_pow2, Z.log2_pow2 by lia.
  apply Z.max_lub_lt; [|lia].
  destruct (Z.eq_dec m 0) as [->|]; [done|]. apply Z.log2_lt_pow2; lia.
Qed.
Lemma word_bound_land m k : 0 ≤ m < 2 ^ 64 → 0 ≤ k → 0 ≤ Z.land m k < 2 ^ 64.
Proof.
  intros Hm Hk. split; [apply Z.land_nonneg; lia|].
  destruct (Z.eq_dec (Z.land m k) 0) as [->|]; [lia|].
  apply Z.log2_lt_cancel. rewrite Z.log2_pow2 by lia.
  eapply Z.le_lt_trans; [apply Z.log2_land; lia|].
  eapply Z.le_lt_trans; [apply Z.le_min_l|].
  destruct (Z.eq_dec m 0) as [->|]; [done|]. apply Z.log2_lt_pow2; lia.
Qed.

(** Both operations rewrite one word of the mask. *)
Lemma mask_update_spec rank (g : Z → Z → Z) (h : Z → Z) s :
  masks_wf (smask (this s)) → 0 ≤ rank < 256 →
  (∀ m, 0 ≤ m < 2 ^ 64 → 0 ≤ g m (Z.land rank 63) < 2 ^ 64) →
  wp (m ← mask_word (Z.shiftr rank 6);
      set_self (λ p, p <| smask ::= <[Z.to_nat (Z.shiftr rank 6) := g m (Z.land rank 63)]> |>) ;;
      set_self (λ p, p <| nsleepers ::= h |>))
    (λ _ s', masks_wf (smask (this s')) ∧
      (∀ r, 0 ≤ r < 256 → asleep (smask (this s')) r =
        if decide (Z.to_nat (Z.shiftr r 6) = Z.to_nat (Z.shiftr rank 6))
        then Z.testbit (g (default 0 (smask (this s) !! Z.to_nat (Z.shiftr rank 6)))
               (Z.land rank 63)) (Z.land r 63)
        else asleep (smask (this s)) r) ∧
      this s' = this s <| smask := smask (this s') |> <| nsleepers ::= h |> ∧
      heap s' = heap s ∧ evs s' = evs s ∧ addr s' = addr s) s.
Proof.
  intros [Hlen Hb] Hr Hg. pose proof (shiftr6_range rank Hr).
  assert (is_Some (smask (this s) !! Z.to_nat (Z.shiftr rank 6))) as [m Hm].
  { apply lookup_lt_is_Some. lia. }
  st_step. unfold mask_word. st_step. st_step. rewrite Hm. st_step. st_step. st_step. st_step.
  simpl. split_and!; [split| |done..].
  - by rewrite length_insert.
  - intros m' [i Hi]%list_elem_of_lookup. apply list_lookup_insert_Some in Hi.
    destruct Hi as [(? & <- & ?)|[? Hi]]; [|apply Hb; by eapply list_elem_of_lookup_2].
    apply Hg. apply Hb. by eapply list_elem_of_lookup_2.
  - intros r Hr'. unfold asleep. destruct (decide _) as [Heq|Hne].
    + rewrite Heq, list_lookup_insert_eq; [done|lia].
    + by rewrite list_lookup_insert_ne by congruence.
Qed.

Lemma add_sleeper_spec rank s :
  masks_wf (smask (this s)) → 0 ≤ rank < 256 →
  wp (add_sleeper rank) (λ _ s', masks_wf (smask (this s')) ∧
    (∀ r, 0 ≤ r < 256 → asleep (smask (this s')) r = asleep (smask (this s)) r || (r =? rank)) ∧
    this s' = this s <| smask := smask (this s') |> <| nsleepers ::= Z.succ |> ∧
    heap s' = heap s ∧ evs s' = evs s ∧ addr s' = addr s) s.
Proof.
  intros Hwf Hr. pose proof (bit_range rank).
  eapply wp_mono; [apply (mask_update_spec rank (λ m k, Z.lor m (Z.shiftl 1 k))); [done..|]|].
  { intros m Hm. by apply word_bound_lor. }
  intros [] s' (? & Ha & ?). split; [done|]. split; [|done].
  intros r Hr'. rewrite Ha by done. unfold asleep. destruct (decide _) as [Heq|Hne].
  - rewrite set_bit_testbit, Heq by (apply bit_range). f_equal.
    destruct (Z.eqb_spec (Z.land rank 63) (Z.land r 63)), (Z.eqb_spec r rank); subst; try done.
    exfalso. by eauto using rank_word_bit with lia.
  - destruct (Z.eqb_spec r rank) as [->|]; [done|]. by rewrite orb_false_r.
Qed.

Lemma remove_sleeper_spec rank s :
  masks_wf (smask (this s)) → 0 ≤ rank < 256 →
  wp (remove_sleeper rank) (λ _ s', masks_wf (smask (this s')) ∧
    (∀ r, 0 ≤ r < 256 →
      asleep (smask (this s')) r = asleep (smask (this s)) r && negb (r =? rank)) ∧
    this s' = this s <| smask := smask (this s') |> <| nsleepers ::= Z.pred |> ∧
    heap s' = heap s ∧ evs s' = evs s ∧ addr s' = addr s) s.
Proof.
  intros Hwf Hr. pose proof (bit_range rank) as Hbr.
  eapply wp_mono; [apply (mask_update_spec rank
    (λ m k, Z.land m (2 ^ 64 - 1 - Z.shiftl 1 k))); [done..|]|].
  { intros m Hm. apply word_bound_land; [done|]. rewrite Z.shiftl_1_l.
    assert (2 ^ Z.land rank 63 ≤ 2 ^ 63) by (apply Z.pow_le_mono_r; lia). lia. }
  intros [] s' (? & Ha & ?). split; [done|]. split; [|done].
  intros r Hr'. rewrite Ha by done. unfold asleep. destruct (decide _) as [Heq|Hne].
  - rewrite clear_bit_testbit, Heq by (apply bit_range). f_equal. f_equal.
    destruct (Z.eqb_spec (Z.land rank 63) (Z.land r 63)), (Z.eqb_spec r rank); subst; try done.
    exfalso. by eauto using rank_word_bit with lia.
  - destruct (Z.eqb_spec r rank) as [->|]; [done|]. by rewrite andb_true_r.
Qed.
End specs.

(** ** The mask as a set of parked PEs *)

(** The PEs parked for a pool: their bits, and their number. *)
Record parked (o : ABTI_pool) (S : gset Z) : Prop := {
  pk_masks : masks_wf (smask o);
  pk_count : nsleepers o = Z.of_nat (size S);
  pk_range r : r ∈ S → 0 ≤ r < 256;
  pk_bits r : 0 ≤ r < 256 → asleep (smask o) r = bool_decide (r ∈ S);
}.

Section parked.
Implicit Types (s : pst) (S : gset Z).

Lemma elem_of_sleepers_in w m r :
  r ∈ sleepers_in w m → w * 64 ≤ r < w * 64 + 64.
Proof.
  unfold sleepers_in. rewrite list_elem_of_fmap. intros (i & -> & Hi%elem_of_set_bits). lia.
Qed.
Lemma sleepers_in_nodup w m : NoDup (sleepers_in w m).
Proof. apply NoDup_fmap_2; [intros ???; lia|]. apply NoDup_filter, NoDup_seqZ. Qed.

Lemma sleepers_imap_nodup n masks :
  NoDup (mjoin (imap (λ i m, sleepers_in (Z.of_nat (n + i)) m) masks)) ∧
  ∀ r, r ∈ mjoin (imap (λ i m, sleepers_in (Z.of_nat (n + i)) m) masks) → Z.of_nat n * 64 ≤ r.
Proof.
  revert n. induction masks as [|m masks IH]; intros n; [split; [constructor|set_solver]|].
  assert (imap (λ i m, sleepers_in (Z.of_nat (n + i)) m) (m :: masks) =
    sleepers_in (Z.of_nat n) m :: imap (λ i m, sleepers_in (Z.of_nat (S n + i)) m) masks) as ->.
  { rewrite imap_cons. f_equal; [by rewrite Nat.add_0_r|]. apply imap_ext.
    intros i x _. simpl. by rewrite Nat.add_succ_r. }
  simpl. destruct (IH (Datatypes.S n)) as [Hnd Hlo]. split.
  - apply NoDup_app. split_and!; [apply sleepers_in_nodup| |exact Hnd].
    intros r Hr%elem_of_sleepers_in Hr'%Hlo. lia.
  - intros r [Hr%elem_of_sleepers_in|Hr%Hlo]%elem_of_app; lia.
Qed.
Lemma sleepers_nodup masks : NoDup (sleepers masks).
Proof. exact (proj1 (sleepers_imap_nodup 0 masks)). Qed.
Lemma sleepers_range masks r : length masks = 4%nat → r ∈ sleepers masks → 0 ≤ r < 256.
Proof.
  intros Hlen. unfold sleepers. rewrite list_elem_of_join. intros (l & Hr & Hl).
  apply list_elem_of_lookup in Hl as [i Hi]. rewrite list_lookup_imap in Hi.
  destruct (masks !! i) as [m|] eqn:Hm; simplify_eq/=. apply lookup_lt_Some in Hm.
  apply elem_of_sleepers_in in Hr. lia.
Qed.

Lemma parked_sleepers o S : parked o S → list_to_set (sleepers (smask o)) = S.
Proof.
  intros [[Hlen _] _ Hr Hb]. apply set_eq. intros r. rewrite elem_of_list_to_set. split.
  - intros Hs. pose proof (sleepers_range _ _ Hlen Hs) as Hrg.
    apply elem_of_sleepers in Hs; [|done..]. rewrite Hb in Hs by done. by apply bool_decide_eq_true in Hs.
  - intros Hs. apply elem_of_sleepers; [done|by apply Hr|]. rewrite Hb by (by apply Hr).
    by apply bool_decide_eq_true.
Qed.

Lemma parked_add rank s S :
  parked (this s) S → 0 ≤ rank < 256 → rank ∉ S →
  wp (add_sleeper rank) (λ _ s', parked (this s') ({[rank]} ∪ S)) s.
Proof.
  intros [Hm Hc Hr Hb] Hrk Hn. eapply wp_mono; [by apply add_sleeper_spec|].
  intros [] s' (Hm' & Ha & Ht & _). split; [done| |set_solver by lia|].
  - rewrite Ht. simpl. rewrite size_union, size_singleton by set_solver. lia.
  - intros r Hr'. rewrite Ha, Hb by done. destruct (Z.eqb_spec r rank) as [->|Hne].
    + rewrite orb_true_r. symmetry. apply bool_decide_eq_true. set_solver.
    + rewrite orb_false_r. apply bool_decide_ext. set_solver.
Qed.
Lemma parked_remove rank s S :
  parked (this s) S → rank ∈ S →
  wp (remove_sleeper rank) (λ _ s', parked (this s') (S ∖ {[rank]})) s.
Proof.
  intros [Hm Hc Hr Hb] Hn. pose proof (Hr rank Hn).
  eapply wp_mono; [by apply remove_sleeper_spec|].
  intros [] s' (Hm' & Ha & Ht & _). split; [done| |set_solver by lia|].
  - rewrite Ht. simpl. rewrite size_difference, size_singleton by set_solver.
    assert (size S ≠ 0%nat) by (apply size_non_empty_iff; set_solver). lia.
  - intros r Hr'. rewrite Ha, Hb by done. destruct (Z.eqb_spec r rank) as [->|Hne].
    + rewrite andb_false_r. symmetry. apply bool_decide_eq_false. set_solver.
    + rewrite andb_true_r. apply bool_decide_ext. set_solver.
Qed.

(** The sleeper mask of a pool behaves as the set of the PEs parked for
    it: parking and unparking add and remove one PE, and a push notifies each
    parked PE once and no other, after the one timed pop that waits, if any. *)
Theorem sleeper_mask_is_a_set s S :
  parked (this s) S →
  (∀ rank, 0 ≤ rank < 256 → rank ∉ S →
    wp (add_sleeper rank) (λ _ s', parked (this s') ({[rank]} ∪ S)) s) ∧
  (∀ rank, rank ∈ S → wp (remove_sleeper rank) (λ _ s', parked (this s') (S ∖ {[rank]})) s) ∧
  wp wake_after_push (λ _ s', ∃ ranks, NoDup ranks ∧ list_to_set ranks = S ∧
    evs s' = evs s ++ (if waiters (this s) >? 0 then [CvNotifyOne (addr s)] else []) ++
      (CsdIdleNotify <$> ranks) ∧ this s' = this s ∧ heap s' = heap s) s.
Proof.
  intros Hp. split_and!; [auto using parked_add|auto using parked_remove|].
  eapply wp_mono; [apply wake_after_push_spec, Hp|]. intros [] s' ->. simpl.
  exists (sleepers (smask (this s))).
  split_and!; [apply sleepers_nodup|by apply parked_sleepers| |done..].
  unfold wake_events. rewrite (pk_count _ _ Hp). destruct (Z.gtb_spec (Z.of_nat (size S)) 0) as [|Hz].
  - done.
  - assert (S = ∅) as HS by (apply leibniz_equiv, size_empty_inv; lia).
    assert (sleepers (smask (this s)) = []) as ->; [|done].
    apply parked_sleepers in Hp. destruct (sleepers (smask (this s))); [done|set_solver].
Qed.
End parked.

