(* ===== verification/WakeSteps.v ===== *)
(** * The end of a push, access by access

    After its unit is in the storage, [ABTI_pool::push] counts it and runs
    [wake_after_push].  Here each access to a shared field is a step of its own:
    the increment of [count], the reading of [waiters], the notification made with
    [wm] held, the reading of [nsleepers], and of each word of the sleeper mask,
    with the notifications that follow it.  Run
    without interference the steps are the operation of [Sleepers]. *)

From S2P Require Import Prelude AbtTypes Objects Storage Sleepers.

(** A pool but for who waits for it, and how many schedulers and blocked threads it has. *)
Definition aside (o : ABTI_pool) : ABTI_pool :=
  o <| smask := [] |> <| nsleepers := 0 |> <| waiters := 0 |> <| num_blocked := 0 |> <| num_scheds := 0 |>.

Inductive wpoint : Type :=
  | WCount
  | WWaiters
  | WNotify
  | WSleepers
  | WWord (w : Z).
Definition wake_step (p : wpoint) : M pst (option wpoint) :=
  match p with
  | WCount => set_self (λ p, p <| count ::= Z.succ |>) ;; mret (Some WWaiters)
  | WWaiters => p ← self; mret (Some (if waiters p >? 0 then WNotify else WSleepers))
  | WNotify => a ← gets addr; notify (CvNotifyOne a) ;; mret (Some WSleepers)
  | WSleepers => p ← self; mret (if nsleepers p >? 0 then Some (WWord 0) else None)
  | WWord w =>
      m ← mask_word w;
      notify_bits 64 (w * 64) m ;;
      mret (if w <? 3 then Some (WWord (w + 1)) else None)
  end.
Definition wpoint_ok (p : wpoint) : Prop := match p with WWord w => 0 ≤ w < 4 | _ => True end.

(** [p] has not looked at the bit of [rank]. *)
Definition before_word (rank : Z) (p : wpoint) : bool := match p with WWord w => w <=? Z.shiftr rank 6 | _ => true end.
Definition counts (p : wpoint) : bool := match p with WCount => true | _ => false end.

(** All the steps from [p] on, alone. *)
Fixpoint wake_run (fuel : nat) (p : wpoint) : M pst unit :=
  match fuel with
  | O => fail OutOfFuel
  | S fuel => r ← wake_step p; match r with Some p => wake_run fuel p | None => mret tt end
  end.

Section wake.
Implicit Types (s : pst) (p : wpoint).

(** one word, and what comes after it *)
Lemma wake_word_run fuel w s : wake_run (S fuel) (WWord w) s =
  (mask_word w ≫= λ m, notify_bits 64 (w * 64) m ;; if w <? 3 then wake_run fuel (WWord (w + 1)) else mret tt) s.
Proof.
  cbn [wake_run wake_step]. rewrite bind_bind. apply bind_ext. intros m s1 _. rewrite bind_bind. apply bind_ext. intros [] s2 _.
  by destruct (w <? 3).
Qed.
Lemma wake_words_run n s : wake_run (4 + n) (WWord 0) s = notify_words [0; 1; 2; 3] s.
Proof.
  cbn [notify_words]. change (4 + n)%nat with (S (3 + n)). rewrite wake_word_run. apply bind_ext. intros ? ? _. apply bind_ext. intros [] s1 _.
  match goal with |- _ = ?r => change (wake_run (S (2 + n)) (WWord 1) s1 = r) end. rewrite wake_word_run. apply bind_ext. intros ? ? _. apply bind_ext. intros [] s2 _.
  match goal with |- _ = ?r => change (wake_run (S (1 + n)) (WWord 2) s2 = r) end. rewrite wake_word_run. apply bind_ext. intros ? ? _. apply bind_ext. intros [] s3 _.
  match goal with |- _ = ?r => change (wake_run (S n) (WWord 3) s3 = r) end. by rewrite wake_word_run.
Qed.
Lemma wake_sleepers_run n s : wake_run (5 + n) WSleepers s = (o ← self; when (nsleepers o >? 0) (notify_words [0; 1; 2; 3])) s.
Proof.
  change (5 + n)%nat with (S (4 + n)). cbn [wake_run wake_step]. rewrite bind_bind. apply bind_ext. intros o s1 _. unfold when.
  change (mret ?x ≫= ?k) with (k x). destruct (nsleepers o >? 0); [apply (wake_words_run n s1)|done].
Qed.
(** Without interference: count, then [wake_after_push]; eight steps are enough. *)
Lemma wake_run_sequential s : wake_run 8 WCount s = (set_self (λ o, o <| count ::= Z.succ |>) ;; wake_after_push) s.
Proof.
  change (wake_run 8 WCount s) with (wake_run 7 WWaiters (with_this s (this s <| count ::= Z.succ |>))).
  change ((_ ;; wake_after_push) s) with (wake_after_push (with_this s (this s <| count ::= Z.succ |>))).
  generalize (with_this s (this s <| count ::= Z.succ |>)). clear s. intros s.
  change (wake_run 7 WWaiters s) with (wake_run 6 (if waiters (this s) >? 0 then WNotify else WSleepers) s).
  unfold wake_after_push, when at 1. destruct (waiters (this s) >? 0) eqn:Hw.
  - etrans; [|symmetry; apply (bind_runs _ _ _ _ _ (eq_refl : self s = Done (this s) s))]. rewrite Hw.
    cbn [wake_run wake_step]. rewrite bind_bind. apply bind_ext. intros a s1 _. rewrite bind_bind. apply bind_ext. intros [] s2 _.
    apply (wake_sleepers_run 0).
  - etrans; [|symmetry; apply (bind_runs _ _ _ _ _ (eq_refl : self s = Done (this s) s))]. rewrite Hw. apply (wake_sleepers_run 1).
Qed.

(** A step touches the counter and the log only, and fails never. *)
Lemma wake_step_spec p s : wpoint_ok p → masks_wf (smask (this s)) →
  wp (wake_step p) (λ r s', heap s' = heap s ∧ addr s' = addr s ∧
    this s' = (this s <| count ::= λ n, n + Z.b2z (counts p) |>) ∧
    (∃ l, evs s' = evs s ++ l ∧ ∀ rank, 0 ≤ rank < 256 → asleep (smask (this s)) rank = true → 0 < nsleepers (this s) → before_word rank p = true →
       CsdIdleNotify rank ∈ l ∨ ∃ p', r = Some p' ∧ before_word rank p' = true) ∧
    (∀ p', r = Some p' → wpoint_ok p' ∧ counts p' = false)) s.
Proof.
  intros Hp Hm. assert (this s = this s <| count ::= λ n, n + 0 |>) as Hid by (destruct (this s); unfold upd; simpl; by rewrite Z.add_0_r).
  destruct p as [| | | |w].
  - split_and!; [done|done|done| |by intros p' [= <-]]. exists []. rewrite app_nil_r. split; [done|]. intros rank _ _ _ _. right. by eexists.
  - unfold wake_step. st_step. st_step. st_step. split_and!; [done|done|done| |by destruct (_ >? _); intros p' [= <-]].
    exists []. rewrite app_nil_r. split; [done|]. intros rank _ _ _ _. right. eexists. split; [done|]. by destruct (_ >? _).
  - unfold wake_step. split_and!; [done|done|done| |by intros p' [= <-]]. eexists. split; [done|].
    intros rank _ _ _ _. right. by eexists.
  - unfold wake_step. st_step. st_step. st_step. split_and!; [done|done|done| |by destruct (_ >? _); intros p' [= <-]].
    exists []. rewrite app_nil_r. split; [done|]. intros rank Hr _ Hn _. right. exists (WWord 0).
    replace (nsleepers (this s) >? 0) with true by lia. split; [done|]. simpl. pose proof (shiftr6_range rank Hr). lia.
  - unfold wake_step. simpl in Hp. destruct Hm as [Hlen Hb].
    assert (is_Some (smask (this s) !! Z.to_nat w)) as [m Hm] by (apply lookup_lt_is_Some; lia).
    st_step. unfold mask_word. st_step. st_step. rewrite Hm. st_step. st_step.
    eapply wp_mono; [apply notify_bits_spec; [apply Hb; by eapply list_elem_of_lookup_2|apply set_bits_length]|].
    intros [] s1 ->. st_step. split_and!; [done|done|done| |].
    + eexists. split; [done|]. intros rank Hr Ha _ Hw. simpl in Hw. destruct (Z.eq_dec w (Z.shiftr rank 6)) as [->|Hne].
      * left. apply list_elem_of_fmap. exists (Z.land rank 63). split.
        { f_equal. rewrite shiftr6, land63. rewrite (Z.div_mod rank 64) at 1 by lia. lia. }
        apply elem_of_set_bits. split; [apply bit_range|]. unfold asleep in Ha. by rewrite Hm in Ha.
      * right. pose proof (shiftr6_range rank Hr). exists (WWord (w + 1)). replace (w <? 3) with true by lia. split; [done|]. simpl. lia.
    + destruct (Z.ltb_spec w 3); intros p' [= <-]. simpl. split; [lia|done].
Qed.

(** What does not depend on the mask being one. *)
Lemma notify_quiet e : preserves (λ s : pst, (addr s, this s, heap s)) (notify e).
Proof. by intros s. Qed.
Lemma notify_bits_quiet fuel b m : preserves (λ s : pst, (addr s, this s, heap s)) (notify_bits fuel b m).
Proof.
  revert m. induction fuel as [|fuel IH]; intros m; simpl; (case_match; [apply preserves_ret|]); [apply preserves_fail|].
  apply preserves_bind; [apply notify_quiet|]. intros []. apply IH.
Qed.
Lemma mask_word_Done w s m s' : mask_word w s = Done m s' → s' = s.
Proof. unfold mask_word, mbind, M_bind, self, gets. destruct (smask (this s) !! Z.to_nat w); [by intros [= _ <-]|done]. Qed.
Lemma wake_step_Done p s r s' : wake_step p s = Done r s' →
  addr s' = addr s ∧ heap s' = heap s ∧ this s' = (this s <| count ::= λ n, n + Z.b2z (counts p) |>) ∧
  ∀ p', r = Some p' → (wpoint_ok p → wpoint_ok p') ∧ counts p' = false.
Proof.
  assert (∀ o : ABTI_pool, o <| count ::= λ n, n + 0 |> = o) as Hid by (intros []; unfold upd; simpl; by rewrite Z.add_0_r).
  destruct p as [| | | |w]; simpl Z.b2z; rewrite ?Hid.
  - intros [= <- <-]. split_and!; [done..|by intros p' [= <-]].
  - intros (o & s1 & [= <- <-] & [= <- <-])%bind_Done. split_and!; [done..|]. by case_match; intros p' [= <-].
  - intros [= <- <-]. split_and!; [done..|by intros p' [= <-]].
  - intros (o & s1 & [= <- <-] & [= <- <-])%bind_Done. split_and!; [done..|]. by case_match; intros p' [= <-].
  - intros (m & s1 & ->%mask_word_Done & Hst)%bind_Done. apply bind_Done in Hst as ([] & s1 & Hn & [= <- <-]).
    pose proof (wlp_Done _ _ _ _ _ (notify_bits_quiet _ _ _ s) Hn) as [= -> -> ->]. split_and!; [done..|].
    destruct (Z.ltb_spec w 3); intros p' [= <-]. simpl. split; [lia|done].
Qed.

(** ** What the steps mean for a PE *)

Definition told_rank (e : event) : option Z := match e with CsdIdleNotify r => Some r | _ => None end.
(** the PEs notified from [s] to [s'] *)
Definition told (s s' : pst) : gset Z := list_to_set (omap told_rank (drop (length (evs s)) (evs s'))).
(** a push that has counted its unit and not looked at the bit *)
Definition owe (rank : Z) (p : wpoint) : Z := Z.b2z (negb (counts p) && before_word rank p).
Lemma owe_nonneg rank p : 0 ≤ owe rank p.
Proof. unfold owe. by destruct (_ && _). Qed.
Lemma wake_tells rank p s r s' : wpoint_ok p → masks_wf (smask (this s)) → 0 ≤ rank < 256 → asleep (smask (this s)) rank = true →
  0 < nsleepers (this s) → wake_step p s = Done r s' →
  (before_word rank p = true → rank ∈ told s s' ∨ ∃ p', r = Some p' ∧ before_word rank p' = true) ∧
  (count (this s') - from_option (owe rank) 0 r ≤ count (this s) - owe rank p ∨ rank ∈ told s s').
Proof.
  intros Hok Hm Hr Ha Hn Hst. destruct (wp_Done _ _ _ _ _ (wake_step_spec p s Hok Hm) Hst) as (_ & _ & Et & (l & El & Hl) & Hc).
  assert (before_word rank p = true → rank ∈ told s s' ∨ ∃ p', r = Some p' ∧ before_word rank p' = true) as Hb.
  { intros Hw. destruct (Hl rank Hr Ha Hn Hw) as [Hin|?]; [left|by right].
    unfold told. rewrite El, drop_app_length. apply elem_of_list_to_set, list_elem_of_omap. by exists (CsdIdleNotify rank). }
  split; [exact Hb|]. rewrite Et. unfold owe. destruct (before_word rank p) eqn:Hw.
  - destruct (Hb eq_refl) as [?|(p' & -> & Hw')]; [by right|left]. destruct (Hc p' eq_refl) as [_ Hc']. simpl. unfold owe. rewrite Hw', Hc'.
    destruct (counts p); simpl; lia.
  - left. assert (counts p = false) as -> by (by destruct p). simpl. destruct r as [p'|]; simpl; [|lia]. unfold owe. destruct (_ && _); simpl; lia.
Qed.
End wake.

(** ** The counter *)

Lemma set_th_count t f : preserves (λ s, count (this s)) (set_th t f).
Proof. intros s. unfold set_th, wlp, run. by destruct (heap s !! t). Qed.
Lemma th_count t : preserves (λ s, count (this s)) (th t).
Proof. intros s. unfold th, wlp, run. by destruct (heap s !! t). Qed.
Lemma set_self_count f : (∀ x, count (f x) = count x) → preserves (λ s, count (this s)) (set_self f).
Proof. intros Hf s. apply Hf. Qed.
#[export] Hint Resolve th_count set_th_count : frame.
#[export] Hint Extern 2 (preserves (λ s, count (this s)) (set_self _)) => (apply set_self_count; intros; reflexivity) : frame.
