(* ===== verification/ListConc.v ===== *)
(** * The spinlocked pool storage, with everybody at once

    The operations of [PoolList] as steps of a machine: any number of threads
    push, pop and remove.  The exchange of [in_pool], each access of
    [ABTI_spinlock::lock], the work done with the lock held, [unlock] and each
    access to the counters and the sleeper mask are steps of their own.  [hist]
    is ghost: the operations in the order of their critical sections, with what
    they answered.  [pin a] is what thread [a] may not resume. *)

From S2P Require Import Prelude AbtTypes Objects Storage PoolList Spinlock Sleepers WakeSteps.

(** ** The programs *)

(** What is done with the lock held. *)
Inductive csect : Type :=
  | SInsert (t : ptr)
  | STake
  | SDrop (t : ptr).
(** A thread inside [push], [pop_list] or [remove_unit]; [AOut p]: about to
    [unlock] and go on at [p]. *)
Inductive apoint : Type :=
  | AIdle
  | AMark (t : ptr)
  | ALock (k : lkpoint) (c : csect)
  | AIn (c : csect)
  | AOut (p : apoint)
  | ATail (w : wpoint)
  | ALess.
(** The operations on the abstract queue, with their answers; [mine]: the pool
    of the unit is this one. *)
Inductive qop : Type :=
  | QPush (t : ptr)
  | QPop (pinned : ptr → bool) (r : option ptr)
  | QRemove (t : ptr) (mine hit : bool).

(** [if (t->in_pool.exchange(true)) CmiAbort(...)] *)
Definition mark (t : ptr) : M pst unit :=
  x ← th t;
  set_th t (λ x, x <| in_pool := true |>) ;;
  if in_pool x then fail (Aborted "abt: a unit was pushed into a pool it is already queued in") else mret tt.
Definition section (pinned_elsewhere : ABTI_thread → bool) (c : csect) : M pst (apoint * qop) :=
  match c with
  | SInsert t => list_push t ;; mret (ATail WCount, QPush t)
  | STake =>
      h ← gets heap;
      r ← list_take pinned_elsewhere;
      mret (if non_null r then ALess else AIdle, QPop (pin_at h pinned_elsewhere) r)
  | SDrop t =>
      x ← th t;
      a ← gets addr;
      if in_pool x && bool_decide (t_pool x = Some a)
      then hit ← list_drop t; mret (if hit : bool then ALess else AIdle, QRemove t true hit)
      else mret (AIdle, QRemove t (bool_decide (t_pool x = Some a)) false)
  end.
Definition less : M pst unit := set_self (λ p, p <| count ::= Z.pred |>).

(** ** The machine *)

Record lst : Type := mk_lst {
  lp : pst;
  lk : bool;
  ags : gmap Z apoint;
  hist : list qop;
}.
#[global] Instance eta_lst : Eta lst := λ j, mk_lst (lp j) (lk j) (ags j) (hist j).

(** The unit a thread is pushing, until it is in the list. *)
Definition pushing (p : apoint) : option ptr :=
  match p with ALock _ (SInsert t) | AIn (SInsert t) => Some t | _ => None end.
(** Nobody is pushing the unit that is removed. *)
Definition settled (j : lst) (c : csect) : Prop :=
  ∀ t, c = SDrop t → ∀ b p, ags j !! b = Some p → pushing p ≠ Some t.

(** [strict]: a unit is only removed when no push of it is under way. *)
Inductive lstep (strict : bool) (pin : Z → ABTI_thread → bool) (j : lst) : lst → Prop :=
  | lstep_push a t : ags j !! a = Some AIdle → lstep strict pin j (j <| ags ::= insert a (AMark t) |>)
  | lstep_pop a : ags j !! a = Some AIdle → lstep strict pin j (j <| ags ::= insert a (ALock lk_start STake) |>)
  | lstep_remove a t : ags j !! a = Some AIdle → lstep strict pin j (j <| ags ::= insert a (ALock lk_start (SDrop t)) |>)
  | lstep_mark a t s' : ags j !! a = Some (AMark t) → mark t (lp j) = Done tt s' →
      lstep strict pin j (j <| lp := s' |> <| ags ::= insert a (ALock lk_start (SInsert t)) |>)
  | lstep_spin a k c f' r : ags j !! a = Some (ALock k c) → lk_step (lk j) k = (f', r) →
      lstep strict pin j (j <| lk := f' |> <| ags ::= insert a (match r with Some k => ALock k c | None => AIn c end) |>)
  | lstep_section a c p op s' : ags j !! a = Some (AIn c) → (strict = true → settled j c) →
      section (pin a) c (lp j) = Done (p, op) s' →
      lstep strict pin j (j <| lp := s' |> <| ags ::= insert a (AOut p) |> <| hist ::= λ l, l ++ [op] |>)
  | lstep_unlock a p : ags j !! a = Some (AOut p) → lstep strict pin j (j <| lk := lk_unlock |> <| ags ::= insert a p |>)
  | lstep_tail a w r s' : ags j !! a = Some (ATail w) → wake_step w (lp j) = Done r s' →
      lstep strict pin j (j <| lp := s' |> <| ags ::= insert a (match r with Some w => ATail w | None => AIdle end) |>)
  | lstep_less a s' : ags j !! a = Some ALess → less (lp j) = Done tt s' →
      lstep strict pin j (j <| lp := s' |> <| ags ::= insert a AIdle |>)
  (** the rest of the program: other fields of threads, new threads, and who waits for the pool *)
  | lstep_env h : (∀ t, queue_of <$> h !! t = queue_of <$> heap (lp j) !! t ∨ heap (lp j) !! t = None ∧ idle_in h t) →
      lstep strict pin j (j <| lp ::= λ s, with_heap s h |>)
  | lstep_aside o : aside o = aside (this (lp j)) → masks_wf (smask o) → lstep strict pin j (j <| lp ::= λ s, with_this s o |>).
Definition lstart (s : pst) (agents : gset Z) : lst := mk_lst s false (gset_to_gmap AIdle agents) [].

(** ** The abstract queue *)

Definition qdo (op : qop) (l : list ptr) : option (list ptr) :=
  match op with
  | QPush t => Some (PoolSpec.push t l)
  | QPop pinned r => if decide ((PoolSpec.pop pinned l).1 = r) then Some (PoolSpec.pop pinned l).2 else None
  | QRemove t mine hit =>
      if decide (hit = mine && bool_decide (t ∈ l)) then Some (if mine then PoolSpec.remove t l else l) else None
  end.
Fixpoint qrun (ops : list qop) (l : list ptr) : option (list ptr) :=
  match ops with [] => Some l | op :: ops => l' ← qdo op l; qrun ops l' end.

(** *** Runs *)

Inductive llabel : Type :=
  | LPush (a : Z) (t : ptr)
  | LPop (a : Z)
  | LRemove (a : Z) (t : ptr)
  | LStep (a : Z).
Definition settledb (j : lst) (c : csect) : bool :=
  match c with SDrop t => forallb (λ ap : Z * apoint, bool_decide (pushing ap.2 ≠ Some t)) (map_to_list (ags j)) | _ => true end.
Definition ldo (strict : bool) (pin : Z → ABTI_thread → bool) (lb : llabel) (j : lst) : option lst :=
  match lb with
  | LPush a t => match ags j !! a with Some AIdle => Some (j <| ags ::= insert a (AMark t) |>) | _ => None end
  | LPop a => match ags j !! a with Some AIdle => Some (j <| ags ::= insert a (ALock lk_start STake) |>) | _ => None end
  | LRemove a t => match ags j !! a with Some AIdle => Some (j <| ags ::= insert a (ALock lk_start (SDrop t)) |>) | _ => None end
  | LStep a =>
      match ags j !! a with
      | Some (AMark t) =>
          match mark t (lp j) with
          | Done _ s' => Some (j <| lp := s' |> <| ags ::= insert a (ALock lk_start (SInsert t)) |>)
          | _ => None
          end
      | Some (ALock k c) =>
          let '(f', r) := lk_step (lk j) k in
          Some (j <| lk := f' |> <| ags ::= insert a (match r with Some k => ALock k c | None => AIn c end) |>)
      | Some (AIn c) =>
          if strict && negb (settledb j c) then None else
          match section (pin a) c (lp j) with
          | Done (p, op) s' => Some (j <| lp := s' |> <| ags ::= insert a (AOut p) |> <| hist ::= λ l, l ++ [op] |>)
          | _ => None
          end
      | Some (AOut p) => Some (j <| lk := lk_unlock |> <| ags ::= insert a p |>)
      | Some (ATail w) =>
          match wake_step w (lp j) with
          | Done r s' => Some (j <| lp := s' |> <| ags ::= insert a (match r with Some w => ATail w | None => AIdle end) |>)
          | _ => None
          end
      | Some ALess =>
          match less (lp j) with Done _ s' => Some (j <| lp := s' |> <| ags ::= insert a AIdle |>) | _ => None end
      | _ => None
      end
  end.
Fixpoint lrun (strict : bool) (pin : Z → ABTI_thread → bool) (ls : list llabel) (j : lst) : option lst :=
  match ls with [] => Some j | lb :: ls => j' ← ldo strict pin lb j; lrun strict pin ls j' end.
Lemma settledb_spec j c : settledb j c = true → settled j c.
Proof.
  intros Hs t -> b p Hb. simpl in Hs. rewrite forallb_forall in Hs. specialize (Hs (b, p)).
  rewrite bool_decide_eq_true in Hs. apply Hs, list_elem_of_In, elem_of_map_to_list, Hb.
Qed.
Lemma ldo_sound strict pin lb j j' : ldo strict pin lb j = Some j' → lstep strict pin j j'.
Proof.
  destruct lb as [a t|a|a t|a]; simpl; intros Hd; destruct (ags j !! a) as [p|] eqn:Ha; try done.
  - destruct p; simplify_eq. by apply lstep_push.
  - destruct p; simplify_eq. by apply lstep_pop.
  - destruct p; simplify_eq. by apply lstep_remove.
  - destruct p as [|t|k c|c|p|w|]; [done|..].
    + destruct (mark t (lp j)) as [[] s'|] eqn:Hs; simplify_eq. by eapply lstep_mark.
    + destruct (lk_step (lk j) k) as [f' r] eqn:Hs. simplify_eq. by eapply lstep_spin.
    + destruct (strict && negb (settledb j c)) eqn:Hg; [done|]. destruct (section (pin a) c (lp j)) as [[p op] s'|] eqn:Hs; simplify_eq.
      eapply lstep_section; [done| |done]. intros ->. apply settledb_spec. by destruct (settledb j c).
    + simplify_eq. by eapply lstep_unlock.
    + destruct (wake_step w (lp j)) as [r s'|] eqn:Hs; simplify_eq. by eapply lstep_tail.
    + destruct (less (lp j)) as [[] s'|] eqn:Hs; simplify_eq. by eapply lstep_less.
Qed.
Lemma lrun_sound strict pin ls j j' : lrun strict pin ls j = Some j' → rtc (lstep strict pin) j j'.
Proof.
  revert j. induction ls as [|lb ls IH]; intros j; simpl; [by intros [= ->]|].
  destruct (ldo strict pin lb j) as [j1|] eqn:Hl; [|done]. intros Hr. eapply rtc_l; [by eapply ldo_sound|by apply IH].
Qed.
