(* ===== verification/ListSafe.v ===== *)
(** * The locked list is a queue

    The invariant of the machine of [ListConc]: the list holds the abstract queue
    that [hist] describes, the lock is held by the thread that is in a critical
    section, and the counter is the length of the queue but for the updates under
    way.  From it: every interleaving of pushes, pops and removals is equivalent
    to running them one after the other in the order of their critical sections. *)

From S2P Require Import Prelude AbtTypes Objects Storage PoolList Spinlock Sleepers WakeSteps ListConc.

Implicit Types (s : pst) (j : lst) (l : list ptr) (t : ptr) (p : apoint) (a b : Z).

Lemma qrun_app ops ops' l l' : qrun ops l = Some l' → qrun (ops ++ ops') l = qrun ops' l'.
Proof.
  revert l. induction ops as [|op ops IH]; intros l; simpl; [by intros [= ->]|].
  destruct (qdo op l) as [l1|]; [|done]. apply IH.
Qed.

(** ** The invariant *)

Definition inside p : bool := match p with AIn _ | AOut _ => true | _ => false end.
Definition holding j a : Prop := ∃ p, ags j !! a = Some p ∧ inside p = true.
(** what a push has not counted yet, and what a pop or removal has not *)
Fixpoint to_add p : Z := match p with ATail w => Z.b2z (counts w) | AOut p => to_add p | _ => 0 end.
Fixpoint to_drop p : Z := match p with ALess => 1 | AOut p => to_drop p | _ => 0 end.
Definition point_ok p : Prop :=
  match p with
  | AOut p => match p with AIdle | ALess => True | ATail w => w = WCount | _ => False end
  | ATail w => wpoint_ok w
  | ALock k _ => pause_ok (pause_of k)
  | _ => True
  end.
Definition flag s t : option bool := in_pool <$> heap s !! t.

Record linv j l : Prop := {
  li_rep : list_store (lp j) l;
  li_lock : LockedBy (lk j) (holding j);
  li_points a p : ags j !! a = Some p → point_ok p;
  li_push a p t : ags j !! a = Some p → pushing p = Some t → (t ∉ l) ∧ flag (lp j) t = Some true;
  li_alone a b p p' t : a ≠ b → ags j !! a = Some p → ags j !! b = Some p' → pushing p = Some t → pushing p' ≠ Some t;
  li_in t : flag (lp j) t = Some true → t ∈ l ∨ ∃ a p, ags j !! a = Some p ∧ pushing p = Some t;
  li_clean t x : heap (lp j) !! t = Some x → removed x = false;
  li_hist : qrun (hist j) [] = Some l;
  li_count : count (this (lp j)) = Z.of_nat (length l) - tally to_add (ags j) + tally to_drop (ags j);
  li_masks : masks_wf (smask (this (lp j)));
}.

(** Memory that looks the same to the list. *)
Record same_list s s' : Prop := {
  sl_store : store_of (this s') = store_of (this s);
  sl_queue t : is_Some (heap s !! t) → queue_of <$> heap s' !! t = queue_of <$> heap s !! t;
  sl_new t x : heap s !! t = None → heap s' !! t = Some x → in_pool x = false ∧ removed x = false;
}.
Lemma same_list_refl s : same_list s s.
Proof. split; [done..|congruence]. Qed.
Lemma same_heap s s' : heap s' = heap s → store_of (this s') = store_of (this s) → same_list s s'.
Proof. intros Eh Et. split; [done|by rewrite Eh|rewrite Eh; congruence]. Qed.
Lemma same_list_rep s s' l : same_list s s' → list_store s l → list_store s' l.
Proof.
  intros [S1 S2 S3] Hl. eapply list_store_stable; [exact Hl|done|]. intros t Ht. apply S2.
  destruct Hl as [_ Hf]. destruct (Hf t Ht) as (x & -> & _). by eexists.
Qed.
Lemma same_list_flag s s' t : same_list s s' → flag s' t = Some true ↔ flag s t = Some true.
Proof.
  intros [S1 S2 S3]. unfold flag. destruct (heap s !! t) as [x|] eqn:Hx.
  - specialize (S2 t). rewrite Hx in S2. specialize (S2 (ex_intro _ x eq_refl)). destruct (heap s' !! t) as [y|]; [|done].
    injection S2 as _ _ _ Ei _. simpl. by rewrite Ei.
  - destruct (heap s' !! t) as [y|] eqn:Hy; [|done]. destruct (S3 t y Hx Hy) as [Hy' _]. simpl. rewrite Hy'. done.
Qed.
Lemma same_list_clean s s' t y : same_list s s' → (∀ x, heap s !! t = Some x → removed x = false) → heap s' !! t = Some y → removed y = false.
Proof.
  intros [S1 S2 S3] Hc Hy. destruct (heap s !! t) as [x|] eqn:Hx.
  - specialize (S2 t). rewrite Hx, Hy in S2. specialize (S2 (ex_intro _ x eq_refl)). injection S2 as _ _ _ _ ->. by apply Hc.
  - by destruct (S3 t y Hx Hy).
Qed.

(** A step of thread [a] that leaves the list, the lock and the history alone. *)
Lemma quiet_step j l a p p' s' : linv j l → ags j !! a = Some p → same_list (lp j) s' →
  inside p = false → inside p' = false → pushing p = None → pushing p' = None → point_ok p' → masks_wf (smask (this s')) →
  count (this s') = count (this (lp j)) + to_add p - to_add p' - to_drop p + to_drop p' →
  linv (j <| lp := s' |> <| ags ::= insert a p' |>) l.
Proof.
  intros [L1 L2 L3 L4 L5 L6 L7 L8 L9 L10] Ha S Hi Hi' Hp Hp' Hok Hm Hc. split; simpl; try done.
  - by eapply same_list_rep.
  - eapply locked_ext; [|exact L2]. intros b. unfold holding. simpl. destruct (decide (a = b)) as [<-|Hne].
    + rewrite lookup_insert_eq, Ha. split; intros (q & [= <-] & Hq); congruence.
    + by rewrite lookup_insert_ne.
  - intros b q. destruct (decide (a = b)) as [<-|Hne]; [rewrite lookup_insert_eq; by intros [= <-]|rewrite lookup_insert_ne by done; apply L3].
  - intros b q t. destruct (decide (a = b)) as [<-|Hne]; [rewrite lookup_insert_eq; intros [= <-]; congruence|].
    rewrite lookup_insert_ne by done. intros Hb Hq. destruct (L4 b q t Hb Hq). split; [done|]. by apply (same_list_flag _ _ _ S).
  - intros b c q q' t Hne Hb Hc' Hq. destruct (decide (a = b)) as [<-|Hab]; [rewrite lookup_insert_eq in Hb; congruence|].
    destruct (decide (a = c)) as [<-|Hac]; [rewrite lookup_insert_eq in Hc'; congruence|].
    rewrite lookup_insert_ne in Hb, Hc' by done. by eapply (L5 b c).
  - intros t Ht%(same_list_flag _ _ _ S). destruct (L6 t Ht) as [?|(b & q & Hb & Hq)]; [by left|right].
    exists b, q. split; [|done]. rewrite lookup_insert_ne; [done|]. intros ->. congruence.
  - intros t x Hx. eapply same_list_clean; [exact S| |exact Hx]. intros y. apply L7.
  - rewrite Hc, !(tally_insert _ _ _ _ _ Ha), L9. lia.
Qed.
(** A step of thread [a], in general. *)
Lemma lmove j l l' a p p' s' f' ops : linv j l → ags j !! a = Some p → list_store s' l' →
  LockedBy f' (holding (mk_lst s' f' (<[a := p']> (ags j)) (hist j ++ ops))) → point_ok p' →
  (∀ b q t, b ≠ a → ags j !! b = Some q → pushing q = Some t → (t ∉ l') ∧ flag s' t = Some true) →
  (∀ t, pushing p' = Some t → (t ∉ l') ∧ flag s' t = Some true ∧ ∀ b q, b ≠ a → ags j !! b = Some q → pushing q ≠ Some t) →
  (∀ t, flag s' t = Some true → t ∈ l' ∨ pushing p' = Some t ∨ ∃ b q, b ≠ a ∧ ags j !! b = Some q ∧ pushing q = Some t) →
  (∀ t x, heap s' !! t = Some x → removed x = false) → qrun ops l = Some l' → masks_wf (smask (this s')) →
  count (this s') = count (this (lp j)) + Z.of_nat (length l') - Z.of_nat (length l) + to_add p - to_add p' - to_drop p + to_drop p' →
  linv (mk_lst s' f' (<[a := p']> (ags j)) (hist j ++ ops)) l'.
Proof.
  intros [L1 L2 L3 L4 L5 L6 L7 L8 L9 L10] Ha Hrep Hlk Hok Hps Hown Hin Hcl Hh Hm Hc. split; try done; cbn [lp ags hist].
  - intros b q. destruct (decide (a = b)) as [<-|Hne]; [rewrite lookup_insert_eq; by intros [= <-]|rewrite lookup_insert_ne by done; apply L3].
  - intros b q t. destruct (decide (a = b)) as [<-|Hne].
    + rewrite lookup_insert_eq. intros [= <-] Ht. by destruct (Hown t Ht) as (? & ? & _).
    + rewrite lookup_insert_ne by done. by apply Hps.
  - intros b c q q' t Hne Hb Hc' Hq Hq'. destruct (decide (a = b)) as [<-|Hab].
    + rewrite lookup_insert_eq in Hb. injection Hb as <-. rewrite lookup_insert_ne in Hc' by done.
      destruct (Hown t Hq) as (_ & _ & Ho). by apply (Ho c q').
    + rewrite lookup_insert_ne in Hb by done. destruct (decide (a = c)) as [<-|Hac].
      * rewrite lookup_insert_eq in Hc'. injection Hc' as <-. destruct (Hown t Hq') as (_ & _ & Ho). by apply (Ho b q).
      * rewrite lookup_insert_ne in Hc' by done. by apply (L5 b c q q' t).
  - intros t Ht. destruct (Hin t Ht) as [?|[Hp|(b & q & Hne & Hb & Hq)]]; [by left|right..].
    + exists a, p'. by rewrite lookup_insert_eq.
    + exists b, q. by rewrite lookup_insert_ne.
  - by rewrite (qrun_app _ _ _ _ L8).
  - rewrite Hc, !(tally_insert _ _ _ _ _ Ha), L9. lia.
Qed.
Lemma holding_insert s' f' m h a p' b : holding (mk_lst s' f' (<[a := p']> m) h) b ↔
  if decide (b = a) then inside p' = true else ∃ p, m !! b = Some p ∧ inside p = true.
Proof.
  unfold holding. cbn [ags]. case_decide as Hb.
  - subst b. rewrite lookup_insert_eq. split; [intros (q & [= <-] & ?); done|]. intros ?. by exists p'.
  - by rewrite lookup_insert_ne.
Qed.
(** the lock stays with who has it *)
Lemma holding_same j s' a p p' h : ags j !! a = Some p → inside p' = inside p → LockedBy (lk j) (holding j) →
  LockedBy (lk j) (holding (mk_lst s' (lk j) (<[a := p']> (ags j)) h)).
Proof.
  intros Ha Hi. apply locked_ext. intros b. rewrite holding_insert. case_decide as Hb; [|done]. subst b. unfold holding. rewrite Hi.
  split; [intros ?; by exists p|]. intros (q & Hq & ?). congruence.
Qed.
Lemma mark_Done t s s' : mark t s = Done tt s' → flag s t = Some false ∧ this s' = this s ∧ flag s' t = Some true ∧
  (∀ u, u ≠ t → heap s' !! u = heap s !! u) ∧ ∀ x, heap s' !! t = Some x → ∃ y, heap s !! t = Some y ∧ removed x = removed y.
Proof.
  unfold mark. intros (x & s1 & Hx & Hst)%bind_Done. unfold th in Hx. destruct (heap s !! t) as [y|] eqn:Hy; [|done]. injection Hx as <- <-.
  apply bind_Done in Hst as ([] & s1 & Hs & Hst). unfold set_th in Hs. rewrite Hy in Hs. injection Hs as <-.
  destruct (in_pool y) eqn:Hi; [done|]. injection Hst as <-. unfold flag. cbn [this heap].
  rewrite Hy, lookup_insert_eq. split_and!; [by simpl; rewrite Hi|done|done| |].
  - intros u Hu. by rewrite lookup_insert_ne.
  - intros x [= <-]. by exists y.
Qed.
Lemma mark_inv j l a t s' : linv j l → ags j !! a = Some (AMark t) → mark t (lp j) = Done tt s' →
  linv (j <| lp := s' |> <| ags ::= insert a (ALock lk_start (SInsert t)) |>) l.
Proof.
  intros HL Ha (Hf & Et & Ht & Ho & Hx)%mark_Done. pose proof HL as [L1 L2 L3 L4 L5 L6 L7 L8 L9 L10].
  assert (t ∉ l) as Hnt.
  { intros Hin. destruct L1 as [_ Hm]. destruct (Hm t Hin) as (x & Hx' & Hi & _). unfold flag in Hf. rewrite Hx' in Hf. simpl in Hf. congruence. }
  assert (∀ b q, ags j !! b = Some q → pushing q ≠ Some t) as Hnp.
  { intros b q Hb Hq. destruct (L4 b q t Hb Hq) as [_ Hf']. congruence. }
  assert (∀ u, u ≠ t → flag s' u = flag (lp j) u) as Hfl by (intros u Hu; unfold flag; by rewrite Ho).
  assert (j <| lp := s' |> <| ags ::= insert a (ALock lk_start (SInsert t)) |> =
    mk_lst s' (lk j) (<[a := ALock lk_start (SInsert t)]> (ags j)) (hist j ++ [])) as ->.
  { destruct j. unfold upd. simpl. by rewrite app_nil_r. }
  eapply lmove; [exact HL|exact Ha| | | | | | | | | |]; cbn [pushing to_add to_drop point_ok].
  - eapply list_store_stable; [exact L1|by rewrite Et|]. intros u Hu. rewrite Ho; [done|]. by intros ->.
  - by eapply holding_same.
  - exists 0. by split.
  - intros b q u Hne Hb Hq. assert (u ≠ t) as Hu by (intros ->; by eapply Hnp). rewrite Hfl by done. by eapply L4.
  - intros u [= <-]. split_and!; [done..|]. intros b q _. apply Hnp.
  - intros u Hu. destruct (decide (u = t)) as [->|Hne]; [by right; left|]. rewrite Hfl in Hu by done.
    destruct (L6 u Hu) as [?|(b & q & Hb & Hq)]; [by left|right; right]. exists b, q. split; [|done]. intros ->. rewrite Ha in Hb. by injection Hb as <-.
  - intros u x Hu. destruct (decide (u = t)) as [->|Hne]; [|rewrite Ho in Hu by done; by eapply L7].
    destruct (Hx x Hu) as (y & Hy & ->). by eapply L7.
  - done.
  - by rewrite Et.
  - rewrite Et. lia.
Qed.
(** the lock changes hands, the list does not *)
Lemma lock_move j l a p p' f' : linv j l → ags j !! a = Some p → pushing p' = pushing p → point_ok p' →
  to_add p' = to_add p → to_drop p' = to_drop p → LockedBy f' (holding (mk_lst (lp j) f' (<[a := p']> (ags j)) (hist j))) →
  linv (j <| lk := f' |> <| ags ::= insert a p' |>) l.
Proof.
  intros HL Ha Hp Hok Hta Htd Hlk. pose proof HL as [L1 L2 L3 L4 L5 L6 L7 L8 L9 L10].
  assert (j <| lk := f' |> <| ags ::= insert a p' |> = mk_lst (lp j) f' (<[a := p']> (ags j)) (hist j ++ [])) as E1.
  { destruct j. unfold upd. simpl. by rewrite app_nil_r. }
  rewrite E1. eapply lmove; [exact HL|exact Ha|exact L1|exact Hlk|exact Hok| | | |exact L7|done|done|lia].
  - intros b q t _. apply L4.
  - intros t Ht. rewrite Hp in Ht. destruct (L4 a p t Ha Ht). split_and!; [done..|]. intros b q Hne Hb. by apply (L5 a b p q t).
  - intros t Ht. destruct (L6 t Ht) as [?|(b & q & Hb & Hq)]; [by left|right]. destruct (decide (b = a)) as [->|Hne].
    + left. rewrite Hp. congruence.
    + right. by exists b, q.
Qed.
Lemma spin_inv j l a k c f' r : linv j l → ags j !! a = Some (ALock k c) → lk_step (lk j) k = (f', r) →
  linv (j <| lk := f' |> <| ags ::= insert a (match r with Some k => ALock k c | None => AIn c end) |>) l.
Proof.
  intros HL Ha Hs. apply (lock_move j l a (ALock k c)); [done|done|by destruct r| |by destruct r|by destruct r|].
  - destruct r as [k'|]; [|done]. eapply lk_step_pause; [exact Hs|apply (li_points _ _ HL a _ Ha)].
  - eapply (locked_spin _ k _ r a); [apply (li_lock _ _ HL)|exact Hs| |].
    + intros (q & Hq & Hi). rewrite Ha in Hq. by injection Hq as <-.
    + intros b. rewrite holding_insert. unfold holding. case_decide as Hb.
      * subst b. split; [by destruct r; [|right]|]. intros [(q & Hq & Hi)|[-> _]]; [|done]. rewrite Ha in Hq. by injection Hq as <-.
      * split; [by left|]. by intros [?|[_ ?]].
Qed.
Lemma unlock_inv j l a p : linv j l → ags j !! a = Some (AOut p) → linv (j <| lk := lk_unlock |> <| ags ::= insert a p |>) l.
Proof.
  intros HL Ha. pose proof (li_points _ _ HL a _ Ha) as Hok. simpl in Hok.
  assert (pushing p = None ∧ inside p = false ∧ point_ok p) as (Hp & Hi & Hpk) by (destruct p; subst; done).
  apply (lock_move j l a (AOut p)); [done|done|done|done|done|done|].
  eapply (locked_unlock _ a); [apply (li_lock _ _ HL)|by eexists|]. intros b. rewrite holding_insert. unfold holding. case_decide as Hb.
  - rewrite Hi. naive_solver.
  - naive_solver.
Qed.

(** ** Critical sections *)

Lemma frame_smask c s s' : queue_frame c s s' → smask (this s') = smask (this s).
Proof. intros F. exact (f_equal smask (qf_pool _ _ _ F)). Qed.
(** threads outside the frame, and those known to be idle *)
Lemma frame_flag c s s' t : queue_frame c s s' → t ∉ c → flag s' t = flag s t.
Proof. intros F Ht. unfold flag. by rewrite (qf_out _ _ _ F). Qed.
Lemma stored_flag s l t : list_store s l → t ∈ l → flag s t = Some true.
Proof. intros [_ Hf] Ht. destruct (Hf t Ht) as (x & Hx & Hi & _). unfold flag. rewrite Hx. simpl. by rewrite Hi. Qed.
Lemma stored_clean s l t x : list_store s l → t ∈ l → heap s !! t = Some x → removed x = false.
Proof. intros [_ Hf] Ht Hx. destruct (Hf t Ht) as (y & Hy & _ & Hr). congruence. Qed.
Lemma idle_flag s t : idle_in (heap s) t → flag s t = Some false ∧ ∀ x, heap s !! t = Some x → removed x = false.
Proof. intros (x & Hx & Hi & Hr). unfold flag. rewrite Hx. simpl. rewrite Hi. split; [done|]. by intros y [= <-]. Qed.

(** A section that takes units out: [l'] is left of [l]. *)
Lemma take_move j l l' a c p op s' : linv j l → ags j !! a = Some (AIn c) → pushing (AIn c) = None →
  list_store s' l' → queue_frame l (lp j) s' → l' ⊆ l → (∀ t, t ∈ l → t ∈ l' ∨ idle_in (heap s') t) →
  point_ok (AOut p) → qdo op l = Some l' → count (this s') = count (this (lp j)) →
  Z.of_nat (length l') = Z.of_nat (length l) - to_drop p → to_add p = 0 →
  linv (j <| lp := s' |> <| ags ::= insert a (AOut p) |> <| hist ::= λ h, h ++ [op] |>) l'.
Proof.
  intros HL Ha Hnp Hst F Hsub Hor Hok Hop Hc Hlen Hta. pose proof HL as [L1 L2 L3 L4 L5 L6 L7 L8 L9 L10].
  change (linv (mk_lst s' (lk j) (<[a := AOut p]> (ags j)) (hist j ++ [op])) l').
  assert (∀ t, t ∉ l → flag s' t = flag (lp j) t) as Hfl by (intros t; by apply (frame_flag l)).
  eapply lmove; [exact HL|exact Ha|exact Hst|by eapply holding_same|exact Hok| |done| | | | |].
  - intros b q t Hne Hb Hq. destruct (L4 b q t Hb Hq) as [Hnt Hf]. split; [by intros ?%Hsub|]. by rewrite Hfl.
  - intros t Ht. destruct (decide (t ∈ l)) as [Hin|Hout].
    + destruct (Hor t Hin) as [?|[Hidle _]%idle_flag]; [by left|congruence].
    + rewrite Hfl in Ht by done. destruct (L6 t Ht) as [?|(b & q & Hb & Hq)]; [done|right; right]. exists b, q. split; [|done].
      intros ->. rewrite Ha in Hb. injection Hb as <-. congruence.
  - intros t x Hx. destruct (decide (t ∈ l)) as [Hin|Hout].
    + destruct (Hor t Hin) as [Hin'|[_ Hid]%idle_flag]; [exact (stored_clean s' l' t x Hst Hin' Hx)|by apply Hid].
    + rewrite (qf_out _ _ _ F) in Hx by done. by eapply L7.
  - simpl. by rewrite Hop.
  - by rewrite (frame_smask _ _ _ F).
  - rewrite Hc, Hlen. cbn [to_add to_drop]. lia.
Qed.
Lemma insert_inv j l a t pin p op s' : linv j l → ags j !! a = Some (AIn (SInsert t)) → section pin (SInsert t) (lp j) = Done (p, op) s' →
  linv (j <| lp := s' |> <| ags ::= insert a (AOut p) |> <| hist ::= λ h, h ++ [op] |>) (l ++ [t]).
Proof.
  intros HL Ha Hst. pose proof HL as [L1 L2 L3 L4 L5 L6 L7 L8 L9 L10]. cbn [section] in Hst.
  apply bind_Done in Hst as ([] & s1 & Hst & [= <- <- <-]). destruct (L4 a _ t Ha eq_refl) as [Hnt Hf].
  unfold flag in Hf. destruct (heap (lp j) !! t) as [x|] eqn:Hx; [|done]. injection Hf as Hi.
  destruct (wp_Done _ _ _ _ _ (list_store_link t x (lp j) l L1 Hnt Hx Hi (L7 t x Hx)) Hst) as (Hst1 & F & _ & Hc & _).
  change (linv (mk_lst s1 (lk j) (<[a := AOut (ATail WCount)]> (ags j)) (hist j ++ [QPush t])) (l ++ [t])).
  assert (∀ u, u ∉ l ++ [t] → flag s1 u = flag (lp j) u) as Hfl by (intros u; by apply (frame_flag (l ++ [t]))).
  eapply lmove; [exact HL|exact Ha|exact Hst1|apply (holding_same j s1 a (AIn (SInsert t))); [exact Ha|reflexivity|exact L2]|done| |done| | |done| |].
  - intros b q u Hne Hb Hq. destruct (L4 b q u Hb Hq) as [Hnu Hfu]. assert (u ≠ t) as Hut.
    { intros ->. by apply (L5 a b (AIn (SInsert t)) q t (not_eq_sym Hne) Ha Hb eq_refl). }
    assert (u ∉ l ++ [t]) as Hnut by (rewrite elem_of_app, list_elem_of_singleton; naive_solver). split; [done|]. by rewrite Hfl.
  - intros u Hu. destruct (decide (u ∈ l ++ [t])) as [|Hout]; [by left|]. rewrite Hfl in Hu by done.
    destruct (L6 u Hu) as [?|(b & q & Hb & Hq)]; [left; apply elem_of_app; by left|right; right]. exists b, q. split; [|done].
    intros ->. rewrite Ha in Hb. injection Hb as <-. injection Hq as ->. apply Hout, elem_of_app. right. by left.
  - intros u y Hy. destruct (decide (u ∈ l ++ [t])) as [Hin|Hout]; [exact (stored_clean s1 (l ++ [t]) u y Hst1 Hin Hy)|].
    rewrite (qf_out _ _ _ F) in Hy by done. by eapply L7.
  - by rewrite (frame_smask _ _ _ F).
  - rewrite Hc, length_app. simpl. lia.
Qed.
Lemma pop_length pin l r l' : PoolSpec.pop pin l = (r, l') → Z.of_nat (length l') = Z.of_nat (length l) - of_bool (non_null r).
Proof. destruct l as [|x [|y l]]; simpl; [intros [= <- <-]; done|..]; destruct (pin x); intros [= <- <-]; simpl; lia. Qed.
Lemma take_op_inv j l a pin p op s' : linv j l → ags j !! a = Some (AIn STake) → section pin STake (lp j) = Done (p, op) s' →
  ∃ l', linv (j <| lp := s' |> <| ags ::= insert a (AOut p) |> <| hist ::= λ h, h ++ [op] |>) l'.
Proof.
  intros HL Ha Hst. cbn [section] in Hst. apply bind_Done in Hst as (h & s1 & [= <- <-] & Hst).
  apply bind_Done in Hst as (r & s1 & Hst & [= <- <- <-]).
  destruct (wp_Done _ _ _ _ _ (list_take_spec pin (lp j) l (li_rep _ _ HL)) Hst) as (l' & Hst1 & F & Hsub & Heq & Hor & Hc & _).
  exists l'. symmetry in Heq. pose proof (pop_length _ _ _ _ Heq) as Hlen.
  eapply take_move; [exact HL|exact Ha|done|exact Hst1|exact F|exact Hsub|exact Hor| | |exact Hc| |]; [by destruct r| | |by destruct r].
  - simpl. rewrite Heq. simpl. by rewrite decide_True.
  - rewrite Hlen. by destruct r.
Qed.
Lemma remove_out t l : t ∉ l → PoolSpec.remove t l = l.
Proof. intros Ht. apply filter_all. intros u Hu ->. done. Qed.
Lemma remove_length t l : NoDup l → t ∈ l → Z.of_nat (length (PoolSpec.remove t l)) = Z.of_nat (length l) - 1.
Proof.
  intros Hn Ht. apply list_elem_of_split in Ht as (l1 & l2 & ->). apply NoDup_app in Hn as (_ & Hd & [Hn _]%NoDup_cons).
  assert (PoolSpec.remove t (l1 ++ t :: l2) = l1 ++ l2) as ->.
  { unfold PoolSpec.remove. rewrite filter_app, filter_cons_False by auto. f_equal; apply filter_all; intros u Hu ->; [|done].
    apply (Hd t Hu). by left. }
  rewrite !length_app. simpl. lia.
Qed.
Lemma drop_inv j l a t pin p op s' : linv j l → ags j !! a = Some (AIn (SDrop t)) → settled j (SDrop t) →
  section pin (SDrop t) (lp j) = Done (p, op) s' →
  ∃ l', linv (j <| lp := s' |> <| ags ::= insert a (AOut p) |> <| hist ::= λ h, h ++ [op] |>) l'.
Proof.
  intros HL Ha Hset Hst. cbn [section] in Hst. apply bind_Done in Hst as (x & s1 & Hx & Hst).
  unfold th in Hx. destruct (heap (lp j) !! t) as [y|] eqn:Hy; [|done]. injection Hx as <- <-.
  apply bind_Done in Hst as (ad & s1 & [= <- <-] & Hst). pose proof (li_rep _ _ HL) as Hrep.
  destruct (in_pool y) eqn:Hi; cbn [andb] in Hst; [|clear Hset].
  - assert (t ∈ l) as Hin.
    { destruct (li_in _ _ HL t) as [?|(b & q & Hb & Hq)]; [unfold flag; rewrite Hy; simpl; by rewrite Hi|done|].
      by destruct (Hset t eq_refl b q Hb). }
    case_bool_decide as Hm.
    + apply bind_Done in Hst as (hit & s1 & Hst & [= <- <- <-]).
      destruct (wp_Done _ _ _ _ _ (list_store_drop t (lp j) l Hrep Hin) Hst) as (l' & Hst1 & F & Hsub & Heq & -> & Hor & Hc & _).
      rewrite (list_store_units _ _ Hrep) in *. rewrite (list_store_units _ _ Hst1) in Heq. rewrite bool_decide_true by done.
      exists l'. eapply take_move; [exact HL|exact Ha|done|exact Hst1|exact F|exact Hsub|exact Hor|done| |exact Hc| |done].
      * cbn [qdo]. rewrite decide_True by (by rewrite bool_decide_true). by rewrite Heq.
      * subst l'. apply remove_length; [apply Hrep|done].
    + injection Hst as <- <- <-. exists l.
      eapply take_move; [exact HL|exact Ha|done|exact Hrep|apply queue_frame_refl|done|by left|done|done|done|simpl; lia|done].
  - injection Hst as <- <- <-. assert (t ∉ l) as Hnt.
    { intros Hin%(stored_flag _ _ _ Hrep). unfold flag in Hin. rewrite Hy in Hin. simpl in Hin. congruence. }
    exists l. eapply take_move; [exact HL|exact Ha|done|exact Hrep|apply queue_frame_refl|done|by left|done| |done|simpl; lia|done].
    cbn [qdo]. rewrite decide_True by (by rewrite (bool_decide_false (t ∈ l)), andb_false_r). rewrite remove_out by done. by destruct (bool_decide _).
Qed.

(** ** Every step *)

Lemma tail_inv j l a w r s' : linv j l → ags j !! a = Some (ATail w) → wake_step w (lp j) = Done r s' →
  linv (j <| lp := s' |> <| ags ::= insert a (match r with Some w => ATail w | None => AIdle end) |>) l.
Proof.
  intros HL Ha (_ & Eh & Et & Hr)%wake_step_Done. pose proof (li_points _ _ HL a _ Ha) as Hok.
  eapply (quiet_step j l a (ATail w)); [done|done| |done|by destruct r|done|by destruct r| | |].
  - apply same_heap; [done|]. by rewrite Et.
  - destruct r as [w'|]; [|done]. by apply (Hr w' eq_refl).
  - rewrite Et. apply (li_masks _ _ HL).
  - rewrite Et. destruct r as [w'|]; cbn [to_add to_drop]; [destruct (Hr w' eq_refl) as [_ ->]|]; simpl; lia.
Qed.
Lemma less_inv j l a s' : linv j l → ags j !! a = Some ALess → less (lp j) = Done tt s' →
  linv (j <| lp := s' |> <| ags ::= insert a AIdle |>) l.
Proof.
  intros HL Ha [= <-]. eapply (quiet_step j l a ALess); [done|done|by apply same_heap|done..|apply (li_masks _ _ HL)|simpl; lia].
Qed.
Lemma begin_op_inv j l a p : linv j l → ags j !! a = Some AIdle → inside p = false → pushing p = None → point_ok p → to_add p = 0 → to_drop p = 0 →
  linv (j <| ags ::= insert a p |>) l.
Proof.
  intros HL Ha Hi Hp Hok Hta Htd. change (linv (j <| lp := lp j |> <| ags ::= insert a p |>) l).
  eapply (quiet_step j l a AIdle); [done|done|apply same_list_refl|done..|apply (li_masks _ _ HL)|]. rewrite Hta, Htd. simpl. lia.
Qed.
Lemma memory_inv j l s' : linv j l → same_list (lp j) s' → masks_wf (smask (this s')) → count (this s') = count (this (lp j)) →
  linv (j <| lp := s' |>) l.
Proof.
  intros [L1 L2 L3 L4 L5 L6 L7 L8 L9 L10] S Hm Hc. split; simpl; try done.
  - by eapply same_list_rep.
  - intros a p t Ha Hp. destruct (L4 a p t Ha Hp). split; [done|]. by apply (same_list_flag _ _ _ S).
  - intros t Ht%(same_list_flag _ _ _ S). by apply L6.
  - intros t x Hx. eapply same_list_clean; [exact S| |exact Hx]. intros y. apply L7.
  - by rewrite Hc.
Qed.
Lemma lstep_inv pin j j' l : linv j l → lstep true pin j j' → ∃ l', linv j' l'.
Proof.
  intros HL [a t Ha|a Ha|a t Ha|a t s' Ha Hs|a k c f' r Ha Hs|a c p op s' Ha Hset Hs|a p Ha|a w r s' Ha Hs|a s' Ha Hs|h Hh|o Ho Hm].
  - exists l. by apply begin_op_inv.
  - exists l. apply begin_op_inv; try done. by exists 0.
  - exists l. apply begin_op_inv; try done. by exists 0.
  - exists l. by apply mark_inv.
  - exists l. by eapply spin_inv.
  - destruct c as [t| |t]; [eexists; by eapply insert_inv|by eapply take_op_inv|]. eapply drop_inv; [done|done|by apply Hset|done].
  - exists l. by apply unlock_inv.
  - exists l. by apply (tail_inv j l a w r).
  - exists l. by apply less_inv.
  - exists l. apply (memory_inv j l); [done| |apply (li_masks _ _ HL)|done]. split; [done| |].
    + intros t [x Hx]. destruct (Hh t) as [|[Hn _]]; [done|congruence].
    + intros t x Hn Hx. destruct (Hh t) as [E1|[_ (y & Hy & ?)]]; simpl in *; [rewrite Hn, Hx in E1; done|]. by replace x with y by congruence.
  - exists l. apply (memory_inv j l); [done| |done|exact (f_equal count Ho)]. apply same_heap; [done|].
    unfold store_of. simpl. rewrite (f_equal stub_next Ho : stub_next o = _), (f_equal q_tail Ho : q_tail o = _), (f_equal q_head Ho : q_head o = _).
    by rewrite (f_equal lhead Ho : lhead o = _), (f_equal ltail Ho : ltail o = _).
Qed.

(** An empty list of units nobody has queued or removed. *)
Record fresh_list s : Prop := {
  fl_rep : list_store s [];
  fl_count : count (this s) = 0;
  fl_masks : masks_wf (smask (this s));
  fl_idle t x : heap s !! t = Some x → in_pool x = false ∧ removed x = false;
}.
Lemma lstart_inv s agents : fresh_list s → linv (lstart s agents) [].
Proof.
  intros [F1 F2 F3 F4]. assert (∀ a p, ags (lstart s agents) !! a = Some p → p = AIdle) as Hi.
  { intros a p. simpl. rewrite lookup_gset_to_gmap_Some. by intros [_ <-]. }
  split; simpl; try done.
  - apply locked_start. intros a (p & ->%Hi & ?). done.
  - by intros a p ->%Hi.
  - by intros a p t ->%Hi.
  - by intros a b p p' t _ ->%Hi ->%Hi.
  - intros t Ht. unfold flag in Ht. destruct (heap s !! t) as [x|] eqn:Hx; [|done]. destruct (F4 t x Hx) as [Hf _]. simpl in Ht. congruence.
  - intros t x Hx. by destruct (F4 t x Hx).
  - rewrite F2, !tally_zero; [done|by intros a p ->%Hi..].
Qed.
Definition lreach (strict : bool) pin s agents j : Prop := rtc (lstep strict pin) (lstart s agents) j.
Lemma lreach_inv pin s agents j : fresh_list s → lreach true pin s agents j → ∃ l, linv j l.
Proof.
  intros Hs. apply (rtc_ind_r (λ j, ∃ l, linv j l)).
  - exists []. by apply lstart_inv.
  - intros j1 j2 _ Hst [l HL]. by eapply lstep_inv.
Qed.

(** ** What it promises *)

(** C6: the locked list linearizes, for programs that settle a push before they
    remove its unit (no removal of a unit gets the lock while a push of that unit
    is under way; C39 shows what happens otherwise): whatever the interleaving of
    pushes, pops and removals under that rule, the list holds what a queue holds
    after the operations in the order of their critical sections, each of which
    answered what the queue answers; one thread at most is inside, exactly when
    the flag is set; and the unit counter is the length of the queue but for the
    updates still to come. *)
Theorem list_linearizes pin s agents j : fresh_list s → lreach true pin s agents j →
  ∃ l, qrun (hist j) [] = Some l ∧ list_store (lp j) l ∧ LockedBy (lk j) (holding j) ∧
    count (this (lp j)) = Z.of_nat (length l) - tally to_add (ags j) + tally to_drop (ags j).
Proof. intros Hs [l [L1 L2 L3 L4 L5 L6 L7 L8 L9 L10]]%lreach_inv; [|done]. by exists l. Qed.

(** No critical section of the locked list fails: a thread that has the lock
    inserts, takes or drops (if the unit exists and no push of it is under way)
    without a fault, and so do the steps after it. *)
Theorem list_sections_run pin s agents j a c : fresh_list s → lreach true pin s agents j →
  ags j !! a = Some (AIn c) → settled j c → (∀ t, c = SDrop t → is_Some (heap (lp j) !! t)) →
  ∃ p op s', section (pin a) c (lp j) = Done (p, op) s'.
Proof.
  intros Hs [l HL]%lreach_inv Ha Hset Hal; [|done]. destruct c as [t| |t]; cbn [section].
  - destruct (li_push _ _ HL a _ t Ha eq_refl) as [Hnt Hf]. unfold flag in Hf.
    destruct (heap (lp j) !! t) as [x|] eqn:Hx; [|done]. injection Hf as Hi.
    destruct (wp_elim _ _ _ (list_store_link t x _ l (li_rep _ _ HL) Hnt Hx Hi (li_clean _ _ HL t x Hx))) as ([] & s' & Hst & _).
    erewrite bind_runs by exact Hst. by eexists _, _, _.
  - destruct (wp_elim _ _ _ (list_take_spec (pin a) _ l (li_rep _ _ HL))) as (r & s' & Hst & _).
    erewrite bind_runs by done. erewrite bind_runs by exact Hst. by eexists _, _, _.
  - destruct (Hal t eq_refl) as [x Hx]. erewrite bind_runs by (unfold th; by rewrite Hx). erewrite bind_runs by done.
    destruct (in_pool x) eqn:Hi; cbn [andb]; [|by eexists _, _, _]. case_bool_decide; [|by eexists _, _, _].
    assert (t ∈ l) as Hin.
    { destruct (li_in _ _ HL t) as [?|(b & q & Hb & Hq)]; [unfold flag; rewrite Hx; simpl; by rewrite Hi|done|].
      by destruct (Hset t eq_refl b q Hb). }
    destruct (wp_elim _ _ _ (list_store_drop t _ l (li_rep _ _ HL) Hin)) as (hit & s' & Hst & _).
    erewrite bind_runs by exact Hst. by eexists _, _, _.
Qed.
