(* ===== verification/TimedPop.v ===== *)
(** * Timed pops

    [pop_timedwait] of src/pool.cpp on a locked built-in pool, with everybody at
    once: the machine of [ListConc] with threads that, after a pop that came back
    empty, raise [waiters] under [wm], look at [count] and sleep on the condition
    variable until a push notifies them, the deadline passes or they wake for no
    reason, and then pop once more.  [notify_one] wakes any one of the sleepers. *)

From S2P Require Import Prelude AbtTypes Objects Storage PoolList Spinlock Sleepers WakeSteps ListConc ListSafe.

(** ** The code *)

(** A thread in [pop_timedwait].  [TMOut r]: outside, with what its last timed
    pop returned; [TMFirst], [TMLast]: in the first and the last pop, and [TMGot],
    [TMDone] once it has taken what it returns; from [TMRaise] to [TMLook] and from
    [TMAgain] to [TMUnlock] it holds [wm]; [late]: the wait has timed out. *)
Inductive tmpoint : Type :=
  | TMOut (r : option (option ptr))
  | TMFirst
  | TMGot (r : option ptr)
  | TMLock
  | TMRaise
  | TMLook
  | TMSleep
  | TMWoken (late : bool)
  | TMAgain (late : bool)
  | TMLower
  | TMUnlock
  | TMLast
  | TMDone (r : option ptr).

(** [wm]: who holds it. *)
Record tmst : Type := mk_tmst {
  tl : lst;
  wm : option Z;
  tms : gmap Z tmpoint;
}.
#[global] Instance eta_tmst : Eta tmst := λ k, mk_tmst (tl k) (wm k) (tms k).

Definition field (f : ABTI_pool → ABTI_pool) (k : tmst) : tmst := k <| tl ::= λ j, j <| lp ::= λ s, with_this s (f (this s)) |> |>.
Definition unit_count (k : tmst) : Z := count (this (lp (tl k))).
Definition at_point (a : Z) (p : tmpoint) (k : tmst) : tmst := k <| tms ::= insert a p |>.
(** What thread [a] does at [p] but for its pops, one access per step.  [late]: the
    deadline has passed, where the code looks at the clock. *)
Definition tm_step (a : Z) (late : bool) (p : tmpoint) (k : tmst) : option tmst :=
  let idle := match ags (tl k) !! a with Some AIdle => true | _ => false end in
  let locks p := match wm k with Some _ => None | None => Some (at_point a p (k <| wm := Some a |>)) end in
  match p with
  | TMGot (Some t) => if idle then Some (at_point a (TMOut (Some (Some t))) k) else None
  | TMGot None => if idle then Some (at_point a (if late then TMOut (Some None) else TMLock) k) else None
  | TMLock => locks TMRaise
  | TMRaise => Some (at_point a TMLook (field (λ o, o <| waiters ::= Z.succ |>) k))
  | TMLook => Some (at_point a (if unit_count k =? 0 then TMAgain false else TMLower) k)
  | TMAgain l => Some (if (unit_count k >? 0) || l then at_point a TMLower k else at_point a TMSleep (k <| wm := None |>))
  | TMSleep => Some (at_point a (TMWoken late) k)
  | TMWoken l => locks (TMAgain l)
  | TMLower => Some (at_point a TMUnlock (field (λ o, o <| waiters ::= Z.pred |>) k))
  | TMDone r => if idle then Some (at_point a (TMOut (Some r)) k) else None
  | TMOut _ | TMFirst | TMUnlock | TMLast => None
  end.

(** ** Steps *)

Definition actor (lb : llabel) : Z := match lb with LPush a _ | LPop a | LRemove a _ | LStep a => a end.
Definition outside (k : tmst) (a : Z) : bool := match tms k !! a with None | Some (TMOut _) => true | _ => false end.
(** A step of the pool that says nothing to the timed pops: a thread in one calls
    nothing else; a pop of theirs that takes its unit, and a notification, are
    steps of their own. *)
Definition plain (lb : llabel) (k : tmst) : bool :=
  match lb with
  | LStep a =>
      match ags (tl k) !! a, tms k !! a with
      | Some (ATail WNotify), _ => false
      | Some (AIn STake), Some (TMFirst | TMLast) => false
      | _, _ => true
      end
  | _ => outside k (actor lb)
  end.
Definition popped (l : list qop) : option ptr := match last l with Some (QPop _ r) => r | _ => None end.
Section machine.
Context (pin : Z → ABTI_thread → bool).
Inductive tmstep (k : tmst) : tmst → Prop :=
  | tmstep_pool lb j' : plain lb k = true → ldo true pin lb (tl k) = Some j' → tmstep k (k <| tl := j' |>)
  (** [cv.notify_one()] with [wm] held, and some sleeper, if there is one *)
  | tmstep_notify a v j' : ags (tl k) !! a = Some (ATail WNotify) → wm k = None → ldo true pin (LStep a) (tl k) = Some j' →
      tms k !! v = Some TMSleep → tmstep k (at_point v (TMWoken false) (k <| tl := j' |>))
  | tmstep_nobody a j' : ags (tl k) !! a = Some (ATail WNotify) → wm k = None → ldo true pin (LStep a) (tl k) = Some j' →
      (∀ v, tms k !! v ≠ Some TMSleep) → tmstep k (k <| tl := j' |>)
  (** the pops of a timed pop *)
  | tmstep_call a r j' : tms k !! a = Some (TMOut r) → ldo true pin (LPop a) (tl k) = Some j' →
      tmstep k (at_point a TMFirst (k <| tl := j' |>))
  | tmstep_first a j' : tms k !! a = Some TMFirst → ags (tl k) !! a = Some (AIn STake) → ldo true pin (LStep a) (tl k) = Some j' →
      tmstep k (at_point a (TMGot (popped (hist j'))) (k <| tl := j' |>))
  | tmstep_again a j' : tms k !! a = Some TMUnlock → ldo true pin (LPop a) (tl k) = Some j' →
      tmstep k (at_point a TMLast (k <| tl := j' |> <| wm := None |>))
  | tmstep_last a j' : tms k !! a = Some TMLast → ags (tl k) !! a = Some (AIn STake) → ldo true pin (LStep a) (tl k) = Some j' →
      tmstep k (at_point a (TMDone (popped (hist j'))) (k <| tl := j' |>))
  | tmstep_self a late p k' : tms k !! a = Some p → tm_step a late p k = Some k' → tmstep k k'
  (** the rest of the program, as in [ListConc]; only timed pops touch [waiters] *)
  | tmstep_env h : (∀ t, queue_of <$> h !! t = queue_of <$> heap (lp (tl k)) !! t ∨ heap (lp (tl k)) !! t = None ∧ idle_in h t) →
      tmstep k (k <| tl ::= λ j, j <| lp ::= λ s, with_heap s h |> |>)
  | tmstep_aside o : aside o = aside (this (lp (tl k))) → masks_wf (smask o) → waiters o = waiters (this (lp (tl k))) →
      tmstep k (k <| tl ::= λ j, j <| lp ::= λ s, with_this s o |> |>).
Definition tmstart (s : pst) (agents : gset Z) : tmst := mk_tmst (lstart s agents) None (gset_to_gmap (TMOut None) agents).
End machine.
