(* ===== verification/TimedSafe.v ===== *)
(** * No timed pop sleeps on a unit

    On the machine of [TimedPop], when every thread may resume every unit: while a
    timed pop sleeps, each unit in the list is matched by a push that is still
    going to notify, or by a timed pop that has been woken and is still going to
    pop. *)

From S2P Require Import Prelude AbtTypes Objects Storage PoolList Spinlock Sleepers WakeSteps ListConc ListSafe TimedPop.

Implicit Types (s : pst) (j : lst) (k : tmst) (l : list ptr) (t : ptr) (a b v : Z).

(** a push that has inserted its unit and not notified *)
Fixpoint will_notify (p : apoint) : Z :=
  match p with ATail (WCount | WWaiters | WNotify) => 1 | AOut p => will_notify p | _ => 0 end.
(** a timed pop that does not sleep (any more) and has not popped for the last time *)
Definition will_pop (p : tmpoint) : Z :=
  match p with TMWoken _ | TMAgain _ | TMLower | TMUnlock | TMLast => 1 | _ => 0 end.
(** a timed pop that has raised [waiters] *)
Definition raised (p : tmpoint) : Z :=
  match p with TMLook | TMSleep | TMWoken _ | TMAgain _ | TMLower => 1 | _ => 0 end.
Definition sleeps k : Prop := ∃ v, tms k !! v = Some TMSleep.
Definition not_pinned : Z → ABTI_thread → bool := λ _ _, false.
(** [room]: units in the list that no push is going to notify for. *)
Definition room j l : Z := Z.of_nat (length l) - tally will_notify (ags j).
Record tminv k l : Prop := {
  ti_list : linv (tl k) l;
  ti_waiters : waiters (this (lp (tl k))) = tally raised (tms k);
  ti_wait : sleeps k → room (tl k) l ≤ tally will_pop (tms k);
}.

Lemma to_add_notifies m : tally to_add m ≤ tally will_notify m.
Proof. apply (tally_le to_add will_notify). intros _ p _. induction p as [| | | |p IH|w|]; try done. by destruct w. Qed.
Lemma will_notify_nonneg p : 0 ≤ will_notify p.
Proof. induction p as [| | | |p IH|w|]; try done. by destruct w. Qed.
Lemma will_pop_nonneg p : 0 ≤ will_pop p.
Proof. by destruct p. Qed.
Lemma raised_nonneg p : 0 ≤ raised p.
Proof. by destruct p. Qed.

(** ** What the steps of the list do to these *)

Lemma keeps_th t : preserves (λ s, waiters (this s)) (th t).
Proof. intros s. unfold th, wlp. by destruct (heap s !! t). Qed.
Lemma keeps_set_th t f : preserves (λ s, waiters (this s)) (set_th t f).
Proof. intros s. unfold set_th, wlp. by destruct (heap s !! t). Qed.
Lemma keeps_set_self f : (∀ x, waiters (f x) = waiters x) → preserves (λ s, waiters (this s)) (set_self f).
Proof. intros Hf s. apply Hf. Qed.
#[local] Hint Resolve keeps_th keeps_set_th : frame.
#[local] Hint Extern 2 (preserves (λ s, waiters (this s)) (set_self _)) => (apply keeps_set_self; intros; reflexivity) : frame.
Lemma section_waiters pin c : preserves (λ s, waiters (this s)) (section pin c).
Proof. destruct c as [t| |t]; cbn [section]; unfold list_push, list_take, list_drop, list_unlink, self; solve_preserves. Qed.
Lemma mark_waiters t : preserves (λ s, waiters (this s)) (mark t).
Proof. unfold mark. solve_preserves. Qed.
Lemma wake_waiters w s r s' : wake_step w s = Done r s' → waiters (this s') = waiters (this s).
Proof. intros (_ & _ & -> & _)%wake_step_Done. done. Qed.
Lemma ldo_waiters pin lb j j' : ldo true pin lb j = Some j' → waiters (this (lp j')) = waiters (this (lp j)).
Proof.
  destruct lb as [a t|a|a t|a]; simpl; (destruct (ags j !! a) as [p|]; [|done]); destruct p as [|t'|kk c|c|p|w|]; try done; try by intros [= <-].
  - destruct (mark t' (lp j)) as [[] s'|] eqn:Hs; [|done]. intros [= <-]. exact (wlp_Done _ _ _ _ _ (mark_waiters t' (lp j)) Hs).
  - destruct (lk_step (lk j) kk) as [f' r]. by intros [= <-].
  - destruct (negb (settledb j c)); [done|]. destruct (section (pin a) c (lp j)) as [[p op] s'|] eqn:Hs; [|done]. intros [= <-].
    exact (wlp_Done _ _ _ _ _ (section_waiters (pin a) c (lp j)) Hs).
  - destruct (wake_step w (lp j)) as [r s'|] eqn:Hs; [|done]. intros [= <-]. simpl. by eapply wake_waiters.
Qed.

Lemma qrun_snoc ops op l l' : qrun ops [] = Some l → qrun (ops ++ [op]) [] = Some l' → qdo op l = Some l'.
Proof. intros Hl. rewrite (qrun_app _ _ _ _ Hl). simpl. by destruct (qdo op l). Qed.
(** the steps but the critical section of a pop, and the look at [waiters] and the
    notification of a push *)
Definition looks_away lb j : bool :=
  match lb with LStep a => match ags j !! a with Some (ATail (WNotify | WWaiters)) => false | _ => true end | _ => true end.
Lemma insert_room j l a p p' s' f h : ags j !! a = Some p → will_notify p ≤ will_notify p' →
  room (mk_lst s' f (<[a := p']> (ags j)) h) l ≤ room j l.
Proof. intros Ha Hp. unfold room. simpl. rewrite (tally_insert _ _ _ _ _ Ha). lia. Qed.
Lemma qdo_length op l l' : qdo op l = Some l' → (length l' ≤ length l + match op with QPush _ => 1 | _ => 0 end)%nat.
Proof.
  destruct op as [t|pin r|t mine hit]; simpl.
  - intros [= <-]. unfold PoolSpec.push. rewrite length_app. simpl. lia.
  - case_decide as Hr; [|done]. intros [= <-]. destruct (PoolSpec.pop pin l) as [r' l1] eqn:Hp. simpl.
    pose proof (pop_length _ _ _ _ Hp). destruct (non_null r'); simpl in *; lia.
  - case_decide; [|done]. intros [= <-]. destruct mine; [|lia]. pose proof (length_filter (λ a, a ≠ t) l). unfold PoolSpec.remove. lia.
Qed.
Lemma ldo_room lb j j' l l' : linv j l → linv j' l' → ldo true not_pinned lb j = Some j' → looks_away lb j = true → room j' l' ≤ room j l.
Proof.
  intros HL HL' Hd Hq.
  assert (hist j' = hist j → l' = l) as Hsame.
  { intros Hh. pose proof (li_hist _ _ HL') as H'. rewrite Hh, (li_hist _ _ HL) in H'. by injection H'. }
  destruct lb as [a t|a|a t|a]; simpl in Hd, Hq; destruct (ags j !! a) as [p|] eqn:Ha; try done.
  1-3: destruct p; try done; injection Hd as <-; rewrite (Hsame eq_refl); by apply (insert_room j l a AIdle).
  destruct p as [|t'|kk c|c|p|w|]; [done|..].
  - destruct (mark t' (lp j)) as [[] s'|] eqn:Hs; [|done]. injection Hd as <-. rewrite (Hsame eq_refl). by apply (insert_room j l a (AMark t')).
  - destruct (lk_step (lk j) kk) as [f' r]. injection Hd as <-. rewrite (Hsame eq_refl). apply (insert_room j l a (ALock kk c)); [done|]. by destruct r.
  - destruct (negb (settledb j c)); [done|]. destruct (section (not_pinned a) c (lp j)) as [[p op] s'|] eqn:Hs; [|done]. injection Hd as <-.
    pose proof (qdo_length _ _ _ (qrun_snoc _ _ _ _ (li_hist _ _ HL) (li_hist _ _ HL'))) as Hlen.
    unfold room. simpl. rewrite (tally_insert _ _ _ _ _ Ha).
    assert (match op with QPush _ => p = ATail WCount | _ => True end) as Hp.
    { destruct c as [t| |t]; cbn [section] in Hs.
      - apply bind_Done in Hs as ([] & s1 & _ & [= <- <- <-]). done.
      - apply bind_Done in Hs as (h & s1 & _ & Hs). by apply bind_Done in Hs as (r & s2 & _ & [= <- <- <-]).
      - apply bind_Done in Hs as (x & s1 & _ & Hs). apply bind_Done in Hs as (ad & s2 & _ & Hs). destruct (_ && _).
        + by apply bind_Done in Hs as (hit & s3 & _ & [= <- <- <-]).
        + by injection Hs as <- <- <-. }
    pose proof (will_notify_nonneg p). destruct op; simpl in *; [subst p; simpl|..]; lia.
  - injection Hd as <-. rewrite (Hsame eq_refl). by apply (insert_room j l a (AOut p)).
  - destruct (wake_step w (lp j)) as [r s'|] eqn:Hs; [|done]. injection Hd as <-. rewrite (Hsame eq_refl). apply (insert_room j l a (ATail w)); [done|].
    destruct w; try done; [by injection Hs as <- <-|apply will_notify_nonneg..].
  - destruct (less (lp j)) as [[] s'|] eqn:Hs; [|done]. injection Hd as <-. rewrite (Hsame eq_refl). by apply (insert_room j l a ALess).
Qed.
Lemma ldo_linv pin lb j j' l : linv j l → ldo true pin lb j = Some j' → ∃ l', linv j' l'.
Proof. intros HL Hd%ldo_sound. by eapply lstep_inv. Qed.
Lemma tail_room j j' l l' a w : linv j l → linv j' l' → ldo true not_pinned (LStep a) j = Some j' → ags j !! a = Some (ATail w) →
  match w with WNotify => room j' l' = room j l + 1 | WWaiters => 0 < waiters (this (lp j)) → room j' l' = room j l | _ => True end.
Proof.
  intros HL HL' Hd Ha. simpl in Hd. rewrite Ha in Hd. destruct (wake_step w (lp j)) as [r s'|] eqn:Hs; [|done]. injection Hd as <-.
  pose proof (li_hist _ _ HL') as H'. simpl in H'. rewrite (li_hist _ _ HL) in H'. injection H' as <-.
  destruct w; try done; unfold room; simpl; rewrite (tally_insert _ _ _ _ _ Ha).
  - intros Hw. injection Hs as <- _. replace (waiters (this (lp j)) >? 0) with true by lia. simpl. lia.
  - injection Hs as <- _. simpl. lia.
Qed.
Lemma take_room j j' l l' a : linv j l → linv j' l' → ldo true not_pinned (LStep a) j = Some j' → ags j !! a = Some (AIn STake) →
  match popped (hist j') with Some _ => room j' l' = room j l - 1 | None => l' = [] ∧ room j' l' ≤ room j l end.
Proof.
  intros HL HL' Hd Ha. simpl in Hd. rewrite Ha in Hd. cbn [settledb negb] in Hd.
  destruct (section (not_pinned a) STake (lp j)) as [[p op] s'|] eqn:Hs; [|done]. injection Hd as <-.
  pose proof (qrun_snoc _ _ _ _ (li_hist _ _ HL) (li_hist _ _ HL')) as Hdo. cbn [section] in Hs.
  apply bind_Done in Hs as (h & s1 & _ & Hs). apply bind_Done in Hs as (r & s2 & _ & [= <- <- <-]).
  unfold popped, room. simpl. rewrite last_snoc, (tally_insert _ _ _ _ _ Ha). simpl in Hdo. case_decide as Hr; [|done]. injection Hdo as <-.
  assert (∀ t, pin_at h (not_pinned a) t = false) as Hp by (intros t; unfold pin_at, not_pinned; by destruct (h !! t)).
  destruct l as [|x l]; simpl in Hr |- *; [subst r|]; [split; [done|simpl; lia]|]. 
  destruct l as [|y l]; simpl in Hr |- *; rewrite Hp in Hr |- *; simpl in Hr; subst r; simpl; lia.
Qed.
Lemma tm_move k l j' l' a p p' w : tminv k l → tms k !! a = Some p → linv j' l' →
  waiters (this (lp j')) = waiters (this (lp (tl k))) + raised p' - raised p →
  (p' = TMSleep → room j' l' ≤ 0) → (p' ≠ TMSleep → sleeps k → room j' l' - will_pop p' ≤ room (tl k) l - will_pop p) →
  tminv (mk_tmst j' w (<[a := p']> (tms k))) l'.
Proof.
  intros [T1 T2 T3] Ha HL Hw Hs Hr. split; simpl; [done| |].
  - rewrite (tally_insert _ _ _ _ _ Ha), Hw, T2. lia.
  - intros [v Hv]. simpl in Hv. rewrite (tally_insert _ _ _ _ _ Ha), (tally_split _ _ _ _ Ha).
    pose proof (tally_nonneg will_pop (delete a (tms k)) will_pop_nonneg) as Hd.
    assert (p' = TMSleep ∨ p' ≠ TMSleep) as [->|Hne] by (destruct p'; auto); [specialize (Hs eq_refl); simpl; lia|].
    assert (sleeps k) as Hk.
    { exists v. destruct (decide (v = a)) as [->|]; [rewrite lookup_insert_eq in Hv; congruence|by rewrite lookup_insert_ne in Hv]. }
    specialize (T3 Hk). specialize (Hr Hne Hk). rewrite (tally_split _ _ _ _ Ha) in T3. lia.
Qed.
Lemma sleeper_raises k l : tminv k l → sleeps k → 0 < waiters (this (lp (tl k))).
Proof.
  intros HT [v Hv]. rewrite (ti_waiters _ _ HT), (tally_split _ _ _ _ Hv).
  pose proof (tally_nonneg raised (delete v (tms k)) raised_nonneg). simpl. lia.
Qed.

(** ** Every step *)

Lemma linv_same j j' l l' : linv j l → linv j' l' → hist j' = hist j → l' = l.
Proof. intros HL HL' Hh. pose proof (li_hist _ _ HL') as H'. rewrite Hh, (li_hist _ _ HL) in H'. by injection H'. Qed.
Lemma quiet_linv j j' l : linv j l → lstep true not_pinned j j' → hist j' = hist j → linv j' l.
Proof. intros HL Hs Hh. destruct (lstep_inv _ _ _ _ HL Hs) as [l' HL']. by rewrite (linv_same _ _ _ _ HL HL' Hh) in HL'. Qed.
Lemma aside_linv j o l : linv j l → aside o = aside (this (lp j)) → masks_wf (smask o) → linv (j <| lp ::= λ s, with_this s o |>) l.
Proof. intros HL Ho Hm. eapply quiet_linv; [exact HL|by apply lstep_aside|done]. Qed.
Lemma self_inv k l a late p k' : tminv k l → tms k !! a = Some p → tm_step a late p k = Some k' → tminv k' l.
Proof.
  intros HT Ha Hs. pose proof (ti_list _ _ HT) as HL.
  assert (∀ p' w, will_pop p ≤ will_pop p' → raised p' = raised p → p' ≠ TMSleep → tminv (mk_tmst (tl k) w (<[a := p']> (tms k))) l) as Hmv.
  { intros p' w Hp Hr Hn. eapply tm_move; [exact HT|exact Ha|exact HL|lia|done|intros _ _; lia]. }
  assert (∀ p' f, will_pop p = will_pop p' → p' ≠ TMSleep → (∀ o, waiters (f o) = waiters o + raised p' - raised p ∧ aside (f o) = aside o ∧ smask (f o) = smask o) →
    tminv (at_point a p' (field f k)) l) as Hfd.
  { intros p' f Hp Hn Hf. destruct (Hf (this (lp (tl k)))) as (Hw & Ho & Hm).
    apply (tm_move k l (tl k <| lp ::= λ s, with_this s (f (this s)) |>) l a p p' (wm k) HT Ha); [|exact Hw|done|intros _ _; unfold room; simpl; lia].
    apply (aside_linv (tl k) (f (this (lp (tl k)))) l HL Ho). rewrite Hm. apply (li_masks _ _ HL). }
  destruct p as [r| |[t|]| | | | |lt|lt| | | |r]; simpl in Hs; try done.
  - destruct (ags (tl k) !! a) as [[]|]; try done. injection Hs as <-. by apply Hmv.
  - destruct (ags (tl k) !! a) as [[]|]; try done. injection Hs as <-. by destruct late; apply Hmv.
  - destruct (wm k); [done|]. injection Hs as <-. by apply Hmv.
  - injection Hs as <-. apply Hfd; [done..|]. intros o. split_and!; [simpl; lia|done|done].
  - injection Hs as <-. by destruct (unit_count k =? 0); apply Hmv.
  - injection Hs as <-. by apply Hmv.
  - destruct (wm k); [done|]. injection Hs as <-. by apply Hmv.
  - destruct ((unit_count k >? 0) || lt) eqn:Hc; injection Hs as <-; [by apply Hmv|]. apply orb_false_iff in Hc as [Hc _].
    apply (tm_move k l (tl k) l a (TMAgain lt) TMSleep None HT Ha HL); [simpl; lia| |done]. intros _.
    unfold room. pose proof (li_count _ _ HL) as Hcount. unfold unit_count in Hc. pose proof (to_add_notifies (ags (tl k))).
    assert (0 ≤ tally to_drop (ags (tl k))); [|lia]. apply tally_nonneg. intros q. induction q; simpl; lia.
  - injection Hs as <-. apply Hfd; [done..|]. intros o. split_and!; [simpl; lia|done|done].
  - destruct (ags (tl k) !! a) as [[]|]; try done. injection Hs as <-. by apply Hmv.
Qed.
Lemma pool_inv k l lb j' : tminv k l → ldo true not_pinned lb (tl k) = Some j' →
  (looks_away lb (tl k) = true ∨ (∃ a, lb = LStep a ∧ ags (tl k) !! a = Some (ATail WWaiters)) ∨ ¬ sleeps k) →
  ∃ l', tminv (k <| tl := j' |>) l'.
Proof.
  intros [T1 T2 T3] Hd Hcase. destruct (ldo_linv _ _ _ _ _ T1 Hd) as [l' HL']. exists l'. split; [done| |].
  - simpl. by rewrite (ldo_waiters _ _ _ _ Hd).
  - intros Hk. change (sleeps k) in Hk. specialize (T3 Hk). simpl. etrans; [|exact T3].
    destruct Hcase as [Hq|[(a & -> & Ha)|Hn]]; [by eapply ldo_room| |done].
    rewrite (tail_room _ _ _ _ _ _ T1 HL' Hd Ha); [done|]. by eapply sleeper_raises.
Qed.
Lemma tmstep_inv k k' l : tminv k l → tmstep not_pinned k k' → ∃ l', tminv k' l'.
Proof.
  intros HT Hst. pose proof (ti_list _ _ HT) as HL.
  assert (∀ lb j' a p p' w, ldo true not_pinned lb (tl k) = Some j' → tms k !! a = Some p → p' ≠ TMSleep → raised p' = raised p →
    (∀ l', linv j' l' → room j' l' - will_pop p' ≤ room (tl k) l - will_pop p ∨ room j' l' ≤ will_pop p') →
    ∃ l', tminv (mk_tmst j' w (<[a := p']> (tms k))) l') as Hmv.
  { intros lb j' a p p' w Hd Ha Hn Hr Hroom. destruct (ldo_linv _ _ _ _ _ HL Hd) as [l' HL']. exists l'.
    destruct (Hroom l' HL') as [Hle|Hle].
    - apply (tm_move k l j' l' a p p' w HT Ha HL'); [rewrite (ldo_waiters _ _ _ _ Hd); lia|done|by intros _ _].
    - split; simpl; [done| |].
      + rewrite (tally_insert _ _ _ _ _ Ha), (ldo_waiters _ _ _ _ Hd), (ti_waiters _ _ HT). lia.
      + intros _. rewrite (tally_insert _ _ _ _ _ Ha), (tally_split _ _ _ _ Ha).
        pose proof (tally_nonneg will_pop (delete a (tms k)) will_pop_nonneg). lia. }
  destruct Hst as [lb j' Hp Hd|a v j' Ha Hw Hd Hv|a j' Ha Hw Hd Hv|a r j' Ha Hd|a j' Ha Hg Hd|a j' Ha Hd|a j' Ha Hg Hd|a late p k' Ha Hs|h Hh|o Ho Hm Hw].
  - apply (pool_inv k l lb j' HT Hd). destruct lb as [a t|a|a t|a]; [by left..|]. simpl in Hp |- *.
    destruct (ags (tl k) !! a) as [p|] eqn:Ha; [|by left]. destruct p as [| | | | |w|]; try by left. destruct w; try done; try by left.
    right. left. eauto.
  - apply (Hmv (LStep a) j' v TMSleep (TMWoken false) (wm k)); try done. intros l' HL'. left. rewrite (tail_room _ _ _ _ _ _ HL HL' Hd Ha). simpl. lia.
  - apply (pool_inv k l (LStep a) j' HT Hd). right. right. intros [v ?]. by apply (Hv v).
  - apply (Hmv (LPop a) j' a (TMOut r) TMFirst (wm k)); try done. intros l' HL'. left. pose proof (ldo_room _ _ _ _ _ HL HL' Hd eq_refl). simpl. lia.
  - apply (Hmv (LStep a) j' a TMFirst (TMGot (popped (hist j'))) (wm k)); try done. intros l' HL'. left.
    pose proof (take_room _ _ _ _ _ HL HL' Hd Hg) as Hr. destruct (popped (hist j')); simpl; lia.
  - apply (Hmv (LPop a) j' a TMUnlock TMLast None); try done. intros l' HL'. left. pose proof (ldo_room _ _ _ _ _ HL HL' Hd eq_refl). simpl. lia.
  - apply (Hmv (LStep a) j' a TMLast (TMDone (popped (hist j'))) (wm k)); try done. intros l' HL'.
    pose proof (take_room _ _ _ _ _ HL HL' Hd Hg) as Hr. destruct (popped (hist j')); [left; simpl; lia|right]. destruct Hr as [-> _].
    unfold room. pose proof (tally_nonneg will_notify (ags j') will_notify_nonneg). simpl. lia.
  - exists l. by eapply self_inv.
  - exists l. destruct HT as [T1 T2 T3]. split; [|done|done]. eapply quiet_linv; [exact T1|by apply lstep_env|done].
  - exists l. destruct HT as [T1 T2 T3]. split; [by apply aside_linv|simpl; congruence|done].
Qed.
Definition tmreach pin s agents k : Prop := rtc (tmstep pin) (tmstart s agents) k.
Lemma tmreach_inv s agents k : fresh_list s → waiters (this s) = 0 → tmreach not_pinned s agents k → ∃ l, tminv k l.
Proof.
  intros Hs Hw. apply (rtc_ind_r (λ k, ∃ l, tminv k l)).
  - exists []. assert (∀ a p, tms (tmstart s agents) !! a = Some p → p = TMOut None) as Hi.
    { intros a p. simpl. rewrite lookup_gset_to_gmap_Some. by intros [_ <-]. }
    split; [by apply lstart_inv| |].
    + simpl. rewrite Hw, tally_zero; [done|]. by intros a p ->%Hi.
    + intros [v Hv%Hi]. done.
  - intros k1 k2 _ Hst [l HT]. by eapply tmstep_inv.
Qed.

(** No timed pop of a shared built-in pool sleeps on a unit: if every thread
    may resume every unit, then however pushes, pops, removals and timed pops
    interleave, the units in the list while a timed pop sleeps are no more than
    the pushes that have still to notify and the timed pops that are awake and
    have still to pop; and when there is none of these the list is empty. *)
Theorem timed_pop_misses_nothing s agents k v : fresh_list s → waiters (this s) = 0 → tmreach not_pinned s agents k →
  tms k !! v = Some TMSleep → ∃ l, qrun (hist (tl k)) [] = Some l ∧ list_store (lp (tl k)) l ∧
    Z.of_nat (length l) ≤ tally will_notify (ags (tl k)) + tally will_pop (tms k) ∧
    ((∀ a p, ags (tl k) !! a = Some p → will_notify p = 0) → (∀ a p, tms k !! a = Some p → will_pop p = 0) → l = []).
Proof.
  intros Hs Hw Hr Hv. destruct (tmreach_inv s agents k Hs Hw Hr) as [l [T1 T2 T3]]. exists l.
  assert (room (tl k) l ≤ tally will_pop (tms k)) as Hle by (apply T3; by exists v). unfold room in Hle.
  split_and!; [apply T1|apply T1|lia|]. intros Ha Hp. rewrite (tally_zero _ _ Ha), (tally_zero _ _ Hp) in Hle. destruct l; [done|simpl in Hle; lia].
Qed.
