(* ===== verification/PoolMpsc.v ===== *)
(** * The lock-free pool storage, run alone

    PRIV, SPSC and MPSC pools keep their units in Vyukov's intrusive MPSC
    queue: [ABTI_pool::push] (the single-consumer branch), [pop_mpsc] and the
    single-consumer branches of [remove_unit] and [for_each_unit].  This file
    has the operations as the code composes them and their behaviour when no
    other thread is inside one; [MpscConc] interleaves the same steps. *)

From S2P Require Import Prelude AbtTypes Objects Storage PoolList Sleepers.

(** ** Operations *)

Definition load_next (q : qref) : M pst (option qref) :=
  match q with
  | Stub => p ← self; mret (stub_next p)
  | Qn t => x ← th t; mret (qn_next x)
  end.
Definition store_next (q : qref) (n : option qref) : M pst unit :=
  match q with
  | Stub => set_self (λ p, p <| stub_next := n |>)
  | Qn t => set_th t (λ x, x <| qn_next := n |>)
  end.
(** [tail.exchange(q)] *)
Definition xchg_tail (q : qref) : M pst qref :=
  p ← self; set_self (λ p, p <| q_tail := q |>) ;; mret (q_tail p).

Definition mpsc_push (t : ptr) : M pst unit :=
  store_next (Qn t) None ;;
  prev ← xchg_tail (Qn t);
  store_next prev (Some (Qn t)).

Definition push_twice_msg : string :=
  "abt: a unit was pushed into a pool it is already queued in".

(** [ABTI_pool::push] on a built-in pool. *)
Definition push_builtin (t : ptr) : M pst unit :=
  x ← th t;
  set_th t (λ x, x <| in_pool := true |>) ;;
  (if in_pool x then fail (Aborted push_twice_msg) else mret tt) ;;
  p ← self;
  (if single_consumer p then mpsc_push t else list_push t) ;;
  set_self (λ p, p <| count ::= Z.succ |>) ;;
  wake_after_push.

(** The node [h] is the last one: append the stub so that [h] can be detached.
    [None] is the early [return nullptr]. *)
Definition detach_last (h : qref) : M pst (option qref) :=
  p ← self;
  if bool_decide (h ≠ q_tail p) then mret None else
  store_next Stub None ;;
  prev ← xchg_tail Stub;
  store_next prev (Some Stub) ;;
  load_next h.

(** [head = next; t = h->owner; in_pool = false; removed.exchange(false)]:
    the unit of the detached node, and whether it had been removed. *)
Definition detach (h next : qref) : M pst (ptr * bool) :=
  set_self (λ p, p <| q_head := next |>) ;;
  match owner h with
  | None => fail BadDeref
  | Some t =>
      set_th t (λ x, x <| in_pool := false |>) ;;
      x ← th t;
      set_th t (λ x, x <| removed := false |>) ;;
      mret (t, removed x)
  end.

(** One turn of the [for (;;)] of [pop_mpsc] up to the [continue]: [None] is
    [return nullptr], [Some (t, r)] a detached unit and its mark. *)
Definition pop_turn : M pst (option (ptr * bool)) :=
  p ← self;
  let h := q_head p in
  next ← load_next h;
  r ← (match h with
       | Qn _ => mret (Some (h, next))
       | Stub =>
           match next with
           | None => mret None
           | Some n =>
               set_self (λ p, p <| q_head := n |>) ;;
               next ← load_next n;
               mret (Some (n, next))
           end
       end);
  match r with
  | None => mret None
  | Some (h, next) =>
      n ← (match next with Some _ => mret next | None => detach_last h end);
      match n with
      | None => mret None
      | Some n => u ← detach h n; mret (Some u)
      end
  end.

Fixpoint pop_loop (fuel : nat) (pinned_elsewhere : ABTI_thread → bool) : M pst (option ptr) :=
  match fuel with
  | O => fail OutOfFuel
  | S fuel =>
      r ← pop_turn;
      match r with
      | None => mret None
      | Some (_, true) => pop_loop fuel pinned_elsewhere
      | Some (t, false) =>
          set_self (λ p, p <| count ::= Z.pred |>) ;;
          x ← th t;
          if pinned_elsewhere x then push_builtin t ;; mret None else mret (Some t)
      end
  end.

(** Each turn detaches one thread: as many turns as there are threads, and one. *)
Definition pop_mpsc (pinned_elsewhere : ABTI_thread → bool) : M pst (option ptr) :=
  n ← gets (λ s, size (heap s));
  pop_loop (S n) pinned_elsewhere.

(** the single-consumer branch of [remove_unit] *)
Definition mpsc_drop (t : ptr) : M pst bool :=
  x ← th t;
  set_th t (λ x, x <| removed := true |>) ;;
  mret (negb (removed x)).

(** the walk of [for_each_unit] from [head->next] *)
Fixpoint mpsc_units (fuel : nat) (n : option qref) : M pst (list ptr) :=
  match n with
  | None => mret []
  | Some q =>
      match fuel with
      | O => fail OutOfFuel
      | S fuel =>
          next ← load_next q;
          match q with
          | Stub => mpsc_units fuel next
          | Qn t =>
              x ← th t;
              l ← mpsc_units fuel next;
              mret (if removed x then l else t :: l)
          end
      end
  end.

(** ** Representation *)

Definition next_is (s : pst) (q : qref) (n : option qref) : Prop :=
  match q with
  | Stub => stub_next (this s) = n
  | Qn t => ∃ x, heap s !! t = Some x ∧ qn_next x = n
  end.

(** The nodes [q] are linked in this order; the last one has no successor. *)
Fixpoint qchain (s : pst) (q : list qref) : Prop :=
  match q with
  | [] => True
  | a :: q' => next_is s a (head q') ∧ qchain s q'
  end.

Definition owners (q : list qref) : list ptr := omap owner q.

Record mpsc_chain (s : pst) (q : list qref) : Prop := {
  mc_head : head q = Some (q_head (this s));
  mc_tail : last q = Some (q_tail (this s));
  mc_nodup : NoDup q;
  mc_chain : qchain s q;
}.

Definition mpsc_store (s : pst) (c : list ptr) : Prop :=
  (∃ q, mpsc_chain s q ∧ owners q = c) ∧
  ∀ t, t ∈ c → ∃ x, heap s !! t = Some x ∧ in_pool x = true.

(** [pop_mpsc] puts a unit it may not resume at the back and reports empty. *)
Definition mpsc_spec_pop (pinned : ptr → bool) (l : list ptr) : option ptr * list ptr :=
  match l with
  | [] => (None, [])
  | a :: l' => if pinned a then (None, l' ++ [a]) else (Some a, l')
  end.

(** ** Chains *)

Section chain.
Implicit Types (s : pst) (q : list qref) (t : ptr).

(** A chain depends only on the [next] fields of its own nodes. *)
Lemma qchain_ext s s' q :
  (∀ a n, a ∈ q → next_is s a n → next_is s' a n) → qchain s q → qchain s' q.
Proof.
  induction q as [|a q IH]; simpl; [done|]. intros Hn [? ?].
  split; [apply Hn; [set_solver|done]|]. apply IH; [|done]. intros b n ?. apply Hn. set_solver.
Qed.

Lemma owners_app q1 q2 : owners (q1 ++ q2) = owners q1 ++ owners q2.
Proof. apply omap_app. Qed.
Lemma elem_of_owners q t : t ∈ owners q ↔ Qn t ∈ q.
Proof.
  unfold owners. rewrite list_elem_of_omap. split.
  - intros ([|t'] & ? & ?); naive_solver.
  - intros ?. by exists (Qn t).
Qed.
Lemma owners_nodup q : NoDup q → NoDup (owners q).
Proof.
  induction 1 as [|[|t] q Hn Hnd IH]; simpl; [constructor|done|].
  apply NoDup_cons. split; [|done]. by rewrite elem_of_owners.
Qed.

(** *** Stores into [next] *)

Definition valid (s : pst) (a : qref) : Prop :=
  match a with Stub => True | Qn t => is_Some (heap s !! t) end.
Definition put_next (s : pst) (a : qref) (n : option qref) : pst :=
  match a with
  | Stub => with_this s (this s <| stub_next := n |>)
  | Qn t => with_heap s (alter (λ x, x <| qn_next := n |>) t (heap s))
  end.

Lemma alter_insert_same (h : gmap Z ABTI_thread) t x f :
  h !! t = Some x → <[t := f x]> h = alter f t h.
Proof.
  intros Hx. apply map_eq. intros t'. destruct (decide (t = t')) as [<-|].
  - rewrite lookup_insert_eq, lookup_alter_eq, Hx. done.
  - by rewrite lookup_insert_ne, lookup_alter_ne.
Qed.

Lemma wp_store_next a n (Q : unit → pst → Prop) s :
  valid s a → Q tt (put_next s a n) → wp (store_next a n) Q s.
Proof.
  destruct a as [|t]; simpl; [by intros _ ?|]. intros [x Hx] HQ.
  eapply wp_set_th; [done|]. by rewrite alter_insert_same.
Qed.
Lemma wp_load_next a n (Q : option qref → pst → Prop) s :
  next_is s a n → Q n s → wp (load_next a) Q s.
Proof.
  destruct a as [|t]; simpl.
  - intros <- ?. st_step. st_step. by st_step.
  - intros (x & Hx & <-) ?. st_step. st_step; [done|]. by st_step.
Qed.

Lemma next_is_valid s a n : next_is s a n → valid s a.
Proof. destruct a; simpl; [done|]. intros (x & -> & _). eauto. Qed.
Lemma next_is_put_same s a n : valid s a → next_is (put_next s a n) a n.
Proof.
  destruct a as [|t]; simpl; [done|]. intros [x Hx].
  rewrite lookup_alter_eq, Hx. simpl. eauto.
Qed.
Lemma next_is_put_ne s a b n m : a ≠ b → next_is s b m → next_is (put_next s a n) b m.
Proof.
  destruct a as [|t], b as [|t']; simpl; try done. intros Hne ?.
  by rewrite lookup_alter_ne by congruence.
Qed.
Lemma put_next_this s a n :
  erase_store (this (put_next s a n)) = erase_store (this s) ∧
  q_head (this (put_next s a n)) = q_head (this s) ∧
  q_tail (this (put_next s a n)) = q_tail (this s) ∧
  count (this (put_next s a n)) = count (this s) ∧
  evs (put_next s a n) = evs s ∧ addr (put_next s a n) = addr s.
Proof. by destruct a. Qed.
Lemma put_next_lookup s a n t x :
  heap s !! t = Some x →
  ∃ y, heap (put_next s a n) !! t = Some y ∧ erase_queue y = erase_queue x ∧
       in_pool y = in_pool x ∧ removed y = removed x.
Proof.
  intros Hx. destruct a as [|t']; simpl; [by eauto|].
  destruct (decide (t' = t)) as [->|].
  - rewrite lookup_alter_eq, Hx. simpl. by eauto.
  - rewrite lookup_alter_ne by done. by eauto.
Qed.
Lemma put_next_frame c s a n :
  (∀ t, a = Qn t → t ∈ c) → queue_frame c s (put_next s a n).
Proof.
  intros Ha. destruct a as [|t]; simpl; [by split|].
  specialize (Ha t eq_refl). split; simpl; [|done|done|].
  - apply map_eq. intros t'. rewrite !lookup_fmap. destruct (decide (t = t')) as [<-|].
    + rewrite lookup_alter_eq. by destruct (heap s !! t).
    + by rewrite lookup_alter_ne.
  - intros t' ?. apply lookup_alter_ne. set_solver.
Qed.

Lemma qchain_put s a n q : a ∉ q → qchain s q → qchain (put_next s a n) q.
Proof.
  intros Ha. apply qchain_ext. intros b m Hb. apply next_is_put_ne. set_solver.
Qed.
(** Linking a new last node. *)
Lemma qchain_link s q a b :
  NoDup (q ++ [a]) → b ∉ q ++ [a] → qchain s (q ++ [a]) → next_is s b None →
  qchain (put_next s a (Some b)) (q ++ [a; b]).
Proof.
  induction q as [|c q IH]; simpl; intros Hnd Hb Hq Hn.
  - destruct Hq as [Ha _]. split; [apply next_is_put_same; by eapply next_is_valid|].
    split; [|done]. apply next_is_put_ne; [set_solver|done].
  - apply NoDup_cons in Hnd as [Hc Hnd]. destruct Hq as [Hqc Hq].
    split; [|apply IH; [done|set_solver|done|done]].
    apply next_is_put_ne; [set_solver|].
    replace (head (q ++ [a; b])) with (head (q ++ [a])); [done|]. by destruct q.
Qed.
End chain.

(** ** The queue as a pool storage *)

Section store.
Implicit Types (s : pst) (q : list qref) (c : list ptr) (t : ptr).

Lemma next_is_queue_of s s' a n :
  stub_next (this s') = stub_next (this s) →
  (∀ t, a = Qn t → queue_of <$> heap s' !! t = queue_of <$> heap s !! t) →
  next_is s a n → next_is s' a n.
Proof.
  destruct a as [|t]; simpl; [congruence|]. intros _ Hq (x & Hx & <-).
  specialize (Hq t eq_refl). rewrite Hx in Hq.
  destruct (heap s' !! t) as [y|]; simplify_eq/=. eexists. split; [done|]. congruence.
Qed.

Lemma next_is_this s p a n :
  stub_next p = stub_next (this s) → next_is s a n → next_is (with_this s p) a n.
Proof. intros. by eapply next_is_queue_of. Qed.
Lemma qchain_this s p q :
  stub_next p = stub_next (this s) → qchain s q → qchain (with_this s p) q.
Proof. intros ?. apply qchain_ext. intros a n _. by apply next_is_this. Qed.

Lemma mpsc_store_stable s s' c :
  mpsc_store s c → store_of (this s') = store_of (this s) →
  (∀ t, t ∈ c → queue_of <$> heap s' !! t = queue_of <$> heap s !! t) → mpsc_store s' c.
Proof.
  intros [(q & [Hh Ht Hnd Hc] & <-) Hf] Hst Hq. injection Hst as Es Et Eh _ _. split.
  - exists q. split; [|done]. split; [congruence|congruence|done|].
    eapply qchain_ext, Hc. intros a n Ha. apply next_is_queue_of; [done|].
    intros t ->. apply Hq. by apply elem_of_owners.
  - intros t Ht'. destruct (Hf t Ht') as (x & Hx & ?). specialize (Hq t Ht').
    rewrite Hx in Hq. destruct (heap s' !! t) as [y|]; simplify_eq/=.
    exists y. split; [done|]. congruence.
Qed.

(** The flags of the threads that stay are those they had. *)
Definition same_flags (c : list ptr) (s s' : pst) : Prop :=
  ∀ t x, t ∈ c → heap s !! t = Some x →
    ∃ y, heap s' !! t = Some y ∧ in_pool y = in_pool x ∧ removed y = removed x.

Lemma same_flags_refl c s : same_flags c s s.
Proof. intros t x _ ?. eauto. Qed.
Lemma same_flags_heap c s s' : heap s' = heap s → same_flags c s s'.
Proof. intros Heq t x _ ?. rewrite Heq. eauto. Qed.
Lemma same_flags_trans c s1 s2 s3 : same_flags c s1 s2 → same_flags c s2 s3 → same_flags c s1 s3.
Proof.
  intros H1 H2 t x Ht Hx. destruct (H1 t x Ht Hx) as (y & Hy & ? & ?).
  destruct (H2 t y Ht Hy) as (z & Hz & ? & ?). exists z. split_and!; congruence.
Qed.
Lemma same_flags_weaken c c' s s' : c' ⊆ c → same_flags c s s' → same_flags c' s s'.
Proof. intros ? Hf t x ?. apply Hf. set_solver. Qed.
Lemma same_flags_put c s a n : same_flags c s (put_next s a n).
Proof. intros t x _ Hx. destruct (put_next_lookup s a n t x Hx) as (y & ? & ? & ?). eauto. Qed.
Lemma same_flags_units c s s' :
  same_flags c s s' → (∀ t, t ∈ c → is_Some (heap s !! t)) →
  units (heap s') c = units (heap s) c.
Proof.
  intros Hf Hex. apply units_ext. intros t Ht. destruct (Hex t Ht) as [x Hx].
  destruct (Hf t x Ht Hx) as (y & Hy & _ & ?). unfold is_removed. by rewrite Hx, Hy.
Qed.
Lemma same_flags_in_pool c s s' :
  same_flags c s s' → (∀ t, t ∈ c → ∃ x, heap s !! t = Some x ∧ in_pool x = true) →
  ∀ t, t ∈ c → ∃ x, heap s' !! t = Some x ∧ in_pool x = true.
Proof.
  intros Hf Hin t Ht. destruct (Hin t Ht) as (x & Hx & ?).
  destruct (Hf t x Ht Hx) as (y & ? & ? & ?). exists y. split; [done|]. congruence.
Qed.

Lemma mpsc_store_link t x s c :
  mpsc_store s c → t ∉ c → heap s !! t = Some x → in_pool x = true → removed x = false →
  wp (mpsc_push t) (λ _ s', mpsc_store s' (c ++ [t]) ∧ queue_frame (c ++ [t]) s s' ∧
    units (heap s') (c ++ [t]) = PoolSpec.push t (units (heap s) c) ∧
    count (this s') = count (this s) ∧ evs s' = evs s) s.
Proof.
  intros [(q & [Hh Htl Hnd Hc] & <-) Hf] Hnt Hx Hin Hrm.
  assert (Hnq : Qn t ∉ q) by (by rewrite <-elem_of_owners).
  destruct q as [|a q _] using rev_ind; [done|]. rewrite last_snoc in Htl.
  injection Htl as ->. unfold mpsc_push, xchg_tail.
  st_step. apply wp_store_next; [simpl; eauto|].
  set (s1 := put_next s (Qn t) None). st_step. st_step. st_step. st_step. st_step. st_step.
  set (s2 := with_this s1 (this s1 <| q_tail := Qn t |>)).
  assert (qchain s2 (q ++ [q_tail (this s)])) as Hc2
    by (apply qchain_this; [done|by apply qchain_put]).
  assert (next_is s2 (Qn t) None) as Hn2
    by (apply next_is_this; [done|]; apply next_is_put_same; simpl; eauto).
  assert (valid s2 (q_tail (this s))) as Hv.
  { clear -Hc2. induction q as [|b q IH]; simpl in *; [|naive_solver].
    eapply next_is_valid. apply Hc2. }
  change (q_tail (this s1)) with (q_tail (this s)).
  apply wp_store_next; [done|]. set (s3 := put_next s2 (q_tail (this s)) (Some (Qn t))).
  assert (same_flags (owners (q ++ [q_tail (this s)]) ++ [t]) s s3) as Hfl.
  { apply same_flags_trans with s1; [apply same_flags_put|].
    apply same_flags_trans with s2; [by apply same_flags_heap|apply same_flags_put]. }
  destruct (put_next_this s2 (q_tail (this s)) (Some (Qn t))) as (Ee & Eh & Et & Ec & Ev & Ea).
  split_and!.
  - split.
    + exists ((q ++ [q_tail (this s)]) ++ [Qn t]). split.
      * split.
        -- unfold s3. rewrite Eh. simpl. destruct q; done.
        -- rewrite last_snoc. unfold s3. rewrite Et. done.
        -- apply NoDup_app. split_and!; [done|set_solver|apply NoDup_singleton].
        -- rewrite <-app_assoc. by apply qchain_link.
      * by rewrite owners_app.
    + eapply same_flags_in_pool; [exact Hfl|]. set_solver.
  - eapply queue_frame_trans; [apply (put_next_frame _ s (Qn t) None); set_solver|].
    apply queue_frame_trans with s2; [by split|]. apply put_next_frame.
    intros t' Ht'. apply elem_of_app. left. apply elem_of_owners. rewrite Ht'. set_solver.
  - unfold PoolSpec.push. rewrite (same_flags_units _ _ _ Hfl) by set_solver.
    rewrite units_app. f_equal. unfold units. rewrite filter_cons_True; [done|].
    unfold is_removed. by rewrite Hx.
  - unfold s3. by rewrite Ec.
  - unfold s3. by rewrite Ev.
Qed.

(** A turn that passes the last check detaches the first thread node. *)
Lemma detach_spec s t n q x :
  mpsc_chain s (Qn t :: q) → head q = Some n → heap s !! t = Some x →
  wp (detach (Qn t) n) (λ r s', r = (t, removed x) ∧ mpsc_chain s' q ∧
    queue_frame [t] s s' ∧ idle_in (heap s') t ∧ count (this s') = count (this s) ∧
    evs s' = evs s) s.
Proof.
  intros [Hh Ht [Hnt Hnd]%NoDup_cons Hc] Hn Hx. unfold detach. simpl.
  st_step. st_step. st_step. st_step; [done|]. simpl.
  st_step. st_step; [apply lookup_insert_eq|]. st_step.
  st_step; [apply lookup_insert_eq|]. st_step. simpl. rewrite insert_insert_eq.
  split_and!; [done| | | |done|done].
  - destruct q as [|a q]; [done|]. rewrite last_cons_cons in Ht.
    split; simpl; [done|done|done|].
    destruct Hc as [_ Hc]. eapply (qchain_ext s _ (a :: q)), Hc.
    intros b m Hb. apply next_is_queue_of; [done|].
    intros t' ->. simpl. rewrite lookup_insert_ne; [done|]. set_solver.
  - eapply queue_frame_trans; [by apply (queue_frame_this _ s (this s <| q_head := n |>))|].
    set (s1 := with_this s (this s <| q_head := n |>)).
    set (y := x <| in_pool := false |> <| removed := false |>).
    change (queue_frame [t] s1 (with_heap s1 (<[t := y]> (heap s1)))).
    apply queue_frame_th with x; [done..|set_solver].
  - eexists. simpl. rewrite lookup_insert_eq. done.
Qed.

(** The stub, appended behind the only node. *)
Lemma detach_last_spec s t :
  mpsc_chain s [Qn t] →
  wp (detach_last (Qn t)) (λ r s', r = Some Stub ∧ mpsc_chain s' [Qn t; Stub] ∧
    queue_frame [t] s s' ∧ same_flags [t] s s' ∧ count (this s') = count (this s) ∧
    evs s' = evs s) s.
Proof.
  intros [Hh Ht _ [(x & Hx & Hnx) _]]. simpl in Hh, Ht. injection Hh as Hh. injection Ht as Ht.
  unfold detach_last, xchg_tail. st_step. st_step. rewrite <-Ht, bool_decide_false by tauto.
  st_step. apply wp_store_next; [done|]. st_step. st_step. st_step. st_step. st_step. st_step.
  simpl. rewrite <-Ht. st_step. apply wp_store_next; [simpl; eauto|].
  match goal with |- wp _ _ ?s' => set (s3 := s') end.
  assert (next_is s3 (Qn t) (Some Stub)) as Hn by (apply next_is_put_same; simpl; eauto).
  apply (wp_load_next (Qn t) (Some Stub)); [done|].
  split_and!; [done| | | |done|done].
  - split; [by rewrite Hh|done| |done]. repeat constructor; set_solver.
  - eapply queue_frame_trans; [|apply put_next_frame; set_solver]. by split.
  - eapply same_flags_trans; [|apply same_flags_put]. by apply same_flags_heap.
Qed.

(** What a turn may have done before it detaches a unit: nothing the
    threads [c], the count or the log show. *)
Definition unseen (c : list ptr) (s s' : pst) : Prop :=
  queue_frame c s s' ∧ same_flags c s s' ∧ count (this s') = count (this s) ∧ evs s' = evs s.
Definition turn_done (s : pst) (t : ptr) (c : list ptr) (r : option (ptr * bool)) (s' : pst) : Prop :=
  ∃ x, heap s !! t = Some x ∧ r = Some (t, removed x) ∧ mpsc_store s' c ∧
    queue_frame (t :: c) s s' ∧ idle_in (heap s') t ∧ same_flags c s s' ∧
    count (this s') = count (this s) ∧ evs s' = evs s.

Lemma unseen_refl c s : unseen c s s.
Proof. split_and!; auto using same_flags_refl with abt_wp. Qed.
Lemma unseen_trans c s1 s2 s3 : unseen c s1 s2 → unseen c s2 s3 → unseen c s1 s3.
Proof.
  intros (? & ? & ? & ?) (? & ? & ? & ?).
  split_and!; [by eapply queue_frame_trans|by eapply same_flags_trans|congruence..].
Qed.

Lemma turn_detach s s1 t n q :
  (∀ t', t' ∈ t :: owners q → ∃ x, heap s !! t' = Some x ∧ in_pool x = true) →
  mpsc_chain s1 (Qn t :: q) → head q = Some n → unseen (t :: owners q) s s1 →
  wp (u ← detach (Qn t) n; mret (Some u)) (turn_done s t (owners q)) s1.
Proof.
  intros Hin Hc1 Hn (Hfr1 & Hfl1 & Hct1 & Hev1).
  destruct (Hin t) as (x & Hx & _); [set_solver|].
  assert (t ∉ owners q) as Hnt.
  { pose proof (mc_nodup _ _ Hc1) as [? _]%NoDup_cons. by rewrite elem_of_owners. }
  destruct (Hfl1 t x) as (y & Hy & _ & Hry); [set_solver|done|].
  st_step. eapply wp_mono; [by eapply detach_spec|].
  intros r s2 (-> & Hc2 & Hfr2 & Hid & Hct2 & Hev2). st_step.
  assert (same_flags (owners q) s s2) as Hfl2.
  { apply same_flags_trans with s1; [eapply same_flags_weaken, Hfl1; set_solver|].
    intros t' z Ht' Hz. exists z. rewrite (qf_out _ _ _ Hfr2) by set_solver. done. }
  exists x. split_and!; [done|congruence| | |done|done|congruence|congruence].
  - split; [by exists q|]. eapply same_flags_in_pool; [done|]. set_solver.
  - eapply queue_frame_trans; [done|]. eapply queue_frame_weaken, Hfr2. set_solver.
Qed.

(** The turn from a thread node at the front. *)
Lemma turn_front s s0 t q :
  (∀ t', t' ∈ t :: owners q → ∃ x, heap s !! t' = Some x ∧ in_pool x = true) →
  mpsc_chain s0 (Qn t :: q) → unseen (t :: owners q) s s0 →
  wp (n ← (match head q with Some _ => mret (head q) | None => detach_last (Qn t) end);
      match n with None => mret None | Some n => u ← detach (Qn t) n; mret (Some u) end)
    (turn_done s t (owners q)) s0.
Proof.
  intros Hin Hc0 Hu0. st_step. destruct q as [|b q]; simpl.
  - eapply wp_mono; [by apply detach_last_spec|].
    intros r s1 (-> & Hc1 & Hfr1 & Hfl1 & Hct1 & Hev1).
    apply (turn_detach s s1 t Stub [Stub]); [done..|].
    eapply unseen_trans; [done|]. by split_and!.
  - st_step. by apply (turn_detach s s0 t b (b :: q)).
Qed.

Lemma pop_turn_spec s c :
  mpsc_store s c →
  wp pop_turn (λ r s',
    match c with
    | [] => r = None ∧ s' = s
    | t :: c' => turn_done s t c' r s'
    end) s.
Proof.
  intros [(q & Hch & <-) Hf]. pose proof Hch as [Hh Ht Hnd Hc].
  destruct q as [|a q]; [done|]. simpl in Hh. injection Hh as Ha. destruct Hc as [Hn Hc].
  unfold pop_turn. st_step. st_step. rewrite <-Ha. st_step. eapply wp_load_next; [done|].
  destruct a as [|t].
  2:{ st_step. st_step. by apply turn_front; [|done|apply unseen_refl]. }
  destruct q as [|[|t] q]; simpl.
  { st_step. st_step. by st_step. }
  { apply NoDup_cons in Hnd. set_solver. }
  st_step. st_step. st_step. st_step. destruct Hc as [Hnt Hc].
  apply (wp_load_next (Qn t) (head q)); [by apply (next_is_this s _ (Qn t))|]. st_step.
  apply turn_front; [done| |].
  - split; [done|done|by apply NoDup_cons in Hnd as [_ ?]|]. split; [by apply (next_is_this s _ (Qn t))|].
    by apply qchain_this.
  - split_and!; [by split|by apply same_flags_heap|done|done].
Qed.
End store.

(** ** [push] on either storage *)

Section push.
Context (sc : bool) (rep : pst → list ptr → Prop).
Context (rep_stable : ∀ s s' c, rep s c → store_of (this s') = store_of (this s) →
  (∀ t, t ∈ c → queue_of <$> heap s' !! t = queue_of <$> heap s !! t) → rep s' c).
Context (rep_link : ∀ t x s c,
  rep s c → t ∉ c → heap s !! t = Some x → in_pool x = true → removed x = false →
  wp (if sc then mpsc_push t else list_push t)
    (λ _ s', rep s' (c ++ [t]) ∧ queue_frame (c ++ [t]) s s' ∧
    units (heap s') (c ++ [t]) = PoolSpec.push t (units (heap s) c) ∧
    count (this s') = count (this s) ∧ evs s' = evs s) s).

Lemma units_insert_ne h c t (x : ABTI_thread) : t ∉ c → units (<[t := x]> h) c = units h c.
Proof.
  intros Ht. apply units_ext. intros t' Ht'. unfold is_removed.
  rewrite lookup_insert_ne; [done|set_solver].
Qed.

Lemma push_builtin_gen t s c :
  rep s c → t ∉ c → idle_in (heap s) t → single_consumer (this s) = sc →
  masks_wf (smask (this s)) →
  wp (push_builtin t) (λ _ s', rep s' (c ++ [t]) ∧ queue_frame (c ++ [t]) s s' ∧
    units (heap s') (c ++ [t]) = PoolSpec.push t (units (heap s) c) ∧
    count (this s') = count (this s) + 1 ∧ evs s' = evs s ++ wake_events s) s.
Proof.
  intros Hrep Hnt (x & Hx & Hin & Hrm) Hsc Hwf. unfold push_builtin.
  st_step. st_step; [done|]. st_step. st_step; [done|]. rewrite Hin. st_step. st_step.
  st_step. st_step. simpl. rewrite Hsc. st_step.
  set (s1 := with_heap s (<[t := x <| in_pool := true |>]> (heap s))).
  assert (queue_frame (c ++ [t]) s s1) as F1
    by (apply queue_frame_th with x; [done..|set_solver]).
  assert (rep s1 c) as Hrep1.
  { eapply rep_stable; [done..|]. intros t' Ht'. simpl. rewrite lookup_insert_ne; [done|set_solver]. }
  eapply wp_mono.
  { apply (rep_link t (x <| in_pool := true |>) s1 c); [done|done|apply lookup_insert_eq|done|done]. }
  intros [] s2 (Hrep2 & F2 & Hu2 & Hc2 & He2). st_step. st_step.
  set (s3 := with_this s2 (this s2 <| count ::= Z.succ |>)).
  assert (queue_frame (c ++ [t]) s s3) as F3.
  { eapply queue_frame_trans; [exact F1|]. eapply queue_frame_trans; [exact F2|]. by split. }
  pose proof (qf_pool _ _ _ F3) as Hp.
  assert (smask (this s3) = smask (this s)) as Hsm by exact (f_equal smask Hp).
  assert (waiters (this s3) = waiters (this s)) as Hwt by exact (f_equal waiters Hp).
  assert (nsleepers (this s3) = nsleepers (this s)) as Hns by exact (f_equal nsleepers Hp).
  eapply wp_mono; [apply wake_after_push_spec; by rewrite Hsm|]. intros [] s4 ->. simpl.
  split_and!.
  - eapply rep_stable; [exact Hrep2|done..].
  - eapply queue_frame_trans; [exact F3|]. by split.
  - rewrite Hu2. unfold s1. simpl. by rewrite units_insert_ne.
  - rewrite Hc2. unfold s1. simpl. lia.
  - rewrite He2. unfold wake_events. by rewrite Hsm, Hwt, Hns, (qf_addr _ _ _ F3).
Qed.
End push.

Definition mpsc_push_builtin := push_builtin_gen true mpsc_store mpsc_store_stable mpsc_store_link.
Definition list_push_builtin := push_builtin_gen false list_store list_store_stable list_store_link.

(** ** [pop_mpsc] *)

Section pop.
Implicit Types (s : pst) (c l : list ptr) (t : ptr).

Lemma pin_at_frame pinned c s s' t :
  pinned_ok pinned → queue_frame c s s' → pin_at (heap s') pinned t = pin_at (heap s) pinned t.
Proof.
  intros Hok F. unfold pin_at. pose proof (f_equal (.!! t) (qf_threads _ _ _ F)) as Ht.
  simpl in Ht. rewrite !lookup_fmap in Ht.
  destruct (heap s !! t) as [x|], (heap s' !! t) as [y|]; try done.
  apply (inj Some) in Ht. simpl. by rewrite <-Hok, Ht, Hok.
Qed.

Lemma spec_pop_ext pin pin' l :
  (∀ t, pin t = pin' t) → mpsc_spec_pop pin l = mpsc_spec_pop pin' l.
Proof. intros Heq. destruct l; simpl; [done|]. by rewrite Heq. Qed.

Lemma idle_in_frame c s s' t :
  queue_frame c s s' → t ∉ c → idle_in (heap s) t → idle_in (heap s') t.
Proof. intros F Ht (x & Hx & ?). exists x. by rewrite (qf_out _ _ _ F). Qed.

Lemma units_cons h t c :
  units h (t :: c) = if is_removed h t then units h c else t :: units h c.
Proof.
  unfold units. rewrite filter_cons. by destruct (is_removed h t).
Qed.

(** The unit [t] has been detached: count it out, hand it over or put it
    back for the PE it is pinned to. *)
Lemma pop_hand_over pinned t c s :
  mpsc_store s c → t ∉ c → idle_in (heap s) t → pinned_ok pinned →
  single_consumer (this s) = true → masks_wf (smask (this s)) →
  wp (set_self (λ p, p <| count ::= Z.pred |>) ;;
      x ← th t;
      if pinned x then push_builtin t ;; mret None else mret (Some t))
    (λ r s', ∃ c', mpsc_store s' c' ∧ queue_frame (t :: c) s s' ∧ c' ⊆ t :: c ∧
      (r, units (heap s') c') =
        mpsc_spec_pop (pin_at (heap s) pinned) (t :: units (heap s) c) ∧
      (∀ t', t' ∈ t :: c → t' ∈ c' ∨ idle_in (heap s') t') ∧
      count (this s') = count (this s) - of_bool (non_null r) ∧
    (∀ t, r = Some t → idle_in (heap s') t)) s.
Proof.
  intros Hst Hnt Hid Hok Hsc Hwf. pose proof Hid as (x & Hx & _).
  st_step. st_step. st_step. st_step; [done|]. unfold mpsc_spec_pop, pin_at. rewrite Hx. simpl.
  set (s1 := with_this s (this s <| count ::= Z.pred |>)).
  assert (mpsc_store s1 c) as Hst1 by (by eapply mpsc_store_stable).
  destruct (pinned x).
  - st_step. eapply wp_mono; [by apply mpsc_push_builtin|].
    intros [] s2 (Hst2 & F2 & Hu2 & Hc2 & _). st_step. exists (c ++ [t]).
    split_and!; [done| |set_solver| |set_solver| |done].
    + apply queue_frame_trans with s1; [by split|]. eapply queue_frame_weaken, F2. set_solver.
    + by rewrite Hu2.
    + rewrite Hc2. simpl. lia.
  - st_step. exists c. split_and!; [done|by split|set_solver|done| |simpl; lia|naive_solver].
    intros t' [->|?]%elem_of_cons; auto.
Qed.

Lemma pop_loop_spec fuel pinned s c :
  (length c < fuel)%nat → mpsc_store s c → pinned_ok pinned →
  single_consumer (this s) = true → masks_wf (smask (this s)) →
  wp (pop_loop fuel pinned) (λ r s', ∃ c', mpsc_store s' c' ∧ queue_frame c s s' ∧ c' ⊆ c ∧
    (r, units (heap s') c') = mpsc_spec_pop (pin_at (heap s) pinned) (units (heap s) c) ∧
    (∀ t, t ∈ c → t ∈ c' ∨ idle_in (heap s') t) ∧
    count (this s') = count (this s) - of_bool (non_null r) ∧
    (∀ t, r = Some t → idle_in (heap s') t)) s.
Proof.
  intros Hlen Hst Hok. revert fuel s Hlen Hst.
  induction c as [|t c IH]; intros [|fuel] s Hlen Hst Hsc Hwf; simpl in Hlen; try lia;
    cbn [pop_loop]; st_step; (eapply wp_mono; [by apply pop_turn_spec|]); simpl.
  { intros r s' [-> ->]. st_step. exists [].
    split_and!; [done|apply queue_frame_refl|done|done|set_solver|simpl; lia|done]. }
  intros r s1 (x & Hx & -> & Hst1 & F1 & Hid & Hfl & Hct & Hev).
  assert ((t ∉ c) ∧ (∀ t', t' ∈ c → is_Some (heap s !! t'))) as [Hnt Hex].
  { destruct Hst as [(q & Hq & Ho) Hf]. split.
    - pose proof (owners_nodup q (mc_nodup _ _ Hq)) as Hnd. rewrite Ho in Hnd.
      by apply NoDup_cons in Hnd as [? _].
    - intros t' Ht'. destruct (Hf t') as (y & -> & _); [set_solver|eauto]. }
  pose proof (same_flags_units _ _ _ Hfl Hex) as Hu.
  pose proof (qf_pool _ _ _ F1) as Hp.
  assert (single_consumer (this s1) = true) as Hsc1
    by (rewrite <-Hsc; exact (f_equal single_consumer Hp)).
  assert (smask (this s1) = smask (this s)) as Hsm by exact (f_equal smask Hp).
  rewrite units_cons. unfold is_removed at 1. rewrite Hx. simpl. destruct (removed x).
  - eapply wp_mono; [apply IH; [lia|done|done|by rewrite Hsm]|].
    intros r s2 (c' & Hst2 & F2 & Hsub & Heq & Hor & Hct2 & Hidl). exists c'. split_and!.
    + done.
    + eapply queue_frame_trans; [exact F1|]. eapply queue_frame_weaken, F2. set_solver.
    + set_solver.
    + rewrite Heq, Hu. apply spec_pop_ext. intros t'. by eapply pin_at_frame.
    + intros t' [->|?]%elem_of_cons; [right; by eapply idle_in_frame|auto].
    + by rewrite Hct2, Hct.
    + done.
  - eapply wp_mono; [apply pop_hand_over; [done..|by rewrite Hsm]|].
    intros r s2 (c' & Hst2 & F2 & Hsub & Heq & Hor & Hct2 & Hidl). exists c'.
    split_and!; [done|by eapply queue_frame_trans|done| |done|by rewrite Hct2, Hct|done].
    rewrite Heq, Hu. apply spec_pop_ext. intros t'. by eapply pin_at_frame.
Qed.

(** The fuel of [pop_mpsc] is enough: the stored threads are all in the heap. *)
Lemma store_length_heap s c :
  NoDup c → (∀ t, t ∈ c → is_Some (heap s !! t)) → (length c ≤ size (heap s))%nat.
Proof.
  intros Hnd Hex.
  rewrite <-(size_list_to_set (C := gset Z) c) by done. rewrite <-size_dom.
  apply subseteq_size. intros t. rewrite elem_of_list_to_set, elem_of_dom. auto.
Qed.

Lemma mpsc_store_members s c :
  mpsc_store s c → NoDup c ∧ ∀ t, t ∈ c → ∃ x, heap s !! t = Some x ∧ in_pool x = true.
Proof.
  intros [(q & Hq & <-) Hf]. split; [|done]. apply owners_nodup, (mc_nodup _ _ Hq).
Qed.

Lemma mpsc_store_take pinned s c :
  mpsc_store s c → pinned_ok pinned → single_consumer (this s) = true →
  masks_wf (smask (this s)) →
  wp (pop_mpsc pinned) (λ r s', ∃ c', mpsc_store s' c' ∧ queue_frame c s s' ∧ c' ⊆ c ∧
    (r, units (heap s') c') = mpsc_spec_pop (pin_at (heap s) pinned) (units (heap s) c) ∧
    (∀ t, t ∈ c → t ∈ c' ∨ idle_in (heap s') t) ∧
    count (this s') = count (this s) - of_bool (non_null r) ∧
    (∀ t, r = Some t → idle_in (heap s') t)) s.
Proof.
  intros Hst Hok Hsc Hwf. unfold pop_mpsc. st_step. st_step. apply pop_loop_spec; try done.
  destruct (mpsc_store_members _ _ Hst) as [Hnd Hf].
  assert (length c ≤ size (heap s))%nat; [|lia]. apply store_length_heap; [done|].
  intros t (x & -> & _)%Hf. eauto.
Qed.

Lemma mpsc_store_drop t s c :
  mpsc_store s c → t ∈ c →
  wp (mpsc_drop t) (λ hit s', ∃ c', mpsc_store s' c' ∧ queue_frame c s s' ∧ c' ⊆ c ∧
    units (heap s') c' = PoolSpec.remove t (units (heap s) c) ∧
    hit = bool_decide (t ∈ units (heap s) c) ∧
    (∀ t', t' ∈ c → t' ∈ c' ∨ idle_in (heap s') t') ∧
    count (this s') = count (this s) ∧ (t ∈ c' ↔ true = true)) s.
Proof.
  intros Hst Ht. destruct (mpsc_store_members _ _ Hst) as [Hnd Hf].
  destruct (Hf t Ht) as (x & Hx & Hin). unfold mpsc_drop.
  st_step. st_step; [done|]. st_step. st_step; [done|]. st_step. exists c.
  split_and!; [| |done| | |by left|done|done].
  - destruct Hst as [(q & [Hh Htl Hnq Hc] & Ho) _]. split.
    + exists q. split; [|done]. split; simpl; [done..|]. eapply qchain_ext, Hc.
      intros [|t'] n _; simpl; [done|]. intros (y & Hy & <-).
      destruct (decide (t = t')) as [<-|];
        [|rewrite lookup_insert_ne by done; eauto].
      rewrite lookup_insert_eq. eexists. split; [done|]. simpl. congruence.
    + intros t' Ht'. simpl. destruct (decide (t = t')) as [<-|];
        [|rewrite lookup_insert_ne by done; eauto].
      rewrite lookup_insert_eq. eexists. split; [done|]. done.
  - apply queue_frame_th with x; [done..|set_solver].
  - simpl. unfold units, PoolSpec.remove. rewrite list_filter_filter.
    apply filter_ext_in. intros t' Ht'. unfold is_removed. destruct (decide (t = t')) as [<-|].
    + rewrite lookup_insert_eq. simpl. naive_solver.
    + rewrite lookup_insert_ne by done. naive_solver.
  - symmetry. destruct (removed x) eqn:Hr; simpl.
    + apply bool_decide_eq_false. rewrite units_elem. unfold is_removed. rewrite Hx. simpl.
      rewrite Hr. naive_solver.
    + apply bool_decide_eq_true. rewrite units_elem. unfold is_removed. by rewrite Hx.
Qed.
End pop.

#[export] Instance mpsc_fifo_store :
  FifoStore true mpsc_push pop_mpsc mpsc_drop mpsc_spec_pop mpsc_store.
Proof.
  split.
  - apply mpsc_store_members.
  - apply mpsc_store_stable.
  - apply mpsc_store_link.
  - intros. by apply mpsc_store_take.
  - apply mpsc_store_drop.
Qed.

(** A chain has one node per thread, and the stub. *)
Lemma owners_length q :
  NoDup q → length q = (length (owners q) + if bool_decide (Stub ∈ q) then 1 else 0)%nat.
Proof.
  induction 1 as [|[|t] q Hn Hnd IH]; [done|..]; cbn [length]; rewrite IH.
  - change (owners (Stub :: q)) with (owners q).
    rewrite bool_decide_false by done. rewrite bool_decide_true by set_solver. lia.
  - change (owners (Qn t :: q)) with (t :: owners q). cbn [length]. rewrite (bool_decide_ext (Stub ∈ Qn t :: q) (Stub ∈ q)) by set_solver. lia.
Qed.

(** The walk of [for_each_unit] from a node on: the units that are not marked. *)
Lemma mpsc_units_spec fuel q s :
  qchain s q → (length q ≤ fuel)%nat →
  (∀ t, t ∈ owners q → is_Some (heap s !! t)) →
  wp (mpsc_units fuel (head q)) (λ r s', s' = s ∧ r = units (heap s) (owners q)) s.
Proof.
  revert fuel. induction q as [|a q IH]; intros fuel Hq Hf Hex; simpl in *.
  { by destruct fuel. }
  destruct fuel as [|fuel]; [lia|]. destruct Hq as [Hn Hq]. cbn [mpsc_units].
  st_step. apply (wp_load_next a (head q)); [done|].
  destruct a as [|t]; simpl in *.
  - apply IH; [done|lia|done].
  - destruct (Hex t) as [x Hx]; [set_solver|]. st_step. st_step; [done|]. st_step.
    eapply wp_mono; [apply IH; [done|lia|set_solver]|]. intros r s' [-> ->]. st_step.
    split; [done|]. rewrite units_cons. unfold is_removed. by rewrite Hx.
Qed.
