(* ===== verification/MpscConc.v ===== *)
(** * The lock-free pool storage, with everybody at once

    The operations of [PoolMpsc] as steps of a machine: any number of threads
    push, one access to a shared field per step (sequentially consistent), while
    the thread that holds the pool's lock pops or removes.  The rest is ghost:
    [pushed] is the order of the exchanges of [tail], [taken] the order in which
    units are detached, [popped] what pops have returned, [skipped] what they have
    passed over because it was marked as removed, [dropped] what
    [ABT_pool_remove] has marked, [owed] how many of both are still to be taken off
    the counter, which is done after the lock is released; [busy] tells whether some push was between its
    exchange and its link, or made one of them, since the current pop began.  A pop
    that meets a unit it may not run goes on as a push of that unit.  A removal's
    look at [in_pool] and [pool] and its mark are one step: all are under the lock,
    and the unit's flag is only cleared under it. *)

From S2P Require Import Prelude AbtTypes Objects Storage PoolList Sleepers WakeSteps PoolMpsc.

(** ** The two programs *)

(** [ABTI_pool::push] of [t] on a pool with a single consumer. *)
Inductive ppoint : Type :=
  | PIdle
  | PMark (t : ptr)
  | PClear (t : ptr)
  | PXchg (t : ptr)
  | PLink (t : ptr) (prev : qref)
  | PTail (w : wpoint).
Definition push_step (p : ppoint) : M pst ppoint :=
  match p with
  | PIdle => mret PIdle
  | PMark t =>
      x ← th t;
      set_th t (λ x, x <| in_pool := true |>) ;;
      if in_pool x then fail (Aborted push_twice_msg) else mret (PClear t)
  | PClear t => store_next (Qn t) None ;; mret (PXchg t)
  | PXchg t => prev ← xchg_tail (Qn t); mret (PLink t prev)
  | PLink t prev => store_next prev (Some (Qn t)) ;; mret (PTail WCount)
  | PTail w => r ← wake_step w; mret (match r with Some w => PTail w | None => PIdle end)
  end.

(** [pop_mpsc]; [head] is only accessed under the lock, so its accesses are
    part of the step next to them.  [CIdle r]: the lock is free, [r] is what the
    last pop returned. *)
Inductive cpoint : Type :=
  | CIdle (r : option ptr)
  | CHead
  | CSkip (next : qref)
  | CLast (h : qref)
  | CClear (h : qref)
  | CXchg (h : qref)
  | CLink (h prev : qref)
  | CReload (h : qref)
  | CDetach (h next : qref)
  | CUnmark (t : ptr).
Definition pop_step (c : cpoint) : M pst cpoint :=
  match c with
  | CIdle r => mret (CIdle r)
  | CHead =>
      p ← self;
      next ← load_next (q_head p);
      mret (match q_head p, next with
            | Stub, None => CIdle None
            | Stub, Some n => CSkip n
            | h, Some n => CDetach h n
            | h, None => CLast h
            end)
  | CSkip n =>
      set_self (λ p, p <| q_head := n |>) ;;
      next ← load_next n;
      mret (match next with Some n' => CDetach n n' | None => CLast n end)
  | CLast h => p ← self; mret (if bool_decide (h ≠ q_tail p) then CIdle None else CClear h)
  | CClear h => store_next Stub None ;; mret (CXchg h)
  | CXchg h => prev ← xchg_tail Stub; mret (CLink h prev)
  | CLink h prev => store_next prev (Some Stub) ;; mret (CReload h)
  | CReload h => next ← load_next h; mret (match next with Some n => CDetach h n | None => CIdle None end)
  | CDetach h next =>
      set_self (λ p, p <| q_head := next |>) ;;
      match owner h with
      | None => fail BadDeref
      | Some t => set_th t (λ x, x <| in_pool := false |>) ;; mret (CUnmark t)
      end
  | CUnmark t =>
      x ← th t;
      set_th t (λ x, x <| removed := false |>) ;;
      mret (if removed x then CHead else CIdle (Some t))
  end.
(** [count.fetch_sub(1)], after [lk.unlock()] *)
Definition count_down : M pst unit := set_self (λ p, p <| count ::= Z.pred |>).

(** ** The machine *)

Record mst : Type := mk_mst {
  mp : pst;
  prods : gmap Z ppoint;
  cons_ : cpoint;
  pushed : list ptr;
  taken : list ptr;
  popped : list ptr;
  skipped : list ptr;
  dropped : list ptr;
  owed : nat;
  busy : bool;
}.
#[global] Instance eta_mst : Eta mst := λ j, mk_mst (mp j) (prods j) (cons_ j) (pushed j) (taken j) (popped j) (skipped j) (dropped j) (owed j) (busy j).

Definition linking (p : ppoint) : bool := match p with PLink _ _ => true | _ => false end.
Definition some_linking (j : mst) : bool := existsb (λ ap : Z * ppoint, linking ap.2) (map_to_list (prods j)).
Definition swaps (p : ppoint) : list ptr := match p with PXchg t => [t] | _ => [] end.
Definition detaches (c : cpoint) : list ptr := match c with CDetach h _ => default [] (t ← owner h; Some [t]) | _ => [] end.
Definition returns (c c' : cpoint) : list ptr := match c, c' with CUnmark t, CIdle _ => [t] | _, _ => [] end.
Definition skips (c c' : cpoint) : list ptr := match c, c' with CUnmark t, CHead => [t] | _, _ => [] end.
Definition touches (p : ppoint) : bool := match p with PXchg _ | PLink _ _ => true | _ => false end.

(** What the queue looks at in a thread. *)
Definition node_of (x : ABTI_thread) : option qref * bool * bool := (qn_next x, in_pool x, removed x).
Inductive qstep (j : mst) : mst → Prop :=
  | qstep_begin a t : prods j !! a = Some PIdle → qstep j (j <| prods ::= insert a (PMark t) |>)
  | qstep_push a p p' s' : prods j !! a = Some p → push_step p (mp j) = Done p' s' →
      qstep j (j <| mp := s' |> <| prods ::= insert a p' |> <| pushed ::= λ l, l ++ swaps p |> <| busy ::= orb (touches p) |>)
  | qstep_enter r : cons_ j = CIdle r → qstep j (j <| cons_ := CHead |> <| busy := some_linking j |>)
  | qstep_pop c' s' : pop_step (cons_ j) (mp j) = Done c' s' →
      qstep j (j <| mp := s' |> <| cons_ := c' |> <| taken ::= λ l, l ++ detaches (cons_ j) |>
        <| popped ::= λ l, l ++ returns (cons_ j) c' |> <| skipped ::= λ l, l ++ skips (cons_ j) c' |>
        <| owed ::= Nat.add (length (returns (cons_ j) c')) |>)
  (** [ABT_pool_remove] of a queued unit, under the lock *)
  | qstep_remove r t x b s' : cons_ j = CIdle r → heap (mp j) !! t = Some x → in_pool x = true → t_pool x = Some (addr (mp j)) →
      mpsc_drop t (mp j) = Done b s' →
      qstep j (j <| mp := s' |> <| dropped ::= λ l, l ++ (if b : bool then [t] else []) |>
        <| owed ::= Nat.add (if b then 1 else 0) |>)
  (** a pop or a removal counts its unit off *)
  | qstep_count n s' : owed j = S n → count_down (mp j) = Done tt s' → qstep j (j <| mp := s' |> <| owed := n |>)
  (** the rest of the program: other fields of threads, new threads, and the end
      of a thread that is in no pool and that the pop has let go of *)
  | qstep_env h : (∀ t, node_of <$> h !! t = node_of <$> heap (mp j) !! t ∨
        heap (mp j) !! t = None ∧ ∃ x, h !! t = Some x ∧ in_pool x = false ∧ removed x = false) →
      qstep j (j <| mp ::= λ s, with_heap s h |>)
  | qstep_free t x : heap (mp j) !! t = Some x → in_pool x = false → removed x = false → cons_ j ≠ CUnmark t →
      qstep j (j <| mp ::= λ s, with_heap s (delete t (heap s)) |>)
  | qstep_aside o : aside o = aside (this (mp j)) → masks_wf (smask o) → qstep j (j <| mp ::= λ s, with_this s o |>).
Definition mstart (s : pst) (agents : gset Z) : mst := mk_mst s (gset_to_gmap PIdle agents) (CIdle None) [] [] [] [] [] 0 false.

(** *** Runs *)

Inductive mlabel : Type :=
  | MBegin (a : Z) (t : ptr)
  | MPush (a : Z)
  | MEnter
  | MPop
  | MRemove (t : ptr)
  | MCount.
Definition mdo (l : mlabel) (j : mst) : option mst :=
  match l with
  | MBegin a t => match prods j !! a with Some PIdle => Some (j <| prods ::= insert a (PMark t) |>) | _ => None end
  | MPush a =>
      match prods j !! a with
      | None => None
      | Some p =>
          match push_step p (mp j) with
          | Done p' s' => Some (j <| mp := s' |> <| prods ::= insert a p' |> <| pushed ::= λ l, l ++ swaps p |> <| busy ::= orb (touches p) |>)
          | _ => None
          end
      end
  | MEnter => match cons_ j with CIdle _ => Some (j <| cons_ := CHead |> <| busy := some_linking j |>) | _ => None end
  | MPop =>
      match pop_step (cons_ j) (mp j) with
      | Done c' s' => Some (j <| mp := s' |> <| cons_ := c' |> <| taken ::= λ l, l ++ detaches (cons_ j) |>
          <| popped ::= λ l, l ++ returns (cons_ j) c' |> <| skipped ::= λ l, l ++ skips (cons_ j) c' |>
          <| owed ::= Nat.add (length (returns (cons_ j) c')) |>)
      | _ => None
      end
  | MRemove t =>
      match cons_ j, heap (mp j) !! t with
      | CIdle _, Some x =>
          if in_pool x && bool_decide (t_pool x = Some (addr (mp j))) then
            match mpsc_drop t (mp j) with
            | Done b s' => Some (j <| mp := s' |> <| dropped ::= λ l, l ++ (if b : bool then [t] else []) |>
                <| owed ::= Nat.add (if b then 1 else 0) |>)
            | _ => None
            end
          else None
      | _, _ => None
      end
  | MCount =>
      match owed j, count_down (mp j) with S n, Done _ s' => Some (j <| mp := s' |> <| owed := n |>) | _, _ => None end
  end.
Fixpoint mrun (ls : list mlabel) (j : mst) : option mst :=
  match ls with [] => Some j | l :: ls => j' ← mdo l j; mrun ls j' end.
Lemma mdo_sound l j j' : mdo l j = Some j' → qstep j j'.
Proof.
  destruct l as [a t|a| | |t|]; intros Hd; [simpl in Hd..|].
  - destruct (prods j !! a) as [[]|] eqn:Ha; simplify_eq. by apply qstep_begin.
  - destruct (prods j !! a) as [p|] eqn:Ha; [|done]. destruct (push_step p (mp j)) as [p' s'|] eqn:Hs; simplify_eq.
    by eapply qstep_push.
  - destruct (cons_ j) eqn:Hc; simplify_eq. by eapply qstep_enter.
  - destruct (pop_step (cons_ j) (mp j)) as [c' s'|] eqn:Hs; simplify_eq. by eapply qstep_pop.
  - destruct (cons_ j) eqn:Hc; try done. destruct (heap (mp j) !! t) as [x|] eqn:Hx; [|done].
    destruct (in_pool x) eqn:Hin; [|done]. case_bool_decide as Hp; [|done]. cbn [andb] in Hd. destruct (mpsc_drop t (mp j)) as [b s'|] eqn:Hs; simplify_eq. by eapply qstep_remove.
  - cbn [mdo] in Hd. destruct (owed j) as [|n] eqn:Ho; [done|]. destruct (count_down (mp j)) as [[] s'|] eqn:Hc; simplify_eq. by eapply qstep_count.
Qed.
Lemma mrun_sound ls j j' : mrun ls j = Some j' → rtc qstep j j'.
Proof.
  revert j. induction ls as [|l ls IH]; intros j; simpl; [by intros [= ->]|].
  destruct (mdo l j) as [j1|] eqn:Hl; [|done]. intros Hr. eapply rtc_l; [by eapply mdo_sound|by apply IH].
Qed.
