(* ===== verification/MpscSafe.v ===== *)
(** * The lock-free queue is a queue

    Invariant of the machine of [MpscConc]: the nodes from [head] to [tail] are a
    chain in which only the links of pushes under way are missing, the stub is in
    it at most once, and what each push and the pop is about to do fits it.  Every
    step keeps it; what follows from it is in [MpscSpec]. *)

From S2P Require Import Prelude AbtTypes Objects Storage PoolList Sleepers WakeSteps PoolMpsc MpscConc.

Implicit Types (s : pst) (j : mst) (q r : list qref) (t : ptr) (h n z : qref) (p : ppoint) (c : cpoint).

(** ** Neighbours in a list *)

Definition adj q (y z : qref) : Prop := ∃ i, q !! i = Some y ∧ q !! S i = Some z.
Lemma adj_snoc q y z x : adj (q ++ [x]) y z → adj q y z ∨ last q = Some y ∧ z = x.
Proof.
  intros (i & Hy & Hz). destruct (decide (S i < length q)%nat) as [Hi|Hi].
  - left. exists i. rewrite !lookup_app_l in * by lia. done.
  - pose proof (lookup_lt_Some _ _ _ Hz) as Hl. rewrite length_app in Hl. simpl in Hl.
    assert (S i = length q) as Ei by lia. rewrite lookup_app_l in Hy by lia.
    rewrite Ei, lookup_app_r, Nat.sub_diag in Hz by lia. right. split; [|naive_solver].
    rewrite last_lookup. by replace (Nat.pred (length q)) with i by lia.
Qed.
Lemma adj_app q x y z : adj q y z → adj (q ++ [x]) y z.
Proof. intros (i & Hy & Hz). exists i. by rewrite !lookup_app_l by (eapply lookup_lt_Some; eauto). Qed.
Lemma adj_last q y z : last q = Some y → adj (q ++ [z]) y z.
Proof.
  intros Hl. rewrite last_lookup in Hl. pose proof (lookup_lt_Some _ _ _ Hl). exists (Nat.pred (length q)).
  rewrite lookup_app_l by lia. split; [done|]. replace (S (Nat.pred (length q))) with (length q) by lia.
  by rewrite lookup_app_r, Nat.sub_diag by lia.
Qed.
Lemma adj_cons x q y z : adj q y z → adj (x :: q) y z.
Proof. intros (i & ? & ?). by exists (S i). Qed.
Lemma adj_head x y r : adj (x :: y :: r) x y.
Proof. by exists 0%nat. Qed.
Lemma adj_tail x q y z : y ≠ x → adj (x :: q) y z → adj q y z.
Proof. intros Hne ([|i] & Hy & Hz); [simpl in Hy; congruence|]. by exists i. Qed.
Lemma adj_in q y z : adj q y z → y ∈ q ∧ z ∈ q.
Proof. intros (i & ? & ?). split; by eapply list_elem_of_lookup_2. Qed.
Lemma adj_fun q y z z' : NoDup q → adj q y z → adj q y z' → z = z'.
Proof. intros Hn (i & Hy & Hz) (k & Hy' & Hz'). assert (i = k) as <- by (by eapply NoDup_lookup). congruence. Qed.
Lemma adj_not_last q y z : NoDup q → adj q y z → last q ≠ Some y.
Proof.
  intros Hn (i & Hy & Hz) Hl. rewrite last_lookup in Hl. assert (i = Nat.pred (length q)) as -> by (by eapply NoDup_lookup).
  apply lookup_lt_Some in Hz. lia.
Qed.
Lemma adj_head_inv x r z : NoDup (x :: r) → adj (x :: r) x z → head r = Some z.
Proof.
  intros Hn (i & Hx & Hz). assert (i = 0%nat) as -> by (by eapply NoDup_lookup). by destruct r.
Qed.

(** ** Memory *)

Definition nxt s (y : qref) : option (option qref) :=
  match y with Stub => Some (stub_next (this s)) | Qn t => qn_next <$> heap s !! t end.
Definition inq s t : option bool := in_pool <$> heap s !! t.

(** [s'] knows what [s] knows of the queue. *)
Record knows s s' : Prop := {
  kn_next y v : nxt s y = Some v → nxt s' y = Some v;
  kn_inq t b : inq s t = Some b → inq s' t = Some b;
  kn_head : q_head (this s') = q_head (this s);
  kn_tail : q_tail (this s') = q_tail (this s);
}.
(** ... but for the field [next] of [z]. *)
Record writes z v s s' : Prop := {
  wr_here : nxt s' z = Some v;
  wr_next y : y ≠ z → nxt s' y = nxt s y;
  wr_inq t : inq s' t = inq s t;
  wr_head : q_head (this s') = q_head (this s);
  wr_tail : q_tail (this s') = q_tail (this s);
}.
Lemma knows_refl s : knows s s.
Proof. by split. Qed.
Lemma same_knows s s' : (∀ t, qn_next <$> heap s' !! t = qn_next <$> heap s !! t) → (∀ t, inq s' t = inq s t) →
  stub_next (this s') = stub_next (this s) → q_head (this s') = q_head (this s) → q_tail (this s') = q_tail (this s) → knows s s'.
Proof. intros Hn Hi Hs ? ?. split; [|intros t b; by rewrite Hi|done..]. intros [|t] v; simpl; [by rewrite Hs|by rewrite Hn]. Qed.
Lemma load_next_Done y s v s' : load_next y s = Done v s' → s' = s ∧ nxt s y = Some v.
Proof.
  destruct y as [|t]; simpl; unfold mbind, M_bind, self, gets, th, mret, M_ret; [naive_solver|].
  destruct (heap s !! t); naive_solver.
Qed.
Lemma store_next_Done z v s u s' : store_next z v s = Done u s' → writes z v s s'.
Proof.
  destruct z as [|t]; simpl; unfold set_self, modify, set_th.
  - intros [= <- <-]. split; [done| |done..]. intros [|t] Hne; [done|done].
  - destruct (heap s !! t) as [x|] eqn:Hx; [|done]. intros [= <- <-]. split; simpl; try done.
    + by rewrite lookup_insert_eq.
    + intros [|t'] Hne; [done|]. simpl. by rewrite lookup_insert_ne by congruence.
    + intros t'. unfold inq. simpl. destruct (decide (t = t')) as [<-|]; [by rewrite lookup_insert_eq, Hx|by rewrite lookup_insert_ne].
Qed.
Lemma set_th_knows t f s s' : (∀ x, qn_next (f x) = qn_next x) → (∀ x, in_pool (f x) = in_pool x) →
  set_th t f s = Done tt s' → knows s s'.
Proof.
  intros Hn Hi. unfold set_th. destruct (heap s !! t) as [x|] eqn:Hx; [|done]. intros [= <-]. apply same_knows; simpl; try done.
  - intros t'. destruct (decide (t = t')) as [<-|]; [by rewrite lookup_insert_eq, Hx; simpl; rewrite Hn|by rewrite lookup_insert_ne].
  - intros t'. unfold inq. simpl. destruct (decide (t = t')) as [<-|]; [by rewrite lookup_insert_eq, Hx; simpl; rewrite Hi|by rewrite lookup_insert_ne].
Qed.
Lemma set_mark_Done t b s u s' : set_th t (λ x, x <| in_pool := b |>) s = Done u s' →
  (∀ y, nxt s' y = nxt s y) ∧ inq s' t = Some b ∧ (∀ t', t' ≠ t → inq s' t' = inq s t') ∧ this s' = this s.
Proof.
  unfold set_th. destruct (heap s !! t) as [x|] eqn:Hx; [|done]. intros [= _ <-]. split_and!; simpl; [| | |done].
  - intros [|t']; [done|]. simpl. destruct (decide (t = t')) as [<-|]; [by rewrite lookup_insert_eq, Hx|by rewrite lookup_insert_ne].
  - unfold inq. simpl. by rewrite lookup_insert_eq.
  - intros t' Hne. unfold inq. simpl. by rewrite lookup_insert_ne by congruence.
Qed.

(** ** The nodes of the queue *)

(** [q]: the nodes from [head] to [tail]; [pend y z]: [z] is behind [y], and the
    link is still to be written. *)
Record qshape s (pend : qref → qref → Prop) q : Prop := {
  qh_head : head q = Some (q_head (this s));
  qh_tail : last q = Some (q_tail (this s));
  qh_nodup : NoDup q;
  qh_last z : last q = Some z → nxt s z = Some None;
  qh_link y z : adj q y z → nxt s y = Some (Some z) ∨ nxt s y = Some None ∧ pend y z;
  qh_marked t : Qn t ∈ q → inq s t = Some true;
}.
Lemma qshape_knows s s' (P P' : qref → qref → Prop) q : knows s s' → (∀ y z, adj q y z → P y z → P' y z) → qshape s P q → qshape s' P' q.
Proof.
  intros [Kn Ki Kh Kt] HP [H1 H2 H3 H4 H5 H6]. split; [by rewrite Kh|by rewrite Kt|done|auto| |auto].
  intros y z Hyz. destruct (H5 y z Hyz) as [?|[? ?]]; [left; auto|right; auto].
Qed.
(** a field outside the queue *)
Lemma qshape_outside s s' P q z v : writes z v s s' → z ∉ q → qshape s P q → qshape s' P q.
Proof.
  intros [Wz Wn Wi Wh Wt] Hz [H1 H2 H3 H4 H5 H6].
  assert (∀ y, y ∈ q → nxt s' y = nxt s y) as Hsame by (intros y Hy; apply Wn; congruence).
  split; [by rewrite Wh|by rewrite Wt|done| | |intros t; rewrite Wi; auto].
  - intros y Hy. rewrite Hsame; [auto|]. rewrite last_lookup in Hy. by eapply list_elem_of_lookup_2.
  - intros y z' Hyz. rewrite Hsame by apply (adj_in _ _ _ Hyz). auto.
Qed.
(** [tail.exchange(z)] *)
Lemma qshape_snoc s s' (P P' : qref → qref → Prop) q z : knows s (with_this s' (this s' <| q_tail := q_tail (this s) |>)) → q_tail (this s') = z →
  z ∉ q → nxt s z = Some None → (∀ t, z = Qn t → inq s t = Some true) →
  (∀ y y', adj q y y' → P y y' → P' y y') → P' (q_tail (this s)) z → qshape s P q → qshape s' P' (q ++ [z]).
Proof.
  intros [Kn Ki Kh _] Ez Hz Hzn Hzm HP HPz [H1 H2 H3 H4 H5 H6]. simpl in *.
  assert (∀ y v, nxt s y = Some v → nxt s' y = Some v) as Kn' by (intros [|t] v Hv; apply (Kn _ _ Hv)).
  assert (∀ t b, inq s t = Some b → inq s' t = Some b) as Ki' by (intros t b Hv; apply (Ki _ _ Hv)).
  split.
  - rewrite Kh. by destruct q.
  - by rewrite last_snoc, Ez.
  - apply NoDup_app. split_and!; [done|set_solver|apply NoDup_singleton].
  - intros y. rewrite last_snoc. intros [= <-]. auto.
  - intros y y' [Hy|[Hy ->]]%adj_snoc; [destruct (H5 _ _ Hy) as [?|[? ?]]; [left; auto|right; auto]|].
    right. split; [auto|]. assert (y = q_tail (this s)) as -> by congruence. done.
  - intros t [Ht|Ht%list_elem_of_singleton]%elem_of_app; auto.
Qed.
(** the link that was missing *)
Lemma qshape_link s s' (P P' : qref → qref → Prop) q y z : writes y (Some z) s s' → adj q y z →
  (∀ a b, adj q a b → a ≠ y → P a b → P' a b) → qshape s P q → qshape s' P' q.
Proof.
  intros [Wz Wn Wi Wh Wt] Hyz HP [H1 H2 H3 H4 H5 H6]. split; [by rewrite Wh|by rewrite Wt|done| | |intros t; rewrite Wi; auto].
  - intros x Hx. rewrite Wn; [auto|]. intros ->. by eapply adj_not_last.
  - intros a b Hab. destruct (decide (a = y)) as [->|Hne].
    + left. by rewrite (adj_fun q y b z H3 Hab Hyz).
    + rewrite Wn by done. destruct (H5 a b Hab) as [?|[? ?]]; [by left|right; auto].
Qed.
(** [head = n] *)
Lemma qshape_drop s s' (P P' : qref → qref → Prop) h n r : (∀ y, nxt s' y = nxt s y) → (∀ t, Qn t ∈ n :: r → inq s' t = inq s t) →
  q_head (this s') = n → q_tail (this s') = q_tail (this s) → (∀ y z, adj (n :: r) y z → P y z → P' y z) →
  qshape s P (h :: n :: r) → qshape s' P' (n :: r).
Proof.
  intros En Ei Eh Et HP [H1 H2 H3 H4 H5 H6]. split.
  - by rewrite Eh.
  - by rewrite Et.
  - by apply NoDup_cons in H3 as [_ ?].
  - intros z Hz. rewrite En. by apply H4.
  - intros y z Hyz. rewrite En. destruct (H5 y z (adj_cons _ _ _ _ Hyz)) as [?|[? ?]]; [by left|right; auto].
  - intros t Ht. rewrite Ei by done. apply H6. by right.
Qed.
Lemma qshape_next s P h r v : qshape s P (h :: r) → nxt s h = Some (Some v) → ∃ r', r = v :: r'.
Proof.
  intros [H1 H2 H3 H4 H5 H6] Hv. destruct r as [|z r].
  - specialize (H4 h eq_refl). congruence.
  - destruct (H5 h z (adj_head _ _ _)) as [Hn|[Hn _]]; [|congruence]. exists r. congruence.
Qed.

(** ** The points *)

(** the unit an agent is putting into the queue *)
Definition holder p : option ptr := match p with PClear t | PXchg t | PLink t _ => Some t | _ => None end.
Definition prod_ok s q p : Prop :=
  match p with
  | PClear t => inq s t = Some true ∧ (Qn t ∉ q)
  | PXchg t => inq s t = Some true ∧ (Qn t ∉ q) ∧ nxt s (Qn t) = Some None
  | PLink t prev => adj q prev (Qn t) ∧ nxt s prev = Some None
  | PTail w => wpoint_ok w
  | _ => True
  end.
Definition cons_ok s q (bz : bool) c : Prop :=
  match c with
  | CIdle _ | CHead => True
  | CSkip n => ∃ r, q = Stub :: n :: r ∧ nxt s Stub = Some (Some n)
  | CLast h => ∃ r, q = h :: r ∧ h ≠ Stub ∧ (nxt s h = Some None ∨ bz = true)
  | CClear h => ∃ r, q = h :: r ∧ h ≠ Stub ∧ (Stub ∉ q)
  | CXchg h => ∃ r, q = h :: r ∧ h ≠ Stub ∧ (Stub ∉ q) ∧ nxt s Stub = Some None
  | CLink h prev => ∃ r, q = h :: r ∧ h ≠ Stub ∧ adj q prev Stub ∧ nxt s prev = Some None
  | CReload h => ∃ n r, q = h :: n :: r ∧ h ≠ Stub
  | CDetach h n => ∃ r, q = h :: n :: r ∧ h ≠ Stub ∧ nxt s h = Some (Some n)
  | CUnmark t => is_Some (heap s !! t)
  end.
Definition in_hand c : list ptr := match c with CUnmark t => [t] | _ => [] end.
Definition cons_pend c (y z : qref) : Prop := ∃ h, z = Stub ∧ c = CLink h y.
Definition pending_link j y z : Prop :=
  (∃ a t, z = Qn t ∧ prods j !! a = Some (PLink t y)) ∨ cons_pend (cons_ j) y z.

Record minv j q : Prop := {
  mi_shape : qshape (mp j) (pending_link j) q;
  mi_prods a p : prods j !! a = Some p → prod_ok (mp j) q p;
  mi_alone a a' p p' t : a ≠ a' → prods j !! a = Some p → prods j !! a' = Some p' → holder p = Some t → holder p' ≠ Some t;
  mi_cons : cons_ok (mp j) q (busy j) (cons_ j);
  mi_hist : pushed j = taken j ++ owners q;
  mi_popped : popped j ++ in_hand (cons_ j) `sublist_of` taken j;
  mi_lost : taken j ≡ₚ popped j ++ skipped j ++ in_hand (cons_ j);
  mi_busy : (∀ ret, cons_ j ≠ CIdle ret) → (∃ a p, prods j !! a = Some p ∧ linking p = true) → busy j = true;
}.

Lemma prod_ok_knows s s' q p : knows s s' → prod_ok s q p → prod_ok s' q p.
Proof. intros [Kn Ki _ _]. destruct p; cbn [prod_ok]; try done.
  - intros [??]. auto.
  - intros (?&?&?). auto.
  - intros [??]. auto.
Qed.
Lemma cons_ok_knows s s' q bz c : knows s s' → cons_ok s q bz c → cons_ok s' q bz c.
Proof.
  intros [Kn Ki _ _]. destruct c; simpl; try done.
  - intros (r & -> & Hn). exists r. split; [done|]. by apply (Kn Stub).
  - intros (r & -> & Hh & [Hn|Hb]); exists r; auto.
  - intros (r & -> & Hh & Hs & Hn). exists r. split_and!; [done..|]. by apply (Kn Stub).
  - intros (r & -> & Hh & Ha & Hn). exists r. auto.
  - intros (r & -> & Hh & Hn). exists r. auto.
  - intros [x Hx]. specialize (Ki t (in_pool x)). unfold inq in Ki. rewrite Hx in Ki. specialize (Ki eq_refl).
    destruct (heap s' !! t); [by eexists|done].
Qed.

(** ** Steps of a push *)

Definition after_push j a p p' s' : mst :=
  j <| mp := s' |> <| prods ::= insert a p' |> <| pushed ::= λ l, l ++ swaps p |> <| busy ::= orb (touches p) |>.
Lemma push_move j a p p' s' q q' : minv j q → prods j !! a = Some p →
  qshape s' (pending_link (after_push j a p p' s')) q' → prod_ok s' q' p' →
  (∀ b pb, b ≠ a → prods j !! b = Some pb → prod_ok s' q' pb) →
  (∀ b pb t, b ≠ a → prods j !! b = Some pb → holder p' = Some t → holder pb ≠ Some t) →
  cons_ok s' q' (touches p || busy j) (cons_ j) → owners q' = owners q ++ swaps p →
  (linking p' = true → touches p = true) → minv (after_push j a p p' s') q'.
Proof.
  intros [J1 J2 J3 J4 J5 J6 JL J7] Ha Hq Hp Hps Hal Hc Ho Hl. split; simpl.
  - exact Hq.
  - intros b pb. destruct (decide (a = b)) as [<-|Hne]; [rewrite lookup_insert_eq; by intros [= <-]|rewrite lookup_insert_ne by done; by eapply Hps].
  - intros b b' pb pb' t Hne. destruct (decide (a = b)) as [<-|Hb].
    + rewrite lookup_insert_eq, lookup_insert_ne by done. intros [= <-]. by eapply Hal.
    + rewrite lookup_insert_ne by done. destruct (decide (a = b')) as [<-|Hb']; [|rewrite lookup_insert_ne by done; by eapply J3].
      rewrite lookup_insert_eq. intros Hpb [= <-] Hh Hh'. by eapply (Hal b pb t).
  - exact Hc.
  - by rewrite J5, Ho, app_assoc.
  - exact J6.
  - exact JL.
  - intros Hi (b & pb & Hb & Hlb). destruct (decide (a = b)) as [<-|Hne].
    + rewrite lookup_insert_eq in Hb. injection Hb as <-. by rewrite Hl.
    + rewrite lookup_insert_ne in Hb by done. rewrite (J7 Hi); [by rewrite orb_true_r|]. by exists b, pb.
Qed.
(** another agent's missing links stay *)
Lemma pending_other j a p p' s' y z : prods j !! a = Some p → (∀ t, p = PLink t y → z ≠ Qn t) →
  pending_link j y z → pending_link (after_push j a p p' s') y z.
Proof.
  intros Ha Hp [(b & t & -> & Hb)|Hc]; [|by right]. left. exists b, t. split; [done|]. simpl.
  rewrite lookup_insert_ne; [done|]. intros ->. assert (p = PLink t y) as E by congruence. by apply (Hp t E).
Qed.
(** the points outside the queue, and those that change nothing in it *)
Lemma push_quiet j a p p' s' q : minv j q → prods j !! a = Some p → linking p = false → linking p' = false → swaps p = [] → touches p = false →
  knows (mp j) s' → prod_ok s' q p' → (∀ b pb t, b ≠ a → prods j !! b = Some pb → holder p' = Some t → holder pb ≠ Some t) →
  minv (after_push j a p p' s') q.
Proof.
  intros HJ Ha Hl Hl' Hsw Ht K Hp Hal. pose proof HJ as [J1 J2 J3 J4 J5 J6 JL J7]. eapply push_move; try done.
  - eapply qshape_knows; [exact K| |exact J1]. intros y z _. apply (pending_other j a p); [done|]. by intros t ->.
  - intros b pb _ Hb. eapply prod_ok_knows; [exact K|by eapply J2].
  - rewrite Ht. by eapply cons_ok_knows.
  - by rewrite Hsw, app_nil_r.
  - congruence.
Qed.
Lemma mbegin_inv j a t q : minv j q → prods j !! a = Some PIdle → minv (j <| prods ::= insert a (PMark t) |>) q.
Proof.
  intros HJ Ha. assert (j <| prods ::= insert a (PMark t) |> = after_push j a PIdle (PMark t) (mp j)) as ->.
  { destruct j. unfold after_push, upd. simpl. by rewrite app_nil_r. }
  eapply (push_quiet _ _ PIdle); done.
Qed.
Lemma holder_marked s q p t : qshape s (λ _ _, True) q → prod_ok s q p → holder p = Some t → inq s t = Some true.
Proof.
  intros Hq. destruct p as [|?|?|?|u prev|?]; simpl; try done.
  - intros [? _] [= ->]. done.
  - intros (? & _) [= ->]. done.
  - intros [Ha _] [= ->]. by apply (qh_marked _ _ _ Hq), (adj_in _ _ _ Ha).
Qed.
Lemma qshape_any s P q : qshape s P q → qshape s (λ _ _, True) q.
Proof. by apply qshape_knows; [apply knows_refl|]. Qed.
Lemma free_not_held j q t : minv j q → inq (mp j) t = Some false →
  (Qn t ∉ q) ∧ ∀ b pb, prods j !! b = Some pb → holder pb ≠ Some t.
Proof.
  intros HJ Hf. split.
  - intros Ht%(qh_marked _ _ _ (mi_shape _ _ HJ)). congruence.
  - intros b pb Hb Hh. pose proof (holder_marked _ _ _ _ (qshape_any _ _ _ (mi_shape _ _ HJ)) (mi_prods _ _ HJ b pb Hb) Hh). congruence.
Qed.

Lemma mark_step_inv j a t q p' s' : minv j q → prods j !! a = Some (PMark t) → push_step (PMark t) (mp j) = Done p' s' →
  minv (after_push j a (PMark t) p' s') q.
Proof.
  intros HJ Ha Hst. cbn [push_step] in Hst. apply bind_Done in Hst as (x & s1 & Hx & Hst).
  unfold th in Hx. destruct (heap (mp j) !! t) as [y|] eqn:Hy; [|done]. injection Hx as <- <-.
  apply bind_Done in Hst as ([] & s1 & Hs & Hst). destruct (in_pool y) eqn:Hin; [done|]. injection Hst as <- <-.
  assert (inq (mp j) t = Some false) as Hf by (unfold inq; by rewrite Hy; simpl; rewrite Hin).
  destruct (free_not_held j q t HJ Hf) as [Hnq Hnh]. apply set_mark_Done in Hs as (En & Et & Ei & Eth).
  pose proof HJ as [J1 J2 J3 J4 J5 J6 JL J7]. eapply push_move; try done.
  - destruct J1 as [H1 H2 H3 H4 H5 H6]. split; rewrite ?Eth; try done.
    + intros z Hz. rewrite En. auto.
    + intros y' z Hyz. rewrite En. destruct (H5 y' z Hyz) as [?|[? Hp]]; [by left|right]. split; [done|].
      by apply (pending_other j a (PMark t)).
    + intros u Hu. rewrite Ei; [auto|]. by intros ->.
  - intros b pb Hne Hb. specialize (J2 b pb Hb). specialize (Hnh b pb Hb). destruct pb as [|u|u|u|u prev|u]; simpl in *; try done.
    + rewrite Ei; [done|]. by intros ->.
    + pose proof (En (Qn u)) as Eu. simpl in Eu. rewrite Eu, Ei; [done|]. by intros ->.
    + by rewrite En.
  - intros b pb u Hne Hb [= <-]. by eapply Hnh.
  - simpl. destruct (cons_ j); simpl in *; try done.
    + destruct J4 as (r & -> & Hn). exists r. by rewrite Eth.
    + destruct J4 as (r & -> & Hh & Hn). exists r. by rewrite En.
    + destruct J4 as (r & -> & Hh & Hs & Hn). exists r. by rewrite Eth.
    + destruct J4 as (r & -> & Hh & Hs & Hn). exists r. by rewrite En.
    + destruct J4 as (r & -> & Hh & Hn). exists r. by rewrite En.
    + unfold inq in Ei, Et. destruct (decide (t0 = t)) as [->|Hne]; [destruct (heap s1 !! t); [by eexists|done]|].
      specialize (Ei t0 Hne). destruct J4 as [z Hz]. rewrite Hz in Ei. destruct (heap s1 !! t0); [by eexists|done].
  - by rewrite app_nil_r.
Qed.
(** A store to the own node before it is in the queue, or to the node in front. *)
Definition push_writes s q (bz : bool) z : Prop :=
  (z ∉ q) ∧ z ≠ Stub ∨ (∃ t, adj q z (Qn t)) ∧ nxt s z = Some None ∧ bz = true.
Lemma writes_alive z v s s' t : writes z v s s' → is_Some (heap s !! t) → is_Some (heap s' !! t).
Proof.
  intros [_ _ Wi _ _] [x Hx]. specialize (Wi t). unfold inq in Wi. rewrite Hx in Wi. destruct (heap s' !! t); [by eexists|done].
Qed.
Lemma cons_ok_writes s s' q bz z v c : writes z v s s' → NoDup q → push_writes s q bz z → cons_ok s q bz c → cons_ok s' q bz c.
Proof.
  intros W Hnd Hz. pose proof W as [Wz Wn Wi _ _].
  assert (∀ y n, y ∈ q → nxt s y = Some (Some n) → nxt s' y = Some (Some n)) as Hsome.
  { intros y n Hy Hn. rewrite Wn; [done|]. intros ->. destruct Hz as [[? _]|(_ & ? & _)]; [done|congruence]. }
  assert (∀ y, y ∈ q → nxt s y = Some None ∨ bz = true → nxt s' y = Some None ∨ bz = true) as Hnone.
  { intros y Hy [Hn|?]; [|by right]. destruct Hz as [[? _]|(_ & _ & ?)]; [left; rewrite Wn; [done|congruence]|by right]. }
  destruct c as [?| |n|h|h|h|h prev|h|h n|t]; cbn [cons_ok]; try done.
  - intros (r & -> & Hn). exists r. split; [done|]. apply Hsome; [by left|done].
  - intros (r & -> & Hh & Hn). exists r. split_and!; [done..|]. apply Hnone; [by left|done].
  - intros (r & -> & Hh & Hs & Hn). exists r. split_and!; [done..|]. rewrite Wn; [done|]. intros <-.
    destruct Hz as [[_ ?]|((t & Ha) & _)]; [done|]. by apply adj_in in Ha as [? _].
  - intros (r & Hq & Hh & Ha & Hn). exists r. split_and!; [done..|]. rewrite Wn; [done|]. intros ->.
    destruct Hz as [[Hz _]|((t & Ha') & _)]; [by apply Hz, (adj_in _ _ _ Ha)|]. by pose proof (adj_fun _ _ _ _ Hnd Ha Ha').
  - intros (r & -> & Hh & Hn). exists r. split_and!; [done..|]. apply Hsome; [by left|done].
  - by apply (writes_alive _ _ _ _ _ W).
Qed.
Lemma clear_step_inv j a t q p' s' : minv j q → prods j !! a = Some (PClear t) → push_step (PClear t) (mp j) = Done p' s' →
  minv (after_push j a (PClear t) p' s') q.
Proof.
  intros HJ Ha Hst. cbn [push_step] in Hst. apply bind_Done in Hst as ([] & s1 & Hs & [= <- <-]).
  apply (store_next_Done (Qn t)) in Hs as W. pose proof HJ as [J1 J2 J3 J4 J5 J6 JL J7]. destruct (J2 a _ Ha) as [Hin Hnq].
  pose proof W as [Wz Wn Wi _ _]. eapply push_move; try done.
  - eapply qshape_outside; [exact W|done|]. eapply qshape_knows; [apply knows_refl| |exact J1].
    intros y z _. by apply (pending_other j a (PClear t)).
  - split_and!; [by rewrite Wi|done|done].
  - intros b pb Hne Hb. pose proof (J2 b pb Hb) as Hp. assert (holder pb ≠ Some t) as Hh by (by eapply (J3 a b)).
    destruct pb as [|u|u|u|u prev|u]; cbn [prod_ok] in *; try done; rewrite ?Wi.
    + done.
    + rewrite Wn; [done|]. intros [= ->]. done.
    + destruct Hp as [Hadj Hn]. split; [done|]. rewrite Wn; [done|]. intros ->. by apply Hnq, (adj_in _ _ _ Hadj).
  - intros b pb u Hne Hb [= <-]. by eapply (J3 a b).
  - eapply cons_ok_writes; [exact W|by apply (qh_nodup _ _ _ J1)|by left|done].
  - by rewrite app_nil_r.
Qed.
Lemma xchg_step_inv j a t q p' s' : minv j q → prods j !! a = Some (PXchg t) → push_step (PXchg t) (mp j) = Done p' s' →
  minv (after_push j a (PXchg t) p' s') (q ++ [Qn t]).
Proof.
  intros HJ Ha Hst. injection Hst as <- <-. pose proof HJ as [J1 J2 J3 J4 J5 J6 JL J7]. destruct (J2 a _ Ha) as (Hin & Hnq & Hn).
  set (s' := with_this (mp j) (this (mp j) <| q_tail := Qn t |>)).
  assert (∀ y, nxt s' y = nxt (mp j) y) as En by (by intros []).
  eapply push_move; try done.
  - apply (qshape_snoc (mp j) s' (pending_link j)); [by apply same_knows|done|done|done| | | |done].
    + by intros u [= <-].
    + intros y z _. by apply (pending_other j a (PXchg t)).
    + left. exists a, t. split; [done|]. simpl. by rewrite lookup_insert_eq.
  - cbn [prod_ok]. rewrite En. split; [by apply adj_last, (qh_tail _ _ _ J1)|]. apply (qh_last _ _ _ J1), (qh_tail _ _ _ J1).
  - intros b pb Hne Hb. pose proof (J2 b pb Hb) as Hp. assert (holder pb ≠ Some t) as Hh by (by eapply (J3 a b)).
    destruct pb as [|u|u|u|u prev|u]; cbn [prod_ok] in *; try done; rewrite ?En.
    + destruct Hp as [? Hu]. split; [done|]. intros [?|[= ->]%list_elem_of_singleton]%elem_of_app; done.
    + destruct Hp as (? & Hu & ?). split_and!; [done| |done]. intros [?|[= ->]%list_elem_of_singleton]%elem_of_app; done.
    + destruct Hp as [? ?]. split; [by apply adj_app|done].
  - intros b pb u Hne Hb [= <-]. by eapply (J3 a b).
  - simpl touches. cbn [orb]. destruct (cons_ j) as [?| |n|h|h|h|h prev|h|h n|u]; cbn [cons_ok] in *; rewrite ?En; try done.
    + destruct J4 as (r & -> & ?). by exists (r ++ [Qn t]).
    + destruct J4 as (r & -> & ? & _). exists (r ++ [Qn t]). auto.
    + destruct J4 as (r & -> & ? & ?). exists (r ++ [Qn t]). split_and!; [done..|]. set_solver.
    + destruct J4 as (r & -> & ? & ? & ?). exists (r ++ [Qn t]). split_and!; [done..| |done]. set_solver.
    + destruct J4 as (r & -> & ? & ? & ?). exists (r ++ [Qn t]). split_and!; [done..| |done]. by apply (adj_app (h :: r)).
    + destruct J4 as (n & r & -> & ?). by exists n, (r ++ [Qn t]).
    + destruct J4 as (r & -> & ? & ?). by exists (r ++ [Qn t]).
  - unfold owners. by rewrite omap_app.
Qed.
Lemma cons_ok_busy s q (bz bz' : bool) c : (bz = true → bz' = true) → cons_ok s q bz c → cons_ok s q bz' c.
Proof. intros Hb. destruct c; simpl; try done. intros (r & ? & ? & [?|?]); exists r; auto. Qed.
Lemma link_step_inv j a t prev q p' s' : minv j q → prods j !! a = Some (PLink t prev) → push_step (PLink t prev) (mp j) = Done p' s' →
  minv (after_push j a (PLink t prev) p' s') q.
Proof.
  intros HJ Ha Hst. cbn [push_step] in Hst. apply bind_Done in Hst as ([] & s1 & Hs & [= <- <-]).
  apply store_next_Done in Hs as W. pose proof HJ as [J1 J2 J3 J4 J5 J6 JL J7]. destruct (J2 a _ Ha) as [Hadj Hn].
  pose proof W as [Wz Wn Wi _ _]. pose proof (qh_nodup _ _ _ J1) as Hnd. eapply push_move; try done.
  - eapply qshape_link; [exact W|exact Hadj| |exact J1]. intros y z _ Hne. apply (pending_other j a (PLink t prev)); [done|].
    by intros u [= _ ->].
  - intros b pb Hne Hb. pose proof (J2 b pb Hb) as Hp. assert (holder pb ≠ Some t) as Hh by (by eapply (J3 a b)).
    destruct pb as [|u|u|u|u prev'|u]; cbn [prod_ok] in *; try done; rewrite ?Wi.
    + done.
    + destruct Hp as (? & Hnq & ?). split_and!; [done..|]. rewrite Wn; [done|]. intros <-. by apply Hnq, (adj_in _ _ _ Hadj).
    + destruct Hp as [Hadj' Hn']. split; [done|]. rewrite Wn; [done|]. intros ->.
      pose proof (adj_fun _ _ _ _ Hnd Hadj Hadj') as [= <-]. done.
  - eapply cons_ok_writes; [exact W|exact Hnd| |by eapply cons_ok_busy, J4]. right. split_and!; [by exists t|done|done].
  - by rewrite app_nil_r.
Qed.
Lemma tail_step_inv j a w q p' s' : minv j q → prods j !! a = Some (PTail w) → push_step (PTail w) (mp j) = Done p' s' →
  minv (after_push j a (PTail w) p' s') q.
Proof.
  intros HJ Ha Hst. cbn [push_step] in Hst. apply bind_Done in Hst as (r & s1 & Hw & [= <- <-]).
  apply wake_step_Done in Hw as (_ & Eh & Et & Hr).
  eapply push_quiet; try done; [by destruct r..| | |].
  - apply same_knows; rewrite ?Et; try done; intros u; unfold inq; by rewrite Eh.
  - destruct r as [w'|]; [|done]. apply (Hr w' eq_refl), (mi_prods _ _ HJ a _ Ha).
  - intros b pb t _ _. by destruct r.
Qed.
Lemma push_inv j a p p' s' q : minv j q → prods j !! a = Some p → push_step p (mp j) = Done p' s' →
  ∃ q', minv (after_push j a p p' s') q'.
Proof.
  intros HJ Ha Hst. destruct p as [|t|t|t|t prev|w].
  - injection Hst as <- <-. exists q. by eapply push_quiet.
  - exists q. by apply mark_step_inv.
  - exists q. by apply clear_step_inv.
  - eexists. by apply xchg_step_inv.
  - exists q. by apply link_step_inv.
  - exists q. by apply tail_step_inv.
Qed.

(** ** Steps of a pop *)

Definition after_pop j c' s' : mst :=
  j <| mp := s' |> <| cons_ := c' |> <| taken ::= λ l, l ++ detaches (cons_ j) |> <| popped ::= λ l, l ++ returns (cons_ j) c' |>
    <| skipped ::= λ l, l ++ skips (cons_ j) c' |> <| owed ::= Nat.add (length (returns (cons_ j) c')) |>.
Lemma pop_move j c' s' q q' : minv j q → qshape s' (pending_link (after_pop j c' s')) q' →
  (∀ a p, prods j !! a = Some p → prod_ok s' q' p) → cons_ok s' q' (busy j) c' → owners q = detaches (cons_ j) ++ owners q' →
  in_hand (cons_ j) ++ detaches (cons_ j) = returns (cons_ j) c' ++ skips (cons_ j) c' ++ in_hand c' →
  (∃ ret, c' = CIdle ret) ∨ (∀ ret, cons_ j ≠ CIdle ret) → minv (after_pop j c' s') q'.
Proof.
  intros [J1 J2 J3 J4 J5 J6 JL J7] Hq Hps Hc Ho Hs Hi. split; simpl.
  - exact Hq.
  - exact Hps.
  - exact J3.
  - exact Hc.
  - by rewrite J5, Ho, app_assoc.
  - assert (returns (cons_ j) c' ++ in_hand c' `sublist_of` in_hand (cons_ j) ++ detaches (cons_ j)) as Hsub.
    { rewrite Hs. apply sublist_app; [done|]. by apply sublist_inserts_l. }
    rewrite <-app_assoc. etrans; [by apply sublist_app|]. rewrite app_assoc. by apply sublist_app.
  - rewrite JL, <-!app_assoc, Hs. solve_Permutation.
  - intros Hc'. apply J7. destruct Hi as [[ret ->]|?]; [by destruct (Hc' ret)|done].
Qed.
Lemma pending_pop j c' s' y z : (∀ h, cons_ j ≠ CLink h y ∨ z ≠ Stub) → pending_link j y z → pending_link (after_pop j c' s') y z.
Proof. intros Hc [?|(h & -> & ?)]; [by left|]. by destruct (Hc h). Qed.
(** points that leave the queue alone *)
Lemma pop_quiet j c' s' q : minv j q → (∀ h prev, cons_ j ≠ CLink h prev) → detaches (cons_ j) = [] → knows (mp j) s' →
  cons_ok s' q (busy j) c' → in_hand (cons_ j) = returns (cons_ j) c' ++ skips (cons_ j) c' ++ in_hand c' →
  (∃ ret, c' = CIdle ret) ∨ (∀ ret, cons_ j ≠ CIdle ret) → minv (after_pop j c' s') q.
Proof.
  intros HJ Hl Hd K Hc Hs Hi. pose proof HJ as [J1 J2 J3 J4 J5 J6 JL J7]. eapply pop_move; try done.
  - eapply qshape_knows; [exact K| |exact J1]. intros y z _. apply pending_pop. by left.
  - intros a p Ha. eapply prod_ok_knows; [exact K|by eapply J2].
  - by rewrite Hd.
  - by rewrite Hd, app_nil_r.
Qed.
Lemma nodup_head_last q h : NoDup (h :: q) → last (h :: q) = Some h → q = [].
Proof.
  intros Hn Hl. destruct q as [|z r]; [done|]. by destruct (adj_not_last _ _ _ Hn (adj_head h z r)).
Qed.
(** taking the first node off *)
Lemma prod_ok_drop s s' h q n p : (∀ y, nxt s' y = nxt s y) → (∀ t, Qn t ∉ h :: q → inq s' t = inq s t) → nxt s h = Some (Some n) →
  prod_ok s (h :: q) p → prod_ok s' q p.
Proof.
  intros En Ei Hh. destruct p as [|t|t|t|t prev|t]; cbn [prod_ok]; try done; rewrite ?En.
  - intros [? Hq]. rewrite Ei by done. split; [done|]. by intros ?%(list_elem_of_further _ h).
  - intros (? & Hq & ?). rewrite Ei by done. split_and!; [done| |done]. by intros ?%(list_elem_of_further _ h).
  - intros [Ha Hn]. split; [|done]. eapply adj_tail; [|exact Ha]. intros ->. congruence.
Qed.
Lemma head_step_inv j q c' s' : minv j q → cons_ j = CHead → pop_step CHead (mp j) = Done c' s' → minv (after_pop j c' s') q.
Proof.
  intros HJ Hcj Hst. cbn [pop_step] in Hst. apply bind_Done in Hst as (p & s1 & [= <- <-] & Hst).
  apply bind_Done in Hst as (v & s1 & [-> Hv]%load_next_Done & [= <- <-]).
  pose proof (mi_shape _ _ HJ) as Hq. pose proof (qh_head _ _ _ Hq) as Hh. destruct q as [|h r]; [done|]. injection Hh as Eh. rewrite <-Eh in *.
  assert (∀ n, v = Some n → ∃ r', r = n :: r') as Hr by (intros n ->; by eapply qshape_next).
  eapply pop_quiet; rewrite ?Hcj; try done; [| |by right].
  - destruct h as [|t], v as [n|]; cbn [cons_ok]; try done.
    + destruct (Hr n eq_refl) as [r' ->]. by exists r'.
    + destruct (Hr n eq_refl) as [r' ->]. by exists r'.
    + exists r. split_and!; [done..|by left].
  - by destruct h, v.
Qed.
Lemma skip_step_inv j n q c' s' : minv j q → cons_ j = CSkip n → pop_step (CSkip n) (mp j) = Done c' s' →
  ∃ q', minv (after_pop j c' s') q'.
Proof.
  intros HJ Hcj Hst. pose proof HJ as [J1 J2 J3 J4 J5 J6 JL J7]. rewrite Hcj in J4. destruct J4 as (r & -> & Hn).
  cbn [pop_step] in Hst. apply bind_Done in Hst as ([] & s1 & [= <-] & Hst). set (s1 := with_this _ _) in Hst.
  apply bind_Done in Hst as (v & s2 & [-> Hv]%load_next_Done & [= <- <-]).
  assert (∀ y, nxt s1 y = nxt (mp j) y) as En by (by intros []).
  assert (∀ c, qshape s1 (pending_link (after_pop j c s1)) (n :: r)) as Hq.
  { intros c. eapply (qshape_drop (mp j) s1); [done|done|done|done| |exact J1]. intros y z _. apply pending_pop. rewrite Hcj. by left. }
  assert (n ≠ Stub) as Hne.
  { intros ->. pose proof (qh_nodup _ _ _ J1) as Hd. apply NoDup_cons in Hd as [Hd _]. apply Hd. by left. }
  exists (n :: r). apply (pop_move j _ s1 (Stub :: n :: r)); rewrite ?Hcj; [done|apply Hq| | |done| |by right].
  - intros a p Ha. eapply (prod_ok_drop (mp j)); [done|done|exact Hn|by eapply J2].
  - destruct v as [n'|]; cbn [cons_ok].
    + destruct (qshape_next _ _ _ _ _ (Hq CHead) Hv) as [r' ->]. by exists r'.
    + exists r. auto.
  - by destruct v.
Qed.
Lemma last_step_inv j h q c' s' : minv j q → cons_ j = CLast h → pop_step (CLast h) (mp j) = Done c' s' → minv (after_pop j c' s') q.
Proof.
  intros HJ Hcj Hst. pose proof (mi_cons _ _ HJ) as Hc. rewrite Hcj in Hc. destruct Hc as (r & -> & Hh & _). injection Hst as <- <-.
  pose proof (mi_shape _ _ HJ) as Hq. eapply pop_quiet; rewrite ?Hcj; try done; [| |by right]; case_bool_decide as Ht; try done.
  exists r. split_and!; [done..|]. pose proof (qh_tail _ _ _ Hq) as Hl. rewrite <-Ht in Hl.
  rewrite (nodup_head_last _ _ (qh_nodup _ _ _ Hq) Hl). intros Hs%list_elem_of_singleton. congruence.
Qed.
Lemma clear_stub_inv j h q c' s' : minv j q → cons_ j = CClear h → pop_step (CClear h) (mp j) = Done c' s' → minv (after_pop j c' s') q.
Proof.
  intros HJ Hcj Hst. pose proof HJ as [J1 J2 J3 J4 J5 J6 JL J7]. rewrite Hcj in J4. destruct J4 as (r & Eq & Hh & Hs).
  cbn [pop_step] in Hst. apply bind_Done in Hst as ([] & s1 & Hst & [= <- <-]). apply (store_next_Done Stub) in Hst as W.
  pose proof W as [Wz Wn Wi _ _]. apply (pop_move j _ s1 q); rewrite ?Hcj; [done| | | |done|done|by right].
  - eapply qshape_outside; [exact W|done|]. eapply qshape_knows; [apply knows_refl| |exact J1].
    intros y z _. apply pending_pop. rewrite Hcj. by left.
  - intros a p Ha. specialize (J2 a p Ha). destruct p as [|t|t|t|t prev|t]; cbn [prod_ok] in *; try done; rewrite ?Wi; try done.
    + by rewrite Wn.
    + destruct J2 as [Hadj ?]. rewrite Wn; [done|]. intros ->. by apply Hs, (adj_in _ _ _ Hadj).
  - by exists r.
Qed.
Lemma xchg_stub_inv j h q c' s' : minv j q → cons_ j = CXchg h → pop_step (CXchg h) (mp j) = Done c' s' →
  minv (after_pop j c' s') (q ++ [Stub]).
Proof.
  intros HJ Hcj Hst. pose proof HJ as [J1 J2 J3 J4 J5 J6 JL J7]. rewrite Hcj in J4. destruct J4 as (r & Eq & Hh & Hs & Hn).
  injection Hst as <- <-. set (s1 := with_this _ _). assert (∀ y, nxt s1 y = nxt (mp j) y) as En by (by intros []).
  apply (pop_move j _ s1 q); rewrite ?Hcj; [done| | | | |done|by right].
  - apply (qshape_snoc (mp j) s1 (pending_link j)); [by apply same_knows|done|done|done|done| | |done].
    + intros y z _. apply pending_pop. rewrite Hcj. by left.
    + right. by exists h.
  - intros a p Ha. specialize (J2 a p Ha). destruct p as [|t|t|t|t prev|t]; cbn [prod_ok] in *; try done; rewrite ?En; try done.
    + destruct J2 as [? Hq]. split; [done|]. by intros [?|?%list_elem_of_singleton]%elem_of_app.
    + destruct J2 as (? & Hq & ?). split_and!; [done| |done]. by intros [?|?%list_elem_of_singleton]%elem_of_app.
    + destruct J2 as [? ?]. split; [by apply adj_app|done].
  - cbn [cons_ok]. rewrite En. exists (r ++ [Stub]). subst q. split_and!; [done..| |].
    + by apply (adj_last (h :: r)), (qh_tail _ _ _ J1).
    + apply (qh_last _ _ _ J1), (qh_tail _ _ _ J1).
  - unfold owners. by rewrite omap_app, app_nil_r.
Qed.
Lemma link_stub_inv j h prev q c' s' : minv j q → cons_ j = CLink h prev → pop_step (CLink h prev) (mp j) = Done c' s' →
  minv (after_pop j c' s') q.
Proof.
  intros HJ Hcj Hst. pose proof HJ as [J1 J2 J3 J4 J5 J6 JL J7]. rewrite Hcj in J4. destruct J4 as (r & Eq & Hh & Hadj & Hn).
  cbn [pop_step] in Hst. apply bind_Done in Hst as ([] & s1 & Hst & [= <- <-]). apply store_next_Done in Hst as W.
  pose proof W as [Wz Wn Wi _ _]. apply (pop_move j _ s1 q); rewrite ?Hcj; [done| | | |done|done|by right].
  - eapply qshape_link; [exact W|exact Hadj| |exact J1]. intros y z _ Hne. apply pending_pop. rewrite Hcj. intros ?. left. congruence.
  - intros a p Ha. specialize (J2 a p Ha). destruct p as [|t|t|t|t prev'|t]; cbn [prod_ok] in *; try done; rewrite ?Wi; try done.
    + destruct J2 as (? & Hq & ?). split_and!; [done..|]. rewrite Wn; [done|]. intros <-. by apply Hq, (adj_in _ _ _ Hadj).
    + destruct J2 as [Hadj' ?]. split; [done|]. rewrite Wn; [done|]. intros ->.
      by pose proof (adj_fun _ _ _ _ (qh_nodup _ _ _ J1) Hadj Hadj').
  - subst q. destruct r as [|n r]; [|by exists n, r]. destruct Hadj as ([|i] & ? & ?); [done|]. by destruct i.
Qed.
Lemma reload_step_inv j h q c' s' : minv j q → cons_ j = CReload h → pop_step (CReload h) (mp j) = Done c' s' →
  minv (after_pop j c' s') q.
Proof.
  intros HJ Hcj Hst. pose proof (mi_cons _ _ HJ) as Hc. rewrite Hcj in Hc. destruct Hc as (n & r & -> & Hh).
  cbn [pop_step] in Hst. apply bind_Done in Hst as (v & s1 & [-> Hv]%load_next_Done & [= <- <-]).
  eapply pop_quiet; rewrite ?Hcj; try done; [| |by right]; destruct v as [n'|]; try done.
  destruct (qshape_next _ _ _ _ _ (mi_shape _ _ HJ) Hv) as [r' [= <- <-]]. by exists r.
Qed.
Lemma detach_step_inv j h n q c' s' : minv j q → cons_ j = CDetach h n → pop_step (CDetach h n) (mp j) = Done c' s' →
  ∃ q', minv (after_pop j c' s') q'.
Proof.
  intros HJ Hcj Hst. pose proof HJ as [J1 J2 J3 J4 J5 J6 JL J7]. rewrite Hcj in J4. destruct J4 as (r & -> & Hh & Hn).
  destruct h as [|t]; [done|]. cbn [pop_step owner] in Hst. apply bind_Done in Hst as ([] & s1 & [= <-] & Hst).
  apply bind_Done in Hst as ([] & s2 & Hst & [= <- <-]). apply set_mark_Done in Hst as (En & Et & Ei & Eth).
  assert (∀ y, nxt s2 y = nxt (mp j) y) as En' by (intros y; rewrite En; by destruct y).
  assert (Qn t ∉ n :: r) as Hnq by (by pose proof (qh_nodup _ _ _ J1) as [? _]%NoDup_cons).
  exists (n :: r). apply (pop_move j _ s2 (Qn t :: n :: r)); rewrite ?Hcj; [done| | | |done|done|by right].
  - eapply (qshape_drop (mp j) s2); [done| | | | |exact J1]; rewrite ?Eth; try done.
    + intros u Hu. rewrite Ei; [done|]. by intros ->.
    + intros y z _. apply pending_pop. rewrite Hcj. by left.
  - intros a p Ha. eapply (prod_ok_drop (mp j)); [done| |exact Hn|by eapply J2].
    intros u Hu. rewrite Ei; [done|]. intros ->. apply Hu. by left.
  - cbn [cons_ok]. unfold inq in Et. destruct (heap s2 !! t); [by eexists|done].
Qed.
Lemma unmark_step_inv j t q c' s' : minv j q → cons_ j = CUnmark t → pop_step (CUnmark t) (mp j) = Done c' s' →
  minv (after_pop j c' s') q.
Proof.
  intros HJ Hcj Hst. cbn [pop_step] in Hst. apply bind_Done in Hst as (x & s1 & Hx & Hst).
  apply bind_Done in Hst as ([] & s2 & Hs & [= <- <-]). unfold th in Hx. destruct (heap (mp j) !! t) as [y|]; [|done].
  injection Hx as <- <-. apply set_th_knows in Hs; [|done..].
  eapply pop_quiet; rewrite ?Hcj; try done; destruct (removed y); try done; by right.
Qed.
Lemma pop_inv j q c' s' : minv j q → pop_step (cons_ j) (mp j) = Done c' s' → ∃ q', minv (after_pop j c' s') q'.
Proof.
  intros HJ. destruct (cons_ j) as [ret| |n|h|h|h|h prev|h|h n|t] eqn:Hc; intros Hst.
  - injection Hst as <- <-. exists q. eapply pop_quiet; rewrite ?Hc; try done. by left; eexists.
  - exists q. by apply head_step_inv.
  - by eapply skip_step_inv.
  - exists q. by eapply last_step_inv.
  - exists q. by eapply clear_stub_inv.
  - exists (q ++ [Stub]). by eapply xchg_stub_inv.
  - exists q. by eapply link_stub_inv.
  - exists q. by eapply reload_step_inv.
  - by eapply detach_step_inv.
  - exists q. by eapply unmark_step_inv.
Qed.

(** ** The machine *)

Lemma some_linking_spec j : some_linking j = true ↔ ∃ a p, prods j !! a = Some p ∧ linking p = true.
Proof.
  unfold some_linking. rewrite existsb_exists. split.
  - intros ([a p] & Hin & Hl). exists a, p. split; [|done]. by apply elem_of_map_to_list, list_elem_of_In.
  - intros (a & p & Ha & Hl). exists (a, p). split; [|done]. by apply list_elem_of_In, elem_of_map_to_list.
Qed.
Lemma minv_knows j q s' l' (k : nat) : minv j q → knows (mp j) s' → minv (j <| mp := s' |> <| dropped ::= λ l, l ++ l' |> <| owed ::= Nat.add k |>) q.
Proof.
  intros [J1 J2 J3 J4 J5 J6 JL J7] K. split; simpl; try done.
  - eapply qshape_knows; [exact K|done|exact J1].
  - intros a p Ha. eapply prod_ok_knows; [exact K|by eapply J2].
  - by eapply cons_ok_knows.
Qed.
Lemma menter_inv j q ret : minv j q → cons_ j = CIdle ret → minv (j <| cons_ := CHead |> <| busy := some_linking j |>) q.
Proof.
  intros [J1 J2 J3 J4 J5 J6 JL J7] Hc. split; simpl; try done.
  - eapply qshape_knows; [apply knows_refl| |exact J1]. intros y z _ [?|(h & _ & Hh)]; [by left|congruence].
  - by rewrite Hc in J6.
  - by rewrite Hc in JL.
  - intros _ Hl. by apply some_linking_spec.
Qed.
Lemma drop_knows t s b s' : mpsc_drop t s = Done b s' → knows s s'.
Proof.
  intros Hst. apply bind_Done in Hst as (x & s1 & Hx & Hst). apply bind_Done in Hst as ([] & s2 & Hs & [= _ <-]).
  unfold th in Hx. destruct (heap s !! t); [|done]. injection Hx as _ <-. by apply set_th_knows in Hs.
Qed.
Lemma env_knows s (h : gmap Z ABTI_thread) : (∀ t, node_of <$> h !! t = node_of <$> heap s !! t ∨
  heap s !! t = None ∧ ∃ x, h !! t = Some x ∧ in_pool x = false ∧ removed x = false) → knows s (with_heap s h).
Proof.
  intros He. split; [| |done..].
  - intros [|t] v; [done|]. simpl. destruct (He t) as [E1|[-> _]]; [|done].
    destruct (h !! t), (heap s !! t); simpl in *; try done. injection E1 as -> _ _. done.
  - intros t b. unfold inq. simpl. destruct (He t) as [E1|[-> _]]; [|done].
    destruct (h !! t), (heap s !! t); simpl in *; try done. injection E1 as _ -> _. done.
Qed.
Lemma aside_knows s (o : ABTI_pool) : aside o = aside (this s) → knows s (with_this s o).
Proof.
  intros Ho. apply same_knows; try done; simpl.
  - exact (f_equal stub_next Ho).
  - exact (f_equal q_head Ho).
  - exact (f_equal q_tail Ho).
Qed.
Lemma minv_with j q s' : minv j q → knows (mp j) s' → minv (j <| mp := s' |>) q.
Proof.
  intros HJ K. pose proof (minv_knows j q s' [] 0 HJ K) as Hm. destruct j. unfold upd in *. cbn in *. by rewrite app_nil_r in Hm.
Qed.
Lemma minv_owed j q (k : nat) : minv j q → minv (j <| owed := k |>) q.
Proof. intros []. by split. Qed.
(** a thread that is in no pool is gone *)
Lemma minv_free j q t x : minv j q → heap (mp j) !! t = Some x → in_pool x = false → cons_ j ≠ CUnmark t →
  minv (j <| mp ::= λ s, with_heap s (delete t (heap s)) |>) q.
Proof.
  intros HJ Hx Hin Hc. pose proof HJ as [J1 J2 J3 J4 J5 J6 JL J7]. set (s' := with_heap (mp j) (delete t (heap (mp j)))).
  assert (inq (mp j) t = Some false) as Hf by (unfold inq; by rewrite Hx; simpl; rewrite Hin).
  destruct (free_not_held j q t HJ Hf) as [Hnq Hnh].
  assert (∀ y, y ≠ Qn t → nxt s' y = nxt (mp j) y) as En.
  { intros [|u] Hne; [done|]. simpl. rewrite lookup_delete_ne; [done|congruence]. }
  assert (∀ u, u ≠ t → inq s' u = inq (mp j) u) as Ei by (intros u Hne; unfold inq; simpl; by rewrite lookup_delete_ne).
  assert (∀ y, y ∈ q → y ≠ Qn t) as Hq by (by intros y Hy ->).
  split; simpl; try done.
  - destruct J1 as [H1 H2 H3 H4 H5 H6]. split; try done.
    + intros z Hz. fold s'. rewrite En; [auto|]. apply Hq. rewrite last_lookup in Hz. by eapply list_elem_of_lookup_2.
    + intros y z Hyz. fold s'. rewrite En by (apply Hq, (adj_in _ _ _ Hyz)). destruct (H5 y z Hyz) as [?|[? Hp]]; [by left|by right].
    + intros u Hu. fold s'. rewrite Ei; [auto|]. intros ->. done.
  - fold s'. intros a p Ha. specialize (J2 a p Ha). specialize (Hnh a p Ha). destruct p as [|u|u|u|u prev|u]; cbn [prod_ok holder] in *; try done.
    + rewrite Ei by congruence. done.
    + rewrite Ei, En by congruence. done.
    + destruct J2 as [Ha' ?]. rewrite En by (apply Hq, (adj_in _ _ _ Ha')). done.
  - fold s'. destruct (cons_ j) as [?| |n|h|h|h|h prev|h|h n|u]; cbn [cons_ok] in *; try done.
    + destruct J4 as (r & -> & Hh & Hn). exists r. rewrite En by (apply Hq; by left). done.
    + destruct J4 as (r & -> & Hh & Ha & Hn). exists r. rewrite En by (apply Hq, (adj_in _ _ _ Ha)). done.
    + destruct J4 as (r & -> & Hh & Hn). exists r. rewrite En by (apply Hq; by left). done.
    + unfold s'. simpl. rewrite lookup_delete_ne; [done|congruence].
Qed.
Lemma qstep_inv j j' q : minv j q → qstep j j' → ∃ q', minv j' q'.
Proof.
  intros HJ [a t Ha|a p p' s' Ha Hst|ret Hc|c' s' Hst|ret t x b s' Hc Hx Hin Hown Hst|n s' Hn Hst|h He|t x Hx Hin Hrm Hc|o Ho _].
  - exists q. by apply mbegin_inv.
  - by eapply push_inv.
  - exists q. by eapply menter_inv.
  - by eapply pop_inv.
  - exists q. apply minv_knows; [done|]. by apply drop_knows in Hst.
  - exists q. apply minv_owed. injection Hst as <-. eapply minv_with; [done|]. by apply same_knows.
  - exists q. exact (minv_with j q _ HJ (env_knows _ _ He)).
  - exists q. by eapply minv_free.
  - exists q. exact (minv_with j q _ HJ (aside_knows _ _ Ho)).
Qed.
(** A fresh storage: the stub is the queue. *)
Definition fresh_queue s : Prop := q_head (this s) = Stub ∧ q_tail (this s) = Stub ∧ stub_next (this s) = None.
Lemma mstart_inv s agents : fresh_queue s → minv (mstart s agents) [Stub].
Proof.
  intros (Hh & Ht & Hn). split; simpl; try done.
  - split; simpl; [by rewrite Hh|by rewrite Ht|apply NoDup_singleton| | |].
    + by intros z [= <-]; simpl; rewrite Hn.
    + by intros y z ([|[]] & ? & ?).
    + by intros t ?%list_elem_of_singleton.
  - intros a p. rewrite lookup_gset_to_gmap_Some. by intros [_ <-].
  - intros a a' p p' t _. rewrite lookup_gset_to_gmap_Some. by intros [_ <-].
  - intros Hi. by destruct (Hi None).
Qed.
Definition mreach s agents j : Prop := rtc qstep (mstart s agents) j.
Lemma mreach_inv s agents j : fresh_queue s → mreach s agents j → ∃ q, minv j q.
Proof.
  intros Hs. unfold mreach. apply (rtc_ind_r (λ j, ∃ q, minv j q)).
  - exists [Stub]. by apply mstart_inv.
  - intros j1 j2 _ Hst [q HJ]. by eapply qstep_inv.
Qed.
