(* ===== verification/MpscSpec.v ===== *)
(** * What the lock-free queue promises when everybody uses it

    The properties of the machine of [MpscConc]: units leave in the order in which
    their pushes exchanged [tail], none is lost or doubled, a pop comes back empty
    only from an empty queue or when a push overlapped it, no step meets a node
    that is gone, and at rest the storage is the one [PoolMpsc] starts from. *)

From S2P Require Import Prelude AbtTypes Objects Storage PoolList Sleepers WakeSteps PoolMpsc MpscConc MpscSafe.

Implicit Types (s : pst) (j : mst) (q : list qref) (t : ptr) (p : ppoint) (c : cpoint).

(** ** Marks of [ABT_pool_remove] *)

(** what neither a push nor a pop's queue steps change *)
Definition marks s : list Z * gmap Z bool := (smask (this s), removed <$> heap s).
Lemma set_th_marks t f : (∀ x, removed (f x) = removed x) → preserves marks (set_th t f).
Proof.
  intros Hf s. unfold set_th, wlp, run. destruct (heap s !! t) as [x|] eqn:Hx; [|done]. unfold marks. simpl. f_equal.
  apply map_eq. intros u. rewrite !lookup_fmap. destruct (decide (t = u)) as [<-|].
  - rewrite lookup_insert_eq, Hx. simpl. by rewrite Hf.
  - by rewrite lookup_insert_ne.
Qed.
Lemma th_marks t : preserves marks (th t).
Proof. intros s. unfold th, wlp, run. by destruct (heap s !! t). Qed.
Lemma set_self_marks f : (∀ x, smask (f x) = smask x) → preserves marks (set_self f).
Proof. intros Hf s. change (marks (with_this s (f (this s))) = marks s). unfold marks. simpl. by rewrite Hf. Qed.
Lemma load_next_marks y : preserves marks (load_next y).
Proof. intros s. destruct (load_next y s) as [v s'|] eqn:Hs; unfold wlp; rewrite Hs; [|done]. by apply load_next_Done in Hs as [-> _]. Qed.
Lemma store_next_marks y v : preserves marks (store_next y v).
Proof. destruct y; [by apply set_self_marks|by apply set_th_marks]. Qed.
Lemma xchg_tail_marks y : preserves marks (xchg_tail y).
Proof. by intros s. Qed.
Lemma wake_marks w : preserves marks (wake_step w).
Proof.
  intros s. destruct (wake_step w s) as [r s'|] eqn:Hs; unfold wlp; rewrite Hs; [|done].
  apply wake_step_Done in Hs as (_ & Eh & Et & _). unfold marks. by rewrite Eh, Et.
Qed.
#[export] Hint Resolve th_marks load_next_marks store_next_marks xchg_tail_marks wake_marks : frame.
#[export] Hint Extern 2 (preserves marks (set_th _ _)) => (apply set_th_marks; intros; reflexivity) : frame.
#[export] Hint Extern 2 (preserves marks (set_self _)) => (apply set_self_marks; intros; reflexivity) : frame.
Lemma push_marks p : preserves marks (push_step p).
Proof. destruct p; cbn [push_step]; solve_preserves. Qed.
Lemma pop_marks c : (∀ t, c ≠ CUnmark t) → preserves marks (pop_step c).
Proof. intros Hc. destruct c; cbn [pop_step]; unfold self; try solve_preserves. by destruct (Hc t). Qed.

Definition is_marked s t : Prop := removed <$> heap s !! t = Some true.
Record kept j : Prop := {
  kp_masks : masks_wf (smask (this (mp j)));
  kp_marks : ∃ l, NoDup l ∧ dropped j ≡ₚ skipped j ++ l ∧ ∀ t, t ∈ l ↔ is_marked (mp j) t;
}.
Lemma marks_same s s' : marks s' = marks s → smask (this s') = smask (this s) ∧ ∀ t, is_marked s' t ↔ is_marked s t.
Proof.
  intros [= E1 E2]. split; [done|]. intros t. unfold is_marked. by rewrite <-!lookup_fmap, E2.
Qed.
Lemma set_removed_Done t b s u s' : set_th t (λ x, x <| removed := b |>) s = Done u s' →
  this s' = this s ∧ (is_marked s' t ↔ b = true) ∧ ∀ t', t' ≠ t → is_marked s' t' ↔ is_marked s t'.
Proof.
  unfold set_th. destruct (heap s !! t) as [x|] eqn:Hx; [|done]. intros [= _ <-]. split_and!; [done| |].
  - unfold is_marked. simpl. rewrite lookup_insert_eq. simpl. naive_solver.
  - intros t' Hne. unfold is_marked. simpl. by rewrite lookup_insert_ne.
Qed.
Lemma kept_marks j j' : kept j → marks (mp j') = marks (mp j) → dropped j' = dropped j → skipped j' = skipped j → kept j'.
Proof.
  intros [H1 (l & Hl & Hp & Hm)] [E1 E2]%marks_same Ed Es. split; [by rewrite E1|]. exists l. rewrite Ed, Es.
  split_and!; [done..|]. intros t. by rewrite E2.
Qed.
Lemma kept_unmark j t c' s' : kept j → cons_ j = CUnmark t → pop_step (CUnmark t) (mp j) = Done c' s' → kept (after_pop j c' s').
Proof.
  intros [H1 (l & Hl & Hp & Hm)] Hc Hst. apply bind_Done in Hst as (x & s1 & Hx & Hst).
  apply bind_Done in Hst as ([] & s2 & Hs & [= <- <-]). unfold th in Hx. destruct (heap (mp j) !! t) as [y|] eqn:Hy; [|done].
  injection Hx as <- <-. apply set_removed_Done in Hs as (Et & Hn & Ho). split; simpl; [by rewrite Et|].
  destruct (removed y) eqn:Hr; rewrite Hc; cbn [skips].
  - assert (t ∈ l) as Ht by (apply Hm; unfold is_marked; by rewrite Hy; simpl; rewrite Hr).
    apply elem_of_Permutation in Ht as [l' Hl']. rewrite Hl' in Hl. apply NoDup_cons in Hl as [Hnt Hl].
    exists l'. split_and!; [done|rewrite Hp, Hl'; solve_Permutation|]. intros u. destruct (decide (u = t)) as [->|Hne].
    + rewrite Hn. naive_solver.
    + rewrite Ho, <-Hm, Hl' by done. rewrite elem_of_cons. naive_solver.
  - exists l. split_and!; [done|by rewrite app_nil_r|]. intros u. rewrite Hm. destruct (decide (u = t)) as [->|Hne]; [|by rewrite Ho].
    rewrite Hn. unfold is_marked. rewrite Hy. simpl. rewrite Hr. naive_solver.
Qed.
Lemma kept_drop j t b s' : kept j → mpsc_drop t (mp j) = Done b s' →
  kept (j <| mp := s' |> <| dropped ::= λ l, l ++ (if b : bool then [t] else []) |> <| owed ::= Nat.add (if b then 1 else 0) |>).
Proof.
  intros [H1 (l & Hl & Hp & Hm)] Hst. apply bind_Done in Hst as (x & s1 & Hx & Hst).
  apply bind_Done in Hst as ([] & s2 & Hs & [= <- <-]). unfold th in Hx. destruct (heap (mp j) !! t) as [y|] eqn:Hy; [|done].
  injection Hx as <- <-. apply set_removed_Done in Hs as (Et & Hn & Ho). split; simpl; [by rewrite Et|].
  assert (t ∈ l ↔ removed y = true) as Ht.
  { rewrite Hm. unfold is_marked. rewrite Hy. simpl. split; [by intros [= ->]|by intros ->]. }
  destruct (removed y); simpl.
  - exists l. rewrite app_nil_r. split_and!; [done..|]. intros u. destruct (decide (u = t)) as [->|Hne].
    + rewrite Ht. unfold is_marked in *. simpl. naive_solver.
    + rewrite Hm. symmetry. by apply Ho.
  - exists (t :: l). split_and!; [by apply NoDup_cons; split; [rewrite Ht|]|rewrite Hp; solve_Permutation|].
    intros u. rewrite elem_of_cons. destruct (decide (u = t)) as [->|Hne].
    + unfold is_marked in *. simpl. naive_solver.
    + assert (is_marked s2 u ↔ is_marked (mp j) u) as Hu by by apply Ho. unfold is_marked in *. simpl. rewrite Hu, Hm. naive_solver.
Qed.
Lemma qstep_kept j j' : kept j → qstep j j' → kept j'.
Proof.
  intros Hk [a t Ha|a p p' s' Ha Hst|ret Hc|c' s' Hst|ret t x b s' Hc Hx Hin Hown Hst|n s' Hn Hst|h He|t x Hx Hin Hrm Hc|o Ho Hmo].
  - by eapply kept_marks.
  - eapply kept_marks; [exact Hk| |done..]. exact (wlp_Done _ _ _ _ _ (push_marks p _) Hst).
  - by eapply kept_marks.
  - destruct (cons_ j) as [| | | | | | | | |t] eqn:Hc; rewrite <-?Hc in *.
    10: { rewrite Hc in *. pose proof (kept_unmark j t c' s' Hk Hc Hst) as Hu. unfold after_pop in Hu. by rewrite Hc in Hu. }
    all: assert (skips (cons_ j) c' = []) as Es by (by rewrite Hc).
    all: eapply kept_marks; [exact Hk| |done|simpl; by rewrite Es, app_nil_r].
    all: refine (wlp_Done _ _ _ _ _ (pop_marks (cons_ j) _ _) Hst); by rewrite Hc.
  - by eapply kept_drop.
  - injection Hst as <-. by eapply kept_marks.
  - destruct Hk as [H1 (l & Hl & Hp & Hm)]. split; [done|]. exists l. split_and!; [done..|]. intros t. rewrite Hm.
    unfold is_marked. simpl. destruct (He t) as [E1|[-> (x & -> & _ & Hr)]].
    + destruct (h !! t), (heap (mp j) !! t); simpl in *; try done. injection E1 as _ _ ->. done.
    + simpl. rewrite Hr. naive_solver.
  - destruct Hk as [H1 (l & Hl & Hp & Hm)]. split; [done|]. exists l. split_and!; [done..|]. intros u. rewrite Hm.
    unfold is_marked. simpl. destruct (decide (u = t)) as [->|]; [|by rewrite lookup_delete_ne].
    rewrite lookup_delete_eq, Hx. simpl. rewrite Hrm. done.
  - destruct Hk as [_ (l & Hl & Hp & Hm)]. split; [done|]. exists l. done.
Qed.

(** ** The unit counter *)

Definition uncounts p : bool := match p with PLink _ _ => true | PTail w => counts w | _ => false end.
(** pushes past their exchange that have not counted their unit *)
Definition uncounted j : Z := tally (λ p, Z.b2z (uncounts p)) (prods j).
Definition counted j : Prop :=
  count (this (mp j)) = Z.of_nat (length (pushed j)) - uncounted j - Z.of_nat (length (dropped j)) - Z.of_nat (length (popped j)) + Z.of_nat (owed j).
Lemma load_next_count y : preserves (λ s, count (this s)) (load_next y).
Proof. intros s. destruct (load_next y s) as [v s'|] eqn:Hs; unfold wlp; rewrite Hs; [|done]. by apply load_next_Done in Hs as [-> _]. Qed.
Lemma store_next_count y v : preserves (λ s, count (this s)) (store_next y v).
Proof. destruct y; [by apply set_self_count|by apply set_th_count]. Qed.
Lemma xchg_tail_count y : preserves (λ s, count (this s)) (xchg_tail y).
Proof. by intros s. Qed.
#[export] Hint Resolve load_next_count store_next_count xchg_tail_count : frame.
Lemma push_count p s p' s' : push_step p s = Done p' s' →
  count (this s') = count (this s) + Z.of_nat (length (swaps p)) + Z.b2z (uncounts p) - Z.b2z (uncounts p').
Proof.
  intros Hst. assert ((∀ w, p ≠ PTail w) → count (this s') = count (this s)) as Hq.
  { intros Hp. refine (wlp_Done _ _ _ _ _ ((_ : preserves (λ s, count (this s)) (push_step p)) _) Hst).
    destruct p; [..|by destruct (Hp w)]; cbn [push_step]; solve_preserves. }
  destruct p as [|t|t|t|t prev|w].
  6: { apply bind_Done in Hst as (r & s1 & Hw & [= <- <-]). apply wake_step_Done in Hw as (_ & _ & -> & Hr).
       simpl. destruct r as [w'|]; [|simpl; lia]. simpl. destruct (Hr w' eq_refl) as [_ ->]. simpl. lia. }
  all: rewrite Hq by done; clear Hq.
  - injection Hst as <- _. simpl. lia.
  - apply bind_Done in Hst as (x & s1 & _ & Hst). apply bind_Done in Hst as (u & s2 & _ & Hst).
    destruct (in_pool x); [done|]. injection Hst as <- _. simpl. lia.
  - apply bind_Done in Hst as (u & s1 & _ & [= <- _]). simpl. lia.
  - injection Hst as <- _. simpl. lia.
  - apply bind_Done in Hst as (u & s1 & _ & [= <- _]). simpl. lia.
Qed.
Lemma pop_count c s c' s' : pop_step c s = Done c' s' → count (this s') = count (this s).
Proof.
  intros Hst. refine (wlp_Done _ _ _ _ _ ((_ : preserves (λ s, count (this s)) (pop_step c)) _) Hst).
  destruct c; cbn [pop_step]; unfold self; solve_preserves.
Qed.
Lemma qstep_counted j j' : counted j → qstep j j' → counted j'.
Proof.
  unfold counted. intros Hc [a t Ha|a p p' s' Ha Hst|ret Hr|c' s' Hst|ret t x b s' Hr Hx Hin Hown Hst|n s' Hn Hst|h He|t x Hx Hin Hrm Hr|o Ho _]; simpl.
  - unfold uncounted. simpl. rewrite (tally_insert _ _ _ _ _ Ha). simpl. unfold uncounted in Hc. lia.
  - rewrite (push_count _ _ _ _ Hst). unfold uncounted in *. simpl. rewrite (tally_insert _ _ _ _ _ Ha), length_app. lia.
  - done.
  - rewrite (pop_count _ _ _ _ Hst), length_app. unfold uncounted in *. simpl. lia.
  - assert (count (this s') = count (this (mp j))) as Es.
    { refine (wlp_Done _ _ _ _ _ ((_ : preserves (λ s, count (this s)) (mpsc_drop t)) _) Hst). unfold mpsc_drop. solve_preserves. }
    rewrite length_app, Es. unfold uncounted in *. simpl. destruct b; simpl; lia.
  - injection Hst as <-. simpl. rewrite Hn in Hc. unfold uncounted in *. simpl. lia.
  - done.
  - done.
  - rewrite (f_equal count Ho : count o = _). exact Hc.
Qed.

(** ** Reachable machines *)

(** A storage nobody has used: the stub is the queue, nobody is counted or marked. *)
Record fresh_pool s : Prop := {
  fp_queue : fresh_queue s;
  fp_count : count (this s) = 0;
  fp_masks : masks_wf (smask (this s));
  fp_marks t x : heap s !! t = Some x → removed x = false;
}.
Lemma uncounted_start s agents : uncounted (mstart s agents) = 0.
Proof.
  apply tally_zero. intros a p. simpl. rewrite lookup_gset_to_gmap_Some. by intros [_ <-].
Qed.
Lemma mreach_all s agents j : fresh_pool s → mreach s agents j → (∃ q, minv j q) ∧ kept j ∧ counted j.
Proof.
  intros [F1 F2 F3 F4] Hr. split; [by eapply mreach_inv|]. revert Hr. unfold mreach. apply (rtc_ind_r (λ j, kept j ∧ counted j)).
  - split.
    + split; [done|]. exists []. split_and!; [constructor|done|]. intros t. unfold is_marked. simpl. split; [by intros ?%elem_of_nil|].
      destruct (heap s !! t) eqn:Hx; [|done]. simpl. intros [= Hm]. by rewrite (F4 _ _ Hx) in Hm.
    + unfold counted. rewrite uncounted_start. simpl. by rewrite F2.
  - intros j1 j2 _ Hst [? ?]. split; [by eapply qstep_kept|by eapply qstep_counted].
Qed.

(** ** What it promises *)

(** [rest]: the units still in the queue. *)
Definition remaining j (rest : list ptr) : Prop := pushed j = taken j ++ rest.
Definition at_rest j : Prop := (∃ ret, cons_ j = CIdle ret) ∧ ∀ a p, prods j !! a = Some p → p = PIdle.
Lemma queued_owners j q rest : minv j q → remaining j rest → rest = owners q.
Proof. intros HJ Hr. pose proof (mi_hist _ _ HJ) as Hh. unfold remaining in Hr. rewrite Hr in Hh. by apply app_inv_head in Hh. Qed.
Lemma node_alive s P q y : qshape s P q → y ∈ q → ∃ v, nxt s y = Some v.
Proof.
  intros Hq Hy. destruct y as [|t]; [by eexists|]. pose proof (qh_marked _ _ _ Hq t Hy) as Hm. unfold inq in Hm. simpl.
  destruct (heap s !! t); [by eexists|done].
Qed.
Lemma store_next_runs y v s w : nxt s y = Some w → ∃ s', store_next y v s = Done tt s'.
Proof. destruct y as [|t]; simpl; [by eexists|]. unfold set_th. destruct (heap s !! t); [by eexists|done]. Qed.
Lemma load_next_runs y s v : nxt s y = Some v → load_next y s = Done v s.
Proof. destruct y as [|t]; simpl; [by intros [= <-]|]. unfold mbind, M_bind, th. destruct (heap s !! t); [|done]. by intros [= <-]. Qed.

Lemma pop_runs j q : minv j q → ∃ c' s', pop_step (cons_ j) (mp j) = Done c' s'.
Proof.
  intros HJ. pose proof (mi_shape _ _ HJ) as Hq. pose proof (mi_cons _ _ HJ) as Hc.
  assert (∀ y, y ∈ q → ∃ v, nxt (mp j) y = Some v) as Hal by (intros y; by apply (node_alive _ _ _ _ Hq)).
  destruct (cons_ j) as [ret| |n|h|h|h|h prev|h|h n|t]; cbn [pop_step cons_ok] in *.
  - by eexists _, _.
  - destruct (Hal (q_head (this (mp j)))) as [v Hv].
    { pose proof (qh_head _ _ _ Hq) as Hh. destruct q; [done|]. injection Hh as ->. by left. }
    erewrite bind_runs by done. erewrite bind_runs by (by apply load_next_runs). by eexists _, _.
  - destruct Hc as (r & -> & Hn). destruct (Hal n) as [v Hv]; [by right; left|].
    erewrite bind_runs by done. erewrite bind_runs; [by eexists _, _|]. apply load_next_runs. by destruct n.
  - by eexists _, _.
  - by eexists _, _.
  - by eexists _, _.
  - destruct Hc as (r & -> & _ & Ha & Hn). destruct (store_next_runs prev (Some Stub) _ _ Hn) as [s' Hs].
    erewrite bind_runs by exact Hs. by eexists _, _.
  - destruct Hc as (n & r & -> & _). destruct (Hal h) as [v Hv]; [by left|].
    erewrite bind_runs by (by apply load_next_runs). by eexists _, _.
  - destruct Hc as (r & -> & Hh & Hn). destruct h as [|t]; [done|]. simpl in Hn.
    destruct (heap (mp j) !! t) as [x|] eqn:Hx; [|done]. erewrite bind_runs by done. cbn [owner].
    erewrite bind_runs; [by eexists _, _|]. unfold set_th. simpl. by rewrite Hx.
  - destruct Hc as [x Hx]. erewrite bind_runs; [|unfold th; by rewrite Hx]. erewrite bind_runs; [by eexists _, _|].
    unfold set_th. by rewrite Hx.
Qed.
Lemma push_runs j q a p : minv j q → kept j → prods j !! a = Some p →
  (∃ p' s', push_step p (mp j) = Done p' s') ∨ ∃ t, p = PMark t ∧ inq (mp j) t ≠ Some false.
Proof.
  intros HJ Hk Ha. pose proof (mi_prods _ _ HJ a p Ha) as Hp. destruct p as [|t|t|t|t prev|w]; cbn [push_step prod_ok] in *.
  - left. by eexists _, _.
  - unfold inq. destruct (heap (mp j) !! t) as [x|] eqn:Hx; [|right; exists t; by rewrite Hx].
    destruct (in_pool x) eqn:Hin; [right; exists t; rewrite Hx; simpl; by rewrite Hin|left].
    erewrite bind_runs; [|unfold th; by rewrite Hx]. erewrite bind_runs; [|unfold set_th; by rewrite Hx]. rewrite Hin. by eexists _, _.
  - left. destruct Hp as [Hp _]. unfold inq in Hp. destruct (heap (mp j) !! t) as [x|] eqn:Hx; [|done].
    destruct (store_next_runs (Qn t) None (mp j) (qn_next x)) as [s' Hs]; [simpl; by rewrite Hx|].
    erewrite bind_runs by exact Hs. by eexists _, _.
  - left. by eexists _, _.
  - left. destruct Hp as [_ Hp]. destruct (store_next_runs prev (Some (Qn t)) _ _ Hp) as [s' Hs].
    erewrite bind_runs by exact Hs. by eexists _, _.
  - left. destruct (wp_elim _ _ _ (wake_step_spec w (mp j) Hp (kp_masks _ Hk))) as (r & s2 & Hw & _).
    erewrite bind_runs by exact Hw. by eexists _, _.
Qed.
Lemma missing_link j q h z r : minv j q → q = h :: z :: r → nxt (mp j) h = Some None → (∀ h prev, cons_ j ≠ CLink h prev) →
  (∀ ret, cons_ j ≠ CIdle ret) → busy j = true.
Proof.
  intros HJ -> Hn Hl Hi. destruct (qh_link _ _ _ (mi_shape _ _ HJ) h z (adj_head _ _ _)) as [?|[_ Hp]]; [congruence|].
  destruct Hp as [(a & t & -> & Ha)|(h' & _ & Hc)]; [|by destruct (Hl h' h)].
  apply (mi_busy _ _ HJ); [done|]. by exists a, (PLink t h).
Qed.

Lemma null_or_busy j q s' : minv j q → (∀ ret, cons_ j ≠ CIdle ret) → pop_step (cons_ j) (mp j) = Done (CIdle None) s' →
  pushed j = taken j ∨ busy j = true.
Proof.
  intros HJ Hi Hst. pose proof (mi_shape _ _ HJ) as Hq.
  pose proof (mi_cons _ _ HJ) as Hc. rewrite (mi_hist _ _ HJ).
  destruct (cons_ j) as [ret| |n|h|h|h|h prev|h|h n|t] eqn:Hcj; cbn [pop_step cons_ok] in *.
  - by destruct (Hi ret).
  - apply bind_Done in Hst as (p & s1 & [= <- <-] & Hst). apply bind_Done in Hst as (v & s1 & [-> Hv]%load_next_Done & [= Hst <-]).
    destruct (q_head (this (mp j))) as [|t] eqn:Hh; destruct v; try done. pose proof (qh_head _ _ _ Hq) as Hhd. rewrite Hh in Hhd.
    destruct q as [|y r]; [done|]. injection Hhd as ->. destruct r as [|z r]; [left; by rewrite app_nil_r|right].
    eapply (missing_link j _ _ _ _ HJ); [done|exact Hv|by rewrite Hcj..].
  - apply bind_Done in Hst as ([] & s1 & _ & Hst). apply bind_Done in Hst as (v & s2 & _ & [= Hst _]). by destruct v.
  - destruct Hc as (r & -> & Hh & [Hn|?]); [right|by right]. injection Hst as Hst _. case_bool_decide as Ht; [|done].
    destruct r as [|z r]; [pose proof (qh_tail _ _ _ Hq) as [= ?]; congruence|].
    eapply (missing_link j _ _ _ _ HJ); [done|exact Hn|by rewrite Hcj..].
  - by apply bind_Done in Hst as ([] & s1 & _ & [=]).
  - done.
  - by apply bind_Done in Hst as ([] & s1 & _ & [=]).
  - destruct Hc as (n & r & -> & Hh). apply bind_Done in Hst as (v & s1 & [-> Hv]%load_next_Done & [= Hst _]). destruct v; [done|right].
    eapply (missing_link j _ _ _ _ HJ); [done|exact Hv|by rewrite Hcj..].
  - apply bind_Done in Hst as ([] & s1 & _ & Hst). destruct (owner h); [|done].
    by apply bind_Done in Hst as ([] & s2 & _ & [=]).
  - apply bind_Done in Hst as (x & s1 & _ & Hst). apply bind_Done in Hst as ([] & s2 & _ & [= Hst _]). by destruct (removed x).
Qed.

(** C3: first in, first out, with any number of producers: whatever the
    interleaving, the units detached so far and then those still queued are the
    pushed ones in the order of their exchanges of [tail], no unit is queued
    twice, pops return units in that order, and every detached unit has been
    returned, is in the hand of the pop that runs, or was passed over once for
    an [ABT_pool_remove] that marked it; the unit counter is the number of
    exchanges less those not counted yet, the removals and the pops, and plus
    those of both that are still to be taken off it (after the unlock). *)
Theorem mpsc_fifo s agents j : fresh_pool s → mreach s agents j →
  ∃ rest marked, remaining j rest ∧ NoDup rest ∧ (∀ t, t ∈ rest → inq (mp j) t = Some true) ∧
    popped j ++ in_hand (cons_ j) `sublist_of` taken j ∧ taken j ≡ₚ popped j ++ skipped j ++ in_hand (cons_ j) ∧
    dropped j ≡ₚ skipped j ++ marked ∧ NoDup marked ∧ (∀ t, t ∈ marked ↔ is_marked (mp j) t) ∧
    count (this (mp j)) =
      Z.of_nat (length (pushed j)) - uncounted j - Z.of_nat (length (dropped j)) - Z.of_nat (length (popped j)) + Z.of_nat (owed j).
Proof.
  intros Hf Hr. destruct (mreach_all _ _ _ Hf Hr) as ([q HJ] & [_ (l & Hl & Hd & Hm)] & Hc). exists (owners q), l.
  pose proof HJ as [J1 J2 J3 J4 J5 J6 JL J7]. split_and!; try done; [apply owners_nodup, (qh_nodup _ _ _ J1)|].
  intros t ?%elem_of_owners. by apply (qh_marked _ _ _ J1).
Qed.

(** C4: a pop that answers [nullptr] has seen an empty queue, unless a push was
    between its exchange and its link, or made one of them, while the pop ran. *)
Theorem mpsc_empty_pop s agents j s' : fresh_pool s → mreach s agents j → (∀ ret, cons_ j ≠ CIdle ret) →
  pop_step (cons_ j) (mp j) = Done (CIdle None) s' → pushed j = taken j ∨ busy j = true.
Proof.
  intros Hf Hr Hi Hst. destruct (mreach_all _ _ _ Hf Hr) as ([q HJ] & _). by eapply null_or_busy.
Qed.

(** No step of the queue meets a node that is gone: a pop can always take
    its next step, and a push can, except that pushing a unit that is already
    queued, or a dead one, is refused at its first access. *)
Theorem mpsc_never_dangles s agents j : fresh_pool s → mreach s agents j →
  (∃ c' s', pop_step (cons_ j) (mp j) = Done c' s') ∧
  ∀ a p, prods j !! a = Some p → (∃ p' s', push_step p (mp j) = Done p' s') ∨ ∃ t, p = PMark t ∧ inq (mp j) t ≠ Some false.
Proof.
  intros Hf Hr. destruct (mreach_all _ _ _ Hf Hr) as ([q HJ] & Hk & _). split; [by eapply pop_runs|].
  intros a p Ha. by eapply push_runs.
Qed.

(** C5: when no push and no pop is under way the concurrent queue is the storage
    the sequential operations start from, holding the units not yet detached. *)
Theorem mpsc_rest_is_store s agents j rest : fresh_pool s → mreach s agents j → at_rest j → remaining j rest →
  mpsc_store (mp j) rest.
Proof.
  intros Hf Hr [[ret Hc] Hi] Hq. destruct (mreach_all _ _ _ Hf Hr) as ([q HJ] & _). pose proof (mi_shape _ _ HJ) as Hsh.
  rewrite (queued_owners _ _ _ HJ Hq). split.
  - exists q. split; [|done]. split; [apply Hsh..|].
    assert (∀ y z, adj q y z → next_is (mp j) y (Some z)) as Hlk.
    { intros y z Hyz. destruct (qh_link _ _ _ Hsh y z Hyz) as [Hn|[_ [(a & t & -> & Ha)|(h & _ & Hh)]]]; [|by apply Hi in Ha|congruence].
      destruct y as [|t]; simpl in *; [congruence|]. destruct (heap (mp j) !! t); [|done]. injection Hn as <-. by eexists. }
    assert (∀ z, last q = Some z → next_is (mp j) z None) as Hls.
    { intros y Hy. pose proof (qh_last _ _ _ Hsh y Hy) as Hn.
      destruct y as [|t]; simpl in *; [congruence|]. destruct (heap (mp j) !! t); [|done]. injection Hn as <-. by eexists. }
    clear -Hlk Hls. induction q as [|y r IH]; simpl; [done|]. split.
    + destruct r as [|z r]; [by apply Hls|]. apply Hlk, adj_head.
    + apply IH; [intros u z Huz; by apply Hlk, adj_cons|]. intros z Hz. apply Hls. by destruct r.
  - intros t Ht%elem_of_owners. pose proof (qh_marked _ _ _ Hsh t Ht) as Hm. unfold inq in Hm.
    destruct (heap (mp j) !! t) as [x|]; [|done]. exists x. by injection Hm.
Qed.
