(* ===== verification/Pool.v ===== *)
(** * Pools

    The rest of src/pool.cpp on the whole [world]: the methods of [ABTI_pool]
    that choose between a user-defined pool's callbacks and the built-in
    storage, the creation and association helpers, and the [ABT_pool_*]
    interface.

    A handler's output parameters are part of its result: [(code, Some v)] is
    a call that returned [code] and stored [v], [(code, None)] one that stored
    nothing.  [me] is the rank of the calling PE ([CmiMyRank()]). *)

From Stdlib Require Import SpecFloat.
From S2P Require Import Prelude AbtTypes Objects Storage PoolList Sleepers PoolMpsc.

(** ** Binary64 arithmetic on [double] *)

Definition double : Type := spec_float.
Definition dadd (x y : double) : double := SFadd 53 1024 x y.
Definition dsub (x y : double) : double := SFsub 53 1024 x y.
Definition dleb (x y : double) : bool := SFleb x y.

(** ** Results of the interface

    [*out = v; return ABT_SUCCESS;], [return ABT_SUCCESS;] and [return e;] *)
Abbreviation ok v := (mret (ABT_SUCCESS, Some v)).
Abbreviation done_ := (mret (ABT_SUCCESS, None)).
Abbreviation err e := (mret (e, None)).

Section pool.
Context `{E : Ext}.

(** ** Units and pinning *)

Definition unit_to_thread (u : Z) : M world (option ptr) :=
  if ABTI_is_null_handle u then mret None else
  w ← get;
  if g_num_user_pools w =? 0 then mret None else mret (g_units w !! u).

Definition pinned_elsewhere (me : Z) (e : ext_st) (x : ABTI_thread) : bool :=
  bool_decide (t_type x = ABTI_THREAD_PRIMARY) &&
  negb (CthGetHomeRank (default 0 (cth x)) e =? me).

(** [pinned_elsewhere] of the thread at an address *)
Definition pinned_at (me : Z) (t : option ptr) : M world bool :=
  match t with
  | None => mret false
  | Some a => x ← thread a; w ← get; mret (pinned_elsewhere me (w_ext w) x)
  end.

(** the user's definition of a pool *)
Definition pool_def (p : ptr) : M world ABT_pool_def :=
  o ← pool p; match def o with Some d => mret d | None => fail BadDeref end.

(** ** Methods of [ABTI_pool] *)

Definition user_push (p : ptr) (u : Z) : M world unit :=
  d ← pool_def p; f ← callee (p_push d); ext_ (call_p_push f (ABTI_pool_handle (Some p)) u).
Definition user_pop (p : ptr) : M world (option ptr) :=
  d ← pool_def p; f ← callee (p_pop d);
  u ← ext (call_p_pop f (ABTI_pool_handle (Some p)));
  unit_to_thread u.

Definition push (p t : ptr) : M world unit :=
  o ← pool p;
  if user o then
    x ← thread t;
    user_push p (t_unit x) ;;
    on_pool p wake_after_push
  else on_pool p (push_builtin t).

Definition pop (me : Z) (p : ptr) : M world (option ptr) :=
  o ← pool p;
  if user o then
    t ← user_pop p;
    b ← pinned_at me t;
    match t, b with
    | Some a, true =>
        x ← thread a;
        user_push p (t_unit x) ;;
        n ← user_pop p;
        b ← pinned_at me n;
        (match n, b with
         | Some c, true => x ← thread c; user_push p (t_unit x) ;; mret None
         | _, _ => mret n
         end)
    | _, _ => mret t
    end
  else
    w ← get;
    on_pool p (if single_consumer o then pop_mpsc (pinned_elsewhere me (w_ext w))
               else pop_list (pinned_elsewhere me (w_ext w))).

(** [waiters] around the wait; [others] is what the rest of the system does
    while this thread sleeps on the condition variable. *)
Definition wait_for_push (p : ptr) (others : M world unit) : M world unit :=
  set_pool p (λ o, o <| waiters ::= Z.succ |>) ;;
  o ← pool p;
  when (user o || (count o =? 0)) others ;;
  set_pool p (λ o, o <| waiters ::= Z.pred |>).

Definition pop_timedwait (me : Z) (p : ptr) (abs_deadline : double) (others : M world unit) :
    M world (option ptr) :=
  o ← pool p;
  match (if user o then def o ≫= p_pop_timedwait else None) with
  | Some f =>
      u ← ext (call_p_pop_timedwait f (ABTI_pool_handle (Some p)) abs_deadline);
      unit_to_thread u
  | None =>
      t ← pop me p;
      match t with
      | Some _ => mret t
      | None =>
          now ← ext CmiWallTimer;
          if dleb abs_deadline now then mret None
          else wait_for_push p others ;; pop me p
      end
  end.

Definition size (p : ptr) : M world Z :=
  o ← pool p;
  if user o then
    d ← pool_def p; f ← callee (p_get_size d);
    w ← get; mret (call_p_get_size f (ABTI_pool_handle (Some p)) (w_ext w))
  else mret (if count o >? 0 then count o else 0).

Definition remove_unit (p t : ptr) : M world bool :=
  o ← pool p;
  x ← thread t;
  hit ← (if in_pool x && bool_decide (t_pool x = Some p) then
           on_pool p (if single_consumer o then mpsc_drop t else list_drop t)
         else mret false);
  when hit (set_pool p (λ o, o <| count ::= Z.pred |>)) ;;
  mret hit.

(** [ABTI_pool::for_each_unit]: the threads [f] is called on, in order.  A
    chain has one node per thread and the stub, so the fuel is enough. *)
Definition for_each_unit (p : ptr) : M world (list ptr) :=
  o ← pool p;
  on_pool p (
    n ← gets (λ s, S (base.size (heap s)));
    if single_consumer o then
      first ← load_next (q_head o); mpsc_units n first
    else list_units n (lhead o)).

(** ** Creation and association *)

(** [new ABTI_pool()]: zeros and the member initialisers *)
Definition new_pool : ABTI_pool :=
  mk_pool 0 0 0 0 false None 0 false None Stub Stub None None 0 0 0 0 0 [0; 0; 0; 0].

Definition put_pool (o : ABTI_pool) : M world ptr :=
  p ← new_addr; modify (λ w, w <| w_pools ::= insert p o |>) ;; mret p.
Definition delete_pool (p : ptr) : M world unit :=
  pool p ;; modify (λ w, w <| w_pools ::= delete p |>).

Definition ABTI_pool_create_builtin (k a auto : Z) : M world ptr :=
  id ← fetch_id;
  put_pool (new_pool <| kind := k |> <| access := a |> <| p_automatic := auto |>
    <| p_id := id |> <| user := false |> <| p_data := 0 |>
    <| single_consumer := (a <=? ABT_POOL_ACCESS_MPSC) |>).

Definition ABTI_pool_destroy (p : ptr) : M world unit :=
  o ← pool p;
  (match (if user o then def o ≫= p_free else None) with
   | Some f => ext_ (call_p_free f (ABTI_pool_handle (Some p)))
   | None => mret tt
   end) ;;
  delete_pool p.

Definition ABTI_pool_disassociate (t : ptr) : M world unit :=
  x ← thread t;
  (match t_pool x with
   | None => mret tt
   | Some p =>
       o ← pool p;
       when (user o && negb (ABTI_is_null_handle (t_unit x))) (
         modify (λ w, w <| g_units ::= delete (t_unit x) |>) ;;
         d ← pool_def p; f ← callee (u_free d); ext_ (call_u_free f (t_unit x)))
   end) ;;
  set_thread t (λ x, x <| t_unit := ABT_UNIT_NULL |> <| t_pool := None |>).

Definition null_unit_msg : string := "abt: u_create_from_thread returned ABT_UNIT_NULL".

Definition ABTI_pool_associate (t p : ptr) : M world unit :=
  x ← thread t;
  if decide (t_pool x = Some p) then mret tt else
  ABTI_pool_disassociate t ;;
  set_thread t (λ x, x <| t_pool := Some p |>) ;;
  o ← pool p;
  when (user o) (
    d ← pool_def p; f ← callee (u_create_from_thread d);
    u ← ext (call_u_create_from_thread f (ABTI_thread_handle (Some t)));
    (if ABTI_is_null_handle u then fail (Aborted null_unit_msg) else mret tt) ;;
    set_thread t (λ x, x <| t_unit := u |>) ;;
    modify (λ w, w <| g_units ::= insert u t |>)).

(** ** The interface *)

Definition thread_to_unit (t : option ptr) : M world Z :=
  match t with
  | None => mret ABT_UNIT_NULL
  | Some a =>
      x ← thread a;
      match t_pool x with
      | None => mret a
      | Some p => o ← pool p; mret (if user o then t_unit x else a)
      end
  end.
(** the thread of a unit; a built-in pool's unit is the thread pointer *)
Definition any_unit_to_thread (u : Z) : M world ptr :=
  t ← unit_to_thread u; mret (default u t).

(** [ABTI_pool *p = ABTI_pool_get(h); ABTI_CHECK_NULL(p, ABT_ERR_INV_POOL);] *)
Definition with_pool {A} (h : Z) (k : ptr → M world (Z * option A)) : M world (Z * option A) :=
  match ABTI_pool_get h with
  | None => mret (ABT_ERR_INV_POOL, None)
  | Some p => k p
  end.
(** [ABTI_CHECK_INITIALIZED()] *)
Definition check_init {A} (k : M world (Z * option A)) : M world (Z * option A) :=
  w ← get; if g_initialized w then k else err ABT_ERR_UNINITIALIZED.

Definition ABT_pool_create_basic (k a automatic newpool : Z) : M world (Z * option Z) :=
  check_init (
    if ABTI_is_null_handle newpool then err ABT_ERR_INV_ARG else
    if negb (k =? ABT_POOL_FIFO) && negb (k =? ABT_POOL_FIFO_WAIT) && negb (k =? ABT_POOL_RANDWS)
    then err ABT_ERR_INV_POOL_KIND else
    if (a <? ABT_POOL_ACCESS_PRIV) || (a >? ABT_POOL_ACCESS_MPMC)
    then err ABT_ERR_INV_POOL_ACCESS else
    p ← ABTI_pool_create_builtin k a automatic; ok (ABTI_pool_handle (Some p))).

Definition ABT_pool_create (d : option ABT_pool_def) (config newpool : Z) : M world (Z * option Z) :=
  check_init (
    match d with
    | None => err ABT_ERR_INV_POOL
    | Some d =>
        if ABTI_is_null_handle newpool then err ABT_ERR_INV_ARG else
        if is_null (u_create_from_thread d) || is_null (u_free d) || is_null (p_get_size d)
           || is_null (p_push d) || is_null (p_pop d) then err ABT_ERR_INV_POOL else
        id ← fetch_id;
        p ← put_pool (new_pool <| user := true |> <| def := Some d |> <| access := d_access d |>
              <| kind := ABT_POOL_FIFO |> <| p_automatic := ABT_FALSE |> <| p_id := id |>
              <| p_data := 0 |>);
        ret ← (match p_init d with
               | Some f => ext (call_p_init f (ABTI_pool_handle (Some p)) config)
               | None => mret ABT_SUCCESS
               end);
        if negb (ret =? ABT_SUCCESS) then delete_pool p ;; err ret else
        modify (λ w, w <| g_num_user_pools ::= Z.succ |>) ;;
        ok (ABTI_pool_handle (Some p))
    end).

(** [pool] points to a handle variable that holds [h]; the new value of that
    variable is the stored result. *)
Definition ABT_pool_free (pool_addr h : Z) : M world (Z * option Z) :=
  check_init (
    if ABTI_is_null_handle pool_addr then err ABT_ERR_INV_POOL else
    with_pool h (λ p, ABTI_pool_destroy p ;; ok ABT_POOL_NULL)).

Definition ABT_pool_get_access (h : Z) : M world (Z * option Z) :=
  with_pool h (λ p, o ← pool p; ok (access o)).
Definition ABT_pool_is_empty (h : Z) : M world (Z * option Z) :=
  with_pool h (λ p, n ← size p; ok (if n =? 0 then ABT_TRUE else ABT_FALSE)).
Definition ABT_pool_get_size (h : Z) : M world (Z * option Z) :=
  with_pool h (λ p, n ← size p; ok n).
Definition ABT_pool_get_total_size (h : Z) : M world (Z * option Z) :=
  with_pool h (λ p, o ← pool p; n ← size p;
    ok (wrapu64 (n + (if num_blocked o >? 0 then num_blocked o else 0)))).
Definition ABT_pool_set_data (h data : Z) : M world (Z * option unit) :=
  with_pool h (λ p, set_pool p (λ o, o <| p_data := data |>) ;; done_).
Definition ABT_pool_get_data (h : Z) : M world (Z * option Z) :=
  with_pool h (λ p, o ← pool p; ok (p_data o)).
Definition ABT_pool_get_id (h : Z) : M world (Z * option Z) :=
  with_pool h (λ p, o ← pool p; ok (wraps32 (p_id o))).

Definition ABT_pool_pop (me h : Z) : M world (Z * option Z) :=
  with_pool h (λ p, t ← pop me p; u ← thread_to_unit t; ok u).
Definition ABT_pool_pop_wait (me h : Z) (time_secs : double) (others : M world unit) :
    M world (Z * option Z) :=
  with_pool h (λ p, now ← ext CmiWallTimer;
    t ← pop_timedwait me p (dadd now time_secs) others; u ← thread_to_unit t; ok u).
Definition ABT_pool_pop_timedwait (me h : Z) (abstime_secs : double) (others : M world unit) :
    M world (Z * option Z) :=
  with_pool h (λ p, t ← pop_timedwait me p abstime_secs others; u ← thread_to_unit t; ok u).

Definition associate_and_push (t p : ptr) : M world unit :=
  x ← thread t;
  when (bool_decide (t_pool x ≠ Some p)) (ABTI_pool_associate t p) ;;
  push p t.

Definition ABT_pool_push (h u : Z) : M world (Z * option unit) :=
  with_pool h (λ p,
    t ← any_unit_to_thread u;
    if ABTI_is_null_handle t then err ABT_ERR_INV_UNIT else
    associate_and_push t p ;; done_).
Definition ABT_pool_remove (h u : Z) : M world (Z * option unit) :=
  with_pool h (λ p,
    o ← pool p;
    if user o then
      d ← pool_def p;
      (match p_remove d with Some f => ext_ (call_p_remove f h u) | None => mret tt end) ;; done_
    else remove_unit p u ;; done_).

Fixpoint print_units (print_fn arg : Z) (l : list ptr) : M world unit :=
  match l with
  | [] => mret tt
  | t :: l => ext_ (call_print print_fn arg t) ;; print_units print_fn arg l
  end.
Definition ABT_pool_print_all (h arg print_fn : Z) : M world (Z * option unit) :=
  with_pool h (λ p,
    o ← pool p;
    if user o then
      d ← pool_def p;
      (match p_print_all d with
       | Some f => ext_ (call_p_print_all f h arg print_fn)
       | None => mret tt
       end) ;; done_
    else l ← for_each_unit p; print_units print_fn arg l ;; done_).
Definition ABT_pool_print_all_threads (h arg print_f : Z) : M world (Z * option unit) :=
  with_pool h (λ p,
    o ← pool p;
    if user o then err ABT_ERR_FEATURE_NA
    else l ← for_each_unit p; print_units print_f arg l ;; done_).

Definition ABT_pool_pop_thread (me h : Z) : M world (Z * option Z) :=
  with_pool h (λ p, t ← pop me p; ok (ABTI_thread_handle t)).
Definition ABT_pool_pop_thread_ex (me h ctx : Z) : M world (Z * option Z) :=
  ABT_pool_pop_thread me h.
(** [while (n < max)]: the handles stored in [threads], in order *)
Fixpoint pop_up_to (me : Z) (p : ptr) (max : nat) : M world (list Z) :=
  match max with
  | O => mret []
  | S max =>
      t ← pop me p;
      match t with
      | None => mret []
      | Some _ => l ← pop_up_to me p max; mret (ABTI_thread_handle t :: l)
      end
  end.
Definition ABT_pool_pop_threads (me h max : Z) : M world (Z * option (list Z)) :=
  with_pool h (λ p, l ← pop_up_to me p (Z.to_nat max); ok l).
Definition ABT_pool_pop_threads_ex (me h max ctx : Z) : M world (Z * option (list Z)) :=
  ABT_pool_pop_threads me h max.
Definition ABT_pool_push_thread (h th : Z) : M world (Z * option unit) :=
  with_pool h (λ p,
    match ABTI_thread_get th with
    | None => err ABT_ERR_INV_THREAD
    | Some t => associate_and_push t p ;; done_
    end).
Definition ABT_pool_push_thread_ex (h th ctx : Z) : M world (Z * option unit) :=
  ABT_pool_push_thread h th.
Fixpoint ABT_pool_push_threads (h : Z) (ths : list Z) : M world (Z * option unit) :=
  match ths with
  | [] => done_
  | th :: ths =>
      r ← ABT_pool_push_thread h th;
      if negb (r.1 =? ABT_SUCCESS) then err r.1 else ABT_pool_push_threads h ths
  end.
Definition ABT_pool_push_threads_ex (h : Z) (ths : list Z) (ctx : Z) : M world (Z * option unit) :=
  ABT_pool_push_threads h ths.
Definition ABT_pool_pop_wait_thread (me h : Z) (time_secs : double) (others : M world unit) :
    M world (Z * option Z) :=
  with_pool h (λ p, now ← ext CmiWallTimer;
    t ← pop_timedwait me p (dadd now time_secs) others; ok (ABTI_thread_handle t)).
Definition ABT_pool_pop_wait_thread_ex (me h : Z) (time_secs : double) (ctx : Z)
    (others : M world unit) : M world (Z * option Z) :=
  ABT_pool_pop_wait_thread me h time_secs others.
Definition ABT_unit_get_thread (u : Z) : M world (Z * option Z) :=
  if ABTI_is_null_handle u then ok ABT_THREAD_NULL else
  t ← any_unit_to_thread u; ok (ABTI_thread_handle (Some t)).
End pool.
