(* ===== verification/PoolWorld.v ===== *)
(** * What the pools hold

    The contract of the built-in pools on the whole [world]: an abstract state
    that maps every built-in pool to its queue of units, the relation
    [pools_hold] between it and the heap, and the refinement theorems of
    [push], [pop], [remove_unit], [size], [for_each_unit] and the operations of
    the interface built from them. *)

From S2P Require Import Prelude AbtTypes Objects Storage PoolList Sleepers PoolMpsc Pool.

(** ** The relation *)

Definition rep_of (sc : bool) : pst → list ptr → Prop := if sc then mpsc_store else list_store.
Definition spec_pop_of (sc : bool) : (ptr → bool) → list ptr → option ptr * list ptr :=
  if sc then mpsc_spec_pop else PoolSpec.pop.

Section world.
Context `{E : Ext}.
Implicit Types (w : world) (C V : gmap Z (list ptr)) (c l : list ptr) (p q t : ptr).

Definition pst_at w p (o : ABTI_pool) : pst := mk_pst p o (w_threads w) (w_log w).

(** [C] lists the threads linked into each built-in pool. *)
Record world_ok w C : Prop := {
  wo_pool p c : C !! p = Some c → ∃ o, w_pools w !! p = Some o ∧ user o = false ∧
    rep_of (single_consumer o) (pst_at w p o) c ∧
    count o = Z.of_nat (length (units (w_threads w) c));
  wo_all p o : w_pools w !! p = Some o → user o = false → is_Some (C !! p);
  wo_masks p o : w_pools w !! p = Some o → masks_wf (smask o);
  wo_disj p q c d t : C !! p = Some c → C !! q = Some d → t ∈ c → t ∈ d → p = q;
  wo_assoc p c t x : C !! p = Some c → t ∈ c → w_threads w !! t = Some x → t_pool x = Some p;
  wo_idle t x : w_threads w !! t = Some x → (∀ p c, C !! p = Some c → t ∉ c) →
    in_pool x = false ∧ removed x = false;
  wo_brk p : is_Some (w_pools w !! p) → 256 ≤ p < w_brk w;
  wo_brk_low : 256 ≤ w_brk w;
}.

(** The pools hold the units [V], oldest first. *)
Definition pools_hold w V : Prop := ∃ C, world_ok w C ∧ V = units (w_threads w) <$> C.

(** What an operation on the storage of pool [p] leaves alone. *)
Record world_frame p w w' : Prop := {
  wf_threads : erase_queue <$> w_threads w' = erase_queue <$> w_threads w;
  wf_pools : erase_store <$> w_pools w' = erase_store <$> w_pools w;
  wf_other q : q ≠ p → w_pools w' !! q = w_pools w !! q;
  wf_rest : w_scheds w' = w_scheds w ∧ w_brk w' = w_brk w ∧ g_initialized w' = g_initialized w ∧
    g_next_id w' = g_next_id w ∧ g_num_user_pools w' = g_num_user_pools w ∧
    g_units w' = g_units w ∧ w_ext w' = w_ext w;
}.

(** ** One storage operation on one pool *)

Lemma rep_of_members sc s c :
  rep_of sc s c → NoDup c ∧ ∀ t, t ∈ c → ∃ x, heap s !! t = Some x ∧ in_pool x = true.
Proof. destruct sc; apply store_members. Qed.
Lemma rep_of_stable sc s s' c :
  rep_of sc s c → store_of (this s') = store_of (this s) →
  (∀ t, t ∈ c → queue_of <$> heap s' !! t = queue_of <$> heap s !! t) → rep_of sc s' c.
Proof. destruct sc; apply store_stable. Qed.

Lemma erase_store_user o o' :
  erase_store o' = erase_store o →
  user o' = user o ∧ smask o' = smask o ∧ single_consumer o' = single_consumer o.
Proof.
  intros Heq. split_and!.
  - exact (f_equal user Heq).
  - exact (f_equal smask Heq).
  - exact (f_equal single_consumer Heq).
Qed.
Lemma erase_queue_pool x x' : erase_queue x' = erase_queue x → t_pool x' = t_pool x.
Proof. intros Heq. exact (f_equal t_pool Heq). Qed.
Lemma erased_lookup (h h' : gmap Z ABTI_thread) t x' :
  erase_queue <$> h' = erase_queue <$> h → h' !! t = Some x' →
  ∃ x, h !! t = Some x ∧ erase_queue x' = erase_queue x.
Proof.
  intros Heq Hx. pose proof (f_equal (.!! t) Heq) as Ht. simpl in Ht.
  rewrite !lookup_fmap, Hx in Ht. simpl in Ht.
  destruct (h !! t) as [x|]; [|done]. exists x. split; [done|]. by apply (inj Some) in Ht.
Qed.

Lemma put_pst_frame cc p o s w :
  w_pools w !! p = Some o → queue_frame cc (pst_at w p o) s → world_frame p w (put_pst p s w).
Proof.
  intros Ho [Ht Hp Ha Hout]. split; simpl in *; [done| |by intros; rewrite lookup_insert_ne|done].
  rewrite fmap_insert, Hp. apply insert_id. by rewrite lookup_fmap, Ho.
Qed.

(** After it, [p] holds [c'] and every other pool what it held. *)
Lemma world_step cc c' c p o s w C :
  world_ok w C → C !! p = Some c → w_pools w !! p = Some o →
  rep_of (single_consumer o) s c' → queue_frame cc (pst_at w p o) s →
  count (this s) = Z.of_nat (length (units (heap s) c')) →
  c' ⊆ cc → (∀ t, t ∈ cc → t ∈ c' ∨ idle_in (heap s) t) →
  c ⊆ cc →
  (∀ t, t ∈ cc → t ∈ c ∨ idle_in (w_threads w) t ∧
     ∃ x, w_threads w !! t = Some x ∧ t_pool x = Some p) →
  world_ok (put_pst p s w) (<[p := c']> C) ∧
  units (w_threads (put_pst p s w)) <$> <[p := c']> C =
    <[p := units (heap s) c']> (units (w_threads w) <$> C).
Proof.
  intros [WP WA WM WD WS WI WB WL] Hc Ho Hrep [Ft Fp Fa Fo] Hcnt Hsub Hleft Hcc Hown. simpl in *.
  assert (∀ q d t, q ≠ p → C !! q = Some d → t ∈ d → t ∉ cc) as Hsep.
  { intros q d t Hq Hd Ht Htc. destruct (Hown t Htc) as [Htc'|[(x & Hx & Hin & _) _]].
    - by apply Hq, (WD q p d c t).
    - destruct (WP q d Hd) as (oq & _ & _ & Hr & _).
      destruct (proj2 (rep_of_members _ _ _ Hr) t Ht) as (y & Hy & Hy').
      simpl in Hy. congruence. }
  assert (∀ q d, q ≠ p → C !! q = Some d → units (heap s) d = units (w_threads w) d) as Hu.
  { intros q d Hq Hd. apply units_ext. intros t Ht. unfold is_removed.
    rewrite Fo; [done|]. by eapply Hsep. }
  destruct (erase_store_user _ _ Fp) as (Eu & Em & Es). simpl in *.
  assert (user o = false) as Huo by (destruct (WP p c Hc) as (? & ? & ? & _); congruence).
  split; [split|].
  - intros q d Hd. destruct (decide (q = p)) as [->|Hq].
    + rewrite lookup_insert_eq in Hd. simplify_eq. exists (this s). simpl.
      rewrite lookup_insert_eq. split_and!; [done|congruence| |done].
      rewrite Es. eapply rep_of_stable; [exact Hrep|done..].
    + rewrite lookup_insert_ne in Hd by done. destruct (WP q d Hd) as (oq & Hoq & ? & Hr & Hn).
      exists oq. simpl. rewrite lookup_insert_ne by done. split_and!; [done..| |].
      * eapply rep_of_stable; [exact Hr|done|]. intros t Ht. simpl. rewrite Fo; [done|].
        by eapply Hsep.
      * by rewrite (Hu q).
  - intros q oq Hoq Hus. simpl in Hoq. destruct (decide (q = p)) as [->|Hq].
    + rewrite lookup_insert_eq. eauto.
    + rewrite lookup_insert_ne in Hoq by done. rewrite lookup_insert_ne by done. eauto.
  - intros q oq Hoq. simpl in Hoq. destruct (decide (q = p)) as [->|Hq].
    + rewrite lookup_insert_eq in Hoq. simplify_eq. rewrite Em. by eapply WM.
    + rewrite lookup_insert_ne in Hoq by done. by eapply WM.
  - intros q r d d' t Hd Hd' Ht Ht'.
    destruct (decide (q = p)) as [->|Hq], (decide (r = p)) as [->|Hr]; [done|..].
    + rewrite lookup_insert_eq in Hd. rewrite lookup_insert_ne in Hd' by done. simplify_eq.
      exfalso. eapply Hsep; eauto.
    + rewrite lookup_insert_eq in Hd'. rewrite lookup_insert_ne in Hd by done. simplify_eq.
      exfalso. eapply Hsep; eauto.
    + rewrite lookup_insert_ne in Hd, Hd' by done. by eapply WD.
  - intros q d t x' Hd Ht Hx'. simpl in Hx'.
    destruct (erased_lookup _ _ _ _ Ft Hx') as (x & Hx & He).
    rewrite (erase_queue_pool _ _ He). destruct (decide (q = p)) as [->|Hq].
    + rewrite lookup_insert_eq in Hd. simplify_eq.
      destruct (Hown t (Hsub t Ht)) as [?|(_ & y & ? & ?)]; [by eapply WS|congruence].
    + rewrite lookup_insert_ne in Hd by done. by eapply WS.
  - intros t x Hx Hno. simpl in Hx. destruct (decide (t ∈ cc)) as [Ht|Ht].
    + destruct (Hleft t Ht) as [Hc'|(y & Hy & ? & ?)].
      * exfalso. by apply (Hno p c'); [apply lookup_insert_eq|].
      * naive_solver.
    + rewrite Fo in Hx by done. apply (WI t x Hx). intros q d Hd Htd.
      destruct (decide (q = p)) as [->|Hq]; [naive_solver|].
      by apply (Hno q d); [rewrite lookup_insert_ne|].
  - intros q Hq. simpl in Hq. apply WB. destruct (decide (q = p)) as [->|]; [eauto|].
    by rewrite lookup_insert_ne in Hq.
  - done.
  - rewrite fmap_insert. simpl. apply map_eq. intros q. destruct (decide (q = p)) as [->|Hq].
    + by rewrite !lookup_insert_eq.
    + rewrite !lookup_insert_ne by done. rewrite !lookup_fmap.
      destruct (C !! q) as [d|] eqn:Hd; [|done]. simpl. f_equal. by eapply Hu.
Qed.

(** ** The methods *)

Lemma pinned_elsewhere_ok me e : pinned_ok (pinned_elsewhere me e).
Proof. by intros []. Qed.

(** Which units the calling PE may not resume. *)
Definition pinned_in (me : Z) w t : bool := pin_at (w_threads w) (pinned_elsewhere me (w_ext w)) t.
(** The wake-ups a push into [p] sends. *)
Definition pool_wakes w p : list event :=
  from_option (λ o, wake_events (pst_at w p o)) [] (w_pools w !! p).
Definition consumer_of w p : bool := from_option single_consumer false (w_pools w !! p).

Lemma pinned_in_frame me p w w' t : world_frame p w w' → pinned_in me w' t = pinned_in me w t.
Proof.
  intros F. unfold pinned_in, pin_at. destruct (wf_rest _ _ _ F) as (_ & _ & _ & _ & _ & _ & ->).
  pose proof (f_equal (.!! t) (wf_threads _ _ _ F)) as Hq. simpl in Hq.
  rewrite !lookup_fmap in Hq. destruct (w_threads w !! t), (w_threads w' !! t); try done.
  simpl in Hq. apply (inj Some) in Hq. simpl.
  by rewrite <-(pinned_elsewhere_ok me (w_ext w)), Hq, (pinned_elsewhere_ok me (w_ext w)).
Qed.
Lemma consumer_of_frame p w w' q : world_frame p w w' → consumer_of w' q = consumer_of w q.
Proof.
  intros F. pose proof (f_equal (.!! q) (wf_pools _ _ _ F)) as Hq. simpl in Hq.
  rewrite !lookup_fmap in Hq. unfold consumer_of.
  destruct (w_pools w !! q) as [o|], (w_pools w' !! q) as [o'|]; try done. simpl in Hq.
  apply (inj Some) in Hq. simpl. by destruct (erase_store_user _ _ Hq) as (_ & _ & ->).
Qed.

Lemma spec_pop_count sc pin l r l' :
  (r, l') = spec_pop_of sc pin l →
  Z.of_nat (length l') = Z.of_nat (length l) - of_bool (non_null r).
Proof.
  destruct sc, l as [|a [|b l]]; simpl; try destruct (pin a); simpl; intros; simplify_eq; simpl;
    rewrite ?length_app; simpl; lia.
Qed.

Lemma hold_inv w V p l :
  pools_hold w V → V !! p = Some l →
  ∃ C c o, world_ok w C ∧ V = units (w_threads w) <$> C ∧ C !! p = Some c ∧
    l = units (w_threads w) c ∧ w_pools w !! p = Some o ∧ user o = false ∧
    rep_of (single_consumer o) (pst_at w p o) c ∧ count o = Z.of_nat (length l) ∧
    masks_wf (smask o).
Proof.
  intros (C & Hok & ->) Hl. rewrite lookup_fmap in Hl.
  destruct (C !! p) as [c|] eqn:Hc; simplify_eq/=.
  destruct (wo_pool _ _ Hok p c Hc) as (o & Ho & Hu & Hr & Hn).
  exists C, c, o. split_and!; try done. by eapply wo_masks.
Qed.

Lemma idle_not_linked w C p c t :
  world_ok w C → C !! p = Some c → idle_in (w_threads w) t → t ∉ c.
Proof.
  intros Hok Hc (x & Hx & Hin & _) Ht. destruct (wo_pool _ _ Hok p c Hc) as (o & _ & _ & Hr & _).
  destruct (proj2 (rep_of_members _ _ _ Hr) t Ht) as (y & Hy & ?). simpl in Hy. congruence.
Qed.

Lemma push_holds w V p l t x :
  pools_hold w V → V !! p = Some l →
  w_threads w !! t = Some x → in_pool x = false → removed x = false → t_pool x = Some p →
  wp (push p t) (λ _ w', pools_hold w' (<[p := PoolSpec.push t l]> V) ∧
    world_frame p w w' ∧ w_log w' = w_log w ++ pool_wakes w p ∧
    (∀ t', t' ≠ t → idle_in (w_threads w) t' → w_threads w' !! t' = w_threads w !! t')) w.
Proof.
  intros Hh Hl Hx Hin Hrm Hp. assert (idle_in (w_threads w) t) as Hid by (by exists x).
  destruct (hold_inv _ _ _ _ Hh Hl) as (C & c & o & Hok & -> & Hc & -> & Ho & Hu & Hr & Hn & Hm).
  pose proof (idle_not_linked _ _ _ _ _ Hok Hc Hid) as Hnt. unfold push.
  wp_step. eapply wp_pool; [done|]. rewrite Hu. eapply wp_on_pool; [done|].
  eapply wp_mono with (Q := λ _ s', rep_of (single_consumer o) s' (c ++ [t]) ∧
    queue_frame (c ++ [t]) (pst_at w p o) s' ∧
    units (heap s') (c ++ [t]) = PoolSpec.push t (units (w_threads w) c) ∧
    count (this s') = count o + 1 ∧ evs s' = w_log w ++ wake_events (pst_at w p o)).
  { destruct (single_consumer o) eqn:Hsc;
      [by apply mpsc_push_builtin|by apply list_push_builtin]. }
  intros [] s (Hr' & F & Hun & Hcnt & Hev).
  destruct (world_step (c ++ [t]) (c ++ [t]) c p o s w C) as [Hok' Hv]; try done.
  - rewrite Hcnt, Hn, Hun. unfold PoolSpec.push. rewrite length_app. simpl. lia.
  - by left.
  - set_solver.
  - intros t' [?| ->%list_elem_of_singleton]%elem_of_app; eauto.
  - split_and!.
    + exists (<[p := c ++ [t]]> C). split; [done|]. by rewrite Hv, Hun.
    + by eapply put_pst_frame.
    + unfold pool_wakes. rewrite Ho. done.
    + intros t' Hne Hid'. apply (qf_out _ _ _ F).
      pose proof (idle_not_linked _ _ _ _ _ Hok Hc Hid'). set_solver.
Qed.

Lemma pop_holds me w V p l :
  pools_hold w V → V !! p = Some l →
  wp (pop me p) (λ r w', ∃ l', (r, l') = spec_pop_of (consumer_of w p) (pinned_in me w) l ∧
    pools_hold w' (<[p := l']> V) ∧ world_frame p w w' ∧
    (∀ t, r = Some t → idle_in (w_threads w') t) ∧
    (∀ t, idle_in (w_threads w) t → w_threads w' !! t = w_threads w !! t)) w.
Proof.
  intros Hh Hl.
  destruct (hold_inv _ _ _ _ Hh Hl) as (C & c & o & Hok & -> & Hc & -> & Ho & Hu & Hr & Hn & Hm).
  unfold pop. wp_step. eapply wp_pool; [done|]. rewrite Hu. wp_step. wp_step.
  eapply wp_on_pool; [done|].
  unfold consumer_of. rewrite Ho. simpl.
  eapply wp_mono with (Q := λ r s', ∃ c', rep_of (single_consumer o) s' c' ∧
    queue_frame c (pst_at w p o) s' ∧ c' ⊆ c ∧
    (r, units (heap s') c') = spec_pop_of (single_consumer o) (pinned_in me w) (units (w_threads w) c) ∧
    (∀ t, t ∈ c → t ∈ c' ∨ idle_in (heap s') t) ∧
    count (this s') = count o - of_bool (non_null r) ∧
    (∀ t, r = Some t → idle_in (heap s') t)).
  { pose proof (pinned_elsewhere_ok me (w_ext w)). destruct (single_consumer o) eqn:Hsc;
      [by apply (store_take (FifoStore := mpsc_fifo_store))
      |by apply (store_take (FifoStore := list_fifo_store))]. }
  intros r s (c' & Hr' & F & Hsub & Hsp & Hleft & Hcnt & Hid). exists (units (heap s) c').
  destruct (world_step c c' c p o s w C) as [Hok' Hv]; try done.
  - rewrite Hcnt, Hn. symmetry. by eapply spec_pop_count.
  - by left.
  - split_and!; [done| |by eapply put_pst_frame|done|].
    + exists (<[p := c']> C). by rewrite Hv.
    + intros t Ht. apply (qf_out _ _ _ F). exact (idle_not_linked _ _ _ _ _ Hok Hc Ht).
Qed.

Lemma size_holds w V p l :
  pools_hold w V → V !! p = Some l →
  wp (size p) (λ n w', w' = w ∧ n = Z.of_nat (length l)) w.
Proof.
  intros Hh Hl.
  destruct (hold_inv _ _ _ _ Hh Hl) as (C & c & o & _ & _ & _ & _ & Ho & Hu & _ & Hn & _).
  unfold size. wp_step. eapply wp_pool; [done|]. rewrite Hu. wp_step. split; [done|].
  rewrite Hn. destruct (Z.of_nat (length l) >? 0) eqn:?; lia.
Qed.

(** A thread is queued in the pool it is associated with, if in any. *)
Lemma linked_iff w C p c t x :
  world_ok w C → C !! p = Some c → w_threads w !! t = Some x →
  t ∈ c ↔ in_pool x = true ∧ t_pool x = Some p.
Proof.
  intros Hok Hc Hx. split.
  - intros Ht. destruct (wo_pool _ _ Hok p c Hc) as (o & _ & _ & Hr & _).
    destruct (proj2 (rep_of_members _ _ _ Hr) t Ht) as (y & Hy & ?). simpl in Hy.
    split; [congruence|by eapply wo_assoc].
  - intros [Hin Hp]. destruct (decide (t ∈ c)) as [|Hnt]; [done|].
    destruct (wo_idle _ _ Hok t x Hx) as [? _]; [|congruence].
    intros q d Hd Ht. assert (t_pool x = Some q) by (by eapply wo_assoc). naive_solver.
Qed.

Lemma remove_count t l :
  NoDup l → Z.of_nat (length (PoolSpec.remove t l)) =
    Z.of_nat (length l) - of_bool (bool_decide (t ∈ l)).
Proof.
  unfold PoolSpec.remove. induction 1 as [|a l Ha Hnd IH]; [done|].
  rewrite filter_cons. destruct (decide (a ≠ t)) as [Hne|Heq].
  - simpl length. rewrite Nat2Z.inj_succ, IH.
    rewrite (bool_decide_ext (t ∈ a :: l) (t ∈ l)) by set_solver. lia.
  - apply dec_stable in Heq as ->. rewrite IH. rewrite bool_decide_false by done.
    rewrite (bool_decide_true (t ∈ t :: l)) by set_solver. simpl. lia.
Qed.
Lemma remove_absent t l : t ∉ l → PoolSpec.remove t l = l.
Proof. intros. apply filter_all. set_solver. Qed.

Lemma remove_holds w V p l t x :
  pools_hold w V → V !! p = Some l → w_threads w !! t = Some x →
  wp (remove_unit p t) (λ hit w', hit = bool_decide (t ∈ l) ∧
    pools_hold w' (<[p := PoolSpec.remove t l]> V) ∧ world_frame p w w' ∧
    (t ∈ l → if consumer_of w p then in_pool <$> w_threads w' !! t = Some true
             else idle_in (w_threads w') t)) w.
Proof.
  intros Hh Hl Hx.
  destruct (hold_inv _ _ _ _ Hh Hl) as (C & c & o & Hok & HV & Hc & -> & Ho & Hu & Hr & Hn & Hm).
  pose proof (linked_iff _ _ _ _ _ _ Hok Hc Hx) as Hiff.
  unfold remove_unit. wp_step. eapply wp_pool; [done|]. wp_step. eapply wp_thread; [done|]. wp_step.
  destruct (decide (t ∈ c)) as [Ht|Ht].
  - destruct (proj1 Hiff Ht) as [-> ->]. simpl. rewrite bool_decide_true by done.
    eapply wp_on_pool; [done|].
    eapply wp_mono with (Q := λ hit s', ∃ c', rep_of (single_consumer o) s' c' ∧
      queue_frame c (pst_at w p o) s' ∧ c' ⊆ c ∧
      units (heap s') c' = PoolSpec.remove t (units (w_threads w) c) ∧
      hit = bool_decide (t ∈ units (w_threads w) c) ∧
      (∀ t', t' ∈ c → t' ∈ c' ∨ idle_in (heap s') t') ∧ count (this s') = count o ∧
      (t ∈ c' ↔ single_consumer o = true)).
    { destruct (single_consumer o) eqn:Hsc;
        [by apply (store_drop (FifoStore := mpsc_fifo_store))
        |by apply (store_drop (FifoStore := list_fifo_store))]. }
    intros hit s (c' & Hr' & F & Hsub & Hun & Hhit & Hleft & Hcnt & Hstay). wp_step.
    set (s' := if hit then with_this s (this s <| count ::= Z.pred |>) else s).
    apply wp_mono with (Q := λ _ w', w' = put_pst p s' w).
    { unfold s'. destruct hit; unfold when; [|by wp_step].
      eapply wp_set_pool; [simpl; apply lookup_insert_eq|].
      unfold put_pst. simpl. unfold upd. simpl. by rewrite insert_insert_eq. }
    intros [] w' ->. wp_step.
    assert (queue_frame c (pst_at w p o) s') as F'.
    { eapply queue_frame_trans; [exact F|]. unfold s'. destruct hit; [by split|done]. }
    destruct (world_step c c' c p o s' w C) as [Hok' Hv]; try done.
    + eapply rep_of_stable; [exact Hr'|unfold s'; by destruct hit..].
    + assert (heap s' = heap s) as -> by (unfold s'; by destruct hit).
      assert (count (this s') = count (this s) - of_bool hit) as ->.
      { unfold s'. destruct hit; simpl; lia. }
      rewrite Hcnt, Hn, Hun, remove_count, <-Hhit; [done|].
      apply NoDup_filter, (rep_of_members _ _ _ Hr).
    + intros t' ?. assert (heap s' = heap s) as -> by (unfold s'; by destruct hit). auto.
    + by left.
    + assert (heap s' = heap s) as Hheap by (unfold s'; by destruct hit).
      split_and!; [done| |by eapply put_pst_frame|].
      * exists (<[p := c']> C). split; [done|]. by rewrite Hv, HV, Hheap, Hun.
      * intros _. unfold consumer_of. rewrite Ho. simpl. rewrite Hheap.
        destruct (single_consumer o); [|destruct (Hleft t Ht); naive_solver].
        destruct (proj2 (rep_of_members _ _ _ Hr') t) as (y & -> & Hy); [by apply Hstay|].
        simpl. by rewrite Hy.
  - assert (in_pool x && bool_decide (t_pool x = Some p) = false) as ->.
    { apply andb_false_iff. rewrite bool_decide_eq_false. destruct (in_pool x); naive_solver. }
    assert (t ∉ units (w_threads w) c) by (rewrite units_elem; naive_solver).
    wp_step. wp_step. unfold when. wp_step. wp_step.
    rewrite bool_decide_false, remove_absent, insert_id by done.
    split_and!; [done..|by split|done].
Qed.

(** [for_each_unit] starts at [head->next]: when a pop has left the head on
    the node of a unit, that unit is passed over. *)
Definition listed w p l : list ptr :=
  match w_pools w !! p with
  | Some o =>
      match single_consumer o, q_head o with
      | true, Qn t => PoolSpec.remove t l
      | _, _ => l
      end
  | None => l
  end.

Lemma put_pst_id p o w : w_pools w !! p = Some o → put_pst p (pst_at w p o) w = w.
Proof. intros Ho. destruct w. unfold put_pst, pst_at, upd. simpl in *. by rewrite insert_id. Qed.

Lemma for_each_holds w V p l :
  pools_hold w V → V !! p = Some l →
  wp (for_each_unit p) (λ r w', w' = w ∧ r = listed w p l) w.
Proof.
  intros Hh Hl.
  destruct (hold_inv _ _ _ _ Hh Hl) as (C & c & o & Hok & -> & Hc & -> & Ho & Hu & Hr & Hn & Hm).
  destruct (rep_of_members _ _ _ Hr) as [Hnd Hmem].
  assert (length c ≤ base.size (w_threads w))%nat as Hlen.
  { apply (store_length_heap (pst_at w p o)); [done|]. intros t (x & -> & _)%Hmem. eauto. }
  unfold for_each_unit, listed. rewrite Ho. wp_step. eapply wp_pool; [done|].
  eapply wp_on_pool; [done|]. st_step. st_step.
  lazymatch goal with |- wp _ (λ _ _, _ ∧ _ = ?R) _ =>
    apply wp_mono with (Q := λ r s', s' = pst_at w p o ∧ r = R) end;
    [|intros r s' [-> Hres]; split; [by apply put_pst_id|exact Hres]].
  remember (S (base.size (w_threads w))) as fuel eqn:Hfuel.
  cbn [heap]. rewrite <-Hfuel. destruct (single_consumer o) eqn:Hsc.
  - destruct Hr as [(q & [Hhd Htl Hnq Hq] & <-) _]. destruct q as [|a q]; [done|].
    simpl in Hhd. apply (inj Some) in Hhd as ->. destruct Hq as [Hn1 Hq]. st_step.
    apply (wp_load_next (q_head o) (head q)); [done|].
    pose proof (owners_length _ Hnq) as Hql. apply NoDup_cons in Hnq as [Hna Hnq].
    eapply wp_mono; [apply mpsc_units_spec; [done| |]|].
    + destruct (q_head o); simpl in *; [|destruct (bool_decide _)]; lia.
    + intros t Ht. destruct (Hmem t) as (x & Hx & _); [|by exists x].
      destruct (q_head o); simpl; set_solver.
    + intros r s' [-> ->]. split; [done|]. destruct (q_head o) as [|t] eqn:Hhd; [done|].
      simpl. rewrite units_cons. symmetry. assert (t ∉ units (w_threads w) (owners q)).
      { rewrite units_elem, elem_of_owners. naive_solver. }
      destruct (is_removed _ t); [by apply remove_absent|].
      unfold PoolSpec.remove. rewrite filter_cons_False by naive_solver. by apply remove_absent.
  - pose proof Hr as [Hl0 _]. change (lhead o) with (lhead (this (pst_at w p o))).
    rewrite (lr_head _ _ Hl0).
    eapply wp_mono; [eapply list_units_spec; [apply (lr_seg _ _ Hl0)|simpl; lia]|].
    intros r s' [-> ->]. split; [done|]. symmetry. by apply (list_store_units (pst_at w p o)).
Qed.

(** ** Operations that touch no storage *)

Record other_fields w w' : Prop := {
  ot_pools : w_pools w' = w_pools w;
  ot_brk : w_brk w' = w_brk w;
  ot_queue t : queue_of <$> w_threads w' !! t = queue_of <$> w_threads w !! t;
  ot_assoc t x x' : w_threads w !! t = Some x → w_threads w' !! t = Some x' →
    in_pool x = true → t_pool x' = t_pool x;
}.

Lemma queue_of_removed (h h' : gmap Z ABTI_thread) t :
  queue_of <$> h' !! t = queue_of <$> h !! t → is_removed h' t = is_removed h t.
Proof. unfold is_removed. destruct (h !! t), (h' !! t); try done. intros. by simplify_eq/=. Qed.

Lemma holds_other w w' V : pools_hold w V → other_fields w w' → pools_hold w' V.
Proof.
  intros (C & [WP WA WM WD WS WI WB WL] & ->) [Ep Eb Eq Ea].
  assert (∀ c, units (w_threads w') c = units (w_threads w) c) as Hu.
  { intros c. apply units_ext. intros. by apply queue_of_removed. }
  assert (∀ t x', w_threads w' !! t = Some x' → ∃ x, w_threads w !! t = Some x ∧
    queue_of x' = queue_of x) as Hback.
  { intros t x' Hx'. specialize (Eq t). rewrite Hx' in Eq.
    destruct (w_threads w !! t) as [x|]; [|done]. exists x. split; [done|].
    by apply (inj Some) in Eq. }
  exists C. split; [split|].
  - intros p c Hc. destruct (WP p c Hc) as (o & Ho & Hus & Hr & Hn). exists o.
    rewrite Ep, Hu. split_and!; [done..| |done]. eapply rep_of_stable; [exact Hr|done|].
    intros t _. apply Eq.
  - rewrite Ep. eauto.
  - rewrite Ep. eauto.
  - eauto.
  - intros p c t x' Hc Ht Hx'. destruct (Hback t x' Hx') as (x & Hx & Hq).
    destruct (WP p c Hc) as (o & _ & _ & Hr & _).
    destruct (proj2 (rep_of_members _ _ _ Hr) t Ht) as (y & Hy & Hin). simpl in Hy. simplify_eq.
    rewrite (Ea t x x') by done. by eapply WS.
  - intros t x' Hx' Hno. destruct (Hback t x' Hx') as (x & Hx & Hq).
    destruct (WI t x Hx Hno). unfold queue_of in Hq. simplify_eq/=. by split; congruence.
  - rewrite Ep, Eb. eauto.
  - by rewrite Eb.
  - apply map_fmap_ext. intros p c _. by rewrite Hu.
Qed.

Lemma other_fields_refl w : other_fields w w.
Proof. split; [done..|]. intros. by simplify_eq. Qed.
Lemma other_fields_trans w1 w2 w3 : other_fields w1 w2 → other_fields w2 w3 → other_fields w1 w3.
Proof.
  intros [P1 B1 Q1 A1] [P2 B2 Q2 A2]. split; [congruence..| |].
  - intros t. by rewrite Q2.
  - intros t x x' Hx Hx' Hin. pose proof (Q1 t) as Hq. rewrite Hx in Hq.
    destruct (w_threads w2 !! t) as [y|] eqn:Hy; [|done]. simpl in Hq.
    apply (inj Some) in Hq. unfold queue_of in Hq. simplify_eq/=.
    rewrite (A2 t y x'), (A1 t x y); congruence.
Qed.
(** A thread that is queued nowhere changes its pool or unit. *)
Lemma other_fields_thread w t x y :
  w_threads w !! t = Some x → in_pool x = false → queue_of y = queue_of x →
  other_fields w (w <| w_threads ::= insert t y |>).
Proof.
  intros Hx Hin Hq. split; [done..| |]; simpl.
  - intros t'. destruct (decide (t = t')) as [<-|].
    + rewrite lookup_insert_eq, Hx. simpl. by rewrite Hq.
    + by rewrite lookup_insert_ne.
  - intros t' z z' Hz Hz' Hzin. destruct (decide (t = t')) as [<-|]; [congruence|].
    rewrite lookup_insert_ne in Hz' by done. congruence.
Qed.
Lemma other_fields_rest w w' :
  w_pools w' = w_pools w → w_brk w' = w_brk w → w_threads w' = w_threads w → other_fields w w'.
Proof. intros ? ? Ht. split; rewrite ?Ht; [done..|]. intros. by simplify_eq. Qed.

(** The pool a thread leaves is alive and, if user-defined, can free its unit. *)
Definition can_leave w (x : ABTI_thread) : Prop :=
  ∀ q, t_pool x = Some q → ∃ o, w_pools w !! q = Some o ∧
    (user o = true → ∃ d f, def o = Some d ∧ u_free d = Some f).

Lemma disassociate_runs w t x :
  w_threads w !! t = Some x → can_leave w x →
  wp (ABTI_pool_disassociate t) (λ _ w', w_pools w' = w_pools w ∧ w_brk w' = w_brk w ∧ w_log w' = w_log w ∧
    w_threads w' = <[t := x <| t_unit := ABT_UNIT_NULL |> <| t_pool := None |>]> (w_threads w)) w.
Proof.
  intros Hx Hl. unfold ABTI_pool_disassociate. wp_step. eapply wp_thread; [done|]. wp_step.
  apply wp_mono with (Q := λ _ w', w_pools w' = w_pools w ∧ w_brk w' = w_brk w ∧
    w_threads w' = w_threads w ∧ w_log w' = w_log w).
  { destruct (t_pool x) as [q|] eqn:Hq; [|by wp_step].
    destruct (Hl q Hq) as (o & Ho & Hd). wp_step. eapply wp_pool; [done|].
    wp_step; [|done]. destruct (Hd ltac:(by destruct (user o))) as (d & f & Hdf & Hf).
    wp_step. wp_step. wp_step. unfold pool_def. wp_step. eapply wp_pool; [done|].
    rewrite Hdf. wp_step. rewrite Hf. wp_step. done. }
  intros [] w1 (Ep & Eb & Et & El).
  eapply wp_set_thread; [by rewrite Et|]. split_and!; [done..|simpl; by rewrite Et].
Qed.
Lemma associate_runs w t x p o :
  w_threads w !! t = Some x → can_leave w x →
  w_pools w !! p = Some o → user o = false → t_pool x ≠ Some p →
  wp (ABTI_pool_associate t p) (λ _ w', w_pools w' = w_pools w ∧ w_brk w' = w_brk w ∧ w_log w' = w_log w ∧
    w_threads w' = <[t := x <| t_unit := ABT_UNIT_NULL |> <| t_pool := Some p |>]> (w_threads w)) w.
Proof.
  intros Hx Hl Ho Hu Hne. unfold ABTI_pool_associate. wp_step. eapply wp_thread; [done|].
  rewrite decide_False by done. wp_step. eapply wp_mono; [by apply disassociate_runs|].
  intros [] w1 (Ep & Eb & El & Et). wp_step.
  eapply wp_set_thread; [rewrite Et; apply lookup_insert_eq|]. wp_step.
  eapply wp_pool; [simpl; by rewrite Ep|]. rewrite Hu. unfold when. wp_step.
  split_and!; [done..|simpl; by rewrite Et, insert_insert_eq].
Qed.
(** Of a thread that is queued nowhere: nothing a pool holds is touched. *)
Lemma moved_thread w w' t x y :
  w_threads w !! t = Some x → in_pool x = false → queue_of y = queue_of x →
  w_pools w' = w_pools w → w_brk w' = w_brk w → w_threads w' = <[t := y]> (w_threads w) → other_fields w w'.
Proof.
  intros Hx Hin Hq Ep Eb Et. eapply other_fields_trans; [apply (other_fields_thread w t x y); done|]. by apply other_fields_rest.
Qed.
Lemma disassociate_spec w t x :
  w_threads w !! t = Some x → in_pool x = false → can_leave w x →
  wp (ABTI_pool_disassociate t) (λ _ w', other_fields w w' ∧ w_log w' = w_log w ∧
    w_threads w' = <[t := x <| t_unit := ABT_UNIT_NULL |> <| t_pool := None |>]> (w_threads w)) w.
Proof.
  intros Hx Hin Hl. eapply wp_mono; [by apply disassociate_runs|]. intros [] w' (? & ? & ? & Ht).
  split_and!; [|done..]. by refine (moved_thread w w' t x _ Hx Hin _ _ _ Ht).
Qed.
Lemma associate_spec w t x p o :
  w_threads w !! t = Some x → in_pool x = false → can_leave w x →
  w_pools w !! p = Some o → user o = false → t_pool x ≠ Some p →
  wp (ABTI_pool_associate t p) (λ _ w', other_fields w w' ∧ w_log w' = w_log w ∧
    w_threads w' = <[t := x <| t_unit := ABT_UNIT_NULL |> <| t_pool := Some p |>]> (w_threads w)) w.
Proof.
  intros Hx Hin Hl Ho Hu Hne. eapply wp_mono; [by eapply associate_runs|]. intros [] w' (? & ? & ? & Ht).
  split_and!; [|done..]. by refine (moved_thread w w' t x _ Hx Hin _ _ _ Ht).
Qed.

(** The pools of all threads are alive. *)
Definition all_leave w : Prop := ∀ t x, w_threads w !! t = Some x → can_leave w x.
Lemma can_leave_erased w w' x y :
  erase_store <$> w_pools w' = erase_store <$> w_pools w → t_pool y = t_pool x → can_leave w x → can_leave w' y.
Proof.
  intros Heq Ht Hl q Hq. destruct (Hl q) as (o & Ho & Hu); [congruence|].
  pose proof (f_equal (.!! q) Heq) as Hlk. simpl in Hlk. rewrite !lookup_fmap, Ho in Hlk.
  destruct (w_pools w' !! q) as [o'|]; [|done]. simpl in Hlk. apply (inj Some) in Hlk.
  exists o'. split; [done|]. assert (user o' = user o) as -> by exact (f_equal user Hlk).
  assert (def o' = def o) as -> by exact (f_equal def Hlk). done.
Qed.
Lemma all_leave_frame p w w' : world_frame p w w' → all_leave w → all_leave w'.
Proof.
  intros F Ha t y Hy. destruct (erased_lookup _ _ _ _ (wf_threads _ _ _ F) Hy) as (x & Hx & He).
  eapply can_leave_erased; [apply (wf_pools _ _ _ F)|by apply erase_queue_pool|by eapply Ha].
Qed.

(** What a push of [t] leaves alone. *)
Record push_frame t w w' : Prop := {
  pf_idle t' : t' ≠ t → idle_in (w_threads w) t' → w_threads w' !! t' = w_threads w !! t';
  pf_pools : erase_store <$> w_pools w' = erase_store <$> w_pools w;
  pf_types t' : t_type <$> w_threads w' !! t' = t_type <$> w_threads w !! t';
  pf_leave : all_leave w → all_leave w';
}.

Lemma erased_types (h h' : gmap Z ABTI_thread) t :
  erase_queue <$> h' = erase_queue <$> h → t_type <$> h' !! t = t_type <$> h !! t.
Proof.
  intros Heq. pose proof (f_equal (.!! t) Heq) as Ht. simpl in Ht. rewrite !lookup_fmap in Ht.
  destruct (h !! t), (h' !! t); try done. simpl in *. apply (inj Some) in Ht. f_equal.
  exact (f_equal t_type Ht).
Qed.

(** Associating a thread that is queued nowhere, and pushing it. *)
Lemma associate_and_push_holds w V p l t x :
  pools_hold w V → V !! p = Some l →
  w_threads w !! t = Some x → in_pool x = false → removed x = false → can_leave w x →
  wp (associate_and_push t p) (λ _ w', pools_hold w' (<[p := PoolSpec.push t l]> V) ∧
    w_log w' = w_log w ++ pool_wakes w p ∧ push_frame t w w') w.
Proof.
  intros Hh Hl Hx Hin Hrm Hlv.
  destruct (hold_inv _ _ _ _ Hh Hl) as (C & c & o & _ & _ & _ & _ & Ho & Hu & _ & _ & _).
  unfold associate_and_push. wp_step. eapply wp_thread; [done|]. wp_step.
  apply wp_mono with (Q := λ _ w', other_fields w w' ∧ w_log w' = w_log w ∧
    ∃ x', w_threads w' = <[t := x']> (w_threads w) ∧ queue_of x' = queue_of x ∧
      t_type x' = t_type x ∧ t_pool x' = Some p).
  { apply wp_when; intros Hb.
    - apply bool_decide_eq_true in Hb. eapply wp_mono; [by eapply associate_spec|].
      intros [] w' (F & El & Et). split_and!; [done..|]. rewrite Et. eauto.
    - apply bool_decide_eq_false, dec_stable in Hb.
      split_and!; [apply other_fields_refl|done|]. exists x. by rewrite insert_id. }
  intros [] w1 (F & El & x' & Hx' & Hq & Hty & Hp). pose proof Hq as Hq'. unfold queue_of in Hq'.
  simplify_eq.
  eapply wp_mono; [eapply (push_holds w1 V p l t x');
    [by eapply holds_other|done|by rewrite Hx', lookup_insert_eq|congruence..]|].
  intros [] w2 (Hh2 & F2 & El2 & Hi2). split_and!; [done| |split].
  - rewrite El2, El. f_equal. unfold pool_wakes. by rewrite (ot_pools _ _ F).
  - intros t' Hne Hid. rewrite Hi2; [|done|].
    + by rewrite Hx', lookup_insert_ne.
    + destruct Hid as (y & Hy & ?). exists y. by rewrite Hx', lookup_insert_ne.
  - by rewrite (wf_pools _ _ _ F2), (ot_pools _ _ F).
  - intros t'. rewrite (erased_types _ _ t' (wf_threads _ _ _ F2)), Hx'.
    destruct (decide (t = t')) as [<-|]; [|by rewrite lookup_insert_ne].
    rewrite lookup_insert_eq, Hx. simpl. by rewrite Hty.
  - intros Ha. eapply all_leave_frame; [exact F2|]. intros t' y. rewrite Hx'.
    destruct (decide (t = t')) as [<-|]; [|rewrite lookup_insert_ne by done].
    + rewrite lookup_insert_eq. intros [= <-] q Hq2. rewrite Hp in Hq2. injection Hq2 as <-. rewrite (ot_pools _ _ F). exists o. split; [done|]. by rewrite Hu.
    + intros Hy. eapply can_leave_erased; [by rewrite (ot_pools _ _ F)|done|by eapply Ha].
Qed.

(** ** Creation *)

Lemma new_pool_rep w p o :
  store_of o = store_of new_pool → rep_of (single_consumer o) (pst_at w p o) [].
Proof.
  unfold store_of. simpl. intros Hs. simplify_eq/=. unfold rep_of. destruct (single_consumer o).
  - split; [|set_solver]. exists [Stub]. split; [|done].
    split; simpl; [congruence|congruence|apply NoDup_singleton|by split].
  - split; [|set_solver]. split; simpl; [done..|constructor|done].
Qed.

(** A new built-in pool, at an address no pool has, holds nothing. *)
Lemma put_pool_holds w V o :
  pools_hold w V → store_of o = store_of new_pool → count o = 0 → masks_wf (smask o) →
  user o = false →
  wp (put_pool o) (λ p w', 256 ≤ p ∧ V !! p = None ∧ pools_hold w' (<[p := []]> V) ∧
    w' = w <| w_pools ::= insert p o |> <| w_brk ::= Z.succ |>) w.
Proof.
  intros (C & [WP WA WM WD WS WI WB WL] & ->) Hs Hn Hm Hu.
  unfold put_pool, new_addr. unfold wp, mbind, M_bind. simpl. set (p := w_brk w).
  assert (w_pools w !! p = None) as Hf.
  { apply eq_None_not_Some. intros ?%WB. unfold p in *. lia. }
  assert (∀ w', rep_of (single_consumer o) (pst_at w' p o) []) as Hrep
    by (intros; by apply new_pool_rep).
  assert (C !! p = None) as HC.
  { apply eq_None_not_Some. intros [c (? & ? & _)%WP]. congruence. }
  split_and!; [done|by rewrite lookup_fmap, HC| |done].
  exists (<[p := []]> C). split; [|by rewrite fmap_insert].
  split; simpl.
  - intros q c. destruct (decide (q = p)) as [->|Hq].
    + rewrite !lookup_insert_eq. intros. simplify_eq. exists o.
      split_and!; [done..| |done]. apply Hrep.
    + rewrite !lookup_insert_ne by done. apply WP.
  - intros q oq. destruct (decide (q = p)) as [->|Hq].
    + rewrite !lookup_insert_eq. eauto.
    + rewrite !lookup_insert_ne by done. apply WA.
  - intros q oq. destruct (decide (q = p)) as [->|Hq].
    + rewrite lookup_insert_eq. intros. by simplify_eq.
    + rewrite lookup_insert_ne by done. apply WM.
  - intros q r c d t. destruct (decide (q = p)) as [->|Hq], (decide (r = p)) as [->|Hr];
      rewrite ?lookup_insert_eq, ?lookup_insert_ne by done; try set_solver; apply WD.
  - intros q c t x. destruct (decide (q = p)) as [->|Hq];
      rewrite ?lookup_insert_eq, ?lookup_insert_ne by done; [set_solver|apply WS].
  - intros t x Hx Hno. apply (WI t x Hx). intros q c Hc. destruct (decide (q = p)); [congruence|].
    apply (Hno q). by rewrite lookup_insert_ne.
  - intros q Hq. destruct (decide (q = p)) as [->|]; [unfold p in *; lia|].
    rewrite lookup_insert_ne in Hq by done. apply WB in Hq. lia.
  - lia.
Qed.

Lemma create_builtin_holds w V k a auto :
  pools_hold w V →
  wp (ABTI_pool_create_builtin k a auto) (λ p w', 256 ≤ p ∧ V !! p = None ∧
    pools_hold w' (<[p := []]> V) ∧
    ∃ o, w_pools w' = <[p := o]> (w_pools w) ∧ kind o = k ∧ access o = a ∧
      p_automatic o = auto ∧ p_id o = g_next_id w ∧
      single_consumer o = bool_decide (a ≤ ABT_POOL_ACCESS_MPSC)) w.
Proof.
  intros Hh. unfold ABTI_pool_create_builtin. wp_step. unfold fetch_id, wp at 1.
  eapply wp_mono; [apply (put_pool_holds _ V)|].
  - eapply holds_other; [exact Hh|]. by apply other_fields_rest.
  - done.
  - done.
  - split; [done|]. simpl. intros m. rewrite !elem_of_cons. set_solver by lia.
  - done.
  - intros p w' (? & ? & ? & ->). split_and!; [done..|]. eexists. split; [done|]. simpl.
    split_and!; try done. destruct (Z.leb_spec a ABT_POOL_ACCESS_MPSC).
    + by rewrite bool_decide_true.
    + by rewrite bool_decide_false by lia.
Qed.

(** ** The interface *)

Lemma hold_handle w V p l : pools_hold w V → V !! p = Some l → ABTI_pool_get p = Some p.
Proof.
  intros Hh Hl.
  destruct (hold_inv _ _ _ _ Hh Hl) as (C & c & o & Hok & _ & _ & _ & Ho & _).
  destruct (wo_brk _ _ Hok p) as [? _]; [by eexists|].
  unfold ABTI_pool_get, ABTI_obj, ABTI_is_null_handle. by destruct (Z.ltb_spec p 256); [lia|].
Qed.

Lemma wp_with_pool {A} w V p l (k : ptr → M world (Z * option A)) Q :
  pools_hold w V → V !! p = Some l → wp (k p) Q w → wp (with_pool p k) Q w.
Proof. intros. unfold with_pool. by erewrite hold_handle. Qed.

(** ** Fields of a pool outside its storage *)

Lemma holds_put_pool w V p o o' :
  pools_hold w V → w_pools w !! p = Some o →
  store_of o' = store_of o → count o' = count o → masks_wf (smask o') →
  user o' = user o → single_consumer o' = single_consumer o →
  pools_hold (w <| w_pools ::= insert p o' |>) V.
Proof.
  intros (C & [WP WA WM WD WS WI WB WL] & ->) Ho Est Ec Em Eu Esc.
  exists C. split; [|done]. split; simpl.
  - intros q c Hc. destruct (WP q c Hc) as (oq & Hoq & Hu & Hr & Hn).
    destruct (decide (p = q)) as [<-|].
    + assert (oq = o) as -> by congruence. exists o'. rewrite lookup_insert_eq.
      split_and!; [done|congruence| |congruence]. rewrite Esc.
      eapply rep_of_stable; [exact Hr|done|done].
    + exists oq. rewrite lookup_insert_ne by done. done.
  - intros q oq. destruct (decide (p = q)) as [<-|].
    + rewrite lookup_insert_eq. intros [= <-] Hu. apply (WA p o); [done|congruence].
    + rewrite lookup_insert_ne by done. eauto.
  - intros q oq. destruct (decide (p = q)) as [<-|].
    + rewrite lookup_insert_eq. by intros [= <-].
    + rewrite lookup_insert_ne by done. eauto.
  - done.
  - done.
  - done.
  - intros q Hq. apply WB. destruct (decide (p = q)) as [<-|]; [eauto|].
    by rewrite lookup_insert_ne in Hq.
  - done.
Qed.
Lemma set_pool_holds w V p o f :
  pools_hold w V → w_pools w !! p = Some o →
  store_of (f o) = store_of o → count (f o) = count o → smask (f o) = smask o →
  user (f o) = user o → single_consumer (f o) = single_consumer o →
  wp (set_pool p f) (λ _ w', pools_hold w' V ∧ w' = w <| w_pools ::= insert p (f o) |>) w.
Proof.
  intros Hh Ho ? ? Em ? ?. eapply wp_set_pool; [done|]. split; [|done]. eapply holds_put_pool; [done..| | |]; [|done|done].
  rewrite Em. destruct Hh as (C & Hok & _). by eapply wo_masks.
Qed.
End world.
