(* ===== verification/PoolApi.v ===== *)
(** * The pool interface on built-in pools

    What a caller of [ABT_pool_*] (src/pool.cpp) observes: the queue each call
    leaves behind, the codes it returns and the wake-ups it sends. *)

From S2P Require Import Prelude AbtTypes Objects Storage PoolList Sleepers PoolMpsc Pool PoolWorld.

Section api.
Context `{E : Ext}.
Implicit Types (w : world) (V : gmap Z (list ptr)) (l : list ptr) (p t : ptr).

Lemma thread_handle_get t : 256 ≤ t → ABTI_thread_get t = Some t.
Proof.
  intros. unfold ABTI_thread_get, ABTI_obj, ABTI_is_null_handle.
  by destruct (Z.ltb_spec t 256); [lia|].
Qed.

Lemma push_thread_holds w V p l t x :
  pools_hold w V → V !! p = Some l → 256 ≤ t →
  w_threads w !! t = Some x → in_pool x = false → removed x = false → can_leave w x →
  wp (ABT_pool_push_thread p t) (λ r w', r = (ABT_SUCCESS, None) ∧
    pools_hold w' (<[p := PoolSpec.push t l]> V) ∧ w_log w' = w_log w ++ pool_wakes w p ∧
    push_frame t w w') w.
Proof.
  intros Hh Hl Ht Hx Hin Hrm Hlv. eapply wp_with_pool; [done..|].
  rewrite thread_handle_get by done. wp_step.
  eapply wp_mono; [by eapply associate_and_push_holds|]. intros [] w' (? & ? & ?). by wp_step.
Qed.

(** Repeated pops of a pool whose units the caller may all resume. *)
Lemma pop_up_to_holds me max w V p l :
  pools_hold w V → V !! p = Some l → (∀ t, t ∈ l → pinned_in me w t = false) →
  wp (pop_up_to me p max) (λ r w', r = take max l ∧
    pools_hold w' (<[p := drop max l]> V)) w.
Proof.
  revert w V l. induction max as [|max IH]; intros w V l Hh Hl Hp; cbn [pop_up_to].
  { wp_step. simpl. by rewrite drop_0, insert_id. }
  wp_step. eapply wp_mono; [by eapply pop_holds|].
  intros r w1 (l' & Hr & Hh1 & F & _).
  destruct l as [|a l].
  { assert (r = None ∧ l' = []) as [-> ->].
    { destruct (consumer_of w p); simpl in Hr; by simplify_eq. }
    wp_step. split; [done|]. by rewrite drop_nil. }
  assert (r = Some a ∧ l' = l) as [-> ->].
  { assert (pinned_in me w a = false) as Ha by (apply Hp; set_solver).
    destruct (consumer_of w p); simpl in Hr; rewrite Ha in Hr; by simplify_eq. }
  wp_step. eapply wp_mono; [apply (IH w1 (<[p := l]> V) l)|].
  - done.
  - apply lookup_insert_eq.
  - intros t Ht. rewrite (pinned_in_frame me p w w1 t F). apply Hp. set_solver.
  - intros r w2 (-> & Hh2). wp_step. split; [done|]. simpl. by rewrite insert_insert_eq in Hh2.
Qed.

Lemma push_queued_aborts p o t x w :
  w_pools w !! p = Some o → user o = false → w_threads w !! t = Some x → in_pool x = true →
  push p t w = Faulted (Aborted push_twice_msg).
Proof.
  intros Ho Hu Hx Hin. unfold push, mbind, M_bind, pool. rewrite Ho, Hu. unfold on_pool. rewrite Ho.
  unfold push_builtin, mbind, M_bind, th, set_th. cbn [heap]. rewrite Hx. cbn [heap]. by rewrite Hx, Hin.
Qed.

(** What a pop leaves: the others in place, the unit handed over queued nowhere. *)
Lemma spec_pop_perm sc pin l r l' :
  (r, l') = spec_pop_of sc pin l →
  l ≡ₚ option_list r ++ l'.
Proof.
  destruct sc, l as [|a l]; simpl; intros Heq; try (destruct (pin a)); simplify_eq/=; try done.
  - by rewrite Permutation_app_comm.
  - destruct l as [|b l]; simplify_eq/=; [done|]. apply Permutation_swap.
Qed.

Lemma pool_remove_holds w V p l t x :
  pools_hold w V → V !! p = Some l → w_threads w !! t = Some x →
  wp (ABT_pool_remove p t) (λ r w', r = (ABT_SUCCESS, None) ∧
    pools_hold w' (<[p := PoolSpec.remove t l]> V) ∧ world_frame p w w' ∧
    (t ∈ l → if consumer_of w p then in_pool <$> w_threads w' !! t = Some true
             else idle_in (w_threads w') t)) w.
Proof.
  intros Hh Hl Hx. destruct (hold_inv _ _ _ _ Hh Hl) as (C & c & o & _ & _ & _ & _ & Ho & Hu & _).
  eapply wp_with_pool; [done..|]. wp_step. eapply wp_pool; [done|]. rewrite Hu. wp_step.
  eapply wp_mono; [by eapply remove_holds|]. intros hit w' (_ & Hv & F & Hf). by wp_step.
Qed.

(** The threads [ths] may be pushed one after the other. *)
Definition pushable w (ths : list ptr) : Prop :=
  NoDup ths ∧ ∀ t, t ∈ ths → 256 ≤ t ∧ ∃ x, w_threads w !! t = Some x ∧ in_pool x = false ∧
    removed x = false ∧ can_leave w x.

Lemma push_threads_holds ths w V p l :
  pools_hold w V → V !! p = Some l → pushable w ths →
  wp (ABT_pool_push_threads p ths) (λ r w', r = (ABT_SUCCESS, None) ∧
    pools_hold w' (<[p := l ++ ths]> V) ∧
    ∀ t, t_type <$> w_threads w' !! t = t_type <$> w_threads w !! t) w.
Proof.
  revert w V l. induction ths as [|t ths IH]; intros w V l Hh Hl [Hnd Hp]; cbn [ABT_pool_push_threads].
  { wp_step. rewrite app_nil_r, insert_id by done. done. }
  destruct (Hp t) as (Ht & x & Hx & Hin & Hrm & Hlv); [set_solver|].
  apply NoDup_cons in Hnd as [Hnt Hnd].
  wp_step. eapply wp_mono; [by eapply push_thread_holds|].
  intros r w1 (-> & Hh1 & _ & [F1 F2 F3 _]). simpl.
  eapply wp_mono; [apply (IH w1 (<[p := l ++ [t]]> V) (l ++ [t]));
    [done|apply lookup_insert_eq|split; [done|]]|].
  - intros t' Ht'. destruct (Hp t') as (? & x' & Hx' & ? & ? & ?); [set_solver|].
    split; [done|]. exists x'. split_and!; [|done..|by eapply can_leave_erased].
    rewrite F1; [done|set_solver|by exists x'].
  - intros r w2 (-> & Hh2 & Hty). split_and!; [done| |].
    + by rewrite insert_insert_eq, <-app_assoc in Hh2.
    + intros t'. by rewrite Hty.
Qed.

(** ** Claims *)

(** C1: pushing a ULT that is in no pool into a built-in pool succeeds,
    associates it with the pool and puts it behind every unit the pool
    holds, changes the units of no other pool, and sends exactly the
    wake-ups for the timed pop and the parked execution streams of that
    pool. *)
Theorem push_thread_appends w V p l t x :
  pools_hold w V → V !! p = Some l → 256 ≤ t →
  w_threads w !! t = Some x → in_pool x = false → removed x = false → can_leave w x →
  wp (ABT_pool_push_thread p t) (λ r w', r = (ABT_SUCCESS, None) ∧
    pools_hold w' (<[p := l ++ [t]]> V) ∧ w_log w' = w_log w ++ pool_wakes w p) w.
Proof.
  intros. eapply wp_mono; [by eapply push_thread_holds|]. by intros r w' (? & ? & ? & _).
Qed.

(** C2: popping a built-in pool hands over its oldest unit that the calling
    PE may resume, as the storage of the pool defines it (a locked pool
    passes over a primary ULT pinned to another PE, a lock-free pool puts it
    at the back and reports empty); no unit is lost or duplicated, every
    other pool stays as it was, and a unit handed over is in no pool
    afterwards. *)
Theorem pop_thread_takes me w V p l :
  pools_hold w V → V !! p = Some l →
  wp (ABT_pool_pop_thread me p) (λ c w', ∃ r l',
    c = (ABT_SUCCESS, Some (ABTI_thread_handle r)) ∧
    (r, l') = spec_pop_of (consumer_of w p) (pinned_in me w) l ∧
    l ≡ₚ option_list r ++ l' ∧
    pools_hold w' (<[p := l']> V) ∧ world_frame p w w' ∧
    (∀ t, r = Some t → idle_in (w_threads w') t)) w.
Proof.
  intros Hh Hl. eapply wp_with_pool; [done..|]. wp_step. eapply wp_mono; [by eapply pop_holds|].
  intros r w' (l' & Hr & ? & ? & Hid & _). wp_step. exists r, l'.
  split_and!; [done..| |done|done|done]. by eapply spec_pop_perm.
Qed.

(** [ABT_pool_pop_threads] hands over the [max] oldest units in the order
    they were pushed, or all of them, when the caller may resume each. *)
Theorem pop_threads_in_order me max w V p l :
  pools_hold w V → V !! p = Some l → (∀ t, t ∈ l → pinned_in me w t = false) →
  wp (ABT_pool_pop_threads me p max) (λ r w',
    r = (ABT_SUCCESS, Some (take (Z.to_nat max) l)) ∧
    pools_hold w' (<[p := drop (Z.to_nat max) l]> V)) w.
Proof.
  intros Hh Hl Hp. eapply wp_with_pool; [done..|]. wp_step.
  eapply wp_mono; [by eapply pop_up_to_holds|]. intros r w' [-> Hv]. by wp_step.
Qed.

(** C33: removing a unit takes it out of the pool it is queued in, wherever it
    stands, keeps the order of the others, and changes nothing when it is
    queued elsewhere or nowhere. *)
Theorem pool_remove_unit w V p l t x :
  pools_hold w V → V !! p = Some l → w_threads w !! t = Some x →
  wp (ABT_pool_remove p t) (λ r w', r = (ABT_SUCCESS, None) ∧
    pools_hold w' (<[p := filter (λ a, a ≠ t) l]> V) ∧ world_frame p w w') w.
Proof.
  intros. eapply wp_mono; [by eapply pool_remove_holds|].
  by intros r w' (? & ? & ? & _).
Qed.

(** The reported size is the exact number of units a pool holds, and the
    pool is reported empty when that number is zero. *)
Theorem pool_size_exact w V p l :
  pools_hold w V → V !! p = Some l →
  ABT_pool_get_size p w = Done (ABT_SUCCESS, Some (Z.of_nat (length l))) w ∧
  ABT_pool_is_empty p w =
    Done (ABT_SUCCESS, Some (if bool_decide (l = []) then ABT_TRUE else ABT_FALSE)) w.
Proof.
  intros Hh Hl. pose proof (size_holds _ _ _ _ Hh Hl) as (n & w' & Hn & -> & ->)%wp_elim.
  unfold ABT_pool_get_size, ABT_pool_is_empty, with_pool. rewrite (hold_handle _ _ _ _ Hh Hl).
  unfold mbind, M_bind. rewrite Hn. split; [done|]. by destruct l.
Qed.

(** A unit queued in a locked pool can be pushed again once it has been
    removed, and goes to the back; on a lock-free pool the removed unit stays
    linked until a pop passes it, and pushing it before then aborts. *)
Theorem remove_then_push w V p l t x :
  pools_hold w V → V !! p = Some l → t ∈ l → 256 ≤ t → w_threads w !! t = Some x →
  let again := ABT_pool_remove p t ;; ABT_pool_push_thread p t in
  if consumer_of w p then again w = Faulted (Aborted push_twice_msg)
  else wp again (λ r w', r = (ABT_SUCCESS, None) ∧
         pools_hold w' (<[p := PoolSpec.remove t l ++ [t]]> V)) w.
Proof.
  intros Hh Hl Ht Ht' Hx again. unfold again.
  destruct (wp_elim _ _ _ (pool_remove_holds _ _ _ _ _ _ Hh Hl Hx))
    as (r & w1 & Hr & -> & Hv & F & Hf). specialize (Hf Ht).
  assert (<[p := PoolSpec.remove t l]> V !! p = Some (PoolSpec.remove t l)) as Hp
    by apply lookup_insert_eq.
  destruct (hold_inv _ _ _ _ Hv Hp) as (C & c & o & _ & _ & _ & _ & Ho & Hu & _).
  assert (∃ x1, w_threads w1 !! t = Some x1 ∧ t_pool x1 = Some p) as (x1 & Hx1 & Hp1).
  { destruct (hold_inv _ _ _ _ Hh Hl) as (C0 & c0 & o0 & Hok & _ & Hc0 & -> & _).
    apply units_elem in Ht as [Ht _]. pose proof (wo_assoc _ _ Hok p c0 t x Hc0 Ht Hx) as Hp0.
    pose proof (f_equal (.!! t) (wf_threads _ _ _ F)) as Hq. simpl in Hq.
    rewrite !lookup_fmap, Hx in Hq. destruct (w_threads w1 !! t) as [x1|]; [|done].
    exists x1. split; [done|]. simpl in Hq. apply (inj Some) in Hq.
    by rewrite (erase_queue_pool _ _ Hq). }
  destruct (consumer_of w p).
  - unfold mbind, M_bind. rewrite Hr. rewrite Hx1 in Hf. simpl in Hf.
    unfold ABT_pool_push_thread, with_pool. rewrite (hold_handle _ _ _ _ Hv Hp).
    rewrite thread_handle_get by done. unfold associate_and_push, mbind, M_bind, thread.
    rewrite Hx1, Hp1, bool_decide_false by auto. cbv [when mret M_ret].
    by erewrite push_queued_aborts by (done || congruence).
  - wp_step. eapply wp_intro; [exact Hr|]. destruct Hf as (y & Hy & ? & ?). simplify_eq.
    eapply wp_mono; [eapply push_thread_holds; try done|].
    + intros q Hq. simplify_eq. exists o. split; [done|]. congruence.
    + intros r w2 (-> & Hv2 & _). by rewrite insert_insert_eq in Hv2.
Qed.

(** C32: threads, none of them the primary ULT, that are pushed together into an
    empty pool and popped together come back complete and in the order they were
    pushed, and leave it empty. *)
Theorem push_pop_threads me w V p ths :
  pools_hold w V → V !! p = Some [] → pushable w ths →
  (∀ t, t ∈ ths → t_type <$> w_threads w !! t ≠ Some ABTI_THREAD_PRIMARY) →
  wp (ABT_pool_push_threads p ths ;; ABT_pool_pop_threads me p (Z.of_nat (length ths)))
    (λ r w', r = (ABT_SUCCESS, Some ths) ∧ pools_hold w' V) w.
Proof.
  intros Hh Hl Hp Hty. wp_step. eapply wp_mono; [by eapply push_threads_holds|].
  intros r w1 (-> & Hh1 & Hsame). simpl in Hh1.
  eapply wp_with_pool; [exact Hh1|apply lookup_insert_eq|]. wp_step. rewrite Nat2Z.id.
  eapply wp_mono; [eapply (pop_up_to_holds me (length ths)); [exact Hh1|apply lookup_insert_eq|]|].
  - intros t Ht. unfold pinned_in, pin_at. specialize (Hty t Ht). rewrite <-Hsame in Hty.
    destruct (w_threads w1 !! t) as [x|]; [|done]. simpl in *. unfold pinned_elsewhere.
    rewrite bool_decide_false; [done|]. intros Heq. by rewrite Heq in Hty.
  - intros r w2 (-> & Hh2). wp_step. rewrite firstn_all, drop_all in *.
    split; [done|]. by rewrite insert_insert_eq, insert_id in Hh2.
Qed.

(** Walking a pool for printing visits every unit it holds, oldest first,
    and changes nothing; except that on a lock-free pool whose head is the
    node of a unit (any such pool that has been popped while it held two
    units) that oldest unit is passed over. *)
Theorem for_each_unit_lists w V p l :
  pools_hold w V → V !! p = Some l →
  for_each_unit p w = Done (listed w p l) w.
Proof.
  intros Hh Hl. destruct (wp_elim _ _ _ (for_each_holds _ _ _ _ Hh Hl)) as (r & w' & Hr & -> & ->).
  done.
Qed.

(** Creating a built-in pool checks, in this order, that the library is
    initialised, the output pointer, the kind and the access mode; otherwise
    it returns a new handle to an empty pool with the requested attributes,
    lock-free exactly for the single-consumer access modes, and touches no
    other pool. *)
Theorem pool_create_basic_spec w V k a auto out :
  pools_hold w V →
  wp (ABT_pool_create_basic k a auto out) (λ r w',
    if negb (g_initialized w) then r = (ABT_ERR_UNINITIALIZED, None) ∧ w' = w
    else if bool_decide (out < 256) then r = (ABT_ERR_INV_ARG, None) ∧ w' = w
    else if negb (bool_decide (k ∈ [ABT_POOL_FIFO; ABT_POOL_FIFO_WAIT; ABT_POOL_RANDWS]))
      then r = (ABT_ERR_INV_POOL_KIND, None) ∧ w' = w
    else if negb (bool_decide (ABT_POOL_ACCESS_PRIV ≤ a ≤ ABT_POOL_ACCESS_MPMC))
      then r = (ABT_ERR_INV_POOL_ACCESS, None) ∧ w' = w
    else ∃ p o, r = (ABT_SUCCESS, Some p) ∧ ABTI_pool_get p = Some p ∧ V !! p = None ∧
      pools_hold w' (<[p := []]> V) ∧ w_pools w' = <[p := o]> (w_pools w) ∧
      kind o = k ∧ access o = a ∧ p_automatic o = auto ∧
      single_consumer o = bool_decide
        (a ∈ [ABT_POOL_ACCESS_PRIV; ABT_POOL_ACCESS_SPSC; ABT_POOL_ACCESS_MPSC])) w.
Proof.
  intros Hh. unfold ABT_pool_create_basic, check_init. wp_step. wp_step.
  destruct (g_initialized w); [|by wp_step]. simpl. unfold ABTI_is_null_handle.
  destruct (Z.ltb_spec out 256); [rewrite bool_decide_true by done; by wp_step|].
  rewrite bool_decide_false by lia.
  assert (∀ b P `{Decision P}, (b = true ↔ ¬ P) → b = negb (bool_decide P)) as Hneg.
  { intros b P ? HP. case_bool_decide; destruct b; naive_solver. }
  rewrite (Hneg _ (k ∈ [ABT_POOL_FIFO; ABT_POOL_FIFO_WAIT; ABT_POOL_RANDWS]) _).
  2:{ rewrite !andb_true_iff, !negb_true_iff, !Z.eqb_neq. set_solver. }
  case_bool_decide; simpl; [|by wp_step].
  rewrite (Hneg _ (ABT_POOL_ACCESS_PRIV ≤ a ≤ ABT_POOL_ACCESS_MPMC) _).
  2:{ rewrite orb_true_iff, Z.ltb_lt, Z.gtb_lt. lia. }
  case_bool_decide; simpl; [|by wp_step].
  wp_step. eapply wp_mono; [by eapply create_builtin_holds|].
  intros p w' (? & ? & ? & o & ? & ? & ? & ? & _ & Hsc). wp_step. exists p, o.
  split_and!; try done.
  - unfold ABTI_pool_get, ABTI_obj, ABTI_is_null_handle. by destruct (Z.ltb_spec p 256); [lia|].
  - rewrite Hsc. apply bool_decide_ext. unfold ABT_POOL_ACCESS_PRIV, ABT_POOL_ACCESS_MPMC in *.
    unfold ABT_POOL_ACCESS_MPSC, ABT_POOL_ACCESS_SPSC. rewrite !elem_of_cons, elem_of_nil. lia.
Qed.

(** ** Timed pops *)

(** A thread waits for a push into [p]: the pool's next push notifies it. *)
Definition waited_for w p : Prop := CvNotifyOne p ∈ pool_wakes w p.

Lemma wait_for_push_holds P others w V p l o :
  pools_hold w V → V !! p = Some l → w_pools w !! p = Some o → 0 ≤ waiters o →
  (∀ w1, pools_hold w1 V → V !! p = Some [] → waited_for w1 p → w_threads w1 = w_threads w →
    wp others (λ _ w2, ∃ V2 l2, pools_hold w2 V2 ∧ V2 !! p = Some l2 ∧ P l2) w1) →
  wp (wait_for_push p others) (λ _ w', ∃ V' l', pools_hold w' V' ∧ V' !! p = Some l' ∧
    (if bool_decide (l = []) then P l' else l' = l ∧ V' = V)) w.
Proof.
  intros Hh Hl Ho Hw Hoth.
  destruct (hold_inv _ _ _ _ Hh Hl) as (C & c & o' & _ & _ & _ & _ & Ho' & Hu & _ & Hn & _).
  simplify_eq. unfold wait_for_push. wp_step.
  eapply wp_mono; [by eapply set_pool_holds|]. intros [] w1 [Hh1 ->].
  wp_step. eapply wp_pool; [simpl; apply lookup_insert_eq|]. wp_step. simpl. rewrite Hu, Hn. simpl.
  set (w1 := w <| w_pools ::= insert p (o <| waiters ::= Z.succ |>) |>) in *.
  apply wp_mono with (Q := λ _ w2, ∃ V2 l2, pools_hold w2 V2 ∧ V2 !! p = Some l2 ∧
    (if bool_decide (l = []) then P l2 else l2 = l ∧ V2 = V)).
  { destruct l as [|a l]; simpl; [|exists V, (a :: l); done]. apply Hoth; [done..| |done].
    unfold waited_for, pool_wakes. simpl. rewrite lookup_insert_eq. simpl. unfold wake_events. simpl.
    destruct (Z.gtb_spec (Z.succ (waiters o)) 0); [set_solver|lia]. }
  intros [] w2 (V2 & l2 & Hh2 & Hl2 & HP).
  destruct (hold_inv _ _ _ _ Hh2 Hl2) as (_ & _ & o2 & _ & _ & _ & _ & Ho2 & _).
  eapply wp_mono; [by eapply set_pool_holds|]. intros [] w3 [Hh3 _]. eauto.
Qed.

(** A timed pop of a built-in pool takes a unit that is there at once;
    otherwise it returns nothing when the deadline has passed, and else, if
    the pool is empty, sleeps registered so that a push into this pool wakes
    it, and pops what the pool then holds.  [others] is what the other threads
    do while the caller sleeps, [P] what they make true of the pool's units. *)
Theorem pop_timedwait_spec me P others deadline w V p l o :
  pools_hold w V → V !! p = Some l → w_pools w !! p = Some o → 0 ≤ waiters o →
  (∀ w1 V1, pools_hold w1 V1 → V1 !! p = Some [] → waited_for w1 p →
    (∀ t, idle_in (w_threads w) t → w_threads w1 !! t = w_threads w !! t) →
    wp others (λ _ w2, ∃ V2 l2, pools_hold w2 V2 ∧ V2 !! p = Some l2 ∧ P l2) w1) →
  wp (pop_timedwait me p deadline others) (λ r w', ∃ V', pools_hold w' V' ∧
    let first := spec_pop_of (consumer_of w p) (pinned_in me w) l in
    match first.1 with
    | Some t => r = Some t ∧ V' = <[p := first.2]> V
    | None =>
        if dleb deadline (CmiWallTimer (w_ext w)).1 then r = None ∧ V' = <[p := first.2]> V
        else ∃ l2 l3 w2, V' !! p = Some l3 ∧
          (r, l3) = spec_pop_of (consumer_of w2 p) (pinned_in me w2) l2 ∧
          (if bool_decide (first.2 = []) then P l2 else l2 = first.2)
    end) w.
Proof.
  intros Hh Hl Ho Hw Hoth.
  destruct (hold_inv _ _ _ _ Hh Hl) as (C & c & o' & _ & _ & _ & _ & Ho' & Hu & _).
  simplify_eq. unfold pop_timedwait. wp_step. eapply wp_pool; [done|]. rewrite Hu.
  wp_step. eapply wp_mono; [by eapply pop_holds|].
  intros r w1 (l1 & Hr & Hh1 & F & _ & Hidl). simpl. rewrite <-Hr. simpl.
  destruct r as [t|]; [wp_step; eauto|]. wp_step. apply wp_ext.
  destruct (wf_rest _ _ _ F) as (_ & _ & _ & _ & _ & _ & Hext). rewrite Hext.
  set (w1' := w1 <| w_ext := _ |>).
  assert (pools_hold w1' (<[p := l1]> V)) as Hh1'
    by (eapply holds_other; [exact Hh1|by apply other_fields_rest]).
  destruct (dleb deadline _); [wp_step; by eauto|]. wp_step.
  assert (∃ o1, w_pools w1 !! p = Some o1 ∧ waiters o1 = waiters o) as (o1 & Ho1 & Hw1).
  { pose proof (f_equal (.!! p) (wf_pools _ _ _ F)) as Hq. simpl in Hq.
    rewrite !lookup_fmap, Ho in Hq. destruct (w_pools w1 !! p) as [o1|]; [|done].
    exists o1. split; [done|]. simpl in Hq. apply (inj Some) in Hq. exact (f_equal waiters Hq). }
  eapply wp_mono; [eapply (wait_for_push_holds P); [exact Hh1'|apply lookup_insert_eq|done|lia|]|].
  { intros w3 Hh3 Hemp Hwf Heq. eapply Hoth; [done..|]. intros t Ht. rewrite Heq. by apply Hidl. }
  intros [] w2 (V2 & l2 & Hh2 & Hl2 & HP). eapply wp_mono; [by eapply pop_holds|].
  intros r w3 (l3 & Hr3 & Hh3 & _). eexists. split; [done|].
  exists l2, l3, w2. split_and!; [apply lookup_insert_eq|done|].
  destruct (bool_decide _); naive_solver.
Qed.
End api.
