(* ===== verification/PoolClient.v ===== *)
(** * Programs that use pools

    A small language of clients of the pool interface: its programs create
    pools, push, pop and remove threads, ask for sizes and compare handles with
    null.  Handles have types; a program whose handles are used at their types
    never makes the library touch an object that is not there, and leaves every
    pool in order: [ABTI_pool_get] and [ABTI_thread_get] check the handles that
    may be null, and the only abort is the deliberate one for a unit that is
    pushed while it is queued. *)

From S2P Require Import Prelude AbtTypes Objects Storage PoolList Sleepers PoolMpsc Pool PoolWorld PoolApi.

(** ** Programs and their types *)

(** [HPool]: a pool or a null handle; [HThread]: a thread; [HMaybe]: a thread or
    a null handle. *)
Inductive hty : Type :=
  | HPool
  | HThread
  | HMaybe.
#[global] Instance hty_eq_dec : EqDecision hty.
Proof. solve_decision. Defined.

(** Variables are positions in the list of handles; [PCreate] and [PPop] add one
    at its end.  [me]: the PE that makes the call. *)
Inductive client : Type :=
  | PRet
  | PCreate (k a automatic : Z) (P : client)
  | PPush (p t : nat) (P : client)
  | PPushAll (p : nat) (ts : list nat) (P : client)
  | PPop (me : Z) (p : nat) (P : client)
  | PRemove (p t : nat) (P : client)
  | PSize (p : nat) (P : client)
  | PIfNull (t : nat) (P Q : client).

Definition has (Γ : list hty) (i : nat) (tys : list hty) : bool :=
  match Γ !! i with Some ty => bool_decide (ty ∈ tys) | None => false end.
Fixpoint typed (Γ : list hty) (P : client) : bool :=
  match P with
  | PRet => true
  | PCreate _ _ _ P => typed (Γ ++ [HPool]) P
  | PPush p t P => has Γ p [HPool] && has Γ t [HThread; HMaybe] && typed Γ P
  | PPushAll p ts P => has Γ p [HPool] && forallb (λ t, has Γ t [HThread; HMaybe]) ts && typed Γ P
  | PPop _ p P => has Γ p [HPool] && typed (Γ ++ [HMaybe]) P
  | PRemove p t P => has Γ p [HPool] && has Γ t [HThread] && typed Γ P
  | PSize p P => has Γ p [HPool] && typed Γ P
  | PIfNull t P Q => has Γ t [HThread; HMaybe] && typed Γ P && typed (<[t := HThread]> Γ) Q
  end.

Section client.
Context `{E : Ext}.
Implicit Types (w : world) (V : gmap Z (list ptr)) (P : client) (env : list Z) (Γ : list hty).

(** A run: what the calls return, in order.  [handle_var]: where a program
    keeps the handle it creates. *)
Definition handle_var : Z := 4096.
Definition arg (env : list Z) (i : nat) : Z := default 0 (env !! i).
Fixpoint run_client P env : M world (list Z) :=
  match P with
  | PRet => mret []
  | PCreate k a automatic P =>
      r ← ABT_pool_create_basic k a automatic handle_var;
      l ← run_client P (env ++ [default ABT_POOL_NULL r.2]); mret (r.1 :: l)
  | PPush p t P => r ← ABT_pool_push_thread (arg env p) (arg env t); l ← run_client P env; mret (r.1 :: l)
  | PPushAll p ts P => r ← ABT_pool_push_threads (arg env p) (arg env <$> ts); l ← run_client P env; mret (r.1 :: l)
  | PPop me p P =>
      r ← ABT_pool_pop_thread me (arg env p);
      l ← run_client P (env ++ [default ABT_THREAD_NULL r.2]); mret (r.1 :: l)
  | PRemove p t P => r ← ABT_pool_remove (arg env p) (arg env t); l ← run_client P env; mret (r.1 :: l)
  | PSize p P => r ← ABT_pool_get_size (arg env p); l ← run_client P env; mret (r.1 :: default 0 r.2 :: l)
  | PIfNull t P Q => if ABTI_is_null_handle (arg env t) then run_client P env else run_client Q env
  end.

(** ** Worlds and handles in order *)

Record in_order w V : Prop := {
  io_holds : pools_hold w V;
  io_builtin p o : w_pools w !! p = Some o → user o = false;
  io_leave : all_leave w;
}.
Definition is_thread w (h : Z) : Prop := 256 ≤ h ∧ is_Some (w_threads w !! h).
Definition handle_ok w V (h : Z) (ty : hty) : Prop :=
  match ty with
  | HPool => h < 256 ∨ is_Some (V !! h)
  | HThread => is_thread w h
  | HMaybe => h < 256 ∨ is_thread w h
  end.
Definition env_ok w V Γ env : Prop := Forall2 (handle_ok w V) env Γ.
(** Every unit is in one place. *)
Definition exclusive V : Prop :=
  (∀ p l, V !! p = Some l → NoDup l) ∧ ∀ p q l m t, V !! p = Some l → V !! q = Some m → t ∈ l → t ∈ m → p = q.

Lemma holds_exclusive w V : pools_hold w V → exclusive V.
Proof.
  intros (C & Hok & ->). split.
  - intros p l. rewrite lookup_fmap. destruct (C !! p) as [c|] eqn:Hc; [|done]. intros [= <-].
    destruct (wo_pool _ _ Hok p c Hc) as (o & _ & _ & Hr & _). apply NoDup_filter, (rep_of_members _ _ _ Hr).
  - intros p q l m t. rewrite !lookup_fmap. destruct (C !! p) as [c|] eqn:Hc; [|done]. destruct (C !! q) as [d|] eqn:Hd; [|done].
    intros [= <-] [= <-] [Ht _]%units_elem [Ht' _]%units_elem. by eapply (wo_disj _ _ Hok).
Qed.

(** ** Triples that allow the deliberate abort *)

Definition safe {A} (m : M world A) (Q : A → world → Prop) w : Prop :=
  match m w with Done v w' => Q v w' | Faulted f => f = Aborted push_twice_msg end.
Lemma safe_bind {A B} (m : M world A) (k : A → M world B) Q w : safe m (λ v, safe (k v) Q) w → safe (m ≫= k) Q w.
Proof. unfold safe, mbind, M_bind. by destruct (m w). Qed.
Lemma safe_mono {A} (m : M world A) (Q Q' : A → world → Prop) w : safe m Q w → (∀ v w', Q v w' → Q' v w') → safe m Q' w.
Proof. unfold safe. destruct (m w); auto. Qed.
Lemma safe_wp {A} (m : M world A) (Q : A → world → Prop) w : wp m Q w → safe m Q w.
Proof. unfold safe, wp. by destruct (m w). Qed.

(** What every call leaves in order. *)
Definition goes_on w V w' V' : Prop := in_order w' V' ∧ (∀ p, is_Some (V !! p) → is_Some (V' !! p)) ∧ ∀ h, is_thread w h → is_thread w' h.
Lemma goes_on_refl w V : in_order w V → goes_on w V w V.
Proof. by intros. Qed.
Lemma goes_on_trans w1 V1 w2 V2 w3 V3 : goes_on w1 V1 w2 V2 → goes_on w2 V2 w3 V3 → goes_on w1 V1 w3 V3.
Proof. intros (? & P1 & T1) (? & P2 & T2). split_and!; auto. Qed.
Lemma goes_on_env w V w' V' Γ env : goes_on w V w' V' → env_ok w V Γ env → env_ok w' V' Γ env.
Proof.
  intros (_ & HP & HT) He. eapply Forall2_impl; [exact He|]. intros h []; simpl; [|apply HT|]; intros [?|?]; auto.
Qed.
Lemma is_Some_insert V p l q : is_Some (V !! q) → is_Some (<[p := l]> V !! q).
Proof. intros ?. destruct (decide (p = q)) as [->|]; [by rewrite lookup_insert_eq|by rewrite lookup_insert_ne]. Qed.

(** ** The calls *)

Lemma erased_builtin w w' : erase_store <$> w_pools w' = erase_store <$> w_pools w →
  (∀ p o, w_pools w !! p = Some o → user o = false) → ∀ p o, w_pools w' !! p = Some o → user o = false.
Proof.
  intros Heq Hb p o' Ho'. pose proof (f_equal (.!! p) Heq) as Hp. simpl in Hp. rewrite !lookup_fmap, Ho' in Hp.
  destruct (w_pools w !! p) as [o|] eqn:Ho; [|done]. apply (inj Some) in Hp. destruct (erase_store_user _ _ Hp) as (-> & _). by eapply Hb.
Qed.
Lemma frame_goes_on p l w w' V : in_order w V → pools_hold w' (<[p := l]> V) → world_frame p w w' → goes_on w V w' (<[p := l]> V).
Proof.
  intros [Hh Hb Ha] Hh' F. split_and!; [split|intros q; apply is_Some_insert|].
  - done.
  - by eapply erased_builtin; [apply (wf_pools _ _ _ F)|].
  - by eapply all_leave_frame.
  - intros t [Ht Hx]. split; [done|]. pose proof (f_equal (.!! t) (wf_threads _ _ _ F)) as Hq. simpl in Hq. rewrite !lookup_fmap in Hq.
    destruct Hx as [x Hx]. rewrite Hx in Hq. destruct (w_threads w' !! t); [eauto|done].
Qed.
Lemma holds_idle w V t x : pools_hold w V → w_threads w !! t = Some x → in_pool x = false → removed x = false.
Proof.
  intros (C & Hok & _) Hx Hin. apply (wo_idle _ _ Hok t x Hx). intros p c Hc Ht.
  destruct (wo_pool _ _ Hok p c Hc) as (o & _ & _ & Hr & _). destruct (proj2 (rep_of_members _ _ _ Hr) t Ht) as (y & Hy & ?). simpl in Hy. congruence.
Qed.
Lemma null_pool {A} h (k : ptr → M world (Z * option A)) w : h < 256 → with_pool h k w = Done (ABT_ERR_INV_POOL, None) w.
Proof. intros Hh. unfold with_pool, ABTI_pool_get, ABTI_obj, ABTI_is_null_handle. by destruct (Z.ltb_spec h 256); [|lia]. Qed.

(** A call on a handle that may be null: it may be assumed to name a pool. *)
Lemma safe_pool {A} h (k : ptr → M world (Z * option A)) w V Q : in_order w V → handle_ok w V h HPool →
  (∀ l, V !! h = Some l → safe (with_pool h k) Q w) → (h < 256 → Q (ABT_ERR_INV_POOL, None) w) → safe (with_pool h k) Q w.
Proof. intros Hi [Hh|[l Hl]] H1 H2; [|by eapply H1]. unfold safe. rewrite null_pool by done. auto. Qed.

Lemma push_queued w V p l t x : in_order w V → V !! p = Some l → 256 ≤ t → w_threads w !! t = Some x → in_pool x = true →
  ABT_pool_push_thread p t w = Faulted (Aborted push_twice_msg).
Proof.
  intros [Hh Hb Ha] Hl Ht Hx Hin. destruct (hold_inv _ _ _ _ Hh Hl) as (_ & _ & o & _ & _ & _ & _ & Ho & Hu & _).
  unfold ABT_pool_push_thread, with_pool. rewrite (hold_handle _ _ _ _ Hh Hl), thread_handle_get by done.
  unfold associate_and_push, mbind, M_bind, thread. rewrite Hx. case_bool_decide as Hp; unfold when.
  - destruct (wp_elim _ _ _ (associate_runs w t x p o Hx (Ha t x Hx) Ho Hu Hp)) as ([] & w1 & -> & Ep & _ & _ & Et).
    erewrite push_queued_aborts; [done|by rewrite Ep|done|rewrite Et; apply lookup_insert_eq|done].
  - cbv [mret M_ret]. by erewrite push_queued_aborts.
Qed.
Lemma push_safe w V h t : in_order w V → handle_ok w V h HPool → handle_ok w V t HMaybe →
  safe (ABT_pool_push_thread h t) (λ _ w', ∃ V', goes_on w V w' V') w.
Proof.
  intros Hi Hh Ht. eapply safe_pool; [done..| |intros _; by exists V]. intros l Hl.
  destruct Ht as [Ht|[Ht [x Hx]]].
  { unfold safe, with_pool. rewrite (hold_handle _ _ _ _ (io_holds _ _ Hi) Hl).
    unfold ABTI_thread_get, ABTI_obj, ABTI_is_null_handle. destruct (Z.ltb_spec t 256); [|lia]. by exists V. }
  destruct (in_pool x) eqn:Hin.
  { change (safe (ABT_pool_push_thread h t) (λ _ w', ∃ V', goes_on w V w' V') w). unfold safe. by erewrite push_queued. }
  destruct Hi as [Hw Hb Ha]. apply safe_wp. eapply wp_mono; [eapply push_thread_holds; try done; [by eapply holds_idle|by eapply Ha]|].
  intros r w' (_ & Hh' & _ & F). eexists. split_and!; [split; [exact Hh'| |by apply (pf_leave _ _ _ F)]|intros q; apply is_Some_insert|].
  - by eapply erased_builtin; [apply (pf_pools _ _ _ F)|].
  - intros t' [Ht' [y Hy]]. split; [done|]. pose proof (pf_types _ _ _ F t') as Hty. rewrite Hy in Hty. by destruct (w_threads w' !! t').
Qed.
Lemma push_all_safe ts w V h : in_order w V → handle_ok w V h HPool → Forall (λ t, handle_ok w V t HMaybe) ts →
  safe (ABT_pool_push_threads h ts) (λ _ w', ∃ V', goes_on w V w' V') w.
Proof.
  intros Hi Hh Hts. revert w V Hi Hh Hts. induction ts as [|t ts IH]; intros w V Hi Hh Hts; cbn [ABT_pool_push_threads]; [by exists V|].
  apply Forall_cons in Hts as [Ht Hts]. apply safe_bind. eapply safe_mono; [by apply (push_safe w V)|]. intros r w1 (V1 & Hg).
  destruct (negb _); [by exists V1|]. pose proof Hg as (Hi1 & HP & HT).
  eapply safe_mono; [apply (IH w1 V1 Hi1)|].
  - destruct Hh as [?|?]; [by left|right; auto].
  - eapply Forall_impl; [exact Hts|]. intros a [?|?]; [by left|right; auto].
  - intros r' w2 (V2 & Hg2). exists V2. by eapply goes_on_trans.
Qed.
Lemma pop_safe me w V h : in_order w V → handle_ok w V h HPool →
  safe (ABT_pool_pop_thread me h) (λ r w', ∃ V', goes_on w V w' V' ∧ handle_ok w' V' (default ABT_THREAD_NULL r.2) HMaybe) w.
Proof.
  intros Hi Hh. eapply safe_pool; [done..| |intros _; exists V; split; [done|by left]]. intros l Hl. apply safe_wp.
  eapply wp_with_pool; [apply (io_holds _ _ Hi)|done|]. wp_step. eapply wp_mono; [eapply pop_holds; [apply (io_holds _ _ Hi)|done]|].
  intros r w' (l' & _ & Hh' & F & Hid & _). wp_step. eexists. split; [by eapply frame_goes_on|]. simpl.
  destruct r as [t|]; [|by left]. simpl. destruct (Z.lt_ge_cases t 256); [by left|right]. split; [done|]. destruct (Hid t eq_refl) as (x & ? & _). eauto.
Qed.
Lemma remove_safe w V h t : in_order w V → handle_ok w V h HPool → is_thread w t →
  safe (ABT_pool_remove h t) (λ _ w', ∃ V', goes_on w V w' V') w.
Proof.
  intros Hi Hh [Ht [x Hx]]. eapply safe_pool; [done..| |intros _; by exists V]. intros l Hl. apply safe_wp.
  eapply wp_mono; [eapply pool_remove_holds; [apply (io_holds _ _ Hi)|done..]|]. intros r w' (_ & Hh' & F & _). eexists. by eapply frame_goes_on.
Qed.
Lemma size_safe w V h : in_order w V → handle_ok w V h HPool → safe (ABT_pool_get_size h) (λ _ w', ∃ V', goes_on w V w' V') w.
Proof.
  intros Hi Hh. eapply safe_pool; [done..| |intros _; by exists V]. intros l Hl. apply safe_wp.
  eapply wp_with_pool; [apply (io_holds _ _ Hi)|done|]. wp_step. eapply wp_mono; [eapply size_holds; [apply (io_holds _ _ Hi)|done]|].
  intros n w' [-> _]. wp_step. by exists V.
Qed.
Lemma create_threads k a auto var : preserves w_threads (ABT_pool_create_basic k a auto var).
Proof.
  assert (preserves w_threads fetch_id ∧ preserves w_threads new_addr) as [? ?] by done.
  unfold ABT_pool_create_basic, check_init, ABTI_pool_create_builtin, put_pool. solve_preserves.
Qed.
Lemma create_safe w V k a auto : in_order w V →
  safe (ABT_pool_create_basic k a auto handle_var) (λ r w', ∃ V', goes_on w V w' V' ∧ handle_ok w' V' (default ABT_POOL_NULL r.2) HPool) w.
Proof.
  intros Hi. pose proof Hi as [Hh Hb Ha]. apply safe_wp.
  eapply wp_mono; [apply (preserves_wp w_threads); [apply create_threads|apply (pool_create_basic_spec w V k a auto handle_var Hh)]|].
  intros r w' [Et Hr]. cbv beta in Hr.
  assert (∀ e, r = (e, None) ∧ w' = w → ∃ V', goes_on w V w' V' ∧ handle_ok w' V' (default ABT_POOL_NULL r.2) HPool) as He.
  { intros e [-> ->]. exists V. split; [done|by left]. }
  repeat (case_match; [by eapply He|]). clear He. destruct Hr as (p & o & -> & _ & Hn & Hh' & Ep & _). exists (<[p := []]> V).
  destruct (hold_inv _ _ p [] Hh') as (_ & _ & o' & _ & _ & _ & _ & Ho' & Hu' & _); [apply lookup_insert_eq|].
  assert (w_pools w !! p = None) as Hnp.
  { destruct (w_pools w !! p) as [o2|] eqn:Ho2; [|done]. destruct Hh as (C & Hok & HV). destruct (wo_all _ _ Hok p o2 Ho2 (Hb p o2 Ho2)) as [c Hc].
    by rewrite HV, lookup_fmap, Hc in Hn. }
  split; [split_and!; [split; [done|..]|intros q; apply is_Some_insert|intros t [? ?]; by unfold is_thread; rewrite Et]|].
  - intros q oq. destruct (decide (q = p)) as [->|]; [rewrite Ho'; by intros [= <-]|]. rewrite Ep, lookup_insert_ne by done. apply Hb.
  - intros t x Hx q Hq. rewrite Et in Hx. destruct (Ha t x Hx q Hq) as (oq & Hoq & ?). exists oq. rewrite Ep.
    destruct (decide (p = q)) as [<-|]; [congruence|]. by rewrite lookup_insert_ne.
  - right. simpl. rewrite lookup_insert_eq. eauto.
Qed.

(** ** Claims *)

Lemma has_spec w V Γ env i tys : env_ok w V Γ env → has Γ i tys = true → ∃ ty, Γ !! i = Some ty ∧ ty ∈ tys ∧ handle_ok w V (arg env i) ty.
Proof.
  unfold has, arg. intros He. destruct (Γ !! i) as [ty|] eqn:Hi; [|done]. intros Hty%bool_decide_eq_true. exists ty. split_and!; [done..|].
  destruct (Forall2_lookup_r _ _ _ _ _ He Hi) as (h & -> & ?). done.
Qed.
Lemma has_one w V Γ env i ty : env_ok w V Γ env → has Γ i [ty] = true → handle_ok w V (arg env i) ty.
Proof. intros He Hh. destruct (has_spec _ _ _ _ _ _ He Hh) as (ty' & _ & ->%list_elem_of_singleton & ?). done. Qed.
Lemma has_maybe w V Γ env i : env_ok w V Γ env → has Γ i [HThread; HMaybe] = true → handle_ok w V (arg env i) HMaybe.
Proof.
  intros He Hh. destruct (has_spec _ _ _ _ _ _ He Hh) as (ty & _ & Hty & Hok).
  apply elem_of_cons in Hty as [->| ->%list_elem_of_singleton]; [by right|done].
Qed.

(** A call, and the rest of the program. *)
Lemma exec_call {A} (m : M world A) P f (g : A → list Z → list Z) w V Γ' :
  (∀ w V env, in_order w V → env_ok w V Γ' env → safe (run_client P env) (λ _ w', ∃ V', goes_on w V w' V') w) →
  safe m (λ r w', ∃ V', goes_on w V w' V' ∧ env_ok w' V' Γ' (f r)) w →
  safe (r ← m; l ← run_client P (f r); mret (g r l)) (λ _ w', ∃ V', goes_on w V w' V') w.
Proof.
  intros HP Hm. apply safe_bind. eapply safe_mono; [exact Hm|]. intros r w1 (V1 & Hg & He). apply safe_bind.
  eapply safe_mono; [by apply (HP w1 V1); [apply Hg|]|]. intros l w2 (V2 & Hg2). exists V2. by eapply goes_on_trans.
Qed.
Lemma exec_plain {A} (m : M world A) P (g : A → list Z → list Z) w V Γ env :
  (∀ w V env, in_order w V → env_ok w V Γ env → safe (run_client P env) (λ _ w', ∃ V', goes_on w V w' V') w) →
  env_ok w V Γ env → safe m (λ _ w', ∃ V', goes_on w V w' V') w →
  safe (r ← m; l ← run_client P env; mret (g r l)) (λ _ w', ∃ V', goes_on w V w' V') w.
Proof.
  intros HP He Hm. apply (exec_call m P (λ _, env) g w V Γ HP). eapply safe_mono; [exact Hm|]. intros r w1 (V1 & Hg).
  exists V1. split; [done|]. by eapply goes_on_env.
Qed.
Lemma env_ok_snoc w V w' V' Γ env h ty : goes_on w V w' V' → env_ok w V Γ env → handle_ok w' V' h ty → env_ok w' V' (Γ ++ [ty]) (env ++ [h]).
Proof. intros Hg He Hh. apply Forall2_app; [by eapply goes_on_env|by constructor]. Qed.

(** C30: a program of pool calls that uses its handles at their types and frees
    nothing does not go wrong.  The programs create pools, push units one by one
    or together, pop, remove and ask for sizes, one call at a time, and never call
    [ABT_pool_free] or [ABT_thread_free]; all pools are built-in ones, not
    [ABT_pool_def] callbacks.  However the calls follow one another and whichever
    PEs make them, the run reaches its end without touching an object that is not
    there, or is ended by the abort for a unit that is pushed while it is queued;
    at the end every pool is still a queue whose length is its counter, no unit
    is in two places, no pool that was there is gone, and every thread's pool is
    alive. *)
Theorem typed_clients_run w V Γ env P : in_order w V → env_ok w V Γ env → typed Γ P = true →
  safe (run_client P env) (λ _ w', ∃ V', in_order w' V' ∧ exclusive V' ∧ ∀ p, is_Some (V !! p) → is_Some (V' !! p)) w.
Proof.
  intros Hi He Ht.
  enough (safe (run_client P env) (λ _ w', ∃ V', goes_on w V w' V') w) as Hs.
  { eapply safe_mono; [exact Hs|]. intros l w' (V' & Hi' & HP & _). exists V'. split_and!; [done| |done]. eapply holds_exclusive, (io_holds _ _ Hi'). }
  revert w V Γ env Hi He Ht. induction P as [|k a auto P IH|p t P IH|p ts P IH|me p P IH|p t P IH|p P IH|t P IH Q IHQ];
    intros w V Γ env Hi He Ht; cbn [run_client typed] in *; rewrite ?andb_true_iff in Ht; destruct_and?.
  - exists V. by apply goes_on_refl.
  - eapply (exec_call _ P (λ r, env ++ [default ABT_POOL_NULL r.2]) (λ r l, r.1 :: l) w V (Γ ++ [HPool])); [eauto|].
    eapply safe_mono; [by apply create_safe|]. intros r w' (V' & Hg & Hh). exists V'. split; [done|]. by eapply env_ok_snoc.
  - eapply (exec_plain _ P (λ r l, r.1 :: l)); [eauto..|]. apply push_safe; [done|by eapply has_one|by eapply has_maybe].
  - eapply (exec_plain _ P (λ r l, r.1 :: l)); [eauto..|]. apply push_all_safe; [done|by eapply has_one|].
    apply Forall_fmap, Forall_forall. intros t Hin. eapply has_maybe; [done|]. match goal with Hf : forallb _ _ = true |- _ => rewrite forallb_forall in Hf; by apply Hf, list_elem_of_In end.
  - eapply (exec_call _ P (λ r, env ++ [default ABT_THREAD_NULL r.2]) (λ r l, r.1 :: l) w V (Γ ++ [HMaybe])); [eauto|].
    eapply safe_mono; [by apply (pop_safe me w V); [|eapply has_one]|]. intros r w' (V' & Hg & Hh). exists V'. split; [done|]. by eapply env_ok_snoc.
  - eapply (exec_plain _ P (λ r l, r.1 :: l)); [eauto..|]. apply remove_safe; [done|by eapply has_one|]. by apply (has_one w V Γ env t HThread).
  - eapply (exec_plain _ P (λ r l, r.1 :: default 0 r.2 :: l)); [eauto..|]. apply size_safe; [done|by eapply has_one].
  - assert (handle_ok w V (arg env t) HMaybe) as Hm by (by eapply has_maybe).
    destruct (Z.ltb_spec (arg env t) 256) as [Hlt|Hge]; unfold ABTI_is_null_handle.
    + replace (arg env t <? 256) with true by lia. eauto.
    + replace (arg env t <? 256) with false by lia. eapply IHQ; [done| |done]. destruct Hm as [?|Hth]; [lia|].
      pose proof (Forall2_length _ _ _ He). apply Forall2_same_length_lookup_2; [by rewrite length_insert|].
      intros i h ty' Hi1 Hi2. destruct (decide (t = i)) as [<-|].
      * apply list_lookup_insert_Some in Hi2 as [(_ & <- & _)|[? _]]; [|done]. unfold arg in Hth. by rewrite Hi1 in Hth.
      * rewrite list_lookup_insert_ne in Hi2 by done. by eapply (Forall2_lookup_lr _ _ _ _ _ _ He).
Qed.
End client.
