(* ===== verification/UserPool.v ===== *)
(** * User-defined pools

    The paths of src/pool.cpp that go through an [ABT_pool_def]: pushing and
    popping through the user's callbacks and the map from the user's units to
    threads ([ABTI_g->units]).  The callbacks are outside the repository;
    [UserFifo] is what a pool that queues its units promises, and the theorems
    of [push] and [pop] are proved against it. *)

From S2P Require Import Prelude AbtTypes Objects Storage PoolList Sleepers PoolMpsc Pool PoolWorld.
From S2P Require Import PoolApi.

(** [pop] puts a unit it may not resume back and takes the next one. *)
Definition user_spec_pop (pinned : ptr → bool) (l : list ptr) : option ptr * list ptr :=
  match l with
  | [] => (None, [])
  | a :: l' =>
      if pinned a then
        match l' ++ [a] with
        | [] => (None, [])
        | b :: l'' => if pinned b then (None, l'' ++ [b]) else (Some b, l'')
        end
      else (Some a, l')
  end.

Section user.
Context `{E : Ext}.
Implicit Types (w : world) (l : list ptr) (p t : ptr) (us : list Z).

(** The callbacks of the pool [h] keep the queue [q] of units, and leave the
    home ranks of Converse threads alone. *)
Class UserFifo (d : ABT_pool_def) (h : Z) (q : ext_st → list Z) : Prop := {
  uf_push f u e : p_push d = Some f → q (call_p_push f h u e) = q e ++ [u];
  uf_pop f e : p_pop d = Some f →
    match q e with
    | [] => (call_p_pop f h e).1 = ABT_UNIT_NULL ∧ q (call_p_pop f h e).2 = []
    | u :: us => (call_p_pop f h e).1 = u ∧ q (call_p_pop f h e).2 = us
    end;
  uf_rank_push f u e c : p_push d = Some f →
    CthGetHomeRank c (call_p_push f h u e) = CthGetHomeRank c e;
  uf_rank_pop f e c : p_pop d = Some f →
    CthGetHomeRank c (call_p_pop f h e).2 = CthGetHomeRank c e;
}.

(** [u] is the unit of thread [t]. *)
Definition unit_of w (u : Z) t : Prop :=
  ABTI_is_null_handle u = false ∧ g_units w !! u = Some t ∧
  ∃ x, w_threads w !! t = Some x ∧ t_unit x = u.

Section one_pool.
Context (p : ptr) (d : ABT_pool_def) (q : ext_st → list Z) (fpush fpop : Z).
Context `{HF : !UserFifo d p q}.
Context (Hpush : p_push d = Some fpush) (Hpop : p_pop d = Some fpop).

(** The user pool [p] queues the units of the threads [l]. *)
Record user_holds w l : Prop := {
  uh_pool : ∃ o, w_pools w !! p = Some o ∧ user o = true ∧ def o = Some d ∧ masks_wf (smask o);
  uh_users : g_num_user_pools w ≠ 0;
  uh_queue : Forall2 (unit_of w) (q (w_ext w)) l;
}.

(** Only the user's state, and the log, change. *)
Definition user_frame w w' : Prop :=
  w' = w <| w_ext := w_ext w' |> <| w_log := w_log w' |> ∧
  ∀ c, CthGetHomeRank c (w_ext w') = CthGetHomeRank c (w_ext w).
Lemma user_frame_refl w : user_frame w w.
Proof. split; [by destruct w|done]. Qed.
Lemma user_frame_trans w1 w2 w3 : user_frame w1 w2 → user_frame w2 w3 → user_frame w1 w3.
Proof.
  intros [E1 R1] [E2 R2]. split; [|intros; by rewrite R2].
  rewrite E2 at 1. rewrite E1 at 1. done.
Qed.

Lemma user_holds_frame w w' l l' :
  user_holds w l → user_frame w w' → Forall2 (unit_of w) (q (w_ext w')) l' → user_holds w' l'.
Proof. intros [HP HU HQ] [-> _] HF'. split; [done..|]. simpl. exact HF'. Qed.

Lemma pinned_in_user_frame me w w' t :
  user_frame w w' → pinned_in me w' t = pinned_in me w t.
Proof.
  intros [Ew R]. unfold pinned_in, pin_at, pinned_elsewhere.
  assert (w_threads w' = w_threads w) as -> by (by rewrite Ew).
  destruct (w_threads w !! t); [|done]. simpl. by rewrite R.
Qed.

Lemma wp_pool_def o (Q : ABT_pool_def → world → Prop) w :
  w_pools w !! p = Some o → def o = Some d → Q d w → wp (pool_def p) Q w.
Proof. intros Ho Hd HQ. unfold pool_def. wp_step. eapply wp_pool; [done|]. by rewrite Hd. Qed.

Lemma user_push_spec w l u t :
  user_holds w l → unit_of w u t →
  wp (user_push p u) (λ _ w', user_frame w w' ∧ user_holds w' (l ++ [t]) ∧ w_log w' = w_log w) w.
Proof.
  intros Hh Hu. pose proof Hh as [(o & Ho & _ & Hd & _) _ HQ]. unfold user_push.
  wp_step. eapply wp_pool_def; [done..|]. wp_step. eapply wp_callee; [done|].
  apply wp_ext_.
  assert (user_frame w (w <| w_ext ::= call_p_push fpush p u |>)) as F.
  { split; [by destruct w|]. intros c. simpl. by apply uf_rank_push. }
  split_and!; [done| |done]. eapply user_holds_frame; [done..|]. simpl.
  rewrite uf_push by done. apply Forall2_app; [done|by constructor].
Qed.

Lemma user_pop_spec w l :
  user_holds w l →
  wp (user_pop p) (λ r w', user_frame w w' ∧ w_log w' = w_log w ∧ r = head l ∧
    user_holds w' (tail l)) w.
Proof.
  intros Hh. pose proof Hh as [(o & Ho & _ & Hd & _) HU HQ]. unfold user_pop.
  wp_step. eapply wp_pool_def; [done..|]. wp_step. eapply wp_callee; [done|]. wp_step.
  apply wp_ext.
  pose proof (uf_pop fpop (w_ext w) Hpop) as Hp.
  change (ABTI_pool_handle (Some p)) with p.
  set (w1 := w <| w_ext := (call_p_pop fpop p (w_ext w)).2 |>).
  assert (user_frame w w1) as F by (split; [by destruct w|]; intros c; by apply uf_rank_pop).
  unfold unit_to_thread. inversion HQ as [HQ1 HQ2|u t us l' (Hn & Hg & x & Hx) HQ' HQ1 HQ2];
    subst; rewrite <-HQ1 in Hp; destruct Hp as [-> Hq].
  - simpl. wp_step. split_and!; [done..|]. eapply user_holds_frame; [done..|].
    change (w_ext w1) with (call_p_pop fpop p (w_ext w)).2. rewrite Hq. constructor.
  - rewrite Hn. wp_step. wp_step.
    change (g_num_user_pools w1) with (g_num_user_pools w).
    destruct (Z.eqb_spec (g_num_user_pools w) 0); [done|]. wp_step.
    split_and!; [done|done|simpl; by rewrite Hg|]. eapply user_holds_frame; [done..|].
    change (w_ext w1) with (call_p_pop fpop p (w_ext w)).2. by rewrite Hq.
Qed.

Lemma wp_pinned_at me w (t : option ptr) (Q : bool → world → Prop) :
  (∀ a, t = Some a → is_Some (w_threads w !! a)) →
  Q (from_option (pinned_in me w) false t) w → wp (pinned_at me t) Q w.
Proof.
  intros Hex HQ. destruct t as [a|]; [|done]. destruct (Hex a eq_refl) as [x Hx].
  unfold pinned_at. wp_step. eapply wp_thread; [done|]. wp_step. wp_step. wp_step.
  unfold pinned_in, pin_at in HQ. simpl in HQ. by rewrite Hx in HQ.
Qed.

(** Putting back the unit of a thread that was just popped. *)
Lemma put_back_spec {A} w l t u (k : M world A) Q :
  user_holds w l → unit_of w u t →
  (∀ w', user_frame w w' → user_holds w' (l ++ [t]) → w_log w' = w_log w → wp k Q w') →
  wp (x ← thread t; user_push p (t_unit x) ;; k) Q w.
Proof.
  intros Hh Hu Hk. pose proof Hu as (_ & _ & x & Hx & Hxu). wp_step. eapply wp_thread; [done|].
  wp_step. rewrite Hxu. eapply wp_mono; [by eapply user_push_spec|].
  intros [] w' (? & ? & ?). by apply Hk.
Qed.

Lemma unit_of_frame w w' u t : user_frame w w' → unit_of w u t → unit_of w' u t.
Proof. by intros [-> _]. Qed.
Lemma user_holds_unit w t l : user_holds w (t :: l) → ∃ u, unit_of w u t.
Proof. intros [_ _ HQ]. inversion HQ; eauto. Qed.

Lemma user_pop_refines_gen me w l :
  user_holds w l →
  wp (pop me p) (λ r w', user_frame w w' ∧ w_log w' = w_log w ∧
    ∃ l', (r, l') = user_spec_pop (pinned_in me w) l ∧ user_holds w' l') w.
Proof.
  intros Hh. pose proof Hh as [(o & Ho & Hu & _) _ _]. unfold pop.
  wp_step. eapply wp_pool; [done|]. rewrite Hu. wp_step.
  eapply wp_mono; [by apply user_pop_spec|]. intros r w1 (F1 & L1 & -> & Hh1).
  destruct l as [|a l].
  { wp_step. apply wp_pinned_at; [done|]. simpl. wp_step. eauto 10. }
  destruct (user_holds_unit _ _ _ Hh) as [u Hua]. pose proof (unit_of_frame _ _ _ _ F1 Hua) as Hua1.
  wp_step. apply wp_pinned_at.
  { intros ? [= <-]. destruct Hua1 as (_ & _ & x & -> & _). eauto. }
  simpl. rewrite (pinned_in_user_frame me _ _ a F1). destruct (pinned_in me w a); [|wp_step; eauto 10].
  eapply put_back_spec; [exact Hh1|done|]. intros w2 F2 Hh2 L2.
  pose proof (user_frame_trans _ _ _ F1 F2) as F12. simpl in Hh2.
  wp_step. eapply wp_mono; [by apply user_pop_spec|]. intros r w3 (F3 & L3 & -> & Hh3).
  pose proof (user_frame_trans _ _ _ F12 F3) as F13.
  destruct (l ++ [a]) as [|b l2] eqn:Hla; [by destruct l|].
  destruct (user_holds_unit _ _ _ Hh2) as [ub Hub].
  pose proof (unit_of_frame _ _ _ _ F3 Hub) as Hub3.
  wp_step. apply wp_pinned_at.
  { intros ? [= <-]. destruct Hub3 as (_ & _ & x & -> & _). eauto. }
  simpl. rewrite (pinned_in_user_frame me _ _ b F13). destruct (pinned_in me w b).
  - eapply put_back_spec; [exact Hh3|done|]. intros w4 F4 Hh4 L4. wp_step.
    split_and!; [by eapply user_frame_trans|congruence|eauto].
  - wp_step. split_and!; [done|congruence|eauto].
Qed.

Lemma user_push_refines_gen w l t u :
  user_holds w l → unit_of w u t →
  wp (push p t) (λ _ w', user_frame w w' ∧ user_holds w' (l ++ [t]) ∧
    w_log w' = w_log w ++ pool_wakes w p) w.
Proof.
  intros Hh Hu. pose proof Hh as [(o & Ho & Hus & Hd & Hm) _ _]. unfold push.
  wp_step. eapply wp_pool; [done|]. rewrite Hus.
  eapply put_back_spec; [done..|]. intros w1 F1 Hh1 L1.
  assert (w_pools w1 !! p = Some o) as Ho1 by (destruct F1 as [-> _]; done).
  eapply wp_on_pool; [exact Ho1|]. eapply wp_mono; [by apply wake_after_push_spec|].
  intros [] s ->.
  assert (user_frame w1 (put_pst p (add_evs (mk_pst p o (w_threads w1) (w_log w1))
    (wake_events (mk_pst p o (w_threads w1) (w_log w1)))) w1)) as F2.
  { split; [|done]. destruct w1. unfold put_pst, upd. simpl in *. by rewrite insert_id. }
  pose proof (user_frame_trans _ _ _ F1 F2) as F. split_and!; [done| |].
  - eapply user_holds_frame; [exact Hh1|exact F2|]. exact (uh_queue _ _ Hh1).
  - simpl. rewrite L1. f_equal. unfold pool_wakes. by rewrite Ho.
Qed.

(** C36: through a user-defined pool whose callbacks keep a FIFO queue, a
    push puts the thread's unit at the back and sends the pool's wake-ups,
    and a pop returns the thread of the front unit; a primary ULT pinned to
    another PE is put back and the next unit tried once; nothing else in
    the library changes. *)
Theorem user_pool_refines me w l :
  user_holds w l →
  (∀ t u, unit_of w u t →
    wp (push p t) (λ _ w', user_frame w w' ∧ user_holds w' (l ++ [t]) ∧
      w_log w' = w_log w ++ pool_wakes w p) w) ∧
  wp (pop me p) (λ r w', user_frame w w' ∧ w_log w' = w_log w ∧
    ∃ l', (r, l') = user_spec_pop (pinned_in me w) l ∧ user_holds w' l') w.
Proof.
  intros Hh. split; [intros; by eapply user_push_refines_gen|by apply user_pop_refines_gen].
Qed.
End one_pool.

(** ** The map from units to threads *)

Definition in_user_pool w (x : ABTI_thread) : bool :=
  match t_pool x with Some q => from_option user false (w_pools w !! q) | None => false end.

(** The map lists exactly the threads associated with a user-defined pool,
    each under its own unit. *)
Record units_ok w : Prop := {
  uo_map u t : g_units w !! u = Some t →
    ∃ x, w_threads w !! t = Some x ∧ t_unit x = u ∧ in_user_pool w x = true;
  uo_thread t x : w_threads w !! t = Some x → in_user_pool w x = true →
    g_units w !! t_unit x = Some t ∧ ABTI_is_null_handle (t_unit x) = false;
}.

Definition unassociated (x : ABTI_thread) : ABTI_thread :=
  x <| t_unit := ABT_UNIT_NULL |> <| t_pool := None |>.

Lemma disassociate_units w t x :
  units_ok w → w_threads w !! t = Some x → can_leave w x →
  wp (ABTI_pool_disassociate t) (λ _ w', units_ok w' ∧ w_pools w' = w_pools w ∧
    w_threads w' = <[t := unassociated x]> (w_threads w) ∧
    g_units w' = (if in_user_pool w x then delete (t_unit x) (g_units w) else g_units w) ∧
    g_num_user_pools w' = g_num_user_pools w) w.
Proof.
  intros [UM UT] Hx Hl. unfold ABTI_pool_disassociate. wp_step. eapply wp_thread; [done|]. wp_step.
  apply wp_mono with (Q := λ _ w', w_pools w' = w_pools w ∧ w_threads w' = w_threads w ∧
    g_units w' = (if in_user_pool w x then delete (t_unit x) (g_units w) else g_units w) ∧
    g_num_user_pools w' = g_num_user_pools w).
  { unfold in_user_pool. destruct (t_pool x) as [q|] eqn:Hq; [|by wp_step].
    destruct (Hl q Hq) as (o & Ho & Hd). wp_step. eapply wp_pool; [done|]. rewrite Ho. simpl.
    apply wp_when; intros Hb.
    - apply andb_true_iff in Hb as [Hus _]. destruct (Hd Hus) as (d & f & Hdf & Hf).
      wp_step. wp_step. wp_step. eapply wp_pool_def; [done..|]. wp_step.
      eapply wp_callee; [done|]. apply wp_ext_. by rewrite Hus.
    - split_and!; [done..| |done]. destruct (user o) eqn:Hus; [|done].
      destruct (UT t x Hx) as [_ Hn]; [unfold in_user_pool; by rewrite Hq, Ho|].
      by rewrite Hn in Hb. }
  intros [] w1 (Ep & Et & Eg & En). eapply wp_set_thread; [by rewrite Et|]. simpl.
  split_and!; [|done|by rewrite Et|done|done]. split; simpl; rewrite Et, Eg.
  - intros u t' Hg. assert (g_units w !! u = Some t' ∧ (in_user_pool w x = true → u ≠ t_unit x)) as [Hg' Hne].
    { destruct (in_user_pool w x); [|done]. by apply lookup_delete_Some in Hg as [? ?]. }
    destruct (UM u t' Hg') as (y & Hy & Hyu & Hin). exists y. unfold in_user_pool in *. simpl.
    rewrite Ep. split; [|done]. rewrite lookup_insert_ne; [done|]. intros <-. naive_solver.
  - intros t' y. destruct (decide (t = t')) as [<-|Hne].
    + rewrite lookup_insert_eq. by intros [= <-].
    + rewrite lookup_insert_ne by done. unfold in_user_pool at 1. simpl. rewrite Ep. intros Hy Hin.
      destruct (UT t' y Hy Hin) as [Hg Hn]. split; [|done].
      destruct (in_user_pool w x) eqn:Hin'; [|done]. rewrite lookup_delete_ne; [done|].
      intros Heq. destruct (UT t x Hx Hin') as [Hg' _]. congruence.
Qed.

Lemma enter_unit_ok w w' t x x' u p o :
  units_ok w → w_threads w !! t = Some x → in_user_pool w x = false → g_units w !! u = None →
  ABTI_is_null_handle u = false → w_pools w !! p = Some o → user o = true →
  t_unit x' = u → t_pool x' = Some p →
  w_pools w' = w_pools w → w_threads w' = <[t := x']> (w_threads w) →
  g_units w' = <[u := t]> (g_units w) → units_ok w'.
Proof.
  intros [UM UT] Hx Hout Hg Hn Ho Hus Eu Ep Epl Et Egu.
  assert (∀ y, in_user_pool w' y = in_user_pool w y) as Hin by (intros; unfold in_user_pool; by rewrite Epl).
  assert (in_user_pool w x' = true) as Hx' by (unfold in_user_pool; by rewrite Ep, Ho).
  split; rewrite Et, Egu.
  - intros v t'. destruct (decide (u = v)) as [<-|Hv].
    + rewrite lookup_insert_eq. intros [= <-]. exists x'. rewrite lookup_insert_eq, Hin. done.
    + rewrite lookup_insert_ne by done. intros (y & Hy & Hyu & Hyin)%UM. exists y.
      rewrite Hin, lookup_insert_ne; [done|]. intros <-. congruence.
  - intros t' y. rewrite Hin. destruct (decide (t = t')) as [<-|Hv].
    + rewrite lookup_insert_eq. intros [= <-] _. by rewrite Eu, lookup_insert_eq.
    + rewrite lookup_insert_ne by done. intros Hy Hyin. destruct (UT t' y Hy Hyin) as [Hgy ?].
      rewrite lookup_insert_ne; [done|]. congruence.
Qed.

(** Associating a thread with a user-defined pool gives it the unit the
    user's [u_create_from_thread] returns and enters it into the map, so that
    the unit leads back to the thread; the thread's previous unit, if it had
    one, is freed and forgotten, and the map still lists exactly the threads
    of user-defined pools.  The callback returns a unit that is not null and
    that no other thread has. *)
Theorem associate_user_unit w t x p o d f :
  units_ok w → w_threads w !! t = Some x → can_leave w x → t_pool x ≠ Some p →
  w_pools w !! p = Some o → user o = true → def o = Some d → u_create_from_thread d = Some f →
  g_num_user_pools w ≠ 0 → 
  (∀ e, let u := (call_u_create_from_thread f t e).1 in ABTI_is_null_handle u = false ∧
     (g_units w !! u = None ∨ in_user_pool w x = true ∧ u = t_unit x)) →
  wp (ABTI_pool_associate t p ;; x' ← thread t; ABT_unit_get_thread (t_unit x'))
    (λ r w', r = (ABT_SUCCESS, Some t) ∧ units_ok w' ∧ w_pools w' = w_pools w ∧
      ∃ x', w_threads w' = <[t := x']> (w_threads w) ∧ t_pool x' = Some p) w.
Proof.
  intros Hok Hx Hl Hne Ho Hus Hd Hf Hnu Hfresh. wp_step. unfold ABTI_pool_associate.
  wp_step. eapply wp_thread; [done|]. rewrite decide_False by done. wp_step.
  eapply wp_mono; [by apply disassociate_units|]. intros [] w1 (Hok1 & Ep & Et & Eg & En). wp_step.
  eapply wp_set_thread; [rewrite Et; apply lookup_insert_eq|]. wp_step.
  eapply wp_pool; [simpl; by rewrite Ep|]. rewrite Hus. unfold when. wp_step.
  eapply wp_pool_def; [simpl; by rewrite Ep|done|]. wp_step. eapply wp_callee; [done|]. wp_step.
  apply wp_ext. change (ABTI_thread_handle (Some t)) with t. simpl.
  destruct (Hfresh (w_ext w1)) as [Hn Hu].
  set (u := (call_u_create_from_thread f t (w_ext w1)).1) in *. rewrite Hn. wp_step. wp_step. wp_step.
  eapply wp_set_thread; [simpl; apply lookup_insert_eq|]. wp_step.
  wp_step. eapply wp_thread; [simpl; apply lookup_insert_eq|].
  set (x' := unassociated x <| t_pool := Some p |> <| t_unit := u |>).
  lazymatch goal with |- wp _ _ ?v => set (w' := v) end.
  lazymatch goal with |- wp (ABT_unit_get_thread ?v) _ _ => change v with u end.
  unfold ABT_unit_get_thread, any_unit_to_thread, unit_to_thread. rewrite Hn. wp_step. wp_step.
  wp_step. wp_step.
  assert (g_num_user_pools w' = g_num_user_pools w) as -> by done.
  destruct (Z.eqb_spec (g_num_user_pools w) 0); [done|]. wp_step. wp_step.
  assert (g_units w' = <[u := t]> (g_units w1)) as Egu by done.
  rewrite Egu, lookup_insert_eq. simpl. wp_step.
  assert (w_threads w' = <[t := x']> (w_threads w1)) as Etw.
  { unfold w', x'. simpl. by rewrite !insert_insert_eq. }
  split_and!; [done| |done|].
  - eapply (enter_unit_ok w1 w' t (unassociated x) x' u p o); try done.
    + by rewrite Et, lookup_insert_eq.
    + rewrite Eg. destruct (in_user_pool w x) eqn:Hin.
      * destruct Hu as [Hu|[_ ->]]; [|apply lookup_delete_eq].
        apply lookup_delete_None. by right.
      * destruct Hu as [Hu|[? _]]; [done|congruence].
    + by rewrite Ep.
  - exists x'. split; [|done]. by rewrite Etw, Et, insert_insert_eq.
Qed.
End user.
