(* ===== verification/PoolExamples.v ===== *)
(** * Concrete pools

    A small runtime (home rank 0 for every Converse thread, a clock that
    advances one second per reading, user pools that are FIFO queues of units
    outside the library) and worlds built by running the modelled operations,
    on which the theorems of [PoolApi] and [Sleepers] are applied. *)

From Stdlib Require Import SpecFloat.
From S2P Require Import Prelude AbtTypes Objects Storage PoolList Sleepers PoolMpsc Pool PoolWorld.
From S2P Require Import PoolApi PoolClient UserPool.

(** ** A runtime *)

Record toy_st : Type := mk_toy {
  toy_units : gmap Z (list Z);
  toy_clock : Z;
}.
Definition seconds (n : Z) : spec_float := binary_normalize 53 1024 n 0 false.
Definition toy_queue (h : Z) (e : toy_st) : list Z := default [] (toy_units e !! h).
Definition toy_put (h : Z) (l : list Z) (e : toy_st) : toy_st :=
  mk_toy (<[h := l]> (toy_units e)) (toy_clock e).

#[export] Instance toy : Ext := {|
  ext_st := toy_st;
  CthGetHomeRank _ _ := 0;
  CmiWallTimer e := (seconds (toy_clock e), mk_toy (toy_units e) (toy_clock e + 1));
  random e := (Z.abs (toy_clock e), mk_toy (toy_units e) (toy_clock e + 1));
  call_u_create_from_thread _ t e := (t + 65536, e);
  call_u_free _ _ e := e;
  call_p_init _ _ _ e := (ABT_SUCCESS, e);
  call_p_get_size _ h e := Z.of_nat (length (toy_queue h e));
  call_p_push _ h u e := toy_put h (toy_queue h e ++ [u]) e;
  call_p_pop _ h e :=
    match toy_queue h e with [] => (ABT_UNIT_NULL, e) | u :: l => (u, toy_put h l e) end;
  call_p_pop_timedwait _ h _ e :=
    match toy_queue h e with [] => (ABT_UNIT_NULL, e) | u :: l => (u, toy_put h l e) end;
  call_p_remove _ h u e := toy_put h (filter (λ v, v ≠ u) (toy_queue h e)) e;
  call_p_free _ _ e := e;
  call_p_print_all _ _ _ _ e := e;
  call_print _ _ _ e := e;
  call_sched_init _ _ _ e := (ABT_SUCCESS, e);
  call_sched_free _ _ e := e;
  CthCreate t _ e := (t + 131072, e);
  CthFree _ e := e;
  CthGetState _ _ := 0;
  CTH_STATE_READY := 0;
  CTH_STATE_RUNNING := 1;
  CTH_STATE_BLOCKED := 2;
  CTH_STATE_TERMINATED := 3;
  call_key_dtor d v e := toy_put d (toy_queue d e ++ [v]) e;
|}.

(** ** Worlds *)

Definition toy_thread (ty : ABTI_thread_type) (id : Z) : ABTI_thread :=
  mk_thread None None None false false (Some id) None ABT_UNIT_NULL ty None 0 (mk_attr 0 None 0) id
    None None false [] [] false false None None false 0.
Definition boot : world :=
  mk_world toy ∅
    {[ 1000 := toy_thread ABTI_THREAD_NAMED 1; 1001 := toy_thread ABTI_THREAD_NAMED 2;
       1002 := toy_thread ABTI_THREAD_NAMED 3; 1003 := toy_thread ABTI_THREAD_PRIMARY 4 ]}
    ∅ ∅ ∅ 256 [] true 1 0 ∅ 0 65536 ∅ ∅ [] (mk_toy ∅ 0).

(** Pool 256 is locked, pool 257 lock-free; both are empty. *)
Definition two_pools : world :=
  run (ABTI_pool_create_builtin ABT_POOL_FIFO ABT_POOL_ACCESS_MPMC ABT_TRUE ;;
       ABTI_pool_create_builtin ABT_POOL_FIFO ABT_POOL_ACCESS_MPSC ABT_TRUE) boot.
(** Two threads wait in each. *)
Definition queued (p : ptr) : world := run (ABT_pool_push_threads p [1000; 1001]) two_pools.

Lemma boot_holds : pools_hold boot ∅.
Proof.
  exists ∅. split; [|done]. unfold boot. split; cbn [w_pools w_threads w_brk].
  - intros p c. by rewrite lookup_empty.
  - intros p o. by rewrite lookup_empty.
  - intros p o. by rewrite lookup_empty.
  - intros p q c d t. by rewrite lookup_empty.
  - intros p c t x. by rewrite lookup_empty.
  - intros t x Hx _. revert t x Hx.
    apply (proj1 (map_Forall_lookup (λ (_ : Z) x, in_pool x = false ∧ removed x = false) _)).
    apply (bool_decide_unpack _). vm_compute. exact I.
  - intros p [? Hp]. by rewrite lookup_empty in Hp.
  - done.
Qed.

Lemma two_pools_hold : pools_hold two_pools (<[257 := []]> (<[256 := []]> ∅)).
Proof.
  unfold two_pools.
  set (Q := λ (p : ptr) (w : world), pools_hold w (<[p := []]> (<[256 := []]> ∅)) ∧ p = 257).
  assert (wp (ABTI_pool_create_builtin ABT_POOL_FIFO ABT_POOL_ACCESS_MPMC ABT_TRUE ;;
    ABTI_pool_create_builtin ABT_POOL_FIFO ABT_POOL_ACCESS_MPSC ABT_TRUE) Q boot) as Hwp.
  { wp_step. eapply wp_mono.
    { eapply wp_intro with (Q := λ p w', p = 256 ∧ pools_hold w' (<[256 := []]> ∅) ∧ w_brk w' = 257).
      - reflexivity.
      - pose proof (create_builtin_holds boot ∅ ABT_POOL_FIFO ABT_POOL_ACCESS_MPMC ABT_TRUE boot_holds)
          as (_ & _ & Hh & _). split_and!; [done|exact Hh|done]. }
    intros p w' (-> & Hh & Hb). 
    pose proof (create_builtin_holds w' _ ABT_POOL_FIFO ABT_POOL_ACCESS_MPSC ABT_TRUE Hh) as Hc.
    unfold wp in *. simpl in *. rewrite Hb in *. destruct Hc as (_ & _ & Hh' & _). by split. }
  apply wp_run in Hwp as (p & Hh & ->). done.
Qed.

Lemma in_no_pool_can_leave w x : t_pool x = None → can_leave w x.
Proof. intros Hn q Hq. congruence. Qed.

Lemma two_pools_pushable : pushable two_pools [1000; 1001].
Proof.
  split; [apply (bool_decide_unpack _); vm_compute; exact I|].
  intros t [->|[->|[]%elem_of_nil]%elem_of_cons]%elem_of_cons;
    (split; [lia|]; eexists; split; [vm_compute; reflexivity|]);
    (split_and!; [reflexivity..|by apply in_no_pool_can_leave]).
Qed.

Lemma queued_hold p :
  p ∈ [256; 257] → pools_hold (queued p) (<[p := [1000; 1001]]> (<[257 := []]> (<[256 := []]> ∅))).
Proof.
  intros Hp. unfold queued.
  assert ((<[257 := []]> (<[256 := []]> ∅) : gmap Z (list Z)) !! p = Some []) as Hl.
  { apply elem_of_cons in Hp as [->|[->|[]%elem_of_nil]%elem_of_cons]; reflexivity. }
  destruct (wp_run _ _ _ (push_threads_holds [1000; 1001] two_pools _ p [] two_pools_hold Hl
    two_pools_pushable)) as (r & _ & Hh & _). exact Hh.
Qed.

(** ** The claims of [PoolApi] on them *)

(** A thread record read out of a concrete world. *)
Ltac read_thread := vm_compute; reflexivity.

Lemma push_thread_appends_witness :
  wp (ABT_pool_push_thread 256 1002) (λ r w', r = (ABT_SUCCESS, None) ∧
    pools_hold w' (<[256 := [1000; 1001; 1002]]>
      (<[256 := [1000; 1001]]> (<[257 := []]> (<[256 := []]> ∅)))) ∧
    w_log w' = w_log (queued 256) ++ pool_wakes (queued 256) 256) (queued 256).
Proof.
  eapply (push_thread_appends (queued 256) _ 256 [1000; 1001] 1002);
    [apply queued_hold; set_solver|reflexivity|lia|read_thread|reflexivity..|].
  by apply in_no_pool_can_leave.
Defined.

Lemma pop_thread_takes_witness :
  wp (ABT_pool_pop_thread 0 257) (λ c w', ∃ r l',
    c = (ABT_SUCCESS, Some (ABTI_thread_handle r)) ∧
    (r, l') = spec_pop_of (consumer_of (queued 257) 257) (pinned_in 0 (queued 257)) [1000; 1001] ∧
    [1000; 1001] ≡ₚ option_list r ++ l' ∧
    pools_hold w' (<[257 := l']> (<[257 := [1000; 1001]]> (<[257 := []]> (<[256 := []]> ∅)))) ∧
    world_frame 257 (queued 257) w' ∧
    (∀ t, r = Some t → idle_in (w_threads w') t)) (queued 257).
Proof. apply pop_thread_takes; [apply queued_hold; set_solver|reflexivity]. Defined.

Lemma pop_threads_in_order_witness :
  wp (ABT_pool_pop_threads 0 257 1) (λ r w',
    r = (ABT_SUCCESS, Some [1000]) ∧
    pools_hold w' (<[257 := [1001]]> (<[257 := [1000; 1001]]> (<[257 := []]> (<[256 := []]> ∅)))))
    (queued 257).
Proof.
  eapply (pop_threads_in_order 0 1 (queued 257) _ 257 [1000; 1001]);
    [apply queued_hold; set_solver|reflexivity|].
  intros t [->|[->|[]%elem_of_nil]%elem_of_cons]%elem_of_cons; read_thread.
Defined.

Lemma pool_remove_unit_witness :
  wp (ABT_pool_remove 256 1000) (λ r w', r = (ABT_SUCCESS, None) ∧
    pools_hold w' (<[256 := [1001]]> (<[256 := [1000; 1001]]> (<[257 := []]> (<[256 := []]> ∅)))) ∧
    world_frame 256 (queued 256) w') (queued 256).
Proof.
  eapply (pool_remove_unit (queued 256) _ 256 [1000; 1001] 1000);
    [apply queued_hold; set_solver|reflexivity|read_thread].
Defined.

Lemma pool_size_exact_witness :
  ABT_pool_get_size 257 (queued 257) = Done (ABT_SUCCESS, Some 2) (queued 257) ∧
  ABT_pool_is_empty 257 (queued 257) = Done (ABT_SUCCESS, Some ABT_FALSE) (queued 257).
Proof.
  eapply (pool_size_exact (queued 257) _ 257 [1000; 1001]);
    [apply queued_hold; set_solver|reflexivity].
Defined.

Lemma remove_then_push_witness :
  (ABT_pool_remove 257 1000 ;; ABT_pool_push_thread 257 1000) (queued 257) =
    Faulted (Aborted push_twice_msg) ∧
  wp (ABT_pool_remove 256 1000 ;; ABT_pool_push_thread 256 1000) (λ r w', r = (ABT_SUCCESS, None) ∧
    pools_hold w' (<[256 := [1001; 1000]]>
      (<[256 := [1000; 1001]]> (<[257 := []]> (<[256 := []]> ∅))))) (queued 256).
Proof.
  split.
  - pose proof (remove_then_push (queued 257)
      (<[257 := [1000; 1001]]> (<[257 := []]> (<[256 := []]> ∅))) 257 [1000; 1001] 1000) as Hr.
    replace (consumer_of (queued 257) 257) with true in Hr by (vm_compute; reflexivity).
    cbv beta iota zeta in Hr.
    eapply Hr; [apply queued_hold; clear; set_solver|reflexivity|constructor|lia|read_thread].
  - pose proof (remove_then_push (queued 256)
      (<[256 := [1000; 1001]]> (<[257 := []]> (<[256 := []]> ∅))) 256 [1000; 1001] 1000) as Hr.
    replace (consumer_of (queued 256) 256) with false in Hr by (vm_compute; reflexivity).
    cbv beta iota zeta in Hr.
    eapply wp_mono;
      [eapply Hr; [apply queued_hold; clear; set_solver|reflexivity|constructor|lia|read_thread]|].
    intros r w' [Hc Hh]. exact (conj Hc Hh).
Defined.

Lemma push_pop_threads_witness :
  wp (ABT_pool_push_threads 257 [1000; 1001] ;; ABT_pool_pop_threads 3 257 2)
    (λ r w', r = (ABT_SUCCESS, Some [1000; 1001]) ∧
      pools_hold w' (<[257 := []]> (<[256 := []]> ∅))) two_pools.
Proof.
  eapply (push_pop_threads 3 two_pools _ 257 [1000; 1001]);
    [apply two_pools_hold|reflexivity|apply two_pools_pushable|].
  intros t [->|[->|[]%elem_of_nil]%elem_of_cons]%elem_of_cons; vm_compute; discriminate.
Defined.

(** After one pop the walk misses the unit the pool still holds. *)
Lemma for_each_unit_lists_witness :
  for_each_unit 257 (queued 257) = Done [1000; 1001] (queued 257) ∧
  let w := run (pop 0 257) (queued 257) in
  result (size 257) w = Some 1 ∧ result (for_each_unit 257) w = Some [].
Proof.
  split; [|split; vm_compute; reflexivity].
  eapply (for_each_unit_lists (queued 257) _ 257 [1000; 1001]);
    [apply queued_hold; set_solver|reflexivity].
Defined.

Lemma pool_create_basic_spec_witness :
  wp (ABT_pool_create_basic ABT_POOL_FIFO ABT_POOL_ACCESS_SPSC ABT_FALSE 4096) (λ r w',
    ∃ p o, r = (ABT_SUCCESS, Some p) ∧ ABTI_pool_get p = Some p ∧
      (<[257 := []]> (<[256 := []]> ∅) : gmap Z (list Z)) !! p = None ∧
      pools_hold w' (<[p := []]> (<[257 := []]> (<[256 := []]> ∅))) ∧
      w_pools w' = <[p := o]> (w_pools two_pools) ∧
      kind o = ABT_POOL_FIFO ∧ access o = ABT_POOL_ACCESS_SPSC ∧ p_automatic o = ABT_FALSE ∧
      single_consumer o = true) two_pools.
Proof.
  apply (pool_create_basic_spec two_pools _ ABT_POOL_FIFO ABT_POOL_ACCESS_SPSC ABT_FALSE 4096),
    two_pools_hold.
Defined.

(** While the caller sleeps on the empty pool 256, another PE pushes 1000. *)
Lemma pop_timedwait_spec_witness :
  let others := associate_and_push 1000 256 in
  wp (pop_timedwait 0 256 (seconds 5) others) (λ r w', ∃ V', pools_hold w' V' ∧
    ∃ l2 l3 w2, V' !! 256 = Some l3 ∧
      (r, l3) = spec_pop_of (consumer_of w2 256) (pinned_in 0 w2) l2 ∧ l2 = [1000]) two_pools ∧
  result (pop_timedwait 0 256 (seconds 5) others) two_pools = Some (Some 1000).
Proof.
  split; [|vm_compute; reflexivity].
  eapply (pop_timedwait_spec 0 (λ l, l = [1000]) (associate_and_push 1000 256) (seconds 5) two_pools
    _ 256 []); [apply two_pools_hold|reflexivity|read_thread|vm_compute; discriminate|].
  intros w1 V1 Hh Hl _ Hsame.
  eapply wp_mono; [eapply (associate_and_push_holds w1 V1 256 [] 1000); [done..|rewrite Hsame| | |]|].
  - read_thread.
  - eexists. split; [read_thread|]. done.
  - reflexivity.
  - reflexivity.
  - by apply in_no_pool_can_leave.
  - intros [] w2 (Hh2 & _). exists (<[256 := [1000]]> V1), [1000].
    split_and!; [done|apply lookup_insert_eq|done].
Defined.

(** ** Sleepers *)

Definition parked_pool : ABTI_pool := new_pool <| smask := [5; 0; 0; 1] |> <| nsleepers := 3 |>.
Lemma parked_pool_set : parked parked_pool {[0; 2; 192]}.
Proof.
  split.
  - split; [done|]. simpl. intros m. rewrite !elem_of_cons, elem_of_nil. lia.
  - reflexivity.
  - intros r. rewrite !elem_of_union, !elem_of_singleton. lia.
  - intros r Hr. assert (r ∈ seqZ 0 256) as Hin by (apply elem_of_seqZ; lia). revert r Hin Hr.
    apply (Forall_forall (λ r, 0 ≤ r < 256 → asleep (smask parked_pool) r = bool_decide (r ∈ {[0; 2; 192]}))).
    apply (bool_decide_unpack _). vm_compute. exact I.
Qed.

Lemma sleeper_mask_is_a_set_witness :
  let s := mk_pst 256 parked_pool ∅ [] in
  wp (add_sleeper 7) (λ _ s', parked (this s') ({[7]} ∪ {[0; 2; 192]})) s ∧
  evs <$> (match wake_after_push s with Done _ s' => Some s' | Faulted _ => None end) =
    Some [CsdIdleNotify 0; CsdIdleNotify 2; CsdIdleNotify 192].
Proof.
  split; [|vm_compute; reflexivity].
  destruct (sleeper_mask_is_a_set (mk_pst 256 parked_pool ∅ []) _ parked_pool_set) as [Ha _].
  apply Ha; [lia|]. clear. apply (bool_decide_unpack _). vm_compute. exact I.
Defined.

(** ** A user-defined pool *)

Definition toy_def : ABT_pool_def :=
  mk_pool_def ABT_POOL_ACCESS_MPMC None None None None (Some 1) None (Some 2) (Some 3) (Some 4) (Some 5) (Some 6) None None None
    None.
(** Pool 258 is user-defined; then thread 1000 is associated with it. *)
Definition user_world : world := run (ABT_pool_create (Some toy_def) 0 4096) two_pools.
Definition user_world1 : world := run (ABTI_pool_associate 1000 258) user_world.

Definition toy_q (h : Z) : ext_st (Ext := toy) → list Z := toy_queue h.
#[export] Instance toy_fifo h : UserFifo toy_def h (toy_q h).
Proof.
  unfold toy_q. split; try done.
  - intros f u e _. simpl. unfold toy_queue at 1, toy_put. simpl. by rewrite lookup_insert_eq.
  - intros f e _. simpl. destruct (toy_queue h e) as [|u l] eqn:Hq; [done|]. simpl.
    unfold toy_queue, toy_put. simpl. by rewrite lookup_insert_eq.
Qed.

Lemma user_world1_holds : user_holds 258 toy_def (toy_q 258) user_world1 [].
Proof.
  split.
  - eexists. split; [read_thread|]. split_and!; [reflexivity..|]. split; [done|].
    simpl. intros m. rewrite !elem_of_cons, elem_of_nil. lia.
  - vm_compute. discriminate.
  - assert (toy_q 258 (w_ext user_world1) = []) as -> by (vm_compute; reflexivity). constructor.
Qed.

Lemma user_pool_refines_witness :
  wp (push 258 1000) (λ _ w', user_frame user_world1 w' ∧
    user_holds 258 toy_def (toy_q 258) w' [1000] ∧
    w_log w' = w_log user_world1 ++ pool_wakes user_world1 258) user_world1 ∧
  result (push 258 1000 ;; pop 0 258) user_world1 = Some (Some 1000).
Proof.
  split; [|vm_compute; reflexivity].
  destruct (user_pool_refines 258 toy_def (toy_q 258) 5 6 eq_refl eq_refl 0 user_world1 []
    user_world1_holds) as [Hp _].
  apply (Hp 1000 66536). split; [done|]. split; [vm_compute; reflexivity|].
  eexists. split; [read_thread|reflexivity].
Defined.

Lemma user_world_units : units_ok user_world.
Proof.
  split.
  - intros u t. assert (g_units user_world = ∅) as -> by (vm_compute; reflexivity).
    by rewrite lookup_empty.
  - intros t x Hx. assert (in_user_pool user_world x = false) as ->; [|done]. revert t x Hx.
    apply (proj1 (map_Forall_lookup (λ (_ : Z) x, in_user_pool user_world x = false) _)).
    apply (bool_decide_unpack _). vm_compute. exact I.
Qed.

Lemma associate_user_unit_witness :
  wp (ABTI_pool_associate 1000 258 ;; x' ← thread 1000; ABT_unit_get_thread (t_unit x'))
    (λ r w', r = (ABT_SUCCESS, Some 1000) ∧ units_ok w' ∧ w_pools w' = w_pools user_world ∧
      ∃ x', w_threads w' = <[1000 := x']> (w_threads user_world) ∧ t_pool x' = Some 258) user_world.
Proof.
  eapply (associate_user_unit user_world 1000 _ 258 _ toy_def 1 user_world_units);
    [read_thread|by apply in_no_pool_can_leave|discriminate|read_thread|reflexivity..| |].
  - vm_compute. discriminate.
  - intros e. split; [done|]. left.
    assert (g_units user_world = ∅) as -> by (vm_compute; reflexivity). apply lookup_empty.
Defined.

(** ** A unit the print walk misses *)

(** [for_each_unit], which [ABT_pool_print_all] walks a pool with, can miss
    a unit of a lock-free pool: after pushing two threads and popping one
    through the interface, the pool holds one unit and the walk visits none. *)
Theorem print_walk_misses_a_unit :
  ∃ w V, pools_hold w V ∧ V !! 257 = Some [1001] ∧ result (ABT_pool_get_size 257) w = Some (ABT_SUCCESS, Some 1) ∧
    result (for_each_unit 257) w = Some [].
Proof.
  exists (run (ABT_pool_pop_threads 0 257 1) (queued 257)).
  assert (pools_hold (queued 257) (<[257 := [1000; 1001]]> (<[257 := []]> (<[256 := []]> ∅)))) as Hq
    by (apply queued_hold; set_solver).
  assert (∀ t, t ∈ [1000; 1001] → pinned_in 0 (queued 257) t = false) as Hp.
  { intros t [->|[->|[]%elem_of_nil]%elem_of_cons]%elem_of_cons; read_thread. }
  eexists. split_and!; [|apply lookup_insert_eq|vm_compute; reflexivity..].
  assert (wp (ABT_pool_pop_threads 0 257 1) (λ _ w', pools_hold w'
    (<[257 := [1001]]> (<[257 := [1000; 1001]]> (<[257 := []]> (<[256 := []]> ∅))))) (queued 257)) as Hw.
  { eapply wp_with_pool; [exact Hq|reflexivity|]. wp_step.
    eapply wp_mono; [apply (pop_up_to_holds 0 1 _ _ 257 [1000; 1001] Hq); [reflexivity|exact Hp]|].
    intros r w' [_ Hh]. wp_step. exact Hh. }
  apply wp_run in Hw as [_ Hh]. exact Hh.
Qed.

(** ** Programs of [PoolClient]

    With two threads at hand: create a pool, push both, take one out and, if
    there was one, remove the other, push the first again, and ask for the size. *)
Definition shuffle : client :=
  PCreate ABT_POOL_FIFO ABT_POOL_ACCESS_MPMC ABT_TRUE (PPushAll 2 [0%nat; 1%nat] (PPop 0 2
    (PIfNull 3 PRet (PRemove 2 1 (PPush 2 3 (PSize 2 PRet)))))).
(** the same thread twice *)
Definition push_twice : client := PCreate ABT_POOL_FIFO ABT_POOL_ACCESS_MPSC ABT_TRUE (PPush 1 0 (PPush 1 0 PRet)).

Lemma boot_in_order : in_order boot ∅.
Proof.
  split; [apply boot_holds|done|]. intros t x Hx. apply in_no_pool_can_leave. revert t x Hx.
  apply (proj1 (map_Forall_lookup (λ (_ : Z) x, t_pool x = None) _)). apply (bool_decide_unpack _). vm_compute. exact I.
Qed.
Lemma boot_threads : env_ok boot ∅ [HThread; HThread] [1000; 1001].
Proof.
  do 2 (apply Forall2_cons; split; [split; [lia|eexists; read_thread]|]). by apply Forall2_nil.
Qed.
Example typing_rejects : typed [HMaybe] (PCreate 0 0 0 (PRemove 1 0 PRet)) = false ∧ run_client push_twice [1000] boot = Faulted (Aborted push_twice_msg).
Proof. split; vm_compute; reflexivity. Qed.

Lemma typed_clients_run_witness :
  typed [HThread; HThread] shuffle = true ∧ result (run_client shuffle [1000; 1001]) boot = Some [0; 0; 0; 0; 0; 0; 1] ∧
  safe (run_client shuffle [1000; 1001]) (λ _ w', ∃ V', in_order w' V' ∧ exclusive V' ∧ ∀ p, is_Some ((∅ : gmap Z (list ptr)) !! p) → is_Some (V' !! p)) boot.
Proof.
  split_and!; [reflexivity|vm_compute; reflexivity|].
  exact (typed_clients_run boot ∅ [HThread; HThread] [1000; 1001] shuffle boot_in_order boot_threads eq_refl).
Defined.
