(* ===== verification/MpscExamples.v ===== *)
(** * Runs of the lock-free queue

    Two producers, one of them between its exchange and its link while the other
    pushes and a pop comes back empty; then a removal, and pops of the rest.  The
    theorems of [MpscSpec] at states of these runs. *)

From S2P Require Import Prelude AbtTypes Objects Storage PoolList Sleepers PoolMpsc MpscConc MpscSafe MpscSpec.
From S2P Require Import Pool PoolExamples.

Definition mpsc_boot : pst :=
  mk_pst 4096 (new_pool <| single_consumer := true |>)
    {[ 1000 := toy_thread ABTI_THREAD_NAMED 1 <| t_pool := Some 4096 |>;
       1001 := toy_thread ABTI_THREAD_NAMED 2 <| t_pool := Some 4096 |> ]} [].
Definition mpsc_start : mst := mstart mpsc_boot {[ 0; 1 ]}.
Definition mpsc_after (ls : list mlabel) : mst := default mpsc_start (mrun ls mpsc_start).
Lemma mpsc_boot_fresh : fresh_pool mpsc_boot.
Proof.
  split; [done|done| |].
  - split; [done|]. intros m Hm. unfold mpsc_boot in Hm. simpl in Hm. set_solver by lia.
  - intros t x. unfold mpsc_boot. simpl. intros [[_ <-]|[_ [_ <-]%lookup_singleton_Some]]%lookup_insert_Some; done.
Qed.
Lemma mpsc_after_reach ls : mreach mpsc_boot {[ 0; 1 ]} (mpsc_after ls).
Proof.
  unfold mreach, mpsc_after. destruct (mrun ls mpsc_start) as [j|] eqn:Hr; [|apply rtc_refl]. by eapply mrun_sound.
Qed.

(** Producer 0 has exchanged [tail] for 1000 and not linked it; producer 1 has
    pushed 1001; a pop is about to read the stub's [next]. *)
Definition mpsc_gap : list mlabel :=
  [MBegin 0 1000; MPush 0; MPush 0; MPush 0; MBegin 1 1001; MPush 1; MPush 1; MPush 1; MPush 1; MPush 1; MPush 1; MPush 1; MEnter].
(** The pop comes back empty, producer 0 links and counts, 1000 is removed. *)
Definition mpsc_linked : list mlabel := mpsc_gap ++ [MPop; MPush 0; MPush 0; MPush 0; MPush 0; MRemove 1000; MCount].
(** The next pop passes over 1000 and detaches 1001, the last unit. *)
Definition mpsc_drained : list mlabel :=
  mpsc_linked ++ [MEnter; MPop; MPop; MPop; MPop; MPop; MPop; MPop; MPop; MPop; MPop; MPop].

Lemma mpsc_fifo_witness :
  let j := mpsc_after mpsc_drained in
  taken j = [1000; 1001] ∧ dropped j = [1000] ∧ in_hand (cons_ j) = [1001] ∧
  ∃ rest marked, remaining j rest ∧ NoDup rest ∧ (∀ t, t ∈ rest → inq (mp j) t = Some true) ∧
    popped j ++ in_hand (cons_ j) `sublist_of` taken j ∧ taken j ≡ₚ popped j ++ skipped j ++ in_hand (cons_ j) ∧
    dropped j ≡ₚ skipped j ++ marked ∧ NoDup marked ∧ (∀ t, t ∈ marked ↔ is_marked (mp j) t) ∧
    count (this (mp j)) =
      Z.of_nat (length (pushed j)) - uncounted j - Z.of_nat (length (dropped j)) - Z.of_nat (length (popped j)) + Z.of_nat (owed j).
Proof.
  intros j. split_and!; [vm_compute; reflexivity..|].
  exact (mpsc_fifo mpsc_boot {[ 0; 1 ]} (mpsc_after mpsc_drained) mpsc_boot_fresh (mpsc_after_reach _)).
Defined.
Lemma mpsc_empty_pop_witness :
  let j := mpsc_after mpsc_gap in
  pop_step (cons_ j) (mp j) = Done (CIdle None) (mp j) ∧ pushed j ≠ taken j ∧ (pushed j = taken j ∨ busy j = true).
Proof.
  assert (pop_step (cons_ (mpsc_after mpsc_gap)) (mp (mpsc_after mpsc_gap)) = Done (CIdle None) (mp (mpsc_after mpsc_gap))) as Hst
    by (vm_compute; reflexivity).
  assert (cons_ (mpsc_after mpsc_gap) = CHead) as Hc by (vm_compute; reflexivity).
  intros j. split; [exact Hst|]. split; [vm_compute; discriminate|].
  refine (mpsc_empty_pop mpsc_boot {[ 0; 1 ]} (mpsc_after mpsc_gap) _ mpsc_boot_fresh (mpsc_after_reach _) _ Hst).
  intros ret Hi. rewrite Hc in Hi. discriminate.
Defined.
Lemma mpsc_never_dangles_witness :
  let j := mpsc_after mpsc_gap in
  (∃ c' s', pop_step (cons_ j) (mp j) = Done c' s') ∧
  ∀ a p, prods j !! a = Some p → (∃ p' s', push_step p (mp j) = Done p' s') ∨ ∃ t, p = PMark t ∧ inq (mp j) t ≠ Some false.
Proof. exact (mpsc_never_dangles mpsc_boot {[ 0; 1 ]} (mpsc_after mpsc_gap) mpsc_boot_fresh (mpsc_after_reach _)). Defined.
Lemma mpsc_rest_is_store_witness : mpsc_store (mp (mpsc_after mpsc_linked)) [1000; 1001].
Proof.
  assert (map_to_list (prods (mpsc_after mpsc_linked)) = [(1, PIdle); (0, PIdle)]) as Hp by (vm_compute; reflexivity).
  refine (mpsc_rest_is_store mpsc_boot {[ 0; 1 ]} (mpsc_after mpsc_linked) [1000; 1001] mpsc_boot_fresh (mpsc_after_reach _) _ _).
  - split; [exists None; vm_compute; reflexivity|]. intros a p Ha%elem_of_map_to_list. rewrite Hp in Ha.
    apply elem_of_cons in Ha as [Ha|Ha]; [congruence|]. apply list_elem_of_singleton in Ha. congruence.
  - vm_compute. reflexivity.
Defined.
