(* ===== verification/ListExamples.v ===== *)
(** * Runs of the locked list

    Threads that push, pop and remove at the same time; the theorems of
    [ListSafe] on them; and a removal that meets a unit whose push has set its
    flag but not linked it. *)

From S2P Require Import Prelude AbtTypes Objects Storage PoolList Spinlock Sleepers WakeSteps ListConc ListSafe.
From S2P Require Import Pool PoolExamples.

Definition list_boot : pst :=
  mk_pst 4096 new_pool
    {[ 1000 := toy_thread ABTI_THREAD_NAMED 1 <| t_pool := Some 4096 |>;
       1001 := toy_thread ABTI_THREAD_NAMED 2 <| t_pool := Some 4096 |> ]} [].
Definition unpinned (a : Z) (x : ABTI_thread) : bool := false.
Definition list_start : lst := lstart list_boot {[ 0; 1; 2 ]}.
Definition list_after (strict : bool) (ls : list llabel) : lst := default list_start (lrun strict unpinned ls list_start).
Lemma list_boot_fresh : fresh_list list_boot.
Proof.
  split; [|done| |].
  - split; [by split; [..|constructor|]|set_solver].
  - split; [done|]. intros m Hm. unfold list_boot in Hm. simpl in Hm. set_solver by lia.
  - intros t x. unfold list_boot. simpl. intros [[_ <-]|[_ [_ <-]%lookup_singleton_Some]]%lookup_insert_Some; done.
Qed.
Lemma list_after_reach strict ls : lreach strict unpinned list_boot {[ 0; 1; 2 ]} (list_after strict ls).
Proof.
  unfold lreach, list_after. destruct (lrun strict unpinned ls list_start) as [j|] eqn:Hr; [|apply rtc_refl]. by eapply lrun_sound.
Qed.
Definition steps (n : nat) (a : Z) : list llabel := replicate n (LStep a).

(** Thread 0 is inside with 1000; 1 spins for the lock with 1001. *)
Definition list_inside : list llabel := LPush 0 1000 :: steps 2 0 ++ LPush 1 1001 :: steps 3 1.
(** Thread 0 finishes, 1 gets in and finishes, 2 pops. *)
Definition list_mixed : list llabel := list_inside ++ steps 5 0 ++ steps 7 1 ++ LPop 2 :: steps 3 2.
(** 0 has pushed 1000; 1 has set the flag of 1001; 2 removes 1001, and pops. *)
Definition list_race : list llabel :=
  LPush 0 1000 :: steps 7 0 ++ LPush 1 1001 :: steps 1 1 ++ LRemove 2 1001 :: steps 4 2 ++ LPop 2 :: steps 3 2.

Lemma list_linearizes_witness :
  let j := list_after true list_mixed in
  (∃ f, hist j = [QPush 1000; QPush 1001; QPop f (Some 1000)]) ∧
  ∃ l, qrun (hist j) [] = Some l ∧ list_store (lp j) l ∧ LockedBy (lk j) (holding j) ∧
    count (this (lp j)) = Z.of_nat (length l) - tally to_add (ags j) + tally to_drop (ags j).
Proof.
  intros j. split; [eexists; vm_compute; reflexivity|].
  exact (list_linearizes unpinned list_boot {[ 0; 1; 2 ]} (list_after true list_mixed) list_boot_fresh (list_after_reach _ _)).
Defined.
Lemma list_sections_run_witness :
  let j := list_after true list_inside in
  ags j !! 0 = Some (AIn (SInsert 1000)) ∧ ∃ p op s', section (unpinned 0) (SInsert 1000) (lp j) = Done (p, op) s'.
Proof.
  assert (ags (list_after true list_inside) !! 0 = Some (AIn (SInsert 1000))) as Ha by (vm_compute; reflexivity).
  intros j. split; [exact Ha|].
  refine (list_sections_run unpinned list_boot {[ 0; 1; 2 ]} (list_after true list_inside) 0 (SInsert 1000) list_boot_fresh (list_after_reach _ _) Ha _ _).
  - intros t Ht. discriminate.
  - intros t Ht. discriminate.
Defined.
Lemma spinlock_excludes_witness :
  let s := mk_kst true {[ 0 := KHold; 1 := KLock (LWait 2) ]} in
  rtc kstep (kstart {[ 0; 1 ]}) s ∧
  (∀ a b, kholds s a → kholds s b → a = b) ∧ (k_flag s = true ↔ ∃ a, kholds s a) ∧
  (∀ a p, k_pts s !! a = Some (KLock p) → pause_ok (pause_of p)) ∧
  ((∀ a, ¬ kholds s a) → ∀ a p, k_pts s !! a = Some (KLock p) →
     lk_step (k_flag s) p = (true, None) ∨ lk_try2 (k_flag s) p = (true, None)).
Proof.
  assert (rtc kstep (kstart {[ 0; 1 ]}) (mk_kst true {[ 0 := KHold; 1 := KLock (LWait 2) ]})) as Hr.
  { eapply rtc_l; [apply (kstep_call _ 0); reflexivity|]. eapply rtc_l; [apply (kstep_call _ 1); reflexivity|].
    eapply rtc_l; [eapply (kstep_spin _ 0); reflexivity|]. eapply rtc_l; [eapply (kstep_spin _ 1); reflexivity|].
    eapply rtc_l; [eapply (kstep_spin _ 1); reflexivity|]. match goal with |- rtc _ ?x ?y => replace x with y; [apply rtc_refl|] end.
    vm_compute. reflexivity. }
  intros s. split; [exact Hr|]. exact (spinlock_excludes {[ 0; 1 ]} (mk_kst true {[ 0 := KHold; 1 := KLock (LWait 2) ]}) Hr).
Defined.

(** C39: a removal that meets the push of the same unit, after the push has set
    the unit's [in_pool] flag and before it takes the lock, unlinks a unit that
    is in no list, which empties the list: 1000 was queued and is still flagged as
    queued, the removal of 1001 succeeds, and the next pop finds nothing. *)
Theorem remove_races_push : ∃ j f, lreach false unpinned list_boot {[ 0; 1; 2 ]} j ∧
  hist j = [QPush 1000; QRemove 1001 true true; QPop f None] ∧ flag (lp j) 1000 = Some true ∧
  lhead (this (lp j)) = None ∧ ltail (this (lp j)) = None.
Proof.
  exists (list_after false list_race), (pin_at (heap (lp (list_after false (take 17 list_race)))) (unpinned 2)).
  split; [apply list_after_reach|]. split_and!; vm_compute; reflexivity.
Qed.
