(* ===== verification/Park.v ===== *)
(** * A PE that parks misses no unit

    A PE with nothing to run publishes itself in a pool's sleeper mask
    ([add_sleeper]), looks at the pool once more, by a pop
    ([ABTI_xstream_idle_hook]) or by its size ([stacked_sched_main]), and parks in
    [CsdIdleWait]; a push makes its unit visible first and reads the mask after
    that.  The machine of this file adds such PEs to any machine of pushes and
    pops that is a [PoolMachine], one access per step; its theorem is that a
    parked PE has been notified since it published itself, or some push that is
    under way is still going to look at its bit, unless there is nothing for it. *)

From S2P Require Import Prelude AbtTypes Objects Storage Sleepers WakeSteps.

(** ** [add_sleeper] and [remove_sleeper] in two steps *)

Definition set_bit (rank : Z) : M pst unit :=
  m ← mask_word (Z.shiftr rank 6);
  set_self (λ p, p <| smask ::= <[Z.to_nat (Z.shiftr rank 6) := Z.lor m (Z.shiftl 1 (Z.land rank 63))]> |>).
Definition clear_bit (rank : Z) : M pst unit :=
  m ← mask_word (Z.shiftr rank 6);
  set_self (λ p, p <| smask ::= <[Z.to_nat (Z.shiftr rank 6) := Z.land m (2 ^ 64 - 1 - Z.shiftl 1 (Z.land rank 63))]> |>).
Lemma add_sleeper_steps rank s : add_sleeper rank s = (set_bit rank ;; set_self (λ p, p <| nsleepers ::= Z.succ |>)) s.
Proof. unfold set_bit. by rewrite bind_bind. Qed.
Lemma remove_sleeper_steps rank s : remove_sleeper rank s = (clear_bit rank ;; set_self (λ p, p <| nsleepers ::= Z.pred |>)) s.
Proof. unfold clear_bit. by rewrite bind_bind. Qed.

(** What happens to the mask alone. *)
Record remask (s s' : pst) (f : Z → bool → bool) : Prop := {
  rm_masks : masks_wf (smask (this s'));
  rm_bits r : 0 ≤ r < 256 → asleep (smask (this s')) r = f r (asleep (smask (this s)) r);
  rm_aside : aside (this s') = aside (this s);
  rm_sleepers : nsleepers (this s') = nsleepers (this s);
}.
Lemma set_bit_Done rank s s' : masks_wf (smask (this s)) → 0 ≤ rank < 256 → set_bit rank s = Done tt s' →
  remask s s' (λ r b, b || (r =? rank)).
Proof.
  intros Hm Hr Hst. pose proof (add_sleeper_spec rank s Hm Hr) as Hw. unfold wp in Hw. rewrite add_sleeper_steps in Hw.
  unfold mbind, M_bind in Hw. rewrite Hst in Hw. simpl in Hw. destruct Hw as (H1 & H2 & _).
  unfold set_bit in Hst. apply bind_Done in Hst as (m & s1 & ->%mask_word_Done & [= <-]). by split.
Qed.
Lemma clear_bit_Done rank s s' : masks_wf (smask (this s)) → 0 ≤ rank < 256 → clear_bit rank s = Done tt s' →
  remask s s' (λ r b, b && negb (r =? rank)).
Proof.
  intros Hm Hr Hst. pose proof (remove_sleeper_spec rank s Hm Hr) as Hw. unfold wp in Hw. rewrite remove_sleeper_steps in Hw.
  unfold mbind, M_bind in Hw. rewrite Hst in Hw. simpl in Hw. destruct Hw as (H1 & H2 & _).
  unfold clear_bit in Hst. apply bind_Done in Hst as (m & s1 & ->%mask_word_Done & [= <-]). by split.
Qed.

(** ** The interface *)

Class PoolMachine (J : Type) : Type := {
  pm_pst : J → pst;
  pm_with : ABTI_pool → J → J;
  (** anything but a PE that parks or leaves *)
  pm_step : J → J → Prop;
  (** the pop of a PE begins, comes back empty *)
  pm_begins : Z → J → J → Prop;
  pm_null : Z → J → J → Prop;
  (** an invariant; a push that has touched the storage has not looked at the bit
      of the PE; how many of those have counted their units; a push touched the
      storage since the pop began; a pop of the PE would find a unit *)
  pm_good : J → Prop;
  pm_looks : Z → J → Prop;
  pm_due : Z → J → Z;
  pm_overlap : J → Prop;
  pm_filled : Z → J → Prop;
}.
Class PoolMachineLaws (J : Type) `{PoolMachine J} : Prop := {
  pm_good_step j j' : pm_good j → pm_step j j' → pm_good j' ∧
    smask (this (pm_pst j')) = smask (this (pm_pst j)) ∧ nsleepers (this (pm_pst j')) = nsleepers (this (pm_pst j));
  pm_good_masks j : pm_good j → masks_wf (smask (this (pm_pst j)));
  pm_good_with j o : pm_good j → aside o = aside (this (pm_pst j)) → masks_wf (smask o) → pm_good (pm_with o j);
  pm_with_this j o : this (pm_pst (pm_with o j)) = o;
  pm_with_same j o r : (pm_looks r (pm_with o j) ↔ pm_looks r j) ∧ pm_due r (pm_with o j) = pm_due r j ∧
    (pm_overlap (pm_with o j) ↔ pm_overlap j) ∧ (pm_filled r (pm_with o j) ↔ pm_filled r j);
  pm_begins_step r j j' : pm_good j → pm_begins r j j' → pm_step j j';
  pm_null_step r j j' : pm_good j → pm_null r j j' → pm_step j j';
  pm_keeps_looking j j' r : pm_good j → pm_step j j' → 0 ≤ r < 256 → asleep (smask (this (pm_pst j))) r = true → 0 < nsleepers (this (pm_pst j)) →
    pm_looks r j → pm_looks r j' ∨ r ∈ told (pm_pst j) (pm_pst j');
  pm_counts j j' r : pm_good j → pm_step j j' → 0 ≤ r < 256 → asleep (smask (this (pm_pst j))) r = true → 0 < nsleepers (this (pm_pst j)) →
    count (this (pm_pst j')) - pm_due r j' ≤ count (this (pm_pst j)) - pm_due r j ∨ r ∈ told (pm_pst j) (pm_pst j');
  pm_due_looks j r : 0 ≤ pm_due r j ∧ (0 < pm_due r j → pm_looks r j);
  pm_fills j j' r : pm_good j → pm_step j j' → 0 ≤ r < 256 → pm_filled r j' → pm_filled r j ∨ pm_looks r j';
  pm_overlaps j j' r : pm_good j → pm_step j j' → 0 ≤ r < 256 → pm_overlap j' → pm_overlap j ∨ pm_looks r j';
  pm_begins_overlap r j j' : pm_good j → pm_begins r j j' → 0 ≤ r < 256 → pm_overlap j' → pm_looks r j';
  pm_null_filled r j j' : pm_good j → pm_null r j j' → pm_filled r j' → pm_overlap j';
}.

(** ** The machine *)

(** A PE: [SSlept sized]: in [CsdIdleWait], after a look at the size or after a
    pop. *)
Inductive spoint : Type :=
  | SAwake
  | SMarked
  | SListed
  | SPopping
  | SSlept (sized : bool)
  | SLeaving
  | SUnmarked.
Section machine.
Context {J : Type} `{PM : PoolMachine J}.
Record sst : Type := mk_sst { sj : J; pes : gmap Z spoint; poked : gset Z }.
Definition with_state (k : sst) (s : pst) (r : Z) (p : spoint) : sst := mk_sst (pm_with (this s) (sj k)) (<[r := p]> (pes k)) (poked k).
(** the pool's own steps; [pts] is what they mean for the PEs *)
Definition moved (k : sst) (j' : J) (pts : gmap Z spoint) : sst := mk_sst j' pts (poked k ∪ told (pm_pst (sj k)) (pm_pst j')).
Inductive sstep (k : sst) : sst → Prop :=
  | sstep_pool j' : pm_step (sj k) j' → sstep k (moved k j' (pes k))
  (** [add_sleeper] *)
  | sstep_mark r s' : pes k !! r = Some SAwake → set_bit r (pm_pst (sj k)) = Done tt s' → sstep k (with_state k s' r SMarked)
  | sstep_list r s' : pes k !! r = Some SMarked → set_self (λ p, p <| nsleepers ::= Z.succ |>) (pm_pst (sj k)) = Done tt s' →
      sstep k (mk_sst (pm_with (this s') (sj k)) (<[r := SListed]> (pes k)) (poked k ∖ {[ r ]}))
  (** [t = p0->pop()] and [if (!t) CsdIdleWait(...)] *)
  | sstep_begin r j' : pes k !! r = Some SListed → pm_begins r (sj k) j' → sstep k (moved k j' (<[r := SPopping]> (pes k)))
  | sstep_null r j' : pes k !! r = Some SPopping → pm_null r (sj k) j' → sstep k (moved k j' (<[r := SSlept false]> (pes k)))
  | sstep_found r : pes k !! r = Some SPopping → sstep k (mk_sst (sj k) (<[r := SLeaving]> (pes k)) (poked k))
  (** [if (p->size() > 0) ready = true], [if (!ready) CsdIdleWait(...)] *)
  | sstep_size r : pes k !! r = Some SListed →
      sstep k (mk_sst (sj k) (<[r := if count (this (pm_pst (sj k))) >? 0 then SLeaving else SSlept true]> (pes k)) (poked k))
  (** a notification, a time-out or a message of the runtime ends the wait *)
  | sstep_wake r sized : pes k !! r = Some (SSlept sized) → sstep k (mk_sst (sj k) (<[r := SLeaving]> (pes k)) (poked k))
  (** [remove_sleeper] *)
  | sstep_unmark r s' : pes k !! r = Some SLeaving → clear_bit r (pm_pst (sj k)) = Done tt s' → sstep k (with_state k s' r SUnmarked)
  | sstep_unlist r s' : pes k !! r = Some SUnmarked → set_self (λ p, p <| nsleepers ::= Z.pred |>) (pm_pst (sj k)) = Done tt s' →
      sstep k (with_state k s' r SAwake).
End machine.
Arguments sst J : clear implicits.
