(* ===== verification/ParkSafe.v ===== *)
(** * Nobody sleeps on a unit

    The invariant of the machine of [Park], for any pool machine with its laws:
    a PE that sleeps has been notified since it published itself, or a push under
    way is still to look at its bit, if there is something for it. *)

From S2P Require Import Prelude AbtTypes Objects Storage Sleepers WakeSteps Park.

Lemma tally_ge {P} (f : P → Z) (m : gmap Z P) a p : (∀ p, 0 ≤ f p) → m !! a = Some p → f p ≤ tally f m.
Proof.
  intros Hf Ha. rewrite <-(insert_id m a p) by done. rewrite <-insert_delete_eq, tally_new by (by rewrite lookup_delete_eq).
  pose proof (tally_nonneg f (delete a m) Hf). lia.
Qed.

Section park.
Context {J : Type} `{PL : PoolMachineLaws J}.
Implicit Types (k : sst J) (r : Z).

Definition listed (p : spoint) : Z := match p with SAwake | SMarked => 0 | _ => 1 end.
Definition has_bit (p : spoint) : bool := match p with SAwake | SUnmarked => false | _ => true end.
Lemma listed_nonneg p : 0 ≤ listed p.
Proof. by destruct p. Qed.
Abbreviation pool_of k := (this (pm_pst (sj k))).
(** what a PE at [p] may rely on *)
Definition informed k r (p : spoint) : Prop :=
  match p with
  | SPopping => pm_overlap (sj k) → r ∈ poked k ∨ pm_looks r (sj k)
  | SSlept false => pm_filled r (sj k) → r ∈ poked k ∨ pm_looks r (sj k)
  | SSlept true => r ∈ poked k ∨ count (pool_of k) ≤ pm_due r (sj k)
  | _ => True
  end.
Record sinv k : Prop := {
  si_good : pm_good (sj k);
  si_range r p : pes k !! r = Some p → 0 ≤ r < 256;
  si_bit r p : pes k !! r = Some p → has_bit p = true → asleep (smask (pool_of k)) r = true;
  si_count : nsleepers (pool_of k) = tally listed (pes k);
  si_told r p : pes k !! r = Some p → informed k r p;
}.

(** The pool moves. *)
Lemma moved_inv k j' : sinv k → pm_step (sj k) j' → sinv (moved k j' (pes k)).
Proof.
  intros [S1 S2 S3 S4 S5] Hst. destruct (pm_good_step _ _ S1 Hst) as (G & Em & En). split; simpl; try done.
  - intros r p Hr Hb. rewrite Em. by eapply S3.
  - by rewrite En.
  - intros r p Hr. pose proof (S2 r p Hr) as Hrange. pose proof (S5 r p Hr) as Hold.
    destruct p as [| | | |sized| |]; simpl in *; try done.
    all: pose proof (S3 r _ Hr eq_refl) as Hbit; pose proof (tally_ge listed _ _ _ listed_nonneg Hr) as Hl; simpl in Hl.
    all: assert (0 < nsleepers (this (pm_pst (sj k)))) as Hn by (rewrite S4; lia).
    all: assert (pm_looks r (sj k) → r ∈ poked k ∪ told (pm_pst (sj k)) (pm_pst j') ∨ pm_looks r j') as Hlk
      by (intros Hlk; destruct (pm_keeps_looking _ _ _ S1 Hst Hrange Hbit Hn Hlk); [by right|left; apply elem_of_union; by right]).
    + intros Ho. destruct (pm_overlaps _ _ r S1 Hst Hrange Ho) as [Ho'|?]; [|by right].
      destruct (Hold Ho') as [?|?]; [left; apply elem_of_union; by left|by apply Hlk].
    + destruct sized; simpl in *.
      * destruct Hold as [?|Hold]; [left; apply elem_of_union; by left|].
        destruct (pm_counts _ _ r S1 Hst Hrange Hbit Hn) as [?|?]; [right; lia|left; apply elem_of_union; by right].
      * intros Hf. destruct (pm_fills _ _ r S1 Hst Hrange Hf) as [Hf'|?]; [|by right].
        destruct (Hold Hf') as [?|?]; [left; apply elem_of_union; by left|by apply Hlk].
Qed.
(** A PE moves, and the mask does not. *)
Lemma point_inv k r p p' : sinv k → pes k !! r = Some p → listed p' = listed p → (has_bit p' = true → has_bit p = true) →
  informed k r p' → sinv (mk_sst (sj k) (<[r := p']> (pes k)) (poked k)).
Proof.
  intros [S1 S2 S3 S4 S5] Hr Hl Hb Hi. split; simpl; try done.
  - intros r' q. destruct (decide (r = r')) as [<-|]; [intros _; by eapply S2|rewrite lookup_insert_ne by done; apply S2].
  - intros r' q. destruct (decide (r = r')) as [<-|]; [|rewrite lookup_insert_ne by done; apply S3].
    rewrite lookup_insert_eq. intros [= <-] ?. eapply S3; [exact Hr|auto].
  - rewrite (tally_insert _ _ _ _ _ Hr), Hl, S4. lia.
  - intros r' q. destruct (decide (r = r')) as [<-|]; [|rewrite lookup_insert_ne by done; apply S5].
    rewrite lookup_insert_eq. by intros [= <-].
Qed.
(** A PE changes what it is for the pool. *)
Lemma sleeper_inv k s' r p p' pk : sinv k → pes k !! r = Some p → aside (this s') = aside (pool_of k) → masks_wf (smask (this s')) →
  (∀ r', 0 ≤ r' < 256 → r' ≠ r → asleep (smask (this s')) r' = asleep (smask (pool_of k)) r') →
  (has_bit p' = true → asleep (smask (this s')) r = true) → nsleepers (this s') = nsleepers (pool_of k) - listed p + listed p' →
  (∀ r', r' ∈ poked k → r' = r ∨ r' ∈ pk) → (∀ q, informed (mk_sst (pm_with (this s') (sj k)) q pk) r p') →
  sinv (mk_sst (pm_with (this s') (sj k)) (<[r := p']> (pes k)) pk).
Proof.
  intros [S1 S2 S3 S4 S5] Hr Ha Hm Hbits Hb Hn Hpk Hi. split; simpl.
  - by apply pm_good_with.
  - intros r' q. destruct (decide (r = r')) as [<-|]; [intros _; by eapply S2|rewrite lookup_insert_ne by done; apply S2].
  - intros r' q. rewrite pm_with_this. destruct (decide (r = r')) as [<-|Hne].
    + rewrite lookup_insert_eq. by intros [= <-].
    + rewrite lookup_insert_ne by done. intros Hr' Hb'. rewrite Hbits; [by eapply S3|by eapply S2|done].
  - rewrite pm_with_this, Hn, (tally_insert _ _ _ _ _ Hr), S4. lia.
  - intros r' q. destruct (decide (r = r')) as [<-|Hne]; [rewrite lookup_insert_eq; intros [= <-]; apply Hi|rewrite lookup_insert_ne by done].
    intros Hr'. pose proof (S5 r' q Hr') as Hold. destruct (pm_with_same (sj k) (this s') r') as (E1 & E2 & E3 & E4).
    assert (∀ P, r' ∈ poked k ∨ P → r' ∈ pk ∨ P) as Hp.
    { intros P [Hin|?]; [|by right]. destruct (Hpk r' Hin) as [->|?]; [done|by left]. }
    destruct q as [| | | |sized| |]; simpl in *; try done.
    + intros Ho%E3. rewrite E1. auto.
    + destruct sized; simpl in *.
      * rewrite pm_with_this, E2, (f_equal count Ha : count (this s') = _). auto.
      * intros Hf%E4. rewrite E1. auto.
Qed.
Lemma sstep_inv k k' : sinv k → sstep k k' → sinv k'.
Proof.
  intros HI [j' Hst|r s' Hr Hst|r s' Hr Hst|r j' Hr Hst|r j' Hr Hst|r Hr|r Hr|r sized Hr|r s' Hr Hst|r s' Hr Hst].
  - by apply moved_inv.
  - apply set_bit_Done in Hst as [R1 R2 R3 R4]; [|apply pm_good_masks, (si_good _ HI)|by eapply si_range].
    eapply (sleeper_inv k s' r SAwake); [done|done|done|done| | |simpl; lia|by right|done].
    + intros r' Hr' Hne. rewrite R2 by done. replace (r' =? r) with false by lia. by rewrite orb_false_r.
    + intros _. rewrite R2 by (by eapply si_range). by rewrite Z.eqb_refl, orb_true_r.
  - injection Hst as <-. eapply (sleeper_inv k _ r SMarked); [done|done|done|apply pm_good_masks, (si_good _ HI)|done| |simpl; lia| |done].
    + intros _. by eapply (si_bit _ HI).
    + intros r' Hin. destruct (decide (r' = r)) as [->|]; [by left|right]. by apply elem_of_difference; split; [|rewrite elem_of_singleton].
  - pose proof (moved_inv k j' HI (pm_begins_step _ _ _ (si_good _ HI) Hst)) as HI'.
    apply (point_inv _ r SListed) with (p' := SPopping) in HI'; [exact HI'|exact Hr|done|done|].
    simpl. intros Ho. right. eapply pm_begins_overlap; [apply (si_good _ HI)|exact Hst|by eapply si_range|exact Ho].
  - pose proof (moved_inv k j' HI (pm_null_step _ _ _ (si_good _ HI) Hst)) as HI'.
    apply (point_inv _ r SPopping) with (p' := SSlept false) in HI' as HI''; [exact HI''|exact Hr|done|done|].
    simpl. intros Hf. apply (si_told _ HI' r SPopping Hr). eapply pm_null_filled; [apply (si_good _ HI)|exact Hst|exact Hf].
  - by eapply point_inv.
  - eapply (point_inv k r SListed); [done|done|by case_match|by case_match|]. destruct (Z.gtb_spec (count (pool_of k)) 0); [done|].
    simpl. right. destruct (pm_due_looks (sj k) r) as [? _]. lia.
  - by eapply point_inv.
  - apply clear_bit_Done in Hst as [R1 R2 R3 R4]; [|apply pm_good_masks, (si_good _ HI)|by eapply si_range].
    eapply (sleeper_inv k s' r SLeaving); [done|done|done|done| |done|simpl; lia|by right|done].
    intros r' Hr' Hne. rewrite R2 by done. replace (r' =? r) with false by lia. by rewrite andb_true_r.
  - injection Hst as <-. eapply (sleeper_inv k _ r SUnmarked); [done|done|done|apply pm_good_masks, (si_good _ HI)|done|done|simpl; lia|by right|done].
Qed.
Definition sstart (j : J) (ranks : gset Z) : sst J := mk_sst j (gset_to_gmap SAwake ranks) ∅.
Definition can_start (j : J) (ranks : gset Z) : Prop := pm_good j ∧ nsleepers (this (pm_pst j)) = 0 ∧ ∀ r, r ∈ ranks → 0 ≤ r < 256.
Lemma sreach_inv j ranks k : can_start j ranks → rtc sstep (sstart j ranks) k → sinv k.
Proof.
  intros (Hg & Hn & Hr). apply (rtc_ind_r sinv).
  - split; simpl; [done|..].
    + intros r p. rewrite lookup_gset_to_gmap_Some. by intros [? _]; apply Hr.
    + intros r p. rewrite lookup_gset_to_gmap_Some. by intros [_ <-].
    + rewrite Hn, tally_zero; [done|]. intros r p. rewrite lookup_gset_to_gmap_Some. by intros [_ <-].
    + intros r p. rewrite lookup_gset_to_gmap_Some. by intros [_ <-].
  - intros k1 k2 _ Hst HI. by eapply sstep_inv.
Qed.

(** A sleeper has been notified, or a push is still to look at its bit, if there is something for it. *)
Lemma sleeper_informed j ranks k r : can_start j ranks → rtc sstep (sstart j ranks) k →
  (pes k !! r = Some (SSlept false) → pm_filled r (sj k) → r ∈ poked k ∨ pm_looks r (sj k)) ∧
  (pes k !! r = Some (SSlept true) → 0 < count (pool_of k) → r ∈ poked k ∨ pm_looks r (sj k)).
Proof.
  intros Hj Hr. pose proof (sreach_inv _ _ _ Hj Hr) as HI. split; intros Hs.
  - exact (si_told _ HI r _ Hs).
  - intros Hc. destruct (si_told _ HI r _ Hs) as [?|Hd]; [by left|right]. apply (pm_due_looks (sj k) r). lia.
Qed.
End park.
