(* ===== verification/ParkMpsc.v ===== *)
(** * Parking on a lock-free pool

    The machine of [MpscConc] is a [PoolMachine]: no PE sleeps on a unit of a pool
    with a single consumer, although a pop may come back empty while units are
    linked behind a push that has not written its link. *)

From S2P Require Import Prelude AbtTypes Objects Storage PoolList Sleepers WakeSteps PoolMpsc MpscConc MpscSafe MpscSpec Park ParkSafe.

Implicit Types (s : pst) (j : mst) (p : ppoint) (c : cpoint) (r : Z).

(** a push between its exchange and its look at the bit of [r] *)
Definition mpsc_looking r p : bool := match p with PLink _ _ => true | PTail w => before_word r w | _ => false end.
Definition mpsc_owing r p : Z := match p with PTail w => owe r w | _ => 0 end.
#[export] Instance mpsc_machine : PoolMachine mst := {|
  pm_pst := mp;
  pm_with o j := j <| mp ::= λ s, with_this s o |>;
  pm_step j j' := qstep j j' ∧ smask (this (mp j')) = smask (this (mp j)) ∧ nsleepers (this (mp j')) = nsleepers (this (mp j));
  pm_begins _ j j' := (∃ ret, cons_ j = CIdle ret) ∧ j' = j <| cons_ := CHead |> <| busy := some_linking j |>;
  pm_null _ j j' := (∀ ret, cons_ j ≠ CIdle ret) ∧ ∃ s', pop_step (cons_ j) (mp j) = Done (CIdle None) s' ∧ j' = after_pop j (CIdle None) s';
  pm_good j := (∃ q, minv j q) ∧ kept j;
  pm_looks r j := ∃ a p, prods j !! a = Some p ∧ mpsc_looking r p = true;
  pm_due r j := tally (mpsc_owing r) (prods j);
  pm_overlap j := busy j = true;
  pm_filled _ j := ∃ t rest, pushed j = taken j ++ t :: rest;
|}.

(** Pops leave the sleepers alone. *)
Definition watch s : list Z * Z := (smask (this s), nsleepers (this s)).
Lemma set_th_watch t f : preserves watch (set_th t f).
Proof. intros s. unfold set_th, wlp, run. by destruct (heap s !! t). Qed.
Lemma th_watch t : preserves watch (th t).
Proof. intros s. unfold th, wlp, run. by destruct (heap s !! t). Qed.
Lemma set_self_watch f : (∀ x, smask (f x) = smask x ∧ nsleepers (f x) = nsleepers x) → preserves watch (set_self f).
Proof. intros Hf s. change (watch (with_this s (f (this s))) = watch s). unfold watch. simpl. by destruct (Hf (this s)) as [-> ->]. Qed.
Lemma load_next_watch y : preserves watch (load_next y).
Proof. intros s. destruct (load_next y s) as [v s'|] eqn:Hs; unfold wlp; rewrite Hs; [|done]. by apply load_next_Done in Hs as [-> _]. Qed.
Lemma store_next_watch y v : preserves watch (store_next y v).
Proof. destruct y; [by apply set_self_watch|by apply set_th_watch]. Qed.
Lemma xchg_tail_watch y : preserves watch (xchg_tail y).
Proof. by intros s. Qed.
#[export] Hint Resolve set_th_watch th_watch load_next_watch store_next_watch xchg_tail_watch : frame.
#[export] Hint Extern 2 (preserves watch (set_self _)) => (apply set_self_watch; intros; done) : frame.
Lemma pop_watch c : preserves watch (pop_step c).
Proof. destruct c; cbn [pop_step]; unfold self; solve_preserves. Qed.

Section laws.
Lemma pop_null_enter j s' : (∀ ret, cons_ j ≠ CIdle ret) → pop_step (cons_ j) (mp j) = Done (CIdle None) s' → qstep j (after_pop j (CIdle None) s').
Proof. intros _ Hst. by apply qstep_pop. Qed.
(** One step, as the PEs see it: some push moves or none does. *)
Inductive qmove j j' : Prop :=
  | qm_push a p p' s' : prods j !! a = Some p → push_step p (mp j) = Done p' s' → mp j' = s' → prods j' = <[a := p']> (prods j) →
      pushed j' = pushed j ++ swaps p → taken j' = taken j → busy j' = touches p || busy j → qmove j j'
  | qm_begin a t : prods j !! a = Some PIdle → prods j' = <[a := PMark t]> (prods j) → mp j' = mp j →
      pushed j' = pushed j → taken j' = taken j → busy j' = busy j → qmove j j'
  | qm_other l : prods j' = prods j → count (this (mp j')) ≤ count (this (mp j)) → pushed j' = pushed j → taken j' = taken j ++ l →
      (busy j' = true → busy j = true ∨ some_linking j = true) → qmove j j'.
Lemma qstep_qmove j j' : qstep j j' → qmove j j'.
Proof.
  intros [a t Ha|a p p' s' Ha Hst|ret Hc|c' s' Hst|ret t x b s' Hc Hx Hin Hown Hst|n s' Hn Hst|h He|t x Hx Hin Hrm Hc|o Ho Hm].
  - by eapply qm_begin.
  - by eapply qm_push.
  - eapply (qm_other _ _ []); try done; [simpl; by rewrite app_nil_r|]. simpl. by right.
  - eapply qm_other; try done; simpl; [|by left]. by rewrite (pop_count _ _ _ _ Hst).
  - eapply (qm_other _ _ []); try done; [|simpl; by rewrite app_nil_r|simpl; by left]. simpl.
    assert (count (this s') = count (this (mp j))) as ->; [|done].
    refine (wlp_Done _ _ _ _ _ ((_ : preserves (λ s, count (this s)) (mpsc_drop t)) _) Hst). unfold mpsc_drop. solve_preserves.
  - injection Hst as <-. eapply (qm_other _ _ []); try done; [simpl; lia|simpl; by rewrite app_nil_r|simpl; by left].
  - eapply (qm_other _ _ []); try done; [simpl; by rewrite app_nil_r|simpl; by left].
  - eapply (qm_other _ _ []); try done; [simpl; by rewrite app_nil_r|simpl; by left].
  - eapply (qm_other _ _ []); try done; [|simpl; by rewrite app_nil_r|simpl; by left]. simpl. by rewrite (f_equal count Ho : count o = _).
Qed.
Lemma linking_looks j r : some_linking j = true → pm_looks r j.
Proof. intros (a & p & Ha & Hl)%some_linking_spec. exists a, p. split; [done|]. by destruct p. Qed.
Lemma looks_insert j j' a p r : prods j' = <[a := p]> (prods j) → mpsc_looking r p = true → pm_looks r j'.
Proof. intros Hp Hl. exists a, p. split; [|done]. by rewrite Hp, lookup_insert_eq. Qed.
(** another agent's look is still to come *)
Lemma looks_other j j' a p r : prods j' = <[a := p]> (prods j) → pm_looks r j →
  pm_looks r j' ∨ ∃ p0, prods j !! a = Some p0 ∧ mpsc_looking r p0 = true.
Proof.
  intros Hp (b & pb & Hb & Hl). destruct (decide (b = a)) as [->|Hne]; [right; by exists pb|left].
  exists b, pb. split; [|done]. by rewrite Hp, lookup_insert_ne.
Qed.
End laws.

Lemma mpsc_keeps_looking j j' r q : minv j q → kept j → qstep j j' → 0 ≤ r < 256 → asleep (smask (this (mp j))) r = true →
  0 < nsleepers (this (mp j)) → pm_looks r j → pm_looks r j' ∨ r ∈ told (mp j) (mp j').
Proof.
  intros HJ Hk Hst Hr Ha Hn Hl. destruct (qstep_qmove _ _ Hst) as [a p p' s' Hp Hps Es Ep _ _ _|a t Hp Ep _ _ _ _|l Ep _ _ _ _].
  - destruct (looks_other _ _ _ _ r Ep Hl) as [?|(p0 & Hp0 & Hlk)]; [by left|]. assert (p0 = p) as -> by congruence.
    destruct p as [|t|t|t|t prev|w]; try done.
    + left. eapply looks_insert; [exact Ep|]. cbn [push_step] in Hps. by apply bind_Done in Hps as (u & s1 & _ & [= <- _]).
    + cbn [push_step] in Hps. apply bind_Done in Hps as (o & s1 & Hw & [= <- <-]). rewrite Es.
      destruct (wake_tells r w _ o s1 (mi_prods _ _ HJ a _ Hp) (kp_masks _ Hk) Hr Ha Hn Hw) as [Ht _].
      destruct (Ht Hlk) as [?|(w' & -> & ?)]; [by right|left]. by eapply looks_insert.
  - destruct (looks_other _ _ _ _ r Ep Hl) as [?|(p0 & Hp0 & Hlk)]; [by left|]. rewrite Hp in Hp0. by injection Hp0 as <-.
  - left. destruct Hl as (b & pb & Hb & ?). exists b, pb. by rewrite Ep.
Qed.
Lemma owing_nonneg r p : 0 ≤ mpsc_owing r p.
Proof. destruct p; simpl; try lia. apply owe_nonneg. Qed.
Lemma mpsc_counts j j' r q : minv j q → kept j → qstep j j' → 0 ≤ r < 256 → asleep (smask (this (mp j))) r = true →
  0 < nsleepers (this (mp j)) → count (this (mp j')) - tally (mpsc_owing r) (prods j') ≤ count (this (mp j)) - tally (mpsc_owing r) (prods j) ∨
    r ∈ told (mp j) (mp j').
Proof.
  intros HJ Hk Hst Hr Ha Hn. destruct (qstep_qmove _ _ Hst) as [a p p' s' Hp Hps Es Ep _ _ _|a t Hp Ep Em _ _ _|l Ep Hc _ _ _].
  - rewrite Ep, (tally_insert _ _ _ _ _ Hp), Es. destruct p as [|t|t|t|t prev|w].
    6: { cbn [push_step] in Hps. apply bind_Done in Hps as (o & s1 & Hw & [= <- <-]).
         destruct (wake_tells r w _ o s1 (mi_prods _ _ HJ a _ Hp) (kp_masks _ Hk) Hr Ha Hn Hw) as [_ [Hc|?]]; [left|by right].
         destruct o; simpl in *; lia. }
    all: left; assert (count (this s') = count (this (mp j))) as ->; [|pose proof (owing_nonneg r p'); simpl; lia].
    all: refine (wlp_Done _ _ _ _ _ ((_ : preserves (λ s, count (this s)) (push_step _)) _) Hps); cbn [push_step]; solve_preserves.
  - left. rewrite Ep, (tally_insert _ _ _ _ _ Hp), Em. simpl. lia.
  - left. rewrite Ep. lia.
Qed.
Lemma xchg_links u s p' s' : push_step (PXchg u) s = Done p' s' → p' = PLink u (q_tail (this s)).
Proof. by intros [= <- _]. Qed.
#[export] Instance mpsc_laws : PoolMachineLaws mst.
Proof.
  split.
  - intros j j' [[q HJ] Hk] (Hst & Em & En). split; [|done]. split; [by eapply qstep_inv|by eapply qstep_kept].
  - intros j [_ Hk]. apply (kp_masks _ Hk).
  - intros j o [[q HJ] Hk] Ho Hm. assert (qstep j (pm_with o j)) as Hst by exact (qstep_aside j o Ho Hm).
    split; [by eapply qstep_inv|by eapply qstep_kept].
  - done.
  - done.
  - intros r j j' _ [[ret Hc] ->]. split; [by eapply qstep_enter|done].
  - intros r j j' _ (Hi & s' & Hst & ->). split; [by apply qstep_pop|].
    pose proof (wlp_Done _ _ _ _ _ (pop_watch _ _) Hst) as [= E1 E2]. done.
  - intros j j' r [[q HJ] Hk] [Hst _]. by eapply mpsc_keeps_looking.
  - intros j j' r [[q HJ] Hk] [Hst _]. by eapply mpsc_counts.
  - intros j r. split; [apply tally_nonneg, owing_nonneg|]. intros (a & p & Ha & Hp)%tally_pos; [|apply owing_nonneg].
    exists a, p. split; [done|]. destruct p; simpl in *; try lia. unfold owe in Hp. destruct (before_word r w); [done|]. by rewrite andb_false_r in Hp.
  - intros j j' r _ [Hst _] Hr (t & rest & Hf).
    destruct (qstep_qmove _ _ Hst) as [a p p' s' Hp Hps _ Ep Epu Eta _|a u Hp Ep _ Epu Eta _|l Ep _ Epu Eta _].
    + destruct p as [|u|u|u|u prev|w]; cbn [swaps] in Epu; try (left; exists t, rest; rewrite app_nil_r in Epu; congruence).
      right. eapply looks_insert; [exact Ep|]. by rewrite (xchg_links _ _ _ _ Hps).
    + left. exists t, rest. by rewrite <-Epu, <-Eta.
    + left. rewrite Epu, Eta, <-app_assoc in Hf. destruct l as [|u l]; [by exists t, rest|]. by exists u, (l ++ t :: rest).
  - intros j j' r _ [Hst _] Hr Hb.
    destruct (qstep_qmove _ _ Hst) as [a p p' s' Hp Hps _ Ep _ _ Ebu|a u Hp Ep _ _ _ Ebu|l Ep _ _ _ Ebu].
    + cbn [pm_overlap mpsc_machine] in Hb. rewrite Ebu in Hb. apply orb_true_iff in Hb as [Ht|?]; [right|by left].
      eapply looks_insert; [exact Ep|]. destruct p as [|u|u|u|u prev|w]; try done; [by rewrite (xchg_links _ _ _ _ Hps)|].
      cbn [push_step] in Hps. by apply bind_Done in Hps as (v & s1 & _ & [= <- _]).
    + left. cbn [pm_overlap mpsc_machine] in *. congruence.
    + destruct (Ebu Hb) as [?|Hl]; [by left|right]. destruct (linking_looks j r Hl) as (b & pb & Hpb & ?). exists b, pb. by rewrite Ep.
  - intros r j j' _ [_ ->] Hr Hb. destruct (linking_looks j r Hb) as (b & pb & Hpb & ?). by exists b, pb.
  - intros r j j' [[q HJ] Hk] (Hi & s' & Hst & ->) (t & rest & Hf).
    destruct (null_or_busy j q s' HJ Hi Hst) as [Hn|?]; [|done]. simpl in Hf. rewrite Hn in Hf.
    exfalso. pose proof (f_equal length Hf) as Hl. rewrite !length_app in Hl. simpl in Hl. lia.
Qed.

(** C7: no PE sleeps on a unit of a lock-free pool: whatever the interleaving of
    pushes, pops, removals and PEs that park, a PE that sleeps after a pop that
    came back empty has been notified since it published itself, or a push that
    has made its exchange is still to look at its bit, if units are queued now;
    likewise a PE that sleeps after it saw the size zero, if the counter is
    positive now. *)
Theorem mpsc_park_misses_nothing s agents ranks k r : fresh_pool s → nsleepers (this s) = 0 → (∀ r, r ∈ ranks → 0 ≤ r < 256) →
  rtc sstep (sstart (mstart s agents) ranks) k →
  pes k !! r = Some (SSlept false) ∧ pushed (sj k) ≠ taken (sj k) ∨ pes k !! r = Some (SSlept true) ∧ 0 < count (this (mp (sj k))) →
  r ∈ poked k ∨ ∃ a p, prods (sj k) !! a = Some p ∧ mpsc_looking r p = true.
Proof.
  intros Hf Hn Hr Hk Hs. destruct (mreach_all s agents (mstart s agents) Hf (rtc_refl _ _)) as ((q & HJ) & Hkp & _).
  assert (can_start (mstart s agents) ranks) as Hc by (split; [split; [by exists q|done]|by split]).
  destruct (sleeper_informed _ _ _ r Hc Hk) as [H1 H2]. destruct Hs as [[Hs Hp]|[Hs Hp]]; [|by apply H2]. apply H1; [done|].
  destruct (si_good _ (sreach_inv _ _ _ Hc Hk)) as [[q' HJ'] _]. pose proof (mi_hist _ _ HJ') as Hh.
  destruct (owners q') as [|t rest]; [by rewrite app_nil_r in Hh|]. by exists t, rest.
Qed.
