(* ===== verification/ParkList.v ===== *)
(** * Parking on a locked pool

    The machine of [ListConc], for programs that settle their pushes before they
    remove, is a [PoolMachine]: no PE sleeps on a unit of a shared pool that it
    may resume.  A PE is the thread of the same number. *)

From S2P Require Import Prelude AbtTypes Objects Storage PoolList Spinlock Sleepers WakeSteps ListConc ListSafe Park ParkSafe.

Implicit Types (s : pst) (j : lst) (l : list ptr) (t : ptr) (p : apoint) (a b r : Z).

(** a push between its insertion and its look at the bit of [r] *)
Definition list_looking r p : bool :=
  match p with ATail w | AOut (ATail w) => before_word r w | _ => false end.
Definition list_owing r p : Z := match p with ATail w => owe r w | _ => 0 end.
(** A pop that passes over pinned units finds something in [l]. *)
Definition finds (pinned : ptr → bool) l : Prop := (PoolSpec.pop pinned l).1 ≠ None.

Section parking.
Context (pin : Z → ABTI_thread → bool).

(** Threads stay pinned to their PE. *)
Definition pins_stay s s' : Prop :=
  ∀ t x, heap s !! t = Some x → ∃ y, heap s' !! t = Some y ∧ ∀ r, pin r y = pin r x.
Definition list_machine : PoolMachine lst := {|
  pm_pst := lp;
  pm_with o j := j <| lp ::= λ s, with_this s o |>;
  pm_step j j' := lstep true pin j j' ∧ smask (this (lp j')) = smask (this (lp j)) ∧ nsleepers (this (lp j')) = nsleepers (this (lp j)) ∧
    pins_stay (lp j) (lp j');
  pm_begins r j j' := ags j !! r = Some AIdle ∧ j' = j <| ags ::= insert r (ALock lk_start STake) |>;
  pm_null r j j' := ∃ p f s', ags j !! r = Some (AIn STake) ∧ section (pin r) STake (lp j) = Done (p, QPop f None) s' ∧
    j' = j <| lp := s' |> <| ags ::= insert r (AOut p) |> <| hist ::= λ h, h ++ [QPop f None] |>;
  pm_good j := ∃ l, linv j l;
  pm_looks r j := ∃ a p, ags j !! a = Some p ∧ list_looking r p = true;
  pm_due r j := tally (list_owing r) (ags j);
  pm_overlap j := False;
  pm_filled r j := ∃ l, qrun (hist j) [] = Some l ∧ finds (pin_at (heap (lp j)) (pin r)) l;
|}.
#[local] Existing Instance list_machine.

Lemma finds_spec pinned l : ¬ finds pinned l ↔ l = [] ∨ ∃ t, l = [t] ∧ pinned t = true.
Proof.
  unfold finds. split.
  - intros Hn. apply (PoolSpec.pop_none pinned). by destruct (PoolSpec.pop pinned l).1; [destruct Hn|].
  - intros [->|(t & -> & Hp)]; simpl; [by intros Hn|]. rewrite Hp. by intros Hn.
Qed.
Instance finds_dec pinned l : Decision (finds pinned l).
Proof. unfold finds. apply _. Qed.
(** a queue with units taken out *)
Lemma finds_sub pinned pinned' l l' : l' `sublist_of` l → (∀ t, t ∈ l → pinned' t = pinned t) → finds pinned' l' → finds pinned l.
Proof.
  intros Hs Hp Hf. destruct (decide (finds pinned l)) as [|Hn]; [done|]. exfalso. apply finds_spec in Hn as [->|(t & -> & Ht)].
  - apply sublist_nil_r in Hs as ->. done.
  - assert (l' = [] ∨ l' = [t]) as Hl.
    { apply sublist_cons_r in Hs as [->%sublist_nil_r|(k & -> & ->%sublist_nil_r)]; auto. }
    revert Hf. apply finds_spec. destruct Hl as [->| ->]; [by left|right]. exists t. split; [done|]. rewrite Hp; [done|by left].
Qed.
Lemma pop_sublist pinned l : (PoolSpec.pop pinned l).2 `sublist_of` l.
Proof.
  destruct l as [|x [|y l]]; simpl; [done|..]; destruct (pinned x); simpl.
  - done.
  - apply sublist_nil_l.
  - apply sublist_skip. by apply sublist_cons.
  - by apply sublist_cons.
Qed.
Lemma qdo_sub op l l' : qdo op l = Some l' → (∀ t, op ≠ QPush t) → l' `sublist_of` l.
Proof.
  destruct op as [t|f x|t mine hit]; simpl; intros Hd Hp; [by destruct (Hp t)|..].
  - case_decide; [|done]. injection Hd as <-. apply pop_sublist.
  - case_decide; [|done]. injection Hd as <-. destruct mine; [|done]. apply sublist_filter.
Qed.
Lemma pins_at s s' l r : pins_stay s s' → list_store s l → ∀ t, t ∈ l → pin_at (heap s') (pin r) t = pin_at (heap s) (pin r) t.
Proof.
  intros Hp [_ Hf] t Ht. destruct (Hf t Ht) as (x & Hx & _). destruct (Hp t x Hx) as (y & Hy & Hr). unfold pin_at. rewrite Hx, Hy. apply Hr.
Qed.

Lemma section_count f c s p op s' : section f c s = Done (p, op) s' → count (this s') = count (this s).
Proof.
  intros Hst. refine (wlp_Done _ _ _ _ _ ((_ : preserves (λ s, count (this s)) (section f c)) _) Hst).
  destruct c; cbn [section]; unfold list_drop, list_take, list_push, list_unlink, self; solve_preserves.
Qed.
(** One step, as the PEs see it. *)
Lemma list_moves r j j' l : linv j l → lstep true pin j j' → 0 ≤ r < 256 → asleep (smask (this (lp j))) r = true → 0 < nsleepers (this (lp j)) →
  ags j' = ags j ∧ count (this (lp j')) = count (this (lp j)) ∨
  ∃ a p p', ags j !! a = Some p ∧ ags j' = <[a := p']> (ags j) ∧
    (list_looking r p = true → list_looking r p' = true ∨ r ∈ told (lp j) (lp j')) ∧
    (count (this (lp j')) - list_owing r p' ≤ count (this (lp j)) - list_owing r p ∨ r ∈ told (lp j) (lp j')).
Proof.
  intros HL Hst Hr Hb Hn.
  destruct Hst as [a t Ha|a Ha|a t Ha|a t s' Ha Hs|a k c f' o Ha Hs|a c p op s' Ha Hset Hs|a p Ha|a w o s' Ha Hs|a s' Ha Hs|h Hh|o Ho Hm].
  1-9: right.
  - eexists a, _, _. split_and!; [done|done|done|left; simpl; lia].
  - eexists a, _, _. split_and!; [done|done|done|left; simpl; lia].
  - eexists a, _, _. split_and!; [done|done|done|left; simpl; lia].
  - eexists a, _, _. split_and!; [done|done|done|left]. apply mark_Done in Hs as (_ & Et & _). simpl. rewrite Et. lia.
  - eexists a, _, _. split_and!; [done|done|done|left]. simpl. destruct o; simpl; lia.
  - eexists a, _, _. split_and!; [done|done|done|left]. simpl.
    rewrite (section_count _ _ _ _ _ _ Hs). lia.
  - eexists a, _, _. pose proof (li_points _ _ HL a _ Ha) as Hok. split_and!; [done|done| |left].
    + simpl in Hok. destruct p; subst; try done. by left.
    + simpl in *. destruct p; try done; subst; simpl; unfold owe; simpl; lia.
  - exists a, (ATail w). eexists. split; [done|]. split; [done|].
    destruct (wake_tells r w _ o s' (li_points _ _ HL a _ Ha) (li_masks _ _ HL) Hr Hb Hn Hs) as [Ht Hc]. simpl. split.
    + intros Hl. destruct (Ht Hl) as [?|(w' & -> & Hw')]; [by right|by left].
    + destruct Hc as [Hc|?]; [left|by right]. destruct o; simpl in *; lia.
  - eexists a, _, _. split_and!; [done|done|done|left]. injection Hs as <-. simpl. lia.
  - by left.
  - left. split; [done|]. exact (f_equal count Ho).
Qed.
(** What a step does to the queue. *)
Lemma list_queues r j j' l : linv j l → lstep true pin j j' →
  ∃ l', linv j' l' ∧ (l' `sublist_of` l ∨ pm_looks r j').
Proof.
  intros HL Hst. destruct (lstep_inv pin j j' l HL Hst) as (l' & HL'). exists l'. split; [done|].
  assert (hist j' = hist j → l' `sublist_of` l) as Hsame.
  { intros Eh. pose proof (li_hist _ _ HL') as Hh. rewrite Eh, (li_hist _ _ HL) in Hh. by injection Hh as ->. }
  destruct Hst as [a t Ha|a Ha|a t Ha|a t s' Ha Hs|a k c f' o Ha Hs|a c p op s' Ha Hset Hs|a p Ha|a w o s' Ha Hs|a s' Ha Hs|h Hh|o Ho Hm];
    try (left; apply Hsame; reflexivity).
  assert ((∃ t, c = SInsert t) ∨ ∀ t, c ≠ SInsert t) as [[t ->]|Hc] by (destruct c; eauto).
  - right. cbn [section] in Hs. apply bind_Done in Hs as ([] & s1 & _ & [= <- _ _]). exists a, (AOut (ATail WCount)).
    split; [|done]. simpl. by rewrite lookup_insert_eq.
  - left. pose proof (li_hist _ _ HL') as Hh. simpl in Hh. rewrite (qrun_app _ _ _ _ (li_hist _ _ HL)) in Hh.
    simpl in Hh. destruct (qdo op l) as [l1|] eqn:Hq; [|done]. injection Hh as ->. eapply qdo_sub; [exact Hq|].
    intros u ->. destruct c as [t| |t]; cbn [section] in Hs.
    + by apply (Hc t).
    + apply bind_Done in Hs as (h & s1 & _ & Hs). by apply bind_Done in Hs as (x & s2 & _ & [=]).
    + apply bind_Done in Hs as (x & s1 & _ & Hs). apply bind_Done in Hs as (ad & s2 & _ & Hs).
      destruct (_ && _); [by apply bind_Done in Hs as (hit & s3 & _ & [=])|done].
Qed.
Lemma filled_queue r j l : linv j l → pm_filled r j ↔ finds (pin_at (heap (lp j)) (pin r)) l.
Proof.
  intros HL. split.
  - intros (l' & Hl & Hf). rewrite (li_hist _ _ HL) in Hl. by injection Hl as <-.
  - intros Hf. exists l. split; [apply (li_hist _ _ HL)|done].
Qed.
Lemma llooks_other r j j' a p : ags j' = <[a := p]> (ags j) → pm_looks r j →
  pm_looks r j' ∨ ∃ p0, ags j !! a = Some p0 ∧ list_looking r p0 = true.
Proof.
  intros Hp (b & pb & Hb & Hl). destruct (decide (b = a)) as [->|Hne]; [right; by exists pb|left].
  exists b, pb. split; [|done]. by rewrite Hp, lookup_insert_ne.
Qed.
Lemma lowing_nonneg r p : 0 ≤ list_owing r p.
Proof. destruct p; simpl; try lia. apply owe_nonneg. Qed.

Context (Hpin : ∀ r, pinned_ok (pin r)).
Lemma frame_pins c s s' : queue_frame c s s' → pins_stay s s'.
Proof.
  intros F t x Hx. pose proof (f_equal (.!! t) (qf_threads _ _ _ F)) as Ht. cbn beta in Ht. rewrite !lookup_fmap, Hx in Ht.
  destruct (heap s' !! t) as [y|]; [|done]. apply (inj Some) in Ht. exists y. split; [done|]. intros r. by rewrite <-(Hpin r y), <-(Hpin r x), Ht.
Qed.
#[export] Instance list_laws : PoolMachineLaws lst.
Proof.
  split.
  - intros j j' [l HL] (Hst & Em & En & _). split; [by eapply lstep_inv|done].
  - intros j [l HL]. apply (li_masks _ _ HL).
  - intros j o [l HL] Ho Hm. eapply lstep_inv; [exact HL|]. exact (lstep_aside true pin j o Ho Hm).
  - done.
  - done.
  - intros r j j' _ [Ha ->]. split_and!; [by apply lstep_pop|done|done|]. intros t x Hx. by exists x.
  - intros r j j' [l HL] (p & f & s' & Ha & Hst & ->). split; [by apply (lstep_section true pin j r STake)|].
    cbn [section] in Hst. apply bind_Done in Hst as (h & s1 & [= <- <-] & Hst). apply bind_Done in Hst as (x & s1 & Hst & [= _ _ _ <-]).
    destruct (wp_Done _ _ _ _ _ (list_take_spec (pin r) (lp j) l (li_rep _ _ HL)) Hst) as (l' & _ & F & _).
    split_and!; [exact (f_equal smask (qf_pool _ _ _ F))|exact (f_equal nsleepers (qf_pool _ _ _ F))|by eapply frame_pins].
  - intros j j' r [l HL] (Hst & _) Hr Hb Hn Hl. destruct (list_moves r j j' l HL Hst Hr Hb Hn) as [[Ea _]|(a & p & p' & Ha & Ea & Hlk & _)].
    + left. destruct Hl as (b & pb & Hpb & ?). exists b, pb. by rewrite Ea.
    + destruct (llooks_other r j j' a p' Ea Hl) as [?|(p0 & Hp0 & Hl0)]; [by left|]. rewrite Ha in Hp0. injection Hp0 as <-.
      destruct (Hlk Hl0) as [?|?]; [left|by right]. exists a, p'. by rewrite Ea, lookup_insert_eq.
  - intros j j' r [l HL] (Hst & _) Hr Hb Hn. cbn [pm_due list_machine pm_pst].
    destruct (list_moves r j j' l HL Hst Hr Hb Hn) as [[Ea Ec]|(a & p & p' & Ha & Ea & _ & [Hc|?])].
    + left. rewrite Ea, Ec. lia.
    + left. rewrite Ea, (tally_insert _ _ _ _ _ Ha). lia.
    + by right.
  - intros j r. split; [apply tally_nonneg, lowing_nonneg|]. intros (a & p & Ha & Hp)%tally_pos; [|apply lowing_nonneg].
    exists a, p. split; [done|]. destruct p; simpl in *; try lia. unfold owe in Hp. destruct (before_word r w); [done|]. by rewrite andb_false_r in Hp.
  - intros j j' r [l HL] (Hst & _ & _ & Hps) Hr Hf. destruct (list_queues r j j' l HL Hst) as (l' & HL' & [Hs|?]); [left|by right].
    apply (filled_queue r j' l' HL') in Hf. apply (filled_queue r j l HL). eapply finds_sub; [exact Hs| |exact Hf].
    by apply pins_at; [|apply (li_rep _ _ HL)].
  - done.
  - done.
  - intros r j j' [l HL] (p & f & s' & Ha & Hst & ->) Hf.
    assert (lstep true pin j (j <| lp := s' |> <| ags ::= insert r (AOut p) |> <| hist ::= λ h, h ++ [QPop f None] |>)) as Hl
      by (by apply (lstep_section true pin j r STake)).
    destruct (lstep_inv pin j _ l HL Hl) as (l' & HL'). apply (filled_queue r _ l' HL') in Hf. simpl in Hf. exfalso. revert Hf.
    cbn [section] in Hst. apply bind_Done in Hst as (h & s1 & [= <- <-] & Hst). apply bind_Done in Hst as (x & s1 & Hst & [= _ <- _ <-]).
    destruct (wp_Done _ _ _ _ _ (list_take_spec (pin r) (lp j) l (li_rep _ _ HL)) Hst) as (l2 & _ & F & _).
    pose proof (li_hist _ _ HL') as Hh. simpl in Hh. rewrite (qrun_app _ _ _ _ (li_hist _ _ HL)) in Hh. simpl in Hh.
    case_decide as Hn; [|done]. injection Hh as <-. pose proof (pins_at _ _ _ r (frame_pins _ _ _ F) (li_rep _ _ HL)) as Hpins.
    apply PoolSpec.pop_none in Hn as [->|(t & -> & Ht)]; apply finds_spec; [by left|right].
    exists t. simpl. rewrite Ht. split; [done|]. rewrite Hpins; [done|by left].
Qed.

(** C8: no PE sleeps on a unit of a locked pool, for programs that settle a push
    before they remove its unit: a PE that sleeps after a pop that came back
    empty has been notified since it published itself, or a push that has
    inserted its unit is still to look at its bit, if the queue holds a unit the
    PE may resume now; likewise a PE that sleeps after it saw the size zero, if
    the counter is positive now. *)
Theorem list_park_misses_nothing s agents ranks k r : fresh_list s → nsleepers (this s) = 0 → (∀ r, r ∈ ranks → 0 ≤ r < 256) →
  rtc sstep (sstart (lstart s agents) ranks) k →
  (pes k !! r = Some (SSlept false) ∧ ∃ l, qrun (hist (sj k)) [] = Some l ∧ finds (pin_at (heap (lp (sj k))) (pin r)) l) ∨
    pes k !! r = Some (SSlept true) ∧ 0 < count (this (lp (sj k))) →
  r ∈ poked k ∨ ∃ a p, ags (sj k) !! a = Some p ∧ list_looking r p = true.
Proof.
  intros Hf Hn Hr Hk Hs. assert (can_start (lstart s agents) ranks) as Hc by (split; [exists []; by apply lstart_inv|by split]).
  destruct (sleeper_informed _ _ _ r Hc Hk) as [H1 H2]. destruct Hs as [[Hs Hp]|[Hs Hp]]; [by apply H1|by apply H2].
Qed.
End parking.
