(* ===== verification/ParkExamples.v ===== *)
(** * PEs that park, on concrete runs

    A PE publishes itself, finds nothing and sleeps; then a push makes a unit
    visible, and is about to look at the PE's bit.  The theorems of [ParkMpsc] and
    [ParkList] at these states. *)

From S2P Require Import Prelude AbtTypes Objects Storage PoolList Spinlock Sleepers WakeSteps PoolMpsc MpscConc MpscSafe MpscSpec.
From S2P Require Import ListConc ListSafe Park ParkSafe ParkMpsc ParkList Pool PoolExamples MpscExamples ListExamples.

(** ** Runs of the machine of [Park] *)

Inductive klabel (L : Type) : Type :=
  | KPool (lb : L)
  | KMark (r : Z)
  | KList (r : Z)
  | KBegin (r : Z)
  | KNull (r : Z).
Arguments KPool {L}. Arguments KMark {L}. Arguments KList {L}. Arguments KBegin {L}. Arguments KNull {L}.
Section runs.
Context {J L : Type} `{PM : PoolMachine J} (pdo : L → J → option J) (pbegin pnull : Z → J → option J).
Definition kdo (lb : klabel L) (k : sst J) : option (sst J) :=
  match lb with
  | KPool lb => j' ← pdo lb (sj k); Some (moved k j' (pes k))
  | KMark r =>
      match pes k !! r, set_bit r (pm_pst (sj k)) with
      | Some SAwake, Done _ s' => Some (with_state k s' r SMarked)
      | _, _ => None
      end
  | KList r =>
      match pes k !! r, set_self (λ p, p <| nsleepers ::= Z.succ |>) (pm_pst (sj k)) with
      | Some SMarked, Done _ s' => Some (mk_sst (pm_with (this s') (sj k)) (<[r := SListed]> (pes k)) (poked k ∖ {[ r ]}))
      | _, _ => None
      end
  | KBegin r =>
      match pes k !! r, pbegin r (sj k) with
      | Some SListed, Some j' => Some (moved k j' (<[r := SPopping]> (pes k)))
      | _, _ => None
      end
  | KNull r =>
      match pes k !! r, pnull r (sj k) with
      | Some SPopping, Some j' => Some (moved k j' (<[r := SSlept false]> (pes k)))
      | _, _ => None
      end
  end.
Fixpoint krun (ls : list (klabel L)) (k : sst J) : option (sst J) :=
  match ls with [] => Some k | lb :: ls => k' ← kdo lb k; krun ls k' end.
Context (Hdo : ∀ lb j j', pdo lb j = Some j' → pm_step j j') (Hbegin : ∀ r j j', pbegin r j = Some j' → pm_begins r j j').
Context (Hnull : ∀ r j j', pnull r j = Some j' → pm_null r j j').
Lemma kdo_sound lb k k' : kdo lb k = Some k' → sstep k k'.
Proof.
  destruct lb as [lb|r|r|r|r]; simpl; intros Hd.
  - destruct (pdo lb (sj k)) as [j'|] eqn:Hj; simplify_eq/=. by apply sstep_pool, (Hdo lb).
  - destruct (pes k !! r) as [[]|] eqn:Hr; try done. destruct (set_bit r (pm_pst (sj k))) as [[] s'|] eqn:Hs; simplify_eq. by apply sstep_mark.
  - destruct (pes k !! r) as [[]|] eqn:Hr; try done. simplify_eq. exact (sstep_list k r _ Hr eq_refl).
  - destruct (pes k !! r) as [[]|] eqn:Hr; try done. destruct (pbegin r (sj k)) as [j'|] eqn:Hj; simplify_eq. by apply sstep_begin; [|apply Hbegin].
  - destruct (pes k !! r) as [[]|] eqn:Hr; try done. destruct (pnull r (sj k)) as [j'|] eqn:Hj; simplify_eq. by apply sstep_null; [|apply Hnull].
Qed.
Lemma krun_sound ls k k' : krun ls k = Some k' → rtc sstep k k'.
Proof.
  revert k. induction ls as [|lb ls IH]; intros k; simpl; [by intros [= ->]|].
  destruct (kdo lb k) as [k1|] eqn:Hl; [|done]. intros Hr. eapply rtc_l; [by eapply kdo_sound|by apply IH].
Qed.
Definition kafter (ls : list (klabel L)) (k : sst J) : sst J := default k (krun ls k).
Lemma kafter_reach ls k : rtc sstep k (kafter ls k).
Proof. unfold kafter. destruct (krun ls k) as [k'|] eqn:Hr; [by eapply krun_sound|apply rtc_refl]. Qed.
End runs.

(** ** A lock-free pool *)

Definition same_sleepers (s s' : pst) : bool :=
  bool_decide (smask (this s') = smask (this s)) && bool_decide (nsleepers (this s') = nsleepers (this s)).
Lemma same_sleepers_spec s s' : same_sleepers s s' = true → smask (this s') = smask (this s) ∧ nsleepers (this s') = nsleepers (this s).
Proof. unfold same_sleepers. rewrite andb_true_iff, !bool_decide_eq_true. done. Qed.
Definition mpdo (lb : mlabel) (j : mst) : option mst := j' ← mdo lb j; if same_sleepers (mp j) (mp j') then Some j' else None.
Definition mpbegin (r : Z) (j : mst) : option mst :=
  match cons_ j with CIdle _ => Some (j <| cons_ := CHead |> <| busy := some_linking j |>) | _ => None end.
Definition mpnull (r : Z) (j : mst) : option mst :=
  match cons_ j, pop_step (cons_ j) (mp j) with
  | CIdle _, _ => None
  | _, Done (CIdle None) s' => Some (after_pop j (CIdle None) s')
  | _, _ => None
  end.
Lemma mpdo_sound lb j j' : mpdo lb j = Some j' → pm_step j j'.
Proof.
  unfold mpdo. destruct (mdo lb j) as [j1|] eqn:Hd; [|done]. simpl. destruct (same_sleepers (mp j) (mp j1)) eqn:Hs; [|done].
  intros [= ->]. split; [by eapply mdo_sound|by apply same_sleepers_spec].
Qed.
Lemma mpbegin_sound r j j' : mpbegin r j = Some j' → pm_begins r j j'.
Proof. unfold mpbegin. destruct (cons_ j) eqn:Hc; try done. intros [= <-]. split; [by eexists|done]. Qed.
Lemma mpnull_sound r j j' : mpnull r j = Some j' → pm_null r j j'.
Proof.
  unfold mpnull. intros Hd. assert ((∀ ret, cons_ j ≠ CIdle ret) ∧ ∃ s', pop_step (cons_ j) (mp j) = Done (CIdle None) s' ∧ j' = after_pop j (CIdle None) s') as ?; [|done].
  assert (∀ c, c = cons_ j → (∀ ret, c ≠ CIdle ret) → ∃ s', pop_step c (mp j) = Done (CIdle None) s' ∧ j' = after_pop j (CIdle None) s') as Hn.
  { intros c Ec Hi. rewrite <-Ec in Hd. destruct c as [ret| | | | | | | | |]; [by destruct (Hi ret)|..].
    all: destruct (pop_step _ (mp j)) as [c' s'|]; [|done]; destruct c' as [[]| | | | | | | | |]; try done.
    all: injection Hd as <-; by exists s'. }
  assert (∀ ret, cons_ j ≠ CIdle ret) as Hi by (intros ret Hc; by rewrite Hc in Hd). split; [done|by apply Hn].
Qed.

(** PE 70 sleeps; then 1000 is pushed, up to the link. *)
Definition mpsc_sleeping : list (klabel mlabel) :=
  [KMark 70; KList 70; KBegin 70; KNull 70] ++ (KPool <$> [MBegin 0 1000; MPush 0; MPush 0; MPush 0; MPush 0]).
Lemma mpsc_park_misses_nothing_witness :
  let k := kafter mpdo mpbegin mpnull mpsc_sleeping (sstart mpsc_start {[ 70 ]}) in
  pes k !! 70 = Some (SSlept false) ∧ pushed (sj k) = [1000] ∧ (70 ∈ poked k ∨ ∃ a p, prods (sj k) !! a = Some p ∧ mpsc_looking 70 p = true).
Proof.
  pose (k := kafter mpdo mpbegin mpnull mpsc_sleeping (sstart mpsc_start {[ 70 ]})).
  assert (pes k !! 70 = Some (SSlept false)) as Hs by (vm_compute; reflexivity).
  assert (pushed (sj k) = [1000]) as Hp by (vm_compute; reflexivity).
  assert (taken (sj k) = []) as Ht by (vm_compute; reflexivity).
  intros k'. split; [exact Hs|]. split; [exact Hp|].
  refine (mpsc_park_misses_nothing mpsc_boot {[ 0; 1 ]} {[ 70 ]} k 70 mpsc_boot_fresh eq_refl _ _ (or_introl (conj Hs _))).
  - intros r Hr. apply elem_of_singleton in Hr. lia.
  - exact (kafter_reach mpdo mpbegin mpnull mpdo_sound mpbegin_sound mpnull_sound mpsc_sleeping _).
  - rewrite Hp, Ht. discriminate.
Defined.

(** ** A locked pool *)

#[local] Existing Instance list_machine.
Definition lpdo (lb : llabel) (j : lst) : option lst :=
  j' ← ldo true unpinned lb j;
  if same_sleepers (lp j) (lp j') && bool_decide (dom (heap (lp j)) ⊆ dom (heap (lp j'))) then Some j' else None.
Definition lpbegin (r : Z) (j : lst) : option lst :=
  match ags j !! r with Some AIdle => Some (j <| ags ::= insert r (ALock lk_start STake) |>) | _ => None end.
Definition lpnull (r : Z) (j : lst) : option lst :=
  match ags j !! r, section (unpinned r) STake (lp j) with
  | Some (AIn STake), Done (p, QPop f None) s' =>
      Some (j <| lp := s' |> <| ags ::= insert r (AOut p) |> <| hist ::= λ h, h ++ [QPop f None] |>)
  | _, _ => None
  end.
Lemma lpdo_sound lb j j' : lpdo lb j = Some j' → @pm_step _ (list_machine unpinned) j j'.
Proof.
  unfold lpdo. destruct (ldo true unpinned lb j) as [j1|] eqn:Hd; [|done]. simpl.
  destruct (same_sleepers (lp j) (lp j1)) eqn:Hs; [|done]. simpl. case_bool_decide as Hdm; [|done]. intros [= ->].
  destruct (same_sleepers_spec _ _ Hs). split_and!; [by eapply ldo_sound|done|done|]. intros t x Hx.
  assert (t ∈ dom (heap (lp j'))) as [y Hy]%elem_of_dom by (apply Hdm, elem_of_dom; by exists x). by exists y.
Qed.
Lemma lpbegin_sound r j j' : lpbegin r j = Some j' → @pm_begins _ (list_machine unpinned) r j j'.
Proof. unfold lpbegin. destruct (ags j !! r) as [[]|] eqn:Ha; try done. by intros [= <-]. Qed.
Lemma lpnull_sound r j j' : lpnull r j = Some j' → @pm_null _ (list_machine unpinned) r j j'.
Proof.
  unfold lpnull. destruct (ags j !! r) as [[| | |[]| | |]|] eqn:Ha; try done.
  destruct (section (unpinned r) STake (lp j)) as [[p op] s'|] eqn:Hs; [|done]. destruct op as [|f []|]; try done.
  intros [= <-]. by exists p, f, s'.
Qed.
(** PE 2 sleeps; then thread 0 pushes 1000, up to [unlock]. *)
Definition list_sleeping : list (klabel llabel) :=
  [KMark 2; KList 2; KBegin 2; KPool (LStep 2); KNull 2] ++ (KPool <$> LStep 2 :: LPush 0 1000 :: steps 3 0).
Lemma list_park_misses_nothing_witness :
  let k := @kafter lst llabel (list_machine unpinned) lpdo lpbegin lpnull list_sleeping (sstart list_start {[ 2 ]}) in
  pes k !! 2 = Some (SSlept false) ∧ lhead (this (lp (sj k))) = Some 1000 ∧
  (2 ∈ poked k ∨ ∃ a p, ags (sj k) !! a = Some p ∧ list_looking 2 p = true).
Proof.
  pose (k := @kafter lst llabel (list_machine unpinned) lpdo lpbegin lpnull list_sleeping (sstart list_start {[ 2 ]})).
  assert (pes k !! 2 = Some (SSlept false)) as Hs by (vm_compute; reflexivity).
  assert (qrun (hist (sj k)) [] = Some [1000]) as Hq by (vm_compute; reflexivity).
  intros k'. split; [exact Hs|]. split; [vm_compute; reflexivity|].
  refine (list_park_misses_nothing unpinned _ list_boot {[ 0; 1; 2 ]} {[ 2 ]} k 2 list_boot_fresh eq_refl _ _ (or_introl (conj Hs _))).
  - intros r x. reflexivity.
  - intros r Hr. apply elem_of_singleton in Hr. lia.
  - exact (@kafter_reach lst llabel (list_machine unpinned) lpdo lpbegin lpnull lpdo_sound lpbegin_sound lpnull_sound list_sleeping _).
  - exists [1000]. split; [exact Hq|]. vm_compute. discriminate.
Defined.
