(* ===== verification/ConfigApi.v ===== *)
(** * The configuration interface

    [ABT_sched_config_*] of src/sched.cpp and [ABT_pool_config_*] of
    src/pool.cpp on the [world].  An argument that is only tested for null is
    its address; memory the call reads or writes through a pointer is its
    bytes, [None] for a null pointer, and comes back in the result. *)

From S2P Require Import Prelude AbtTypes Config Objects Pool.

(** [ABT_sched_config_var]: its [idx] and [type] *)
Record ABT_sched_config_var : Type := mk_var { var_idx : Z; var_type : Z }.
Definition ABT_sched_config_var_end : ABT_sched_config_var := mk_var (-1) ABT_SCHED_CONFIG_INT.
Definition ABT_sched_config_access : ABT_sched_config_var := mk_var (-2) ABT_SCHED_CONFIG_INT.
Definition ABT_sched_config_automatic : ABT_sched_config_var := mk_var (-3) ABT_SCHED_CONFIG_INT.
Definition ABT_sched_basic_freq : ABT_sched_config_var := mk_var (-4) ABT_SCHED_CONFIG_INT.

Section config.
Context `{E : Ext}.

Definition SC (h : Z) : option ptr := ABTI_obj h.
Definition PC (h : Z) : option ptr := ABTI_obj h.

(** [c->vals] of a live object *)
Definition lookup_config (heap : world → gmap Z config_map) (c : ptr) : M world config_map := λ w,
  match heap w !! c with Some m => Done m w | None => Faulted BadDeref end.

(** ** Schedulers *)

(** The arguments of a variadic call, up to [ABT_sched_config_var_end]; the
    value that follows a variable is an [int], a [double] or a pointer
    according to the variable.  Without an end marker the call reads past its
    arguments. *)
Fixpoint config_args (args : list (ABT_sched_config_var * Z)) (vals : config_map) : option config_map :=
  match args with
  | [] => None
  | (var, a) :: args =>
      if var_idx var =? var_idx ABT_sched_config_var_end then Some vals else
      let v := mk_val (var_type var) 0 0 0 in
      let v := if var_type var =? ABT_SCHED_CONFIG_INT then v <| v_i := a |>
               else if var_type var =? ABT_SCHED_CONFIG_DOUBLE then v <| v_d := a |>
               else v <| v_p := a |> in
      config_args args (<[var_idx var := v]> vals)
  end.
Definition ABT_sched_config_create (config : Z) (args : list (ABT_sched_config_var * Z)) :
    M world (Z * option Z) :=
  if config =? 0 then err ABT_ERR_INV_SCHED_CONFIG else
  c ← new_addr;
  m ← deref (config_args args ∅);
  modify (λ w, w <| w_sconfigs ::= insert c m |>) ;;
  ok c.

(** One destination per index from [i]: a null pointer or an unset index is
    skipped. *)
Fixpoint read_vars (i : Z) (m : config_map) (dsts : list (option bytes)) : option (list (option bytes)) :=
  match dsts with
  | [] => Some []
  | dst :: dsts =>
      dst' ← (match dst, m !! i with
              | Some buf, Some v => buf' ← write_val v buf; Some (Some buf')
              | _, _ => Some dst
              end);
      rest ← read_vars (i + 1) m dsts;
      Some (dst' :: rest)
  end.
Definition ABT_sched_config_read (config : Z) (dsts : list (option bytes)) :
    M world (Z * option (list (option bytes))) :=
  match SC config with
  | None => err ABT_ERR_INV_SCHED_CONFIG
  | Some c => m ← lookup_config w_sconfigs c; r ← deref (read_vars 0 m dsts); ok r
  end.

(** [config] points to a variable that holds [h]. *)
Definition ABT_sched_config_free (config h : Z) : M world (Z * option Z) :=
  if config =? 0 then err ABT_ERR_INV_SCHED_CONFIG else
  match SC h with
  | None => err ABT_ERR_INV_SCHED_CONFIG
  | Some c =>
      lookup_config w_sconfigs c ;;
      modify (λ w, w <| w_sconfigs ::= delete c |>) ;; ok ABT_SCHED_CONFIG_NULL
  end.
Definition ABT_sched_config_set (config idx type : Z) (val : option bytes) : M world Z :=
  match SC config with
  | None => mret ABT_ERR_INV_SCHED_CONFIG
  | Some c =>
      m ← lookup_config w_sconfigs c; m' ← deref (vals_set idx type val m);
      modify (λ w, w <| w_sconfigs ::= insert c m' |>) ;; mret ABT_SUCCESS
  end.
Definition ABT_sched_config_get (config idx : Z) (p_type : bool) (val : option bytes) :
    M world (Z * option Z * option bytes) :=
  match SC config with
  | None => mret (ABT_ERR_INV_SCHED_CONFIG, None, val)
  | Some c =>
      m ← lookup_config w_sconfigs c; deref (vals_get idx p_type val ABT_ERR_INV_SCHED_CONFIG m)
  end.

(** ** Pools *)

Definition ABT_pool_config_create (config : Z) : M world (Z * option Z) :=
  if config =? 0 then err ABT_ERR_INV_POOL_CONFIG else
  c ← new_addr; modify (λ w, w <| w_pconfigs ::= insert c ∅ |>) ;; ok c.
Definition ABT_pool_config_free (config h : Z) : M world (Z * option Z) :=
  if config =? 0 then err ABT_ERR_INV_POOL_CONFIG else
  match PC h with
  | None => err ABT_ERR_INV_POOL_CONFIG
  | Some c =>
      lookup_config w_pconfigs c ;;
      modify (λ w, w <| w_pconfigs ::= delete c |>) ;; ok ABT_POOL_CONFIG_NULL
  end.
Definition ABT_pool_config_set (config key type : Z) (val : option bytes) : M world Z :=
  match PC config with
  | None => mret ABT_ERR_INV_POOL_CONFIG
  | Some c =>
      m ← lookup_config w_pconfigs c; m' ← deref (vals_set key type val m);
      modify (λ w, w <| w_pconfigs ::= insert c m' |>) ;; mret ABT_SUCCESS
  end.
Definition ABT_pool_config_get (config key : Z) (p_type : bool) (val : option bytes) :
    M world (Z * option Z * option bytes) :=
  match PC config with
  | None => mret (ABT_ERR_INV_POOL_CONFIG, None, val)
  | Some c =>
      m ← lookup_config w_pconfigs c; deref (vals_get key p_type val ABT_ERR_INV_POOL_CONFIG m)
  end.

(** ** Round trips *)

Lemma wp_lookup_config heap c m (Q : config_map → world → Prop) w :
  heap w !! c = Some m → Q m w → wp (lookup_config heap c) Q w.
Proof. unfold wp, lookup_config. by intros ->. Qed.
Lemma wp_deref {S A} (o : option A) a (Q : A → S → Prop) s : o = Some a → Q a s → wp (deref o) Q s.
Proof. by intros ->. Qed.
Lemma live_handle h : 256 ≤ h → ABTI_obj h = Some h.
Proof. intros. unfold ABTI_obj, ABTI_is_null_handle. by destruct (Z.ltb_spec h 256); [lia|]. Qed.

Lemma read_val_wide type src : (val_width type ≤ length src)%nat → is_Some (read_val type src).
Proof.
  unfold read_val, val_width. intros Hl.
  destruct (type =? ABT_SCHED_CONFIG_INT); [|destruct (type =? ABT_SCHED_CONFIG_DOUBLE)];
    rewrite load_Some by done; eauto.
Qed.

(** What [set] stores, [get] and later reads find. *)
Lemma vals_set_get key type src dst m bad :
  Forall byte_ok src → (val_width type ≤ length src)%nat → (val_width type ≤ length dst)%nat →
  ∃ m', vals_set key type (Some src) m = Some m' ∧
    vals_get key true (Some dst) bad m' =
      Some (ABT_SUCCESS, Some type, Some (take (val_width type) src ++ drop (val_width type) dst)) ∧
    ∀ k p v b, k ≠ key → vals_get k p v b m' = vals_get k p v b m.
Proof.
  intros Hb Hs Hd. destruct (read_val_wide type src Hs) as [v Hv].
  destruct (write_read _ _ _ dst Hb Hv Hd) as [Ht Hw].
  exists (<[key := v]> m). unfold vals_set, vals_get. rewrite Hv, lookup_insert_eq, Hw, Ht.
  split_and!; [done..|]. intros k p v' b Hne. by rewrite lookup_insert_ne.
Qed.

(** A scheduler configuration gives back the bytes it was given.  After
    [ABT_sched_config_set] with any type, [ABT_sched_config_get] returns that
    type and writes exactly the value's bytes (four for an int, eight for a
    double or a pointer), leaving the rest of the caller's buffer and every
    other index alone. *)
Theorem sched_config_set_get w c m idx type src dst :
  256 ≤ c → w_sconfigs w !! c = Some m → Forall byte_ok src →
  (val_width type ≤ length src)%nat → (val_width type ≤ length dst)%nat →
  wp (r ← ABT_sched_config_set c idx type (Some src); g ← ABT_sched_config_get c idx true (Some dst);
      mret (r, g)) (λ r w', r = (ABT_SUCCESS,
        (ABT_SUCCESS, Some type, Some (take (val_width type) src ++ drop (val_width type) dst))) ∧
      ∀ k p v, k ≠ idx → result (ABT_sched_config_get c k p v) w' = result (ABT_sched_config_get c k p v) w) w.
Proof.
  intros Hc Hm Hb Hs Hd.
  destruct (vals_set_get idx type src dst m ABT_ERR_INV_SCHED_CONFIG Hb Hs Hd) as (m' & Hset & Hget & Hoth).
  unfold ABT_sched_config_set, ABT_sched_config_get, SC. rewrite live_handle by done.
  wp_step. wp_step. eapply wp_lookup_config; [done|]. wp_step. eapply wp_deref; [done|].
  wp_step. wp_step. wp_step. wp_step. wp_step.
  eapply wp_lookup_config; [apply lookup_insert_eq|]. eapply wp_deref; [done|]. wp_step. split; [done|].
  intros k p v Hne. unfold result, mbind, M_bind, lookup_config. simpl.
  rewrite lookup_insert_eq, Hm, Hoth by done. by destruct (vals_get k p v _ m).
Qed.

(** The same for pool configurations. *)
Theorem pool_config_set_get w c m key type src dst :
  256 ≤ c → w_pconfigs w !! c = Some m → Forall byte_ok src →
  (val_width type ≤ length src)%nat → (val_width type ≤ length dst)%nat →
  wp (r ← ABT_pool_config_set c key type (Some src); g ← ABT_pool_config_get c key true (Some dst);
      mret (r, g)) (λ r w', r = (ABT_SUCCESS,
        (ABT_SUCCESS, Some type, Some (take (val_width type) src ++ drop (val_width type) dst))) ∧
      ∀ k p v, k ≠ key → result (ABT_pool_config_get c k p v) w' = result (ABT_pool_config_get c k p v) w) w.
Proof.
  intros Hc Hm Hb Hs Hd.
  destruct (vals_set_get key type src dst m ABT_ERR_INV_POOL_CONFIG Hb Hs Hd) as (m' & Hset & Hget & Hoth).
  unfold ABT_pool_config_set, ABT_pool_config_get, PC. rewrite live_handle by done.
  wp_step. wp_step. eapply wp_lookup_config; [done|]. wp_step. eapply wp_deref; [done|].
  wp_step. wp_step. wp_step. wp_step. wp_step.
  eapply wp_lookup_config; [apply lookup_insert_eq|]. eapply wp_deref; [done|]. wp_step. split; [done|].
  intros k p v Hne. unfold result, mbind, M_bind, lookup_config. simpl.
  rewrite lookup_insert_eq, Hm, Hoth by done. by destruct (vals_get k p v _ m).
Qed.

(** ** Creating and reading by position *)

(** The arguments that give variables [i], [i + 1], ... their values. *)
Fixpoint numbered (i : Z) (tvs : list (Z * Z)) : list (ABT_sched_config_var * Z) :=
  match tvs with
  | [] => [(ABT_sched_config_var_end, 0)]
  | (t, a) :: tvs => (mk_var i t, a) :: numbered (i + 1) tvs
  end.
(** A buffer after value [a] of type [t] was written to it. *)
Definition filled (ta : Z * Z) (buf : bytes) : bytes :=
  le_encode (val_width ta.1) ta.2 ++ drop (val_width ta.1) buf.
Definition arg_val (ta : Z * Z) : config_val :=
  let v := mk_val ta.1 0 0 0 in
  if ta.1 =? ABT_SCHED_CONFIG_INT then v <| v_i := ta.2 |>
  else if ta.1 =? ABT_SCHED_CONFIG_DOUBLE then v <| v_d := ta.2 |> else v <| v_p := ta.2 |>.

Lemma config_args_numbered tvs : ∀ i m, 0 ≤ i →
  ∃ m', config_args (numbered i tvs) m = Some m' ∧
    (∀ j ta, tvs !! j = Some ta → m' !! (i + Z.of_nat j) = Some (arg_val ta)) ∧
    (∀ k, k < i → m' !! k = m !! k).
Proof.
  induction tvs as [|[t a] tvs IH]; intros i m Hi; cbn [numbered config_args].
  - eexists. split_and!; [done|set_solver|done].
  - assert ((var_idx (mk_var i t) =? var_idx ABT_sched_config_var_end) = false) as ->
      by (simpl; apply Z.eqb_neq; lia). cbn [var_idx var_type].
    destruct (IH (i + 1) (<[i := arg_val (t, a)]> m)) as (m' & Hm & Hj & Hk); [lia|].
    exists m'. split_and!; [exact Hm| |].
    + intros [|j] ta Hta; simplify_eq/=.
      * rewrite Z.add_0_r, Hk by lia. apply lookup_insert_eq.
      * rewrite <-(Hj j ta Hta). f_equal. lia.
    + intros k Hlt. rewrite Hk by lia. rewrite lookup_insert_ne by lia. done.
Qed.

Lemma write_arg ta buf :
  (val_width ta.1 ≤ length buf)%nat → write_val (arg_val ta) buf = Some (filled ta buf).
Proof.
  unfold write_val, arg_val, filled, val_width. intros Hl.
  destruct (ta.1 =? ABT_SCHED_CONFIG_INT) eqn:Hi; [|destruct (ta.1 =? ABT_SCHED_CONFIG_DOUBLE) eqn:Hd];
    simpl; rewrite ?Hi, ?Hd; by apply store_Some.
Qed.
Lemma read_vars_numbered tvs : ∀ i m bufs,
  (∀ j ta, tvs !! j = Some ta → m !! (i + Z.of_nat j) = Some (arg_val ta)) →
  Forall2 (λ ta buf, (val_width ta.1 ≤ length buf)%nat) tvs bufs →
  read_vars i m (Some <$> bufs) = Some (zip_with (λ ta buf, Some (filled ta buf)) tvs bufs).
Proof.
  induction tvs as [|ta tvs IH]; intros i m bufs Hm Hf; inversion Hf; simplify_eq; [done|].
  cbn [fmap list_fmap read_vars zip_with]. pose proof (Hm 0%nat ta eq_refl) as H0. rewrite Z.add_0_r in H0. rewrite H0.
  cbn [mbind option_bind]. rewrite write_arg by done. simpl. rewrite IH; [done| |done].
  intros j ta' Hj. rewrite <-(Hm (S j) ta') by done. f_equal. lia.
Qed.

(** A configuration created from a list of values for variables
    0, 1, 2, ... reads back by position: [ABT_sched_config_read] with one
    destination per variable writes each value, with its type's width. *)
Theorem sched_config_create_read w tvs bufs config :
  config ≠ 0 → 256 ≤ w_brk w →
  Forall2 (λ ta buf, (val_width ta.1 ≤ length buf)%nat) tvs bufs →
  wp (r ← ABT_sched_config_create config (numbered 0 tvs);
      match r.2 with
      | Some c => ABT_sched_config_read c (Some <$> bufs)
      | None => err r.1
      end) (λ r _, r = (ABT_SUCCESS, Some (zip_with (λ ta buf, Some (filled ta buf)) tvs bufs))) w.
Proof.
  intros Hc Hb Hf. destruct (config_args_numbered tvs 0 ∅) as (m & Hm & Hj & _); [lia|].
  unfold ABT_sched_config_create. assert ((config =? 0) = false) as -> by by apply Z.eqb_neq.
  wp_step. wp_step. unfold wp at 1, new_addr. wp_step. eapply wp_deref; [done|]. wp_step. wp_step. wp_step.
  cbn [snd]. unfold ABT_sched_config_read, SC. rewrite live_handle by done. wp_step.
  eapply wp_lookup_config; [apply lookup_insert_eq|]. wp_step.
  eapply wp_deref; [by apply read_vars_numbered|]. by wp_step.
Qed.
End config.
