(* ===== verification/Sched.v ===== *)
(** * Schedulers

    src/sched.cpp on the [world]: creation and destruction of schedulers and
    the pools they own, the policy that picks the next unit, the poll entry of
    a predefined scheduler, and the [ABT_sched_*] interface.  [me] is the rank
    of the calling PE. *)

From S2P Require Import Prelude AbtTypes Config Objects Storage PoolList Sleepers PoolMpsc Pool.
From S2P Require Import ConfigApi.

Section sched.
Context `{E : Ext}.

(** ** Creation and destruction *)

Definition sched_apply_config (s : ptr) (config : Z) : M world unit :=
  match SC config with
  | None => mret tt
  | Some c =>
      m ← lookup_config w_sconfigs c;
      (match m !! var_idx ABT_sched_basic_freq with
       | Some v =>
           when ((v_type v =? ABT_SCHED_CONFIG_INT) && (v_i v >? 0))
             (set_sched s (λ o, o <| event_freq := v_i v |>))
       | None => mret tt
       end) ;;
      match m !! var_idx ABT_sched_config_automatic with
      | Some v =>
          when (v_type v =? ABT_SCHED_CONFIG_INT)
            (set_sched s (λ o, o <| s_automatic := if truthy (v_i v) then ABT_TRUE else ABT_FALSE |>))
      | None => mret tt
      end
  end.

(** the pool a scheduler makes for itself *)
Definition own_pool (k : Z) : M world ptr :=
  ABTI_pool_create_builtin k ABT_POOL_ACCESS_MPMC ABT_TRUE.
Fixpoint own_pools (k : Z) (n : nat) : M world (list ptr) :=
  match n with
  | O => mret []
  | S n => p ← own_pool k; ps ← own_pools k n; mret (p :: ps)
  end.
(** the pools of the caller's array of handles, the null ones created and
    handed back in the array *)
Fixpoint given_pools (k : Z) (n : nat) (arr : list Z) : M world (list ptr * list Z) :=
  match n, arr with
  | O, _ => mret ([], arr)
  | S _, [] => fail BadDeref
  | S n, h :: arr =>
      r ← (match ABTI_pool_get h with
           | Some p => mret (p, h)
           | None => p ← own_pool k; mret (p, ABTI_pool_handle (Some p))
           end);
      rest ← given_pools k n arr;
      mret (r.1 :: rest.1, r.2 :: rest.2)
  end.
Fixpoint add_scheds (ps : list ptr) : M world unit :=
  match ps with
  | [] => mret tt
  | p :: ps => set_pool p (λ o, o <| num_scheds ::= Z.succ |>) ;; add_scheds ps
  end.

Definition new_sched (pd : Z) (ps : list ptr) : ABTI_sched :=
  mk_sched pd false ps ABT_TRUE 50 None 0 0 None ABT_SCHED_CONFIG_NULL None false.

(** The error code, the scheduler, and the caller's array afterwards. *)
Definition ABTI_sched_create_predef (pd num_pools : Z) (arr : option (list Z)) :
    M world (Z * option ptr * option (list Z)) :=
  if (pd <? ABT_SCHED_DEFAULT) || (pd >? ABT_SCHED_BASIC_WAIT) then
    mret (ABT_ERR_INV_SCHED_PREDEF, None, arr) else
  if num_pools <? 0 then mret (ABT_ERR_INV_ARG, None, arr) else
  s ← new_addr;
  let k := if pd =? ABT_SCHED_BASIC_WAIT then ABT_POOL_FIFO_WAIT else ABT_POOL_FIFO in
  r ← (match arr with
       | None => ps ← own_pools k (if pd =? ABT_SCHED_PRIO then 3 else 1); mret (ps, None)
       | Some arr => r ← given_pools k (Z.to_nat num_pools) arr; mret (r.1, Some r.2)
       end);
  modify (λ w, w <| w_scheds ::= insert s (new_sched pd r.1) |>) ;;
  add_scheds r.1 ;;
  mret (ABT_SUCCESS, Some s, r.2).

(** An automatic pool goes with its last scheduler, if it holds nothing. *)
Definition drop_pool (p : ptr) : M world unit :=
  o ← pool p;
  set_pool p (λ o, o <| num_scheds ::= Z.pred |>) ;;
  if (num_scheds o - 1 =? 0) && truthy (p_automatic o) then
    n ← size p;
    when ((n =? 0) && (num_blocked o =? 0)) (ABTI_pool_destroy p)
  else mret tt.
Fixpoint drop_pools (ps : list ptr) : M world unit :=
  match ps with [] => mret tt | p :: ps => drop_pool p ;; drop_pools ps end.
Definition ABTI_sched_destroy (s : ptr) : M world unit :=
  o ← sched s;
  (match (if user_def o then s_def o ≫= sd_free else None) with
   | Some f => ext_ (call_sched_free f (ABTI_sched_handle (Some s)))
   | None => mret tt
   end) ;;
  drop_pools (pools o) ;;
  modify (λ w, w <| w_scheds ::= delete s |>).

(** ** The policy *)

Fixpoint index_of (p : ptr) (ps : list ptr) : nat :=
  match ps with [] => 0 | q :: ps => if decide (q = p) then 0 else S (index_of p ps) end.
(** [pools.size()] when [p] is absent *)
Definition ABTI_pool_index (s : ptr) (p : ptr) : M world Z :=
  o ← sched s; mret (Z.of_nat (index_of p (pools o))).

Fixpoint any_unit (ps : list ptr) : M world bool :=
  match ps with
  | [] => mret false
  | p :: ps =>
      n ← size p;
      if n >? 0 then mret true else
      o ← pool p;
      if ((access o =? ABT_POOL_ACCESS_PRIV) || (num_scheds o =? 1)) && (num_blocked o >? 0)
      then mret true else any_unit ps
  end.
Definition sched_has_unit (s : ptr) : M world bool := o ← sched s; any_unit (pools o).

(** the first unit some pool of [ps] gives, in order *)
Fixpoint first_unit (me : Z) (ps : list ptr) : M world (option ptr) :=
  match ps with
  | [] => mret None
  | p :: ps => t ← pop me p; match t with Some _ => mret t | None => first_unit me ps end
  end.
Definition ABTI_sched_pop_by_policy (me : Z) (s : ptr) : M world (option ptr) :=
  o ← sched s;
  let n := Z.of_nat (length (pools o)) in
  if n =? 0 then mret None else
  if (predef o =? ABT_SCHED_RANDWS) && (n >? 1) then
    p0 ← deref (pools o !! 0%nat);
    t ← pop me p0;
    match t with
    | Some _ => mret t
    | None =>
        r ← ext random;
        p ← deref (pools o !! Z.to_nat (1 + r `rem` (n - 1)));
        pop me p
    end
  else first_unit me (pools o).

(** [ABTI_poll_sched]: [held] is the unit parked on this PE ([ABTI_held]) and
    [run] runs a unit, returning how many more it chained to. *)
Definition ABTI_poll_sched (me : Z) (s : ptr) (held : option ptr) (run : ptr → M world Z) :
    M world (Z * option ptr) :=
  r ← (match held with
       | Some h =>
           x ← thread h;
           o ← sched s;
           let hi := match t_pool x with
                     | Some p => index_of p (pools o)
                     | None => length (pools o)
                     end in
           t ← first_unit me (take hi (pools o));
           mret (match t with Some _ => (t, held) | None => (held, None) end)
       | None => t ← ABTI_sched_pop_by_policy me s; mret (t, None)
       end);
  match r.1 with
  | None => mret (0, r.2)
  | Some t => emit (CsdReleaseIdle me) ;; c ← run t; mret (1 + c, r.2)
  end.

(** ** The interface *)

Definition with_sched {A} (h : Z) (k : ptr → M world (Z * option A)) : M world (Z * option A) :=
  match ABTI_sched_get h with
  | None => mret (ABT_ERR_INV_SCHED, None)
  | Some s => k s
  end.

(** The code, and the new handle and the caller's array when it succeeds. *)
Definition ABT_sched_create_basic (pd num_pools : Z) (arr : option (list Z)) (config newsched : Z) :
    M world (Z * option (Z * option (list Z))) :=
  check_init (
    if ABTI_is_null_handle newsched then err ABT_ERR_INV_ARG else
    r ← ABTI_sched_create_predef pd num_pools arr;
    match r.1.2 with
    | None => err r.1.1
    | Some s => sched_apply_config s config ;; ok (ABTI_sched_handle (Some s), r.2)
    end).

Definition ABT_sched_create (d : option ABT_sched_def) (num_pools : Z) (arr : option (list Z))
    (config newsched : Z) : M world (Z * option (Z * option (list Z))) :=
  check_init (
    match d with
    | None => err ABT_ERR_INV_SCHED
    | Some d =>
        if ABTI_is_null_handle newsched then err ABT_ERR_INV_ARG else
        if is_null (sd_run d) then err ABT_ERR_INV_SCHED else
        r ← ABTI_sched_create_predef ABT_SCHED_BASIC num_pools arr;
        match r.1.2 with
        | None => err r.1.1
        | Some s =>
            set_sched s (λ o, o <| user_def := true |> <| s_def := Some d |> <| s_config := config |>
              <| runner := None |> <| s_automatic := ABT_FALSE |>) ;;
            c ← (match sd_init d with
                 | Some f => ext (call_sched_init f (ABTI_sched_handle (Some s)) config)
                 | None => mret ABT_SUCCESS
                 end);
            if negb (c =? ABT_SUCCESS) then ABTI_sched_destroy s ;; err c
            else ok (ABTI_sched_handle (Some s), r.2)
        end
    end).

(** [sched_addr] points to a variable that holds [h]. *)
Definition ABT_sched_free (sched_addr h : Z) : M world (Z * option Z) :=
  check_init (
    if ABTI_is_null_handle sched_addr then err ABT_ERR_INV_SCHED else
    with_sched h (λ s,
      o ← sched s;
      if non_null (used_by o) || s_in_pool o then err ABT_ERR_INV_SCHED
      else ABTI_sched_destroy s ;; ok ABT_SCHED_NULL)).
Definition ABT_sched_set_data (h data : Z) : M world (Z * option unit) :=
  with_sched h (λ s, set_sched s (λ o, o <| s_data := data |>) ;; done_).
Definition ABT_sched_get_data (h : Z) : M world (Z * option Z) :=
  with_sched h (λ s, o ← sched s; ok (s_data o)).
Definition ABT_sched_get_num_pools (h : Z) : M world (Z * option Z) :=
  with_sched h (λ s, o ← sched s; ok (wraps32 (Z.of_nat (length (pools o))))).

(** [pools[i] = ABTI_pool_handle(s->pools[idx + i])] for [i < n]: the handles
    stored.  Outside the vector the read is out of bounds. *)
Fixpoint copy_pools (ps : list ptr) (idx : Z) (n : nat) : M world (list Z) :=
  match n with
  | O => mret []
  | S n =>
      p ← deref (if idx <? 0 then None else ps !! Z.to_nat idx);
      rest ← copy_pools ps (idx + 1) n;
      mret (ABTI_pool_handle (Some p) :: rest)
  end.
(** [idx + max_pools] is an [int] *)
Definition ABT_sched_get_pools (h max_pools idx : Z) : M world (Z * option (list Z)) :=
  with_sched h (λ s,
    o ← sched s;
    if (idx <? 0) || (wraps32 (idx + max_pools) >? wraps32 (Z.of_nat (length (pools o))))
    then err ABT_ERR_SCHED
    else l ← copy_pools (pools o) idx (Z.to_nat max_pools); ok l).

Fixpoint sum_pools (f : ABTI_pool → Z → Z) (ps : list ptr) : M world Z :=
  match ps with
  | [] => mret 0
  | p :: ps => o ← pool p; n ← size p; rest ← sum_pools f ps; mret (wrapu64 (f o n + rest))
  end.
Definition positive (b : Z) : Z := if b >? 0 then b else 0.
Definition ABT_sched_get_size (h : Z) : M world (Z * option Z) :=
  with_sched h (λ s, o ← sched s; n ← sum_pools (λ _ n, n) (pools o); ok n).
Definition ABT_sched_get_total_size (h : Z) : M world (Z * option Z) :=
  with_sched h (λ s, o ← sched s; n ← sum_pools (λ p n, n + positive (num_blocked p)) (pools o); ok n).
Definition ABT_sched_finish (h : Z) : M world (Z * option unit) :=
  with_sched h (λ s, set_sched s (λ o, o <| request ::= λ r, Z.lor r ABTI_SCHED_REQ_FINISH |>) ;; done_).
Definition ABT_sched_exit (h : Z) : M world (Z * option unit) :=
  with_sched h (λ s, set_sched s (λ o, o <| request ::= λ r, Z.lor r ABTI_SCHED_REQ_EXIT |>) ;; done_).
Definition ABT_sched_has_to_stop (h : Z) : M world (Z * option Z) :=
  with_sched h (λ s,
    o ← sched s;
    if truthy (Z.land (request o) ABTI_SCHED_REQ_EXIT) then ok ABT_TRUE else
    if truthy (Z.land (request o) ABTI_SCHED_REQ_FINISH) then
      n ← sum_pools (λ p n, n + (if num_scheds p <=? 1 then positive (num_blocked p) else 0)) (pools o);
      ok (if n =? 0 then ABT_TRUE else ABT_FALSE)
    else ok ABT_FALSE).
End sched.
