(* ===== verification/SchedSpec.v ===== *)
(** * What schedulers promise

    The order in which a scheduler takes units from its pools, the poll entry
    of a predefined scheduler, and the life of the pools a scheduler owns,
    against the abstract queues of [PoolWorld]. *)

From S2P Require Import Prelude AbtTypes Config Objects Storage PoolList Sleepers PoolMpsc Pool.
From S2P Require Import PoolWorld PoolApi ConfigApi Sched.

Section spec.
Context `{E : Ext}.
Implicit Types (w : world) (V : gmap Z (list ptr)) (l ps : list ptr) (p q s t : ptr).

(** ** The order of pools *)

(** The calling PE may resume every unit of the pools [ps]. *)
Definition resumable me w V ps : Prop :=
  ∀ p l t, p ∈ ps → V !! p = Some l → t ∈ l → pinned_in me w t = false.
Definition all_empty V ps : Prop := ∀ p, p ∈ ps → V !! p = Some [].
(** [t] is the oldest unit of the first pool of [ps] that has one, and [V']
    is what is left without it. *)
Definition first_of V ps t V' : Prop :=
  ∃ i p l, ps !! i = Some p ∧ V !! p = Some (t :: l) ∧ all_empty V (take i ps) ∧ V' = <[p := l]> V.

(** A pop the calling PE may make takes the head, or finds nothing. *)
Lemma pop_resumable me w V p l :
  pools_hold w V → V !! p = Some l → (∀ t, t ∈ l → pinned_in me w t = false) →
  wp (pop me p) (λ r w', r = head l ∧ pools_hold w' (<[p := tail l]> V) ∧ world_frame p w w' ∧
    (∀ t, idle_in (w_threads w) t → w_threads w' !! t = w_threads w !! t) ∧
    (∀ t, r = Some t → idle_in (w_threads w') t)) w.
Proof.
  intros Hh Hl Hp. eapply wp_mono; [by eapply pop_holds|].
  intros r w' (l' & Hr & Hh' & F & Hout & Hid). assert (r = head l ∧ l' = tail l) as [-> ->]; [|done].
  destruct l as [|a l]; [destruct (consumer_of w p); simpl in Hr; by simplify_eq|].
  assert (pinned_in me w a = false) as Ha by (apply Hp; set_solver).
  destruct (consumer_of w p); simpl in Hr; rewrite Ha in Hr; by simplify_eq.
Qed.

Lemma first_unit_holds me ps : ∀ w V,
  pools_hold w V → (∀ p, p ∈ ps → is_Some (V !! p)) → resumable me w V ps →
  wp (first_unit me ps) (λ r w',
    match r with
    | None => all_empty V ps ∧ pools_hold w' V
    | Some t => ∃ V', first_of V ps t V' ∧ pools_hold w' V'
    end ∧ w_scheds w' = w_scheds w ∧ erase_queue <$> w_threads w' = erase_queue <$> w_threads w ∧
    (∀ t, idle_in (w_threads w) t → w_threads w' !! t = w_threads w !! t) ∧
    (∀ t, r = Some t → idle_in (w_threads w') t) ∧
    erase_store <$> w_pools w' = erase_store <$> w_pools w ∧ w_ext w' = w_ext w) w.
Proof.
  induction ps as [|p ps IH]; intros w V Hh HV Hr; cbn [first_unit].
  { wp_step. split_and!; [intros q Hq; by apply elem_of_nil in Hq|done..]. }
  destruct (HV p) as [l Hl]; [by left|].
  wp_step. eapply wp_mono; [eapply pop_resumable; [done|done|]|].
  { intros t Ht. eapply Hr; [by left|done|done]. }
  intros r w1 (-> & Hh1 & F & Hid & Hout). destruct (wf_rest _ _ _ F) as (Hs & _ & _ & _ & _ & _ & Hext).
  pose proof (wf_threads _ _ _ F) as Hth. pose proof (wf_pools _ _ _ F) as Hps.
  destruct l as [|t l]; simpl.
  - rewrite insert_id in Hh1 by done. eapply wp_mono; [apply (IH w1 V)|].
    + done.
    + intros q Hq. apply HV. by right.
    + intros q l t Hq Hlq Ht. rewrite (pinned_in_frame me p w w1 t F). eapply Hr; [by right|done|done].
    + intros r w2 (Hres & Hs2 & Hth2 & Hid2 & Hout2 & Hps2 & Hext2). split_and!; [|congruence|congruence| |done|congruence|congruence].
      * destruct r as [t|].
        -- destruct Hres as (V' & (i & q & l & Hq & Hlq & He & ->) & Hh2). eexists. split; [|done].
           exists (S i), q, l. split_and!; [done..| |done].
           intros q' [->|Hq']%elem_of_cons; [done|by apply He].
        -- destruct Hres as [He Hh2]. split; [|done]. intros q [->|Hq]%elem_of_cons; [done|by apply He].
      * intros t Ht. rewrite <-(Hid t Ht). apply Hid2. destruct Ht as (x & Hx & ?).
        exists x. by rewrite Hid by (by exists x).
  - wp_step. split_and!; [|done..]. eexists. split; [|done]. exists 0%nat, p, l.
    split_and!; [done..| |done]. intros q Hq. by apply elem_of_nil in Hq.
Qed.

(** The basic, prio and default policies, with what they leave alone. *)
Lemma policy_pop me w V s o : pools_hold w V → w_scheds w !! s = Some o → predef o ≠ ABT_SCHED_RANDWS →
  (∀ p, p ∈ pools o → is_Some (V !! p)) → resumable me w V (pools o) →
  wp (ABTI_sched_pop_by_policy me s) (λ r w',
    match r with
    | None => all_empty V (pools o) ∧ pools_hold w' V
    | Some t => ∃ V', first_of V (pools o) t V' ∧ pools_hold w' V' ∧ idle_in (w_threads w') t
    end ∧ w_scheds w' = w_scheds w ∧ erase_queue <$> w_threads w' = erase_queue <$> w_threads w ∧
    erase_store <$> w_pools w' = erase_store <$> w_pools w ∧ w_ext w' = w_ext w) w.
Proof.
  intros Hh Hs Hpd HV Hr. unfold ABTI_sched_pop_by_policy. wp_step. eapply wp_sched; [done|].
  destruct (Z.of_nat (length (pools o)) =? 0) eqn:Hn.
  { wp_step. split_and!; [|done..]. destruct (pools o); [|simpl in Hn; lia]. intros p Hp. by apply elem_of_nil in Hp. }
  assert ((predef o =? ABT_SCHED_RANDWS) = false) as -> by by apply Z.eqb_neq. simpl.
  eapply wp_mono; [by apply first_unit_holds|]. intros r w' (Hres & ? & ? & _ & Hout & ? & ?). split_and!; [|done..].
  destruct r as [t|]; [|done]. destruct Hres as (V' & ? & ?). exists V'. by auto.
Qed.

(** C34: the basic, prio and default schedulers, polling on a PE to which no other
    PE's unit is queued (no queued unit is pinned elsewhere; a pool with the
    primary ULT at its head and another PE polling behaves as in C2), take the
    oldest unit of the first pool, in the order of the scheduler's pools, that
    has one; they find nothing only when all pools are empty. *)
Theorem policy_first_nonempty me w V s o :
  pools_hold w V → w_scheds w !! s = Some o → predef o ≠ ABT_SCHED_RANDWS →
  (∀ p, p ∈ pools o → is_Some (V !! p)) → resumable me w V (pools o) →
  wp (ABTI_sched_pop_by_policy me s) (λ r w',
    match r with
    | None => all_empty V (pools o) ∧ pools_hold w' V
    | Some t => ∃ V', first_of V (pools o) t V' ∧ pools_hold w' V'
    end) w.
Proof.
  intros. eapply wp_mono; [by apply policy_pop|]. intros r w' [Hres _]. destruct r as [t|]; [|done].
  destruct Hres as (V' & ? & ? & _). by exists V'.
Qed.

(** Work stealing.  With two or more pools the randws scheduler takes the
    oldest unit of its own pool, its first; when that is empty it looks into
    exactly one other pool, whose index is always within the scheduler's
    pools, and takes its oldest unit or nothing. *)
Theorem randws_steals me w V s o p0 :
  pools_hold w V → w_scheds w !! s = Some o → predef o = ABT_SCHED_RANDWS →
  pools o !! 0%nat = Some p0 → (1 < length (pools o))%nat →
  (∀ p, p ∈ pools o → is_Some (V !! p)) → resumable me w V (pools o) →
  (∀ e, 0 ≤ (random e).1) →
  (∀ e t, CthGetHomeRank t (random e).2 = CthGetHomeRank t e) →
  wp (ABTI_sched_pop_by_policy me s) (λ r w',
    ∃ i p l, pools o !! i = Some p ∧ V !! p = Some l ∧ r = head l ∧ pools_hold w' (<[p := tail l]> V) ∧
      (i ≠ 0%nat → V !! p0 = Some [])) w.
Proof.
  intros Hh Hs Hpd Hp0 Hlen HV Hr Hrand Hhome. unfold ABTI_sched_pop_by_policy.
  wp_step. eapply wp_sched; [done|].
  assert ((Z.of_nat (length (pools o)) =? 0) = false) as -> by (apply Z.eqb_neq; lia).
  assert ((predef o =? ABT_SCHED_RANDWS) = true) as -> by by apply Z.eqb_eq.
  assert ((Z.of_nat (length (pools o)) >? 1) = true) as -> by lia. cbn [andb].
  wp_step. eapply wp_deref; [done|].
  assert (p0 ∈ pools o) as Hin0 by (by eapply list_elem_of_lookup_2).
  destruct (HV p0 Hin0) as [l0 Hl0].
  wp_step. eapply wp_mono; [eapply pop_resumable; [done|done|by intros; eapply Hr]|].
  intros r w1 (-> & Hh1 & F & _). destruct l0 as [|t l0]; simpl.
  2:{ wp_step. exists 0%nat, p0, (t :: l0). done. }
  rewrite insert_id in Hh1 by done. destruct (wf_rest _ _ _ F) as (_ & _ & _ & _ & _ & _ & He).
  wp_step. apply wp_ext. specialize (Hrand (w_ext w1)).
  set (r := (random (w_ext w1)).1) in *. set (n := Z.of_nat (length (pools o))).
  assert (1 ≤ 1 + r `rem` (n - 1) < n) as Hi.
  { unfold n. pose proof (Z.rem_bound_pos r (Z.of_nat (length (pools o)) - 1)). lia. }
  destruct (lookup_lt_is_Some_2 (pools o) (Z.to_nat (1 + r `rem` (n - 1)))) as [q Hq]; [unfold n in *; lia|].
  wp_step. eapply wp_deref; [done|].
  assert (q ∈ pools o) as Hinq by (by eapply list_elem_of_lookup_2).
  destruct (HV q Hinq) as [lq Hlq].
  eapply wp_mono; [eapply (pop_resumable me _ V q lq); [|done|]|].
  - eapply holds_other; [exact Hh1|]. by apply other_fields_rest.
  - intros t Ht. rewrite <-(Hr q lq t Hinq Hlq Ht), <-(pinned_in_frame me p0 w w1 t F).
    unfold pinned_in, pin_at, pinned_elsewhere. simpl.
    destruct (w_threads w1 !! t); [|done]. simpl. by rewrite Hhome.
  - intros r' w2 (-> & Hh2 & _). exists (Z.to_nat (1 + r `rem` (n - 1))), q, lq. done.
Qed.

(** ** The poll entry *)

(** A parked unit waits for the units of higher-priority pools.  When a
    unit [h] of pool [p] is parked on the PE, one poll of the scheduler runs
    the oldest unit of the first non-empty pool before [p] in the scheduler's
    order and keeps [h] parked; when all those pools are empty it runs [h] and
    nothing stays parked.  Either way the idle state is released first, and
    the poll reports the unit and those it chained to. *)
Theorem poll_parked_in_order me w V s o h x p i run (Q : Z * option ptr → world → Prop) :
  pools_hold w V → w_scheds w !! s = Some o → w_threads w !! h = Some x → t_pool x = Some p →
  i = index_of p (pools o) →
  (∀ q, q ∈ pools o → is_Some (V !! q)) → resumable me w V (take i (pools o)) →
  (∀ t V' held' w',
    (first_of V (take i (pools o)) t V' ∧ held' = Some h ∨
     all_empty V (take i (pools o)) ∧ t = h ∧ V' = V ∧ held' = None) →
    pools_hold w' V' → last (w_log w') = Some (CsdReleaseIdle me) →
    wp (run t) (λ c w'', Q (1 + c, held') w'') w') →
  wp (ABTI_poll_sched me s (Some h) run) Q w.
Proof.
  intros Hh Hs Hx Hp -> HV Hr Hrun. unfold ABTI_poll_sched. wp_step. wp_step. eapply wp_thread; [done|].
  wp_step. eapply wp_sched; [done|]. rewrite Hp. wp_step.
  eapply wp_mono; [apply (first_unit_holds me (take (index_of p (pools o)) (pools o)) w V); [done| |done]|].
  { intros q Hq. apply HV. apply list_elem_of_lookup in Hq as [j Hj].
    apply lookup_take_Some in Hj as [Hj _]. by eapply list_elem_of_lookup_2. }
  intros r w1 (Hres & _ & _). wp_step. destruct r as [t|]; cbn [fst snd].
  - destruct Hres as (V' & Hf & Hh'). wp_step. apply wp_emit. wp_step.
    eapply wp_mono; [eapply (Hrun t V' (Some h))|by intros c w2 HQ; wp_step].
    + by left.
    + eapply holds_other; [exact Hh'|]. by apply other_fields_rest.
    + simpl. by rewrite last_snoc.
  - destruct Hres as (He & Hh'). wp_step. apply wp_emit. wp_step.
    eapply wp_mono; [eapply (Hrun h V None)|by intros c w2 HQ; wp_step].
    + by right.
    + eapply holds_other; [exact Hh'|]. by apply other_fields_rest.
    + simpl. by rewrite last_snoc.
Qed.

(** ** Stopping *)

(** The units a scheduler that was asked to finish still waits for: those
    queued in its pools, and the blocked ones of pools it alone consumes. *)
Definition waits_for w V p : bool :=
  match V !! p, w_pools w !! p with
  | Some l, Some o => negb (bool_decide (l = [])) || (num_scheds o <=? 1) && (num_blocked o >? 0)
  | _, _ => false
  end.

Lemma sum_pools_holds f w V ps :
  pools_hold w V → (∀ p, p ∈ ps → is_Some (V !! p)) →
  wp (sum_pools f ps) (λ n w', w' = w ∧ n = foldr (λ p n, wrapu64 (
    from_option (λ o, f o (Z.of_nat (length (default [] (V !! p))))) 0 (w_pools w !! p) + n)) 0 ps) w.
Proof.
  intros Hh. induction ps as [|p ps IH]; intros HV; cbn [sum_pools foldr]; [by wp_step|].
  destruct (HV p) as [l Hl]; [by left|].
  destruct (hold_inv _ _ _ _ Hh Hl) as (C & c & o & _ & _ & _ & _ & Ho & _).
  wp_step. eapply wp_pool; [done|]. wp_step. eapply wp_mono; [by eapply size_holds|].
  intros n w' [-> ->]. wp_step. eapply wp_mono; [apply IH; intros; apply HV; by right|].
  intros n w' [-> ->]. wp_step. rewrite Ho, Hl. done.
Qed.

Lemma sum_zero (g : ptr → Z) ps :
  (∀ p, p ∈ ps → 0 ≤ g p < 2 ^ 32) → Z.of_nat (length ps) < 2 ^ 31 →
  let n := foldr (λ p n, wrapu64 (g p + n)) 0 ps in
  0 ≤ n ≤ Z.of_nat (length ps) * 2 ^ 32 ∧ (n = 0 ↔ ∀ p, p ∈ ps → g p = 0).
Proof.
  intros Hg Hlen. simpl. induction ps as [|p ps IH]; simpl in *.
  { split; [lia|]. split; [|done]. intros _ p Hp. by apply elem_of_nil in Hp. }
  destruct IH as [Hb Hz]; [intros; apply Hg; by right|lia|].
  pose proof (Hg p ltac:(by left)) as Hp. rewrite wrapu64_small by lia. split; [lia|]. split.
  - intros Hn q [->|Hq]%elem_of_cons; [lia|]. apply Hz; [lia|done].
  - intros Hall. rewrite (Hall p) by (by left). rewrite (proj2 Hz); [done|]. intros q Hq. apply Hall. by right.
Qed.

(** When a scheduler has to stop.  Asked to exit, it stops at once;
    asked to finish, it stops exactly when no pool of it holds a unit and no
    pool it consumes alone has blocked units; otherwise it goes on.  (Queue
    lengths and blocked counts are below 2^31.) *)
Theorem has_to_stop_spec w V s o :
  pools_hold w V → 256 ≤ s → w_scheds w !! s = Some o →
  (∀ p, p ∈ pools o → is_Some (V !! p)) → Z.of_nat (length (pools o)) < 2 ^ 31 →
  (∀ p l po, p ∈ pools o → V !! p = Some l → w_pools w !! p = Some po →
    Z.of_nat (length l) < 2 ^ 31 ∧ num_blocked po < 2 ^ 31) →
  wp (ABT_sched_has_to_stop s) (λ r w', w' = w ∧ r = (ABT_SUCCESS, Some (of_bool (
    truthy (Z.land (request o) ABTI_SCHED_REQ_EXIT) ||
    truthy (Z.land (request o) ABTI_SCHED_REQ_FINISH) && forallb (λ p, negb (waits_for w V p)) (pools o))))) w.
Proof.
  intros Hh Hs Ho HV Hn Hb. unfold ABT_sched_has_to_stop, with_sched, ABTI_sched_get.
  rewrite live_handle by done. wp_step. eapply wp_sched; [done|].
  destruct (truthy (Z.land (request o) ABTI_SCHED_REQ_EXIT)); [by wp_step|].
  destruct (truthy (Z.land (request o) ABTI_SCHED_REQ_FINISH)); [|by wp_step]. cbn [orb andb].
  wp_step. eapply wp_mono; [by apply sum_pools_holds|]. intros n w' [-> ->]. wp_step. split; [done|].
  set (g := λ p, from_option (λ po, Z.of_nat (length (default [] (V !! p))) +
    (if num_scheds po <=? 1 then positive (num_blocked po) else 0)) 0 (w_pools w !! p)).
  assert (∀ p, p ∈ pools o → 0 ≤ g p < 2 ^ 32 ∧ (g p = 0 ↔ waits_for w V p = false)) as Hg.
  { intros p Hp. destruct (HV p Hp) as [l Hl].
    destruct (hold_inv _ _ _ _ Hh Hl) as (C & c & po & _ & _ & _ & _ & Hq & _).
    destruct (Hb p l po Hp Hl Hq). unfold g, waits_for, positive. rewrite Hl, Hq. simpl.
    split; [destruct (num_scheds po <=? 1), (Z.gtb_spec (num_blocked po) 0); lia|].
    destruct l as [|t l]; simpl; [|by split; [destruct (num_scheds po <=? 1), (Z.gtb_spec (num_blocked po) 0); lia|]].
    destruct (num_scheds po <=? 1), (Z.gtb_spec (num_blocked po) 0); simpl; split; try done; lia. }
  destruct (sum_zero g (pools o)) as [_ Hz]; [intros p Hp; by apply Hg|done|].
  assert (∀ b : bool, (if b then ABT_TRUE else ABT_FALSE) = of_bool b) as -> by by intros [].
  do 3 f_equal. apply eq_true_iff_eq. rewrite Z.eqb_eq, forallb_forall. split.
  - intros Hall p Hp. rewrite <-list_elem_of_In in Hp. apply negb_true_iff, Hg; [done|]. by apply Hz.
  - intros Hall. apply Hz. intros p Hp. apply Hg; [done|]. apply negb_true_iff, Hall. by rewrite <-list_elem_of_In.
Qed.
End spec.
