(* ===== verification/PoolEquiv.v ===== *)
(** * The two storages are interchangeable

    A pool whose access mode has a single consumer keeps its units in the
    lock-free queue, every other one in the locked list.  A sequence of pushes
    and pops cannot tell them apart: both give what a plain FIFO queue gives. *)

From S2P Require Import Prelude AbtTypes Config Objects Storage PoolList Sleepers PoolMpsc Pool.
From S2P Require Import PoolWorld PoolApi ConfigApi Sched SchedSpec.

Inductive queue_op : Type :=
  | QPush (t : ptr)
  | QPop.
(** The reference: a list, oldest first. *)
Fixpoint fifo_run (ops : list queue_op) (l : list ptr) : list (option ptr) :=
  match ops with
  | [] => []
  | QPush t :: ops => fifo_run ops (l ++ [t])
  | QPop :: ops => head l :: fifo_run ops (tail l)
  end.
(** No unit of [U] is pushed while it is queued. *)
Fixpoint fits (U : list ptr) (ops : list queue_op) (l : list ptr) : Prop :=
  match ops with
  | [] => True
  | QPush t :: ops => t ∈ U ∧ (t ∉ l) ∧ fits U ops (l ++ [t])
  | QPop :: ops => fits U ops (tail l)
  end.

Section equiv.
Context `{E : Ext}.
Implicit Types (w : world) (V : gmap Z (list ptr)) (l U : list ptr) (p t : ptr).

Fixpoint queue_run (me : Z) (p : ptr) (ops : list queue_op) : M world (list (option ptr)) :=
  match ops with
  | [] => mret []
  | QPush t :: ops => push p t ;; queue_run me p ops
  | QPop :: ops => r ← pop me p; rs ← queue_run me p ops; mret (r :: rs)
  end.

(** Pool [p] holds [l]; the units [U] belong to it, are queued or idle, and PE
    [me] may run them. *)
Record serves me p U w V l : Prop := {
  qs_holds : pools_hold w V;
  qs_queue : V !! p = Some l;
  qs_units t : t ∈ l → t ∈ U;
  qs_mine t : t ∈ U → pinned_in me w t = false ∧ ∃ x, w_threads w !! t = Some x ∧ t_pool x = Some p;
  qs_idle t : t ∈ U → t ∉ l → idle_in (w_threads w) t;
}.
Lemma serves_frame me p U w w' V V' l l' : serves me p U w V l → world_frame p w w' → pools_hold w' V' → V' !! p = Some l' →
  (∀ t, t ∈ l' → t ∈ U) → (∀ t, t ∈ U → t ∉ l' → idle_in (w_threads w') t) → serves me p U w' V' l'.
Proof.
  intros [Hh Hq Hu Hm Hi] F Hh' Hq' Hu' Hi'. split; [done..| |done]. intros t Ht. destruct (Hm t Ht) as (Hp & x & Hx & Hxp).
  split; [by rewrite (pinned_in_frame me p w w' t F)|].
  pose proof (f_equal (.!! t) (wf_threads _ _ _ F)) as Hf. simpl in Hf. rewrite !lookup_fmap, Hx in Hf.
  destruct (w_threads w' !! t) as [x'|]; [|done]. exists x'. split; [done|]. apply (inj Some) in Hf.
  rewrite <-Hxp. exact (f_equal t_pool Hf).
Qed.
Lemma queue_run_fifo me p U ops : ∀ w V l, serves me p U w V l → NoDup l → fits U ops l →
  wp (queue_run me p ops) (λ r _, r = fifo_run ops l) w.
Proof.
  induction ops as [|[t|] ops IH]; intros w V l Hs Hnd Hf; cbn [queue_run fifo_run]; [by wp_step|..].
  - destruct Hf as (HU & Hnt & Hf). destruct (qs_mine _ _ _ _ _ _ Hs t HU) as (_ & x & Hx & Hxp).
    destruct (qs_idle _ _ _ _ _ _ Hs t HU Hnt) as (y & Hy & Hin & Hrm). assert (y = x) as -> by congruence.
    wp_step. eapply wp_mono; [eapply push_holds; [apply Hs|apply Hs|done..]|]. intros [] w1 (Hh1 & F & _ & Hother).
    apply (IH w1 (<[p := l ++ [t]]> V)); [|by apply NoDup_app; split_and!; [done|set_solver|apply NoDup_singleton]|done].
    eapply serves_frame; [exact Hs|exact F|exact Hh1|apply lookup_insert_eq|..].
    + intros t' [?| ->%list_elem_of_singleton]%elem_of_app; [by eapply qs_units|done].
    + intros t' HU' Hnt'. apply not_elem_of_app in Hnt' as [Hn1 Hn2]. destruct (qs_idle _ _ _ _ _ _ Hs t' HU' Hn1) as (z & Hz & ?).
      exists z. rewrite Hother; [done|set_solver|by exists z].
  - wp_step. eapply wp_mono; [eapply pop_resumable; [apply Hs|apply Hs|]|].
    { intros t Ht. by apply (qs_mine _ _ _ _ _ _ Hs), (qs_units _ _ _ _ _ _ Hs). }
    intros r w1 (-> & Hh1 & F & Hid & Hout). wp_step. eapply wp_mono; [apply (IH w1 (<[p := tail l]> V) (tail l))|by intros rs w2 ->; wp_step].
    + eapply serves_frame; [exact Hs|exact F|exact Hh1|apply lookup_insert_eq|..].
      * intros t Ht. apply (qs_units _ _ _ _ _ _ Hs). destruct l; [done|by right].
      * intros t HU Hnt. destruct (decide (t ∈ l)) as [Hl|Hl].
        -- destruct l as [|a l]; [by apply elem_of_nil in Hl|]. apply elem_of_cons in Hl as [->|Hl]; [|done]. by apply Hout.
        -- destruct (qs_idle _ _ _ _ _ _ Hs t HU Hl) as (z & Hz & ?). exists z. rewrite Hid; [done|by exists z].
    + destruct l; [done|]. by apply NoDup_cons in Hnd as [_ ?].
    + done.
Qed.

(** C31: the lock-free queue and the locked list are interchangeable for units
    that the consuming PE may run (none is pinned to another PE: with the primary
    ULT at the head, [pop_list] answers the unit behind it and [pop_mpsc] puts it
    back and answers null, pool.cpp:89,130-136) and that are not pushed while they
    are queued.  Two pools that hold the same such units, whatever their access
    modes, give the same answers to every sequence of pushes and pops: those of a
    FIFO queue. *)
Theorem storages_equivalent me me' p p' U ops w w' V V' l : serves me p U w V l → serves me' p' U w' V' l → NoDup l → fits U ops l →
  result (queue_run me p ops) w = result (queue_run me' p' ops) w' ∧ result (queue_run me p ops) w = Some (fifo_run ops l).
Proof.
  intros Hs Hs' Hnd Hf. rewrite (wp_result _ _ _ (queue_run_fifo me p U ops w V l Hs Hnd Hf)).
  by rewrite (wp_result _ _ _ (queue_run_fifo me' p' U ops w' V' l Hs' Hnd Hf)).
Qed.
End equiv.
