(* ===== verification/SchedLife.v ===== *)
(** * The pools of a scheduler

    Creating a scheduler takes the caller's pools, makes the missing ones and
    counts the scheduler in each; destroying it gives the counts back and frees
    the automatic pools that nobody else uses and that hold nothing. *)

From S2P Require Import Prelude AbtTypes Config Objects Storage PoolList Sleepers PoolMpsc Pool.
From S2P Require Import PoolWorld PoolApi ConfigApi Sched.

(** ** What the caller gives and gets *)

(** The handles [given] with the null ones replaced, in order, by [cs]. *)
Fixpoint fill (given cs : list Z) : list Z :=
  match given with
  | [] => []
  | h :: given =>
      if ABTI_is_null_handle h then
        match cs with [] => [] | c :: cs => c :: fill given cs end
      else h :: fill given cs
  end.
Definition occurs (p : ptr) (ps : list ptr) : Z := Z.of_nat (length (filter (λ q, q = p) ps)).
(** New, empty pools. *)
Definition empties (cs : list ptr) : gmap Z (list ptr) := list_to_map ((λ c, (c, [])) <$> cs).

Lemma occurs_cons p q ps : occurs p (q :: ps) = (if decide (q = p) then 1 else 0) + occurs p ps.
Proof.
  unfold occurs. destruct (decide (q = p)); [rewrite filter_cons_True by done|rewrite filter_cons_False by done];
    simpl; lia.
Qed.
Lemma occurs_absent p ps : p ∉ ps → occurs p ps = 0.
Proof. intros Hp. unfold occurs. rewrite filter_none; [done|]. intros q Hq ->. done. Qed.
Lemma occurs_nodup p ps : NoDup ps → p ∈ ps → occurs p ps = 1.
Proof.
  induction 1 as [|q ps Hq _ IH]; intros Hp; [by apply elem_of_nil in Hp|]. rewrite occurs_cons.
  apply elem_of_cons in Hp as [->|Hp].
  - by rewrite decide_True, occurs_absent.
  - rewrite decide_False, IH; [done|done|]. by intros ->.
Qed.
Lemma empties_lookup cs p : empties cs !! p = if decide (p ∈ cs) then Some [] else None.
Proof.
  induction cs as [|c cs IH]; [done|]. change (empties (c :: cs)) with (<[c := []]> (empties cs)).
  destruct (decide (c = p)) as [->|Hne].
  - rewrite lookup_insert_eq. by rewrite decide_True by (by left).
  - rewrite lookup_insert_ne, IH by done. apply decide_ext. rewrite elem_of_cons. naive_solver.
Qed.
Lemma empties_nil (V : gmap Z (list ptr)) : empties [] ∪ V = V.
Proof. apply map_empty_union. Qed.

Section life.
Context `{E : Ext}.
Implicit Types (w : world) (V : gmap Z (list ptr)) (l ps cs : list ptr) (p q s t : ptr).

(** ** Making pools *)

Definition made_pool (k id : Z) : ABTI_pool :=
  new_pool <| kind := k |> <| access := ABT_POOL_ACCESS_MPMC |> <| p_automatic := ABT_TRUE |>
    <| p_id := id |> <| user := false |> <| p_data := 0 |> <| single_consumer := false |>.
(** What making pools leaves alone: the pools that were there, schedulers. *)
Record made (k : Z) (cs : list ptr) w w' : Prop := {
  md_old p : p ∉ cs → w_pools w' !! p = w_pools w !! p;
  md_new p : p ∈ cs → ∃ id, w_pools w' !! p = Some (made_pool k id);
  md_fresh p : p ∈ cs → w_brk w ≤ p;
  md_scheds : w_scheds w' = w_scheds w;
  md_brk : w_brk w ≤ w_brk w';
}.

Lemma own_pool_holds k w V :
  pools_hold w V →
  wp (own_pool k) (λ p w', 256 ≤ p ∧ V !! p = None ∧ pools_hold w' (<[p := []]> V) ∧
    made k [p] w w') w.
Proof.
  intros Hh. unfold own_pool, ABTI_pool_create_builtin. wp_step. unfold fetch_id, wp at 1.
  set (w1 := w <| g_next_id ::= _ |>). assert (w_brk w1 = w_brk w) as Hbrk by done.
  assert (pools_hold w1 V) as Hh1 by (eapply holds_other; [exact Hh|]; by apply other_fields_rest).
  unfold put_pool at 1. eapply wp_intro; [done|].
  pose proof (put_pool_holds w1 V (made_pool k (g_next_id w)) Hh1) as Hp.
  unfold put_pool, wp, mbind, M_bind in Hp. simpl in Hp. destruct Hp as (? & HV & Hh2 & _); [done..| |done|].
  { split; [done|]. simpl. intros m. rewrite !elem_of_cons. set_solver by lia. }
  split_and!; [done|done|exact Hh2|]. split; simpl.
  - intros p Hp. apply lookup_insert_ne. set_solver.
  - intros p ->%list_elem_of_singleton. eexists. apply lookup_insert_eq.
  - intros p ->%list_elem_of_singleton. done.
  - done.
  - lia.
Qed.

Lemma made_trans k c cs w w1 w2 :
  made k [c] w w1 → made k cs w1 w2 → c ∉ cs → made k (c :: cs) w w2.
Proof.
  intros [O1 N1 F1 S1 B1] [O2 N2 F2 S2 B2] Hc. split; [| | |congruence|lia].
  - intros p [Hne Hp]%not_elem_of_cons. rewrite O2, O1; [done|set_solver|done].
  - intros p [->|Hp]%elem_of_cons; [|by apply N2]. rewrite O2 by done. apply N1. by left.
  - intros p [->|Hp]%elem_of_cons; [apply F1; by left|]. specialize (F2 p Hp). lia.
Qed.
Lemma made_nil k w : made k [] w w.
Proof. split; [done| | |done|lia]; intros p Hp; by apply elem_of_nil in Hp. Qed.
Lemma empties_insert c cs V :
  c ∉ cs → V !! c = None → empties cs ∪ <[c := []]> V = empties (c :: cs) ∪ V.
Proof.
  intros Hc HV. apply map_eq. intros p. rewrite !lookup_union, !empties_lookup.
  destruct (decide (c = p)) as [<-|Hne].
  - rewrite lookup_insert_eq, decide_False, decide_True, HV by (done || by left). done.
  - rewrite lookup_insert_ne by done. do 2 f_equal. apply decide_ext. rewrite elem_of_cons. naive_solver.
Qed.

(** The pools of an array of handles: [cs] are the new ones. *)
Definition valid_handles V (hs : list Z) : Prop :=
  ∀ h, h ∈ hs → ABTI_is_null_handle h = true ∨ is_Some (V !! h).
Lemma given_pools_holds k n : ∀ arr w V,
  pools_hold w V → (n ≤ length arr)%nat → valid_handles V (take n arr) →
  wp (given_pools k n arr) (λ r w', ∃ cs,
    r = (fill (take n arr) cs, fill (take n arr) cs ++ drop n arr) ∧
    length cs = length (filter (λ h, ABTI_is_null_handle h = true) (take n arr)) ∧ NoDup cs ∧
    (∀ c, c ∈ cs → V !! c = None ∧ 256 ≤ c) ∧ pools_hold w' (empties cs ∪ V) ∧ made k cs w w') w.
Proof.
  induction n as [|n IH]; intros arr w V Hh Hn Hval; cbn [given_pools].
  { wp_step. exists []. split_and!; try done; [constructor|set_solver| |apply made_nil].
    by rewrite empties_nil. }
  destruct arr as [|h arr]; simpl in Hn; [lia|]. cbn [take drop fill] in *. unfold ABTI_pool_get, ABTI_obj.
  destruct (ABTI_is_null_handle h) eqn:Hnull.
  - wp_step. wp_step. eapply wp_mono; [by apply own_pool_holds|].
    intros p w1 (Hp & HVp & Hh1 & Hm1). wp_step. wp_step.
    eapply wp_mono; [apply (IH arr w1 (<[p := []]> V))|].
    + done.
    + lia.
    + intros h' Hh'. destruct (Hval h') as [?|Hs]; [by right|by left|]. right.
      by apply lookup_insert_is_Some'; right.
    + intros r w2 (cs & -> & Hlen & Hnd & Hcs & Hh2 & Hm2). wp_step.
      assert (p ∉ cs) as Hpc by (intros Hc; destruct (Hcs p Hc) as [Hl _]; by rewrite lookup_insert_eq in Hl).
      exists (p :: cs). split_and!.
      * done.
      * rewrite filter_cons_True by done. simpl. lia.
      * by apply NoDup_cons.
      * intros c [->|Hc]%elem_of_cons; [done|]. destruct (Hcs c Hc) as [Hl ?].
        rewrite lookup_insert_ne in Hl; [done|]. intros <-. done.
      * by rewrite empties_insert in Hh2.
      * by eapply made_trans.
  - wp_step. wp_step. wp_step. eapply wp_mono; [apply (IH arr w V)|].
    + done.
    + lia.
    + intros h' Hh'. apply Hval. by right.
    + intros r w2 (cs & -> & Hlen & ? & ? & ? & ?). wp_step. exists cs.
      rewrite filter_cons_False by congruence. done.
Qed.
Lemma own_pools_holds k n : ∀ w V,
  pools_hold w V →
  wp (own_pools k n) (λ cs w', length cs = n ∧ NoDup cs ∧
    (∀ c, c ∈ cs → V !! c = None ∧ 256 ≤ c) ∧ pools_hold w' (empties cs ∪ V) ∧ made k cs w w') w.
Proof.
  induction n as [|n IH]; intros w V Hh; cbn [own_pools].
  { wp_step. split_and!; try done; [constructor|set_solver| |apply made_nil]. by rewrite empties_nil. }
  wp_step. eapply wp_mono; [by apply own_pool_holds|]. intros p w1 (Hp & HVp & Hh1 & Hm1).
  wp_step. eapply wp_mono; [by apply IH|]. intros cs w2 (Hlen & Hnd & Hcs & Hh2 & Hm2). wp_step.
  assert (p ∉ cs) as Hpc by (intros Hc; destruct (Hcs p Hc) as [Hl _]; by rewrite lookup_insert_eq in Hl).
  split_and!; [simpl; lia|by apply NoDup_cons| | |by eapply made_trans].
  - intros c [->|Hc]%elem_of_cons; [done|]. destruct (Hcs c Hc) as [Hl ?].
    rewrite lookup_insert_ne in Hl; [done|]. intros <-. done.
  - by rewrite empties_insert in Hh2.
Qed.

(** ** Counting schedulers *)

Lemma add_scheds_holds ps : ∀ w V,
  pools_hold w V → (∀ p, p ∈ ps → is_Some (V !! p)) →
  wp (add_scheds ps) (λ _ w', pools_hold w' V ∧ w_scheds w' = w_scheds w ∧
    ∀ p, w_pools w' !! p = (λ o, o <| num_scheds ::= Z.add (occurs p ps) |>) <$> w_pools w !! p) w.
Proof.
  induction ps as [|p ps IH]; intros w V Hh HV; cbn [add_scheds].
  { wp_step. split_and!; [done..|]. intros p. destruct (w_pools w !! p) as [[]|]; done. }
  destruct (HV p) as [l Hl]; [by left|].
  destruct (hold_inv _ _ _ _ Hh Hl) as (C & c & o & _ & _ & _ & _ & Ho & _).
  wp_step. eapply wp_mono; [by apply (set_pool_holds w V p o)|]. intros [] w1 [Hh1 ->].
  eapply wp_mono; [apply (IH _ V Hh1); intros; apply HV; by right|].
  intros [] w2 (Hh2 & Hs & Hp). split_and!; [done|done|]. intros q. rewrite Hp, occurs_cons. simpl.
  destruct (decide (p = q)) as [<-|Hne].
  - rewrite lookup_insert_eq, Ho. simpl. f_equal. destruct o. cbv -[occurs Z.add Z.succ]. f_equal. lia.
  - rewrite lookup_insert_ne by done. destruct (w_pools w !! q) as [[]|]; [|done].
    cbv -[occurs Z.add]. do 2 f_equal.
Qed.

Lemma fill_elem given : ∀ cs p, p ∈ fill given cs → p ∈ cs ∨ p ∈ given ∧ ABTI_is_null_handle p = false.
Proof.
  induction given as [|h given IH]; intros cs p Hp; simpl in Hp; [by apply elem_of_nil in Hp|].
  destruct (ABTI_is_null_handle h) eqn:Hn.
  - destruct cs as [|c cs]; [by apply elem_of_nil in Hp|].
    apply elem_of_cons in Hp as [->|Hp]; [left; by left|].
    destruct (IH cs p Hp) as [?|[? ?]]; [left; by right|right; split; [by right|done]].
  - apply elem_of_cons in Hp as [->|Hp]; [right; split; [by left|done]|].
    destruct (IH cs p Hp) as [?|[? ?]]; [by left|right; split; [by right|done]].
Qed.
Lemma fill_nulls n h : ∀ cs, ABTI_is_null_handle h = true → length cs = n → fill (replicate n h) cs = cs.
Proof.
  induction n as [|n IH]; intros [|c cs] Hn Hl; simplify_eq/=; [done|]. rewrite Hn. f_equal. by apply IH.
Qed.

(** ** Creation *)

(** The handles a scheduler is created from: the caller's array, or one null
    handle per pool of the policy. *)
Definition handles_of (pd num_pools : Z) (arr : option (list Z)) : list Z :=
  match arr with
  | Some arr => take (Z.to_nat num_pools) arr
  | None => replicate (if pd =? ABT_SCHED_PRIO then 3 else 1) ABT_POOL_NULL
  end.
Definition own_kind (pd : Z) : Z := if pd =? ABT_SCHED_BASIC_WAIT then ABT_POOL_FIFO_WAIT else ABT_POOL_FIFO.

Lemma create_predef_holds w V pd n arr :
  pools_hold w V → ABT_SCHED_DEFAULT ≤ pd ≤ ABT_SCHED_BASIC_WAIT → 0 ≤ n →
  (∀ a, arr = Some a → (Z.to_nat n ≤ length a)%nat ∧ valid_handles V (take (Z.to_nat n) a)) →
  let given := handles_of pd n arr in
  wp (ABTI_sched_create_predef pd n arr) (λ r w', ∃ cs,
    let ps := fill given cs in
    r = (ABT_SUCCESS, Some (w_brk w), (λ a, ps ++ drop (Z.to_nat n) a) <$> arr) ∧
    w_scheds w' = <[w_brk w := new_sched pd ps]> (w_scheds w) ∧
    length cs = length (filter (λ h, ABTI_is_null_handle h = true) given) ∧ NoDup cs ∧
    (∀ c, c ∈ cs → V !! c = None ∧ w_pools w !! c = None) ∧ pools_hold w' (empties cs ∪ V) ∧
    (∀ c, c ∈ cs → ∃ id, w_pools w' !! c =
       Some (made_pool (own_kind pd) id <| num_scheds := occurs c ps |>)) ∧
    (∀ p, p ∉ cs → w_pools w' !! p = (λ o, o <| num_scheds ::= Z.add (occurs p ps) |>) <$> w_pools w !! p)) w.
Proof.
  intros Hh Hpd Hn Harr given. unfold ABTI_sched_create_predef.
  assert ((pd <? ABT_SCHED_DEFAULT) || (pd >? ABT_SCHED_BASIC_WAIT) = false) as -> by lia.
  assert ((n <? 0) = false) as -> by lia.
  fold (own_kind pd). set (k := own_kind pd).
  wp_step. unfold wp at 1, new_addr. set (w0 := w <| w_brk ::= Z.succ |>).
  assert (pools_hold w0 V) as Hh0.
  { destruct Hh as (C & [WP WA WM WD WS WI WB WL] & HV). exists C. split; [|done]. split; try done.
    - intros p Hp. destruct (WB p Hp). simpl. lia.
    - simpl. lia. }
  wp_step.
  eapply wp_mono with (Q := λ r w', ∃ cs, r = (fill given cs, (λ a, fill given cs ++ drop (Z.to_nat n) a) <$> arr) ∧
    length cs = length (filter (λ h, ABTI_is_null_handle h = true) given) ∧ NoDup cs ∧
    (∀ c, c ∈ cs → V !! c = None ∧ 256 ≤ c) ∧ pools_hold w' (empties cs ∪ V) ∧ made k cs w0 w').
  { destruct arr as [a|]; unfold given, handles_of.
    - destruct (Harr a eq_refl) as [Hl Hv]. wp_step. eapply wp_mono; [by apply given_pools_holds|].
      intros r w1 (cs & -> & ?). wp_step. by exists cs.
    - wp_step. eapply wp_mono; [by apply own_pools_holds|]. intros cs w1 (Hl & ? & ? & ? & ?).
      wp_step. exists cs. split_and!; try done; [|by destruct (pd =? ABT_SCHED_PRIO)].
      by rewrite fill_nulls. }
  intros r w1 (cs & -> & Hlen & Hnd & Hcs & Hh1 & [MO MN MF MS MB]). cbn [fst snd]. set (ps := fill given cs) in *.
  assert (∀ p, p ∈ ps → is_Some ((empties cs ∪ V) !! p)) as Hps.
  { intros p Hp. rewrite lookup_union, empties_lookup. destruct (fill_elem _ _ _ Hp) as [Hc|[Hg Hnn]].
    - rewrite decide_True by done. destruct (V !! p); eauto.
    - destruct arr as [a|]; unfold given, handles_of in Hg.
      + destruct (Harr a eq_refl) as [_ Hv]. destruct (Hv p Hg) as [?|[l ->]]; [congruence|].
        destruct (decide (p ∈ cs)); eauto.
      + apply elem_of_replicate in Hg as [-> _]. done. }
  wp_step. wp_step. wp_step. eapply wp_mono; [apply (add_scheds_holds ps _ (empties cs ∪ V)); [|done]|].
  { eapply holds_other; [exact Hh1|]. by apply other_fields_rest. }
  intros [] w2 (Hh2 & Hs2 & Hp2). wp_step. exists cs. split_and!; try done.
  - rewrite Hs2. simpl. by rewrite MS.
  - intros c Hc. split; [by apply Hcs|]. apply eq_None_not_Some. intros Hp.
    destruct Hh as (C & Hok & _). destruct (wo_brk _ _ Hok c Hp). specialize (MF c Hc). simpl in MF. lia.
  - intros c Hc. rewrite Hp2. simpl. destruct (MN c Hc) as [id ->]. exists id.
    cbv -[occurs Z.add ps k]. by rewrite Z.add_0_r.
  - intros p Hp. rewrite Hp2. simpl. by rewrite MO.
Qed.

(** ** Destruction *)

(** An empty locked pool can be freed. *)
Lemma delete_pool_holds w V p :
  pools_hold w V → V !! p = Some [] → consumer_of w p = false →
  wp (delete_pool p) (λ _ w', pools_hold w' (delete p V) ∧ w' = w <| w_pools ::= delete p |>) w.
Proof.
  intros Hh Hl Hsc.
  destruct (hold_inv _ _ _ _ Hh Hl) as (C & c & o & [WP WA WM WD WS WI WB WL] & -> & Hc & Hu & Ho & Hus & Hr & _).
  unfold consumer_of in Hsc. rewrite Ho in Hsc. simpl in Hsc. rewrite Hsc in Hr.
  pose proof (list_store_units (pst_at w p o) c Hr) as Hlu. simpl in Hlu. rewrite Hlu in Hu. subst c.
  unfold delete_pool. wp_step. eapply wp_pool; [done|]. wp_step. split; [|done].
  assert (∀ q d, delete p C !! q = Some d → q ≠ p ∧ C !! q = Some d) as HC.
  { intros q d. rewrite lookup_delete_Some. naive_solver. }
  exists (delete p C). split; [|by rewrite fmap_delete]. split; simpl.
  - intros q d [Hne Hd]%HC. rewrite lookup_delete_ne by done. by apply WP.
  - intros q oq. rewrite lookup_delete_Some. intros [Hne Hoq] Huq. rewrite lookup_delete_ne by done. eauto.
  - intros q oq. rewrite lookup_delete_Some. intros [_ Hoq]. eauto.
  - intros q r d d' t [_ Hd]%HC [_ Hd']%HC. by eapply WD.
  - intros q d t x [_ Hd]%HC. by eapply WS.
  - intros t x Hx Hno. apply (WI t x Hx). intros q d Hd. destruct (decide (q = p)) as [->|Hne].
    + rewrite Hc in Hd. simplify_eq. apply not_elem_of_nil.
    + apply (Hno q). by rewrite lookup_delete_ne.
  - intros q [oq Hoq]. apply lookup_delete_Some in Hoq as [_ Hoq]. eauto.
  - done.
Qed.

(** Whether pool [p] goes with the scheduler that is destroyed. *)
Definition goes w V p : bool :=
  match V !! p, w_pools w !! p with
  | Some [], Some o => (num_scheds o =? 1) && truthy (p_automatic o) && (num_blocked o =? 0)
  | _, _ => false
  end.
(** What is left of the pools, and of the pool objects. *)
Definition kept w V ps : gmap Z (list ptr) := filter (λ pl, ¬ (pl.1 ∈ ps ∧ goes w V pl.1 = true)) V.

Lemma drop_pool_holds w V p l :
  pools_hold w V → V !! p = Some l → consumer_of w p = false →
  wp (drop_pool p) (λ _ w', pools_hold w' (if goes w V p then delete p V else V) ∧
    w_scheds w' = w_scheds w ∧ (∀ q, q ≠ p → w_pools w' !! q = w_pools w !! q) ∧
    w_pools w' !! p =
      if goes w V p then None else (λ o, o <| num_scheds ::= Z.pred |>) <$> w_pools w !! p) w.
Proof.
  intros Hh Hl Hsc. destruct (hold_inv _ _ _ _ Hh Hl) as (C & c & o & _ & _ & _ & _ & Ho & Hu & _).
  set (o' := o <| num_scheds ::= Z.pred |>).
  unfold drop_pool, goes. rewrite Hl, Ho. wp_step. eapply wp_pool; [done|]. wp_step.
  eapply wp_mono; [by apply (set_pool_holds w V p o)|]. intros [] w1 [Hh1 Hw1].
  assert (w_scheds w1 = w_scheds w ∧ (∀ q, q ≠ p → w_pools w1 !! q = w_pools w !! q) ∧
    w_pools w1 !! p = Some o') as (Hs1 & Hq1 & Hp1).
  { rewrite Hw1. simpl. split_and!; [done| |apply lookup_insert_eq]. intros q Hq. by apply lookup_insert_ne. }
  assert ((num_scheds o - 1 =? 0) = (num_scheds o =? 1)) as -> by lia.
  destruct ((num_scheds o =? 1) && truthy (p_automatic o)) eqn:Hc; simpl.
  - wp_step. eapply wp_mono; [by eapply size_holds|]. intros n w2 [-> ->].
    destruct l as [|t l]; simpl.
    + destruct (num_blocked o =? 0); simpl; [|by wp_step].
      unfold ABTI_pool_destroy. wp_step. eapply wp_pool; [done|].
      assert (user o' = false) as -> by done. wp_step. wp_step.
      eapply wp_mono; [apply (delete_pool_holds w1 V p); [done|done|]|].
      { unfold consumer_of in *. rewrite Hp1. by rewrite Ho in Hsc. }
      intros [] w2 [Hh2 ->]. simpl. split_and!; [done|done| |apply lookup_delete_eq].
      intros q Hq. rewrite lookup_delete_ne by done. by apply Hq1.
    + by wp_step.
  - wp_step. destruct l; done.
Qed.

Lemma drop_pools_holds ps : ∀ w V,
  pools_hold w V → NoDup ps → (∀ p, p ∈ ps → is_Some (V !! p) ∧ consumer_of w p = false) →
  wp (drop_pools ps) (λ _ w', pools_hold w' (kept w V ps) ∧ w_scheds w' = w_scheds w ∧
    ∀ p, w_pools w' !! p =
      if bool_decide (p ∈ ps) then
        if goes w V p then None else (λ o, o <| num_scheds ::= Z.pred |>) <$> w_pools w !! p
      else w_pools w !! p) w.
Proof.
  induction ps as [|p ps IH]; intros w V Hh Hnd HV; cbn [drop_pools].
  { wp_step. split_and!; [|done|done]. unfold kept. rewrite map_filter_id; [done|]. set_solver. }
  apply NoDup_cons in Hnd as [Hp Hnd]. destruct (HV p) as [[l Hl] Hc]; [by left|].
  wp_step. eapply wp_mono; [by eapply drop_pool_holds|]. intros [] w1 (Hh1 & Hs1 & Hq1 & Hp1).
  set (V1 := if goes w V p then delete p V else V) in *.
  assert (∀ q, q ≠ p → V1 !! q = V !! q) as HV1.
  { intros q Hq. unfold V1. destruct (goes w V p); [by apply lookup_delete_ne|done]. }
  assert (∀ q, q ≠ p → goes w1 V1 q = goes w V q) as Hg.
  { intros q Hq. unfold goes. by rewrite HV1, Hq1. }
  eapply wp_mono; [apply (IH w1 V1 Hh1 Hnd)|].
  { intros q Hq. assert (q ≠ p) by (intros ->; done). destruct (HV q) as [? ?]; [by right|].
    rewrite HV1 by done. unfold consumer_of in *. by rewrite Hq1. }
  intros [] w2 (Hh2 & Hs2 & Hp2). split_and!; [|congruence|].
  - replace (kept w V (p :: ps)) with (kept w1 V1 ps); [done|]. unfold kept. apply map_eq. intros q.
    apply option_eq. intros d. rewrite !map_lookup_filter_Some, elem_of_cons. simpl.
    destruct (decide (q = p)) as [->|Hne].
    + unfold V1. destruct (goes w V p) eqn:Hgp; [rewrite lookup_delete_eq|]; naive_solver.
    + rewrite Hg, HV1 by done. naive_solver.
  - intros q. rewrite Hp2. destruct (decide (q = p)) as [->|Hne].
    + rewrite bool_decide_false, bool_decide_true by (done || by left). done.
    + rewrite Hg, Hq1 by done. repeat case_bool_decide; try done; set_solver.
Qed.

(** ** What creation does not touch *)

Definition beside w : gmap Z config_map * bool := (w_sconfigs w, g_initialized w).

Lemma set_pool_beside p f w :
  wlp (set_pool p f) (λ _ w', beside w' = beside w) w.
Proof. unfold wlp, set_pool. by destruct (w_pools w !! p). Qed.
Lemma own_pool_beside k w : wlp (own_pool k) (λ _ w', beside w' = beside w) w.
Proof. done. Qed.
Lemma own_pools_beside k n : ∀ w, wlp (own_pools k n) (λ _ w', beside w' = beside w) w.
Proof.
  induction n as [|n IH]; intros w; cbn [own_pools]; [by wlp_step|]. wlp_step.
  eapply wlp_mono; [apply own_pool_beside|]. intros p w1 E1. wlp_step.
  eapply wlp_mono; [apply IH|]. intros ps w2 E2. wlp_step. congruence.
Qed.
Lemma given_pools_beside k n : ∀ arr w, wlp (given_pools k n arr) (λ _ w', beside w' = beside w) w.
Proof.
  induction n as [|n IH]; intros arr w; cbn [given_pools]; [by wlp_step|].
  destruct arr as [|h arr]; [done|]. wlp_step.
  eapply wlp_mono with (Q := λ _ w', beside w' = beside w).
  - destruct (ABTI_pool_get h); [by wlp_step|]. wlp_step.
    eapply wlp_mono; [apply own_pool_beside|]. intros p w1 E1. by wlp_step.
  - intros r w1 E1. wlp_step. eapply wlp_mono; [apply IH|]. intros r' w2 E2. wlp_step. congruence.
Qed.
Lemma add_scheds_beside ps : ∀ w, wlp (add_scheds ps) (λ _ w', beside w' = beside w) w.
Proof.
  induction ps as [|p ps IH]; intros w; cbn [add_scheds]; [by wlp_step|]. wlp_step.
  eapply wlp_mono; [apply set_pool_beside|]. intros [] w1 E1.
  eapply wlp_mono; [apply IH|]. intros [] w2 E2. congruence.
Qed.
Lemma create_predef_beside pd n arr w :
  wlp (ABTI_sched_create_predef pd n arr) (λ _ w', beside w' = beside w) w.
Proof.
  unfold ABTI_sched_create_predef. destruct (_ || _); [by wlp_step|]. destruct (n <? 0); [by wlp_step|].
  wlp_step. unfold wlp at 1, new_addr. wlp_step.
  eapply wlp_mono with (Q := λ _ w', beside w' = beside w).
  - destruct arr as [a|]; wlp_step.
    + eapply wlp_mono; [apply given_pools_beside|]. intros r w1 E1. by wlp_step.
    + eapply wlp_mono; [apply own_pools_beside|]. intros r w1 E1. by wlp_step.
  - intros r w1 E1. wlp_step. wlp_step. wlp_step. eapply wlp_mono; [apply add_scheds_beside|].
    intros [] w2 E2. wlp_step. rewrite E2. exact E1.
Qed.
Lemma create_keeps_beside pd n arr w Q :
  wp (ABTI_sched_create_predef pd n arr) Q w →
  wp (ABTI_sched_create_predef pd n arr) (λ r w', beside w' = beside w ∧ Q r w') w.
Proof.
  intros Hp. pose proof (create_predef_beside pd n arr w) as Hc. unfold wp, wlp in *.
  by destruct (ABTI_sched_create_predef pd n arr w).
Qed.

(** ** The interface *)

(** A scheduler with the knobs of a configuration applied. *)
Definition configured (m : config_map) (o : ABTI_sched) : ABTI_sched :=
  let o := match m !! var_idx ABT_sched_basic_freq with
           | Some v => if (v_type v =? ABT_SCHED_CONFIG_INT) && (v_i v >? 0) then o <| event_freq := v_i v |> else o
           | None => o
           end in
  match m !! var_idx ABT_sched_config_automatic with
  | Some v =>
      if v_type v =? ABT_SCHED_CONFIG_INT
      then o <| s_automatic := if truthy (v_i v) then ABT_TRUE else ABT_FALSE |> else o
  | None => o
  end.
(** The entries of the object a configuration handle names. *)
Definition config_vals w (config : Z) : config_map :=
  if ABTI_is_null_handle config then ∅ else default ∅ (w_sconfigs w !! config).

Lemma apply_config_spec w s o config :
  w_scheds w !! s = Some o → (ABTI_is_null_handle config = true ∨ is_Some (w_sconfigs w !! config)) →
  wp (sched_apply_config s config) (λ _ w',
    w' = w <| w_scheds ::= insert s (configured (config_vals w config) o) |>) w.
Proof.
  intros Hs Hc. unfold sched_apply_config, SC, ABTI_obj, config_vals.
  destruct (ABTI_is_null_handle config).
  { wp_step. unfold configured. rewrite !lookup_empty. destruct w; simpl in *. cbv [upd] in *. simpl.
    f_equal. by rewrite insert_id. }
  destruct Hc as [|[m Hm]]; [done|]. rewrite Hm. change (default ∅ (Some m)) with m. wp_step. eapply wp_lookup_config; [done|].
  assert (∀ o1, w_scheds (w <| w_scheds ::= insert s o1 |>) !! s = Some o1) as Hlk by (intros; apply lookup_insert_eq).
  assert (∀ o1 o2, w <| w_scheds ::= insert s o1 |> <| w_scheds ::= insert s o2 |> =
    w <| w_scheds ::= insert s o2 |>) as Htw.
  { intros. destruct w; cbv [upd]; simpl. f_equal. apply insert_insert_eq. }
  wp_step. unfold configured.
  eapply wp_mono with (Q := λ _ w1, w1 = w <| w_scheds ::= insert s
    (match m !! var_idx ABT_sched_basic_freq with
     | Some v => if (v_type v =? ABT_SCHED_CONFIG_INT) && (v_i v >? 0) then o <| event_freq := v_i v |> else o
     | None => o
     end) |>).
  { assert (w = w <| w_scheds ::= insert s o |>) as Hsame
      by (destruct w; cbv [upd]; simpl in *; f_equal; by rewrite insert_id).
    destruct (m !! var_idx ABT_sched_basic_freq) as [v|]; [|by wp_step].
    destruct ((v_type v =? ABT_SCHED_CONFIG_INT) && (v_i v >? 0)); [by eapply wp_set_sched|by wp_step]. }
  intros [] w1 ->. destruct (m !! var_idx ABT_sched_config_automatic) as [v|]; [|by wp_step].
  destruct (v_type v =? ABT_SCHED_CONFIG_INT); [|by wp_step].
  eapply wp_set_sched; [apply Hlk|]. by rewrite Htw.
Qed.

(** Creating a predefined scheduler.  Every rejected call leaves the
    library as it was and names its reason; otherwise the scheduler has the
    caller's pools in order, a new empty MPMC pool (waiting kind for
    basic_wait) in place of each null handle and, without an array, one or
    for prio three of its own; the new pools are handed back in the array; each
    pool counts the scheduler as often as it occurs; frequency and automatic
    flag are the configuration's, or 50 and true. *)
Theorem sched_create_basic_spec w V pd n arr config out :
  pools_hold w V → (ABTI_is_null_handle config = true ∨ is_Some (w_sconfigs w !! config)) →
  (∀ a, arr = Some a → (Z.to_nat n ≤ length a)%nat ∧ valid_handles V (take (Z.to_nat n) a)) →
  256 ≤ w_brk w →
  wp (ABT_sched_create_basic pd n arr config out) (λ r w',
    if negb (g_initialized w) then r = (ABT_ERR_UNINITIALIZED, None) ∧ w' = w
    else if ABTI_is_null_handle out then r = (ABT_ERR_INV_ARG, None) ∧ w' = w
    else if bool_decide (pd < ABT_SCHED_DEFAULT ∨ ABT_SCHED_BASIC_WAIT < pd)
      then r = (ABT_ERR_INV_SCHED_PREDEF, None) ∧ w' = w
    else if bool_decide (n < 0) then r = (ABT_ERR_INV_ARG, None) ∧ w' = w
    else ∃ s cs, let ps := fill (handles_of pd n arr) cs in
      r = (ABT_SUCCESS, Some (s, (λ a, ps ++ drop (Z.to_nat n) a) <$> arr)) ∧
      w_scheds w' = <[s := configured (config_vals w config) (new_sched pd ps)]> (w_scheds w) ∧
      NoDup cs ∧ (∀ c, c ∈ cs → V !! c = None) ∧ pools_hold w' (empties cs ∪ V) ∧
      length cs = length (filter (λ h, ABTI_is_null_handle h = true) (handles_of pd n arr)) ∧
      (∀ c, c ∈ cs → ∃ id, w_pools w' !! c =
         Some (made_pool (own_kind pd) id <| num_scheds := occurs c ps |>)) ∧
      (∀ p, p ∉ cs → w_pools w' !! p =
         (λ o, o <| num_scheds ::= Z.add (occurs p ps) |>) <$> w_pools w !! p)) w.
Proof.
  intros Hh Hcfg Harr Hbrk. unfold ABT_sched_create_basic, check_init. wp_step. wp_step.
  destruct (g_initialized w) eqn:Hinit; [|by wp_step]. simpl.
  destruct (ABTI_is_null_handle out); [by wp_step|].
  case_bool_decide as Hpd.
  { unfold ABTI_sched_create_predef.
    assert ((pd <? ABT_SCHED_DEFAULT) || (pd >? ABT_SCHED_BASIC_WAIT) = true) as -> by lia.
    wp_step. wp_step. cbn [fst snd]. by wp_step. }
  case_bool_decide as Hn.
  { unfold ABTI_sched_create_predef.
    assert ((pd <? ABT_SCHED_DEFAULT) || (pd >? ABT_SCHED_BASIC_WAIT) = false) as -> by lia.
    assert ((n <? 0) = true) as -> by lia. wp_step. wp_step. cbn [fst snd]. by wp_step. }
  wp_step. eapply wp_mono; [eapply (create_keeps_beside pd n arr), create_predef_holds; [done|lia|lia|done]|].
  intros r w1 [[= Hkeep _] (cs & -> & Hs & Hlen & Hnd & Hcs & Hh1 & Hnew & Hold)]. cbn [fst snd]. wp_step.
  eapply wp_mono; [eapply (apply_config_spec w1 (w_brk w)); [by rewrite Hs, lookup_insert_eq|by rewrite Hkeep]|].
  intros [] w2 ->. wp_step. exists (w_brk w), cs.
  split_and!; try done.
  - simpl. rewrite Hs, insert_insert_eq. unfold config_vals. by rewrite Hkeep.
  - intros c Hc. by apply Hcs.
  - eapply holds_other; [exact Hh1|]. by apply other_fields_rest.
Qed.

Lemma destroy_holds w V s o :
  pools_hold w V → w_scheds w !! s = Some o → user_def o = false → NoDup (pools o) →
  (∀ p, p ∈ pools o → is_Some (V !! p) ∧ consumer_of w p = false) →
  wp (ABTI_sched_destroy s) (λ _ w', pools_hold w' (kept w V (pools o)) ∧
    w_scheds w' = delete s (w_scheds w) ∧
    ∀ p, w_pools w' !! p =
      if bool_decide (p ∈ pools o) then
        if goes w V p then None else (λ o, o <| num_scheds ::= Z.pred |>) <$> w_pools w !! p
      else w_pools w !! p) w.
Proof.
  intros Hh Hs Hu Hnd HV. unfold ABTI_sched_destroy. wp_step. eapply wp_sched; [done|]. rewrite Hu.
  wp_step. wp_step. wp_step. eapply wp_mono; [by apply drop_pools_holds|]. intros [] w1 (Hh1 & Hs1 & Hp1).
  wp_step. split_and!; [|simpl; by rewrite Hs1|done].
  eapply holds_other; [exact Hh1|]. by apply other_fields_rest.
Qed.

(** Freeing a scheduler.  A scheduler that runs on an execution stream or
    as a unit of a pool is refused and nothing changes; otherwise it is gone,
    the caller's handle is cleared, each of its pools counts one scheduler
    less, and exactly those of its pools are freed that are automatic, had no
    other scheduler, and hold neither queued nor blocked units. *)
Theorem sched_free_spec w V s o addr :
  pools_hold w V → g_initialized w = true → 256 ≤ addr → 256 ≤ s → w_scheds w !! s = Some o →
  user_def o = false → NoDup (pools o) →
  (∀ p, p ∈ pools o → is_Some (V !! p) ∧ consumer_of w p = false) →
  wp (ABT_sched_free addr s) (λ r w',
    if non_null (used_by o) || s_in_pool o then r = (ABT_ERR_INV_SCHED, None) ∧ w' = w
    else r = (ABT_SUCCESS, Some ABT_SCHED_NULL) ∧ pools_hold w' (kept w V (pools o)) ∧
      w_scheds w' = delete s (w_scheds w) ∧
      ∀ p, w_pools w' !! p =
        if bool_decide (p ∈ pools o) then
          if goes w V p then None else (λ o, o <| num_scheds ::= Z.pred |>) <$> w_pools w !! p
        else w_pools w !! p) w.
Proof.
  intros Hh Hi Ha Hs Ho Hu Hnd HV. unfold ABT_sched_free, check_init. wp_step. wp_step. rewrite Hi.
  assert (ABTI_is_null_handle addr = false) as -> by (unfold ABTI_is_null_handle; lia).
  unfold with_sched, ABTI_sched_get. rewrite live_handle by done. wp_step. eapply wp_sched; [done|].
  destruct (non_null (used_by o) || s_in_pool o); [by wp_step|].
  wp_step. eapply wp_mono; [by apply destroy_holds|]. intros [] w1 (? & ? & ?). by wp_step.
Qed.

(** A scheduler created without an array of pools and then freed leaves
    nothing behind: the pools are those that were there, with the same units
    and the same objects, and so are the schedulers. *)
Theorem sched_create_free w V pd out addr :
  pools_hold w V → g_initialized w = true → 256 ≤ out → 256 ≤ addr → 256 ≤ w_brk w →
  ABT_SCHED_DEFAULT ≤ pd ≤ ABT_SCHED_BASIC_WAIT → w_scheds w !! w_brk w = None →
  wp (r ← ABT_sched_create_basic pd 0 None ABT_SCHED_CONFIG_NULL out;
      match r.2 with
      | Some (s, _) => ABT_sched_free addr s
      | None => err r.1
      end) (λ r w', r = (ABT_SUCCESS, Some ABT_SCHED_NULL) ∧ pools_hold w' V ∧
        w_scheds w' = w_scheds w ∧ w_pools w' = w_pools w) w.
Proof.
  intros Hh Hi Hout Ha Hb Hpd Hfr. wp_step. unfold ABT_sched_create_basic, check_init. wp_step. wp_step. rewrite Hi.
  assert (ABTI_is_null_handle out = false) as -> by (unfold ABTI_is_null_handle; lia).
  wp_step. eapply wp_mono; [apply create_keeps_beside, (create_predef_holds w V pd 0 None); [done|done|lia|done]|].
  intros r w1 [[= _ Hkeep] (cs & -> & Hs & Hlen & Hnd & Hcs & Hh1 & Hnew & Hold)].
  set (given := handles_of pd 0 None) in *.
  assert (fill given cs = cs) as Hfill.
  { unfold given, handles_of in *. apply fill_nulls; [done|]. rewrite Hlen.
    by destruct (pd =? ABT_SCHED_PRIO). }
  rewrite Hfill in *. cbn [fst snd].
  assert (sched_apply_config (w_brk w) ABT_SCHED_CONFIG_NULL = mret tt) as -> by done.
  wp_step. wp_step. wp_step. cbn [snd].
  unfold ABT_sched_free, check_init. wp_step. wp_step. rewrite Hkeep, Hi.
  assert (ABTI_is_null_handle addr = false) as -> by (unfold ABTI_is_null_handle; lia).
  unfold with_sched, ABTI_sched_get. rewrite live_handle by done. wp_step.
  assert (w_scheds w1 !! w_brk w = Some (new_sched pd cs)) as Hs1 by (by rewrite Hs, lookup_insert_eq).
  eapply wp_sched; [done|]. simpl. wp_step.
  assert (∀ c, c ∈ cs → (empties cs ∪ V) !! c = Some []) as HV.
  { intros c Hc. rewrite lookup_union, empties_lookup, decide_True by done.
    destruct (Hcs c Hc) as [-> _]. done. }
  assert (∀ c, c ∈ cs → occurs c cs = 1) as Hocc by (intros; by apply occurs_nodup).
  eapply wp_mono; [eapply (destroy_holds w1 (empties cs ∪ V) (w_brk w) (new_sched pd cs)); [done|done|done|done|]|].
  { intros p Hp. split; [rewrite HV by done; eauto|]. unfold consumer_of. by destruct (Hnew p Hp) as [id ->]. }
  assert (∀ p, p ∈ cs → goes w1 (empties cs ∪ V) p = true) as Hgo.
  { intros p Hp. unfold goes. rewrite HV by done. destruct (Hnew p Hp) as [id ->]. simpl. by rewrite Hocc. }
  intros [] w2 (Hh2 & Hs2 & Hp2). wp_step. split_and!; [done| | |].
  - replace V with (kept w1 (empties cs ∪ V) cs); [done|]. unfold kept. apply map_eq. intros p.
    apply option_eq. intros l. rewrite map_lookup_filter_Some. simpl. destruct (decide (p ∈ cs)) as [Hp|Hp].
    + rewrite Hgo by done. destruct (Hcs p Hp) as [-> _]. naive_solver.
    + assert ((empties cs ∪ V) !! p = V !! p) as ->.
      { rewrite lookup_union, empties_lookup, decide_False by done. by destruct (V !! p). }
      split; [by intros [? _]|].
      intros Hl. split; [done|]. by intros [? _].
  - rewrite Hs2, Hs. by apply delete_insert_id.
  - apply map_eq. intros p. rewrite Hp2. simpl. case_bool_decide as Hp.
    + rewrite Hgo by done. by destruct (Hcs p Hp) as [_ ->].
    + rewrite Hold by done. destruct (w_pools w !! p) as [[]|]; [|done]. cbv -[occurs Z.add].
      by rewrite occurs_absent.
Qed.

(** ** User-defined schedulers *)

(** A user-defined scheduler keeps the definition and the configuration
    handle it is given, is not automatic whatever the configuration says (its
    [automatic] entry is not read), and has its pools like a basic one. *)
Theorem sched_create_user_spec w V d n arr config out :
  pools_hold w V → g_initialized w = true → 256 ≤ out → non_null (sd_run d) = true → 0 ≤ n →
  (∀ a, arr = Some a → (Z.to_nat n ≤ length a)%nat ∧ valid_handles V (take (Z.to_nat n) a)) →
  (∀ f h e, sd_init d = Some f → (call_sched_init f h config e).1 = ABT_SUCCESS) →
  wp (ABT_sched_create (Some d) n arr config out) (λ r w', ∃ s o cs,
    r = (ABT_SUCCESS, Some (s, (λ a, pools o ++ drop (Z.to_nat n) a) <$> arr)) ∧
    w_scheds w' = <[s := o]> (w_scheds w) ∧ pools o = fill (handles_of ABT_SCHED_BASIC n arr) cs ∧
    user_def o = true ∧ s_def o = Some d ∧ s_config o = config ∧ s_automatic o = ABT_FALSE ∧
    pools_hold w' (empties cs ∪ V)) w.
Proof.
  intros Hh Hi Hout Hrun Hn Harr Hinit. unfold ABT_sched_create, check_init. wp_step. wp_step. rewrite Hi.
  assert (ABTI_is_null_handle out = false) as -> by (unfold ABTI_is_null_handle; lia).
  unfold non_null in Hrun. apply negb_true_iff in Hrun. rewrite Hrun.
  wp_step. eapply wp_mono; [apply (create_predef_holds w V ABT_SCHED_BASIC n arr); [done|done|done|done]|].
  intros r w1 (cs & -> & Hs & _ & _ & _ & Hh1 & _). cbn [fst snd]. set (ps := fill _ cs) in *.
  set (o := new_sched ABT_SCHED_BASIC ps <| user_def := true |> <| s_def := Some d |>
    <| s_config := config |> <| runner := None |> <| s_automatic := ABT_FALSE |>).
  wp_step. eapply wp_set_sched; [by rewrite Hs, lookup_insert_eq|]. wp_step.
  set (w2 := w1 <| w_scheds ::= _ |>).
  assert (w_scheds w2 = <[w_brk w := o]> (w_scheds w)) as Hs2 by (simpl; by rewrite Hs, insert_insert_eq).
  eapply wp_mono with (Q := λ c w3, c = ABT_SUCCESS ∧ w_scheds w3 = w_scheds w2 ∧ pools_hold w3 (empties cs ∪ V)).
  - assert (pools_hold w2 (empties cs ∪ V)) as Hh2 by (eapply holds_other; [exact Hh1|]; by apply other_fields_rest).
    destruct (sd_init d) as [f|]; [|by wp_step]. apply wp_ext. split_and!; [by apply Hinit|done|].
    eapply holds_other; [exact Hh2|]. by apply other_fields_rest.
  - intros c w3 (-> & Hs3 & Hh3). simpl. wp_step. exists (w_brk w), o, cs. rewrite Hs3, Hs2. done.
Qed.

(** ** The list of pools *)

Lemma copy_pools_holds ps n : ∀ idx w,
  0 ≤ idx → (Z.to_nat idx + n ≤ length ps)%nat →
  wp (copy_pools ps idx n) (λ r w', r = take n (drop (Z.to_nat idx) ps) ∧ w' = w) w.
Proof.
  induction n as [|n IH]; intros idx w Hi Hl; cbn [copy_pools]; [by wp_step|].
  assert ((idx <? 0) = false) as -> by lia.
  destruct (lookup_lt_is_Some_2 ps (Z.to_nat idx)) as [p Hp]; [lia|].
  wp_step. eapply wp_deref; [done|]. wp_step. eapply wp_mono; [apply IH; lia|]. intros r w' [-> ->]. wp_step.
  split; [|done]. rewrite (drop_S ps p (Z.to_nat idx)) by done. simpl. by rewrite Z2Nat.inj_add, Nat.add_1_r by lia.
Qed.

(** [ABT_sched_get_pools] returns the [max] pools from index [idx] on,
    or [ABT_ERR_SCHED] and nothing when they are not all there, for any [idx]
    and [max] whose sum is an int. *)
Theorem sched_get_pools_slice w s o idx max :
  256 ≤ s → w_scheds w !! s = Some o → Z.of_nat (length (pools o)) < 2 ^ 31 →
  - 2 ^ 31 ≤ idx + max < 2 ^ 31 →
  wp (ABT_sched_get_pools s max idx) (λ r w', w' = w ∧
    r = if bool_decide (idx < 0 ∨ Z.of_nat (length (pools o)) < idx + max) then (ABT_ERR_SCHED, None)
        else (ABT_SUCCESS, Some (take (Z.to_nat max) (drop (Z.to_nat idx) (pools o))))) w.
Proof.
  intros Hs Ho Hl Hov. unfold ABT_sched_get_pools, with_sched, ABTI_sched_get. rewrite live_handle by done.
  wp_step. eapply wp_sched; [done|]. rewrite !wraps32_small by lia.
  case_bool_decide as Hc.
  - assert ((idx <? 0) || (idx + max >? Z.of_nat (length (pools o))) = true) as -> by lia. by wp_step.
  - assert ((idx <? 0) || (idx + max >? Z.of_nat (length (pools o))) = false) as -> by lia.
    destruct (Z.le_gt_cases max 0) as [Hm|Hm].
    { rewrite Z2Nat.nonpos by done. wp_step. cbn [copy_pools]. wp_step. by wp_step. }
    wp_step. eapply wp_mono; [apply copy_pools_holds; lia|]. intros r w' [-> ->]. by wp_step.
Qed.

(** C40: the bound check of [ABT_sched_get_pools] does not survive int
    overflow: asked for the largest number of pools from one past the last
    pool on, the sum wraps to a negative number, the check passes, and the
    first read is outside the scheduler's pools. *)
Theorem sched_get_pools_overflow w s o :
  256 ≤ s → w_scheds w !! s = Some o → 0 < Z.of_nat (length (pools o)) < 2 ^ 31 →
  ABT_sched_get_pools s (2 ^ 31 - 1) (Z.of_nat (length (pools o))) w = Faulted BadDeref.
Proof.
  intros Hs Ho Hl. unfold ABT_sched_get_pools, with_sched, ABTI_sched_get. rewrite live_handle by done.
  unfold mbind, M_bind, sched. rewrite Ho. set (n := Z.of_nat (length (pools o))) in *.
  assert (wraps32 (n + (2 ^ 31 - 1)) = n - 2 ^ 31 - 1) as ->.
  { unfold wraps32. replace (n + (2 ^ 31 - 1) + 2 ^ 31) with (n - 1 + 1 * 2 ^ 32) by lia.
    rewrite Z.mod_add, Z.mod_small by lia. lia. }
  rewrite wraps32_small by lia.
  assert ((n <? 0) || (n - 2 ^ 31 - 1 >? n) = false) as -> by lia.
  assert (∃ k, Z.to_nat (2 ^ 31 - 1) = S k) as [k Hk] by (exists (Z.to_nat (2 ^ 31 - 2)); lia).
  rewrite Hk. cbn [copy_pools]. assert ((n <? 0) = false) as -> by lia.
  unfold n. rewrite Nat2Z.id, (proj2 (lookup_ge_None _ _)) by done. done.
Qed.
End life.
