(* ===== verification/SchedExamples.v ===== *)
(** * Concrete schedulers

    The theorems of [ConfigApi], [SchedSpec] and [SchedLife] on the worlds of
    [PoolExamples]: pool 257 is empty, pool 256 holds two threads, a scheduler
    at 2000 polls them in that order. *)

From Stdlib Require Import SpecFloat.
From S2P Require Import Prelude AbtTypes Config Objects Storage PoolList Sleepers PoolMpsc Pool.
From S2P Require Import PoolWorld PoolApi UserPool PoolExamples ConfigApi Sched SchedSpec PoolEquiv SchedLife.

Lemma holds_scheds (w : world) V m : pools_hold w V → pools_hold (w <| w_scheds := m |>) V.
Proof. intros Hh. eapply holds_other; [exact Hh|]. by apply other_fields_rest. Qed.
Lemma holds_sconfigs (w : world) V m : pools_hold w V → pools_hold (w <| w_sconfigs := m |>) V.
Proof. intros Hh. eapply holds_other; [exact Hh|]. by apply other_fields_rest. Qed.

(** ** Configurations *)

Definition with_configs : world := boot <| w_sconfigs := {[512 := ∅]} |> <| w_pconfigs := {[513 := ∅]} |>.
Definition eight (b : Z) : bytes := replicate 8 b.
Lemma bytes_ok l : forallb (λ b, (0 <=? b) && (b <? 256)) l = true → Forall byte_ok l.
Proof.
  rewrite forallb_forall, Forall_forall. intros Hl b Hb. apply list_elem_of_In in Hb.
  apply Hl in Hb. unfold byte_ok. lia.
Qed.

Lemma sched_config_set_get_witness :
  wp (r ← ABT_sched_config_set 512 7 ABT_SCHED_CONFIG_INT (Some [254; 255; 255; 255]);
      g ← ABT_sched_config_get 512 7 true (Some (eight 9)); mret (r, g))
    (λ r w', r = (ABT_SUCCESS, (ABT_SUCCESS, Some ABT_SCHED_CONFIG_INT, Some [254; 255; 255; 255; 9; 9; 9; 9])) ∧
      ∀ k p v, k ≠ 7 → result (ABT_sched_config_get 512 k p v) w' = result (ABT_sched_config_get 512 k p v) with_configs)
    with_configs.
Proof.
  apply (sched_config_set_get with_configs 512 ∅ 7 ABT_SCHED_CONFIG_INT [254; 255; 255; 255] (eight 9));
    [lia|reflexivity|by apply bytes_ok|vm_compute; lia..].
Defined.
Lemma pool_config_set_get_witness :
  wp (r ← ABT_pool_config_set 513 (-2) ABT_POOL_CONFIG_PTR (Some (eight 17));
      g ← ABT_pool_config_get 513 (-2) true (Some (eight 9)); mret (r, g))
    (λ r w', r = (ABT_SUCCESS, (ABT_SUCCESS, Some ABT_POOL_CONFIG_PTR, Some (eight 17))) ∧
      ∀ k p v, k ≠ -2 → result (ABT_pool_config_get 513 k p v) w' = result (ABT_pool_config_get 513 k p v) with_configs)
    with_configs.
Proof.
  apply (pool_config_set_get with_configs 513 ∅ (-2) ABT_POOL_CONFIG_PTR (eight 17) (eight 9));
    [lia|reflexivity|by apply bytes_ok|vm_compute; lia..].
Defined.
Lemma sched_config_create_read_witness :
  wp (r ← ABT_sched_config_create 4096 (numbered 0 [(ABT_SCHED_CONFIG_INT, -1); (ABT_SCHED_CONFIG_PTR, 4660)]);
      match r.2 with
      | Some c => ABT_sched_config_read c (Some <$> [eight 0; eight 7])
      | None => err r.1
      end) (λ r _, r = (ABT_SUCCESS, Some [Some [255; 255; 255; 255; 0; 0; 0; 0]; Some [52; 18; 0; 0; 0; 0; 0; 0]]))
    boot.
Proof.
  apply (sched_config_create_read boot [(ABT_SCHED_CONFIG_INT, -1); (ABT_SCHED_CONFIG_PTR, 4660)]
    [eight 0; eight 7] 4096); [done|done|]. repeat constructor.
Defined.

(** ** Storages *)

(** Threads 1000 and 1001 belong to pool [p]; 256 is locked, 257 lock-free. *)
Definition owned (p : ptr) : world :=
  two_pools <| w_threads ::= insert 1000 (toy_thread ABTI_THREAD_NAMED 1 <| t_pool := Some p |>) |>
    <| w_threads ::= insert 1001 (toy_thread ABTI_THREAD_NAMED 2 <| t_pool := Some p |>) |>.
Abbreviation none_queued := (<[257 := []]> (<[256 := []]> (∅ : gmap Z (list ptr)))).
Lemma owned_serves p : p ∈ [256; 257] → serves 0 p [1000; 1001] (owned p) none_queued [].
Proof.
  intros Hp. assert (w_threads two_pools !! 1000 = Some (toy_thread ABTI_THREAD_NAMED 1)) as H0 by (vm_compute; reflexivity).
  assert (w_threads two_pools !! 1001 = Some (toy_thread ABTI_THREAD_NAMED 2)) as H1 by (vm_compute; reflexivity).
  assert (∀ t, t ∈ [1000; 1001] → ∃ x, w_threads (owned p) !! t = Some x ∧ t_pool x = Some p ∧ in_pool x = false ∧
    removed x = false ∧ t_type x = ABTI_THREAD_NAMED) as Hx.
  { intros t [->| ->%list_elem_of_singleton]%elem_of_cons; eexists; [|by split; [apply lookup_insert_eq|]].
    split; [unfold owned; simpl; rewrite lookup_insert_ne by done; apply lookup_insert_eq|by split_and!]. }
  split.
  - eapply holds_other; [exact two_pools_hold|]. apply (other_fields_trans _ (two_pools <| w_threads ::= insert 1000 (toy_thread ABTI_THREAD_NAMED 1 <| t_pool := Some p |>) |>)).
    + eapply other_fields_thread; [exact H0|done|done].
    + eapply other_fields_thread; [simpl; rewrite lookup_insert_ne by done; exact H1|done|done].
  - apply elem_of_cons in Hp as [->| ->%list_elem_of_singleton]; reflexivity.
  - intros t Ht. by apply elem_of_nil in Ht.
  - intros t Ht. destruct (Hx t Ht) as (x & E & ? & _ & _ & Hty). split; [|by exists x].
    unfold pinned_in, pin_at. rewrite E. simpl. unfold pinned_elsewhere. by rewrite Hty.
  - intros t Ht _. destruct (Hx t Ht) as (x & E & _ & ? & ? & _). by exists x.
Qed.
Abbreviation some_ops := [QPush 1001; QPop; QPop; QPush 1000; QPush 1001; QPop].
Lemma storages_equivalent_witness :
  consumer_of (owned 256) 256 = false ∧ consumer_of (owned 257) 257 = true ∧
  result (queue_run 0 256 some_ops) (owned 256) = result (queue_run 0 257 some_ops) (owned 257) ∧
  result (queue_run 0 256 some_ops) (owned 256) = Some [Some 1001; None; Some 1000].
Proof.
  split; [vm_compute; reflexivity|]. split; [vm_compute; reflexivity|].
  refine (storages_equivalent 0 0 256 257 [1000; 1001] some_ops (owned 256) (owned 257) none_queued none_queued []
    (owned_serves 256 _) (owned_serves 257 _) _ _).
  - by left.
  - right. by left.
  - constructor.
  - simpl. set_solver.
Defined.

(** ** Policies *)

Definition polling (pd : Z) : world :=
  queued 256 <| w_scheds := {[2000 := new_sched pd [257; 256]]} |>.
Abbreviation queues := (<[256 := [1000; 1001]]> (<[257 := []]> (<[256 := []]> (∅ : gmap Z (list ptr))))).
Lemma polling_hold pd : pools_hold (polling pd) queues.
Proof. apply holds_scheds, queued_hold. set_solver. Qed.
Lemma polling_known p : p ∈ [257; 256] → is_Some (queues !! p).
Proof. intros [->|[->|[]%elem_of_nil]%elem_of_cons]%elem_of_cons; eexists; reflexivity. Qed.
Lemma polling_resumable pd ps : ps ⊆ [257; 256] → resumable 0 (polling pd) queues ps.
Proof.
  intros Hsub p l t Hp Hl Ht. apply Hsub in Hp.
  apply elem_of_cons in Hp as [->|[->|[]%elem_of_nil]%elem_of_cons]; vm_compute in Hl; simplify_eq.
  - by apply elem_of_nil in Ht.
  - apply elem_of_cons in Ht as [->|[->|[]%elem_of_nil]%elem_of_cons]; vm_compute; reflexivity.
Qed.

Lemma policy_first_nonempty_witness :
  wp (ABTI_sched_pop_by_policy 0 2000) (λ r w',
    match r with
    | None => all_empty queues [257; 256] ∧ pools_hold w' queues
    | Some t => ∃ V', first_of queues [257; 256] t V' ∧ pools_hold w' V'
    end) (polling ABT_SCHED_PRIO) ∧
  result (ABTI_sched_pop_by_policy 0 2000) (polling ABT_SCHED_PRIO) = Some (Some 1000).
Proof.
  split; [|vm_compute; reflexivity].
  eapply (policy_first_nonempty 0 (polling ABT_SCHED_PRIO) queues 2000 (new_sched ABT_SCHED_PRIO [257; 256]));
    [apply polling_hold|reflexivity|done|apply polling_known|by apply polling_resumable].
Defined.

Lemma randws_steals_witness :
  wp (ABTI_sched_pop_by_policy 0 2000) (λ r w',
    ∃ i p l, [257; 256] !! i = Some p ∧ queues !! p = Some l ∧ r = head l ∧
      pools_hold w' (<[p := tail l]> queues) ∧ (i ≠ 0%nat → queues !! 257 = Some []))
    (polling ABT_SCHED_RANDWS) ∧
  result (ABTI_sched_pop_by_policy 0 2000) (polling ABT_SCHED_RANDWS) = Some (Some 1000).
Proof.
  split; [|vm_compute; reflexivity].
  eapply (randws_steals 0 (polling ABT_SCHED_RANDWS) queues 2000 (new_sched ABT_SCHED_RANDWS [257; 256]) 257);
    [apply polling_hold|reflexivity|done|done|simpl; lia|apply polling_known|by apply polling_resumable| |done].
  intros e. apply Z.abs_nonneg.
Defined.

(** Thread 1002 of pool 256 is parked while 257 is empty, so it runs. *)
Definition parked : world := polling ABT_SCHED_BASIC <| w_threads ::= alter (λ x, x <| t_pool := Some 256 |>) 1002 |>.
Lemma parked_hold : pools_hold parked queues.
Proof.
  assert (w_threads (polling ABT_SCHED_BASIC) !! 1002 = Some (toy_thread ABTI_THREAD_NAMED 3)) as Hx
    by (vm_compute; reflexivity).
  eapply (holds_other (polling ABT_SCHED_BASIC)); [apply polling_hold|].
  assert (parked = polling ABT_SCHED_BASIC <| w_threads ::= insert 1002
    (toy_thread ABTI_THREAD_NAMED 3 <| t_pool := Some 256 |>) |>) as ->.
  { unfold parked. destruct (polling ABT_SCHED_BASIC) as [wp wt ws]. simpl in Hx. unfold upd. simpl. f_equal.
    apply map_eq. intros t. destruct (decide (t = 1002)) as [->|Hne].
    - by rewrite lookup_alter_eq, lookup_insert_eq, Hx.
    - by rewrite lookup_alter_ne, lookup_insert_ne. }
  by apply (other_fields_thread _ _ (toy_thread ABTI_THREAD_NAMED 3)).
Qed.
Lemma poll_parked_in_order_witness :
  wp (ABTI_poll_sched 0 2000 (Some 1002) (λ _, mret 2)) (λ r _, r.1 = 3) parked ∧
  result (ABTI_poll_sched 0 2000 (Some 1002) (λ _, mret 2)) parked = Some (3, None).
Proof.
  split; [|vm_compute; reflexivity].
  eapply (poll_parked_in_order 0 parked queues 2000 (new_sched ABT_SCHED_BASIC [257; 256]) 1002
    (toy_thread ABTI_THREAD_NAMED 3 <| t_pool := Some 256 |>) 256 1);
    [apply parked_hold|reflexivity|vm_compute; reflexivity|done|done|apply polling_known| |by intros; wp_step].
  intros p l t ->%list_elem_of_singleton Hl Ht. vm_compute in Hl. simplify_eq. by apply elem_of_nil in Ht.
Defined.

Lemma has_to_stop_spec_witness :
  wp (ABT_sched_has_to_stop 2000) (λ r w', w' = polling ABT_SCHED_BASIC ∧
    r = (ABT_SUCCESS, Some ABT_FALSE)) (polling ABT_SCHED_BASIC).
Proof.
  eapply wp_mono; [eapply (has_to_stop_spec (polling ABT_SCHED_BASIC) queues 2000 (new_sched ABT_SCHED_BASIC [257; 256]));
    [apply polling_hold|lia|reflexivity|apply polling_known|simpl; lia|]|].
  - intros p l po [->|[->|[]%elem_of_nil]%elem_of_cons]%elem_of_cons Hl Hp; vm_compute in Hl, Hp; simplify_eq;
      vm_compute; split; reflexivity.
  - intros r w' [-> ->]. split; [done|]. vm_compute. reflexivity.
Defined.

(** ** Creation and destruction *)

(** Pool 257, and a null handle to be filled. *)
Lemma sched_create_basic_spec_witness :
  wp (ABT_sched_create_basic ABT_SCHED_BASIC_WAIT 2 (Some [257; ABT_POOL_NULL]) ABT_SCHED_CONFIG_NULL 4096)
    (λ r w', ∃ s cs, r = (ABT_SUCCESS, Some (s, Some (fill [257; ABT_POOL_NULL] cs ++ []))) ∧
      length cs = 1%nat ∧ pools_hold w' (empties cs ∪ (<[257 := []]> (<[256 := []]> ∅)))) two_pools.
Proof.
  eapply wp_mono; [eapply (sched_create_basic_spec two_pools _ ABT_SCHED_BASIC_WAIT 2
    (Some [257; ABT_POOL_NULL]) ABT_SCHED_CONFIG_NULL 4096);
    [apply two_pools_hold|by left| |vm_compute; discriminate]|].
  - intros a [= <-]. split; [simpl; lia|].
    intros h [->|[->|[]%elem_of_nil]%elem_of_cons]%elem_of_cons; [right; eexists; reflexivity|by left].
  - intros r w' Hr. destruct Hr as (s & cs & Hr & _ & _ & _ & Hh & Hl & _). exists s, cs. done.
Defined.

Definition one_sched (use : option ptr) : world :=
  two_pools <| w_scheds := {[2000 := new_sched ABT_SCHED_BASIC [256] <| used_by := use |>]} |>.
Lemma one_sched_hold use : pools_hold (one_sched use) (<[257 := []]> (<[256 := []]> ∅)).
Proof. apply holds_scheds, two_pools_hold. Qed.
Lemma sched_free_spec_witness :
  wp (ABT_sched_free 4096 2000) (λ r w', r = (ABT_SUCCESS, Some ABT_SCHED_NULL) ∧
    w_scheds w' = delete 2000 (w_scheds (one_sched None))) (one_sched None) ∧
  wp (ABT_sched_free 4096 2000) (λ r w', r = (ABT_ERR_INV_SCHED, None)) (one_sched (Some 3000)).
Proof.
  split; (eapply wp_mono; [eapply (sched_free_spec (one_sched _) _ 2000 _ 4096);
    [apply one_sched_hold|done|lia|lia|reflexivity|done|apply NoDup_singleton|]|]);
    try (by intros r w' (? & ? & ? & ?)); try (by intros r w' (? & ?));
    intros p ->%list_elem_of_singleton; (split; [by eexists|vm_compute; reflexivity]).
Defined.

Lemma sched_create_free_witness :
  wp (r ← ABT_sched_create_basic ABT_SCHED_PRIO 0 None ABT_SCHED_CONFIG_NULL 4096;
      match r.2 with
      | Some (s, _) => ABT_sched_free 4096 s
      | None => err r.1
      end) (λ r w', r = (ABT_SUCCESS, Some ABT_SCHED_NULL) ∧
        pools_hold w' (<[257 := []]> (<[256 := []]> ∅)) ∧
        w_scheds w' = w_scheds two_pools ∧ w_pools w' = w_pools two_pools) two_pools.
Proof.
  apply (sched_create_free two_pools _ ABT_SCHED_PRIO 4096 4096);
    [apply two_pools_hold|done|lia|lia|vm_compute; discriminate|done|vm_compute; reflexivity].
Defined.

(** A configuration that asks for an automatic scheduler. *)
Definition auto_config : world :=
  two_pools <| w_sconfigs := {[512 := {[ -3 := mk_val ABT_SCHED_CONFIG_INT ABT_TRUE 0 0 ]}]} |>.
Lemma auto_config_hold : pools_hold auto_config (<[257 := []]> (<[256 := []]> ∅)).
Proof. apply holds_sconfigs, two_pools_hold. Qed.
Lemma sched_create_user_spec_witness :
  wp (ABT_sched_create (Some (mk_sched_def None (Some 9) None)) 0 None 512 4096) (λ r w', ∃ s o,
    r = (ABT_SUCCESS, Some (s, None)) ∧ w_scheds w' !! s = Some o ∧ s_config o = 512 ∧
    s_automatic o = ABT_FALSE) auto_config.
Proof.
  eapply wp_mono; [eapply (sched_create_user_spec auto_config _ (mk_sched_def None (Some 9) None) 0 None 512 4096);
    [apply auto_config_hold|done|lia|done|lia|done|done]|].
  intros r w' (s & o & cs & -> & Hs & _ & _ & _ & ? & ? & _). exists s, o.
  split_and!; [done| |done|done]. rewrite Hs. apply lookup_insert_eq.
Defined.

Lemma sched_get_pools_slice_witness :
  wp (ABT_sched_get_pools 2000 1 1) (λ r w', w' = polling ABT_SCHED_BASIC ∧ r = (ABT_SUCCESS, Some [256]))
    (polling ABT_SCHED_BASIC).
Proof.
  apply (sched_get_pools_slice (polling ABT_SCHED_BASIC) 2000 (new_sched ABT_SCHED_BASIC [257; 256]) 1 1);
    [lia|reflexivity|simpl; lia|lia].
Defined.
Lemma sched_get_pools_overflow_witness :
  ABT_sched_get_pools 2000 (2 ^ 31 - 1) 2 (polling ABT_SCHED_BASIC) = Faulted BadDeref.
Proof.
  apply (sched_get_pools_overflow (polling ABT_SCHED_BASIC) 2000 (new_sched ABT_SCHED_BASIC [257; 256]));
    [lia|reflexivity|simpl; lia].
Defined.
