(* ===== verification/Waitlist.v ===== *)
(** * Wait lists

    [ABTI_waiter] and [ABTI_waitlist] of src/sync.cpp: the singly linked list of
    waiter records, each on the stack of the thread that waits.  [wl_push],
    [wl_pop] and [wl_remove] run with the object's spinlock held; they are
    related here to operations on lists. *)

From S2P Require Import Prelude.

(** ** Data *)

Record ABTI_waiter : Type := mk_waiter {
  w_thread : option Z;
  signaled : bool;
  w_next : option ptr;
}.
#[global] Instance eta_waiter : Eta ABTI_waiter := λ w, mk_waiter (w_thread w) (signaled w) (w_next w).

Record ABTI_waitlist : Type := mk_waitlist {
  wl_head : option ptr;
  wl_tail : option ptr;
}.
#[global] Instance eta_waitlist : Eta ABTI_waitlist := λ l, mk_waitlist (wl_head l) (wl_tail l).

(** The waiter records, and the list an operation works on. *)
Record wst : Type := mk_wst {
  wheap : gmap Z ABTI_waiter;
  wl : ABTI_waitlist;
}.
#[global] Instance eta_wst : Eta wst := λ s, mk_wst (wheap s) (wl s).

Definition waiter (w : ptr) : M wst ABTI_waiter := λ s,
  match wheap s !! w with Some x => Done x s | None => Faulted BadDeref end.
Definition set_waiter (w : ptr) (f : ABTI_waiter → ABTI_waiter) : M wst unit := λ s,
  match wheap s !! w with
  | Some x => Done tt (mk_wst (<[w := f x]> (wheap s)) (wl s))
  | None => Faulted BadDeref
  end.
Definition set_wl (f : ABTI_waitlist → ABTI_waitlist) : M wst unit :=
  modify (λ s, mk_wst (wheap s) (f (wl s))).

(** ** Operations *)

Definition wl_push (w : ptr) : M wst unit :=
  set_waiter w (λ x, x <| w_next := None |>) ;;
  l ← gets wl;
  (match wl_tail l with
   | Some t => set_waiter t (λ x, x <| w_next := Some w |>)
   | None => set_wl (λ l, l <| wl_head := Some w |>)
   end) ;;
  set_wl (λ l, l <| wl_tail := Some w |>).

Definition wl_pop : M wst (option ptr) :=
  l ← gets wl;
  match wl_head l with
  | None => mret None
  | Some w =>
      x ← waiter w;
      set_wl (λ l, l <| wl_head := w_next x |>) ;;
      l ← gets wl;
      when (is_null (wl_head l)) (set_wl (λ l, l <| wl_tail := None |>)) ;;
      mret (Some w)
  end.

(** [for (c = wl.head; c; prev = c, c = c->next)] *)
Fixpoint wl_remove_from (fuel : nat) (prev c : option ptr) (w : ptr) : M wst bool :=
  match c with
  | None => mret false
  | Some a =>
      match fuel with
      | O => fail OutOfFuel
      | S fuel =>
          x ← waiter a;
          if decide (a ≠ w) then wl_remove_from fuel (Some a) (w_next x) w else
          (match prev with
           | Some p => set_waiter p (λ y, y <| w_next := w_next x |>)
           | None => set_wl (λ l, l <| wl_head := w_next x |>)
           end) ;;
          l ← gets wl;
          when (bool_decide (wl_tail l = Some a)) (set_wl (λ l, l <| wl_tail := prev |>)) ;;
          mret true
      end
  end.
(** A list has no more nodes than there are waiter records. *)
Definition wl_remove (w : ptr) : M wst bool :=
  s ← get;
  wl_remove_from (S (size (wheap s))) None (wl_head (wl s)) w.

(** ** Representation *)

(** The waiters [l] are linked in this order from [c] and end in null. *)
Fixpoint wchain (h : gmap Z ABTI_waiter) (c : option ptr) (l : list ptr) : Prop :=
  match l with
  | [] => c = None
  | w :: l' => c = Some w ∧ ∃ x, h !! w = Some x ∧ wchain h (w_next x) l'
  end.

Record wl_rep (h : gmap Z ABTI_waiter) (q : ABTI_waitlist) (l : list ptr) : Prop := {
  wr_chain : wchain h (wl_head q) l;
  wr_tail : wl_tail q = last l;
  wr_nodup : NoDup l;
}.

Section waitlist.
Implicit Types (h : gmap Z ABTI_waiter) (l : list ptr) (w : ptr).

Lemma wp_waiter w x Q s : wheap s !! w = Some x → Q x s → wp (waiter w) Q s.
Proof. unfold wp, waiter. by intros ->. Qed.
Lemma wp_set_waiter w x f (Q : unit → wst → Prop) s :
  wheap s !! w = Some x → Q tt (mk_wst (<[w := f x]> (wheap s)) (wl s)) → wp (set_waiter w f) Q s.
Proof. unfold wp, set_waiter. by intros ->. Qed.
Lemma wp_set_wl f (Q : unit → wst → Prop) s : Q tt (mk_wst (wheap s) (f (wl s))) → wp (set_wl f) Q s.
Proof. done. Qed.

Lemma wchain_frame h h' c l :
  (∀ w, w ∈ l → w_next <$> h' !! w = w_next <$> h !! w) → wchain h c l → wchain h' c l.
Proof.
  revert c. induction l as [|w l IH]; intros c Heq; [done|]. intros [-> (x & Hx & Hc)].
  split; [done|]. pose proof (Heq w ltac:(set_solver)) as Hw. rewrite Hx in Hw.
  destruct (h' !! w) as [y|]; [|done]. simpl in Hw. exists y. split; [done|].
  apply (inj Some) in Hw. rewrite Hw. apply IH; [set_solver|done].
Qed.
Lemma wchain_live h c l w : wchain h c l → w ∈ l → is_Some (h !! w).
Proof.
  revert c. induction l as [|a l IH]; intros c; [set_solver|]. intros [-> (x & Hx & Hc)].
  intros [->|?]%elem_of_cons; eauto.
Qed.
(** Appending a node to a chain whose last node was the tail. *)
Lemma wchain_snoc h c l t w x y :
  wchain h c (l ++ [t]) → t ∉ l → w ∉ l ++ [t] → h !! t = Some x → h !! w = Some y →
  w_next y = None →
  wchain (<[t := x <| w_next := Some w |>]> h) c (l ++ [t; w]).
Proof.
  revert c. induction l as [|a l IH]; intros c; simpl.
  - intros [-> (x' & Hx' & Hn)] _ Hw Hx Hy Hyn. split; [done|]. eexists.
    rewrite lookup_insert_eq. split; [done|]. simpl. split; [done|]. exists y.
    rewrite lookup_insert_ne by set_solver. done.
  - intros [-> (x' & Hx' & Hc)] Ht Hw Hx Hy Hyn. split; [done|]. exists x'.
    rewrite lookup_insert_ne by set_solver. split; [done|]. apply IH; set_solver.
Qed.

(** Only [w_next] fields of listed waiters change. *)
Definition next_frame (c : list ptr) h h' : Prop :=
  (∀ w, w ∉ c → h' !! w = h !! w) ∧
  (∀ w, (λ x, (w_thread x, signaled x)) <$> h' !! w = (λ x, (w_thread x, signaled x)) <$> h !! w).
Lemma next_frame_refl c h : next_frame c h h.
Proof. by split. Qed.
Lemma next_frame_trans c h1 h2 h3 : next_frame c h1 h2 → next_frame c h2 h3 → next_frame c h1 h3.
Proof. intros [A1 B1] [A2 B2]. split; intros; [by rewrite A2, A1|by rewrite B2, B1]. Qed.
Lemma next_frame_set c h w x n :
  h !! w = Some x → w ∈ c → next_frame c h (<[w := x <| w_next := n |>]> h).
Proof.
  intros Hx Hw. split; intros w' .
  - intros ?. apply lookup_insert_ne. set_solver.
  - destruct (decide (w = w')) as [<-|]; [by rewrite lookup_insert_eq, Hx|by rewrite lookup_insert_ne].
Qed.

Lemma wl_push_spec w x l s :
  wl_rep (wheap s) (wl s) l → w ∉ l → wheap s !! w = Some x →
  wp (wl_push w) (λ _ s', wl_rep (wheap s') (wl s') (l ++ [w]) ∧
    next_frame (l ++ [w]) (wheap s) (wheap s')) s.
Proof.
  intros [Hc Ht Hnd] Hw Hx. unfold wl_push. wp_step. eapply wp_set_waiter; [done|].
  set (h1 := <[w := x <| w_next := None |>]> (wheap s)).
  assert (next_frame (l ++ [w]) (wheap s) h1) as F1 by (apply next_frame_set; [done|set_solver]).
  assert (wchain h1 (wl_head (wl s)) l) as Hc1.
  { eapply wchain_frame; [|exact Hc]. intros a Ha. unfold h1. rewrite lookup_insert_ne; [done|set_solver]. }
  assert (h1 !! w = Some (x <| w_next := None |>)) as Hw1 by apply lookup_insert_eq.
  assert (NoDup (l ++ [w])) as Hnd'.
  { apply NoDup_app. split_and!; [done|set_solver|apply NoDup_singleton]. }
  wp_step. wp_step. simpl. wp_step. rewrite Ht.
  destruct l as [|t l _] using rev_ind; simpl.
  - apply wp_set_wl. apply wp_set_wl. simpl. split; [|done]. split; [|done|done]. simpl.
    split; [done|]. by eexists.
  - rewrite last_snoc. destruct (wchain_live _ _ _ t Hc1) as [y Hy]; [set_solver|].
    eapply wp_set_waiter; [exact Hy|]. apply wp_set_wl. simpl. split; [split|].
    + simpl. rewrite <-app_assoc. eapply wchain_snoc; [exact Hc1| |done|done|exact Hw1|done].
      apply NoDup_app in Hnd as (_ & Hd & _). intros Htl. apply (Hd t); set_solver.
    + by rewrite last_snoc.
    + done.
    + eapply next_frame_trans; [exact F1|]. apply next_frame_set; [done|set_solver].
Qed.

Lemma wl_pop_spec l s :
  wl_rep (wheap s) (wl s) l →
  wp wl_pop (λ r s', r = head l ∧ wl_rep (wheap s') (wl s') (tail l) ∧ wheap s' = wheap s) s.
Proof.
  intros [Hc Ht Hnd]. unfold wl_pop. wp_step. wp_step. destruct l as [|w l]; simpl in Hc.
  { rewrite Hc. by wp_step. }
  destruct Hc as [-> (x & Hx & Hc)]. wp_step. eapply wp_waiter; [done|]. wp_step.
  apply wp_set_wl. wp_step. wp_step. wp_step. simpl. apply NoDup_cons in Hnd as [_ Hnd].
  destruct l as [|w' l]; simpl in Hc.
  - rewrite Hc. simpl. apply wp_set_wl. wp_step. done.
  - destruct Hc as [Hn Hc]. rewrite Hn. simpl. wp_step. wp_step.
    split_and!; [done| |done]. split; simpl; [done|done|done].
Qed.

Lemma wchain_app h c l1 l2 :
  wchain h c (l1 ++ l2) →
  ∃ c2, wchain h c2 l2 ∧
    match last l1 with
    | None => c2 = c
    | Some p => ∃ x, h !! p = Some x ∧ w_next x = c2
    end.
Proof.
  revert c. induction l1 as [|a l1 IH]; intros c; [simpl; eauto|].
  intros [-> (x & Hx & Hc)]. destruct (IH _ Hc) as (c2 & Hc2 & Hl). exists c2. split; [done|].
  rewrite last_cons. destruct (last l1); [done|]. subst. eauto.
Qed.
(** Relinking the last node of [l1] past [w]. *)
Lemma wchain_skip h c l1 p w l2 x n :
  wchain h c ((l1 ++ [p]) ++ w :: l2) → NoDup ((l1 ++ [p]) ++ w :: l2) →
  h !! p = Some x → wchain h n l2 →
  wchain (<[p := x <| w_next := n |>]> h) c ((l1 ++ [p]) ++ l2).
Proof.
  revert c. induction l1 as [|a l1 IH]; intros c; simpl.
  - intros [-> (x' & Hx' & _)] [Hp _]%NoDup_cons Hx Hn. split; [done|]. eexists.
    rewrite lookup_insert_eq. split; [done|]. simpl. eapply wchain_frame; [|exact Hn].
    intros a Ha. rewrite lookup_insert_ne; [done|]. set_solver.
  - intros [-> (x' & Hx' & Hc)] [Ha Hnd]%NoDup_cons Hx Hn. split; [done|]. exists x'.
    rewrite lookup_insert_ne by set_solver. split; [done|]. by apply IH.
Qed.

Lemma wl_remove_from_spec fuel w l1 l2 c s :
  wl_rep (wheap s) (wl s) (l1 ++ l2) → w ∉ l1 → wchain (wheap s) c l2 → (length l2 < fuel)%nat →
  wp (wl_remove_from fuel (last l1) c w) (λ r s', r = bool_decide (w ∈ l2) ∧
    wl_rep (wheap s') (wl s') (l1 ++ filter (λ a, a ≠ w) l2) ∧
    next_frame (l1 ++ l2) (wheap s) (wheap s')) s.
Proof.
  revert l1 l2 c. induction fuel as [|fuel IH]; intros l1 l2 c Hr Hw Hc Hf; [lia|].
  destruct l2 as [|a l2]; cbn [wchain] in Hc.
  { rewrite Hc. cbn [wl_remove_from]. wp_step. split_and!; [done|done|apply next_frame_refl]. }
  destruct Hc as [-> (x & Hx & Hc)]. cbn [wl_remove_from]. wp_step. eapply wp_waiter; [done|].
  pose proof (wr_nodup _ _ _ Hr) as Hnd. apply NoDup_app in Hnd as (Hn1 & Hd & [Ha Hn2]%NoDup_cons).
  destruct (decide (a ≠ w)) as [Hne|Heq].
  - rewrite <-(last_snoc a l1). eapply wp_mono.
    + apply (IH (l1 ++ [a]) l2); [by rewrite <-app_assoc|set_solver|done|simpl in *; lia].
    + intros r s' (-> & Hr' & F). rewrite <-app_assoc in Hr', F. rewrite filter_cons_True by done.
      split_and!; [|done|done]. apply bool_decide_ext. set_solver.
  - apply dec_stable in Heq as ->. rewrite bool_decide_true by set_solver.
    rewrite filter_cons_False by naive_solver. rewrite (filter_all _ l2) by set_solver.
    destruct Hr as [Hch Htl Hnd].
    assert (NoDup (l1 ++ l2)) as Hnd' by (apply NoDup_app; split_and!; [done|set_solver|done]).
    assert (∀ s1, wheap s1 = match last l1 with
        | Some p => from_option (λ y, <[p := y <| w_next := w_next x |>]> (wheap s)) (wheap s) (wheap s !! p)
        | None => wheap s end →
      wl_head (wl s1) = match last l1 with Some _ => wl_head (wl s) | None => w_next x end →
      wl_tail (wl s1) = wl_tail (wl s) →
      wp (q ← gets wl;
          when (bool_decide (wl_tail q = Some w)) (set_wl (λ q, q <| wl_tail := last l1 |>)) ;;
          mret true)
        (λ r s', r = true ∧ wl_rep (wheap s') (wl s') (l1 ++ l2) ∧
          next_frame (l1 ++ w :: l2) (wheap s) (wheap s')) s1) as Hfin.
    { intros s1 Eh Ehd Etl.
      assert (wchain (wheap s1) (wl_head (wl s1)) (l1 ++ l2)) as Hc1.
      { rewrite Eh, Ehd. destruct l1 as [|p l1 _] using rev_ind; [exact Hc|]. rewrite last_snoc.
        destruct (wchain_live _ _ _ p Hch) as [y Hy]; [set_solver|]. rewrite Hy. simpl.
        by eapply wchain_skip. }
      assert (next_frame (l1 ++ w :: l2) (wheap s) (wheap s1)) as F.
      { rewrite Eh. destruct (last l1) as [p|] eqn:Hp; [|apply next_frame_refl].
        destruct (wheap s !! p) as [y|] eqn:Hy; [|apply next_frame_refl].
        apply next_frame_set; [done|]. apply last_Some in Hp as [l' ->]. set_solver. }
      wp_step. wp_step. wp_step. rewrite Etl, Htl.
      destruct l2 as [|b l2 _] using rev_ind.
      - rewrite last_snoc, bool_decide_true by done. unfold when. apply wp_set_wl. wp_step.
        split_and!; [done| |done]. split; simpl; rewrite ?app_nil_r in *; done.
      - rewrite app_comm_cons, app_assoc, last_snoc.
        rewrite bool_decide_false by (intros [= ->]; set_solver). unfold when. wp_step. wp_step.
        split_and!; [done| |by rewrite <-app_assoc]. split; [done| |done].
        rewrite Etl, Htl. by rewrite app_comm_cons, !app_assoc, !last_snoc. }
    destruct (wchain_app _ _ _ _ Hch) as (c2 & _ & Hlast).
    destruct (last l1) as [p|] eqn:Hp; wp_step.
    + destruct Hlast as (y & Hy & _). eapply wp_set_waiter; [done|].
      apply Hfin; simpl; [by rewrite Hy|done|done].
    + apply wp_set_wl. apply Hfin; done.
Qed.

Lemma wl_remove_spec w l s :
  wl_rep (wheap s) (wl s) l →
  wp (wl_remove w) (λ r s', r = bool_decide (w ∈ l) ∧
    wl_rep (wheap s') (wl s') (filter (λ a, a ≠ w) l) ∧
    next_frame l (wheap s) (wheap s')) s.
Proof.
  intros Hr. unfold wl_remove. wp_step. wp_step.
  apply (wl_remove_from_spec _ w [] l); [done|set_solver|apply Hr|].
  apply Nat.lt_succ_r. rewrite <-(size_list_to_set (C := gset Z) l) by apply Hr.
  rewrite <-size_dom. apply subseteq_size. intros a. rewrite elem_of_list_to_set, elem_of_dom.
  intros Ha. by eapply wchain_live; [apply Hr|].
Qed.
End waitlist.
