(* ===== verification/Sync.v ===== *)
(** * Mutexes, condition variables and eventuals

    The blocking primitives of src/sync.cpp as a machine that interleaves any
    number of threads.  A call is a list of atomic instructions: taking or
    releasing an object's spinlock, one critical section under it, suspending,
    one look at a waiter record, one wake-up.  A step runs the first
    instruction of one thread, which is replaced by what the code does next.
    Between two instructions any other thread may run; a critical section is
    one instruction because its spinlock is held.

    A waiter record is a local variable of the call.  A timed wait gives it up
    ([IFree]) where the call returns, after it has locked the mutex again.  An
    untimed wait gives it up as soon as it has seen [signaled], which is earlier
    than the code where a condition variable then locks the mutex again
    (sync.cpp:202-209): a use of a record that is gone in the code is one in
    the machine.

    The Converse threads that a ULT runs on belong to the Reconverse runtime:
    [Cth] is what the code calls, [CthLaws] what it relies on.  The awaken
    callback of a thread that is awakened touches no object of this file: it is in
    [Thread] and [Run] ([ABTI_thread_awaken_fn]). *)

From stdpp Require Import countable.
From S2P Require Import Prelude AbtTypes Objects Waitlist.

(** ** The runtime *)

Class Cth : Type := {
  cth_st : Type;
  is_blocked : Z → cth_st → bool;
  (** suspend thread [t] and mark it blocked *)
  CthSuspendBlocked : Z → cth_st → cth_st;
  (** make thread [t] runnable if it is blocked *)
  CthAwakenIfBlocked : Z → cth_st → cth_st;
}.
Class CthLaws `{Cth} : Prop := {
  suspend_blocks t s : is_blocked t (CthSuspendBlocked t s) = true;
  suspend_other t t' s : t ≠ t' → is_blocked t' (CthSuspendBlocked t s) = is_blocked t' s;
  awaken_runs t s : is_blocked t (CthAwakenIfBlocked t s) = false;
  awaken_other t t' s : t ≠ t' → is_blocked t' (CthAwakenIfBlocked t s) = is_blocked t' s;
}.

(** ** Objects

    The [slock] and [wl] fields of every object are kept in two maps of the
    machine, under the object they belong to. *)

Record ABTI_mutex : Type := mk_mutex {
  m_attrs : Z;
  m_locked : bool;
  m_nesting : Z;
  m_owner : Z;
}.
#[global] Instance eta_mutex : Eta ABTI_mutex := λ m,
  mk_mutex (m_attrs m) (m_locked m) (m_nesting m) (m_owner m).
Record ABTI_cond : Type := mk_cond { c_mutex : option ptr }.
Record ABTI_eventual : Type := mk_eventual {
  e_ready : bool;
  e_nbytes : Z;
  e_value : Z;
  (** the bytes [e_value] points to *)
  e_buf : list Z;
}.
#[global] Instance eta_eventual : Eta ABTI_eventual := λ e,
  mk_eventual (e_ready e) (e_nbytes e) (e_value e) (e_buf e).

Inductive lockref : Type :=
  | LM (m : ptr)
  | LC (c : ptr)
  | LE (e : ptr).
#[global] Instance lockref_eq_dec : EqDecision lockref.
Proof. solve_decision. Defined.
#[global] Instance lockref_countable : Countable lockref.
Proof.
  refine (inj_countable'
    (λ l, match l with LM m => inl m | LC c => inr (inl c) | LE e => inr (inr e) end)
    (λ x, match x with inl m => LM m | inr (inl c) => LC c | inr (inr e) => LE e end) _).
  by intros [].
Defined.

(** ** Instructions *)

#[local] Set Warnings "-register-all".
Inductive instr : Type :=
  | IAcquire (l : lockref)
  | IRelease (l : lockref)
  (** critical sections *)
  | IMutexBody (m : ptr) (spin_only : bool)
  | ITryBody (m : ptr)
  | IUnlockBody (m : ptr)
  | ICondEnter (c m : ptr) (timed : bool) (ok bad late : list instr)
  | ISignalBody (c : ptr)
  | IBroadcastBody (c : ptr)
  | IEventEnter (e : ptr) (timed : bool)
  | ISetBody (e : ptr) (value : option (list Z)) (nbytes : Z)
  | IResetBody (e : ptr)
  | ITestBody (e : ptr)
  (** waiting: [wait_on], [wait_on_timed] *)
  | IWait (w : ptr) (l : lockref)
  | IResume (w : ptr)
  | IPoll (w : ptr)
  | ITimed (w : ptr) (l : lockref) (yes no : list instr)
  | ITimedOut (w : ptr) (l : lockref) (yes no : list instr)
  | IFree (w : ptr)
  (** waking: [wake] and the walk over a detached list *)
  | IWake (w : ptr)
  | IAwaken (t : Z)
  | IWalk (list : option ptr)
  | IRet (code : Z) (out : option Z).

(** A thread that uses the objects: a ULT that can block, or an external
    thread or tasklet that cannot.  [a_held] are the mutexes it has locked and
    not unlocked, innermost first. *)
Record agent : Type := mk_agent {
  a_ult : bool;
  a_id : Z;
  a_stack : list instr;
  a_held : list ptr;
  a_ret : option (Z * option Z);
}.
#[global] Instance eta_agent : Eta agent := λ a,
  mk_agent (a_ult a) (a_id a) (a_stack a) (a_held a) (a_ret a).

(** [self_id]: the id of the ABT thread, and of any other thread its
    [pthread_self()] with the top bit set. *)
Definition self_id (self : option Z) (pthread_self : Z) : Z :=
  match self with Some id => id | None => Z.lor (wrapu64 pthread_self) (Z.shiftl 1 63) end.

Record sst `{Cth} : Type := mk_sst {
  mutexes : gmap Z ABTI_mutex;
  conds : gmap Z ABTI_cond;
  events : gmap Z ABTI_eventual;
  slocks : gmap lockref bool;
  wls : gmap lockref ABTI_waitlist;
  waiters : gmap Z ABTI_waiter;
  s_brk : Z;
  agents : gmap Z agent;
  cst : cth_st;
}.
Arguments sst {_}.

Section machine.
Context `{Cth}.

#[global] Instance eta_sst : Eta sst := λ s,
  mk_sst _ (mutexes s) (conds s) (events s) (slocks s) (wls s) (waiters s) (s_brk s) (agents s) (cst s).

(** ** Accesses *)

Definition lookup_in {K A} `{Countable K} (f : sst → gmap K A) (k : K) : M sst A := λ s,
  match f s !! k with Some x => Done x s | None => Faulted BadDeref end.
Definition set_mutex (m : ptr) (f : ABTI_mutex → ABTI_mutex) : M sst unit :=
  o ← lookup_in mutexes m; modify (λ s, s <| mutexes ::= insert m (f o) |>).
Definition set_event (e : ptr) (f : ABTI_eventual → ABTI_eventual) : M sst unit :=
  o ← lookup_in events e; modify (λ s, s <| events ::= insert e (f o) |>).
Definition set_slock (l : lockref) (b : bool) : M sst unit :=
  modify (λ s, s <| slocks ::= insert l b |>).
Definition set_held (a : Z) (f : list ptr → list ptr) : M sst unit :=
  x ← lookup_in agents a; modify (λ s, s <| agents ::= insert a (x <| a_held ::= f |>) |>).
(** an operation on the wait list of object [l] *)
Definition on_wl {A} (l : lockref) (m : M wst A) : M sst A := λ s,
  match wls s !! l with
  | None => Faulted BadDeref
  | Some q =>
      match m (mk_wst (waiters s) q) with
      | Faulted f => Faulted f
      | Done a s' => Done a (s <| waiters := wheap s' |> <| wls ::= insert l (wl s') |>)
      end
  end.
(** [ABTI_waiter w{can_block ? self->cth : nullptr, {0}, nullptr}; wl_push(wl, &w);] *)
Definition enqueue (a : Z) (l : lockref) : M sst ptr :=
  x ← lookup_in agents a;
  w ← gets s_brk;
  modify (λ s, s <| s_brk ::= Z.succ |>
    <| waiters ::= insert w (mk_waiter (if a_ult x then Some a else None) false None) |>) ;;
  on_wl l (wl_push w) ;;
  mret w.
Definition free_waiter (w : ptr) : M sst unit :=
  lookup_in waiters w ;; modify (λ s, s <| waiters ::= delete w |>).
(** [list = wl.head; wl.head = wl.tail = nullptr;] *)
Definition detach_list (l : lockref) : M sst (option ptr) :=
  on_wl l (q ← gets wl; set_wl (λ _, mk_waitlist None None) ;; mret (wl_head q)).
Definition wake_code (w : option ptr) : list instr :=
  match w with Some w => [IWake w] | None => [] end.

(** ** The calls *)

Definition lock_code (m : ptr) (spin_only : bool) : list instr :=
  [IAcquire (LM m); IMutexBody m spin_only].
Definition unlock_code (m : ptr) : list instr := [IAcquire (LM m); IUnlockBody m].

Inductive op : Type :=
  | ABT_mutex_lock (m : Z)
  | ABT_mutex_spinlock (m : Z)
  | ABT_mutex_trylock (m : Z)
  | ABT_mutex_unlock (m : Z)
  | ABT_cond_wait (c m : Z)
  | ABT_cond_timedwait (c m : Z)
  | ABT_cond_signal (c : Z)
  | ABT_cond_broadcast (c : Z)
  | ABT_eventual_wait (e : Z)
  | ABT_eventual_timedwait (e : Z)
  | ABT_eventual_set (e : Z) (value : option (list Z)) (nbytes : Z)
  | ABT_eventual_test (e : Z)
  | ABT_eventual_reset (e : Z).
(** the other names of unlocking *)
Definition ABT_mutex_unlock_se (mutex : Z) : op := ABT_mutex_unlock mutex.
Definition ABT_mutex_unlock_de (mutex : Z) : op := ABT_mutex_unlock mutex.

Definition ret (c : Z) : list instr := [IRet c None].
(** [ABTI_CHECK_NULL(h, e)] *)
Definition checked (h e : Z) (k : list instr) : list instr :=
  if ABTI_is_null_handle h then ret e else k.
Definition cond_wait_impl (c m : ptr) (timed : bool) : list instr :=
  [IAcquire (LC c); ICondEnter c m timed (ret ABT_SUCCESS) (ret ABT_ERR_INV_MUTEX)
    (ret ABT_ERR_COND_TIMEDOUT)].

Definition code (o : op) : list instr :=
  match o with
  | ABT_mutex_lock m => checked m ABT_ERR_INV_MUTEX (lock_code m false ++ ret ABT_SUCCESS)
  | ABT_mutex_spinlock m => checked m ABT_ERR_INV_MUTEX (lock_code m true ++ ret ABT_SUCCESS)
  | ABT_mutex_trylock m => checked m ABT_ERR_INV_MUTEX [IAcquire (LM m); ITryBody m]
  | ABT_mutex_unlock m => checked m ABT_ERR_INV_MUTEX (unlock_code m ++ ret ABT_SUCCESS)
  | ABT_cond_wait c m =>
      checked c ABT_ERR_INV_COND (checked m ABT_ERR_INV_MUTEX (cond_wait_impl c m false))
  | ABT_cond_timedwait c m =>
      checked c ABT_ERR_INV_COND (checked m ABT_ERR_INV_MUTEX (cond_wait_impl c m true))
  | ABT_cond_signal c =>
      checked c ABT_ERR_INV_COND ([IAcquire (LC c); ISignalBody c] ++ ret ABT_SUCCESS)
  | ABT_cond_broadcast c =>
      checked c ABT_ERR_INV_COND ([IAcquire (LC c); IBroadcastBody c] ++ ret ABT_SUCCESS)
  | ABT_eventual_wait e => checked e ABT_ERR_INV_EVENTUAL [IAcquire (LE e); IEventEnter e false]
  | ABT_eventual_timedwait e => checked e ABT_ERR_INV_EVENTUAL [IAcquire (LE e); IEventEnter e true]
  | ABT_eventual_set e v n => checked e ABT_ERR_INV_EVENTUAL [IAcquire (LE e); ISetBody e v n]
  | ABT_eventual_test e => checked e ABT_ERR_INV_EVENTUAL [IAcquire (LE e); ITestBody e]
  | ABT_eventual_reset e =>
      checked e ABT_ERR_INV_EVENTUAL ([IAcquire (LE e); IResetBody e] ++ ret ABT_SUCCESS)
  end.

(** ** Execution *)

(** [while (!l.exchange(1))]: the only instruction that waits for another
    thread without being suspended. *)
Definition enabled (i : instr) (s : sst) : bool :=
  match i with IAcquire l => negb (default false (slocks s !! l)) | _ => true end.

(** The lock attempt of [mutex_lock] and [ABT_mutex_trylock]: whether the
    caller has the mutex now. *)
Definition try_lock (a : Z) (m : ptr) : M sst bool :=
  x ← lookup_in agents a;
  o ← lookup_in mutexes m;
  if negb (m_locked o) then
    set_mutex m (λ o, o <| m_locked := true |> <| m_owner := a_id x |> <| m_nesting := 0 |>) ;;
    set_held a (cons m) ;; mret true
  else if truthy (Z.land (m_attrs o) 1) && (m_owner o =? a_id x) then
    set_mutex m (λ o, o <| m_nesting ::= Z.succ |>) ;; set_held a (cons m) ;; mret true
  else mret false.

Fixpoint drop_first (m : ptr) (l : list ptr) : list ptr :=
  match l with [] => [] | x :: l => if decide (x = m) then l else x :: drop_first m l end.

(** The critical sections and waits of the calls, for agent [a]: each gives the
    instructions that come next. *)
Definition mutex_lock_body (a : Z) (m : ptr) (spin_only : bool) : M sst (list instr) :=
  got ← try_lock a m;
  if (got : bool) then mret [IRelease (LM m)]
  else if spin_only then mret (IRelease (LM m) :: lock_code m spin_only)
  else w ← enqueue a (LM m); mret (IWait w (LM m) :: lock_code m spin_only).
Definition trylock_body (a : Z) (m : ptr) : M sst (list instr) :=
  got ← try_lock a m;
  mret (IRelease (LM m) :: ret (if (got : bool) then ABT_SUCCESS else ABT_ERR_MUTEX_LOCKED)).
Definition unlock_body (a : Z) (m : ptr) : M sst (list instr) :=
  o ← lookup_in mutexes m;
  set_held a (drop_first m) ;;
  if m_nesting o >? 0 then
    set_mutex m (λ o, o <| m_nesting ::= Z.pred |>) ;; mret [IRelease (LM m)]
  else
    set_mutex m (λ o, o <| m_locked := false |> <| m_owner := 0 |>) ;;
    w ← on_wl (LM m) wl_pop;
    mret (IRelease (LM m) :: wake_code w).

Definition cond_enter (a : Z) (c m : ptr) (timed : bool) (ok bad late : list instr) : M sst (list instr) :=
  o ← lookup_in conds c;
  let go :=
    w ← enqueue a (LC c);
    mret (unlock_code m ++
      (if timed then
         [IRelease (LC c);
          ITimed w (LC c) (lock_code m false ++ IFree w :: ok) (lock_code m false ++ IFree w :: late)]
       else IWait w (LC c) :: lock_code m false ++ ok)) in
  match c_mutex o with
  | None => modify (λ s, s <| conds ::= insert c (mk_cond (Some m)) |>) ;; go
  | Some m' => if decide (m' = m) then go else mret (IRelease (LC c) :: bad)
  end.
Definition signal_body (c : ptr) : M sst (list instr) :=
  w ← on_wl (LC c) wl_pop; mret (IRelease (LC c) :: wake_code w).
Definition broadcast_body (c : ptr) : M sst (list instr) :=
  l ← detach_list (LC c); mret [IRelease (LC c); IWalk l].

Definition event_enter (a : Z) (e : ptr) (timed : bool) : M sst (list instr) :=
  o ← lookup_in events e;
  let out := [IRet ABT_SUCCESS (Some (e_value o))] in
  if e_ready o then mret (IRelease (LE e) :: out) else
  w ← enqueue a (LE e);
  mret (if timed then [IRelease (LE e); ITimed w (LE e) (IFree w :: out) (IFree w :: ret ABT_ERR_COND_TIMEDOUT)]
        else IWait w (LE e) :: out).
Definition eventual_set_body (e : ptr) (value : option (list Z)) (nbytes : Z) : M sst (list instr) :=
  o ← lookup_in events e;
  if e_ready o then mret (IRelease (LE e) :: ret ABT_ERR_EVENTUAL) else
  if nbytes >? e_nbytes o then mret (IRelease (LE e) :: ret ABT_ERR_INV_EVENTUAL) else
  set_event e (λ o, o <| e_ready := true |> <| e_buf ::= λ b,
    match value with
    | Some v => if nbytes >? 0 then take (Z.to_nat nbytes) v ++ drop (Z.to_nat nbytes) b else b
    | None => b
    end |>) ;;
  l ← detach_list (LE e);
  mret (IRelease (LE e) :: IWalk l :: ret ABT_SUCCESS).
Definition eventual_reset_body (e : ptr) : M sst (list instr) :=
  set_event e (λ o, o <| e_ready := false |>) ;; mret [IRelease (LE e)].
Definition eventual_test_body (e : ptr) : M sst (list instr) :=
  o ← lookup_in events e;
  mret [IRelease (LE e); IRet ABT_SUCCESS (if e_ready o then Some (e_value o) else None)].

Definition wait_on (a : Z) (w : ptr) (l : lockref) : M sst (list instr) :=
  x ← lookup_in agents a;
  set_slock l false ;;
  if a_ult x then modify (λ s, s <| cst ::= CthSuspendBlocked a |>) ;; mret [IResume w]
  else mret [IPoll w].
Definition wait_poll (w : ptr) : M sst (list instr) :=
  x ← lookup_in waiters w;
  if signaled x then free_waiter w ;; mret [] else mret [IPoll w].
(** [expired]: the clock has reached the deadline. *)
Definition wait_on_timed (expired : bool) (w : ptr) (l : lockref) (yes no : list instr) : M sst (list instr) :=
  x ← lookup_in waiters w;
  if signaled x then mret yes
  else if expired then mret [IAcquire l; ITimedOut w l yes no]
  else mret [ITimed w l yes no].
Definition wait_timed_out (w : ptr) (l : lockref) (yes no : list instr) : M sst (list instr) :=
  x ← lookup_in waiters w;
  if signaled x then mret (IRelease l :: yes)
  else on_wl l (wl_remove w) ;; mret (IRelease l :: no).
Definition wake (w : ptr) : M sst (list instr) :=
  x ← lookup_in waiters w;
  modify (λ s, s <| waiters ::= insert w (x <| signaled := true |>) |>) ;;
  mret (match w_thread x with Some t => [IAwaken t] | None => [] end).
Definition wake_list (l : option ptr) : M sst (list instr) :=
  match l with
  | None => mret []
  | Some w => x ← lookup_in waiters w; mret [IWake w; IWalk (w_next x)]
  end.

(** What agent [a] does at instruction [i]: the instructions that replace it. *)
Definition exec (a : Z) (expired : bool) (i : instr) : M sst (list instr) :=
  match i with
  | IAcquire l => set_slock l true ;; mret []
  | IRelease l => set_slock l false ;; mret []
  | IMutexBody m spin_only => mutex_lock_body a m spin_only
  | ITryBody m => trylock_body a m
  | IUnlockBody m => unlock_body a m
  | ICondEnter c m timed ok bad late => cond_enter a c m timed ok bad late
  | ISignalBody c => signal_body c
  | IBroadcastBody c => broadcast_body c
  | IEventEnter e timed => event_enter a e timed
  | ISetBody e value nbytes => eventual_set_body e value nbytes
  | IResetBody e => eventual_reset_body e
  | ITestBody e => eventual_test_body e
  | IWait w l => wait_on a w l
  | IResume w => free_waiter w ;; mret []
  | IPoll w => wait_poll w
  | ITimed w l yes no => wait_on_timed expired w l yes no
  | ITimedOut w l yes no => wait_timed_out w l yes no
  | IFree w => free_waiter w ;; mret []
  | IWake w => wake w
  | IAwaken t => modify (λ s, s <| cst ::= CthAwakenIfBlocked t |>) ;; mret []
  | IWalk l => wake_list l
  | IRet c out =>
      x ← lookup_in agents a;
      modify (λ s, s <| agents ::= insert a (x <| a_ret := Some (c, out) |>) |>) ;;
      mret []
  end.

Definition set_stack (a : Z) (k : list instr) (s : sst) : sst :=
  match agents s !! a with
  | Some x => s <| agents ::= insert a (x <| a_stack := k |>) |>
  | None => s
  end.

(** ** Steps *)

Inductive label : Type :=
  | Run (a : Z) (expired : bool)
  | Call (a : Z) (o : op).

(** [None]: the thread cannot move. *)
Definition step (l : label) (s : sst) : option (outcome sst unit) :=
  match l with
  | Run a expired =>
      x ← agents s !! a;
      match a_stack x with
      | i :: k =>
          if is_blocked a (cst s) || negb (enabled i s) then None else
          Some (match exec a expired i s with
                | Done k' s' => Done tt (set_stack a (k' ++ k) s')
                | Faulted f => Faulted f
                end)
      | [] => None
      end
  | Call a o =>
      x ← agents s !! a;
      match a_stack x with
      | [] => Some (Done tt (set_stack a (code o) s))
      | _ => None
      end
  end.

(** A schedule, run from a state: [None] when a step was not possible. *)
Fixpoint runs (ls : list label) (s : sst) : option (outcome sst unit) :=
  match ls with
  | [] => Some (Done tt s)
  | l :: ls =>
      match step l s with
      | Some (Done _ s') => runs ls s'
      | r => r
      end
  end.
End machine.

(** One instruction, with the bodies of the calls unfolded. *)
Ltac exec_body :=
  cbn [exec];
  unfold mutex_lock_body, trylock_body, unlock_body, cond_enter, signal_body, broadcast_body, event_enter,
    eventual_set_body, eventual_reset_body, eventual_test_body, wait_on, wait_poll, wait_on_timed,
    wait_timed_out, wake, wake_list.
