(* ===== verification/SyncMutex.v ===== *)
(** * Mutual exclusion

    The invariant of the machine of [Sync] that makes the mutexes work: a locked
    mutex has one holder, its [owner] field names it and its nesting count is
    the number of times it locked it.  It holds in every reachable state, timed
    waits and early returns included, for threads that unlock only mutexes they
    hold. *)

From S2P Require Import Prelude AbtTypes Objects Waitlist Sync.

(** ** What a thread has locked *)

(** Each thread's id and the mutexes it holds. *)
Abbreviation holds_map := (gmap Z (Z * list ptr)).
Definition times (m : ptr) (l : list ptr) : Z := Z.of_nat (length (filter (λ x, x = m) l)).

Record mutex_ok (ms : gmap Z ABTI_mutex) (hs : holds_map) : Prop := {
  mo_ids a b i la lb : hs !! a = Some (i, la) → hs !! b = Some (i, lb) → a = b;
  mo_free m o : ms !! m = Some o → m_locked o = false →
    m_nesting o = 0 ∧ ∀ a i l, hs !! a = Some (i, l) → m ∉ l;
  mo_held m o : ms !! m = Some o → m_locked o = true →
    ∃ a l, hs !! a = Some (m_owner o, l) ∧ times m l = m_nesting o + 1 ∧ 0 ≤ m_nesting o ∧
      ∀ b i l', hs !! b = Some (i, l') → b ≠ a → m ∉ l';
  mo_dom a i l m : hs !! a = Some (i, l) → m ∈ l → is_Some (ms !! m);
}.

Section times.
Implicit Types (m : ptr) (l : list ptr).
Lemma times_cons m l : times m (m :: l) = times m l + 1.
Proof. unfold times. rewrite filter_cons_True by done. simpl. lia. Qed.
Lemma times_cons_ne m m' l : m' ≠ m → times m (m' :: l) = times m l.
Proof. intros. unfold times. by rewrite filter_cons_False by done. Qed.
Lemma times_elem m l : m ∈ l ↔ 0 < times m l.
Proof.
  induction l as [|a l IH]; [unfold times; simpl; set_solver by lia|].
  destruct (decide (a = m)) as [->|Hne].
  - rewrite times_cons. split; [|set_solver]. intros _. unfold times. lia.
  - rewrite times_cons_ne by done. set_solver.
Qed.
Lemma times_drop_first m l : m ∈ l → times m (drop_first m l) = times m l - 1.
Proof.
  induction l as [|a l IH]; [set_solver|]. simpl. destruct (decide (a = m)) as [->|Hne].
  - rewrite times_cons. lia.
  - intros [?|?]%elem_of_cons; [done|]. rewrite !times_cons_ne by done. auto.
Qed.
Lemma times_drop_first_ne m m' l : m ≠ m' → times m' (drop_first m l) = times m' l.
Proof.
  intros Hne. induction l as [|a l IH]; [done|]. simpl. destruct (decide (a = m)) as [->|Hne'].
  - by rewrite times_cons_ne.
  - destruct (decide (a = m')) as [->|]; [by rewrite !times_cons, IH|by rewrite !times_cons_ne].
Qed.
Lemma elem_of_drop_first_ne m m' l : m ≠ m' → m' ∈ drop_first m l ↔ m' ∈ l.
Proof. intros. rewrite !times_elem. by rewrite times_drop_first_ne. Qed.
Lemma drop_first_sub m m' l : m' ∈ drop_first m l → m' ∈ l.
Proof.
  destruct (decide (m = m')) as [<-|]; [|by rewrite elem_of_drop_first_ne].
  induction l as [|a l IH]; simpl; [done|]. destruct (decide (a = m)); set_solver.
Qed.
End times.

(** ** Locking and unlocking *)

Section mutex_ok.
Implicit Types (ms : gmap Z ABTI_mutex) (hs : holds_map) (m a : Z).

Ltac at_key k k' := destruct (decide (k = k')) as [<-|?];
  [rewrite ?lookup_insert_eq|rewrite ?(lookup_insert_ne _ k k') by done].

(** The holder locks once more, or a free mutex is locked. *)
Lemma mutex_ok_lock ms hs m a o o' i l :
  mutex_ok ms hs → ms !! m = Some o → hs !! a = Some (i, l) →
  m_locked o' = true → m_owner o' = i →
  (m_locked o = false ∧ m_nesting o' = 0 ∨
   m_locked o = true ∧ m_owner o = i ∧ m_nesting o' = m_nesting o + 1) →
  mutex_ok (<[m := o']> ms) (<[a := (i, m :: l)]> hs).
Proof.
  intros [MI MF MH MD] Hm Ha Hlk Hown Hcase.
  assert (times m l = m_nesting o' ∧ 0 ≤ m_nesting o' ∧
    ∀ b j l', hs !! b = Some (j, l') → b ≠ a → m ∉ l') as (Hc & Hn & Hoth).
  { destruct Hcase as [[Hf ->]|(Ht & Ho & ->)].
    - destruct (MF m o Hm Hf) as [_ Hno]. split_and!; [|done|by intros; eapply Hno].
      pose proof (Hno a i l Ha) as Hnl. rewrite times_elem in Hnl. unfold times in *. lia.
    - destruct (MH m o Hm Ht) as (a' & l' & Ha' & Hc & Hn & Hoth).
      assert (a' = a) as -> by (eapply MI; [exact Ha'|]; by rewrite Ho).
      assert (l' = l) as -> by congruence. split_and!; [lia|lia|done]. }
  split.
  - intros b c j lb lc. at_key a b; at_key a c; intros; simplify_eq; first [done|by eapply MI].
  - intros m' o0. at_key m m'; [intros; simplify_eq; congruence|]. intros Hm' Hf.
    destruct (MF m' o0 Hm' Hf) as [? Hno]. split; [done|]. intros b j l'. at_key a b; [|eauto].
    intros [= <- <-]. apply not_elem_of_cons. split; [done|by eapply Hno].
  - intros m' o0. at_key m m'.
    + intros [= <-] _. exists a, (m :: l). rewrite lookup_insert_eq, Hown, times_cons.
      split_and!; [done|lia|done|]. intros b j l' Hb Hne. rewrite lookup_insert_ne in Hb by done. eauto.
    + intros Hm' Ht. destruct (MH m' o0 Hm' Ht) as (a' & l' & Ha' & Hc' & Hn' & Hoth').
      destruct (decide (a = a')) as [<-|Hne].
      * assert (l' = l) as -> by congruence. exists a, (m :: l).
        rewrite lookup_insert_eq, times_cons_ne by done. split_and!; [congruence|done|done|].
        intros b j l' Hb Hne. rewrite lookup_insert_ne in Hb by done. eauto.
      * exists a', l'. rewrite lookup_insert_ne by done. split_and!; [done..|].
        intros b j l1. at_key a b; [|eauto]. intros [= <- <-] _.
        apply not_elem_of_cons. split; [done|by eapply Hoth'].
  - intros b j l' m'. rewrite lookup_insert_is_Some. destruct (decide (m = m')) as [|Hne]; [by left|].
    intros Hb Hin. right. split; [done|]. revert Hb. at_key a b; [|eauto]. intros [= <- <-].
    apply elem_of_cons in Hin as [|Hin]; [done|]. eauto.
Qed.

(** The holder unlocks: one level, or entirely. *)
Lemma mutex_ok_unlock ms hs m a o o' i l :
  mutex_ok ms hs → ms !! m = Some o → hs !! a = Some (i, l) → m ∈ l →
  (0 < m_nesting o ∧ m_nesting o' = m_nesting o - 1 ∧ m_locked o' = m_locked o ∧ m_owner o' = m_owner o ∨
   m_nesting o ≤ 0 ∧ m_nesting o' = m_nesting o ∧ m_locked o' = false) →
  mutex_ok (<[m := o']> ms) (<[a := (i, drop_first m l)]> hs).
Proof.
  intros [MI MF MH MD] Hm Ha Hml Hcase.
  assert (m_locked o = true) as Hlk.
  { destruct (m_locked o) eqn:Hf; [done|]. destruct (MF m o Hm Hf) as [_ Hno]. by edestruct Hno. }
  destruct (MH m o Hm Hlk) as (a' & l' & Ha' & Hc & Hn & Hoth).
  assert (a' = a) as ->.
  { destruct (decide (a' = a)); [done|]. exfalso. eapply (Hoth a); eauto. }
  assert (i = m_owner o ∧ l' = l) as [-> ->] by (split; congruence).
  split.
  - intros b c j lb lc. at_key a b; at_key a c; intros; simplify_eq; first [done|by eapply MI].
  - intros m' o0. at_key m m'.
    + intros [= <-] Hf. destruct Hcase as [(_ & _ & ? & _)|(? & ? & _)]; [congruence|].
      split; [lia|]. intros b j l1. at_key a b; [|eauto]. intros [= <- <-].
      rewrite times_elem, times_drop_first by done. lia.
    + intros Hm' Hf. destruct (MF m' o0 Hm' Hf) as [? Hno]. split; [done|]. intros b j l1.
      at_key a b; [|eauto]. intros [= <- <-] ?%drop_first_sub. by eapply Hno.
  - intros m' o0. at_key m m'.
    + intros [= <-] Ht. destruct Hcase as [(? & Hn' & _ & ->)|(_ & _ & ?)]; [|congruence].
      exists a, (drop_first m l). rewrite lookup_insert_eq, times_drop_first by done.
      split_and!; [done|lia|lia|]. intros b j l1 Hb Hne. rewrite lookup_insert_ne in Hb by done. eauto.
    + intros Hm' Ht. destruct (MH m' o0 Hm' Ht) as (a' & l' & Ha'' & Hc' & Hn' & Hoth').
      destruct (decide (a = a')) as [<-|Hne].
      * assert (l' = l) as -> by congruence. exists a, (drop_first m l).
        rewrite lookup_insert_eq, times_drop_first_ne by done. split_and!; [congruence|done|done|].
        intros b j l' Hb Hne. rewrite lookup_insert_ne in Hb by done. eauto.
      * exists a', l'. rewrite lookup_insert_ne by done. split_and!; [done..|].
        intros b j l1. at_key a b; [|eauto]. intros [= <- <-] _.
        intros ?%drop_first_sub. by apply (Hoth' a _ l Ha Hne).
  - intros b j l' m'. rewrite lookup_insert_is_Some. destruct (decide (m = m')) as [|Hne]; [by left|].
    intros Hb Hin. right. split; [done|]. revert Hb. at_key a b; [|eauto]. intros [= <- <-]. apply drop_first_sub in Hin. eauto.
Qed.
End mutex_ok.

(** ** Along the machine *)

(** The mutexes a list of instructions unlocks. *)
Fixpoint unlocks_of (i : instr) : list ptr :=
  match i with
  | IUnlockBody m => [m]
  | ICondEnter _ m _ ok bad late =>
      m :: flat_map unlocks_of ok ++ flat_map unlocks_of bad ++ flat_map unlocks_of late
  | ITimed _ _ yes no | ITimedOut _ _ yes no => flat_map unlocks_of yes ++ flat_map unlocks_of no
  | _ => []
  end.
Definition unlocks (k : list instr) : list ptr := flat_map unlocks_of k.

Section mutex_inv.
Context `{Cth}.
Implicit Types (s : sst) (a m : Z) (x : agent).

Definition holds s : holds_map := (λ x, (a_id x, a_held x)) <$> agents s.

(** A thread has at most one unlock ahead of it, of a mutex it holds. *)
Definition may_run x (k : list instr) : Prop :=
  (length (unlocks k) ≤ 1)%nat ∧ ∀ m, m ∈ unlocks k → m ∈ a_held x.
Record mutex_inv s : Prop := {
  mi_ok : mutex_ok (mutexes s) (holds s);
  mi_run a x : agents s !! a = Some x → may_run x (a_stack x);
}.

(** A call that unlocks is made by a holder. *)
Definition unlocked_by (o : op) : option Z :=
  match o with
  | ABT_mutex_unlock m | ABT_cond_wait _ m | ABT_cond_timedwait _ m => Some m
  | _ => None
  end.
Definition disciplined (l : label) s : Prop :=
  match l with
  | Run _ _ => True
  | Call a o => ∀ x m, agents s !! a = Some x → unlocked_by o = Some m → m ∈ a_held x
  end.

(** Reachable states: any number of disciplined steps. *)
Inductive reachable (s0 : sst) : sst → Prop :=
  | reach_start : reachable s0 s0
  | reach_step l s s' :
      reachable s0 s → disciplined l s → step l s = Some (Done tt s') → reachable s0 s'.

(** *** Instructions that touch no mutex *)

Definition same_mutexes s s' : Prop := mutexes s' = mutexes s ∧ agents s' = agents s.

Lemma wlp_lookup_in {K A} `{Countable K} (f : sst → gmap K A) k (Q : A → sst → Prop) s :
  (∀ v, f s !! k = Some v → Q v s) → wlp (lookup_in f k) Q s.
Proof. intros HQ. unfold wlp, lookup_in. destruct (f s !! k); auto. Qed.
Lemma wlp_on_wl {A} l (m : M wst A) (Q : A → sst → Prop) s :
  (∀ r s', same_mutexes s s' → Q r s') → wlp (on_wl l m) Q s.
Proof.
  intros HQ. unfold wlp, on_wl. destruct (wls s !! l); [|done]. destruct (m _); [|done].
  by apply HQ.
Qed.
Lemma wlp_enqueue a l (Q : ptr → sst → Prop) s :
  (∀ r s', same_mutexes s s' → Q r s') → wlp (enqueue a l) Q s.
Proof.
  intros HQ. unfold enqueue. wlp_step. apply wlp_lookup_in. intros x _. wlp_step. wlp_step.
  wlp_step. wlp_step. wlp_step. apply wlp_on_wl. intros r s' [? ?]. wlp_step. by apply HQ.
Qed.
Lemma wlp_free_waiter w (Q : unit → sst → Prop) s :
  (∀ s', same_mutexes s s' → Q tt s') → wlp (free_waiter w) Q s.
Proof.
  intros HQ. unfold free_waiter. wlp_step. apply wlp_lookup_in. intros x _. wlp_step. by apply HQ.
Qed.
Lemma wlp_set_event e f (Q : unit → sst → Prop) s :
  (∀ s', same_mutexes s s' → Q tt s') → wlp (set_event e f) Q s.
Proof.
  intros HQ. unfold set_event. wlp_step. apply wlp_lookup_in. intros x _. wlp_step. by apply HQ.
Qed.

(** *** One instruction *)

(** Agent [a] ran [i], which left [k] to do. *)
Definition stepped a x i s (k : list instr) s' : Prop :=
  ∃ x', agents s' = <[a := x']> (agents s) ∧ a_stack x' = a_stack x ∧
    mutex_ok (mutexes s') (holds s') ∧
    ∀ rest, may_run x (i :: rest) → may_run x' (k ++ rest).

Lemma unlocks_app k1 k2 : unlocks (k1 ++ k2) = unlocks k1 ++ unlocks k2.
Proof. apply flat_map_app. Qed.
Lemma unlocks_cons i k : unlocks (i :: k) = unlocks_of i ++ unlocks k.
Proof. done. Qed.

Lemma may_run_sublist x i k rest :
  unlocks k `sublist_of` unlocks_of i → may_run x (i :: rest) → may_run x (k ++ rest).
Proof.
  intros Hs. unfold may_run. rewrite unlocks_app, unlocks_cons, !length_app.
  pose proof (sublist_length _ _ Hs). intros [Hl Hm]. split; [lia|].
  intros m [Hk|Hk]%elem_of_app; apply Hm; apply elem_of_app; [left|by right].
  by eapply elem_of_sublist.
Qed.

Lemma stepped_quiet a x i s k s' :
  mutex_ok (mutexes s) (holds s) → agents s !! a = Some x → same_mutexes s s' →
  unlocks k `sublist_of` unlocks_of i → stepped a x i s k s'.
Proof.
  intros Hok Hx [Em Ea] Hs. exists x. split_and!; [by rewrite Ea, insert_id|done| |].
  - unfold holds. by rewrite Em, Ea.
  - intros rest. by apply may_run_sublist.
Qed.

(** Changing what agent [a] holds and one mutex. *)
Lemma stepped_mutex a x x' i s k s' ms :
  mutexes s' = ms → agents s' = <[a := x']> (agents s) → a_stack x' = a_stack x →
  mutex_ok ms (<[a := (a_id x', a_held x')]> (holds s)) →
  (∀ rest, may_run x (i :: rest) → may_run x' (k ++ rest)) → stepped a x i s k s'.
Proof.
  intros Em Ea Es Hok Hr. exists x'. split_and!; [done..| |done].
  unfold holds. by rewrite Em, Ea, fmap_insert.
Qed.

Lemma wlp_set_mutex m f (Q : unit → sst → Prop) s :
  (∀ o, mutexes s !! m = Some o → Q tt (s <| mutexes ::= insert m (f o) |>)) →
  wlp (set_mutex m f) Q s.
Proof. intros HQ. unfold set_mutex. wlp_step. apply wlp_lookup_in. intros o Ho. wlp_step. by apply HQ. Qed.
Lemma wlp_set_held a f (Q : unit → sst → Prop) s :
  (∀ x, agents s !! a = Some x → Q tt (s <| agents ::= insert a (x <| a_held ::= f |>) |>)) →
  wlp (set_held a f) Q s.
Proof. intros HQ. unfold set_held. wlp_step. apply wlp_lookup_in. intros o Ho. wlp_step. by apply HQ. Qed.

(** What [try_lock] does to the mutex and its caller. *)
Lemma try_lock_spec a x m s :
  mutex_ok (mutexes s) (holds s) → agents s !! a = Some x →
  wlp (try_lock a m) (λ got s',
    if got then ∃ o', mutexes s' = <[m := o']> (mutexes s) ∧
      agents s' = <[a := x <| a_held ::= cons m |>]> (agents s) ∧
      mutex_ok (<[m := o']> (mutexes s)) (<[a := (a_id x, m :: a_held x)]> (holds s))
    else s' = s) s.
Proof.
  intros Hok Hx. unfold try_lock. wlp_step. apply wlp_lookup_in. intros x0 Hx0.
  assert (x0 = x) as -> by congruence. wlp_step. apply wlp_lookup_in. intros o Ho.
  assert (holds s !! a = Some (a_id x, a_held x)) as Ha by (unfold holds; by rewrite lookup_fmap, Hx).
  destruct (m_locked o) eqn:Hlk; simpl.
  - destruct (truthy _ && _) eqn:Hb; [|by wlp_step].
    apply andb_true_iff in Hb as [_ Hown%Z.eqb_eq].
    wlp_step. apply wlp_set_mutex. intros o0 Ho0. assert (o0 = o) as -> by congruence.
    wlp_step. apply wlp_set_held. simpl. intros x0 Hx1. assert (x0 = x) as -> by congruence. wlp_step.
    eexists. split_and!; [done..|]. eapply mutex_ok_lock; [done..|]. right. done.
  - wlp_step. apply wlp_set_mutex. intros o0 Ho0. assert (o0 = o) as -> by congruence.
    wlp_step. apply wlp_set_held. simpl. intros x0 Hx1. assert (x0 = x) as -> by congruence. wlp_step.
    eexists. split_and!; [done..|]. eapply mutex_ok_lock; [done..|]. left. done.
Qed.

Lemma may_run_more x m i k rest :
  unlocks k = [] → may_run x (i :: rest) → may_run (x <| a_held ::= cons m |>) (k ++ rest).
Proof.
  intros Hk Hr. assert (may_run x (k ++ rest)) as [? Hm].
  { eapply may_run_sublist, Hr. rewrite Hk. apply sublist_nil_l. }
  split; [done|]. intros m' Hm'. simpl. right. by apply Hm.
Qed.

Lemma exec_unlock a e x m s :
  mutex_ok (mutexes s) (holds s) → agents s !! a = Some x → m ∈ a_held x →
  wlp (exec a e (IUnlockBody m)) (stepped a x (IUnlockBody m) s) s.
Proof.
  intros Hok Hx Hm. exec_body. wlp_step. apply wlp_lookup_in. intros o Ho.
  assert (holds s !! a = Some (a_id x, a_held x)) as Ha by (unfold holds; by rewrite lookup_fmap, Hx).
  wlp_step. apply wlp_set_held. intros x0 Hx0. assert (x0 = x) as -> by congruence.
  assert (∀ k rest, unlocks k = [] → may_run x (IUnlockBody m :: rest) →
    may_run (x <| a_held ::= drop_first m |>) (k ++ rest)) as Hrest.
  { intros k rest Hk [Hl _]. unfold may_run. rewrite unlocks_app, Hk. simpl.
    rewrite unlocks_cons, length_app in Hl. simpl in Hl. destruct (unlocks rest); [|simpl in *; lia].
    simpl. split; [lia|set_solver]. }
  destruct (Z.gtb_spec (m_nesting o) 0).
  - wlp_step. apply wlp_set_mutex. simpl. intros o0 Ho0. assert (o0 = o) as -> by congruence. wlp_step.
    eapply stepped_mutex; [done..| |intros rest; by apply Hrest]. eapply mutex_ok_unlock; [done..|].
    left. simpl. split_and!; [done|lia|done|done].
  - wlp_step. apply wlp_set_mutex. simpl. intros o0 Ho0. assert (o0 = o) as -> by congruence. wlp_step.
    apply wlp_on_wl. intros w s' [Em Ea]. wlp_step.
    eapply stepped_mutex; [exact Em|exact Ea|done| |].
    + eapply mutex_ok_unlock; [done..|]. right. simpl. split_and!; [lia|done|done].
    + intros rest. apply Hrest. by destruct w.
Qed.

Lemma exec_stepped a e x i s :
  mutex_ok (mutexes s) (holds s) → agents s !! a = Some x →
  (∀ m, i = IUnlockBody m → m ∈ a_held x) →
  wlp (exec a e i) (stepped a x i s) s.
Proof.
  intros Hok Hx Hi. 
  destruct i as [l|l|m sp|m|m|c m tm ok bad late|c|c|ev tm|ev v n|ev|ev|w l|w|w|w l yes no|w l yes no|w|w|t|o|c out];
    try (by apply exec_unlock; [..|apply Hi]); exec_body; unfold set_slock, detach_list.
  - wlp_step. wlp_step. wlp_step. by apply stepped_quiet.
  - wlp_step. wlp_step. wlp_step. by apply stepped_quiet.
  - wlp_step. eapply wlp_mono; [by apply try_lock_spec|]. intros got s1 Hs1. destruct got.
    + wlp_step. destruct Hs1 as (o' & Em & Ea & Hok'). eapply stepped_mutex; [exact Em|exact Ea|done..|].
      intros rest. by apply may_run_more.
    + subst s1. destruct sp.
      * wlp_step. by apply stepped_quiet.
      * wlp_step. apply wlp_enqueue. intros w s2 Hs. wlp_step. by apply stepped_quiet.
  - wlp_step. eapply wlp_mono; [by apply try_lock_spec|]. intros got s1 Hs1. wlp_step. destruct got.
    + destruct Hs1 as (o' & Em & Ea & Hok'). eapply stepped_mutex; [exact Em|exact Ea|done..|].
      intros rest. by apply may_run_more.
    + subst s1. by apply stepped_quiet.
  - wlp_step. apply wlp_lookup_in. intros o Ho.
    assert (∀ s1, same_mutexes s s1 → wlp (w ← enqueue a (LC c);
      mret (unlock_code m ++ (if tm then [IRelease (LC c);
          ITimed w (LC c) (lock_code m false ++ IFree w :: ok) (lock_code m false ++ IFree w :: late)]
        else IWait w (LC c) :: lock_code m false ++ ok)))
      (stepped a x (ICondEnter c m tm ok bad late) s) s1) as Hgo.
    { intros s1 [E1 E2]. wlp_step. apply wlp_enqueue. intros w s2 [E3 E4]. wlp_step.
      apply stepped_quiet; [done..|split; congruence|]. rewrite unlocks_app.
      apply sublist_skip. destruct tm; simpl; rewrite ?flat_map_app; simpl; rewrite ?app_nil_r.
      - apply sublist_app; [done|]. by apply sublist_inserts_l.
      - by apply sublist_inserts_r. }
    destruct (c_mutex o) as [m'|].
    + destruct (decide (m' = m)); [by apply Hgo|]. wlp_step. apply stepped_quiet; [done..|].
      simpl. apply sublist_cons, sublist_inserts_l. by apply sublist_inserts_r.
    + wlp_step. wlp_step. by apply Hgo.
  - wlp_step. apply wlp_on_wl. intros w s1 Hs. wlp_step. apply stepped_quiet; [done..|]. by destruct w.
  - wlp_step. apply wlp_on_wl. intros w s1 Hs. wlp_step. by apply stepped_quiet.
  - wlp_step. apply wlp_lookup_in. intros o Ho. destruct (e_ready o); [wlp_step; by apply stepped_quiet|].
    wlp_step. apply wlp_enqueue. intros w s1 Hs. wlp_step. apply stepped_quiet; [done..|]. by destruct tm.
  - wlp_step. apply wlp_lookup_in. intros o Ho. destruct (e_ready o); [wlp_step; by apply stepped_quiet|].
    destruct (n >? e_nbytes o); [wlp_step; by apply stepped_quiet|]. wlp_step. apply wlp_set_event.
    intros s1 [E1 E2]. wlp_step. apply wlp_on_wl. intros w s2 [E3 E4]. wlp_step.
    apply stepped_quiet; [done..|split; congruence|done].
  - wlp_step. apply wlp_set_event. intros s1 Hs. wlp_step. by apply stepped_quiet.
  - wlp_step. apply wlp_lookup_in. intros o Ho. wlp_step. by apply stepped_quiet.
  - wlp_step. apply wlp_lookup_in. intros x0 Hx0. wlp_step. wlp_step.
    destruct (a_ult x0); [wlp_step; wlp_step|]; wlp_step; by apply stepped_quiet.
  - wlp_step. apply wlp_free_waiter. intros s1 Hs. wlp_step. by apply stepped_quiet.
  - wlp_step. apply wlp_lookup_in. intros y Hy. destruct (signaled y); [|wlp_step; by apply stepped_quiet].
    wlp_step. apply wlp_free_waiter. intros s1 Hs. wlp_step. by apply stepped_quiet.
  - wlp_step. apply wlp_lookup_in. intros y Hy. destruct (signaled y).
    + wlp_step. apply stepped_quiet; [done..|]. by apply sublist_inserts_r.
    + destruct e; wlp_step; apply stepped_quiet; try done; simpl; by rewrite app_nil_r.
  - wlp_step. apply wlp_lookup_in. intros y Hy. destruct (signaled y).
    + wlp_step. apply stepped_quiet; [done..|]. by apply sublist_inserts_r.
    + wlp_step. apply wlp_on_wl. intros r s1 Hs. wlp_step. apply stepped_quiet; [done..|].
      by apply sublist_inserts_l.
  - wlp_step. apply wlp_free_waiter. intros s1 Hs. wlp_step. by apply stepped_quiet.
  - wlp_step. apply wlp_lookup_in. intros y Hy. wlp_step. wlp_step. wlp_step.
    apply stepped_quiet; [done..|]. by destruct (w_thread y).
  - wlp_step. wlp_step. wlp_step. by apply stepped_quiet.
  - destruct o as [w|]; [|wlp_step; by apply stepped_quiet].
    wlp_step. apply wlp_lookup_in. intros y Hy. wlp_step. by apply stepped_quiet.
  - wlp_step. apply wlp_lookup_in. intros x0 Hx0. assert (x0 = x) as -> by congruence.
    wlp_step. wlp_step. wlp_step.
    eapply (stepped_mutex a x (x <| a_ret := Some (c, out) |>)); [done..| |].
    + simpl. rewrite insert_id; [done|]. unfold holds. by rewrite lookup_fmap, Hx.
    + intros rest Hr. apply (may_run_sublist x (IRet c out) [] rest); [done|exact Hr].
Qed.

(** *** Every step *)

Lemma code_unlocks o : unlocks (code o) = [] ∨ ∃ m, unlocked_by o = Some m ∧ unlocks (code o) = [m].
Proof. destruct o; simpl; unfold checked; repeat case_match; simpl; eauto. Qed.

Lemma set_stack_inv s a x k :
  mutex_ok (mutexes s) (holds s) → agents s !! a = Some x → may_run x k →
  (∀ b y, b ≠ a → agents s !! b = Some y → may_run y (a_stack y)) →
  mutex_inv (set_stack a k s).
Proof.
  intros Hok Hx Hk Hoth. unfold set_stack. rewrite Hx. split; simpl.
  - unfold holds. simpl. rewrite fmap_insert, insert_id; [done|]. simpl. by rewrite lookup_fmap, Hx.
  - intros b y. destruct (decide (a = b)) as [<-|Hne].
    + rewrite lookup_insert_eq. by intros [= <-].
    + rewrite lookup_insert_ne by done. by apply Hoth.
Qed.

Lemma step_mutex_inv l s s' :
  mutex_inv s → disciplined l s → step l s = Some (Done tt s') → mutex_inv s'.
Proof.
  intros [Hok Hrun] Hd Hs. destruct l as [a e|a o]; simpl in Hs;
    (destruct (agents s !! a) as [x|] eqn:Hx; [|done]); simpl in Hs.
  - destruct (a_stack x) as [|i k] eqn:Hst; [done|]. destruct (_ || _); [done|].
    pose proof (Hrun a x Hx) as Hr. rewrite Hst in Hr.
    assert (wlp (exec a e i) (stepped a x i s) s) as He.
    { apply exec_stepped; [done..|]. intros m ->. apply Hr. simpl. set_solver. }
    unfold wlp in He. destruct (exec a e i s) as [k' s1|]; simplify_eq.
    destruct He as (x' & Ea & Es & Hok' & Hnext).
    apply (set_stack_inv s1 a x'); [done|by rewrite Ea, lookup_insert_eq|by apply Hnext|].
    intros b y Hne. rewrite Ea, lookup_insert_ne by done. apply Hrun.
  - destruct (a_stack x) eqn:Hst; simplify_eq.
    apply (set_stack_inv s a x); [done..| |by intros; eapply Hrun].
    destruct (code_unlocks o) as [Hu|(m & Hm & Hu)]; unfold may_run; rewrite Hu; simpl.
    + split; [lia|set_solver].
    + split; [lia|]. intros m' ->%list_elem_of_singleton. by eapply Hd.
Qed.

Lemma reachable_mutex_inv s0 s : mutex_inv s0 → reachable s0 s → mutex_inv s.
Proof. induction 2; [done|]. by eapply step_mutex_inv. Qed.

(** Before any call: threads with different ids, holding nothing, and free
    mutexes. *)
Record mutexes_fresh s : Prop := {
  mf_agent a x : agents s !! a = Some x → a_stack x = [] ∧ a_held x = [];
  mf_ids a b x y : agents s !! a = Some x → agents s !! b = Some y → a_id x = a_id y → a = b;
  mf_free m o : mutexes s !! m = Some o → m_locked o = false ∧ m_nesting o = 0;
}.
(** [self_id] gives threads different ids: the ids of ABT threads have no top
    bit, and thread handles of the system are no larger than that. *)
Lemma self_ids_differ t u p q : (∀ i, t = Some i ∨ u = Some i → 0 ≤ i < 2 ^ 63) → 0 ≤ p < 2 ^ 63 → 0 ≤ q < 2 ^ 63 →
  self_id t p = self_id u q → t = u ∧ (t = None → p = q).
Proof.
  intros Hi Hp Hq. assert (∀ p, 0 ≤ p < 2 ^ 63 → Z.lor (wrapu64 p) (Z.shiftl 1 63) = p + 2 ^ 63) as Htop.
  { intros z Hz. rewrite wrapu64_small by lia. rewrite Z.shiftl_1_l, <-Z.lxor_lor, <-Z.add_nocarry_lxor; [done|..];
      apply Z.bits_inj'; intros n Hn; rewrite Z.land_spec, Z.bits_0, Z.pow2_bits_eqb by lia;
      (destruct (Z.eqb_spec 63 n) as [<-|]; [|apply andb_false_r]); rewrite andb_true_r; apply (Z.testbit_false z 63); [lia|by rewrite Z.div_small|lia|by rewrite Z.div_small]. }
  unfold self_id. destruct t as [i|], u as [k|]; rewrite ?Htop by done; intros He.
  - subst. done.
  - pose proof (Hi i (or_introl eq_refl)). lia.
  - pose proof (Hi k (or_intror eq_refl)). lia.
  - split; [done|]. lia.
Qed.
Lemma fresh_mutex_inv s : mutexes_fresh s → mutex_inv s.
Proof.
  intros [FA FI FM].
  assert (∀ a i l, holds s !! a = Some (i, l) → l = [] ∧ ∃ x, agents s !! a = Some x ∧ a_id x = i) as Hh.
  { intros a i l. unfold holds. rewrite lookup_fmap. destruct (agents s !! a) as [x|] eqn:Hx; [|done].
    intros [= <- <-]. destruct (FA a x Hx). eauto. }
  split; [split|].
  - intros a b i la lb (_ & x & Hx & Hi)%Hh (_ & y & Hy & Hi')%Hh. eapply FI; eauto. congruence.
  - intros m o Ho _. destruct (FM m o Ho). split; [done|]. intros a i l [-> _]%Hh. set_solver.
  - intros m o Ho Hlk. destruct (FM m o Ho). congruence.
  - intros a i l m [-> _]%Hh Hm. set_solver.
  - intros a x Hx. destruct (FA a x Hx) as [-> _]. split; simpl; [lia|set_solver].
Qed.

(** At most one thread holds a mutex. *)
Lemma holder_unique s a b x y m :
  mutex_inv s → agents s !! a = Some x → agents s !! b = Some y → m ∈ a_held x → m ∈ a_held y →
  a = b ∧ ∃ o, mutexes s !! m = Some o ∧ m_locked o = true ∧ m_owner o = a_id x ∧
    m_nesting o = times m (a_held x) - 1.
Proof.
  intros [[MI MF MH MD] _] Ha Hb Hma Hmb.
  assert (∀ c z, agents s !! c = Some z → holds s !! c = Some (a_id z, a_held z)) as Hh.
  { intros c z Hc. unfold holds. by rewrite lookup_fmap, Hc. }
  destruct (MD a _ _ m (Hh a x Ha) Hma) as [o Ho]. destruct (m_locked o) eqn:Hlk.
  - destruct (MH m o Ho Hlk) as (c & l & Hc & Hn & _ & Hoth).
    assert (a = c) as ->.
    { destruct (decide (a = c)); [done|]. exfalso. by eapply (Hoth a); eauto. }
    assert (b = c) as ->.
    { destruct (decide (b = c)); [done|]. exfalso. by eapply (Hoth b); eauto. }
    rewrite (Hh c x Ha) in Hc. simplify_eq. split; [done|]. exists o.
    split_and!; [done|done|congruence|]. simplify_eq. lia.
  - destruct (MF m o Ho Hlk) as [_ Hno]. exfalso. by eapply (Hno a); eauto.
Qed.

(** C10: mutual exclusion, for programs in which only a thread that holds a mutex
    calls [ABT_mutex_unlock], [ABT_cond_wait] or [ABT_cond_timedwait] on it: the
    code does not check the owner (sync.cpp:155-164), and a call by another
    thread releases the mutex under its holder.  In every state such a program
    reaches, whatever the interleaving, timed waits included, two threads never
    hold the same mutex; a mutex some thread holds is locked, its owner field
    names that thread, and its nesting count is the number of times the thread
    has locked it, less one. *)
Theorem mutex_exclusion s0 s a b x y m :
  mutexes_fresh s0 → reachable s0 s →
  agents s !! a = Some x → agents s !! b = Some y → m ∈ a_held x → m ∈ a_held y →
  a = b ∧ ∃ o, mutexes s !! m = Some o ∧ m_locked o = true ∧ m_owner o = a_id x ∧
    m_nesting o = times m (a_held x) - 1.
Proof.
  intros H0 Hr. apply holder_unique. exact (reachable_mutex_inv _ _ (fresh_mutex_inv _ H0) Hr).
Qed.
End mutex_inv.
