(* ===== verification/SyncTokens.v ===== *)
(** * Waiters and their wake-ups

    The bookkeeping that shows no wake-up is lost: at any time each waiter
    record is in one place, on the wait list of an object, in the hands of a
    thread that is about to wake it, signalled with the wake-up of its thread
    under way, or delivered.  This file has the places, what a thread's
    instructions say about its own waiter and its wake-ups, and the moves a
    record can make; [SyncWake] shows that the machine makes no other. *)

From S2P Require Import Prelude AbtTypes Objects Waitlist Sync.

(** ** Places and views *)

Inductive place : Type :=
  | InList (l : lockref)
  | Pend (b : Z)
  | Waking (b : Z)
  | Gone.
#[global] Instance place_eq_dec : EqDecision place.
Proof. solve_decision. Defined.

(** The waiter a thread has, and how far it is with it. *)
Inductive ownst : Type :=
  | NoOwn
  | Waiting (w : ptr) (l : lockref)
  | Resuming (w : ptr)
  | Polling (w : ptr).
Definition owned (o : ownst) : option ptr :=
  match o with NoOwn => None | Waiting w _ | Resuming w | Polling w => Some w end.

(** A thread: whether it is a ULT, its own waiter, the thread it is about to
    awaken. *)
Record view : Type := mk_view {
  v_ult : bool;
  v_own : ownst;
  v_awk : option Z;
}.

Definition is_sig (p : place) : bool := match p with Waking _ | Gone => true | _ => false end.

(** Where the record of a thread in state [o] can be. *)
Definition phase (blocked ult : bool) (o : ownst) (p : place) : Prop :=
  match o with
  | NoOwn => True
  | Waiting _ l => p = InList l ∧ blocked = false
  | Resuming _ => ult = true ∧ (if blocked then p ≠ Gone else p = Gone)
  | Polling _ => ult = false ∧ ∀ b, p ≠ Waking b
  end.

(** [L]: the wait lists; [P]: the records each thread is about to wake;
    [loc]: where each record is. *)
Record tokens (h : gmap Z ABTI_waiter) (V : gmap Z view) (bl : Z → bool)
    (L : gmap lockref (list ptr)) (P : gmap Z (list ptr)) (loc : gmap Z place) : Prop := {
  t_in l w : loc !! w = Some (InList l) ↔ ∃ c, L !! l = Some c ∧ w ∈ c;
  t_pend b w : loc !! w = Some (Pend b) ↔ ∃ c, P !! b = Some c ∧ w ∈ c;
  t_waking b w : loc !! w = Some (Waking b) →
    ∃ v t v', V !! b = Some v ∧ v_awk v = Some t ∧ V !! t = Some v' ∧ owned (v_own v') = Some w;
  t_awk b v t : V !! b = Some v → v_awk v = Some t →
    ∃ w v', loc !! w = Some (Waking b) ∧ V !! t = Some v' ∧ owned (v_own v') = Some w;
  t_own a v w : V !! a = Some v → owned (v_own v) = Some w →
    ∃ r p, h !! w = Some r ∧ loc !! w = Some p ∧
      w_thread r = (if v_ult v then Some a else None) ∧ signaled r = is_sig p ∧
      phase (bl a) (v_ult v) (v_own v) p;
  t_owner w : is_Some (h !! w) ∨ is_Some (loc !! w) → ∃ a v, V !! a = Some v ∧ owned (v_own v) = Some w;
  t_uniq a b v v' w : V !! a = Some v → V !! b = Some v' →
    owned (v_own v) = Some w → owned (v_own v') = Some w → a = b;
  t_blk a v : V !! a = Some v → bl a = true → v_ult v = true ∧ ∃ w, v_own v = Resuming w;
}.

Section tokens.
Implicit Types (h : gmap Z ABTI_waiter) (V : gmap Z view) (bl : Z → bool)
  (L : gmap lockref (list ptr)) (P : gmap Z (list ptr)) (loc : gmap Z place) (a b w : Z).

Ltac at_key k k' := destruct (decide (k = k')) as [<-|?];
  [rewrite ?lookup_insert_eq|rewrite ?(lookup_insert_ne _ k k') by done].

(** Only the links between records change. *)
Lemma tokens_next h h' V bl L P loc :
  (∀ w, (λ x, (w_thread x, signaled x)) <$> h' !! w = (λ x, (w_thread x, signaled x)) <$> h !! w) →
  tokens h V bl L P loc → tokens h' V bl L P loc.
Proof.
  intros Heq [TI TP TW TA TO TR TU TB]. split; try done.
  - intros a v w Hv Hw. destruct (TO a v w Hv Hw) as (r & p & Hr & Hp & Ht & Hs & Hph).
    specialize (Heq w). rewrite Hr in Heq. destruct (h' !! w) as [r'|]; [|done]. simplify_eq/=.
    exists r', p. split_and!; congruence || done.
  - intros w [[r Hr]|?]; [|by apply TR; right]. apply TR. left. specialize (Heq w). rewrite Hr in Heq.
    destruct (h !! w); [eauto|done].
Qed.

Lemma tokens_live h V bl L P loc w :
  tokens h V bl L P loc → is_Some (loc !! w) → is_Some (h !! w).
Proof.
  intros T Hl. destruct (t_owner _ _ _ _ _ _ T w) as (a & v & Hv & Hw); [by right|].
  destruct (t_own _ _ _ _ _ _ T a v w Hv Hw) as (r & p & -> & _). eauto.
Qed.

(** A thread without a waiter enters the list of [l]. *)
Lemma tokens_enqueue h V bl L P loc a v w l c :
  tokens h V bl L P loc → V !! a = Some v → v_own v = NoOwn → v_awk v = None → bl a = false →
  h !! w = None → L !! l = Some c →
  tokens (<[w := mk_waiter (if v_ult v then Some a else None) false None]> h)
    (<[a := mk_view (v_ult v) (Waiting w l) None]> V) bl (<[l := c ++ [w]]> L) P
    (<[w := InList l]> loc).
Proof.
  intros T Hv Hno Hna Hbl Hw Hc. pose proof T as [TI TP TW TA TO TR TU TB].
  assert (loc !! w = None) as Hlw.
  { apply eq_None_not_Some. intros [r Hr]%(tokens_live _ _ _ _ _ _ _ T). congruence. }
  assert (∀ b v', V !! b = Some v' → owned (v_own v') ≠ Some w) as Hfr.
  { intros b v' Hb Ho. destruct (TO b v' w Hb Ho) as (r & p & Hr & _). congruence. }
  assert (∀ b v', V !! b = Some v' → owned (v_own v') ≠ None → b ≠ a) as Hne.
  { intros b v' Hb Ho ->. simplify_eq. by rewrite Hno in Ho. }
  split.
  - intros l' w'. at_key w w'.
    + split.
      * intros [= <-]. exists (c ++ [w]). rewrite lookup_insert_eq. set_solver.
      * intros (c' & Hc' & Hin). destruct (decide (l = l')) as [<-|Hl]; [done|].
        rewrite lookup_insert_ne in Hc' by done.
        assert (loc !! w = Some (InList l')) by (apply TI; eauto). congruence.
    + rewrite TI. at_key l l'.
      * split; intros (c' & ? & Hin); simplify_eq; eexists; (split; [done|]); set_solver.
      * done.
  - intros b w'. at_key w w'.
    + split; [done|]. intros Hp%TP. congruence.
    + apply TP.
  - intros b w'. at_key w w'; [done|]. intros (v1 & t & v2 & Hb & Ht & Hv2 & Ho)%TW.
    exists v1, t, v2. rewrite !lookup_insert_ne; [done|..].
    + intros <-. by apply (Hne a v2 Hv2); [rewrite Ho|].
    + intros <-. congruence.
  - intros b v' t. at_key a b; [by intros [= <-]|]. intros Hb Ht.
    destruct (TA b v' t Hb Ht) as (w' & v2 & Hl & Hv2 & Ho). exists w', v2.
    rewrite !lookup_insert_ne; [done|..].
    + intros <-. by apply (Hne a v2 Hv2); [rewrite Ho|].
    + intros <-. congruence.
  - intros b v' w'. at_key a b.
    + intros [= <-] [= <-]. eexists _, _. rewrite !lookup_insert_eq. split_and!; done.
    + intros Hb Ho. destruct (TO b v' w' Hb Ho) as (r & p & Hr & Hp & ?). exists r, p.
      rewrite !lookup_insert_ne; [done|..]; intros <-; by eapply Hfr.
  - intros w'. at_key w w'.
    + intros _. eexists a, _. rewrite lookup_insert_eq. by split.
    + intros (b & v' & Hb & Ho)%TR. exists b, v'. rewrite lookup_insert_ne; [done|].
      intros <-. by apply (Hne a v' Hb); [rewrite Ho|].
  - intros b b' v1 v2 w'. at_key a b; at_key a b'; [done|..].
    + intros [= <-] Hb' [= <-] Ho. by destruct (Hfr b' v2 Hb').
    + intros Hb [= <-] Ho [= <-]. by destruct (Hfr b v1 Hb).
    + apply TU.
  - intros b v'. at_key a b; [intros _; congruence|]. apply TB.
Qed.

(** Thread [b] takes the records [ws] off the list of [l], to wake them. *)
Lemma tokens_dequeue h V bl L P loc b l ws c p :
  tokens h V bl L P loc → L !! l = Some (ws ++ c) → NoDup (ws ++ c) → P !! b = Some p →
  (∀ a v w, V !! a = Some v → v_own v = Waiting w l → False) →
  tokens h V bl (<[l := c]> L) (<[b := ws ++ p]> P)
    (map_imap (λ w q, Some (if bool_decide (w ∈ ws) then Pend b else q)) loc).
Proof.
  intros T HL Hnd HP Hnw. pose proof T as [TI TP TW TA TO TR TU TB].
  set (loc' := map_imap _ loc).
  assert (∀ w, loc' !! w = (λ q, if bool_decide (w ∈ ws) then Pend b else q) <$> loc !! w) as Hl.
  { intros w. unfold loc'. rewrite map_lookup_imap. by destruct (loc !! w). }
  assert (∀ w, w ∈ ws → loc !! w = Some (InList l)) as Hws by (intros w Hw; apply TI; exists (ws ++ c); split; [done|apply elem_of_app; by left]).
  assert (∀ w, w ∉ ws → loc' !! w = loc !! w) as Hout.
  { intros w Hw. rewrite Hl. destruct (loc !! w); [|done]. simpl. by rewrite bool_decide_false. }
  assert (∀ w, w ∈ ws → loc' !! w = Some (Pend b)) as Hin.
  { intros w Hw. rewrite Hl, (Hws w Hw). simpl. by rewrite bool_decide_true. }
  apply NoDup_app in Hnd as (_ & Hd & _).
  split.
  - intros l' w. destruct (decide (w ∈ ws)) as [Hw|Hw].
    + rewrite Hin by done. split; [done|]. intros (c' & Hc' & Hwc). exfalso.
      destruct (decide (l = l')) as [<-|Hne].
      * rewrite lookup_insert_eq in Hc'. simplify_eq. by eapply Hd.
      * rewrite lookup_insert_ne in Hc' by done.
        assert (loc !! w = Some (InList l')) by (apply TI; eauto). rewrite Hws in * by done. congruence.
    + rewrite Hout, TI by done. at_key l l'; [|done]. split; intros (c' & ? & Hwc); simplify_eq.
      * exists c. split; [done|]. apply elem_of_app in Hwc. tauto.
      * eexists. split; [done|]. apply elem_of_app. by right.
  - intros b' w. destruct (decide (w ∈ ws)) as [Hw|Hw].
    + rewrite Hin by done. split.
      * intros [= <-]. exists (ws ++ p). rewrite lookup_insert_eq. split; [done|apply elem_of_app; by left].
      * intros (c' & Hc' & Hwc). destruct (decide (b = b')) as [<-|Hne]; [done|].
        rewrite lookup_insert_ne in Hc' by done.
        assert (loc !! w = Some (Pend b')) by (apply TP; eauto). rewrite Hws in * by done. congruence.
    + rewrite Hout, TP by done. at_key b b'; [|done]. split; intros (c' & ? & Hwc); simplify_eq.
      * eexists. split; [done|]. apply elem_of_app. by right.
      * exists p. split; [done|]. apply elem_of_app in Hwc. tauto.
  - intros b' w. destruct (decide (w ∈ ws)) as [Hw|Hw]; [by rewrite Hin|]. rewrite Hout by done. apply TW.
  - intros b' v t Hb Ht. destruct (TA b' v t Hb Ht) as (w & v' & Hlw & ?). exists w, v'.
    rewrite Hout; [done|]. intros Hw. rewrite Hws in Hlw by done. congruence.
  - intros a v w Hv Ho. destruct (TO a v w Hv Ho) as (r & q & Hr & Hq & Ht & Hs & Hph).
    destruct (decide (w ∈ ws)) as [Hw|Hw].
    + rewrite Hws in Hq by done. simplify_eq. exists r, (Pend b). rewrite Hin by done.
      split_and!; [done..|]. destruct (v_own v) as [|w' l'|w'|w'] eqn:Hov; simpl in *; [done|..].
      * destruct Hph as [[= <-] _]. exfalso. by eapply Hnw.
      * destruct Hph as [? Hb']. split; [done|]. by destruct (bl a).
      * by destruct Hph.
    + exists r, q. by rewrite Hout.
  - intros w [?|Hw]; [by apply TR; left|]. apply TR. right. rewrite Hl in Hw.
    destruct (loc !! w); [eauto|by destruct Hw].
  - apply TU.
  - apply TB.
Qed.

(** A thread that has entered a list suspends, or starts polling. *)
Lemma tokens_wait h V bl bl' L P loc a v w l :
  tokens h V bl L P loc → V !! a = Some v → v_own v = Waiting w l → v_awk v = None →
  bl' a = v_ult v → (∀ b, b ≠ a → bl' b = bl b) →
  tokens h (<[a := mk_view (v_ult v) (if v_ult v then Resuming w else Polling w) None]> V) bl' L P loc.
Proof.
  intros T Hv Ho Hna Hbl Hoth. pose proof T as [TI TP TW TA TO TR TU TB].
  assert (owned (if v_ult v then Resuming w else Polling w) = Some w) as Hown by by destruct (v_ult v).
  assert (∀ b v1 w1, V !! b = Some v1 → owned (v_own v1) = Some w1 →
    ∃ v2, <[a := mk_view (v_ult v) (if v_ult v then Resuming w else Polling w) None]> V !! b = Some v2
      ∧ owned (v_own v2) = Some w1) as Hkeep.
  { intros b v1 w1 Hb Hw1. at_key a b; [|eauto]. simplify_eq. rewrite Ho in Hw1. simplify_eq/=. eauto. }
  split; try done.
  - intros b w1 (v1 & t & v2 & Hb & Ht & Hv2 & Ho2)%TW. destruct (Hkeep t v2 w1 Hv2 Ho2) as (v3 & ? & ?).
    exists v1, t, v3. rewrite lookup_insert_ne; [done|]. intros <-. congruence.
  - intros b v1 t. at_key a b; [by intros [= <-]|]. intros Hb Ht.
    destruct (TA b v1 t Hb Ht) as (w1 & v2 & Hl & Hv2 & Ho2).
    destruct (Hkeep t v2 w1 Hv2 Ho2) as (v3 & ? & ?). by exists w1, v3.
  - intros b v1 w1. at_key a b.
    + intros [= <-]. simpl. rewrite Hown. intros [= <-].
      destruct (TO a v w Hv) as (r & p & Hr & Hp & Ht & Hs & Hph); [by rewrite Ho|].
      rewrite Ho in Hph. destruct Hph as [-> _]. exists r, (InList l). split_and!; [done..|].
      rewrite Hbl. destruct (v_ult v); done.
    + intros Hb Hw1. rewrite Hoth by done. by apply TO.
  - intros w1 (b & v1 & Hb & Hw1)%TR. destruct (Hkeep b v1 w1 Hb Hw1) as (v2 & ? & ?). by exists b, v2.
  - intros b b' v1 v2 w1. at_key a b; at_key a b'; [done|..].
    + intros [= <-] Hb'. simpl. rewrite Hown. intros [= <-] Hw1. eapply (TU a b' v v2); eauto. by rewrite Ho.
    + intros Hb [= <-] Hw1. simpl. rewrite Hown. intros [= <-]. eapply (TU b a v1 v); eauto. by rewrite Ho.
    + apply TU.
  - intros b v1. at_key a b.
    + intros [= <-]. rewrite Hbl. simpl. intros ->. eauto.
    + intros Hb. rewrite Hoth by done. by apply TB.
Qed.

(** A record that has been delivered goes out of scope. *)
Lemma tokens_free h V bl L P loc a v w :
  tokens h V bl L P loc → V !! a = Some v → owned (v_own v) = Some w → v_awk v = None →
  loc !! w = Some Gone → bl a = false →
  tokens (delete w h) (<[a := mk_view (v_ult v) NoOwn None]> V) bl L P (delete w loc).
Proof.
  intros T Hv Ho Hna Hl Hbl. pose proof T as [TI TP TW TA TO TR TU TB].
  assert (∀ b v1 w1, V !! b = Some v1 → owned (v_own v1) = Some w1 → w1 ≠ w → b ≠ a) as Hne.
  { intros b v1 w1 Hb Hw1 Hn ->. simplify_eq. }
  assert (∀ b v1 w1, V !! b = Some v1 → owned (v_own v1) = Some w1 → b ≠ a → w1 ≠ w) as Hne'.
  { intros b v1 w1 Hb Hw1 Hn ->. by apply Hn, (TU b a v1 v w). }
  split.
  - intros l w1. destruct (decide (w = w1)) as [<-|Hn].
    + rewrite lookup_delete_eq. split; [done|]. intros ?%TI. congruence.
    + rewrite lookup_delete_ne by done. apply TI.
  - intros b w1. destruct (decide (w = w1)) as [<-|Hn].
    + rewrite lookup_delete_eq. split; [done|]. intros ?%TP. congruence.
    + rewrite lookup_delete_ne by done. apply TP.
  - intros b w1. destruct (decide (w = w1)) as [<-|Hn]; [by rewrite lookup_delete_eq|].
    rewrite lookup_delete_ne by done. intros (v1 & t & v2 & Hb & Ht & Hv2 & Ho2)%TW.
    exists v1, t, v2. rewrite !lookup_insert_ne; [done|..].
    + apply not_eq_sym. by eapply Hne.
    + intros <-. congruence.
  - intros b v1 t. at_key a b; [by intros [= <-]|]. intros Hb Ht.
    destruct (TA b v1 t Hb Ht) as (w1 & v2 & Hlw & Hv2 & Ho2).
    assert (w1 ≠ w) by (intros ->; congruence). exists w1, v2.
    rewrite lookup_delete_ne, lookup_insert_ne by (done || apply not_eq_sym; by eapply Hne). done.
  - intros b v1 w1. at_key a b; [by intros [= <-]|]. intros Hb Hw1.
    destruct (TO b v1 w1 Hb Hw1) as (r & p & Hr & Hp & ?). exists r, p.
    rewrite !lookup_delete_ne; [done|..]; apply not_eq_sym; by eapply Hne'.
  - intros w1 Hw1. assert (w1 ≠ w) as Hn.
    { intros ->. rewrite !lookup_delete_eq in Hw1. by destruct Hw1 as [[? [=]]|[? [=]]]. }
    rewrite !lookup_delete_ne in Hw1 by done. apply TR in Hw1 as (b & v1 & Hb & Hw1). exists b, v1.
    rewrite lookup_insert_ne; [done|]. apply not_eq_sym. by eapply Hne.
  - intros b b' v1 v2 w1. at_key a b; at_key a b'; [done|by intros [= <-]|by intros _ [= <-]|apply TU].
  - intros b v1. at_key a b; [congruence|apply TB].
Qed.

(** Thread [b] signals the record [w] it holds; the owner's wake-up follows
    when the owner is a ULT. *)
Lemma tokens_wake h V bl L P loc b v w p r :
  tokens h V bl L P loc → V !! b = Some v → v_awk v = None → P !! b = Some (w :: p) → w ∉ p →
  h !! w = Some r →
  tokens (<[w := r <| signaled := true |>]> h) (<[b := mk_view (v_ult v) (v_own v) (w_thread r)]> V)
    bl L (<[b := p]> P) (<[w := if is_null (w_thread r) then Gone else Waking b]> loc).
Proof.
  intros T Hv Hna HP Hnp Hr. pose proof T as [TI TP TW TA TO TR TU TB].
  assert (loc !! w = Some (Pend b)) as Hl.
  { apply TP. exists (w :: p). split; [done|]. constructor. }
  destruct (TR w) as (a & va & Ha & Hoa); [eauto|].
  destruct (TO a va w Ha Hoa) as (r' & q & Hr' & Hq & Hth & Hs & Hph). simplify_eq.
  set (V' := <[b := mk_view (v_ult v) (v_own v) (w_thread r)]> V).
  assert (∀ c v1, V !! c = Some v1 → ∃ v2, V' !! c = Some v2 ∧ v_own v2 = v_own v1 ∧ v_ult v2 = v_ult v1 ∧
    (c ≠ b → v2 = v1)) as Hk.
  { intros c v1 Hc. unfold V'. at_key b c; [simplify_eq; by eexists|eauto]. }
  assert (∀ c v2, V' !! c = Some v2 → ∃ v1, V !! c = Some v1 ∧ v_own v2 = v_own v1 ∧
    v_ult v2 = v_ult v1 ∧ (c ≠ b → v2 = v1) ∧ (c = b → v_awk v2 = w_thread r)) as Hk'.
  { intros c v2. unfold V'. at_key b c; [intros [= <-]; by exists v|]. intros Hc. exists v2. naive_solver. }
  split.
  - intros l w1. at_key w w1.
    + split; [by destruct (w_thread r)|]. intros ?%TI. congruence.
    + apply TI.
  - intros c w1. at_key w w1.
    + split; [by destruct (w_thread r)|]. intros (c1 & Hc1 & Hw1). destruct (decide (b = c)) as [<-|Hn].
      * rewrite lookup_insert_eq in Hc1. by simplify_eq.
      * rewrite lookup_insert_ne in Hc1 by done.
        assert (loc !! w = Some (Pend c)) by (apply TP; eauto). congruence.
    + rewrite TP. at_key b c; [|done]. split; intros (c1 & ? & Hw1); simplify_eq.
      * eexists. split; [done|]. apply elem_of_cons in Hw1. naive_solver.
      * eexists. split; [done|]. by right.
  - intros c w1. at_key w w1.
    + destruct (w_thread r) as [t|] eqn:Ht; [|done]. intros [= <-].
      assert (t = a) as -> by (destruct (v_ult va); congruence).
      destruct (Hk a va Ha) as (v2 & ? & Ho2 & _). destruct (Hk b v Hv) as (v3 & Hv3 & _).
      destruct (Hk' b v3 Hv3) as (_ & _ & _ & _ & _ & Haw).
      exists v3, a, v2. rewrite Ho2. auto.
    + intros (v1 & t & v2 & Hc & Ht & Hv2 & Ho2)%TW. assert (c ≠ b) by congruence.
      destruct (Hk c v1 Hc) as (v3 & Hv3 & _ & _ & Heq). destruct (Hk t v2 Hv2) as (v4 & Hv4 & Ho4 & _).
      exists v3, t, v4. rewrite Heq, Ho4 by done. rewrite Heq in Hv3 by done. done.
  - intros c v2 t Hc Ht. destruct (Hk' c v2 Hc) as (v1 & Hc1 & _ & _ & Hsame & Hb).
    destruct (decide (c = b)) as [->|Hn].
    + rewrite Hb in Ht by done. exists w. assert (t = a) as -> by (destruct (v_ult va); congruence).
      destruct (Hk a va Ha) as (v3 & ? & Ho3 & _). exists v3. rewrite lookup_insert_eq, Ht, Ho3. done.
    + rewrite Hsame in Ht by done. destruct (TA c v1 t Hc1 Ht) as (w1 & v3 & Hl1 & Hv3 & Ho3).
      destruct (Hk t v3 Hv3) as (v4 & ? & Ho4 & _). exists w1, v4.
      rewrite lookup_insert_ne, Ho4; [done|]. intros <-. congruence.
  - intros c v2 w1 Hc Hw1. destruct (Hk' c v2 Hc) as (v1 & Hc1 & Ho1 & Hu1 & _).
    rewrite Ho1 in Hw1. destruct (TO c v1 w1 Hc1 Hw1) as (r1 & q1 & Hr1 & Hq1 & Ht1 & Hs1 & Hp1).
    rewrite Hu1, Ho1. at_key w w1; [|by exists r1, q1].
    assert (c = a) as -> by (by eapply TU). assert (v1 = va) as -> by congruence. simplify_eq.
    eexists _, _. split_and!; [done|done|done|by destruct (w_thread r)|].
    destruct (v_own va) as [|w' l|w'|w'] eqn:Hov; simpl in *; [done|..].
    + by destruct Hp1.
    + destruct Hp1 as [Hu Hb]. rewrite Hu in Ht1. rewrite Ht1. split; [done|]. by destruct (bl a).
    + destruct Hp1 as [Hu _]. rewrite Hu in Ht1. by rewrite Ht1.
  - intros w1 Hw1. assert (is_Some (h !! w1) ∨ is_Some (loc !! w1)) as Hw2.
    { revert Hw1. at_key w w1; [eauto|done]. }
    apply TR in Hw2 as (c & v1 & Hc & Hw2). destruct (Hk c v1 Hc) as (v2 & ? & Ho2 & _).
    exists c, v2. by rewrite Ho2.
  - intros c c' v1 v2 w1 (v3 & Hc1 & Ho1 & _)%Hk' (v4 & Hc2 & Ho2 & _)%Hk'. rewrite Ho1, Ho2.
    by eapply TU.
  - intros c v2 (v1 & Hc1 & Ho1 & Hu1 & _)%Hk'. rewrite Ho1, Hu1. by apply TB.
Qed.

(** Thread [b] awakens [t]: the wake-up is delivered. *)
Lemma tokens_awaken h V bl bl' L P loc b v t :
  tokens h V bl L P loc → V !! b = Some v → v_awk v = Some t →
  bl' t = false → (∀ a, a ≠ t → bl' a = bl a) →
  ∃ w, tokens h (<[b := mk_view (v_ult v) (v_own v) None]> V) bl' L P (<[w := Gone]> loc).
Proof.
  intros T Hv Haw Hbl Hoth. pose proof T as [TI TP TW TA TO TR TU TB].
  destruct (TA b v t Hv Haw) as (w & vt & Hl & Ht & Hot). exists w.
  set (V' := <[b := mk_view (v_ult v) (v_own v) None]> V).
  assert (∀ c v1, V !! c = Some v1 → ∃ v2, V' !! c = Some v2 ∧ v_own v2 = v_own v1 ∧
    v_ult v2 = v_ult v1 ∧ (c ≠ b → v2 = v1)) as Hk.
  { intros c v1 Hc. unfold V'. at_key b c; [simplify_eq; by eexists|eauto]. }
  assert (∀ c v2, V' !! c = Some v2 → ∃ v1, V !! c = Some v1 ∧ v_own v2 = v_own v1 ∧
    v_ult v2 = v_ult v1 ∧ (c ≠ b → v2 = v1) ∧ (c = b → v_awk v2 = None)) as Hk'.
  { intros c v2. unfold V'. at_key b c; [intros [= <-]; by exists v|]. intros Hc. exists v2. naive_solver. }
  split.
  - intros l w1. at_key w w1; [|apply TI]. split; [done|]. intros ?%TI. congruence.
  - intros c w1. at_key w w1; [|apply TP]. split; [done|]. intros ?%TP. congruence.
  - intros c w1. at_key w w1; [done|]. intros Hw1. pose proof Hw1 as (v1 & t1 & v2 & Hc & Ht1 & Hv2 & Ho2)%TW.
    assert (c ≠ b) as Hn.
    { intros ->. simplify_eq. }
    destruct (Hk c v1 Hc) as (v3 & Hv3 & _ & _ & Heq). destruct (Hk t1 v2 Hv2) as (v4 & Hv4 & Ho4 & _).
    exists v3, t1, v4. rewrite Ho4. rewrite Heq in * by done. done.
  - intros c v2 t1 Hc Ht1. destruct (Hk' c v2 Hc) as (v1 & Hc1 & _ & _ & Hsame & Hb).
    assert (c ≠ b) as Hn by (intros ->; rewrite Hb in Ht1; done).
    rewrite Hsame in Ht1 by done. destruct (TA c v1 t1 Hc1 Ht1) as (w1 & v3 & Hl1 & Hv3 & Ho3).
    destruct (Hk t1 v3 Hv3) as (v4 & ? & Ho4 & _). exists w1, v4.
    rewrite lookup_insert_ne, Ho4; [done|]. intros <-. congruence.
  - intros c v2 w1 Hc Hw1. destruct (Hk' c v2 Hc) as (v1 & Hc1 & Ho1 & Hu1 & _).
    rewrite Ho1 in Hw1. destruct (TO c v1 w1 Hc1 Hw1) as (r1 & q1 & Hr1 & Hq1 & Ht1 & Hs1 & Hp1).
    rewrite Hu1, Ho1. at_key w w1.
    + assert (c = t) as -> by (by eapply TU). simplify_eq. exists r1, Gone. split_and!; [done..|].
      rewrite Hbl. destruct (v_own vt); simpl in *; [done|by destruct Hp1|naive_solver|].
      destruct Hp1 as [_ Hp1]. by destruct (Hp1 b).
    + exists r1, q1. split_and!; [done..|]. rewrite Hoth; [done|]. intros ->.
      assert (vt = v1) as <- by congruence. congruence.
  - intros w1 Hw1. assert (is_Some (h !! w1) ∨ is_Some (loc !! w1)) as Hw2.
    { revert Hw1. at_key w w1; [eauto|done]. }
    apply TR in Hw2 as (c & v1 & Hc & Hw2). destruct (Hk c v1 Hc) as (v2 & ? & Ho2 & _).
    exists c, v2. by rewrite Ho2.
  - intros c c' v1 v2 w1 (v3 & Hc1 & Ho1 & _)%Hk' (v4 & Hc2 & Ho2 & _)%Hk'. rewrite Ho1, Ho2.
    by eapply TU.
  - intros c v2 (v1 & Hc1 & Ho1 & Hu1 & _)%Hk' Hb. rewrite Ho1, Hu1.
    destruct (decide (c = t)) as [->|]; [congruence|]. rewrite Hoth in Hb by done. by apply (TB c).
Qed.
End tokens.
