(* ===== verification/SyncWake.v ===== *)
(** * No lost wake-up, no dangling waiter

    For threads that make no timed waits, in every reachable state of the
    machine of [Sync]: the spinlocks are held by the threads whose instructions
    say so; every waiter record is in one place ([SyncTokens]); so a blocked
    thread is on a wait list or its wake-up is on the way, a wake-up finds the
    record alive and its thread suspended at the wait it is for, and no
    instruction dereferences a dead record. *)

From S2P Require Import Prelude AbtTypes Objects Waitlist Sync SyncTokens.

(** ** What a thread's instructions say *)

(** The spinlocks it holds. *)
Fixpoint need (k : list instr) : list lockref :=
  match k with
  | [] => []
  | i :: k =>
      match i with
      | IAcquire _ => tail (need k)
      | IRelease l | IWait _ l => l :: need k
      | IMutexBody m _ | ITryBody m | IUnlockBody m => LM m :: need k
      | ICondEnter c _ _ _ _ _ | ISignalBody c | IBroadcastBody c => LC c :: need k
      | IEventEnter e _ | ISetBody e _ _ | IResetBody e | ITestBody e => LE e :: need k
      | _ => need k
      end
  end.
(** Its own waiter. *)
Fixpoint own (k : list instr) : ownst :=
  match k with
  | [] => NoOwn
  | IWait w l :: _ => Waiting w l
  | IResume w :: _ => Resuming w
  | IPoll w :: _ => Polling w
  | _ :: k => own k
  end.
(** The thread it is about to awaken. *)
Definition awk (k : list instr) : option Z :=
  match k with IAwaken t :: _ => Some t | _ => None end.
(** The records it is about to wake. *)
Fixpoint pend (h : gmap Z ABTI_waiter) (k : list instr) (c : list ptr) : Prop :=
  match k with
  | [] => c = []
  | IWake w :: k => ∃ c', c = w :: c' ∧ pend h k c'
  | IWalk o :: k => ∃ c1 c2, c = c1 ++ c2 ∧ wchain h o c1 ∧ pend h k c2
  | _ :: k => pend h k c
  end.

(** Instructions that only ever come first. *)
Definition head_only (i : instr) : bool :=
  match i with IResume _ | IPoll _ | IAwaken _ => true | _ => false end.
Definition is_ret (i : instr) : bool := match i with IRet _ _ => true | _ => false end.

(** The instruction lists that untimed calls run through. *)
Fixpoint wf (k : list instr) : Prop :=
  match k with
  | [] => True
  | i :: k =>
      wf k ∧ forallb (λ j, negb (head_only j)) k = true ∧
      match i with
      | IAcquire l => head (need k) = Some l ∧ ∀ w, own k ≠ Waiting w l
      | IMutexBody _ _ | ITryBody _ | IWait _ _ | IResume _ | IPoll _ | IEventEnter _ false =>
          need k = [] ∧ own k = NoOwn
      | ICondEnter _ _ false ok bad _ => k = [] ∧ forallb is_ret ok = true ∧ forallb is_ret bad = true
      | ISetBody _ _ _ => k = []
      | IEventEnter _ true | ICondEnter _ _ true _ _ _ | ITimed _ _ _ _ | ITimedOut _ _ _ _ | IFree _ => False
      | _ => True
      end
  end.

Section stacks.
Implicit Types (k : list instr) (h : gmap Z ABTI_waiter).

Lemma own_waiting_need k w l : wf k → own k = Waiting w l → l ∈ need k.
Proof.
  induction k as [|i k IH]; [done|]. intros (Hk & _ & Hi) Ho.
  destruct i; simpl in *; simplify_eq; try (apply elem_of_cons; by auto); try (by auto).
  destruct Hi as [Hh Hne]. specialize (IH Hk Ho). destruct (need k) as [|l' H]; [done|].
  simplify_eq/=. apply elem_of_cons in IH as [->|]; [|done]. by edestruct Hne.
Qed.

Lemma own_resuming_head k w : wf k → own k = Resuming w → ∃ k', k = IResume w :: k'.
Proof.
  intros Hwf Ho. destruct k as [|i k]; [done|].
  assert (∀ k, forallb (λ j, negb (head_only j)) k = true → own k ≠ Resuming w) as Hno.
  { clear. induction k as [|i k IH]; [done|]. simpl. intros [Hi Hk]%andb_true_iff. by destruct i; auto. }
  destruct Hwf as (_ & Hh & _). destruct i; simpl in *; simplify_eq; try (by edestruct Hno); eauto.
Qed.

Lemma rets_facts k :
  forallb is_ret k = true →
  wf k ∧ need k = [] ∧ own k = NoOwn ∧ awk k = None ∧ (∀ h, pend h k []) ∧
  forallb (λ j, negb (head_only j)) k = true.
Proof.
  induction k as [|i k IH]; [done|]. simpl. intros [Hi Hk]%andb_true_iff.
  destruct i; try done. destruct (IH Hk) as (? & ? & ? & ? & ? & ?). done.
Qed.

Lemma pend_frame h h' k c :
  (∀ w, w ∈ c → w_next <$> h' !! w = w_next <$> h !! w) → pend h k c → pend h' k c.
Proof.
  revert c. induction k as [|i k IH]; intros c Heq; [done|].
  destruct i; simpl; try (by apply IH).
  - intros (c' & -> & Hp). exists c'. split; [done|]. apply IH; [set_solver|done].
  - intros (c1 & c2 & -> & Hc & Hp). exists c1, c2. split_and!; [done| |].
    + eapply wchain_frame; [|exact Hc]. set_solver.
    + apply IH; [set_solver|done].
Qed.
End stacks.

Section inv.
Context `{CthLaws}.
Implicit Types (s : sst) (a b w : Z) (x y : agent).

Definition view_of x : view := mk_view (a_ult x) (own (a_stack x)) (awk (a_stack x)).
Definition views s : gmap Z view := view_of <$> agents s.

(** ** Spinlocks *)

Record locks_ok s : Prop := {
  lk_stack a x : agents s !! a = Some x → wf (a_stack x) ∧ NoDup (need (a_stack x));
  lk_excl a b x y l : agents s !! a = Some x → agents s !! b = Some y →
    l ∈ need (a_stack x) → l ∈ need (a_stack y) → a = b;
  lk_slock l : slocks s !! l = Some true ↔
    ∃ a x, agents s !! a = Some x ∧ l ∈ need (a_stack x);
}.

(** ** Lists *)

Record lists_ok s (L : gmap lockref (list ptr)) (P : gmap Z (list ptr)) : Prop := {
  ls_rep l q : wls s !! l = Some q → ∃ c, L !! l = Some c ∧ wl_rep (waiters s) q c;
  ls_dom l : is_Some (L !! l) → is_Some (wls s !! l);
  ls_pend b y : agents s !! b = Some y →
    ∃ c, P !! b = Some c ∧ NoDup c ∧ pend (waiters s) (a_stack y) c;
  ls_pdom b : is_Some (P !! b) → is_Some (agents s !! b);
  ls_fresh w : is_Some (waiters s !! w) → w < s_brk s;
}.

Definition blk s (a : Z) : bool := is_blocked a (cst s).

(** ** Objects *)

Definition obj s (l : lockref) : Prop :=
  is_Some (wls s !! l) ∧
  match l with
  | LM m => is_Some (mutexes s !! m)
  | LC c => is_Some (conds s !! c)
  | LE e => is_Some (events s !! e)
  end.
(** The objects an instruction works on. *)
Definition refs (i : instr) : list lockref :=
  match i with
  | IAcquire l | IRelease l | IWait _ l | ITimed _ l _ _ | ITimedOut _ l _ _ => [l]
  | IMutexBody m _ | ITryBody m | IUnlockBody m => [LM m]
  | ICondEnter c m _ _ _ _ => [LC c; LM m]
  | ISignalBody c | IBroadcastBody c => [LC c]
  | IEventEnter e _ | ISetBody e _ _ | IResetBody e | ITestBody e => [LE e]
  | _ => []
  end.
Definition objs_ok s : Prop :=
  ∀ a x i l, agents s !! a = Some x → i ∈ a_stack x → l ∈ refs i → obj s l.

(** The invariant. *)
Definition wake_inv s : Prop :=
  locks_ok s ∧ objs_ok s ∧
  ∃ L P loc, lists_ok s L P ∧ tokens (waiters s) (views s) (blk s) L P loc.

(** ** A thread moves on

    Agent [a] of [s], at the instructions [a_stack x], is at [a_stack x'] in
    [s']; the other threads are where they were. *)
Record moved a x x' s s' : Prop := {
  mv_from : agents s !! a = Some x;
  mv_to : agents s' = <[a := x']> (agents s);
  mv_ult : a_ult x' = a_ult x;
  mv_wf : wf (a_stack x') ∧ NoDup (need (a_stack x'));
  mv_new l : l ∈ need (a_stack x') → l ∈ need (a_stack x) ∨ slocks s !! l ≠ Some true;
  mv_slock l : slocks s' !! l = Some true ↔
    l ∈ need (a_stack x') ∨ slocks s !! l = Some true ∧ l ∉ need (a_stack x);
  mv_refs i l : i ∈ a_stack x' → l ∈ refs i → obj s l;
  mv_obj l : obj s l → obj s' l;
}.

Lemma moved_locks a x x' s s' : moved a x x' s s' → locks_ok s → locks_ok s'.
Proof.
  intros [Hx Ha _ Hwf Hnew Hsl _ _] [LS LE LL].
  assert (∀ b y l, b ≠ a → agents s !! b = Some y → l ∈ need (a_stack y) → l ∉ need (a_stack x')) as Hsep.
  { intros b y l Hne Hb Hl Hl'. destruct (Hnew l Hl') as [Ho|Hf]; [by apply Hne, (LE b a y x l)|].
    apply Hf, LL. eauto. }
  split; rewrite Ha.
  - intros b y. destruct (decide (a = b)) as [<-|Hne].
    + rewrite lookup_insert_eq. by intros [= <-].
    + rewrite lookup_insert_ne by done. apply LS.
  - intros b c y z l. destruct (decide (a = b)) as [<-|Hb], (decide (a = c)) as [<-|Hc]; [done|..];
      rewrite ?lookup_insert_eq, ?lookup_insert_ne by done.
    + intros [= <-] Hz Hl Hl'. by destruct (Hsep c z l (not_eq_sym Hc) Hz Hl').
    + intros Hy [= <-] Hl Hl'. by destruct (Hsep b y l (not_eq_sym Hb) Hy Hl).
    + apply LE.
  - intros l. rewrite Hsl. split.
    + intros [Hl|[Hl Hn]]; [exists a, x'; by rewrite lookup_insert_eq|].
      apply LL in Hl as (b & y & Hb & Hl). exists b, y. rewrite lookup_insert_ne; [done|].
      intros <-. by simplify_eq.
    + intros (b & y & Hb & Hl). destruct (decide (a = b)) as [<-|Hne].
      * rewrite lookup_insert_eq in Hb. simplify_eq. by left.
      * rewrite lookup_insert_ne in Hb by done. right. split; [apply LL; eauto|].
        intros Hl'. by apply Hne, (LE a b x y l).
Qed.

Lemma moved_objs a x x' s s' : moved a x x' s s' → objs_ok s → objs_ok s'.
Proof.
  intros M Ho b y i l. rewrite (mv_to _ _ _ _ _ M). destruct (decide (a = b)) as [<-|Hne].
  - rewrite lookup_insert_eq. intros [= <-] Hi Hl. apply M. by eapply M.
  - rewrite lookup_insert_ne by done. intros. apply M. by eapply Ho.
Qed.

Lemma moved_views a x x' s s' :
  moved a x x' s s' →
  views s' = <[a := mk_view (a_ult x) (own (a_stack x')) (awk (a_stack x'))]> (views s).
Proof.
  intros M. unfold views. rewrite (mv_to _ _ _ _ _ M), fmap_insert. unfold view_of at 1.
  by rewrite (mv_ult _ _ _ _ _ M).
Qed.
Lemma moved_view a x x' s s' : moved a x x' s s' → views s !! a = Some (view_of x).
Proof. intros M. unfold views. by rewrite lookup_fmap, (mv_from _ _ _ _ _ M). Qed.

(** The lists after a move that keeps the wait lists as [L'] and leaves [a]
    the records [c] to wake. *)
Lemma moved_lists a x x' s s' L L' P c :
  moved a x x' s s' → lists_ok s L P →
  (∀ l q, wls s' !! l = Some q → ∃ d, L' !! l = Some d ∧ wl_rep (waiters s') q d) →
  (∀ l, is_Some (L' !! l) → is_Some (wls s' !! l)) →
  NoDup c → pend (waiters s') (a_stack x') c →
  (∀ b y d, b ≠ a → agents s !! b = Some y → P !! b = Some d →
     pend (waiters s) (a_stack y) d → pend (waiters s') (a_stack y) d) →
  (∀ w, is_Some (waiters s' !! w) → w < s_brk s') →
  lists_ok s' L' (<[a := c]> P).
Proof.
  intros M [LR LD LP LPD LF] HR HD Hnd Hp Hoth Hfr. split; [done|done| | |done].
  - intros b y. rewrite (mv_to _ _ _ _ _ M). destruct (decide (a = b)) as [<-|Hne].
    + rewrite !lookup_insert_eq. intros [= <-]. eauto.
    + rewrite !lookup_insert_ne by done. intros Hb. destruct (LP b y Hb) as (d & Hd & ? & ?). eauto 6.
  - intros b. rewrite (mv_to _ _ _ _ _ M), !lookup_insert_is_Some. intros [->|[? ?]]; [by left|]. right. eauto.
Qed.

(** Nothing but spinlocks, mutex fields and the thread's own code changes. *)
Lemma inv_quiet a x x' s s' :
  wake_inv s → moved a x x' s s' →
  waiters s' = waiters s → wls s' = wls s → cst s' = cst s → s_brk s' = s_brk s →
  own (a_stack x') = own (a_stack x) → awk (a_stack x') = awk (a_stack x) →
  (∀ c, pend (waiters s) (a_stack x) c → pend (waiters s) (a_stack x') c) →
  wake_inv s'.
Proof.
  intros (HL & HO & L & P & loc & HS & HT) M Ew El Ec Eb Eo Ea Ep.
  split; [by eapply moved_locks|]. split; [by eapply moved_objs|].
  destruct (ls_pend _ _ _ HS a x (mv_from _ _ _ _ _ M)) as (c & Hc & Hnd & Hp).
  exists L, (<[a := c]> P), loc. rewrite Ew. split.
  - eapply (moved_lists a x x' s s' L L P c); rewrite ?Ew, ?El, ?Eb; eauto; apply HS.
  - rewrite (insert_id P) by done. rewrite (moved_views _ _ _ _ _ M), Eo, Ea.
    rewrite insert_id by (by eapply moved_view). unfold blk. by rewrite Ec.
Qed.

(** ** The moves *)

Lemma wl_rep_frame (h h' : gmap Z ABTI_waiter) q c :
  (∀ w, w ∈ c → h' !! w = h !! w) → wl_rep h q c → wl_rep h' q c.
Proof.
  intros Heq [Hc Ht Hn]. split; [|done..]. eapply wchain_frame, Hc. intros w Hw. by rewrite Heq.
Qed.

Lemma inv_enqueue a x x' s s' l q q' :
  wake_inv s → moved a x x' s s' → let w := s_brk s in
  own (a_stack x) = NoOwn → awk (a_stack x) = None → blk s a = false →
  wls s !! l = Some q → wls s' = <[l := q']> (wls s) → cst s' = cst s → s_brk s' = Z.succ w →
  (∀ c, wl_rep (waiters s) q c → w ∉ c → wl_rep (waiters s') q' (c ++ [w]) ∧
     next_frame (c ++ [w])
       (<[w := mk_waiter (if a_ult x then Some a else None) false None]> (waiters s)) (waiters s')) →
  own (a_stack x') = Waiting w l → awk (a_stack x') = None →
  (∀ h c, pend h (a_stack x) c → pend h (a_stack x') c) →
  wake_inv s'.
Proof.
  intros (HL & HO & L & P & loc & HS & HT) M w Hno Hna Hbl Hq Eq Ec Eb Hrep Ho' Ha' Hpend.
  split; [by eapply moved_locks|]. split; [by eapply moved_objs|].
  destruct (ls_rep _ _ _ HS l q Hq) as (c & Hc & Hr).
  assert (waiters s !! w = None) as Hw.
  { apply eq_None_not_Some. intros Hw%(ls_fresh _ _ _ HS). unfold w in Hw. lia. }
  assert (∀ v, v ∈ c → loc !! v = Some (InList l)) as Hcl
    by (intros v Hv; apply (t_in _ _ _ _ _ _ HT); eauto).
  assert (w ∉ c) as Hwc.
  { intros Hv%Hcl. destruct (tokens_live _ _ _ _ _ _ w HT) as [r Hr']; [eauto|congruence]. }
  destruct (Hrep c Hr Hwc) as [Hr' [F1 F2]]. clear Hrep.
  assert (∀ v, v ∉ c ++ [w] → waiters s' !! v = waiters s !! v) as F.
  { intros v Hv. rewrite F1 by done. apply lookup_insert_ne. set_solver. }
  assert (∀ v p, loc !! v = Some p → p ≠ InList l → v ∉ c ++ [w]) as Hout.
  { intros v p Hv Hp [Hvc|Hvw]%elem_of_app; [rewrite (Hcl v Hvc) in Hv; congruence|].
    apply list_elem_of_singleton in Hvw as ->.
    destruct (tokens_live _ _ _ _ _ _ w HT) as [r ?]; [eauto|congruence]. }
  destruct (ls_pend _ _ _ HS a x (mv_from _ _ _ _ _ M)) as (pc & Hpc & Hnd & Hp).
  assert (∀ b d v, P !! b = Some d → v ∈ d → waiters s' !! v = waiters s !! v) as Hpf.
  { intros b d v Hd Hv. apply F, (Hout v (Pend b)); [|done]. apply (t_pend _ _ _ _ _ _ HT). eauto. }
  exists (<[l := c ++ [w]]> L), (<[a := pc]> P), (<[w := InList l]> loc). split.
  - eapply (moved_lists a x x' s s' L); [done|done|..].
    + rewrite Eq. intros l2 q2. destruct (decide (l = l2)) as [<-|Hne].
      * rewrite !lookup_insert_eq. intros [= <-]. eauto.
      * rewrite !lookup_insert_ne by done. intros Hq2. destruct (ls_rep _ _ _ HS l2 q2 Hq2) as (d & Hd & Hrd).
        exists d. split; [done|]. eapply wl_rep_frame; [|exact Hrd]. intros v Hv. apply F.
        apply (Hout v (InList l2)); [|congruence]. apply (t_in _ _ _ _ _ _ HT). eauto.
    + intros l2. rewrite Eq, !lookup_insert_is_Some. intros [->|[? ?]]; [by left|].
      right. split; [done|]. by eapply ls_dom.
    + done.
    + apply Hpend. eapply pend_frame; [|exact Hp]. intros v Hv. by rewrite (Hpf a pc v).
    + intros b y d _ _ Hd. apply pend_frame. intros v Hv. by rewrite (Hpf b d v).
    + intros v Hv. rewrite Eb. destruct (decide (v = w)) as [->|Hne]; [lia|].
      assert (is_Some (waiters s !! v)) as Hv'%(ls_fresh _ _ _ HS); [|unfold w; lia].
      specialize (F2 v). rewrite lookup_insert_ne in F2 by done. destruct Hv as [r Hr2].
      rewrite Hr2 in F2. destruct (waiters s !! v); [eauto|done].
  - rewrite (insert_id P) by done. rewrite (moved_views _ _ _ _ _ M), Ho', Ha'.
    eapply tokens_next; [exact F2|]. unfold blk. rewrite Ec.
    apply (tokens_enqueue _ _ _ _ _ _ a (view_of x) w l c); [exact HT|by eapply moved_view|done..].
Qed.

(** Records leave the list of [l], whose spinlock [a] holds. *)
Lemma inv_dequeue a x x' s s' l q q' ws :
  wake_inv s → moved a x x' s s' → l ∈ need (a_stack x) → own (a_stack x) = own (a_stack x') →
  awk (a_stack x) = None → awk (a_stack x') = None → (∀ w, own (a_stack x) ≠ Waiting w l) →
  wls s !! l = Some q → wls s' = <[l := q']> (wls s) → waiters s' = waiters s → cst s' = cst s →
  s_brk s' = s_brk s →
  (∀ c, wl_rep (waiters s) q c → ∃ d, c = ws ++ d ∧ wl_rep (waiters s) q' d) →
  (∀ c, pend (waiters s) (a_stack x) c → pend (waiters s) (a_stack x') (ws ++ c)) →
  wake_inv s'.
Proof.
  intros (HL & HO & L & P & loc & HS & HT) M Hneed Eo Ha Ha' Hnw Hq Eq Ew Ec Eb Hrep Hpend.
  split; [by eapply moved_locks|]. split; [by eapply moved_objs|].
  destruct (ls_rep _ _ _ HS l q Hq) as (c & Hc & Hr). destruct (Hrep c Hr) as (d & -> & Hrd).
  pose proof (wr_nodup _ _ _ Hr) as Hnd.
  destruct (ls_pend _ _ _ HS a x (mv_from _ _ _ _ _ M)) as (pc & Hpc & Hndp & Hp).
  assert (∀ v, v ∈ ws → v ∉ pc) as Hdis.
  { intros v Hv Hvp. assert (loc !! v = Some (InList l)) as H1.
    { apply (t_in _ _ _ _ _ _ HT). exists (ws ++ d). split; [done|]. apply elem_of_app. by left. }
    assert (loc !! v = Some (Pend a)) by (apply (t_pend _ _ _ _ _ _ HT); eauto). congruence. }
  eexists (<[l := d]> L), (<[a := ws ++ pc]> P), _. split.
  - eapply (moved_lists a x x' s s' L); [done|done|..].
    + rewrite Eq, Ew. intros l2 q2. destruct (decide (l = l2)) as [<-|Hne].
      * rewrite !lookup_insert_eq. intros [= <-]. eauto.
      * rewrite !lookup_insert_ne by done. apply HS.
    + intros l2. rewrite Eq, !lookup_insert_is_Some. intros [->|[? ?]]; [by left|].
      right. split; [done|]. by eapply ls_dom.
    + apply NoDup_app. apply NoDup_app in Hnd as (? & _ & _). done.
    + rewrite Ew. by apply Hpend.
    + intros b y e _ _ _. by rewrite Ew.
    + rewrite Ew, Eb. apply HS.
  - rewrite (moved_views _ _ _ _ _ M), <-Eo, Ha', <-Ha.
    rewrite insert_id by (by eapply moved_view). rewrite Ew. unfold blk. rewrite Ec.
    eapply (tokens_dequeue _ _ _ _ _ _ a l ws d pc); [done..|].
    intros b v w Hv Hw. unfold views in Hv. rewrite lookup_fmap in Hv.
    destruct (agents s !! b) as [y|] eqn:Hy; [|done]. simplify_eq/=.
    destruct (lk_stack _ HL b y Hy) as [Hwf _]. pose proof (own_waiting_need _ _ _ Hwf Hw) as Hl.
    assert (b = a) as -> by (eapply (lk_excl _ HL); [exact Hy|apply M|done|done]).
    rewrite (mv_from _ _ _ _ _ M) in Hy. simplify_eq. by apply (Hnw w).
Qed.

(** The lists when only the waiter records' flags, or nothing, changed. *)
Lemma moved_lists_same a x x' s s' L P c :
  moved a x x' s s' → lists_ok s L P → wls s' = wls s → s_brk s' = s_brk s →
  (∀ w, w_next <$> waiters s' !! w = w_next <$> waiters s !! w) →
  NoDup c → pend (waiters s) (a_stack x') c → lists_ok s' L (<[a := c]> P).
Proof.
  intros M HS El Eb Ew Hnd Hp. eapply (moved_lists a x x' s s' L); [done..| | |done| | |].
  - rewrite El. intros l q Hq. destruct (ls_rep _ _ _ HS l q Hq) as (d & Hd & [Hc Ht Hn]).
    exists d. split; [done|]. split; [|done..]. eapply wchain_frame, Hc. intros. apply Ew.
  - rewrite El. apply HS.
  - eapply pend_frame, Hp. intros. apply Ew.
  - intros b y d _ _ _. apply pend_frame. intros. apply Ew.
  - rewrite Eb. intros w Hw. apply (ls_fresh _ _ _ HS). specialize (Ew w).
    destruct Hw as [r Hr]. rewrite Hr in Ew. destruct (waiters s !! w); [eauto|done].
Qed.

Lemma inv_wait a x x' s s' w l :
  wake_inv s → moved a x x' s s' → own (a_stack x) = Waiting w l →
  own (a_stack x') = (if a_ult x then Resuming w else Polling w) →
  awk (a_stack x) = None → awk (a_stack x') = None →
  waiters s' = waiters s → wls s' = wls s → s_brk s' = s_brk s →
  cst s' = (if a_ult x then CthSuspendBlocked a (cst s) else cst s) →
  (∀ c, pend (waiters s) (a_stack x) c → pend (waiters s) (a_stack x') c) →
  wake_inv s'.
Proof.
  intros (HL & HO & L & P & loc & HS & HT) M Ho Ho' Ha Ha' Ew El Eb Ec Hpend.
  split; [by eapply moved_locks|]. split; [by eapply moved_objs|].
  destruct (ls_pend _ _ _ HS a x (mv_from _ _ _ _ _ M)) as (c & Hc & Hnd & Hp).
  exists L, (<[a := c]> P), loc. split.
  - eapply moved_lists_same; eauto. by rewrite Ew.
  - rewrite (insert_id P), (moved_views _ _ _ _ _ M), Ho', Ha', Ew by done.
    pose proof (moved_view _ _ _ _ _ M) as Hv.
    apply (tokens_wait _ _ (blk s) (blk s') _ _ _ a (view_of x) w l); try done.
    + unfold blk. rewrite Ec. simpl. destruct (a_ult x) eqn:Hu; [apply suspend_blocks|].
      destruct (is_blocked a (cst s)) eqn:Hb; [|done].
      destruct (t_blk _ _ _ _ _ _ HT a _ Hv Hb) as [Hu' _]. simpl in Hu'. congruence.
    + intros b Hne. unfold blk. rewrite Ec. destruct (a_ult x); [by apply suspend_other|done].
Qed.

Lemma inv_free a x x' s s' w :
  wake_inv s → moved a x x' s s' → owned (own (a_stack x)) = Some w → own (a_stack x') = NoOwn →
  awk (a_stack x) = None → awk (a_stack x') = None →
  blk s a = false → ((∃ r, waiters s !! w = Some r ∧ signaled r = true) ∨ own (a_stack x) = Resuming w) →
  waiters s' = delete w (waiters s) → wls s' = wls s → s_brk s' = s_brk s → cst s' = cst s →
  (∀ c, pend (waiters s) (a_stack x) c → pend (waiters s) (a_stack x') c) →
  wake_inv s'.
Proof.
  intros (HL & HO & L & P & loc & HS & HT) M Ho Ho' Ha Ha' Hb Hsig Ew El Eb Ec Hpend.
  split; [by eapply moved_locks|]. split; [by eapply moved_objs|].
  destruct (ls_pend _ _ _ HS a x (mv_from _ _ _ _ _ M)) as (c & Hc & Hnd & Hp).
  pose proof (moved_view _ _ _ _ _ M) as Hv.
  destruct (t_own _ _ _ _ _ _ HT a _ w Hv Ho) as (r & p & Hr & Hl & Ht & Hs & Hph).
  assert (p = Gone) as ->.
  { simpl in Hph. unfold blk in *. rewrite Hb in Hph. destruct Hsig as [(r' & Hr' & Hs')|Hres].
    - simplify_eq. destruct (own (a_stack x)) as [|w' l'|w'|w']; simpl in *; [done| |by destruct Hph|].
      + destruct Hph as [-> _]. simpl in Hs. congruence.
      + destruct Hph as [_ Hph]. destruct p as [| |b|]; simpl in *; try congruence; by destruct (Hph b).
    - rewrite Hres in Hph. by destruct Hph. }
  assert (∀ v, v ≠ w → waiters s' !! v = waiters s !! v) as F.
  { intros v Hvw. rewrite Ew. by rewrite lookup_delete_ne. }
  assert (∀ b d v, P !! b = Some d → v ∈ d → v ≠ w) as Hpf.
  { intros b d v Hd Hvd ->. assert (loc !! w = Some (Pend b)) by (apply (t_pend _ _ _ _ _ _ HT); eauto).
    congruence. }
  exists L, (<[a := c]> P), (delete w loc). split.
  - eapply (moved_lists a x x' s s' L); [done..| | |done| | |].
    + rewrite El. intros l q Hq. destruct (ls_rep _ _ _ HS l q Hq) as (d & Hd & Hrd).
      exists d. split; [done|]. eapply wl_rep_frame; [|exact Hrd]. intros v Hvd. apply F. intros ->.
      assert (loc !! w = Some (InList l)) by (apply (t_in _ _ _ _ _ _ HT); eauto). congruence.
    + rewrite El. apply HS.
    + eapply pend_frame; [|by apply Hpend]. intros v Hvc. by rewrite F by (by eapply Hpf).
    + intros b y d _ _ Hd. apply pend_frame. intros v Hvd. by rewrite F by (by eapply Hpf).
    + rewrite Ew, Eb. intros v Hvl. apply (ls_fresh _ _ _ HS). destruct Hvl as [r2 Hr2].
      apply lookup_delete_Some in Hr2 as [_ Hr2]. eauto.
  - rewrite (insert_id P), (moved_views _ _ _ _ _ M), Ho', Ha', Ew by done. unfold blk. rewrite Ec.
    by apply (tokens_free _ _ _ _ _ _ a (view_of x)).
Qed.

Lemma inv_wake a x x' s s' w r k :
  wake_inv s → moved a x x' s s' → a_stack x = IWake w :: k → own (a_stack x') = own k →
  awk (a_stack x') = w_thread r → waiters s !! w = Some r →
  waiters s' = <[w := r <| signaled := true |>]> (waiters s) → wls s' = wls s → s_brk s' = s_brk s →
  cst s' = cst s → (∀ c, pend (waiters s) k c → pend (waiters s) (a_stack x') c) →
  wake_inv s'.
Proof.
  intros (HL & HO & L & P & loc & HS & HT) M Hst Ho' Ha' Hr Ew El Eb Ec Hpend.
  split; [by eapply moved_locks|]. split; [by eapply moved_objs|].
  destruct (ls_pend _ _ _ HS a x (mv_from _ _ _ _ _ M)) as (c0 & Hc & Hnd & Hp).
  rewrite Hst in Hp. destruct Hp as (c & -> & Hp). apply NoDup_cons in Hnd as [Hwc Hnd].
  pose proof (moved_view _ _ _ _ _ M) as Hv.
  exists L, (<[a := c]> P), (<[w := if is_null (w_thread r) then Gone else Waking a]> loc). split.
  - eapply moved_lists_same; eauto. intros v. rewrite Ew. destruct (decide (w = v)) as [<-|].
    + by rewrite lookup_insert_eq, Hr.
    + by rewrite lookup_insert_ne.
  - rewrite (moved_views _ _ _ _ _ M), Ho', Ha', Ew. unfold blk. rewrite Ec.
    assert (own k = v_own (view_of x)) as -> by (simpl; by rewrite Hst).
    apply (tokens_wake _ _ _ _ _ _ a (view_of x)); try done. simpl. by rewrite Hst.
Qed.

Lemma inv_awaken a x x' s s' t k :
  wake_inv s → moved a x x' s s' → a_stack x = IAwaken t :: k → own (a_stack x') = own k →
  awk (a_stack x') = None → waiters s' = waiters s → wls s' = wls s → s_brk s' = s_brk s →
  cst s' = CthAwakenIfBlocked t (cst s) →
  (∀ c, pend (waiters s) k c → pend (waiters s) (a_stack x') c) →
  wake_inv s'.
Proof.
  intros (HL & HO & L & P & loc & HS & HT) M Hst Ho' Ha' Ew El Eb Ec Hpend.
  split; [by eapply moved_locks|]. split; [by eapply moved_objs|].
  destruct (ls_pend _ _ _ HS a x (mv_from _ _ _ _ _ M)) as (c & Hc & Hnd & Hp).
  rewrite Hst in Hp. pose proof (moved_view _ _ _ _ _ M) as Hv.
  destruct (tokens_awaken _ _ (blk s) (blk s') _ _ _ a (view_of x) t HT Hv) as [w HT'].
  - simpl. by rewrite Hst.
  - unfold blk. rewrite Ec. apply awaken_runs.
  - intros b Hne. unfold blk. rewrite Ec. by apply awaken_other.
  - exists L, (<[a := c]> P), (<[w := Gone]> loc). split.
    + eapply moved_lists_same; eauto. by rewrite Ew.
    + rewrite (insert_id P), (moved_views _ _ _ _ _ M), Ho', Ha', Ew by done. simpl in HT'.
      by rewrite Hst in HT'.
Qed.
End inv.
