(* ===== verification/SyncSteps.v ===== *)
(** * Every instruction keeps the wake-up invariant

    The instructions of [Sync] one by one against the invariant of [SyncWake]:
    in a state where it holds, a thread that can run its next instruction runs
    it without a fault and the invariant holds after.  From this, for threads
    that make no timed waits: no instruction dereferences a dead waiter record,
    and no wake-up is lost. *)

From S2P Require Import Prelude AbtTypes Objects Waitlist Sync SyncTokens SyncWake.

Section steps.
Context `{CthLaws}.
Implicit Types (s : sst) (a b w : Z) (x y : agent).

(** ** One instruction *)

Lemma awk_no_head k : forallb (λ j, negb (head_only j)) k = true → awk k = None.
Proof. destruct k as [|[] k]; simpl; done. Qed.

Lemma obj_mono s s1 :
  (∀ l, is_Some (wls s !! l) → is_Some (wls s1 !! l)) →
  (∀ m, is_Some (mutexes s !! m) → is_Some (mutexes s1 !! m)) →
  (∀ c, is_Some (conds s !! c) → is_Some (conds s1 !! c)) →
  (∀ e, is_Some (events s !! e) → is_Some (events s1 !! e)) →
  ∀ l, obj s l → obj s1 l.
Proof. intros ? ? ? ? [] [? ?]; split; auto. Qed.
Lemma insert_mono {K A} `{Countable K} (m : gmap K A) k v :
  ∀ j, is_Some (m !! j) → is_Some (<[k := v]> m !! j).
Proof. intros j Hj. apply lookup_insert_is_Some'. by right. Qed.

(** How the spinlocks may change with the code still to run. *)
Definition slock_change s s1 (N N' : list lockref) : Prop :=
  slocks s1 = slocks s ∧ N' = N ∨
  (∃ l, slocks s1 = <[l := true]> (slocks s) ∧ N' = l :: N ∧ slocks s !! l ≠ Some true) ∨
  (∃ l, slocks s1 = <[l := false]> (slocks s) ∧ N = l :: N').

Lemma moved_intro a x x1 i k k' s s1 :
  locks_ok s → objs_ok s → agents s !! a = Some x → a_stack x = i :: k →
  agents s1 = <[a := x1]> (agents s) → a_ult x1 = a_ult x →
  wf (k' ++ k) → slock_change s s1 (need (i :: k)) (need (k' ++ k)) →
  (∀ j l, j ∈ k' → l ∈ refs j → l ∈ refs i) → (∀ l, obj s l → obj s1 l) →
  moved a x (x1 <| a_stack := k' ++ k |>) s (set_stack a (k' ++ k) s1).
Proof.
  intros HL HO Hx Hst Ha Hu Hwf Hsl Hrefs Hobj.
  assert (set_stack a (k' ++ k) s1 = s1 <| agents ::= insert a (x1 <| a_stack := k' ++ k |>) |>) as ->.
  { unfold set_stack. by rewrite Ha, lookup_insert_eq. }
  destruct (lk_stack _ HL a x Hx) as [_ Hnd]. rewrite Hst in Hnd.
  assert (∀ l, l ∈ need (i :: k) → slocks s !! l = Some true) as Hheld.
  { intros l Hl. apply (lk_slock _ HL). exists a, x. by rewrite Hst. }
  split; simpl; [done|by rewrite Ha, insert_insert_eq|done| | | | |].
  - split; [done|]. destruct Hsl as [[_ ->]|[(l & _ & -> & Hf)|(l & _ & Heq)]]; [done| |].
    + apply NoDup_cons. split; [|done]. by intros ?%Hheld.
    + rewrite Heq in Hnd. by apply NoDup_cons in Hnd as [_ ?].
  - intros l Hl. rewrite Hst. destruct Hsl as [[_ Heq]|[(l' & _ & Heq & Hf)|(l' & _ & Heq)]].
    + left. by rewrite Heq in Hl.
    + rewrite Heq in Hl. apply elem_of_cons in Hl as [->|]; auto.
    + left. rewrite Heq. by right.
  - intros l. rewrite Hst. destruct Hsl as [[-> ->]|[(l' & -> & -> & Hf)|(l' & -> & Heq)]].
    + split; [|intros [?|[? _]]; auto]. intros Hl. destruct (decide (l ∈ need (i :: k))); auto.
    + destruct (decide (l' = l)) as [<-|Hne].
      * rewrite lookup_insert_eq. split; [|done]. intros _. left. by left.
      * rewrite lookup_insert_ne by done. rewrite elem_of_cons. split.
        -- intros Hl. destruct (decide (l ∈ need (i :: k))); auto.
        -- intros [[?|?]|[? _]]; [congruence|auto|done].
    + rewrite Heq in Hnd, Hheld |- *. apply NoDup_cons in Hnd as [Hn _].
      rewrite not_elem_of_cons. destruct (decide (l' = l)) as [<-|Hne].
      * rewrite lookup_insert_eq. split; [done|]. intros [?|[_ [? _]]]; done.
      * rewrite lookup_insert_ne by done. split.
        -- intros Hl. destruct (decide (l ∈ need (k' ++ k))); auto.
        -- intros [Hl|[? _]]; [|done]. apply Hheld. by right.
  - intros j l [Hj|Hj]%elem_of_app Hl.
    + eapply (HO a x i); [done|rewrite Hst; by left|by eapply Hrefs].
    + eapply (HO a x j); [done|rewrite Hst; by right|done].
  - intros l Hl. apply Hobj in Hl as [? ?]. split; [done|]. by destruct l.
Qed.

Lemma wp_lookup_in {K A} `{Countable K} (f : sst → gmap K A) k v (Q : A → sst → Prop) s :
  f s !! k = Some v → Q v s → wp (lookup_in f k) Q s.
Proof. unfold wp, lookup_in. by intros ->. Qed.

Lemma enqueue_spec a x l q s (Q : ptr → sst → Prop) :
  agents s !! a = Some x → wls s !! l = Some q →
  (∃ c, wl_rep (waiters s) q c ∧ s_brk s ∉ c) →
  (∀ h q', (∀ c, wl_rep (waiters s) q c → s_brk s ∉ c → wl_rep h q' (c ++ [s_brk s]) ∧
      next_frame (c ++ [s_brk s])
        (<[s_brk s := mk_waiter (if a_ult x then Some a else None) false None]> (waiters s)) h) →
    Q (s_brk s) (s <| s_brk ::= Z.succ |> <| waiters := h |> <| wls ::= insert l q' |>)) →
  wp (enqueue a l) Q s.
Proof.
  intros Hx Hq (c0 & Hc0 & Hn0) HQ. unfold enqueue. wp_step. eapply wp_lookup_in; [done|].
  wp_step. wp_step. wp_step. wp_step. wp_step.
  set (h1 := <[s_brk s := mk_waiter (if a_ult x then Some a else None) false None]> (waiters s)).
  assert (∀ c, wl_rep (waiters s) q c → s_brk s ∉ c → wp (wl_push (s_brk s)) (λ _ u,
    wl_rep (wheap u) (wl u) (c ++ [s_brk s]) ∧ next_frame (c ++ [s_brk s]) h1 (wheap u))
    (mk_wst h1 q)) as Hspec.
  { intros c Hc Hn. apply (wl_push_spec _ (mk_waiter (if a_ult x then Some a else None) false None));
      [|done|apply lookup_insert_eq]. simpl. eapply wl_rep_frame, Hc. intros w Hw.
    apply lookup_insert_ne. set_solver. }
  pose proof (Hspec c0 Hc0 Hn0) as Hrun. unfold wp, on_wl in *. simpl in *. rewrite Hq.
  change (insert (s_brk s) _ (waiters s)) with h1.
  destruct (wl_push (s_brk s) (mk_wst h1 q)) as [[] s'|] eqn:Hp; [|done]. apply HQ.
  intros c Hc Hn. by apply (Hspec c Hc Hn).
Qed.

Lemma set_stack_rest a K s :
  waiters (set_stack a K s) = waiters s ∧ wls (set_stack a K s) = wls s ∧
  cst (set_stack a K s) = cst s ∧ s_brk (set_stack a K s) = s_brk s.
Proof. unfold set_stack. by destruct (agents s !! a). Qed.

Section exec.
Context (a : Z) (e : bool) (x : agent) (i : instr) (k : list instr) (s : sst).
Context (Hinv : wake_inv s) (Hx : agents s !! a = Some x) (Hst : a_stack x = i :: k)
  (Hbl : blk s a = false) (Hen : enabled i s = true).

Lemma exec_wf : wf (i :: k).
Proof. destruct Hinv as (HL & _). rewrite <-Hst. by eapply lk_stack. Qed.
Lemma exec_obj l : l ∈ refs i → obj s l.
Proof.
  destruct Hinv as (_ & HO & _). intros Hl. eapply (HO a x i); [done|rewrite Hst; by left|done].
Qed.
Lemma exec_rep l q : wls s !! l = Some q → ∃ c, wl_rep (waiters s) q c ∧ s_brk s ∉ c.
Proof.
  destruct Hinv as (_ & _ & L & P & loc & HS & HT). intros Hq.
  destruct (ls_rep _ _ _ HS l q Hq) as (c & Hc & Hr). exists c. split; [done|]. intros Hb.
  destruct (wchain_live _ _ _ (s_brk s) (wr_chain _ _ _ Hr) Hb) as [r Hr'].
  assert (s_brk s < s_brk s) by (by eapply (ls_fresh _ _ _ HS); eauto). lia.
Qed.
Lemma exec_no_awk : match i with IAwaken _ => True | _ => awk (i :: k) = None end.
Proof. by destruct i. Qed.
Lemma exec_rest : wf k ∧ awk k = None.
Proof. destruct exec_wf as (? & ? & _). split; [done|by apply awk_no_head]. Qed.

(** An instruction that moves no waiter record. *)
Lemma quiet_good k' x1 s1 :
  agents s1 = <[a := x1]> (agents s) → a_ult x1 = a_ult x →
  waiters s1 = waiters s → wls s1 = wls s → cst s1 = cst s → s_brk s1 = s_brk s →
  (∀ l, obj s l → obj s1 l) →
  slock_change s s1 (need (i :: k)) (need (k' ++ k)) → wf (k' ++ k) →
  own (k' ++ k) = own (i :: k) → awk (k' ++ k) = awk (i :: k) →
  (∀ c, pend (waiters s) (i :: k) c → pend (waiters s) (k' ++ k) c) →
  (∀ j l, j ∈ k' → l ∈ refs j → l ∈ refs i) →
  wake_inv (set_stack a (k' ++ k) s1).
Proof.
  intros Ea Eu Ew El Ec Eb Hobj Hsl Hwf Ho Ha Hp Hr. pose proof Hinv as (HL & HO & _).
  destruct (set_stack_rest a (k' ++ k) s1) as (E1 & E2 & E3 & E4).
  eapply inv_quiet; [exact Hinv|by eapply moved_intro|congruence..| | |]; simpl; rewrite Hst; auto.
Qed.

(** An instruction that puts the caller on a list. *)
Lemma enqueue_good l k' q h q' s1 :
  own (i :: k) = NoOwn → awk (i :: k) = None → wls s !! l = Some q →
  (∀ c, wl_rep (waiters s) q c → s_brk s ∉ c → wl_rep h q' (c ++ [s_brk s]) ∧
    next_frame (c ++ [s_brk s])
      (<[s_brk s := mk_waiter (if a_ult x then Some a else None) false None]> (waiters s)) h) →
  agents s1 = agents s → waiters s1 = h → wls s1 = <[l := q']> (wls s) → cst s1 = cst s →
  s_brk s1 = Z.succ (s_brk s) → slocks s1 = slocks s → mutexes s1 = mutexes s →
  (∀ c, is_Some (conds s !! c) → is_Some (conds s1 !! c)) → events s1 = events s →
  need (k' ++ k) = need (i :: k) → wf (k' ++ k) → own (k' ++ k) = Waiting (s_brk s) l →
  awk (k' ++ k) = None → (∀ h c, pend h (i :: k) c → pend h (k' ++ k) c) →
  (∀ j l, j ∈ k' → l ∈ refs j → l ∈ refs i) →
  wake_inv (set_stack a (k' ++ k) s1).
Proof.
  intros Hno Hna Hq Hrep Ea Ew El Ec Eb Es Em Hc Ee Hn Hwf Ho Ha Hp Hr.
  pose proof Hinv as (HL & HO & _). destruct (set_stack_rest a (k' ++ k) s1) as (E1 & E2 & E3 & E4).
  eapply (inv_enqueue a x (x <| a_stack := k' ++ k |>) s _ l q q');
    [exact Hinv| |simpl; rewrite ?Hst; done|simpl; rewrite ?Hst; done|done|done|congruence..| | | |];
    simpl; rewrite ?Hst; try done.
  - eapply (moved_intro a x x); try done; [by rewrite Ea, insert_id|by left|].
    apply obj_mono; [rewrite El; apply insert_mono|by rewrite Em|done|by rewrite Ee].
  - by rewrite E1, Ew.
Qed.

(** An instruction that takes records off a list whose spinlock it holds. *)
Lemma dequeue_good l k' x1 q q' ws s1 :
  wls s !! l = Some q → (∀ c, wl_rep (waiters s) q c → ∃ d, c = ws ++ d ∧ wl_rep (waiters s) q' d) →
  agents s1 = <[a := x1]> (agents s) → a_ult x1 = a_ult x →
  waiters s1 = waiters s → wls s1 = <[l := q']> (wls s) → cst s1 = cst s → s_brk s1 = s_brk s →
  slocks s1 = slocks s →
  (∀ m, is_Some (mutexes s !! m) → is_Some (mutexes s1 !! m)) → conds s1 = conds s →
  (∀ c, is_Some (events s !! c) → is_Some (events s1 !! c)) →
  l ∈ need (i :: k) → need (k' ++ k) = need (i :: k) → wf (k' ++ k) →
  own (i :: k) = own (k' ++ k) → awk (i :: k) = None → awk (k' ++ k) = None →
  (∀ w, own (i :: k) ≠ Waiting w l) →
  (∀ c, pend (waiters s) (i :: k) c → pend (waiters s) (k' ++ k) (ws ++ c)) →
  (∀ j l, j ∈ k' → l ∈ refs j → l ∈ refs i) →
  wake_inv (set_stack a (k' ++ k) s1).
Proof.
  intros Hq Hrep Ea Eu Ew El Ec Eb Es Em Hc Ee Hl Hn Hwf Ho Ha Ha' Hnw Hp Hr.
  pose proof Hinv as (HL & HO & _). destruct (set_stack_rest a (k' ++ k) s1) as (E1 & E2 & E3 & E4).
  eapply (inv_dequeue a x (x1 <| a_stack := k' ++ k |>) s _ l q q' ws);
    [exact Hinv| |..]; simpl; rewrite ?Hst; try done; try congruence.
  eapply moved_intro; try done; [by left|].
  apply obj_mono; [rewrite El; apply insert_mono|done|by rewrite Hc|done].
Qed.

(** What a pop leaves. *)
Lemma wp_on_wl_pop l q (Q : option ptr → sst → Prop) s1 :
  wls s1 !! l = Some q → waiters s1 = waiters s → wls s !! l = Some q →
  (∀ (w : option ptr) q', (∀ c, wl_rep (waiters s) q c → ∃ d, c = option_list w ++ d ∧ wl_rep (waiters s) q' d) →
     Q w (s1 <| waiters := waiters s |> <| wls ::= insert l q' |>)) →
  wp (on_wl l wl_pop) Q s1.
Proof.
  intros Hq Ew Hq0 HQ. destruct (exec_rep l q Hq0) as (c0 & Hc0 & _).
  assert (∀ c, wl_rep (waiters s) q c → wp wl_pop (λ r u, r = head c ∧
    wl_rep (wheap u) (wl u) (tail c) ∧ wheap u = waiters s) (mk_wst (waiters s) q)) as Hspec
    by (intros c Hc; by apply wl_pop_spec).
  pose proof (Hspec c0 Hc0) as Hrun. unfold wp, on_wl in *. rewrite Hq, Ew.
  destruct (wl_pop (mk_wst (waiters s) q)) as [w u|] eqn:Hp; [|done].
  destruct Hrun as (_ & _ & ->). apply HQ. intros c Hc.
  destruct (Hspec c Hc) as (-> & Hr & Hh). rewrite Hh in Hr. exists (tail c). split; [by destruct c|done].
Qed.
Lemma wp_detach l q (Q : option ptr → sst → Prop) s1 :
  wls s1 !! l = Some q → waiters s1 = waiters s → wls s !! l = Some q →
  (∀ ws, wl_rep (waiters s) q ws →
     Q (wl_head q) (s1 <| waiters := waiters s |> <| wls ::= insert l (mk_waitlist None None) |>)) →
  wp (detach_list l) Q s1.
Proof.
  intros Hq Ew Hq0 HQ. destruct (exec_rep l q Hq0) as (c0 & Hc0 & _).
  unfold detach_list, wp, on_wl. rewrite Hq. simpl. rewrite Ew. by eapply HQ.
Qed.
Lemma wchain_inj (h : gmap Z ABTI_waiter) o c d : wchain h o c → wchain h o d → c = d.
Proof.
  revert o d. induction c as [|w c IH]; intros o [|w' d]; simpl.
  - done.
  - intros -> [? _]. done.
  - by intros [-> _].
  - intros [-> (r & Hr & Hc)] [[= <-] (r' & Hr' & Hd)]. simplify_eq. f_equal. by eapply IH.
Qed.

Lemma try_lock_wp m (Q : bool → sst → Prop) :
  obj s (LM m) →
  (∀ o' x1, a_ult x1 = a_ult x →
    Q true (s <| mutexes ::= insert m o' |> <| agents ::= insert a x1 |>)) →
  Q false s → wp (try_lock a m) Q s.
Proof.
  intros [_ [o Ho]] Ht Hf. unfold try_lock. wp_step. eapply wp_lookup_in; [done|].
  wp_step. eapply wp_lookup_in; [done|].
  assert (∀ f g, wp (set_mutex m f ;; set_held a g ;; mret true) Q s) as Hset.
  { intros f g. unfold set_mutex, set_held. wp_step. wp_step. eapply wp_lookup_in; [done|]. wp_step.
    wp_step. wp_step. eapply wp_lookup_in; [done|]. wp_step. wp_step. by apply Ht. }
  destruct (m_locked o); simpl; [|apply Hset]. destruct (truthy _ && _); [apply Hset|by wp_step].
Qed.

Lemma same_agents s1 : agents s1 = agents s → agents s1 = <[a := x]> (agents s).
Proof. intros ->. by rewrite insert_id. Qed.
Lemma obj_mutexes s1 m o :
  wls s1 = wls s → mutexes s1 = <[m := o]> (mutexes s) → conds s1 = conds s →
  events s1 = events s → ∀ l, obj s l → obj s1 l.
Proof.
  intros El Em Ec Ee. apply obj_mono; [by rewrite El| |by rewrite Ec|by rewrite Ee].
  rewrite Em. apply insert_mono.
Qed.

End exec.

(** Agent [a] of [s] can run [i], and then has [k] left. *)
Record ready a x i k s : Prop := {
  rd_inv : wake_inv s;
  rd_agent : agents s !! a = Some x;
  rd_stack : a_stack x = i :: k;
  rd_runs : blk s a = false;
  rd_enabled : enabled i s = true;
}.
Definition good a e i k s : Prop :=
  wp (exec a e i) (λ k' s1, wake_inv (set_stack a (k' ++ k) s1)) s.

(** A thread inside a critical section of [l] has not entered the list of [l]. *)
Lemma not_waiting_held a x i k s l :
  wake_inv s → agents s !! a = Some x → a_stack x = i :: k → need (i :: k) = l :: need k →
  own (i :: k) = own k → ∀ w, own (i :: k) ≠ Waiting w l.
Proof.
  intros (HL & _) Hx Hst Hn Ho w Hw. destruct (lk_stack _ HL a x Hx) as [Hwf Hnd].
  rewrite Hst, Hn in Hnd. apply NoDup_cons in Hnd as [Hni _]. apply Hni.
  rewrite Hst in Hwf. eapply own_waiting_need; [apply Hwf|]. by rewrite <-Ho.
Qed.

(** The instructions of a concrete list work on the objects of [i]. *)
Ltac refs_in :=
  let j := fresh in let l := fresh in let Hj := fresh in let Hl := fresh in
  intros j l Hj Hl;
  repeat (apply elem_of_cons in Hj as [->|Hj]; [simpl in *; set_solver|]);
  first [by apply elem_of_nil in Hj | idtac].

Section cases.
Context (a : Z) (e : bool) (x : agent) (k : list instr) (s : sst).

Lemma good_mutex_body m sp : ready a x (IMutexBody m sp) k s → good a e (IMutexBody m sp) k s.
Proof.
  intros [Hi Hx Hst Hb _]. destruct (exec_wf _ _ _ _ _ Hi Hx Hst) as (Hwk & Hh & Hn & Ho).
  pose proof (awk_no_head k Hh) as Hak.
  assert (obj s (LM m)) as Hobj by (eapply exec_obj; [done..|]; by left).
  unfold good. exec_body. wp_step. eapply try_lock_wp; [done|done|..].
  - intros o' x1 Hu. wp_step.
    eapply (quiet_good _ _ _ _ _ Hi Hx Hst [IRelease (LM m)] x1); try done;
      [by eapply obj_mutexes|by left|refs_in].
  - destruct sp.
    + wp_step. eapply (quiet_good _ _ _ _ _ Hi Hx Hst (IRelease (LM m) :: lock_code m true) x); try done;
        [by apply same_agents|left; simpl; by rewrite Hn| |refs_in].
      simpl. rewrite Hn, Ho, Hh. done.
    + destruct Hobj as [[q Hq] _]. wp_step.
      eapply enqueue_spec; [done|done|by eapply exec_rep|]. intros h q' Hrep. wp_step.
      eapply (enqueue_good _ _ _ _ _ Hi Hx Hst Hb (LM m) (IWait (s_brk s) (LM m) :: lock_code m false));
        try done; [|refs_in]. simpl. rewrite Hn, Ho, Hh. done.
Qed.

Lemma good_unlock_body m : ready a x (IUnlockBody m) k s → good a e (IUnlockBody m) k s.
Proof.
  intros [Hi Hx Hst Hb _]. destruct (exec_wf _ _ _ _ _ Hi Hx Hst) as (Hwk & Hh & _).
  pose proof (awk_no_head k Hh) as Hak.
  assert (obj s (LM m)) as [[q Hq] [o Ho]] by (eapply exec_obj; [done..|]; by left).
  unfold good. exec_body. wp_step. eapply wp_lookup_in; [done|]. unfold set_held, set_mutex.
  wp_step. wp_step. eapply wp_lookup_in; [done|]. wp_step.
  destruct (m_nesting o >? 0).
  - wp_step. wp_step. eapply wp_lookup_in; [done|]. wp_step. wp_step.
    eapply (quiet_good _ _ _ _ _ Hi Hx Hst [IRelease (LM m)] (x <| a_held ::= drop_first m |>)); try done;
      [by eapply obj_mutexes|by left|refs_in].
  - wp_step. wp_step. eapply wp_lookup_in; [done|]. wp_step. wp_step.
    eapply wp_on_wl_pop; [done..|]. intros w q' Hrep. wp_step.
    eapply (dequeue_good _ _ _ _ _ Hi Hx Hst (LM m) (IRelease (LM m) :: wake_code w) _ q q' (option_list w));
      try done; try (by destruct w); [by apply insert_mono|by left| | |].
    + by eapply not_waiting_held.
    + intros c Hc. destruct w; simpl; eauto.
    + destruct w; refs_in.
Qed.

Lemma good_signal_body c : ready a x (ISignalBody c) k s → good a e (ISignalBody c) k s.
Proof.
  intros [Hi Hx Hst Hb _]. destruct (exec_wf _ _ _ _ _ Hi Hx Hst) as (Hwk & Hh & _).
  pose proof (awk_no_head k Hh) as Hak.
  assert (obj s (LC c)) as [[q Hq] _] by (eapply exec_obj; [done..|]; by left).
  unfold good. exec_body. wp_step. eapply wp_on_wl_pop; [done..|]. intros w q' Hrep. wp_step.
  eapply (dequeue_good _ _ _ _ _ Hi Hx Hst (LC c) (IRelease (LC c) :: wake_code w) x q q' (option_list w));
    try done; try (by destruct w); [by apply same_agents|by left| | |].
  - by eapply not_waiting_held.
  - intros d Hd. destruct w; simpl; eauto.
  - destruct w; refs_in.
Qed.

(** Detaching a whole list and walking it. *)
Lemma good_detach i l q k' s1 :
  wake_inv s → agents s !! a = Some x → a_stack x = i :: k →
  need (i :: k) = l :: need k → own (i :: k) = own k → awk (i :: k) = None →
  (∀ h c, pend h (i :: k) c → pend h k c) → wls s !! l = Some q →
  forallb is_ret k' = true → (k' = [] ∨ k = []) →
  wf k → forallb (λ j, negb (head_only j)) k = true →
  agents s1 = agents s → waiters s1 = waiters s → wls s1 = wls s → cst s1 = cst s →
  s_brk s1 = s_brk s → slocks s1 = slocks s → mutexes s1 = mutexes s → conds s1 = conds s →
  (∀ c, is_Some (events s !! c) → is_Some (events s1 !! c)) → l ∈ refs i →
  wake_inv (set_stack a ((IRelease l :: IWalk (wl_head q) :: k') ++ k)
    (s1 <| waiters := waiters s |> <| wls ::= insert l (mk_waitlist None None) |>)).
Proof.
  intros Hi Hx Hst Hn Ho Ha Hpk Hq Hk' Hor Hwk Hh Ea Ew El Ec Eb Es Em Eco Ee Hl.
  destruct (rets_facts k' Hk') as (W1 & W2 & W3 & W4 & W5 & W6).
  assert (wf (k' ++ k) ∧ need (k' ++ k) = need k ∧ own (k' ++ k) = own k ∧
    forallb (λ j, negb (head_only j)) (k' ++ k) = true ∧ ∀ h c, pend h k c → pend h (k' ++ k) c)
    as (X1 & X2 & X3 & X4 & X5).
  { destruct Hor as [->|Hk]; [done|]. revert Hpk Hn Ho. rewrite Hk, app_nil_r. intros Hpk Hn Ho.
    split_and!; [done..|]. intros h c. simpl. intros ->. apply W5. }
  destruct (exec_rep _ Hi l q Hq) as (ws & Hws & _).
  eapply (dequeue_good _ _ _ _ _ Hi Hx Hst l _ x q (mk_waitlist None None) ws); try done.
  - intros c Hc. assert (c = ws) as -> by (eapply wchain_inj; [apply Hc|apply Hws]).
    exists []. split; [by rewrite app_nil_r|]. split; [done|done|constructor].
  - simpl. rewrite Ea. by rewrite insert_id.
  - simpl. by rewrite El.
  - simpl. by rewrite Em.
  - rewrite Hn. by left.
  - rewrite Hn, <-X2. done.
  - rewrite Ho, <-X3. done.
  - by eapply not_waiting_held.
  - intros c Hc. exists ws, c. split_and!; [done|apply Hws|]. by apply X5, (Hpk (waiters s)).
  - intros j l' Hj Hl'. apply elem_of_cons in Hj as [->|Hj]; [simpl in Hl'; set_solver|].
    apply elem_of_cons in Hj as [->|Hj]; [simpl in Hl'; set_solver|].
    assert (is_ret j = true) by (rewrite forallb_forall in Hk'; apply Hk'; by apply list_elem_of_In).
    destruct j; try done. by apply elem_of_nil in Hl'.
Qed.

Lemma good_slock i :
  match i with IAcquire _ | IRelease _ => True | _ => False end →
  ready a x i k s → good a e i k s.
Proof.
  intros Hi0 [Hi Hx Hst Hb Hen]. destruct (exec_wf _ _ _ _ _ Hi Hx Hst) as (Hwk & Hh & Hc).
  pose proof (awk_no_head k Hh) as Hak.
  destruct i as [l|l| | | | | | | | | | | | | | | | | | | |]; try done;
    unfold good; exec_body; unfold set_slock; wp_step; wp_step; wp_step;
    eapply (quiet_good _ _ _ _ _ Hi Hx Hst [] x); try done; try (by apply same_agents); try refs_in.
  - right. left. exists l. destruct Hc as [Hl _]. simpl. destruct (need k) as [|l' N]; [done|].
    simplify_eq/=. split_and!; [done..|]. intros Heq. by rewrite Heq in Hen.
  - right. right. by exists l.
Qed.

Lemma good_try_body m : ready a x (ITryBody m) k s → good a e (ITryBody m) k s.
Proof.
  intros [Hi Hx Hst Hb _]. destruct (exec_wf _ _ _ _ _ Hi Hx Hst) as (Hwk & Hh & Hn & Ho).
  pose proof (awk_no_head k Hh) as Hak.
  assert (obj s (LM m)) as Hobj by (eapply exec_obj; [done..|]; by left).
  unfold good. exec_body. wp_step. eapply try_lock_wp; [done|done|..].
  - intros o' x1 Hu. wp_step.
    eapply (quiet_good _ _ _ _ _ Hi Hx Hst (IRelease (LM m) :: ret ABT_SUCCESS) x1); try done;
      [by eapply obj_mutexes|by left|refs_in].
  - wp_step. eapply (quiet_good _ _ _ _ _ Hi Hx Hst (IRelease (LM m) :: ret ABT_ERR_MUTEX_LOCKED) x);
      try done; [by apply same_agents|by left|refs_in].
Qed.

Lemma good_cond_enter c m tm ok bad late :
  ready a x (ICondEnter c m tm ok bad late) k s → good a e (ICondEnter c m tm ok bad late) k s.
Proof.
  intros [Hi Hx Hst Hb _]. destruct (exec_wf _ _ _ _ _ Hi Hx Hst) as (Hwk & Hh & Hc).
  destruct tm; [done|]. destruct Hc as (Hk & Hok & Hbad).
  destruct (rets_facts ok Hok) as (O1 & O2 & O3 & O4 & O5 & O6).
  destruct (rets_facts bad Hbad) as (B1 & B2 & B3 & B4 & B5 & B6).
  assert (obj s (LC c)) as [[q Hq] [o Ho]] by (eapply exec_obj; [done..|]; by left).
  assert (∀ j l, is_ret j = true → l ∈ refs j → False) as Hret.
  { intros j l Hj Hl. destruct j; try done. by apply elem_of_nil in Hl. }
  assert (∀ kk j l, forallb is_ret kk = true → j ∈ kk → l ∈ refs j → False) as Hrets.
  { intros kk j l Hkk Hj. eapply Hret. rewrite forallb_forall in Hkk. by apply Hkk, list_elem_of_In. }
  unfold good. exec_body. wp_step. eapply wp_lookup_in; [done|].
  assert (∀ s1 co, s1 = s <| conds := co |> →
    (∀ c, is_Some (conds s !! c) → is_Some (co !! c)) →
    wp (w ← enqueue a (LC c); mret (unlock_code m ++ IWait w (LC c) :: lock_code m false ++ ok))
      (λ k' s1, wake_inv (set_stack a (k' ++ k) s1)) s1) as Hgo.
  { intros s1 co -> Hco. wp_step.
    eapply enqueue_spec; [done|done|exact (exec_rep _ Hi _ _ Hq)|]. intros h q' Hrep. wp_step.
    eapply (enqueue_good _ _ _ _ _ Hi Hx Hst Hb (LC c)); try done; rewrite ?Hk, ?app_nil_r; simpl;
      rewrite ?O2, ?O3, ?O6; try done.
    - intros h' d ->. apply O5.
    - intros j l Hj Hl. repeat (apply elem_of_cons in Hj as [->|Hj]; [simpl in *; set_solver|]).
      by destruct (Hrets ok j l Hok Hj Hl). }
  destruct (c_mutex o) as [m'|].
  - destruct (decide (m' = m)); [apply (Hgo s (conds s)); by destruct s|]. wp_step.
    eapply (quiet_good _ _ _ _ _ Hi Hx Hst (IRelease (LC c) :: bad) x); rewrite ?Hk, ?app_nil_r; try done.
    + by apply same_agents.
    + left. simpl. by rewrite B2.
    + simpl. intros d ->. apply B5.
    + intros j l Hj Hl. apply elem_of_cons in Hj as [->|Hj]; [simpl in *; set_solver|].
      by destruct (Hrets bad j l Hbad Hj Hl).
  - wp_step. wp_step. eapply Hgo; [done|]. apply insert_mono.
Qed.

Lemma good_broadcast_body c : ready a x (IBroadcastBody c) k s → good a e (IBroadcastBody c) k s.
Proof.
  intros [Hi Hx Hst Hb _]. destruct (exec_wf _ _ _ _ _ Hi Hx Hst) as (Hwk & Hh & _).
  assert (obj s (LC c)) as [[q Hq] _] by (eapply exec_obj; [done..|]; by left).
  unfold good. exec_body. wp_step. eapply wp_detach; [done..|]. intros ws Hws. wp_step.
  eapply (good_detach (IBroadcastBody c) (LC c) q []); try done; [by left|by left].
Qed.

Lemma good_set_body ev v n : ready a x (ISetBody ev v n) k s → good a e (ISetBody ev v n) k s.
Proof.
  intros [Hi Hx Hst Hb _]. destruct (exec_wf _ _ _ _ _ Hi Hx Hst) as (Hwk & Hh & Hk).
  assert (obj s (LE ev)) as [[q Hq] [o Ho]] by (eapply exec_obj; [done..|]; by left).
  unfold good. exec_body. wp_step. eapply wp_lookup_in; [done|].
  destruct (e_ready o).
  { wp_step. eapply (quiet_good _ _ _ _ _ Hi Hx Hst (IRelease (LE ev) :: ret ABT_ERR_EVENTUAL) x);
      rewrite ?Hk; try done; [by apply same_agents|by left|refs_in]. }
  destruct (n >? e_nbytes o).
  { wp_step. eapply (quiet_good _ _ _ _ _ Hi Hx Hst (IRelease (LE ev) :: ret ABT_ERR_INV_EVENTUAL) x);
      rewrite ?Hk; try done; [by apply same_agents|by left|refs_in]. }
  wp_step. unfold set_event. wp_step. eapply wp_lookup_in; [done|]. wp_step. wp_step.
  eapply wp_detach; [done..|]. intros ws Hws. wp_step.
  eapply (good_detach (ISetBody ev v n) (LE ev) q (ret ABT_SUCCESS)); try done;
    [by right|by apply insert_mono|by left].
Qed.

Lemma good_event_enter ev tm : ready a x (IEventEnter ev tm) k s → good a e (IEventEnter ev tm) k s.
Proof.
  intros [Hi Hx Hst Hb _]. destruct (exec_wf _ _ _ _ _ Hi Hx Hst) as (Hwk & Hh & Hc).
  destruct tm; [done|]. destruct Hc as [Hn Hno]. pose proof (awk_no_head k Hh) as Hak.
  assert (obj s (LE ev)) as [[q Hq] [o Ho]] by (eapply exec_obj; [done..|]; by left).
  unfold good. exec_body. wp_step. eapply wp_lookup_in; [done|]. destruct (e_ready o).
  - wp_step. eapply (quiet_good _ _ _ _ _ Hi Hx Hst [IRelease (LE ev); IRet ABT_SUCCESS (Some (e_value o))] x);
      try done; [by apply same_agents|by left|refs_in].
  - wp_step. eapply enqueue_spec; [done|done|by eapply exec_rep|]. intros h q' Hrep. wp_step.
    eapply (enqueue_good _ _ _ _ _ Hi Hx Hst Hb (LE ev)
      [IWait (s_brk s) (LE ev); IRet ABT_SUCCESS (Some (e_value o))]); try done; refs_in.
Qed.

Lemma good_event_field ev i :
  i = IResetBody ev ∨ i = ITestBody ev → ready a x i k s → good a e i k s.
Proof.
  intros Hor [Hi Hx Hst Hb _]. destruct (exec_wf _ _ _ _ _ Hi Hx Hst) as (Hwk & Hh & _).
  pose proof (awk_no_head k Hh) as Hak.
  assert (obj s (LE ev)) as [_ [o Ho]].
  { eapply exec_obj; [done..|]. destruct Hor as [->| ->]; by left. }
  unfold good. destruct Hor as [->| ->]; exec_body.
  - unfold set_event. wp_step. wp_step. eapply wp_lookup_in; [done|]. wp_step. wp_step.
    eapply (quiet_good _ _ _ _ _ Hi Hx Hst [IRelease (LE ev)] x); try done;
      [by apply same_agents| |by left|refs_in].
    apply obj_mono; try done. apply insert_mono.
  - wp_step. eapply wp_lookup_in; [done|]. wp_step.
    eapply (quiet_good _ _ _ _ _ Hi Hx Hst [IRelease (LE ev); _] x); try done;
      [by apply same_agents|by left|refs_in].
Qed.

(** The caller's own waiter. *)
Lemma good_wait w l : ready a x (IWait w l) k s → good a e (IWait w l) k s.
Proof.
  intros [Hi Hx Hst Hb _]. destruct (exec_wf _ _ _ _ _ Hi Hx Hst) as (Hwk & Hh & Hn & Ho).
  pose proof Hi as (HL & HO & _).
  unfold good. exec_body. wp_step. eapply wp_lookup_in; [done|]. unfold set_slock. wp_step. wp_step.
  set (next := if a_ult x then IResume w else IPoll w).
  assert (∀ s1, s1 = s <| slocks ::= insert l false |>
      <| cst := if a_ult x then CthSuspendBlocked a (cst s) else cst s |> →
    wake_inv (set_stack a ([next] ++ k) s1)) as Hgo.
  { intros s1 ->.
    eapply (inv_wait a x (x <| a_stack := [next] ++ k |>) s _ w l); [exact Hi| |..];
      rewrite ?Hst; try done; try (unfold set_stack; simpl; by rewrite Hx);
      try (unfold next; simpl; by destruct (a_ult x)).
    - eapply (moved_intro a x x); try done; [by apply same_agents| | |].
      + unfold next. by destruct (a_ult x).
      + right. right. exists l. split; [done|]. unfold next. by destruct (a_ult x).
      + intros j l'. rewrite list_elem_of_singleton. intros ->. unfold next. destruct (a_ult x); intros Hl;
          by apply elem_of_nil in Hl. }
  unfold next in Hgo. destruct (a_ult x).
  - wp_step. wp_step. wp_step. by apply Hgo.
  - wp_step. apply Hgo. by destruct s.
Qed.

(** The caller's waiter has been delivered. *)
Lemma freed_good i w :
  wake_inv s → agents s !! a = Some x → a_stack x = i :: k → blk s a = false →
  i = IResume w ∨ i = IPoll w ∧ (∃ r, waiters s !! w = Some r ∧ signaled r = true) →
  wake_inv (set_stack a k (s <| waiters ::= delete w |>)).
Proof.
  intros Hi Hx Hst Hb Hor. destruct (exec_wf _ _ _ _ _ Hi Hx Hst) as (Hwk & Hh & Hc).
  assert (need k = [] ∧ own k = NoOwn) as [Hn Ho] by (by destruct Hor as [->|[-> _]]).
  pose proof Hi as (HL & HO & _). pose proof (awk_no_head k Hh) as Hak.
  eapply (inv_free a x (x <| a_stack := [] ++ k |>) s _ w); [exact Hi| |..];
    rewrite ?Hst; try done; try (unfold set_stack; simpl; by rewrite Hx);
    try (by destruct Hor as [->|[-> _]]).
  - eapply (moved_intro a x x i k []); try done; [by apply same_agents| |refs_in].
    left. by destruct Hor as [->|[-> _]].
  - destruct Hor as [->|[-> ?]]; auto.
Qed.

(** A waiter the caller owns is alive. *)
Lemma owned_alive w :
  wake_inv s → agents s !! a = Some x → owned (own (a_stack x)) = Some w → is_Some (waiters s !! w).
Proof.
  intros (_ & _ & L & P & loc & HS & HT) Hx Ho.
  destruct (t_own _ _ _ _ _ _ HT a (view_of x) w) as (r & p & Hr & _); [|done|eauto].
  unfold views. by rewrite lookup_fmap, Hx.
Qed.
(** So is one it is about to wake. *)
Lemma pending_alive w :
  wake_inv s → agents s !! a = Some x →
  (∀ c, pend (waiters s) (a_stack x) c → w ∈ c) → is_Some (waiters s !! w).
Proof.
  intros (_ & _ & L & P & loc & HS & HT) Hx Hp.
  destruct (ls_pend _ _ _ HS a x Hx) as (c & Hc & _ & Hpc).
  eapply tokens_live; [exact HT|]. exists (Pend a). apply (t_pend _ _ _ _ _ _ HT). eauto.
Qed.

Lemma good_resume w : ready a x (IResume w) k s → good a e (IResume w) k s.
Proof.
  intros [Hi Hx Hst Hb _]. destruct (owned_alive w Hi Hx) as [r Hr]; [by rewrite Hst|].
  unfold good. exec_body. unfold free_waiter. wp_step. wp_step. eapply wp_lookup_in; [done|].
  wp_step. wp_step. eapply freed_good; eauto.
Qed.
Lemma good_poll w : ready a x (IPoll w) k s → good a e (IPoll w) k s.
Proof.
  intros [Hi Hx Hst Hb _]. destruct (owned_alive w Hi Hx) as [r Hr]; [by rewrite Hst|].
  unfold good. exec_body. wp_step. eapply wp_lookup_in; [done|]. destruct (signaled r) eqn:Hs.
  - unfold free_waiter. wp_step. wp_step. eapply wp_lookup_in; [done|].
    wp_step. wp_step. eapply freed_good; eauto 6.
  - destruct (exec_wf _ _ _ _ _ Hi Hx Hst) as (Hwk & Hh & Hn & Ho).
    wp_step. eapply (quiet_good _ _ _ _ _ Hi Hx Hst [IPoll w] x); try done;
      [by apply same_agents|by left|refs_in].
Qed.

(** Wake-ups. *)
Lemma good_wake w : ready a x (IWake w) k s → good a e (IWake w) k s.
Proof.
  intros [Hi Hx Hst Hb _]. destruct (exec_wf _ _ _ _ _ Hi Hx Hst) as (Hwk & Hh & _).
  pose proof (awk_no_head k Hh) as Hak. pose proof Hi as (HL & HO & _).
  destruct (pending_alive w Hi Hx) as [r Hr].
  { rewrite Hst. intros c (c' & -> & _). by left. }
  unfold good. exec_body. wp_step. eapply wp_lookup_in; [done|]. wp_step. wp_step. wp_step.
  set (k' := match w_thread r with Some t => [IAwaken t] | None => [] end).
  eapply (inv_wake a x (x <| a_stack := k' ++ k |>) s _ w r k); [exact Hi| |done|..]; unfold k';
    try (unfold set_stack; simpl; by rewrite Hx); try (by destruct (w_thread r)).
  eapply (moved_intro a x x (IWake w) k); try done.
  - by apply same_agents.
  - by destruct (w_thread r).
  - left. by destruct (w_thread r).
  - destruct (w_thread r); refs_in.
Qed.

Lemma good_awaken t : ready a x (IAwaken t) k s → good a e (IAwaken t) k s.
Proof.
  intros [Hi Hx Hst Hb _]. destruct (exec_wf _ _ _ _ _ Hi Hx Hst) as (Hwk & Hh & _).
  pose proof (awk_no_head k Hh) as Hak. pose proof Hi as (HL & HO & _).
  unfold good. exec_body. wp_step. wp_step. wp_step.
  eapply (inv_awaken a x (x <| a_stack := [] ++ k |>) s _ t k); [exact Hi| |done|..]; try done;
    try (unfold set_stack; simpl; by rewrite Hx).
  eapply (moved_intro a x x (IAwaken t) k []); try done; [by apply same_agents|by left|refs_in].
Qed.

Lemma good_walk o : ready a x (IWalk o) k s → good a e (IWalk o) k s.
Proof.
  intros [Hi Hx Hst Hb _]. destruct (exec_wf _ _ _ _ _ Hi Hx Hst) as (Hwk & Hh & _).
  pose proof (awk_no_head k Hh) as Hak. unfold good. exec_body. destruct o as [w|].
  - destruct (pending_alive w Hi Hx) as [r Hr].
    { rewrite Hst. intros c (c1 & c2 & -> & Hc & _). destruct c1 as [|w' c1]; [done|].
      destruct Hc as [[= <-] _]. by left. }
    wp_step. eapply wp_lookup_in; [done|]. wp_step.
    eapply (quiet_good _ _ _ _ _ Hi Hx Hst [IWake w; IWalk (w_next r)] x); try done;
      [by apply same_agents|by left| |refs_in].
    intros c (c1 & c2 & -> & Hc & Hp). destruct c1 as [|w' c1]; [done|].
    destruct Hc as [[= <-] (r' & Hr' & Hc)]. simplify_eq. exists (c1 ++ c2). split; [done|].
    by exists c1, c2.
  - wp_step. eapply (quiet_good _ _ _ _ _ Hi Hx Hst [] x); try done;
      [by apply same_agents|by left| |refs_in].
    intros c (c1 & c2 & -> & Hc & Hp). by destruct c1 as [|w' c1]; [|destruct Hc].
Qed.

Lemma good_ret c out : ready a x (IRet c out) k s → good a e (IRet c out) k s.
Proof.
  intros [Hi Hx Hst Hb _]. destruct (exec_wf _ _ _ _ _ Hi Hx Hst) as (Hwk & Hh & _).
  pose proof (awk_no_head k Hh) as Hak. unfold good. exec_body.
  wp_step. eapply wp_lookup_in; [done|]. wp_step. wp_step. wp_step.
  eapply (quiet_good _ _ _ _ _ Hi Hx Hst [] (x <| a_ret := Some (c, out) |>)); try done;
    [by left|refs_in].
Qed.

(** Every instruction of an untimed call. *)
Lemma exec_good i : ready a x i k s → good a e i k s.
Proof.
  intros Hr. destruct i;
    try (exfalso; by destruct (exec_wf _ _ _ _ _ (rd_inv _ _ _ _ _ Hr)
      (rd_agent _ _ _ _ _ Hr) (rd_stack _ _ _ _ _ Hr)) as (_ & _ & [])).
  - by apply good_slock.
  - by apply good_slock.
  - by apply good_mutex_body.
  - by apply good_try_body.
  - by apply good_unlock_body.
  - by apply good_cond_enter.
  - by apply good_signal_body.
  - by apply good_broadcast_body.
  - by apply good_event_enter.
  - by apply good_set_body.
  - eapply good_event_field; eauto.
  - eapply good_event_field; eauto.
  - by apply good_wait.
  - by apply good_resume.
  - by apply good_poll.
  - by apply good_wake.
  - by apply good_awaken.
  - by apply good_walk.
  - by apply good_ret.
Qed.
End cases.

(** ** Executions without timed waits *)

Definition untimed (o : op) : bool :=
  match o with ABT_cond_timedwait _ _ | ABT_eventual_timedwait _ => false | _ => true end.
(** The objects a call names, with their handles. *)
Definition names (o : op) : list (Z * lockref) :=
  match o with
  | ABT_mutex_lock m | ABT_mutex_spinlock m | ABT_mutex_trylock m | ABT_mutex_unlock m => [(m, LM m)]
  | ABT_cond_wait c m | ABT_cond_timedwait c m => [(c, LC c); (m, LM m)]
  | ABT_cond_signal c | ABT_cond_broadcast c => [(c, LC c)]
  | ABT_eventual_wait e | ABT_eventual_timedwait e | ABT_eventual_set e _ _
  | ABT_eventual_test e | ABT_eventual_reset e => [(e, LE e)]
  end.
(** A call on null handles or live objects, without a deadline. *)
Definition allowed (l : label) s : Prop :=
  match l with
  | Run _ _ => True
  | Call _ o => untimed o = true ∧
      ∀ h r, (h, r) ∈ names o → ABTI_is_null_handle h = true ∨ obj s r
  end.
Inductive reached (s0 : sst) : sst → Prop :=
  | reached_refl : reached s0 s0
  | reached_step l s s' :
      reached s0 s → allowed l s → step l s = Some (Done tt s') → reached s0 s'.

Lemma code_idle o :
  untimed o = true →
  wf (code o) ∧ need (code o) = [] ∧ own (code o) = NoOwn ∧ awk (code o) = None ∧ ∀ h, pend h (code o) [].
Proof. destruct o; simpl; unfold checked; repeat case_match; simpl; done. Qed.
Lemma code_refs o i r :
  untimed o = true → i ∈ code o → r ∈ refs i → ∃ h, (h, r) ∈ names o ∧ ABTI_is_null_handle h = false.
Proof.
  intros Hu Hi Hr. destruct o; try done; simpl in *; unfold checked in *; repeat case_match; simpl in *;
    repeat (apply elem_of_cons in Hi as [->|Hi]; simpl in *);
    repeat (apply elem_of_cons in Hr as [->|Hr]); try (by apply elem_of_nil in Hr);
    try (by apply elem_of_nil in Hi); eexists;
    (split; [repeat first [apply list_elem_of_here | apply list_elem_of_further]|done]).
Qed.

Lemma call_inv a x o s :
  wake_inv s → agents s !! a = Some x → a_stack x = [] → allowed (Call a o) s →
  wake_inv (set_stack a (code o) s).
Proof.
  intros Hi Hx Hst [Hu Hobj]. destruct (code_idle o Hu) as (Hwf & Hn & Ho & Ha & Hp).
  eapply (inv_quiet a x (x <| a_stack := code o |>) s); [done| |..];
    rewrite ?Hst; try done; try (unfold set_stack; by rewrite Hx).
  - unfold set_stack. rewrite Hx. split; simpl; try done.
    + split; [done|]. rewrite Hn. constructor.
    + rewrite Hn. set_solver.
    + intros l. rewrite Hn, Hst. simpl. set_solver.
    + intros i l Hin Hl. destruct (code_refs o i l Hu Hin Hl) as (h & Hh & Hnull).
      destruct (Hobj h l Hh) as [?|?]; [congruence|done].
  - simpl. intros c ->. apply Hp.
Qed.

Lemma step_wake_inv l s :
  wake_inv s → allowed l s →
  step l s = None ∨ ∃ s', step l s = Some (Done tt s') ∧ wake_inv s'.
Proof.
  intros Hi Hal. destruct l as [a e|a o]; simpl;
    (destruct (agents s !! a) as [x|] eqn:Hx; [|by left]); simpl.
  - destruct (a_stack x) as [|i k] eqn:Hst; [by left|].
    destruct (is_blocked a (cst s)) eqn:Hb; [by left|]. simpl.
    destruct (enabled i s) eqn:Hen; [|by left]. simpl. right.
    assert (good a e i k s) as Hg by (by apply (exec_good a e x)).
    unfold good, wp in Hg. destruct (exec a e i s) as [k' s1|]; [eauto|done].
  - destruct (a_stack x) eqn:Hst; [right|by left]. eexists. split; [done|]. by eapply call_inv.
Qed.
Lemma reached_wake_inv s0 s : wake_inv s0 → reached s0 s → wake_inv s.
Proof.
  intros Hs0. induction 1 as [|l s s' _ IH Hal Hs]; [done|].
  destruct (step_wake_inv l s IH Hal) as [?|(s1 & ? & ?)]; congruence.
Qed.

(** Before any call: idle threads, free spinlocks, empty wait lists. *)
Record idle s : Prop := {
  id_agent a x : agents s !! a = Some x → a_stack x = [] ∧ is_blocked a (cst s) = false;
  id_slock l : slocks s !! l ≠ Some true;
  id_wl l q : wls s !! l = Some q → q = mk_waitlist None None;
  id_waiters : waiters s = ∅;
}.
Lemma idle_views s a v :
  idle s → views s !! a = Some v → v_own v = NoOwn ∧ v_awk v = None ∧ is_blocked a (cst s) = false.
Proof.
  intros [IA _ _ _]. unfold views. rewrite lookup_fmap. destruct (agents s !! a) as [x|] eqn:Hx; [|done].
  intros [= <-]. simpl. destruct (IA a x Hx) as [-> ?]. done.
Qed.
Lemma idle_wake_inv s : idle s → wake_inv s.
Proof.
  intros Hid. pose proof Hid as [IA IS IW IH]. split; [|split].
  - split.
    + intros a x Hx. destruct (IA a x Hx) as [-> _]. split; [done|constructor].
    + intros a b x y l Hx _ Hl. destruct (IA a x Hx) as [Hst _]. rewrite Hst in Hl. by apply elem_of_nil in Hl.
    + intros l. split; [by intros ?%IS|]. intros (a & x & Hx & Hl). destruct (IA a x Hx) as [Hst _].
      rewrite Hst in Hl. by apply elem_of_nil in Hl.
  - intros a x i l Hx Hi. destruct (IA a x Hx) as [Hst _]. rewrite Hst in Hi. by apply elem_of_nil in Hi.
  - exists ((λ _, []) <$> wls s), ((λ _, []) <$> agents s), ∅. split; [split|split].
    + intros l q Hq. exists []. rewrite lookup_fmap, Hq. split; [done|]. rewrite (IW l q Hq).
      split; [done|done|constructor].
    + intros l. by rewrite lookup_fmap, fmap_is_Some.
    + intros b y Hy. exists []. rewrite lookup_fmap, Hy. destruct (IA b y Hy) as [-> _].
      split_and!; [done|constructor|done].
    + intros b. by rewrite lookup_fmap, fmap_is_Some.
    + rewrite IH. intros w [? Hw]. by rewrite lookup_empty in Hw.
    + intros l w. rewrite lookup_empty. split; [done|]. intros (c & Hc & Hw).
      rewrite lookup_fmap_Some in Hc. destruct Hc as (? & <- & _). by apply elem_of_nil in Hw.
    + intros l w. rewrite lookup_empty. split; [done|]. intros (c & Hc & Hw).
      rewrite lookup_fmap_Some in Hc. destruct Hc as (? & <- & _). by apply elem_of_nil in Hw.
    + intros b w Hw. by rewrite lookup_empty in Hw.
    + intros b v t Hv Ht. destruct (idle_views s b v Hid Hv) as (_ & ? & _). congruence.
    + intros a v w Hv Hw. destruct (idle_views s a v Hid Hv) as (Ho & _ & _). by rewrite Ho in Hw.
    + rewrite IH. intros w [[? Hw]|[? Hw]]; by rewrite lookup_empty in Hw.
    + intros a b v v' w Hv _ Hw. destruct (idle_views s a v Hid Hv) as (Ho & _ & _). by rewrite Ho in Hw.
    + intros a v Hv Hb. unfold blk in Hb. destruct (idle_views s a v Hid Hv) as (_ & _ & ?). congruence.
Qed.

(** ** What follows *)

(** Waiter record [w] is on the wait list of an object. *)
Definition listed s w : Prop :=
  ∃ l q c, wls s !! l = Some q ∧ wl_rep (waiters s) q c ∧ w ∈ c.
(** A thread holds it, off the list, and has yet to wake it. *)
Definition held_by_waker s w : Prop :=
  ∃ b y c, agents s !! b = Some y ∧ pend (waiters s) (a_stack y) c ∧ w ∈ c.
(** A thread is about to awaken [a]. *)
Definition being_awoken s a : Prop :=
  ∃ b y k, agents s !! b = Some y ∧ a_stack y = IAwaken a :: k.

Lemma listed_intro s L P l c w : lists_ok s L P → L !! l = Some c → w ∈ c → listed s w.
Proof.
  intros HS Hc Hw. destruct (ls_dom _ _ _ HS l) as [q Hq]; [eauto|].
  destruct (ls_rep _ _ _ HS l q Hq) as (c' & Hc' & Hr). simplify_eq. exists l, q, c. done.
Qed.
Lemma awk_stack k t : awk k = Some t → ∃ k', k = IAwaken t :: k'.
Proof. destruct k as [|[] k]; intros; simplify_eq/=; eauto. Qed.

(** C12: with no timed waits the waiting code is memory safe.  From any state
    in which all threads are idle, whatever the interleaving, no step of a thread, and no new call on live objects or
    null handles, dereferences a waiter record that is gone or a missing
    object: each step either has to wait or completes. *)
Theorem untimed_calls_safe s0 s l :
  idle s0 → reached s0 s → allowed l s →
  step l s = None ∨ ∃ s', step l s = Some (Done tt s').
Proof.
  intros Hs0 Hr Hal. destruct (step_wake_inv l s) as [?|(s' & ? & _)]; [by eapply reached_wake_inv; [apply idle_wake_inv|]|done|..];
    eauto.
Qed.

(** C11: no lost wake-up.  In every state reached without timed waits, a
    suspended thread is a ULT stopped in [wait_on] whose record is alive and
    is on the wait list of an object, or has been taken off by a thread that
    has yet to wake it, or has been signalled by a thread whose next
    instruction awakens it. *)
Theorem no_lost_wakeup s0 s a x :
  idle s0 → reached s0 s → agents s !! a = Some x → is_blocked a (cst s) = true →
  ∃ w k r, a_stack x = IResume w :: k ∧ waiters s !! w = Some r ∧ w_thread r = Some a ∧
    (signaled r = false ∧ (listed s w ∨ held_by_waker s w) ∨ signaled r = true ∧ being_awoken s a).
Proof.
  intros Hs0 Hr Hx Hb. destruct (reached_wake_inv _ _ (idle_wake_inv _ Hs0) Hr) as (HL & _ & L & P & loc & HS & HT).
  assert (∀ b y, agents s !! b = Some y → views s !! b = Some (view_of y)) as HV.
  { intros b y Hy. unfold views. by rewrite lookup_fmap, Hy. }
  destruct (t_blk _ _ _ _ _ _ HT a _ (HV a x Hx) Hb) as (Hu & w & Ho). simpl in Hu, Ho.
  destruct (t_own _ _ _ _ _ _ HT a _ w (HV a x Hx)) as (r & p & Hr' & Hp & Ht & Hs & Hph).
  { simpl. by rewrite Ho. }
  simpl in *. rewrite Ho in Hph. rewrite Hu in Ht. destruct Hph as [_ Hph]. unfold blk in Hph. rewrite Hb in Hph.
  assert (∃ k, a_stack x = IResume w :: k) as [k Hk].
  { destruct (lk_stack _ HL a x Hx) as [Hwf _]. by apply own_resuming_head. }
  exists w, k, r. split_and!; [done..|]. rewrite Hs. destruct p as [l|b|b|]; simpl; [left|left|right|done].
  - split; [done|]. left. apply (t_in _ _ _ _ _ _ HT) in Hp as (c & Hc & Hw). by eapply listed_intro.
  - split; [done|]. right. apply (t_pend _ _ _ _ _ _ HT) in Hp as (c & Hc & Hw).
    destruct (ls_pdom _ _ _ HS b) as [y Hy]; [eauto|].
    destruct (ls_pend _ _ _ HS b y Hy) as (c' & Hc' & _ & Hpd). simplify_eq. by exists b, y, c.
  - split; [done|]. destruct (t_waking _ _ _ _ _ _ HT b w Hp) as (v & t & v' & Hv & Hat & Hv' & Hw).
    assert (t = a) as ->.
    { eapply (t_uniq _ _ _ _ _ _ HT); [exact Hv'|exact (HV a x Hx)|done|]. simpl. by rewrite Ho. }
    unfold views in Hv. rewrite lookup_fmap in Hv. destruct (agents s !! b) as [y|] eqn:Hy; simplify_eq/=.
    destruct (awk_stack _ _ Hat) as [k' Hk']. by exists b, y, k'.
Qed.
End steps.
