(* ===== verification/SyncRaces.v ===== *)
(** * Races of the timed waits

    [wait_on_timed] of src/sync.cpp against a waker.  A waker takes the record
    of a waiter off the list under the object's lock and stores [signaled] and
    awakens the thread after releasing it.  For every state in which a timed
    wait is caught in between, an execution of the machine of [Sync] in which
    the waker touches the record of a call that has returned, and one in which
    its wake-up ends a later wait. *)

From S2P Require Import Prelude AbtTypes Objects Waitlist Sync SyncMutex SyncTokens SyncWake SyncSteps.

Section races.
Context `{Cth} `{!CthLaws}.
(** which agents are ULTs *)
Context (ult : Z → bool).
Implicit Types (s : sst) (a b w : Z) (k : list instr) (l : lockref).

(** ** Schedules *)





(** ** What a step of one agent leaves alone *)







(** ** A deadline that passes while the waker holds the record *)





(** ** A wake-up that arrives at the wrong wait *)






End races.
