(* ===== verification/SyncExamples.v ===== *)
(** * Concrete executions of the synchronisation machine

    A runtime that keeps the set of blocked threads, and schedules run on the
    machine of [Sync]: the states in which a timed wait and a waker interfere,
    and the general theorems at a concrete execution. *)

From S2P Require Import Prelude AbtTypes Objects Waitlist Sync SyncMutex SyncTokens SyncWake.
From S2P Require Import SyncSteps SyncRaces.

#[export] Instance toy_cth : Cth := {|
  cth_st := gset Z;
  is_blocked t s := bool_decide (t ∈ s);
  CthSuspendBlocked t s := {[t]} ∪ s;
  CthAwakenIfBlocked t s := s ∖ {[t]};
|}.
#[export] Instance toy_cth_laws : CthLaws.
Proof.
  split; simpl; intros.
  - apply bool_decide_eq_true. set_solver.
  - apply bool_decide_ext. set_solver.
  - apply bool_decide_eq_false. set_solver.
  - apply bool_decide_ext. set_solver.
Qed.

(** ULTs 1 and 2, mutex 300, condition variable 301, eventuals 302 and 303. *)
Definition idle_agent (ult : bool) (id : Z) : agent := mk_agent ult id [] [] None.
Definition fresh_list : ABTI_waitlist := mk_waitlist None None.
Definition objects : sst :=
  mk_sst toy_cth {[300 := mk_mutex 0 false 0 0]} {[301 := mk_cond None]}
    {[302 := mk_eventual false 0 0 []; 303 := mk_eventual false 0 0 []]}
    ∅ {[LM 300 := fresh_list; LC 301 := fresh_list; LE 302 := fresh_list; LE 303 := fresh_list]}
    ∅ 1000 {[1 := idle_agent true 11; 2 := idle_agent true 12]} ∅.

Definition go (a : Z) (n : nat) : list label := replicate n (Run a false).
(** What agent [a] still has to do. *)
Definition stack_of (s : sst) (a : Z) : list instr := from_option a_stack [] (agents s !! a).


(** ** A timed wait that ends while it is being signalled *)



(** ** A wake-up that arrives at the wrong wait *)


(** ** The general theorems at a concrete execution *)

(** Run a schedule, checking that every call is allowed by [ok]. *)
Fixpoint checked_run (ok : label → sst → bool) (ls : list label) (s : sst) : option sst :=
  match ls with
  | [] => Some s
  | l :: ls =>
      if ok l s then
        match step l s with Some (Done _ s') => checked_run ok ls s' | _ => None end
      else None
  end.

Definition has_obj (s : sst) (r : lockref) : bool :=
  match wls s !! r with
  | None => false
  | Some _ =>
      match r with
      | LM m => negb (is_null (mutexes s !! m))
      | LC c => negb (is_null (conds s !! c))
      | LE e => negb (is_null (events s !! e))
      end
  end.
Definition allowedb (l : label) (s : sst) : bool :=
  match l with
  | Run _ _ => true
  | Call _ o => untimed o && forallb (λ hr, ABTI_is_null_handle hr.1 || has_obj s hr.2) (names o)
  end.
Definition disciplinedb (l : label) (s : sst) : bool :=
  match l with
  | Run _ _ => true
  | Call a o =>
      match agents s !! a, unlocked_by o with
      | Some x, Some m => bool_decide (m ∈ a_held x)
      | _, _ => true
      end
  end.

Lemma allowedb_spec l s : allowedb l s = true → allowed l s.
Proof.
  destruct l as [|a o]; simpl; [done|]. intros [Hu Hf]%andb_true_iff. split; [done|].
  rewrite forallb_forall in Hf. intros h r Hin. specialize (Hf (h, r)). simpl in Hf.
  rewrite <-list_elem_of_In in Hf. apply Hf, orb_true_iff in Hin as [?|Hob]; [by left|right].
  unfold has_obj in Hob. destruct (wls s !! r) eqn:Hw; [|done]. split; [eauto|].
  destruct r as [m|c|e];
    [destruct (mutexes s !! m)|destruct (conds s !! c)|destruct (events s !! e)]; simpl in *; by eauto.
Qed.
Lemma disciplinedb_spec l s : disciplinedb l s = true → disciplined l s.
Proof.
  destruct l as [|a o]; simpl; [done|]. intros Hd x m Hx Hm. rewrite Hx, Hm in Hd. by apply bool_decide_eq_true in Hd.
Qed.

Lemma checked_run_reached ls : ∀ s0 s s', reached s0 s → checked_run allowedb ls s = Some s' → reached s0 s'.
Proof.
  induction ls as [|l ls IH]; simpl; intros s0 s s' Hr Hrun; [by simplify_eq|].
  destruct (allowedb l s) eqn:Ha; [|done]. destruct (step l s) as [[[] s1|]|] eqn:Hs; try done.
  eapply IH, Hrun. eapply reached_step; [done|by apply allowedb_spec|done].
Qed.
Lemma checked_run_reachable ls :
  ∀ s0 s s', reachable s0 s → checked_run disciplinedb ls s = Some s' → reachable s0 s'.
Proof.
  induction ls as [|l ls IH]; simpl; intros s0 s s' Hr Hrun; [by simplify_eq|].
  destruct (disciplinedb l s) eqn:Ha; [|done]. destruct (step l s) as [[[] s1|]|] eqn:Hs; try done.
  eapply IH, Hrun. eapply reach_step; [done|by apply disciplinedb_spec|done].
Qed.

Lemma objects_idle : idle objects.
Proof.
  split; simpl.
  - intros a x. rewrite ?lookup_insert_Some, ?lookup_singleton_Some. naive_solver.
  - intros l. by rewrite lookup_empty.
  - intros l q. rewrite ?lookup_insert_Some, ?lookup_singleton_Some. naive_solver.
  - done.
Qed.
Lemma objects_fresh : mutexes_fresh objects.
Proof.
  split; simpl.
  - intros a x. rewrite ?lookup_insert_Some, ?lookup_singleton_Some. naive_solver.
  - intros a b x y. rewrite ?lookup_insert_Some, ?lookup_singleton_Some. naive_solver.
  - intros m o. rewrite ?lookup_insert_Some, ?lookup_singleton_Some. naive_solver.
Qed.

(** 1 locks 300, and 2 has to wait for it. *)
Definition contended : list label :=
  [Call 1 (ABT_mutex_lock 300)] ++ go 1 4 ++ [Call 2 (ABT_mutex_lock 300)] ++ go 2 3.
Definition contended_state : sst := default objects (checked_run allowedb contended objects).
Definition contended_agent (a : Z) : agent := default (idle_agent true 0) (agents contended_state !! a).
Lemma contended_reached : reached objects contended_state.
Proof.
  eapply (checked_run_reached contended objects objects); [constructor|].
  unfold contended_state. destruct (checked_run _ _ _) eqn:Hr; [done|]. exfalso. revert Hr.
  match goal with |- ?x = None → _ => assert (is_null x = false) as Hn by (vm_compute; reflexivity) end.
  intros Hr. by rewrite Hr in Hn.
Qed.
Lemma contended_reachable : reachable objects contended_state.
Proof.
  eapply (checked_run_reachable contended objects objects); [constructor|].
  unfold contended_state. destruct (checked_run allowedb _ _) eqn:Hr.
  - by vm_compute in Hr |- *; simplify_eq.
  - exfalso. by vm_compute in Hr.
Qed.
Lemma contended_facts :
  agents contended_state !! 1 = Some (contended_agent 1) ∧
  agents contended_state !! 2 = Some (contended_agent 2) ∧
  300 ∈ a_held (contended_agent 1) ∧ is_blocked 2 (cst contended_state) = true.
Proof. split_and!; [vm_compute; reflexivity..| |vm_compute; reflexivity]. vm_compute. left. Qed.

Lemma mutex_exclusion_witness :
  ∃ o, mutexes contended_state !! 300 = Some o ∧ m_locked o = true ∧ m_owner o = a_id (contended_agent 1) ∧
    m_nesting o = times 300 (a_held (contended_agent 1)) - 1.
Proof.
  destruct contended_facts as (H1 & _ & Hm & _).
  apply (mutex_exclusion objects contended_state 1 1 (contended_agent 1) (contended_agent 1) 300);
    [apply objects_fresh|apply contended_reachable|done..].
Defined.

Lemma untimed_calls_safe_witness :
  allowed (Call 1 (ABT_mutex_unlock 300)) contended_state ∧
  (step (Call 1 (ABT_mutex_unlock 300)) contended_state = None ∨
   ∃ s', step (Call 1 (ABT_mutex_unlock 300)) contended_state = Some (Done tt s')).
Proof.
  assert (allowed (Call 1 (ABT_mutex_unlock 300)) contended_state) as Ha
    by (apply allowedb_spec; vm_compute; reflexivity).
  split; [done|].
  apply (untimed_calls_safe objects contended_state); [apply objects_idle|apply contended_reached|done].
Defined.

Lemma no_lost_wakeup_witness :
  ∃ w k r, a_stack (contended_agent 2) = IResume w :: k ∧ waiters contended_state !! w = Some r ∧
    w_thread r = Some 2 ∧
    (signaled r = false ∧ (listed contended_state w ∨ held_by_waker contended_state w) ∨
     signaled r = true ∧ being_awoken contended_state 2).
Proof.
  destruct contended_facts as (_ & H2 & _ & Hb).
  apply (no_lost_wakeup objects contended_state 2 (contended_agent 2));
    [apply objects_idle|apply contended_reached|done..].
Defined.
