(* ===== verification/Monitor.v ===== *)
(** * Objects built from a mutex and condition variables

    src/sync.cpp builds read-write locks, barriers and futures from
    [ABT_mutex] and [ABT_cond].  [MonitorCode] is what such an object's methods
    do between two calls on its mutex or conditions, one access to its fields at
    a time; [mstep] runs any number of threads through these methods on top of
    the machine of [Sync], so that a field access of one thread may come
    between any two of another.  [monitor_firm] is what the mutex gives the
    objects: the points of their code at which no other thread can touch the
    fields. *)

From S2P Require Import Prelude AbtTypes Objects Waitlist Sync SyncMutex.

(** ** What a thread will hold once it has run its instructions *)

Fixpoint delta_of (m : ptr) (i : instr) : Z :=
  match i with
  | IMutexBody m' _ => of_bool (bool_decide (m' = m))
  | IUnlockBody m' => - of_bool (bool_decide (m' = m))
  | ITimed _ _ yes _ | ITimedOut _ _ yes _ => List.fold_right (λ i z, delta_of m i + z) 0 yes
  | _ => 0
  end.
Definition delta (m : ptr) (k : list instr) : Z := List.fold_right (λ i z, delta_of m i + z) 0 k.

(** The instruction neither locks nor unlocks [m], nor anything it leads to. *)
Definition is_end (i : instr) : Prop := match i with IRet _ _ | IFree _ => True | _ => False end.
Definition after_wait (yes no : list instr) : Prop :=
  ∃ l y n, yes = l ++ y ∧ no = l ++ n ∧ (l = [] ∨ ∃ m, l = lock_code m false) ∧
    Forall is_end y ∧ Forall is_end n.
(** [m] is not tried, and both ends of a wait lock the same. *)
Definition balanced (m : ptr) (i : instr) : Prop :=
  match i with
  | ITryBody m' => m' ≠ m
  | ICondEnter _ _ _ ok bad late => Forall is_end ok ∧ Forall is_end bad ∧ Forall is_end late
  | ITimed _ _ yes no | ITimedOut _ _ yes no => after_wait yes no
  | _ => True
  end.
(** Instructions that leave the mutexes alone. *)
Definition calm (i : instr) : Prop :=
  match i with
  | IMutexBody _ _ | ITryBody _ | IUnlockBody _ | ICondEnter _ _ _ _ _ _ | IEventEnter _ _ | IWait _ _
  | ITimed _ _ _ _ | ITimedOut _ _ _ _ => False
  | _ => True
  end.

Section delta.
Implicit Types (m : ptr) (k : list instr).
Lemma delta_app m k1 k2 : delta m (k1 ++ k2) = delta m k1 + delta m k2.
Proof. unfold delta. induction k1 as [|i k1 IH]; cbn [app List.fold_right]; lia. Qed.
Lemma delta_cons m i k : delta m (i :: k) = delta_of m i + delta m k.
Proof. done. Qed.
Lemma delta_rets m k : Forall is_end k → delta m k = 0.
Proof.
  induction 1 as [|i k Hi _ IH]; [done|]. rewrite delta_cons, IH. by destruct i.
Qed.
Lemma delta_lock m m' b : delta m (lock_code m' b) = of_bool (bool_decide (m' = m)).
Proof. unfold lock_code, delta. simpl. lia. Qed.
Lemma delta_unlock m m' : delta m (unlock_code m') = - of_bool (bool_decide (m' = m)).
Proof. unfold unlock_code, delta. simpl. lia. Qed.
Lemma delta_calm m k : Forall calm k → delta m k = 0.
Proof. induction 1 as [|i k Hi _ IH]; [done|]. rewrite delta_cons, IH. by destruct i. Qed.
Lemma delta_wake m w : delta m (wake_code w) = 0.
Proof. by destruct w. Qed.
Lemma after_wait_delta m yes no : after_wait yes no → delta m yes = delta m no.
Proof.
  intros (l & y & n & -> & -> & _ & Hy & Hn). by rewrite !delta_app, !(delta_rets m y), !(delta_rets m n).
Qed.

Lemma rets_balanced m k : Forall is_end k → Forall (balanced m) k.
Proof. intros Hk. eapply Forall_impl; [exact Hk|]. by intros []. Qed.
Lemma rets_calm k : Forall is_end k → Forall calm k.
Proof. intros Hk. eapply Forall_impl; [exact Hk|]. by intros []. Qed.
Lemma lock_balanced m m' b : Forall (balanced m) (lock_code m' b).
Proof. repeat constructor. Qed.
Lemma unlock_balanced m m' : Forall (balanced m) (unlock_code m').
Proof. repeat constructor. Qed.
Lemma wake_balanced m w : Forall (balanced m) (wake_code w).
Proof. destruct w; repeat constructor. Qed.
Lemma after_wait_balanced m yes no :
  after_wait yes no → Forall (balanced m) yes ∧ Forall (balanced m) no.
Proof.
  intros (l & y & n & -> & -> & Hl & Hy & Hn).
  assert (Forall (balanced m) l) by (destruct Hl as [->|[m' ->]]; repeat constructor).
  split; (apply Forall_app; split; [done|by apply rets_balanced]).
Qed.
End delta.

(** The mutex an operation locks or unlocks. *)
Definition op_mutex (o : op) : option Z :=
  match o with
  | ABT_mutex_lock m | ABT_mutex_spinlock m | ABT_mutex_trylock m | ABT_mutex_unlock m
  | ABT_cond_wait _ m | ABT_cond_timedwait _ m => Some m
  | _ => None
  end.
Definition op_delta (m : ptr) (o : op) : Z :=
  match o with
  | ABT_mutex_lock m' | ABT_mutex_spinlock m' => of_bool (bool_decide (m' = m))
  | ABT_mutex_unlock m' => - of_bool (bool_decide (m' = m))
  | _ => 0
  end.

Lemma code_delta m o : 256 ≤ m → delta m (code o) = op_delta m o.
Proof.
  intros Hm. destruct o as [m'|m'|m'|m'|c m'|c m'|c|c|e|e|e v n|e|e];
    cbn [code op_delta]; unfold checked, ABTI_is_null_handle;
    repeat match goal with |- context [?a <? 256] => destruct (Z.ltb_spec a 256) end;
    try rewrite bool_decide_false by lia; rewrite ?delta_app; unfold delta; simpl; lia.
Qed.
Lemma code_balanced m o : o ≠ ABT_mutex_trylock m → Forall (balanced m) (code o).
Proof.
  intros Ho. destruct o as [m'|m'|m'|m'|c m'|c m'|c|c|e|e|e v n|e|e];
    cbn [code]; unfold checked, cond_wait_impl, lock_code, unlock_code, ret; repeat case_match; cbn [app];
    rewrite ?Forall_cons, ?Forall_nil; cbn [balanced]; rewrite ?Forall_cons, ?Forall_nil; naive_solver.
Qed.

Section net.
Context `{Cth}.
Implicit Types (s : sst) (a m : Z) (x : agent).

Definition net m x (k : list instr) : Z := times m (a_held x) + delta m k.

(** One instruction of [a] keeps what it will hold of [m]. *)
Definition kept a x m i s (k : list instr) s' : Prop :=
  ∃ x', agents s' = <[a := x']> (agents s) ∧ net m x' k = net m x [i] ∧ Forall (balanced m) k.

Lemma kept_quiet a x m i s k s' :
  agents s !! a = Some x → agents s' = agents s → delta m k = delta_of m i → Forall (balanced m) k →
  kept a x m i s k s'.
Proof.
  intros Hx Ea Hd Hb. exists x. split_and!; [by rewrite Ea, insert_id| |done].
  unfold net. rewrite Hd. unfold delta. simpl. lia.
Qed.
Lemma kept_lock a x m m' b s k s' :
  agents s' = <[a := x <| a_held ::= cons m' |>]> (agents s) →
  delta m k = 0 → Forall (balanced m) k → kept a x m (IMutexBody m' b) s k s'.
Proof.
  intros Ea Hd Hb. eexists. split_and!; [exact Ea| |done]. unfold net. rewrite Hd. unfold delta. simpl.
  destruct (decide (m' = m)) as [->|].
  - rewrite times_cons, bool_decide_true by done. simpl. lia.
  - rewrite times_cons_ne, bool_decide_false by done. simpl. lia.
Qed.

Lemma exec_net a e x i m s :
  mutex_ok (mutexes s) (holds s) → agents s !! a = Some x → balanced m i →
  (∀ m', i = IUnlockBody m' → m' ∈ a_held x) →
  wlp (exec a e i) (kept a x m i s) s.
Proof.
  intros Hok Hx Hb Hu.
  destruct i as [l|l|m' sp|m'|m'|c m' tm ok bad late|c|c|ev tm|ev v n|ev|ev|w l|w|w|w l yes no|w l yes no|w|w|t|o|c out];
    exec_body; unfold set_slock, detach_list.
  - wlp_step. wlp_step. wlp_step. by apply kept_quiet.
  - wlp_step. wlp_step. wlp_step. by apply kept_quiet.
  - wlp_step. eapply wlp_mono; [by apply try_lock_spec|]. intros got s1 Hs1. destruct got.
    + wlp_step. destruct Hs1 as (o' & _ & Ea & _). apply kept_lock; [done|done|repeat constructor].
    + subst s1. destruct sp.
      * wlp_step. apply kept_quiet; [done|done| |repeat constructor]. unfold delta. simpl. lia.
      * wlp_step. apply wlp_enqueue. intros w s2 [_ Ea]. wlp_step.
        apply kept_quiet; [done|done| |repeat constructor]. unfold delta. simpl. lia.
  - wlp_step. eapply wlp_mono; [by apply try_lock_spec|]. intros got s1 Hs1. wlp_step.
    assert (Forall (balanced m) (IRelease (LM m') :: ret (if got then ABT_SUCCESS else ABT_ERR_MUTEX_LOCKED)))
      by repeat constructor. destruct got.
    + destruct Hs1 as (o' & _ & Ea & _). eexists. split_and!; [exact Ea| |done].
      unfold net. simpl in *. by rewrite times_cons_ne.
    + subst s1. by apply kept_quiet.
  - wlp_step. apply wlp_lookup_in. intros o Ho. wlp_step. apply wlp_set_held. intros x0 Hx0.
    assert (x0 = x) as -> by congruence. specialize (Hu m' eq_refl).
    assert (∀ k s', agents s' = <[a := x <| a_held ::= drop_first m' |>]> (agents s) → delta m k = 0 →
      Forall (balanced m) k → kept a x m (IUnlockBody m') s k s') as Hdrop.
    { intros k s' Ea Hd Hk. eexists. split_and!; [exact Ea| |done]. unfold net. rewrite Hd.
      unfold delta. simpl. destruct (decide (m' = m)) as [->|].
      - rewrite times_drop_first, bool_decide_true by done. simpl. lia.
      - rewrite times_drop_first_ne, bool_decide_false by done. simpl. lia. }
    destruct (m_nesting o >? 0).
    + wlp_step. apply wlp_set_mutex. intros o0 _. wlp_step. apply Hdrop; [done|done|repeat constructor].
    + wlp_step. apply wlp_set_mutex. intros o0 _. wlp_step. apply wlp_on_wl. intros w s1 [_ Ea]. wlp_step.
      apply Hdrop; [by rewrite Ea|by rewrite delta_cons, delta_wake|constructor; [done|apply wake_balanced]].
  - destruct Hb as (Hok' & Hbad & Hlate). wlp_step. apply wlp_lookup_in. intros o Ho.
    assert (∀ s1, agents s1 = agents s → wlp (w ← enqueue a (LC c);
      mret (unlock_code m' ++ (if tm then [IRelease (LC c);
          ITimed w (LC c) (lock_code m' false ++ IFree w :: ok) (lock_code m' false ++ IFree w :: late)]
        else IWait w (LC c) :: lock_code m' false ++ ok)))
      (kept a x m (ICondEnter c m' tm ok bad late) s) s1) as Hgo.
    { intros s1 Es. wlp_step. apply wlp_enqueue. intros w s2 [_ E2]. wlp_step.
      apply kept_quiet; [done|congruence| |].
      - rewrite delta_app, delta_unlock. destruct tm; rewrite ?delta_cons; cbn [delta_of].
        + fold (delta m (lock_code m' false ++ IFree w :: ok)).
          rewrite delta_app, delta_lock, delta_rets by (by constructor).
          unfold delta. simpl. lia.
        + rewrite delta_app, delta_lock, delta_rets by done. simpl. lia.
      - apply Forall_app. split; [apply unlock_balanced|]. destruct tm.
        + repeat constructor. exists (lock_code m' false), (IFree w :: ok), (IFree w :: late).
          split_and!; [done|done|by eauto|by constructor..].
        + constructor; [done|]. apply Forall_app. split; [apply lock_balanced|by apply rets_balanced]. }
    destruct (c_mutex o) as [m0|].
    + destruct (decide (m0 = m')); [by apply Hgo|]. wlp_step. apply kept_quiet; [done|done| |].
      * rewrite delta_cons, delta_rets by done. done.
      * constructor; [done|by apply rets_balanced].
    + wlp_step. wlp_step. by apply Hgo.
  - wlp_step. apply wlp_on_wl. intros w s1 [_ Ea]. wlp_step. apply kept_quiet; [done|done| |].
    + by rewrite delta_cons, delta_wake.
    + constructor; [done|apply wake_balanced].
  - wlp_step. apply wlp_on_wl. intros w s1 [_ Ea]. wlp_step. apply kept_quiet; [done..|repeat constructor].
  - wlp_step. apply wlp_lookup_in. intros o Ho.
    destruct (e_ready o); [wlp_step; apply kept_quiet; [done..|repeat constructor]|].
    wlp_step. apply wlp_enqueue. intros w s1 [_ Ea]. wlp_step. apply kept_quiet; [done|done|by destruct tm|].
    destruct tm; repeat constructor.
    eexists [], _, _. split_and!; [done|done|by left|repeat constructor..].
  - wlp_step. apply wlp_lookup_in. intros o Ho.
    destruct (e_ready o); [wlp_step; apply kept_quiet; [done..|repeat constructor]|].
    destruct (n >? e_nbytes o); [wlp_step; apply kept_quiet; [done..|repeat constructor]|].
    wlp_step. apply wlp_set_event. intros s1 [_ E2]. wlp_step. apply wlp_on_wl. intros w s2 [_ E4]. wlp_step.
    apply kept_quiet; [done|congruence|done|repeat constructor].
  - wlp_step. apply wlp_set_event. intros s1 [_ Ea]. wlp_step. apply kept_quiet; [done..|repeat constructor].
  - wlp_step. apply wlp_lookup_in. intros o Ho. wlp_step. apply kept_quiet; [done..|repeat constructor].
  - wlp_step. apply wlp_lookup_in. intros x0 Hx0. wlp_step. wlp_step.
    destruct (a_ult x0); [wlp_step; wlp_step|]; wlp_step; apply kept_quiet; try done; repeat constructor.
  - wlp_step. apply wlp_free_waiter. intros s1 [_ Ea]. wlp_step. by apply kept_quiet.
  - wlp_step. apply wlp_lookup_in. intros y Hy.
    destruct (signaled y); [|wlp_step; apply kept_quiet; [done..|repeat constructor]].
    wlp_step. apply wlp_free_waiter. intros s1 [_ Ea]. wlp_step. by apply kept_quiet.
  - wlp_step. apply wlp_lookup_in. intros y Hy. destruct (signaled y).
    + wlp_step. apply kept_quiet; [done..|]. by apply (after_wait_balanced m yes no).
    + destruct e; wlp_step; (apply kept_quiet; [done|done|unfold delta; simpl; lia|repeat constructor; done]).
  - wlp_step. apply wlp_lookup_in. intros y Hy. pose proof (after_wait_balanced m yes no Hb) as [Hy1 Hn1].
    destruct (signaled y).
    + wlp_step. apply kept_quiet; [done|done|done|by repeat constructor].
    + wlp_step. apply wlp_on_wl. intros r s1 [_ Ea]. wlp_step.
      apply kept_quiet; [done|done| |by repeat constructor].
      cbn [delta_of]. fold (delta m yes). by rewrite (after_wait_delta m yes no).
  - wlp_step. apply wlp_free_waiter. intros s1 [_ Ea]. wlp_step. by apply kept_quiet.
  - wlp_step. apply wlp_lookup_in. intros y Hy. wlp_step. wlp_step. wlp_step.
    apply kept_quiet; [done|done|by destruct (w_thread y)|destruct (w_thread y); repeat constructor].
  - wlp_step. wlp_step. wlp_step. by apply kept_quiet.
  - destruct o as [w|]; [|wlp_step; by apply kept_quiet].
    wlp_step. apply wlp_lookup_in. intros y Hy. wlp_step. apply kept_quiet; [done..|repeat constructor].
  - wlp_step. apply wlp_lookup_in. intros x0 Hx0. assert (x0 = x) as -> by congruence.
    wlp_step. wlp_step. wlp_step. exists (x <| a_ret := Some (c, out) |>).
    split_and!; [done|done|constructor].
Qed.

(** Calm code stays calm, and leaves what its thread holds alone. *)
Lemma exec_calm a e x i s :
  agents s !! a = Some x → calm i →
  wlp (exec a e i) (λ k s', Forall calm k ∧ ∃ x', agents s' = <[a := x']> (agents s) ∧ a_held x' = a_held x) s.
Proof.
  intros Hx Hc.
  assert (∀ k s', Forall calm k → agents s' = agents s →
    Forall calm k ∧ ∃ x', agents s' = <[a := x']> (agents s) ∧ a_held x' = a_held x) as Hq.
  { intros k s' Hk Ea. split; [done|]. exists x. by rewrite Ea, insert_id. }
  destruct i as [l|l|m' sp|m'|m'|c m' tm ok bad late|c|c|ev tm|ev v n|ev|ev|w l|w|w|w l yes no|w l yes no|w|w|t|o|c out];
    try done; exec_body; unfold set_slock, detach_list.
  - wlp_step. wlp_step. wlp_step. by apply Hq.
  - wlp_step. wlp_step. wlp_step. by apply Hq.
  - wlp_step. apply wlp_on_wl. intros w s1 [_ Ea]. wlp_step. apply Hq; [|done].
    destruct w; repeat constructor.
  - wlp_step. apply wlp_on_wl. intros w s1 [_ Ea]. wlp_step. apply Hq; [repeat constructor|done].
  - wlp_step. apply wlp_lookup_in. intros o Ho.
    destruct (e_ready o); [wlp_step; apply Hq; [repeat constructor|done]|].
    destruct (n >? e_nbytes o); [wlp_step; apply Hq; [repeat constructor|done]|].
    wlp_step. apply wlp_set_event. intros s1 [_ E2]. wlp_step. apply wlp_on_wl. intros w s2 [_ E4]. wlp_step.
    apply Hq; [repeat constructor|congruence].
  - wlp_step. apply wlp_set_event. intros s1 [_ Ea]. wlp_step. apply Hq; [repeat constructor|done].
  - wlp_step. apply wlp_lookup_in. intros o Ho. wlp_step. apply Hq; [repeat constructor|done].
  - wlp_step. apply wlp_free_waiter. intros s1 [_ Ea]. wlp_step. by apply Hq.
  - wlp_step. apply wlp_lookup_in. intros y Hy.
    destruct (signaled y); [|wlp_step; apply Hq; [repeat constructor|done]].
    wlp_step. apply wlp_free_waiter. intros s1 [_ Ea]. wlp_step. by apply Hq.
  - wlp_step. apply wlp_free_waiter. intros s1 [_ Ea]. wlp_step. by apply Hq.
  - wlp_step. apply wlp_lookup_in. intros y Hy. wlp_step. wlp_step. wlp_step.
    apply Hq; [destruct (w_thread y); repeat constructor|done].
  - wlp_step. wlp_step. wlp_step. by apply Hq.
  - destruct o as [w|]; [|wlp_step; by apply Hq].
    wlp_step. apply wlp_lookup_in. intros y Hy. wlp_step. apply Hq; [repeat constructor|done].
  - wlp_step. apply wlp_lookup_in. intros x0 Hx0. assert (x0 = x) as -> by congruence.
    wlp_step. wlp_step. wlp_step. split; [done|]. by exists (x <| a_ret := Some (c, out) |>).
Qed.
End net.


(** ** Threads at certain points *)

(** How many threads are at a point that satisfies [g]. *)
Definition count_at {P} (g : P → bool) (pts : gmap Z P) : Z :=
  Z.of_nat (size (filter (λ kv : Z * P, g kv.2 = true) pts)).
Lemma count_insert {P} (g : P → bool) (pts : gmap Z P) a p p' :
  pts !! a = Some p →
  count_at g (<[a := p']> pts) = count_at g pts - of_bool (g p) + of_bool (g p').
Proof.
  intros Hp. unfold count_at. set (h := λ kv : Z * P, g kv.2 = true).
  assert (∀ q, Z.of_nat (size (filter h (<[a := q]> pts))) =
    Z.of_nat (size (filter h (delete a pts))) + of_bool (g q)) as Hq.
  { intros q. destruct (g q) eqn:Hg.
    - rewrite <-insert_delete_eq, map_filter_insert_True, map_size_insert_None by
        (done || (rewrite map_lookup_filter_None; left; apply lookup_delete_eq)). simpl. lia.
    - rewrite map_filter_insert_False by (unfold h; simpl; congruence). simpl. lia. }
  pose proof (Hq p) as Hpp. rewrite insert_id in Hpp by done. rewrite Hq. lia.
Qed.
Lemma count_pos {P} (g : P → bool) (pts : gmap Z P) a p :
  pts !! a = Some p → g p = true → 0 < count_at g pts.
Proof.
  intros Hp Hg. unfold count_at.
  assert (filter (λ kv : Z * P, g kv.2 = true) pts !! a = Some p) as Hf by (by apply map_lookup_filter_Some).
  destruct (size _) eqn:Hs; [|lia]. apply map_size_empty_inv in Hs. by rewrite Hs, lookup_empty in Hf.
Qed.
Lemma count_none {P} (g : P → bool) (pts : gmap Z P) :
  (∀ a p, pts !! a = Some p → g p = false) → count_at g pts = 0.
Proof.
  intros Hg. unfold count_at. assert (filter (λ kv : Z * P, g kv.2 = true) pts = ∅) as ->; [|done].
  apply map_empty_filter_2. intros a p Hp. simpl. rewrite (Hg a p Hp). done.
Qed.
Lemma count_two {P} (g : P → bool) (pts : gmap Z P) a b p q :
  pts !! a = Some p → pts !! b = Some q → a ≠ b → g p = true → g q = true → 2 ≤ count_at g pts.
Proof.
  intros Hp Hq Hne Hgp Hgq. unfold count_at.
  assert (filter (λ kv : Z * P, g kv.2 = true) pts !! a = Some p) as Hf by (by apply map_lookup_filter_Some).
  assert (filter (λ kv : Z * P, g kv.2 = true) pts !! b = Some q) as Hf' by (by apply map_lookup_filter_Some).
  rewrite <-(insert_id _ a p Hf), <-insert_delete_eq, map_size_insert_None by apply lookup_delete_eq.
  assert (delete a (filter (λ kv : Z * P, g kv.2 = true) pts) !! b = Some q) as Hd by (by rewrite lookup_delete_ne).
  rewrite <-(insert_id _ b q Hd), <-insert_delete_eq, map_size_insert_None by apply lookup_delete_eq. lia.
Qed.
Lemma count_bound {P} (g : P → bool) (pts : gmap Z P) : 0 ≤ count_at g pts ≤ Z.of_nat (size pts).
Proof.
  unfold count_at. split; [lia|]. apply inj_le. apply map_subseteq_size, map_filter_subseteq.
Qed.

(** ** The methods of an object *)

(** Methods over fields [F], at points [P] of their code.  [mon_next]: from a
    point, the next field access (no call) or the next call on the mutex or a
    condition; [None] where the thread is in no method.  [mon_start]: the
    methods a thread may enter, each of which first locks the mutex.  [mon_owns]:
    the thread has locked the mutex and not unlocked it; [mon_firm]: and nothing
    before the next point gives it up. *)
Class MonitorCode (F P : Type) : Type := {
  mon_mutex : ptr;
  mon_next : P → F → option (F * P * option op);
  mon_start : P → P → Prop;
  mon_owns : P → bool;
  mon_firm : P → bool;
}.
Class MonitorLaws (F P : Type) `{MonitorCode F P} : Prop := {
  ml_mutex : 256 ≤ mon_mutex;
  ml_owns p f r : mon_next p f = Some r → mon_owns p = true;
  ml_field p f f' p' : mon_next p f = Some (f', p', None) → mon_owns p' = true;
  ml_call p f f' p' o : mon_next p f = Some (f', p', Some o) →
    f' = f ∧
    (o = ABT_mutex_unlock mon_mutex ∧ mon_owns p' = false ∧ mon_firm p' = false ∨
     (∃ c, o = ABT_cond_wait c mon_mutex) ∧ mon_owns p' = true ∧ mon_firm p' = false ∨
     (∃ c, o = ABT_cond_signal c ∨ o = ABT_cond_broadcast c) ∧ mon_owns p' = true);
  ml_firm p : mon_firm p = true → mon_owns p = true;
  ml_rest p f : mon_next p f = None → mon_firm p = false;
  ml_start p p' : mon_start p p' → mon_owns p = false ∧ mon_owns p' = true ∧ mon_firm p' = false;
}.

Record mst (F P : Type) `{Cth} : Type := mk_mst {
  sy : sst;
  fields : F;
  points : gmap Z P;
}.
Arguments mk_mst {F P _} _ _ _.
Arguments sy {F P _} _.
Arguments fields {F P _} _.
Arguments points {F P _} _.

Section monitor.
Context {F P : Type} `{Cth} `{MC : MonitorCode F P} `{!MonitorLaws F P}.
Implicit Types (s : mst F P) (a b : Z) (p q : P) (f : F) (x : agent).
Let m : ptr := mon_mutex.

Inductive mstep s : mst F P → Prop :=
  | m_run a e y : step (Run a e) (sy s) = Some (Done tt y) → mstep s (mk_mst y (fields s) (points s))
  | m_start a p p' y :
      points s !! a = Some p → mon_start p p' →
      step (Call a (ABT_mutex_lock m)) (sy s) = Some (Done tt y) →
      mstep s (mk_mst y (fields s) (<[a := p']> (points s)))
  | m_field a x p f' p' :
      points s !! a = Some p → agents (sy s) !! a = Some x → a_stack x = [] →
      mon_next p (fields s) = Some (f', p', None) →
      mstep s (mk_mst (sy s) f' (<[a := p']> (points s)))
  | m_call a p f' p' o y :
      points s !! a = Some p → mon_next p (fields s) = Some (f', p', Some o) →
      step (Call a o) (sy s) = Some (Done tt y) →
      mstep s (mk_mst y f' (<[a := p']> (points s)))
  (** a thread in no method uses other objects *)
  | m_other a p o y :
      points s !! a = Some p → mon_next p (fields s) = None → op_mutex o ≠ Some m →
      disciplined (Call a o) (sy s) → step (Call a o) (sy s) = Some (Done tt y) →
      mstep s (mk_mst y (fields s) (points s)).

Inductive msteps s0 : mst F P → Prop :=
  | ms_start : msteps s0 s0
  | ms_step s s' : msteps s0 s → mstep s s' → msteps s0 s'.

(** *** The invariant *)

Definition point_ok p x : Prop :=
  net m x (a_stack x) = of_bool (mon_owns p) ∧ Forall (balanced m) (a_stack x) ∧
  (mon_firm p = true → Forall calm (a_stack x)).
Record monitor_inv s : Prop := {
  mv_mutex : mutex_inv (sy s);
  mv_dom a : is_Some (agents (sy s) !! a) ↔ is_Some (points s !! a);
  mv_point a p x : points s !! a = Some p → agents (sy s) !! a = Some x → point_ok p x;
}.
(** [a] has the mutex and the fields to itself. *)
Definition inside s a : Prop :=
  ∃ p x, points s !! a = Some p ∧ agents (sy s) !! a = Some x ∧ mon_owns p = true ∧
    (mon_firm p = true ∨ a_stack x = []).

Lemma inside_held s a : monitor_inv s → inside s a → ∃ x, agents (sy s) !! a = Some x ∧ m ∈ a_held x.
Proof.
  intros HI (p & x & Hp & Hx & Ho & Hc). exists x. split; [done|].
  destruct (mv_point _ HI a p x Hp Hx) as (Hn & _ & Hf).
  assert (delta m (a_stack x) = 0) as Hd by (destruct Hc as [?| ->]; [apply delta_calm; auto|done]).
  unfold net in Hn. rewrite Ho, Hd in Hn. apply times_elem. simpl in Hn. lia.
Qed.
Lemma monitor_firm s a b : monitor_inv s → inside s a → inside s b → a = b.
Proof.
  intros HI (x & Hx & Hmx)%inside_held (y & Hy & Hmy)%inside_held; [|done..].
  by eapply (holder_unique (sy s)); [apply mv_mutex| | |..].
Qed.

(** A thread whose stack is replaced, the others as they were. *)
Lemma inv_stack s y a x' pts f :
  monitor_inv s → mutex_inv y → agents y = <[a := x']> (agents (sy s)) →
  is_Some (agents (sy s) !! a) →
  (∃ p, (pts = points s ∧ points s !! a = Some p ∨ pts = <[a := p]> (points s)) ∧ point_ok p x') →
  monitor_inv (mk_mst y f pts).
Proof.
  intros HI Hm Ea Hs (p & Hpts & Hok). split; simpl; [done| |].
  - intros b. rewrite Ea, lookup_insert_is_Some. pose proof (mv_dom _ HI b) as Hd.
    assert (is_Some (points s !! a)) by (by apply (mv_dom _ HI)).
    destruct Hpts as [[-> _]| ->].
    + destruct (decide (a = b)) as [<-|]; naive_solver.
    + rewrite lookup_insert_is_Some. naive_solver.
  - intros b q z Hq Hz. rewrite Ea in Hz. destruct (decide (a = b)) as [<-|Hne].
    + rewrite lookup_insert_eq in Hz. simplify_eq. destruct Hpts as [[-> Hp]| ->].
      * by simplify_eq.
      * rewrite lookup_insert_eq in Hq. by simplify_eq.
    + rewrite lookup_insert_ne in Hz by done. apply (mv_point _ HI b); [|done].
      destruct Hpts as [[-> Hp]| ->]; [done|]. by rewrite lookup_insert_ne in Hq.
Qed.

Lemma run_inv s a e y :
  monitor_inv s → step (Run a e) (sy s) = Some (Done tt y) → monitor_inv (mk_mst y (fields s) (points s)).
Proof.
  intros HI Hs. pose proof (step_mutex_inv (Run a e) _ _ (mv_mutex _ HI) I Hs) as Hm. simpl in Hs.
  destruct (agents (sy s) !! a) as [x|] eqn:Hx; [|done]. simpl in Hs.
  destruct (a_stack x) as [|i k] eqn:Hk; [done|]. destruct (_ || _); [done|].
  destruct (mv_mutex _ HI) as [Hok Hrun].
  assert (is_Some (points s !! a)) as [p Hp] by (apply (mv_dom _ HI); eauto).
  destruct (mv_point _ HI a p x Hp Hx) as (Hn & Hb & Hf). rewrite Hk in *.
  apply Forall_cons in Hb as [Hbi Hbk].
  assert (∀ m', i = IUnlockBody m' → m' ∈ a_held x) as Hu.
  { intros m' ->. specialize (Hrun a x Hx) as [_ Hr]. apply Hr. rewrite Hk. simpl. set_solver. }
  pose proof (exec_net a e x i m _ Hok Hx Hbi Hu) as Hnet.
  pose proof (exec_calm a e x i (sy s) Hx) as Hcalm. unfold wlp in *.
  destruct (exec a e i (sy s)) as [k' s1|]; simplify_eq.
  destruct Hnet as (x' & Ea & Hn' & Hb').
  assert (agents (set_stack a (k' ++ k) s1) = <[a := x' <| a_stack := k' ++ k |>]> (agents (sy s))) as Ea'.
  { unfold set_stack. rewrite Ea, lookup_insert_eq. simpl. rewrite Ea. apply insert_insert_eq. }
  eapply (inv_stack s _ a); [done|done|exact Ea'|eauto|]. exists p. split; [by left|].
  split_and!; change (a_stack (x' <| a_stack := k' ++ k |>)) with (k' ++ k).
  - unfold net in *. rewrite delta_app. rewrite delta_cons in Hn. unfold delta in Hn' at 2. simpl in *. lia.
  - by apply Forall_app.
  - intros Hfi. specialize (Hf Hfi). apply Forall_cons in Hf as [Hci Hck].
    destruct (Hcalm Hci) as [Hck' _]. by apply Forall_app.
Qed.

(** Thread [a] makes the call [o], and is then at point [p']. *)
Lemma call_inv_at s a o y p p' pts f :
  monitor_inv s → points s !! a = Some p →
  pts = points s ∧ p' = p ∨ pts = <[a := p']> (points s) →
  disciplined (Call a o) (sy s) → step (Call a o) (sy s) = Some (Done tt y) →
  o ≠ ABT_mutex_trylock m → of_bool (mon_owns p) + op_delta m o = of_bool (mon_owns p') →
  (mon_firm p' = true → Forall calm (code o)) →
  monitor_inv (mk_mst y f pts).
Proof.
  intros HI Hp Hpts Hd Hs Ht Hop Hcalm.
  pose proof (step_mutex_inv (Call a o) _ _ (mv_mutex _ HI) Hd Hs) as Hm.
  simpl in Hs. destruct (agents (sy s) !! a) as [x|] eqn:Hx; [|done]. simpl in Hs.
  destruct (a_stack x) eqn:Hk; simplify_eq. destruct (mv_point _ HI a p x Hp Hx) as (Hn & _ & _).
  assert (agents (set_stack a (code o) (sy s)) = <[a := x <| a_stack := code o |>]> (agents (sy s))) as Ea.
  { unfold set_stack. by rewrite Hx. }
  eapply (inv_stack s _ a); [done|done|exact Ea|eauto|]. exists p'.
  split; [destruct Hpts as [[-> ->]| ->]; [by left|by right]|].
  split_and!; change (a_stack (x <| a_stack := code o |>)) with (code o).
  - unfold net in *. simpl. rewrite code_delta by apply ml_mutex. rewrite Hk in Hn. simpl in Hn.
    unfold delta in Hn. simpl in Hn. fold m. lia.
  - by apply code_balanced.
  - done.
Qed.

Lemma signal_calm c : Forall calm (code (ABT_cond_signal c)).
Proof. simpl. unfold checked. destruct (ABTI_is_null_handle c); repeat constructor. Qed.
Lemma broadcast_calm c : Forall calm (code (ABT_cond_broadcast c)).
Proof. simpl. unfold checked. destruct (ABTI_is_null_handle c); repeat constructor. Qed.

Lemma called_inside s a o y p :
  monitor_inv s → points s !! a = Some p → mon_owns p = true →
  step (Call a o) (sy s) = Some (Done tt y) → inside s a.
Proof.
  intros HI Hp Ho Hs. simpl in Hs. destruct (agents (sy s) !! a) as [x|] eqn:Hx; [|done]. simpl in Hs.
  destruct (a_stack x) eqn:Hk; [|done]. exists p, x. eauto.
Qed.

Lemma other_quiet o : op_mutex o ≠ Some m → op_delta m o = 0 ∧ o ≠ ABT_mutex_trylock m.
Proof.
  intros Ho. destruct o; simpl in *; split; try done; try (by intros [= ->]);
    rewrite bool_decide_false by congruence; done.
Qed.

Lemma mon_call_inv s a p f' p' o y :
  monitor_inv s → points s !! a = Some p → mon_next p (fields s) = Some (f', p', Some o) →
  step (Call a o) (sy s) = Some (Done tt y) → monitor_inv (mk_mst y f' (<[a := p']> (points s))).
Proof.
  intros HI Hp Hn Hs. pose proof (ml_owns _ _ _ Hn) as Ho.
  destruct (ml_call _ _ _ _ _ Hn) as [-> Hc].
  destruct (inside_held s a HI (called_inside _ _ _ _ _ HI Hp Ho Hs)) as (x & Hx & Hm).
  eapply (call_inv_at s a o y p p'); [done..|by right| |done| | |].
  - intros x0 m0 Hx0 Hm0. assert (x0 = x) as -> by congruence.
    destruct Hc as [(-> & _)|[([c ->] & _)|([c [->| ->]] & _)]]; simpl in Hm0; simplify_eq; done.
  - destruct Hc as [(-> & _)|[([c ->] & _)|([c [->| ->]] & _)]]; done.
  - destruct Hc as [(-> & Ho' & _)|[([c ->] & Ho' & _)|([c [->| ->]] & Ho')]]; rewrite Ho, Ho'; simpl;
      rewrite ?bool_decide_true by done; done.
  - intros Hf. destruct Hc as [(-> & _ & ?)|[([c ->] & _ & ?)|([c [->| ->]] & _)]]; [congruence..| |];
      [apply signal_calm|apply broadcast_calm].
Qed.

Lemma field_inv s a x p f' p' :
  monitor_inv s → points s !! a = Some p → agents (sy s) !! a = Some x → a_stack x = [] →
  mon_next p (fields s) = Some (f', p', None) → monitor_inv (mk_mst (sy s) f' (<[a := p']> (points s))).
Proof.
  intros HI Hp Hx Hk Hn. eapply (inv_stack s _ a x); [done|apply HI|by rewrite insert_id|eauto|].
  exists p'. split; [by right|]. destruct (mv_point _ HI a p x Hp Hx) as (Hnet & Hb & _).
  split_and!; [|done|by rewrite Hk].
  by rewrite Hnet, (ml_owns _ _ _ Hn), (ml_field _ _ _ _ Hn).
Qed.

Lemma mstep_inv s s' : monitor_inv s → mstep s s' → monitor_inv s'.
Proof.
  intros HI Hs. destruct Hs as [a e y Hs|a p p' y Hp Hst Hs|a x p f' p' Hp Hx Hk Hn|a p f' p' o y Hp Hn Hs|a p o y Hp Hn Ho Hd Hs].
  - by eapply run_inv.
  - destruct (ml_start _ _ Hst) as (Ho & Ho' & Hf).
    eapply (call_inv_at s a (ABT_mutex_lock m) y p p'); [done..|by right|done|done|done| |congruence].
    rewrite Ho, Ho'. simpl. by rewrite bool_decide_true.
  - by eapply field_inv.
  - by eapply mon_call_inv.
  - destruct (other_quiet _ Ho) as [Hz Ht].
    eapply (call_inv_at s a o y p p); [done..|by left|done|done|done|lia|].
    intros Hf. by rewrite (ml_rest _ _ Hn) in Hf.
Qed.

(** Before any call: all threads idle, in no method. *)
Record monitor_fresh s : Prop := {
  mn_mutexes : mutexes_fresh (sy s);
  mn_dom a : is_Some (agents (sy s) !! a) ↔ is_Some (points s !! a);
  mn_rest a p : points s !! a = Some p → mon_owns p = false;
}.
Lemma fresh_monitor_inv s : monitor_fresh s → monitor_inv s.
Proof.
  intros [FM FD FR]. split; [by apply fresh_mutex_inv|done|].
  intros a p x Hp Hx. destruct (mf_agent _ FM a x Hx) as [Hk Hh]. unfold point_ok, net.
  rewrite Hk, Hh, (FR a p Hp). done.
Qed.
Lemma msteps_inv s0 s : monitor_fresh s0 → msteps s0 s → monitor_inv s.
Proof. intros H0. induction 1; [by apply fresh_monitor_inv|]. by eapply mstep_inv. Qed.

(** *** The rule for the objects

    A relation between the fields and where the threads are is an invariant if
    entering a method keeps it, and if each step of a method keeps it when no
    other thread is at a firm point. *)
Lemma monitor_rule (R : F → gmap Z P → Prop) s0 s :
  monitor_fresh s0 → R (fields s0) (points s0) →
  (∀ f pts a p p', R f pts → pts !! a = Some p → mon_start p p' → R f (<[a := p']> pts)) →
  (∀ f pts a p f' p' o, R f pts → pts !! a = Some p → mon_next p f = Some (f', p', o) →
     (∀ b q, b ≠ a → pts !! b = Some q → mon_firm q = false) → R f' (<[a := p']> pts)) →
  msteps s0 s → R (fields s) (points s).
Proof.
  intros H0 HR Hst Hnx Hs.
  assert (∀ s a, monitor_inv s → inside s a → ∀ b q, b ≠ a → points s !! b = Some q →
    mon_firm q = false) as Hout.
  { intros s1 a HI Ha b q Hne Hq. destruct (mon_firm q) eqn:Hf; [|done]. exfalso. apply Hne.
    pose proof (ml_firm _ Hf). destruct (proj2 (mv_dom _ HI b)) as [x Hx]; [eauto|].
    apply (monitor_firm s1); [done| |done]. exists q, x. eauto. }
  induction Hs as [|s s' Hs IH Hstep]; [done|]. pose proof (msteps_inv _ _ H0 Hs) as HI.
  destruct Hstep as [a e y|a p p' y Hp Hsta|a x p f' p' Hp Hx Hk Hn|a p f' p' o y Hp Hn Hc|a p o y]; simpl; try done.
  - by eapply Hst.
  - eapply Hnx; [done..|]. apply Hout; [done|]. exists p, x. split_and!; [done..| |by right]. by eapply ml_owns.
  - eapply Hnx; [done..|]. apply Hout; [done|]. eapply called_inside; [done..| |done]. by eapply ml_owns.
Qed.
End monitor.
