(* ===== verification/Rwlock.v ===== *)
(** * Read-write locks

    [ABTI_rwlock] of src/sync.cpp: a mutex, two conditions and two counters.
    The points of [ABT_rwlock_rdlock], [ABT_rwlock_wrlock] and
    [ABT_rwlock_unlock], one field access or call each, run on the machine of
    [Monitor]; a thread unlocks what it has locked. *)

From S2P Require Import Prelude AbtTypes Objects Waitlist Sync SyncMutex Monitor.

(** ** The object and its methods *)

Record ABTI_rwlock : Type := mk_rwlock {
  rw_readers : Z;
  rw_writer : Z;
}.
(** The handles in its other fields. *)
Record rw_handles : Type := mk_rwh {
  rw_m : ptr;
  rw_rd : ptr;
  rw_wr : ptr;
}.

(** Outside the methods a thread has the lock as a reader, as a writer or not
    at all.  The last argument of [ULoad] and [UStore] is what they loaded. *)
Inductive rw_point : Type :=
  | RwIdle | RwReading | RwWriting
  (** ABT_rwlock_rdlock *)
  | RdTest | RdLoad | RdStore (readers : Z) | RdUnlock
  (** ABT_rwlock_wrlock *)
  | WrTest | WrTestReaders | WrSet | WrUnlock
  (** ABT_rwlock_unlock; [w]: the caller is the writer *)
  | UTest (w : bool) | UClear | UBroadcast | USignal
  | ULoad | UStore (readers : Z) | USignalLast | UUnlock.

Section rwlock.
Variable h : rw_handles.

Definition ABT_rwlock_rdlock (p : rw_point) (r : ABTI_rwlock) : option (ABTI_rwlock * rw_point * option op) :=
  match p with
  | RdTest => Some (if truthy (rw_writer r) then (r, RdTest, Some (ABT_cond_wait (rw_rd h) (rw_m h))) else (r, RdLoad, None))
  | RdLoad => Some (r, RdStore (rw_readers r), None)
  | RdStore n => Some (mk_rwlock (n + 1) (rw_writer r), RdUnlock, None)
  | RdUnlock => Some (r, RwReading, Some (ABT_mutex_unlock (rw_m h)))
  | _ => None
  end.
Definition ABT_rwlock_wrlock (p : rw_point) (r : ABTI_rwlock) : option (ABTI_rwlock * rw_point * option op) :=
  match p with
  | WrTest => Some (if truthy (rw_writer r) then (r, WrTest, Some (ABT_cond_wait (rw_wr h) (rw_m h)))
                    else (r, WrTestReaders, None))
  | WrTestReaders => Some (if truthy (rw_readers r) then (r, WrTest, Some (ABT_cond_wait (rw_wr h) (rw_m h)))
                           else (r, WrSet, None))
  | WrSet => Some (mk_rwlock (rw_readers r) 1, WrUnlock, None)
  | WrUnlock => Some (r, RwWriting, Some (ABT_mutex_unlock (rw_m h)))
  | _ => None
  end.
Definition ABT_rwlock_unlock (p : rw_point) (r : ABTI_rwlock) : option (ABTI_rwlock * rw_point * option op) :=
  match p with
  | UTest _ => Some (r, if truthy (rw_writer r) then UClear else ULoad, None)
  | UClear => Some (mk_rwlock (rw_readers r) 0, UBroadcast, None)
  | UBroadcast => Some (r, USignal, Some (ABT_cond_broadcast (rw_rd h)))
  | USignal => Some (r, UUnlock, Some (ABT_cond_signal (rw_wr h)))
  | ULoad => Some (r, UStore (rw_readers r), None)
  | UStore n => Some (mk_rwlock (n - 1) (rw_writer r), if n - 1 =? 0 then USignalLast else UUnlock, None)
  | USignalLast => Some (r, UUnlock, Some (ABT_cond_signal (rw_wr h)))
  | UUnlock => Some (r, RwIdle, Some (ABT_mutex_unlock (rw_m h)))
  | _ => None
  end.

Definition rw_next (p : rw_point) (r : ABTI_rwlock) : option (ABTI_rwlock * rw_point * option op) :=
  match ABT_rwlock_rdlock p r with
  | Some x => Some x
  | None => match ABT_rwlock_wrlock p r with Some x => Some x | None => ABT_rwlock_unlock p r end
  end.
(** Entering a method, with its lock of the mutex under way.  The rules of use,
    which the code does not check: only a thread that has the lock unlocks it, and
    a thread that has it does not lock it again. *)
Inductive rw_start : rw_point → rw_point → Prop :=
  | start_rdlock : rw_start RwIdle RdTest
  | start_wrlock : rw_start RwIdle WrTest
  | start_unlock_reader : rw_start RwReading (UTest false)
  | start_unlock_writer : rw_start RwWriting (UTest true).

Definition rw_owns (p : rw_point) : bool :=
  match p with RwIdle | RwReading | RwWriting => false | _ => true end.
Definition rw_firm (p : rw_point) : bool :=
  match p with RwIdle | RwReading | RwWriting | RdTest | WrTest | UTest _ => false | _ => true end.

#[export] Instance rw_code : MonitorCode ABTI_rwlock rw_point := {|
  mon_mutex := rw_m h;
  mon_next := rw_next;
  mon_start := rw_start;
  mon_owns := rw_owns;
  mon_firm := rw_firm;
|}.

#[export] Instance rw_laws : 256 ≤ rw_m h → MonitorLaws ABTI_rwlock rw_point.
Proof.
  intros Hm. split; simpl; [done|..].
  - intros [] f r; try done.
  - intros p f f' p' Hn. destruct p; simpl in Hn; unfold rw_next in Hn; simpl in Hn; repeat case_match; by simplify_eq.
  - intros p f f' p' o Hn. destruct p; simpl in Hn; unfold rw_next in Hn; simpl in Hn; repeat case_match;
      simplify_eq; (split; [done|]); naive_solver.
  - by intros [].
  - intros [] f; unfold rw_next; simpl; repeat case_match; by intros.
  - by intros p p' [].
Qed.

(** ** The invariant *)

(** The thread counts as a reader: from the increment to the decrement. *)
Definition reads (p : rw_point) : bool :=
  match p with RdUnlock | RwReading | UTest false | ULoad | UStore _ => true | _ => false end.
Definition writes (p : rw_point) : bool :=
  match p with WrUnlock | RwWriting | UTest true | UClear => true | _ => false end.

(** What the fields say at a firm point. *)
Definition rw_at (r : ABTI_rwlock) (p : rw_point) : Prop :=
  match p with
  | RdLoad => rw_writer r = 0
  | RdStore n => rw_writer r = 0 ∧ n = rw_readers r
  | WrTestReaders => rw_writer r = 0
  | WrSet => rw_writer r = 0 ∧ rw_readers r = 0
  | UStore n => n = rw_readers r
  | _ => True
  end.
Record rw_inv (r : ABTI_rwlock) (pts : gmap Z rw_point) : Prop := {
  ri_readers : rw_readers r = count_at reads pts;
  ri_writer : rw_writer r = count_at writes pts;
  ri_excl : rw_writer r = 0 ∨ rw_writer r = 1 ∧ rw_readers r = 0;
  ri_at a p : pts !! a = Some p → rw_at r p;
}.

Lemma rw_inv_start r pts a p p' :
  rw_inv r pts → pts !! a = Some p → rw_start p p' → rw_inv r (<[a := p']> pts).
Proof.
  intros [RR RW RE RA] Hp Hst. split; rewrite ?(count_insert _ _ a p) by done; [..|done|].
  - destruct Hst; simpl; lia.
  - destruct Hst; simpl; lia.
  - intros b q. destruct (decide (a = b)) as [<-|].
    + rewrite lookup_insert_eq. intros [= <-]. by destruct Hst.
    + rewrite lookup_insert_ne by done. apply RA.
Qed.

Lemma rw_inv_next r pts a p r' p' o :
  rw_inv r pts → pts !! a = Some p → rw_next p r = Some (r', p', o) →
  (∀ b q, b ≠ a → pts !! b = Some q → rw_firm q = false) → rw_inv r' (<[a := p']> pts).
Proof.
  intros [RR RW RE RA] Hp Hn Hf.
  pose proof (count_bound reads pts). pose proof (count_bound writes pts).
  assert (reads p = true → 0 < rw_readers r) as HR by (intros; rewrite RR; by eapply count_pos).
  assert (writes p = true → 0 < rw_writer r) as HW by (intros; rewrite RW; by eapply count_pos).
  pose proof (RA a p Hp) as Ha.
  assert (rw_readers r' = count_at reads (<[a := p']> pts) ∧ rw_writer r' = count_at writes (<[a := p']> pts) ∧
    (rw_writer r' = 0 ∨ rw_writer r' = 1 ∧ rw_readers r' = 0) ∧ rw_at r' p') as (HR' & HW' & HE' & Ha').
  { rewrite !(count_insert _ _ a p) by done. unfold rw_next, ABT_rwlock_rdlock, ABT_rwlock_wrlock, ABT_rwlock_unlock, truthy in Hn.
    destruct p as [| | | | |n| | | | | |[]| | | | |n| |]; simpl in Hn, Ha, HR, HW;
      repeat match type of Hn with context [?x =? 0] => destruct (Z.eqb_spec x 0) end;
      try specialize (HR eq_refl); try specialize (HW eq_refl); simplify_eq/=; split_and!; first [done|lia]. }
  split; [done..|]. intros b q. destruct (decide (a = b)) as [<-|Hne].
  - rewrite lookup_insert_eq. by intros [= <-].
  - rewrite lookup_insert_ne by done. intros Hq. specialize (Hf b q ltac:(done) Hq). by destruct q.
Qed.

Context `{Cth}.

(** C27: reader-writer exclusion, for threads that unlock only a lock they have,
    and that lock it, for reading or writing, only when they do not have it (the
    code checks neither, sync.cpp:343-357: a stray unlock makes [readers]
    negative or lets a second writer in, and a nested read lock counts a thread
    twice).  However the threads of a read-write lock interleave, in its methods
    and in their waits: a thread that has the lock as writer is alone, no other
    thread has it as writer or reader; the [readers] field counts exactly the
    threads between its increment and its decrement, never more than the threads
    there are, so it is never negative. *)
Theorem rwlock_exclusion s0 s :
  256 ≤ rw_m h → monitor_fresh s0 →
  fields s0 = mk_rwlock 0 0 → (∀ a p, points s0 !! a = Some p → p = RwIdle) →
  msteps s0 s →
  (∀ a b p, a ≠ b → points s !! a = Some RwWriting → points s !! b = Some p → p ≠ RwWriting ∧ p ≠ RwReading) ∧
  rw_readers (fields s) = count_at reads (points s) ∧
  0 ≤ rw_readers (fields s) ≤ Z.of_nat (size (points s)).
Proof.
  intros Hm H0 Hf Hp Hs. pose proof (rw_laws Hm) as HL.
  assert (rw_inv (fields s) (points s)) as [RR RW RE RA].
  { eapply (monitor_rule rw_inv); [done| |..|done].
    - rewrite Hf. assert (∀ g, g RwIdle = false → count_at g (points s0) = 0) as Hc.
      { intros g Hg. apply count_none. intros a p Ha. by rewrite (Hp a p Ha). }
      split; simpl; rewrite ?Hc by done; [done|done|by left|]. intros a p Ha. by rewrite (Hp a p Ha).
    - intros. by eapply rw_inv_start.
    - intros. by eapply rw_inv_next. }
  split_and!; [|done|rewrite RR; apply count_bound..].
  intros a b p Hne Ha Hb. pose proof (count_pos writes _ a _ Ha eq_refl). split; intros ->.
  - pose proof (count_two writes _ a b _ _ Ha Hb Hne eq_refl eq_refl). lia.
  - pose proof (count_pos reads _ b _ Hb eq_refl). lia.
Qed.
End rwlock.
