(* ===== verification/Barrier.v ===== *)
(** * Barriers

    [ABTI_barrier] of src/sync.cpp on the machine of [Monitor]: the points of
    [ABT_barrier_wait] and [ABT_barrier_reinit], with the counters at their
    widths.  [rounds] and [arrivals] are ghost: how often the barrier opened and
    how many threads have been counted. *)

From S2P Require Import Prelude AbtTypes Objects Waitlist Sync SyncMutex Monitor.

(** ** The object and its methods *)

Record ABTI_barrier : Type := mk_barrier {
  b_num : Z;
  b_waiting : Z;
  b_generation : Z;
  (** ghost *)
  rounds : Z;
  arrivals : Z;
}.
#[global] Instance eta_barrier : Eta ABTI_barrier := λ b,
  mk_barrier (b_num b) (b_waiting b) (b_generation b) (rounds b) (arrivals b).
Record barrier_handles : Type := mk_bh {
  b_m : ptr;
  b_c : ptr;
}.

(** [r] is the round a thread arrived in (ghost); [gen] and [v] are the
    values the code has loaded.  [BIdle (Some r)]: the thread has returned from
    the wait of round [r]. *)
Inductive barrier_point : Type :=
  | BIdle (last : option Z)
  (** ABT_barrier_wait *)
  | BGen | BLoad (gen r : Z) | BStore (gen r v : Z) | BTest (gen r v : Z)
  | BReset (r : Z) | BGenLoad (r : Z) | BGenStore (r gen : Z) | BBroadcast (r : Z)
  | BWhile (gen r : Z) | BUnlock (r : Z)
  (** ABT_barrier_reinit *)
  | BReNum (n : Z) | BReWaiting | BReUnlock.

Section barrier.
Variable h : barrier_handles.

Definition ABT_barrier_wait (p : barrier_point) (b : ABTI_barrier) :
    option (ABTI_barrier * barrier_point * option op) :=
  match p with
  | BGen => Some (b, BLoad (b_generation b) (rounds b), None)
  | BLoad gen r => Some (b, BStore gen r (b_waiting b), None)
  | BStore gen r v => Some (b <| b_waiting := wrapu32 (v + 1) |> <| arrivals ::= Z.succ |>,
                            BTest gen r (wrapu32 (v + 1)), None)
  | BTest gen r v => Some (b, if v >=? b_num b then BReset r else BWhile gen r, None)
  | BReset r => Some (b <| b_waiting := 0 |>, BGenLoad r, None)
  | BGenLoad r => Some (b, BGenStore r (b_generation b), None)
  | BGenStore r gen => Some (b <| b_generation := wrapu64 (gen + 1) |> <| rounds ::= Z.succ |>, BBroadcast r, None)
  | BBroadcast r => Some (b, BUnlock r, Some (ABT_cond_broadcast (b_c h)))
  | BWhile gen r => Some (if gen =? b_generation b then (b, BWhile gen r, Some (ABT_cond_wait (b_c h) (b_m h)))
                          else (b, BUnlock r, None))
  | BUnlock r => Some (b, BIdle (Some r), Some (ABT_mutex_unlock (b_m h)))
  | _ => None
  end.
Definition ABT_barrier_reinit (p : barrier_point) (b : ABTI_barrier) :
    option (ABTI_barrier * barrier_point * option op) :=
  match p with
  | BReNum n => Some (b <| b_num := n |>, BReWaiting, None)
  | BReWaiting => Some (b <| b_waiting := 0 |>, BReUnlock, None)
  | BReUnlock => Some (b, BIdle None, Some (ABT_mutex_unlock (b_m h)))
  | _ => None
  end.
Definition barrier_next (p : barrier_point) (b : ABTI_barrier) :=
  match ABT_barrier_wait p b with Some x => Some x | None => ABT_barrier_reinit p b end.

(** [re]: whether threads also re-initialize the barrier. *)
Inductive barrier_start (re : bool) : barrier_point → barrier_point → Prop :=
  | start_wait l : barrier_start re (BIdle l) BGen
  | start_reinit l n : re = true → 0 ≤ n < 2 ^ 32 → barrier_start re (BIdle l) (BReNum n).

Definition barrier_owns (p : barrier_point) : bool := match p with BIdle _ => false | _ => true end.
Definition barrier_firm (p : barrier_point) : bool :=
  match p with BIdle _ | BGen | BWhile _ _ | BReNum _ => false | _ => true end.

#[export] Instance barrier_code (re : bool) : MonitorCode ABTI_barrier barrier_point := {|
  mon_mutex := b_m h;
  mon_next := barrier_next;
  mon_start := barrier_start re;
  mon_owns := barrier_owns;
  mon_firm := barrier_firm;
|}.
Lemma barrier_laws re : 256 ≤ b_m h → MonitorLaws (H := barrier_code re) ABTI_barrier barrier_point.
Proof.
  intros Hm. split; simpl; [done|..].
  - intros p f x. by destruct p.
  - intros p f f' p' Hn. destruct p; simpl in Hn; unfold barrier_next in Hn; simpl in Hn; repeat case_match; by simplify_eq.
  - intros p f f' p' o Hn. destruct p; simpl in Hn; unfold barrier_next in Hn; simpl in Hn; repeat case_match;
      simplify_eq; (split; [done|]); naive_solver.
  - by intros [].
  - intros p f. destruct p; unfold barrier_next; simpl; repeat case_match; by intros.
  - by intros p p' [].
Qed.

(** ** The invariant *)

(** Between counting an arrival and opening the barrier for it. *)
Definition opening (p : barrier_point) : bool :=
  match p with BTest _ _ _ | BReset _ | BGenLoad _ | BGenStore _ _ => true | _ => false end.
Definition settled (b : ABTI_barrier) : Prop :=
  0 ≤ b_waiting b < b_num b ∧ arrivals b = rounds b * b_num b + b_waiting b.
Definition barrier_at (b : ABTI_barrier) (p : barrier_point) : Prop :=
  match p with
  | BIdle None | BGen => True
  | BIdle (Some r) | BBroadcast r | BUnlock r => r < rounds b
  | BLoad gen r => gen = b_generation b ∧ r = rounds b
  | BStore gen r v => gen = b_generation b ∧ r = rounds b ∧ v = b_waiting b
  | BTest gen r v => gen = b_generation b ∧ r = rounds b ∧ v = b_waiting b ∧ 0 < v ≤ b_num b ∧
      arrivals b = rounds b * b_num b + v
  | BReset r | BGenLoad r => r = rounds b ∧ arrivals b = (rounds b + 1) * b_num b ∧
      (p = BGenLoad r → b_waiting b = 0)
  | BGenStore r gen => r = rounds b ∧ arrivals b = (rounds b + 1) * b_num b ∧ b_waiting b = 0 ∧
      gen = b_generation b
  | BWhile gen r => gen = wrapu64 r ∧ r ≤ rounds b
  | _ => False
  end.
Record barrier_inv (n : Z) (b : ABTI_barrier) (pts : gmap Z barrier_point) : Prop := {
  bi_num : b_num b = n;
  bi_gen : b_generation b = wrapu64 (rounds b);
  bi_rounds : rounds b * n ≤ arrivals b;
  bi_settled : (∀ a p, pts !! a = Some p → opening p = false) → settled b;
  bi_at a p : pts !! a = Some p → barrier_at b p;
}.

Lemma barrier_inv_start n b pts a p p' :
  barrier_inv n b pts → pts !! a = Some p → barrier_start false p p' → barrier_inv n b (<[a := p']> pts).
Proof.
  intros [BN BG BR BS BA] Hp Hst.
  assert (p' = BGen ∧ opening p = false) as [-> Hop] by (by destruct Hst).
  split; [done..| |].
  - intros Hno. apply BS. intros c q Hq. destruct (decide (a = c)) as [<-|]; [congruence|].
    apply (Hno c). by rewrite lookup_insert_ne.
  - intros c q. destruct (decide (a = c)) as [<-|].
    + rewrite lookup_insert_eq. by intros [= <-].
    + rewrite lookup_insert_ne by done. apply BA.
Qed.

Lemma wrapu64_succ r : wrapu64 (wrapu64 r + 1) = wrapu64 (r + 1).
Proof. unfold wrapu64. by rewrite Z.add_mod_idemp_l. Qed.

Lemma barrier_inv_next n b pts a p b' p' o :
  1 ≤ n < 2 ^ 32 →
  barrier_inv n b pts → pts !! a = Some p → barrier_next p b = Some (b', p', o) →
  (∀ c q, c ≠ a → pts !! c = Some q → barrier_firm q = false) → barrier_inv n b' (<[a := p']> pts).
Proof.
  intros Hn [BN BG BR BS BA] Hp Hnx Hf. pose proof (BA a p Hp) as Ha.
  assert (opening p = false → settled b) as Hset.
  { intros Hop. apply BS. intros c q Hq. destruct (decide (c = a)) as [->|Hne]; [congruence|].
    specialize (Hf c q Hne Hq). by destruct q. }
  assert (b_num b' = n ∧ b_generation b' = wrapu64 (rounds b') ∧ rounds b' * n ≤ arrivals b' ∧
    (opening p' = false → settled b') ∧ barrier_at b' p' ∧ rounds b ≤ rounds b') as (HN & HG & HR & HS & HA & Hmono).
  { unfold barrier_next, ABT_barrier_wait, ABT_barrier_reinit, settled in *.
    destruct p as [l| |gen r|gen r v|gen r v|r|r|r gen|r|gen r|r|m| |]; simpl in *; try done;
      try specialize (Hset eq_refl);
      repeat match type of Hnx with context [?x >=? ?y] => destruct (Z.geb_spec x y) end;
      repeat match type of Hnx with context [?x =? ?y] => destruct (Z.eqb_spec x y) end;
      simplify_eq/=; unfold upd; simpl.
    - split_and!; try done; lia.
    - destruct Ha as [-> ->]. split_and!; try done; lia.
    - destruct Ha as (-> & -> & ->). rewrite wrapu32_small by lia. split_and!; try done; lia.
    - split_and!; try done; lia.
    - destruct Ha as (-> & -> & -> & ? & ?). split_and!; try done; lia.
    - split_and!; try done; lia.
    - split_and!; try done; try lia. naive_solver.
    - destruct Ha as (-> & ? & ? & ->). rewrite BG, wrapu64_succ.
      split_and!; try done; lia.
    - split_and!; try done; lia.
    - split_and!; try done; lia.
    - destruct Ha as [-> Hle]. split_and!; try done; try lia.
      destruct (decide (r = rounds b')) as [->|]; [congruence|lia].
    - split_and!; try done; lia. }
  split; [done..| |].
  - intros Hno. apply HS. apply (Hno a). apply lookup_insert_eq.
  - intros c q. destruct (decide (a = c)) as [<-|Hne].
    + rewrite lookup_insert_eq. by intros [= <-].
    + rewrite lookup_insert_ne by done. intros Hq. specialize (Hf c q ltac:(done) Hq).
      specialize (BA c q Hq). destruct q as [[r|]| |gen r|gen r v|gen r v|r|r|r gen|r|gen r|r|m| |];
        simpl in *; try done; lia.
Qed.

Context `{Cth}.

(** C28: a barrier opens only for full rounds.  However the waiting threads
    interleave, a thread that has returned from the wait it began in round [r]
    has seen the barrier open for that round, and by then at least [num] threads
    for each of the rounds up to [r] had arrived; the generation counter is the
    number of rounds modulo 2^64, so its wrap-around lets no thread out early. *)
Theorem barrier_no_early_return n s0 s a r :
  256 ≤ b_m h → 1 ≤ n < 2 ^ 32 → monitor_fresh (MC := barrier_code false) s0 →
  fields s0 = mk_barrier n 0 0 0 0 → (∀ a p, points s0 !! a = Some p → p = BIdle None) →
  msteps (MC := barrier_code false) s0 s →
  points s !! a = Some (BIdle (Some r)) →
  r < rounds (fields s) ∧ (r + 1) * n ≤ arrivals (fields s) ∧
  b_generation (fields s) = wrapu64 (rounds (fields s)).
Proof.
  intros Hm Hn H0 Hf Hp Hs Ha. pose proof (barrier_laws false Hm) as HL.
  assert (barrier_inv n (fields s) (points s)) as [BN BG BR BS BA].
  { eapply (monitor_rule (MC := barrier_code false) (barrier_inv n)); [done| |..|done].
    - rewrite Hf. split; simpl; [done|done|lia|unfold settled; simpl; intros; lia|].
      intros c p Hc. by rewrite (Hp c p Hc).
    - intros. by eapply barrier_inv_start.
    - intros. by eapply barrier_inv_next. }
  specialize (BA a _ Ha). simpl in BA. split_and!; [done|nia|done].
Qed.
End barrier.
