(* ===== verification/Future.v ===== *)
(** * Futures

    [ABTI_future] of src/sync.cpp on the machine of [Monitor]: the points of
    [ABT_future_set], [ABT_future_wait], [ABT_future_test] and
    [ABT_future_reset].  [given] is ghost: the values accepted since the last
    reset; [calls] logs the arrays the callback was called with. *)

From S2P Require Import Prelude AbtTypes Objects Waitlist Sync SyncMutex Monitor.

(** ** The object and its methods *)

Record ABTI_future : Type := mk_future {
  f_n : Z;
  f_count : Z;
  f_cb : bool;
  f_values : list Z;
  f_ready : Z;
  calls : list (list Z);
  (** ghost *)
  given : list Z;
}.
#[global] Instance eta_future : Eta ABTI_future := λ f,
  mk_future (f_n f) (f_count f) (f_cb f) (f_values f) (f_ready f) (calls f) (given f).
Record future_handles : Type := mk_fh {
  f_m : ptr;
  f_c : ptr;
}.

(** [FIdle c out]: the last method returned the code [c], with [out]. *)
Inductive future_point : Type :=
  | FIdle (code : Z) (out : option Z)
  (** ABT_future_set *)
  | FsTest (v : Z) | FsFail | FsLoad (v : Z) | FsCount (v c : Z) | FsValue (v c : Z)
  | FsFull | FsReady | FsCallback | FsBroadcast | FsUnlock
  (** ABT_future_wait *)
  | FwTest | FwUnlock
  (** ABT_future_test *)
  | FtRead | FtUnlock (r : Z)
  (** ABT_future_reset *)
  | FrCount | FrReady | FrUnlock.

Section future.
Variable h : future_handles.

Definition ABT_future_set (p : future_point) (f : ABTI_future) : option (ABTI_future * future_point * option op) :=
  match p with
  | FsTest v => Some (f, if f_count f >=? f_n f then FsFail else FsLoad v, None)
  | FsFail => Some (f, FIdle ABT_ERR_FUTURE None, Some (ABT_mutex_unlock (f_m h)))
  | FsLoad v => Some (f, FsCount v (f_count f), None)
  | FsCount v c => Some (f <| f_count := wrapu32 (c + 1) |>, FsValue v c, None)
  | FsValue v c => Some (f <| f_values ::= insert (Z.to_nat c) v |> <| given ::= λ l, l ++ [v] |>, FsFull, None)
  | FsFull => Some (f, if f_count f =? f_n f then FsReady else FsUnlock, None)
  | FsReady => Some (f <| f_ready := 1 |>, FsCallback, None)
  | FsCallback => Some (if f_cb f then f <| calls ::= λ l, l ++ [f_values f] |> else f, FsBroadcast, None)
  | FsBroadcast => Some (f, FsUnlock, Some (ABT_cond_broadcast (f_c h)))
  | FsUnlock => Some (f, FIdle ABT_SUCCESS None, Some (ABT_mutex_unlock (f_m h)))
  | _ => None
  end.
Definition ABT_future_wait (p : future_point) (f : ABTI_future) : option (ABTI_future * future_point * option op) :=
  match p with
  | FwTest => Some (if truthy (f_ready f) then (f, FwUnlock, None)
                    else (f, FwTest, Some (ABT_cond_wait (f_c h) (f_m h))))
  | FwUnlock => Some (f, FIdle ABT_SUCCESS None, Some (ABT_mutex_unlock (f_m h)))
  | _ => None
  end.
Definition ABT_future_test (p : future_point) (f : ABTI_future) : option (ABTI_future * future_point * option op) :=
  match p with
  | FtRead => Some (f, FtUnlock (if truthy (f_ready f) then ABT_TRUE else ABT_FALSE), None)
  | FtUnlock r => Some (f, FIdle ABT_SUCCESS (Some r), Some (ABT_mutex_unlock (f_m h)))
  | _ => None
  end.
Definition ABT_future_reset (p : future_point) (f : ABTI_future) : option (ABTI_future * future_point * option op) :=
  match p with
  | FrCount => Some (f <| f_count := 0 |> <| given := [] |>, FrReady, None)
  | FrReady => Some (f <| f_ready := 0 |>, FrUnlock, None)
  | FrUnlock => Some (f, FIdle ABT_SUCCESS None, Some (ABT_mutex_unlock (f_m h)))
  | _ => None
  end.
Definition future_next (p : future_point) (f : ABTI_future) : option (ABTI_future * future_point * option op) :=
  match ABT_future_set p f with
  | Some x => Some x
  | None => match ABT_future_wait p f with
            | Some x => Some x
            | None => match ABT_future_test p f with Some x => Some x | None => ABT_future_reset p f end
            end
  end.
Inductive future_start : future_point → future_point → Prop :=
  | start_set c out v : future_start (FIdle c out) (FsTest v)
  | start_fwait c out : future_start (FIdle c out) FwTest
  | start_test c out : future_start (FIdle c out) FtRead
  | start_reset c out : future_start (FIdle c out) FrCount.

Definition future_owns (p : future_point) : bool := match p with FIdle _ _ => false | _ => true end.
Definition future_firm (p : future_point) : bool :=
  match p with FIdle _ _ | FsTest _ | FwTest | FtRead | FrCount => false | _ => true end.

#[export] Instance future_code : MonitorCode ABTI_future future_point := {|
  mon_mutex := f_m h;
  mon_next := future_next;
  mon_start := future_start;
  mon_owns := future_owns;
  mon_firm := future_firm;
|}.
Lemma future_laws : 256 ≤ f_m h → MonitorLaws ABTI_future future_point.
Proof.
  intros Hm. split; simpl; [done|..].
  - intros p f x. by destruct p.
  - intros p f f' p' Hn. destruct p; simpl in Hn; unfold future_next in Hn; simpl in Hn; repeat case_match; by simplify_eq.
  - intros p f f' p' o Hn. destruct p; simpl in Hn; unfold future_next in Hn; simpl in Hn; repeat case_match;
      simplify_eq; (split; [done|]); naive_solver.
  - by intros [].
  - intros p f. destruct p; unfold future_next; simpl; repeat case_match; by intros.
  - by intros p p' [].
Qed.

(** ** The invariant *)

(** A method is between two of its updates. *)
Definition updating (p : future_point) : bool :=
  match p with FsValue _ _ | FsFull | FsReady | FsCallback | FrReady => true | _ => false end.
(** The compartments below [count] hold the values given, and the future is
    ready exactly when it has compartments and all are filled. *)
Definition future_ok (f : ABTI_future) : Prop :=
  f_count f = Z.of_nat (length (given f)) ∧ take (length (given f)) (f_values f) = given f ∧
  (f_ready f = 0 ∨ f_ready f = 1) ∧ (f_ready f = 1 ↔ 0 < f_n f ∧ f_count f = f_n f).
Definition future_at (f : ABTI_future) (p : future_point) : Prop :=
  match p with
  | FsLoad v => f_count f < f_n f
  | FsCount v c => f_count f < f_n f ∧ c = f_count f
  | FsValue v c => f_ready f = 0 ∧ 0 ≤ c < f_n f ∧ f_count f = c + 1 ∧ c = Z.of_nat (length (given f)) ∧
      take (length (given f)) (f_values f) = given f
  | FsFull => f_ready f = 0 ∧ 0 < f_count f ≤ f_n f ∧ f_count f = Z.of_nat (length (given f)) ∧
      take (length (given f)) (f_values f) = given f
  | FsReady => 0 < f_n f ∧ f_count f = f_n f ∧ f_count f = Z.of_nat (length (given f)) ∧ f_values f = given f
  | FsCallback => 0 < f_n f ∧ f_ready f = 1 ∧ f_count f = f_n f ∧ f_count f = Z.of_nat (length (given f)) ∧
      f_values f = given f
  | FrReady => f_count f = 0 ∧ given f = [] ∧ (f_ready f = 0 ∨ f_ready f = 1)
  | FwUnlock => f_ready f = 1
  | FtUnlock r => r = ABT_TRUE ↔ f_ready f = 1
  | _ => True
  end.
Record future_inv (n : Z) (f : ABTI_future) (pts : gmap Z future_point) : Prop := {
  fi_n : f_n f = n;
  fi_len : Z.of_nat (length (f_values f)) = n;
  fi_count : 0 ≤ f_count f ≤ n;
  fi_calls : Forall (λ vs, Z.of_nat (length vs) = n) (calls f);
  fi_ok : (∀ a p, pts !! a = Some p → updating p = false) → future_ok f;
  fi_at a p : pts !! a = Some p → future_at f p;
}.

Lemma future_inv_start n f pts a p p' :
  future_inv n f pts → pts !! a = Some p → future_start p p' → future_inv n f (<[a := p']> pts).
Proof.
  intros [FN FL FC FK FO FA] Hp Hst.
  assert (updating p = false ∧ future_at f p') as [Hup Hat] by (by destruct Hst).
  split; [done..| |].
  - intros Hno. apply FO. intros c q Hq. destruct (decide (a = c)) as [<-|]; [congruence|].
    apply (Hno c). by rewrite lookup_insert_ne.
  - intros c q. destruct (decide (a = c)) as [<-|].
    + rewrite lookup_insert_eq. by intros [= <-].
    + rewrite lookup_insert_ne by done. apply FA.
Qed.

(** One compartment more. *)
Lemma fill_next {A} (l given : list A) v :
  take (length given) l = given → (length given < length l)%nat →
  take (length (given ++ [v])) (<[length given := v]> l) = given ++ [v].
Proof.
  intros Ht Hl. rewrite length_app. simpl. rewrite Nat.add_1_r.
  rewrite (take_S_r _ _ v) by (by apply list_lookup_insert_eq).
  by rewrite take_insert_ge, Ht by lia.
Qed.

Lemma future_inv_next n f pts a p f' p' o :
  0 ≤ n < 2 ^ 32 →
  future_inv n f pts → pts !! a = Some p → future_next p f = Some (f', p', o) →
  (∀ c q, c ≠ a → pts !! c = Some q → future_firm q = false) → future_inv n f' (<[a := p']> pts).
Proof.
  intros Hn [FN FL FC FK FO FA] Hp Hnx Hf. pose proof (FA a p Hp) as Ha.
  assert (updating p = false → future_ok f) as Hset.
  { intros Hop. apply FO. intros c q Hq. destruct (decide (c = a)) as [->|Hne]; [congruence|].
    specialize (Hf c q Hne Hq). by destruct q. }
  assert (f_n f' = n ∧ Z.of_nat (length (f_values f')) = n ∧ 0 ≤ f_count f' ≤ n ∧
    Forall (λ vs, Z.of_nat (length vs) = n) (calls f') ∧ (updating p' = false → future_ok f') ∧ future_at f' p')
    as (HN & HL & HC & HK & HO & HA).
  { unfold future_next, ABT_future_set, ABT_future_wait, ABT_future_test, ABT_future_reset, truthy in Hnx.
    destruct p as [c out|v| |v|v c|v c| | | | | | | | |r| | |]; simpl in *; try done;
      try specialize (Hset eq_refl);
      repeat match type of Hnx with context [?x >=? ?y] => destruct (Z.geb_spec x y) end;
      repeat match type of Hnx with context [?x =? ?y] => destruct (Z.eqb_spec x y) end;
      simplify_eq/=; unfold upd; simpl; try (split_and!; first [done|lia]).
    - destruct Ha as [Hlt ->]. destruct Hset as (E1 & E2 & E3 & E4). rewrite wrapu32_small by lia.
      split_and!; first [done|lia].
    - destruct Ha as (Hr & Hc & Hc' & Hc'' & Ht). rewrite length_insert.
      pose proof (fill_next (f_values f) (given f) v Ht ltac:(lia)) as Hfill.
      rewrite Hc'', Nat2Z.id. rewrite length_app in *. simpl in *. split_and!; first [done|lia].
    - destruct Ha as (Hr & Hc & Hc' & Ht). split_and!; try first [done|lia].
      etransitivity; [|exact Ht]. symmetry. apply take_ge. lia.
    - destruct Ha as (Hr & Hc & Hc' & Ht). split_and!; try first [done|lia]. intros _.
      split_and!; [done|done|by left|lia].
    - destruct Ha as (Hr & Hc & Hc' & Ht). split_and!; first [done|lia].
    - destruct Ha as (Hr1 & Hr & Hc & Hc' & Ht).
      assert (future_ok f) as Hok by (split_and!; [done|by rewrite Ht, firstn_all|by right|by split]).
      destruct (f_cb f); simpl; split_and!; try first [done|lia]. apply Forall_app. split; [done|by constructor].
    - pose proof Hset as (E1 & E2 & [?|?] & E4); [done|]. split_and!; first [done|lia].
    - pose proof Hset as (E1 & E2 & E3 & E4). split_and!; try first [done|lia]. unfold ABT_TRUE, ABT_FALSE. lia.
    - pose proof Hset as (E1 & E2 & [?|?] & E4); [done|]. split_and!; try first [done|lia].
    - pose proof Hset as (E1 & E2 & E3 & E4). split_and!; first [done|lia].
    - destruct Ha as (Hc & Hg & Hr). split_and!; try first [done|lia]. intros _. unfold future_ok. simpl.
      rewrite Hg, Hc. split_and!; [done|done|by left|lia]. }
  split; [done..| |].
  - intros Hno. apply HO. apply (Hno a). apply lookup_insert_eq.
  - intros c q. destruct (decide (a = c)) as [<-|Hne].
    + rewrite lookup_insert_eq. by intros [= <-].
    + rewrite lookup_insert_ne by done. intros Hq. specialize (Hf c q ltac:(done) Hq).
      by destruct q.
Qed.

Context `{Cth}.

(** C29: a future is ready exactly when it is full.  However setters, waiters,
    tests and resets interleave: when no method is between two of its updates,
    the compartments below [count] hold the values set since the last reset, in
    the order they were set, and the future is ready exactly when it has
    compartments and all of them are filled; a waiter that has left its loop, and
    has yet to unlock, finds it ready; every call of the callback got an array of
    [n] values. *)
Theorem future_ready_when_full n cb s0 s :
  256 ≤ f_m h → 0 ≤ n < 2 ^ 32 → monitor_fresh s0 →
  fields s0 = mk_future n 0 cb (replicate (Z.to_nat n) 0) 0 [] [] →
  (∀ a p, points s0 !! a = Some p → ∃ c out, p = FIdle c out) → msteps s0 s →
  ((∀ a p, points s !! a = Some p → updating p = false) → future_ok (fields s)) ∧
  (∀ a, points s !! a = Some FwUnlock → f_ready (fields s) = 1) ∧
  Forall (λ vs, Z.of_nat (length vs) = n) (calls (fields s)).
Proof.
  intros Hm Hn H0 Hf Hp Hs. pose proof (future_laws Hm) as HL.
  assert (future_inv n (fields s) (points s)) as [FN FL FC FK FO FA].
  { eapply (monitor_rule (future_inv n)); [done| |..|done].
    - rewrite Hf. split; simpl; [done|rewrite length_replicate; lia|lia|constructor| |].
      + intros _. split_and!; simpl; [done|done|by left|lia].
      + intros a p Ha. by destruct (Hp a p Ha) as (c & out & ->).
    - intros. by eapply future_inv_start.
    - intros. by eapply future_inv_next. }
  split_and!; [done| |done]. intros a Ha. exact (FA a _ Ha).
Qed.
End future.
