(* ===== verification/SyncObjects.v ===== *)
(** * Creating and freeing synchronisation objects

    The constructors, destructors and attributes of src/sync.cpp.  Their state
    is the machine of [Sync] with heaps for mutex attributes, read-write locks,
    barriers and futures. *)

From S2P Require Import Prelude AbtTypes Objects Waitlist Sync SyncMutex Monitor Rwlock Barrier Future.

Record ost `{Cth} : Type := mk_ost {
  o_sy : sst;
  o_mattrs : gmap Z Z;
  o_rwlocks : gmap Z (rw_handles * ABTI_rwlock);
  o_barriers : gmap Z (barrier_handles * ABTI_barrier);
  o_futures : gmap Z (future_handles * ABTI_future);
}.
Arguments ost {_}.

Section objects.
Context `{C : Cth}.
#[global] Instance eta_ost : Eta ost := λ s,
  mk_ost _ (o_sy s) (o_mattrs s) (o_rwlocks s) (o_barriers s) (o_futures s).

(** ** Allocation and lookup *)

Definition new_obj : M ost ptr := λ s,
  Done (s_brk (o_sy s)) (s <| o_sy ::= λ y, y <| s_brk ::= Z.succ |> |>).
Definition mod_sy (f : sst → sst) : M ost unit := modify (λ s, s <| o_sy ::= f |>).
Definition found {A} (f : ost → gmap Z A) (k : ptr) : M ost A := λ s,
  match f s !! k with Some x => Done x s | None => Faulted BadDeref end.
(** [ABTI_obj<T>(h)], then [ABTI_CHECK_NULL] *)
Definition with_obj {A} (h e : Z) (k : ptr → M ost (Z * option A)) : M ost (Z * option A) :=
  match ABTI_obj h with Some p => k p | None => mret (e, None) end.
Definition empty_list : ABTI_waitlist := mk_waitlist None None.

(** ** Mutexes *)

Definition ABT_mutex_create : M ost (Z * option Z) :=
  m ← new_obj;
  mod_sy (λ y, y <| mutexes ::= insert m (mk_mutex 0 false 0 0) |> <| slocks ::= insert (LM m) false |>
    <| wls ::= insert (LM m) empty_list |>) ;;
  mret (ABT_SUCCESS, Some m).
Definition ABT_mutex_create_with_attr (attr : Z) : M ost (Z * option Z) :=
  r ← ABT_mutex_create;
  match r.2, ABTI_obj attr with
  | Some m, Some a =>
      rec ← found o_mattrs a;
      o ← found (λ s, mutexes (o_sy s)) m;
      when (truthy rec) (mod_sy (λ y, y <| mutexes ::= insert m (o <| m_attrs ::= λ z, Z.lor z 1 |>) |>)) ;;
      mret r
  | _, _ => mret r
  end.
Definition ABT_mutex_free (h : Z) : M ost (Z * option Z) :=
  with_obj h ABT_ERR_INV_MUTEX (λ m,
    found (λ s, mutexes (o_sy s)) m ;;
    mod_sy (λ y, y <| mutexes ::= delete m |> <| slocks ::= delete (LM m) |> <| wls ::= delete (LM m) |>) ;;
    mret (ABT_SUCCESS, Some ABT_MUTEX_NULL)).
Definition ABT_mutex_equal (h1 h2 : Z) : M ost (Z * option Z) :=
  mret (ABT_SUCCESS, Some (if h1 =? h2 then ABT_TRUE else ABT_FALSE)).
Definition new_mattr (rec : Z) : M ost ptr :=
  a ← new_obj; modify (λ s, s <| o_mattrs ::= insert a rec |>) ;; mret a.
Definition ABT_mutex_get_attr (h : Z) : M ost (Z * option Z) :=
  with_obj h ABT_ERR_INV_MUTEX (λ m,
    o ← found (λ s, mutexes (o_sy s)) m; a ← new_mattr (Z.land (m_attrs o) 1); mret (ABT_SUCCESS, Some a)).
Definition ABT_mutex_attr_create : M ost (Z * option Z) := a ← new_mattr 0; mret (ABT_SUCCESS, Some a).
Definition ABT_mutex_attr_free (h : Z) : M ost (Z * option Z) :=
  with_obj h ABT_ERR_INV_MUTEX_ATTR (λ a,
    found o_mattrs a ;; modify (λ s, s <| o_mattrs ::= delete a |>) ;; mret (ABT_SUCCESS, Some ABT_MUTEX_ATTR_NULL)).
Definition ABT_mutex_attr_set_recursive (h recursive : Z) : M ost (Z * option unit) :=
  with_obj h ABT_ERR_INV_MUTEX_ATTR (λ a,
    found o_mattrs a ;;
    modify (λ s, s <| o_mattrs ::= insert a (if truthy recursive then 1 else 0) |>) ;; mret (ABT_SUCCESS, None)).
Definition ABT_mutex_attr_get_recursive (h : Z) : M ost (Z * option Z) :=
  with_obj h ABT_ERR_INV_MUTEX_ATTR (λ a,
    rec ← found o_mattrs a; mret (ABT_SUCCESS, Some (if truthy rec then ABT_TRUE else ABT_FALSE))).

(** ** Conditions and eventuals *)

Definition ABT_cond_create : M ost (Z * option Z) :=
  c ← new_obj;
  mod_sy (λ y, y <| conds ::= insert c (mk_cond None) |> <| slocks ::= insert (LC c) false |>
    <| wls ::= insert (LC c) empty_list |>) ;;
  mret (ABT_SUCCESS, Some c).
Definition ABT_cond_free (h : Z) : M ost (Z * option Z) :=
  with_obj h ABT_ERR_INV_COND (λ c,
    s ← get;
    match conds (o_sy s) !! c, wls (o_sy s) !! LC c with
    | Some _, Some q =>
        if non_null (wl_head q) then mret (ABT_ERR_COND, None) else
        mod_sy (λ y, y <| conds ::= delete c |> <| slocks ::= delete (LC c) |> <| wls ::= delete (LC c) |>) ;;
        mret (ABT_SUCCESS, Some ABT_COND_NULL)
    | _, _ => fail BadDeref
    end).
Definition ABT_eventual_create (nbytes : Z) : M ost (Z * option Z) :=
  if nbytes <? 0 then mret (ABT_ERR_INV_ARG, None) else
  e ← new_obj;
  v ← (if nbytes >? 0 then new_obj else mret 0);
  mod_sy (λ y, y <| events ::= insert e (mk_eventual false nbytes v (replicate (Z.to_nat nbytes) 0)) |>
    <| slocks ::= insert (LE e) false |> <| wls ::= insert (LE e) empty_list |>) ;;
  mret (ABT_SUCCESS, Some e).
Definition ABT_eventual_free (h : Z) : M ost (Z * option Z) :=
  with_obj h ABT_ERR_INV_EVENTUAL (λ e,
    found (λ s, events (o_sy s)) e ;;
    mod_sy (λ y, y <| events ::= delete e |> <| slocks ::= delete (LE e) |> <| wls ::= delete (LE e) |>) ;;
    mret (ABT_SUCCESS, Some ABT_EVENTUAL_NULL)).

(** ** Read-write locks, barriers, futures *)

(** [ABT_x_create(&field)]: the handle stored *)
Definition stored (m : M ost (Z * option Z)) : M ost Z := r ← m; mret (default 0 r.2).

Definition ABT_rwlock_create : M ost (Z * option Z) :=
  r ← new_obj;
  m ← stored ABT_mutex_create; rd ← stored ABT_cond_create; wr ← stored ABT_cond_create;
  modify (λ s, s <| o_rwlocks ::= insert r (mk_rwh m rd wr, mk_rwlock 0 0) |>) ;; mret (ABT_SUCCESS, Some r).
Definition ABT_rwlock_free (h : Z) : M ost (Z * option Z) :=
  with_obj h ABT_ERR_INV_RWLOCK (λ r,
    o ← found o_rwlocks r;
    ABT_mutex_free (rw_m o.1) ;; ABT_cond_free (rw_rd o.1) ;; ABT_cond_free (rw_wr o.1) ;;
    modify (λ s, s <| o_rwlocks ::= delete r |>) ;; mret (ABT_SUCCESS, Some ABT_RWLOCK_NULL)).
Definition ABT_barrier_create (num : Z) : M ost (Z * option Z) :=
  b ← new_obj;
  m ← stored ABT_mutex_create; c ← stored ABT_cond_create;
  modify (λ s, s <| o_barriers ::= insert b (mk_bh m c, mk_barrier num 0 0 0 0) |>) ;; mret (ABT_SUCCESS, Some b).
Definition ABT_barrier_free (h : Z) : M ost (Z * option Z) :=
  with_obj h ABT_ERR_INV_BARRIER (λ b,
    o ← found o_barriers b;
    ABT_mutex_free (b_m o.1) ;; ABT_cond_free (b_c o.1) ;;
    modify (λ s, s <| o_barriers ::= delete b |>) ;; mret (ABT_SUCCESS, Some ABT_BARRIER_NULL)).
Definition ABT_barrier_get_num_waiters (h : Z) : M ost (Z * option Z) :=
  with_obj h ABT_ERR_INV_BARRIER (λ b, o ← found o_barriers b; mret (ABT_SUCCESS, Some (b_num o.2))).
Definition ABT_future_create (n : Z) (cb : bool) : M ost (Z * option Z) :=
  f ← new_obj;
  m ← stored ABT_mutex_create; c ← stored ABT_cond_create;
  modify (λ s, s <| o_futures ::= insert f (mk_fh m c, mk_future n 0 cb (replicate (Z.to_nat n) 0) 0 [] []) |>) ;;
  mret (ABT_SUCCESS, Some f).
Definition ABT_future_free (h : Z) : M ost (Z * option Z) :=
  with_obj h ABT_ERR_INV_FUTURE (λ f,
    o ← found o_futures f;
    ABT_mutex_free (f_m o.1) ;; ABT_cond_free (f_c o.1) ;;
    modify (λ s, s <| o_futures ::= delete f |>) ;; mret (ABT_SUCCESS, Some ABT_FUTURE_NULL)).

(** ** What creation gives *)

(** Nothing lies at or above the allocation mark. *)
Record unallocated (y : sst) : Prop := {
  un_brk : 256 ≤ s_brk y;
  un_mutex k : s_brk y ≤ k → mutexes y !! k = None;
  un_cond k : s_brk y ≤ k → conds y !! k = None;
  un_slock l k : s_brk y ≤ k → l = LM k ∨ l = LC k → slocks y !! l = None ∧ wls y !! l = None;
}.

Lemma obj_handle k : 256 ≤ k → ABTI_obj k = Some k.
Proof. intros. unfold ABTI_obj, ABTI_is_null_handle. by destruct (Z.ltb_spec k 256); [lia|]. Qed.
Lemma found_some {A} (f : ost → gmap Z A) k x Q s : f s !! k = Some x → Q x s → wp (found f k) Q s.
Proof. unfold wp, found. by intros ->. Qed.

Lemma wp_new_obj Q s :
  Q (s_brk (o_sy s)) (s <| o_sy ::= λ y, y <| s_brk ::= Z.succ |> |>) → wp new_obj Q s.
Proof. done. Qed.
Lemma wp_with_obj {A} h e (k : ptr → M ost (Z * option A)) Q s : 256 ≤ h → wp (k h) Q s → wp (with_obj h e k) Q s.
Proof. intros Hh Hk. unfold with_obj. by rewrite obj_handle. Qed.
Ltac ob_step :=
  lazymatch goal with
  | |- wp new_obj _ _ => apply wp_new_obj
  | |- wp (mod_sy _) _ _ => apply wp_modify
  | |- wp (stored _) _ _ => unfold stored at 1
  | |- wp (with_obj _ _ _) _ _ => apply wp_with_obj; [cbn; lia|]
  | |- wp (found _ _) _ _ => eapply found_some; [cbn; apply lookup_insert_eq|]
  | |- _ => wp_step
  end.

Lemma mutex_free_spec m o Q s :
  256 ≤ m → mutexes (o_sy s) !! m = Some o →
  Q (ABT_SUCCESS, Some ABT_MUTEX_NULL) (s <| o_sy ::= λ y, y <| mutexes ::= delete m |>
    <| slocks ::= delete (LM m) |> <| wls ::= delete (LM m) |> |>) → wp (ABT_mutex_free m) Q s.
Proof.
  intros Hm Ho HQ. unfold ABT_mutex_free. ob_step. ob_step. eapply found_some; [done|]. by repeat ob_step.
Qed.
Lemma cond_free_spec c o Q s :
  256 ≤ c → conds (o_sy s) !! c = Some o → wls (o_sy s) !! LC c = Some empty_list →
  Q (ABT_SUCCESS, Some ABT_COND_NULL) (s <| o_sy ::= λ y, y <| conds ::= delete c |>
    <| slocks ::= delete (LC c) |> <| wls ::= delete (LC c) |> |>) → wp (ABT_cond_free c) Q s.
Proof.
  intros Hc Ho Hw HQ. unfold ABT_cond_free. repeat ob_step. rewrite Ho, Hw. cbn [wl_head empty_list non_null negb is_null].
  by repeat ob_step.
Qed.

(** A recursive mutex stays one.  The recursive flag set on a mutex
    attribute is the flag of a mutex created with it and of the attribute read
    back from that mutex; without an attribute a mutex is not recursive. *)
Theorem mutex_attr_roundtrip s b :
  256 ≤ s_brk (o_sy s) →
  wp (a ← stored ABT_mutex_attr_create; ABT_mutex_attr_set_recursive a b ;;
      m ← stored (ABT_mutex_create_with_attr a); a' ← stored (ABT_mutex_get_attr m);
      ABT_mutex_attr_get_recursive a')
    (λ r _, r = (ABT_SUCCESS, Some (if truthy b then ABT_TRUE else ABT_FALSE))) s ∧
  wp (m ← stored (ABT_mutex_create_with_attr ABT_MUTEX_ATTR_NULL); a' ← stored (ABT_mutex_get_attr m);
      ABT_mutex_attr_get_recursive a') (λ r _, r = (ABT_SUCCESS, Some ABT_FALSE)) s.
Proof.
  intros Hb.
  unfold ABT_mutex_attr_create, ABT_mutex_attr_set_recursive, ABT_mutex_create_with_attr,
    ABT_mutex_create, ABT_mutex_get_attr, ABT_mutex_attr_get_recursive, new_mattr.
  split; repeat ob_step; cbn [fst snd]; [rewrite obj_handle by (cbn; lia)|change (ABTI_obj ABT_MUTEX_ATTR_NULL) with (@None Z)];
    repeat ob_step.
  - cbn. by destruct (truthy b).
  - cbn. by destruct (truthy b).
  - cbv iota. by repeat ob_step.
Qed.

(** The state a new object's methods start from, all threads outside. *)
Definition entering {F P} (y : sst) (f : F) (p : P) : mst F P := mk_mst y f ((λ _, p) <$> agents y).

(** A new read-write lock is ready to use, and freeing it gives everything
    back.  Creating it makes a lock with no readers and no writer, whose mutex
    and conditions are new, so that threads that are all idle may start on it
    ([rwlock_exclusion] applies); freeing it at once restores every object. *)
Theorem rwlock_create_free s :
  unallocated (o_sy s) → mutexes_fresh (o_sy s) →
  wp ABT_rwlock_create (λ r s', ∃ k h, r = (ABT_SUCCESS, Some k) ∧
    o_rwlocks s' = <[k := (h, mk_rwlock 0 0)]> (o_rwlocks s) ∧ 256 ≤ rw_m h ∧
    mutexes (o_sy s) !! rw_m h = None ∧
    monitor_fresh (MC := rw_code h) (entering (o_sy s') (mk_rwlock 0 0) RwIdle) ∧
    (o_rwlocks s !! k = None →
     wp (ABT_rwlock_free k) (λ r s'', r = (ABT_SUCCESS, Some ABT_RWLOCK_NULL) ∧
       o_rwlocks s'' = o_rwlocks s ∧ mutexes (o_sy s'') = mutexes (o_sy s) ∧
       conds (o_sy s'') = conds (o_sy s) ∧ slocks (o_sy s'') = slocks (o_sy s) ∧
       wls (o_sy s'') = wls (o_sy s)) s')) s.
Proof.
  intros [UB UM UC US] HF. unfold ABT_rwlock_create, stored, ABT_mutex_create, ABT_cond_create.
  repeat ob_step. cbn [snd default]. do 2 eexists. split_and!; [done|done|cbn; lia|apply UM; cbn; lia| |].
  - split; cbn.
    + destruct HF as [FA FI FM]. split; [done..|]. cbn. intros m o. rewrite lookup_insert_Some. naive_solver.
    + intros a. by rewrite lookup_fmap, fmap_is_Some.
    + intros a p. rewrite lookup_fmap_Some. naive_solver.
  - intros Hk. unfold ABT_rwlock_free. ob_step. ob_step. ob_step. cbn [fst rw_m rw_rd rw_wr].
    ob_step. eapply mutex_free_spec; [cbn; lia|cbn; apply lookup_insert_eq|].
    ob_step. eapply cond_free_spec; [cbn; lia|cbn; by rewrite lookup_insert_ne, lookup_insert_eq by lia| |].
    { cbn. by rewrite lookup_delete_ne, lookup_insert_ne, lookup_insert_eq by (intros [=]; lia). }
    ob_step. eapply cond_free_spec; [cbn; lia|cbn; by rewrite lookup_delete_ne, lookup_insert_eq by lia| |].
    { cbn. by rewrite !lookup_delete_ne, lookup_insert_eq by (intros [=]; lia). }
    repeat ob_step. cbn. cbn in Hk. set (b := s_brk (o_sy s)) in *. clearbody b.
    split_and!; [done|by apply delete_insert_id|..]; apply map_eq; intros i;
      rewrite ?lookup_delete, ?lookup_insert; repeat case_decide; subst; try done; symmetry.
    + apply UM. lia.
    + apply UC. lia.
    + apply UC. lia.
    + by eapply (US _ (Z.succ (Z.succ (Z.succ b)))); [lia|right].
    + by eapply (US _ (Z.succ (Z.succ b))); [lia|right].
    + by eapply (US _ (Z.succ b)); [lia|left].
    + by eapply (US _ (Z.succ (Z.succ (Z.succ b)))); [lia|right].
    + by eapply (US _ (Z.succ (Z.succ b))); [lia|right].
    + by eapply (US _ (Z.succ b)); [lia|left].
Qed.

End objects.
