(* ===== verification/MonitorExamples.v ===== *)
(** * Concrete read-write locks, barriers and futures

    Threads 1 and 2 of the machine of [SyncExamples] run through the methods of
    one object until they return or block; the theorems of [Rwlock], [Barrier]
    and [Future] are applied to the states they reach. *)

From S2P Require Import Prelude AbtTypes Objects Waitlist Sync SyncMutex SyncTokens SyncWake.
From S2P Require Import SyncSteps SyncExamples Monitor Rwlock Barrier Future SyncObjects.

(** Mutex 300, conditions 301 and 302. *)
Definition mon_objects : sst :=
  mk_sst toy_cth {[300 := mk_mutex 0 false 0 0]} {[301 := mk_cond None; 302 := mk_cond None]} ∅
    ∅ {[LM 300 := fresh_list; LC 301 := fresh_list; LC 302 := fresh_list]}
    ∅ 1000 {[1 := idle_agent true 11; 2 := idle_agent true 12]} ∅.
Lemma mon_objects_fresh : mutexes_fresh mon_objects.
Proof.
  split; simpl.
  - intros a x. rewrite ?lookup_insert_Some, ?lookup_singleton_Some. naive_solver.
  - intros a b x y. rewrite ?lookup_insert_Some, ?lookup_singleton_Some. naive_solver.
  - intros m o. rewrite ?lookup_singleton_Some. naive_solver.
Qed.

(** ** Running one thread *)

Section drive.
Context {F P : Type} `{MC : MonitorCode F P}.
Implicit Types s : mst F P.

(** One step of [a], inside a call or inside a method. *)
Definition mmove (a : Z) (s : mst F P) : option (mst F P) :=
  match step (Run a false) (sy s) with
  | Some (Done _ y) => Some (mk_mst y (fields s) (points s))
  | _ =>
      match points s !! a, agents (sy s) !! a with
      | Some p, Some x =>
          match mon_next p (fields s), a_stack x with
          | Some (f', p', None), [] => Some (mk_mst (sy s) f' (<[a := p']> (points s)))
          | Some (f', p', Some o), [] =>
              match step (Call a o) (sy s) with
              | Some (Done _ y) => Some (mk_mst y f' (<[a := p']> (points s)))
              | _ => None
              end
          | _, _ => None
          end
      | _, _ => None
      end
  end.
Fixpoint drive (n : nat) (a : Z) (s : mst F P) : mst F P :=
  match n with
  | O => s
  | S n => match mmove a s with Some s' => drive n a s' | None => s end
  end.
(** [a] enters the method at [p'] and runs until it returns or blocks. *)
Definition enter (a : Z) (p' : P) (s : mst F P) : option (mst F P) :=
  match step (Call a (ABT_mutex_lock mon_mutex)) (sy s) with
  | Some (Done _ y) => Some (drive 100 a (mk_mst y (fields s) (<[a := p']> (points s))))
  | _ => None
  end.

Lemma mmove_step a s s' : mmove a s = Some s' → mstep s s'.
Proof.
  unfold mmove. destruct (step (Run a false) (sy s)) as [[[] y|f]|] eqn:Hr; [intros; simplify_eq; by eapply m_run|..];
    (destruct (points s !! a) as [p|] eqn:Hp; [|done]; destruct (agents (sy s) !! a) as [x|] eqn:Hx; [|done];
     destruct (mon_next p (fields s)) as [[[f' p'] [o|]]|] eqn:Hn; [|by destruct (a_stack x) eqn:Hk;
       intros; simplify_eq; eapply m_field|done]; destruct (a_stack x) eqn:Hk; [|done];
     destruct (step (Call a o) (sy s)) as [[[] y|]|] eqn:Hc; intros; simplify_eq; by eapply m_call).
Qed.
Lemma drive_steps n a : ∀ s0 s, msteps s0 s → msteps s0 (drive n a s).
Proof.
  induction n as [|n IH]; intros s0 s Hs; [done|]. simpl. destruct (mmove a s) as [s'|] eqn:Hm; [|done].
  apply IH. eapply ms_step; [done|by eapply mmove_step].
Qed.
Lemma enter_steps a p p' s0 s s' :
  msteps s0 s → points s !! a = Some p → mon_start p p' → enter a p' s = Some s' → msteps s0 s'.
Proof.
  intros Hs Hp Hst. unfold enter. destruct (step (Call a _) (sy s)) as [[[] y|]|] eqn:Hc; intros; simplify_eq.
  apply drive_steps. eapply ms_step; [done|by eapply m_start].
Qed.
End drive.

(** ** A read-write lock *)

Definition rwh : rw_handles := mk_rwh 300 301 302.
Definition rw_first : mst ABTI_rwlock rw_point :=
  mk_mst mon_objects (mk_rwlock 0 0) {[1 := RwIdle; 2 := RwIdle]}.
(** 1 reads; 2 waits to write. *)
Definition rw_read : mst ABTI_rwlock rw_point :=
  default rw_first (enter (MC := rw_code rwh) 1 RdTest rw_first).
Definition rw_wait : mst ABTI_rwlock rw_point :=
  default rw_first (enter (MC := rw_code rwh) 2 WrTest rw_read).
Example rw_wait_points : map_to_list (points rw_wait) = [(2, WrTest); (1, RwReading)] ∧
  is_blocked 2 (cst (sy rw_wait)) = true ∧ fields rw_wait = mk_rwlock 1 0.
Proof. vm_compute. done. Qed.

Lemma default_some {A} (d : A) (x : option A) : is_null x = false → x = Some (default d x).
Proof. by destruct x. Qed.

Lemma rw_first_fresh : monitor_fresh (MC := rw_code rwh) rw_first.
Proof.
  split; simpl; [apply mon_objects_fresh| |].
  - intros a. rewrite !lookup_insert_is_Some', !lookup_singleton_is_Some. done.
  - intros a p. rewrite lookup_insert_Some, lookup_singleton_Some. naive_solver.
Qed.
Lemma rw_wait_steps : msteps (MC := rw_code rwh) rw_first rw_wait.
Proof.
  apply (enter_steps (MC := rw_code rwh) 2 RwIdle WrTest rw_first rw_read rw_wait); [|..|constructor|].
  - apply (enter_steps (MC := rw_code rwh) 1 RwIdle RdTest rw_first rw_first rw_read); [constructor|reflexivity|constructor|].
    unfold rw_read. apply default_some. vm_compute. reflexivity.
  - vm_compute. reflexivity.
  - unfold rw_wait. apply default_some. vm_compute. reflexivity.
Qed.

Lemma rwlock_exclusion_witness :
  (∀ a b p, a ≠ b → points rw_wait !! a = Some RwWriting → points rw_wait !! b = Some p →
     p ≠ RwWriting ∧ p ≠ RwReading) ∧
  rw_readers (fields rw_wait) = count_at reads (points rw_wait) ∧
  0 ≤ rw_readers (fields rw_wait) ≤ Z.of_nat (size (points rw_wait)).
Proof.
  apply (rwlock_exclusion rwh rw_first rw_wait);
    [simpl; lia|apply rw_first_fresh|reflexivity| |apply rw_wait_steps].
  intros a p. simpl. rewrite lookup_insert_Some, lookup_singleton_Some. naive_solver.
Defined.

(** ** A barrier for two threads *)

Definition brh : barrier_handles := mk_bh 300 301.
Definition bar_first : mst ABTI_barrier barrier_point :=
  mk_mst mon_objects (mk_barrier 2 0 0 0 0) {[1 := BIdle None; 2 := BIdle None]}.
(** 1 waits; 2 arrives and returns; 1 returns. *)
Definition bar_one : mst ABTI_barrier barrier_point :=
  default bar_first (enter (MC := barrier_code brh false) 1 BGen bar_first).
Definition bar_two : mst ABTI_barrier barrier_point :=
  default bar_first (enter (MC := barrier_code brh false) 2 BGen bar_one).
Definition bar_done : mst ABTI_barrier barrier_point := drive (MC := barrier_code brh false) 100 1 bar_two.
Example bar_points : map_to_list (points bar_one) = [(2, BIdle None); (1, BWhile 0 0)] ∧
  map_to_list (points bar_done) = [(2, BIdle (Some 0)); (1, BIdle (Some 0))] ∧ arrivals (fields bar_done) = 2.
Proof. vm_compute. done. Qed.

Lemma bar_done_steps : msteps (MC := barrier_code brh false) bar_first bar_done.
Proof.
  apply drive_steps.
  apply (enter_steps (MC := barrier_code brh false) 2 (BIdle None) BGen bar_first bar_one bar_two); [|..|constructor|].
  - apply (enter_steps (MC := barrier_code brh false) 1 (BIdle None) BGen bar_first bar_first bar_one); [constructor|reflexivity|constructor|].
    unfold bar_one. apply default_some. vm_compute. reflexivity.
  - vm_compute. reflexivity.
  - unfold bar_two. apply default_some. vm_compute. reflexivity.
Qed.

Lemma barrier_no_early_return_witness :
  0 < rounds (fields bar_done) ∧ (0 + 1) * 2 ≤ arrivals (fields bar_done) ∧
  b_generation (fields bar_done) = wrapu64 (rounds (fields bar_done)).
Proof.
  apply (barrier_no_early_return brh 2 bar_first bar_done 1 0);
    [simpl; lia|lia| |reflexivity| |apply bar_done_steps|vm_compute; reflexivity].
  - split; simpl; [apply mon_objects_fresh| |].
    + intros a. rewrite !lookup_insert_is_Some', !lookup_singleton_is_Some. done.
    + intros a p. rewrite lookup_insert_Some, lookup_singleton_Some. naive_solver.
  - intros a p. simpl. rewrite lookup_insert_Some, lookup_singleton_Some. naive_solver.
Defined.

(** ** A future with one compartment *)

Definition fuh : future_handles := mk_fh 300 301.
Definition fut_first : mst ABTI_future future_point :=
  mk_mst mon_objects (mk_future 1 0 true [0] 0 [] []) {[1 := FIdle 0 None; 2 := FIdle 0 None]}.
(** 1 waits; 2 sets the value; 1 returns. *)
Definition fut_one : mst ABTI_future future_point :=
  default fut_first (enter (MC := future_code fuh) 1 FwTest fut_first).
Definition fut_two : mst ABTI_future future_point :=
  default fut_first (enter (MC := future_code fuh) 2 (FsTest 7) fut_one).
Definition fut_done : mst ABTI_future future_point := drive (MC := future_code fuh) 100 1 fut_two.
Example fut_points : map_to_list (points fut_one) = [(2, FIdle 0 None); (1, FwTest)] ∧
  map_to_list (points fut_done) = [(2, FIdle 0 None); (1, FIdle 0 None)] ∧ calls (fields fut_done) = [[7]].
Proof. vm_compute. done. Qed.

Lemma fut_done_steps : msteps (MC := future_code fuh) fut_first fut_done.
Proof.
  apply drive_steps.
  apply (enter_steps (MC := future_code fuh) 2 (FIdle 0 None) (FsTest 7) fut_first fut_one fut_two); [|..|constructor|].
  - apply (enter_steps (MC := future_code fuh) 1 (FIdle 0 None) FwTest fut_first fut_first fut_one); [constructor|reflexivity|constructor|].
    unfold fut_one. apply default_some. vm_compute. reflexivity.
  - vm_compute. reflexivity.
  - unfold fut_two. apply default_some. vm_compute. reflexivity.
Qed.

Lemma future_ready_when_full_witness :
  ((∀ a p, points fut_done !! a = Some p → updating p = false) → future_ok (fields fut_done)) ∧
  (∀ a, points fut_done !! a = Some FwUnlock → f_ready (fields fut_done) = 1) ∧
  Forall (λ vs, Z.of_nat (length vs) = 1) (calls (fields fut_done)).
Proof.
  apply (future_ready_when_full fuh 1 true fut_first fut_done);
    [simpl; lia|lia| |reflexivity| |apply fut_done_steps].
  - split; simpl; [apply mon_objects_fresh| |].
    + intros a. rewrite !lookup_insert_is_Some', !lookup_singleton_is_Some. done.
    + intros a p. rewrite lookup_insert_Some, lookup_singleton_Some. naive_solver.
  - intros a p. simpl. rewrite lookup_insert_Some, lookup_singleton_Some. naive_solver.
Defined.

(** ** Creation *)

Definition no_objects : ost := mk_ost toy_cth mon_objects ∅ ∅ ∅ ∅.
Lemma mon_objects_unallocated : unallocated mon_objects.
Proof.
  split; simpl; [lia|..].
  - intros k Hk. rewrite lookup_singleton_ne by lia. done.
  - intros k Hk. rewrite lookup_insert_ne, lookup_singleton_ne by lia. done.
  - intros l k Hk Hl. rewrite lookup_empty. split; [done|].
    destruct Hl as [->| ->]; rewrite !lookup_insert_ne, lookup_singleton_ne by (intros [=]; lia); done.
Qed.
Lemma mutex_attr_roundtrip_witness :
  wp (a ← stored ABT_mutex_attr_create; ABT_mutex_attr_set_recursive a 1 ;;
      m ← stored (ABT_mutex_create_with_attr a); a' ← stored (ABT_mutex_get_attr m);
      ABT_mutex_attr_get_recursive a') (λ r _, r = (ABT_SUCCESS, Some ABT_TRUE)) no_objects ∧
  wp (m ← stored (ABT_mutex_create_with_attr ABT_MUTEX_ATTR_NULL); a' ← stored (ABT_mutex_get_attr m);
      ABT_mutex_attr_get_recursive a') (λ r _, r = (ABT_SUCCESS, Some ABT_FALSE)) no_objects.
Proof. apply (mutex_attr_roundtrip no_objects 1). simpl. lia. Defined.
Lemma rwlock_create_free_witness :
  wp ABT_rwlock_create (λ r s', ∃ k h, r = (ABT_SUCCESS, Some k) ∧
    o_rwlocks s' = <[k := (h, mk_rwlock 0 0)]> (o_rwlocks no_objects) ∧ 256 ≤ rw_m h ∧
    mutexes (o_sy no_objects) !! rw_m h = None ∧
    monitor_fresh (MC := rw_code h) (entering (o_sy s') (mk_rwlock 0 0) RwIdle) ∧
    (o_rwlocks no_objects !! k = None →
     wp (ABT_rwlock_free k) (λ r s'', r = (ABT_SUCCESS, Some ABT_RWLOCK_NULL) ∧
       o_rwlocks s'' = o_rwlocks no_objects ∧ mutexes (o_sy s'') = mutexes (o_sy no_objects) ∧
       conds (o_sy s'') = conds (o_sy no_objects) ∧ slocks (o_sy s'') = slocks (o_sy no_objects) ∧
       wls (o_sy s'') = wls (o_sy no_objects)) s')) no_objects.
Proof. apply (rwlock_create_free no_objects); [apply mon_objects_unallocated|apply mon_objects_fresh]. Defined.
