(* ===== verification/Info.v ===== *)
(** * Environment, sizes and information queries

    The numbers the library takes from the environment (src/init.cpp,
    src/misc.cpp), the answers of [ABT_info_query_config], and the names of
    src/misc.cpp: error codes ([ABT_error_get_str]) and the enumerations that
    diagnostics print.  [getenv] is a function from names to values; the C
    library's [strtol] is written out. *)

From Stdlib Require Import Ascii String.
From S2P Require Import Prelude AbtTypes Objects.
Open Scope string_scope.
Open Scope Z_scope.

(** ** [strtol(v, &end, 10)] *)

Definition LONG_MAX : Z := 2 ^ 63 - 1.
Definition LONG_MIN : Z := - 2 ^ 63.

Definition is_space (c : ascii) : bool :=
  let n := N_of_ascii c in ((n =? 32) || (9 <=? n) && (n <=? 13))%N.
Definition digit_of (c : ascii) : option Z :=
  let n := Z.of_N (N_of_ascii c) in if (48 <=? n) && (n <=? 57) then Some (n - 48) else None.

Fixpoint skip_space (s : string) : string :=
  match s with
  | String c s' => if is_space c then skip_space s' else s
  | EmptyString => EmptyString
  end.
(** The number the leading digits of [s] extend [acc] to, and the rest. *)
Fixpoint digits (acc : Z) (s : string) : Z * string :=
  match s with
  | String c s' => match digit_of c with Some d => digits (10 * acc + d) s' | None => (acc, s) end
  | EmptyString => (acc, EmptyString)
  end.
Definition clamp_long (x : Z) : Z :=
  if x >? LONG_MAX then LONG_MAX else if x <? LONG_MIN then LONG_MIN else x.
(** The value and what [end] points to: the whole string when no digit is
    found, the largest or smallest [long] when the number does not fit. *)
Definition strtol (v : string) : Z * string :=
  let s := skip_space v in
  let '(neg, s) := match s with
                   | String "+" s' => (false, s')
                   | String "-" s' => (true, s')
                   | _ => (false, s)
                   end in
  match s with
  | String c _ =>
      match digit_of c with
      | Some _ => let '(n, rest) := digits 0 s in (clamp_long (if neg : bool then - n else n), rest)
      | None => (0, v)
      end
  | EmptyString => (0, v)
  end.
Definition atoi (v : string) : Z := wraps32 (strtol v).1.

Definition environ : Type := string → option string.

(** ** Sizes *)

(** [env_long] of init.cpp and [abti_env_long] of misc.cpp *)
Definition env_long (env : environ) (name : string) (dflt : Z) : Z :=
  match env name with
  | None => dflt
  | Some v =>
      match v with
      | EmptyString => dflt
      | String _ _ =>
          let '(x, rest) := strtol v in
          if (match rest with EmptyString => true | String _ _ => false end) && (x >? 0) then x else dflt
      end
  end.
Definition abti_env_long (env : environ) (name : string) (dflt : Z) : Z :=
  match env name with
  | None => dflt
  | Some v =>
      match v with
      | EmptyString => dflt
      | String _ _ =>
          let '(x, rest) := strtol v in
          if (match rest with EmptyString => true | String _ _ => false end) && (x >? 0) then x else dflt
      end
  end.

(** [maxx + 1] on [long]: undefined when it overflows *)
Definition add_long (x y : Z) : option Z :=
  if (LONG_MIN <=? x + y) && (x + y <=? LONG_MAX) then Some (x + y) else None.

(** [cores] is what [sysconf(_SC_NPROCESSORS_ONLN)] returns.  [None]: the code
    has overflowed a [long]. *)
Definition ABTI_num_pes_rule (env : environ) (cores : Z) : option Z :=
  let cores := if cores <? 1 then 1 else cores in
  let n := env_long env "ABT_RECONVERSE_NUM_PES" 0 in
  n ← (if n <=? 0 then
         let maxx := env_long env "ABT_MAX_NUM_XSTREAMS" 0 in
         if maxx >? 0 then
           m ← add_long maxx 1; Some (if m <? 16 then 16 else m)
         else Some (if cores <? 16 then 16 else if cores >? 32 then 32 else cores)
       else Some n);
  let n := if n <? 2 then 2 else n in
  let n := if n >? 256 then 256 else n in
  Some (wraps32 n).

(** The fields of [ABTI_global] the queries read, and how [ABT_init] sets them. *)
Record sizes : Type := mk_sizes {
  num_pes : Z;
  default_stacksize : Z;
}.
Definition init_sizes (env : environ) (cores : Z) : option sizes :=
  n ← ABTI_num_pes_rule env cores;
  let s := wrapu64 (env_long env "ABT_THREAD_STACKSIZE" (2 * 1024 * 1024)) in
  Some (mk_sizes n (if s <? 16384 then 16384 else s)).

(** [g] is [ABTI_g], null before [ABT_init] *)
Definition abti_max_xstreams (env : environ) (cores : Z) (g : option sizes) : option Z :=
  match g with
  | Some g => Some (wrapu32 (num_pes g))
  | None => n ← ABTI_num_pes_rule env cores; Some (wrapu32 n)
  end.
Definition abti_default_stacksize (env : environ) (g : option sizes) : Z :=
  match g with
  | Some g => default_stacksize g
  | None =>
      let s := abti_env_long env "ABT_THREAD_STACKSIZE" (2 * 1024 * 1024) in
      wrapu64 (if s <? 16384 then 16384 else s)
  end.

(** ** Queries *)

(** What is stored through [val], with the C type it is stored as. *)
Inductive answer : Type :=
  | A_bool (b : Z)
  | A_uint (n : Z)
  | A_size (n : Z)
  | A_u64 (n : Z)
  | A_int (n : Z).

Definition ABT_info_query_config (env : environ) (cores : Z) (g : option sizes) (k : Z) (val : Z) :
    option (Z * option answer) :=
  let kind_is x := k =? x in
  if val =? 0 then Some (ABT_ERR_OTHER, None) else
  if kind_is ABT_INFO_QUERY_KIND_ENABLED_DEBUG || kind_is ABT_INFO_QUERY_KIND_ENABLED_PRINT_ERRNO
     || kind_is ABT_INFO_QUERY_KIND_ENABLED_LOG || kind_is ABT_INFO_QUERY_KIND_ENABLED_VALGRIND
     || kind_is ABT_INFO_QUERY_KIND_ENABLED_CHECK_ERROR
     || kind_is ABT_INFO_QUERY_KIND_ENABLED_CHECK_POOL_PRODUCER
     || kind_is ABT_INFO_QUERY_KIND_ENABLED_CHECK_POOL_CONSUMER
     || kind_is ABT_INFO_QUERY_KIND_ENABLED_PRINT_CONFIG
  then Some (ABT_SUCCESS, Some (A_bool ABT_FALSE)) else
  if kind_is ABT_INFO_QUERY_KIND_ENABLED_PRESERVE_FPU || kind_is ABT_INFO_QUERY_KIND_FCONTEXT
  then Some (ABT_SUCCESS, Some (A_bool ABT_TRUE)) else
  if kind_is ABT_INFO_QUERY_KIND_DYNAMIC_PROMOTION then Some (ABT_SUCCESS, Some (A_bool ABT_FALSE)) else
  if kind_is ABT_INFO_QUERY_KIND_ENABLED_THREAD_CANCEL || kind_is ABT_INFO_QUERY_KIND_ENABLED_TASK_CANCEL
  then Some (ABT_SUCCESS, Some (A_bool ABT_FALSE)) else
  if kind_is ABT_INFO_QUERY_KIND_ENABLED_MIGRATION then Some (ABT_SUCCESS, Some (A_bool ABT_TRUE)) else
  if kind_is ABT_INFO_QUERY_KIND_ENABLED_STACKABLE_SCHED then Some (ABT_SUCCESS, Some (A_bool ABT_TRUE)) else
  if kind_is ABT_INFO_QUERY_KIND_ENABLED_EXTERNAL_THREAD then Some (ABT_SUCCESS, Some (A_bool ABT_TRUE)) else
  if kind_is ABT_INFO_QUERY_KIND_ENABLED_SCHED_SLEEP then Some (ABT_SUCCESS, Some (A_bool ABT_TRUE)) else
  if kind_is ABT_INFO_QUERY_KIND_ENABLED_AFFINITY then
    Some (ABT_SUCCESS, Some (A_bool
      (match env "ABT_SET_AFFINITY" with
       | Some v => if atoi v =? 0 then ABT_FALSE else ABT_TRUE
       | None => ABT_TRUE
       end))) else
  if kind_is ABT_INFO_QUERY_KIND_MAX_NUM_XSTREAMS then
    n ← abti_max_xstreams env cores g; Some (ABT_SUCCESS, Some (A_uint n)) else
  if kind_is ABT_INFO_QUERY_KIND_DEFAULT_THREAD_STACKSIZE then
    Some (ABT_SUCCESS, Some (A_size (abti_default_stacksize env g))) else
  if kind_is ABT_INFO_QUERY_KIND_DEFAULT_SCHED_STACKSIZE then Some (ABT_SUCCESS, Some (A_size 256000)) else
  if kind_is ABT_INFO_QUERY_KIND_DEFAULT_SCHED_EVENT_FREQ then Some (ABT_SUCCESS, Some (A_u64 50)) else
  if kind_is ABT_INFO_QUERY_KIND_DEFAULT_SCHED_SLEEP_NSEC then Some (ABT_SUCCESS, Some (A_u64 100)) else
  if kind_is ABT_INFO_QUERY_KIND_ENABLED_TOOL then Some (ABT_SUCCESS, Some (A_bool ABT_FALSE)) else
  if kind_is ABT_INFO_QUERY_KIND_ENABLED_STACK_UNWIND then Some (ABT_SUCCESS, Some (A_bool ABT_FALSE)) else
  if kind_is ABT_INFO_QUERY_KIND_ENABLED_STACK_OVERFLOW_CHECK then Some (ABT_SUCCESS, Some (A_int 0)) else
  if kind_is ABT_INFO_QUERY_KIND_WAIT_POLICY then Some (ABT_SUCCESS, Some (A_int 1)) else
  if kind_is ABT_INFO_QUERY_KIND_ENABLED_LAZY_STACK_ALLOC then Some (ABT_SUCCESS, Some (A_bool ABT_FALSE)) else
  Some (ABT_ERR_INV_QUERY_KIND, None).

(** ** Names *)

(** The cases of [abti_error_name]. *)
Definition error_names : list (Z * string) :=
  [(ABT_SUCCESS, "ABT_SUCCESS");
   (ABT_ERR_UNINITIALIZED, "ABT_ERR_UNINITIALIZED");
   (ABT_ERR_MEM, "ABT_ERR_MEM");
   (ABT_ERR_OTHER, "ABT_ERR_OTHER");
   (ABT_ERR_INV_XSTREAM, "ABT_ERR_INV_XSTREAM");
   (ABT_ERR_INV_XSTREAM_RANK, "ABT_ERR_INV_XSTREAM_RANK");
   (ABT_ERR_INV_XSTREAM_BARRIER, "ABT_ERR_INV_XSTREAM_BARRIER");
   (ABT_ERR_INV_SCHED, "ABT_ERR_INV_SCHED");
   (ABT_ERR_INV_SCHED_KIND, "ABT_ERR_INV_SCHED_KIND");
   (ABT_ERR_INV_SCHED_PREDEF, "ABT_ERR_INV_SCHED_PREDEF");
   (ABT_ERR_INV_SCHED_TYPE, "ABT_ERR_INV_SCHED_TYPE");
   (ABT_ERR_INV_SCHED_CONFIG, "ABT_ERR_INV_SCHED_CONFIG");
   (ABT_ERR_INV_POOL, "ABT_ERR_INV_POOL");
   (ABT_ERR_INV_POOL_KIND, "ABT_ERR_INV_POOL_KIND");
   (ABT_ERR_INV_POOL_ACCESS, "ABT_ERR_INV_POOL_ACCESS");
   (ABT_ERR_INV_UNIT, "ABT_ERR_INV_UNIT");
   (ABT_ERR_INV_THREAD, "ABT_ERR_INV_THREAD");
   (ABT_ERR_INV_THREAD_ATTR, "ABT_ERR_INV_THREAD_ATTR");
   (ABT_ERR_INV_TASK, "ABT_ERR_INV_TASK");
   (ABT_ERR_INV_KEY, "ABT_ERR_INV_KEY");
   (ABT_ERR_INV_MUTEX, "ABT_ERR_INV_MUTEX");
   (ABT_ERR_INV_MUTEX_ATTR, "ABT_ERR_INV_MUTEX_ATTR");
   (ABT_ERR_INV_COND, "ABT_ERR_INV_COND");
   (ABT_ERR_INV_RWLOCK, "ABT_ERR_INV_RWLOCK");
   (ABT_ERR_INV_EVENTUAL, "ABT_ERR_INV_EVENTUAL");
   (ABT_ERR_INV_FUTURE, "ABT_ERR_INV_FUTURE");
   (ABT_ERR_INV_BARRIER, "ABT_ERR_INV_BARRIER");
   (ABT_ERR_INV_TIMER, "ABT_ERR_INV_TIMER");
   (ABT_ERR_INV_QUERY_KIND, "ABT_ERR_INV_QUERY_KIND");
   (ABT_ERR_XSTREAM, "ABT_ERR_XSTREAM");
   (ABT_ERR_XSTREAM_STATE, "ABT_ERR_XSTREAM_STATE");
   (ABT_ERR_XSTREAM_BARRIER, "ABT_ERR_XSTREAM_BARRIER");
   (ABT_ERR_SCHED, "ABT_ERR_SCHED");
   (ABT_ERR_SCHED_CONFIG, "ABT_ERR_SCHED_CONFIG");
   (ABT_ERR_POOL, "ABT_ERR_POOL");
   (ABT_ERR_UNIT, "ABT_ERR_UNIT");
   (ABT_ERR_THREAD, "ABT_ERR_THREAD");
   (ABT_ERR_TASK, "ABT_ERR_TASK");
   (ABT_ERR_KEY, "ABT_ERR_KEY");
   (ABT_ERR_MUTEX, "ABT_ERR_MUTEX");
   (ABT_ERR_MUTEX_LOCKED, "ABT_ERR_MUTEX_LOCKED");
   (ABT_ERR_COND, "ABT_ERR_COND");
   (ABT_ERR_COND_TIMEDOUT, "ABT_ERR_COND_TIMEDOUT");
   (ABT_ERR_RWLOCK, "ABT_ERR_RWLOCK");
   (ABT_ERR_EVENTUAL, "ABT_ERR_EVENTUAL");
   (ABT_ERR_FUTURE, "ABT_ERR_FUTURE");
   (ABT_ERR_BARRIER, "ABT_ERR_BARRIER");
   (ABT_ERR_TIMER, "ABT_ERR_TIMER");
   (ABT_ERR_MIGRATION_TARGET, "ABT_ERR_MIGRATION_TARGET");
   (ABT_ERR_MIGRATION_NA, "ABT_ERR_MIGRATION_NA");
   (ABT_ERR_MISSING_JOIN, "ABT_ERR_MISSING_JOIN");
   (ABT_ERR_FEATURE_NA, "ABT_ERR_FEATURE_NA");
   (ABT_ERR_INV_TOOL_CONTEXT, "ABT_ERR_INV_TOOL_CONTEXT");
   (ABT_ERR_INV_ARG, "ABT_ERR_INV_ARG");
   (ABT_ERR_SYS, "ABT_ERR_SYS");
   (ABT_ERR_CPUID, "ABT_ERR_CPUID");
   (ABT_ERR_INV_POOL_CONFIG, "ABT_ERR_INV_POOL_CONFIG");
   (ABT_ERR_INV_POOL_USER_DEF, "ABT_ERR_INV_POOL_USER_DEF")].
(** The string of the first case that matches. *)
Fixpoint name_in (l : list (Z * string)) (x : Z) : option string :=
  match l with [] => None | (c, s) :: l => if x =? c then Some s else name_in l x end.
Definition abti_error_name (err : Z) : option string := name_in error_names err.

(** The code, what is copied to [str] and what is stored in [*len]: a null
    [str] or [len] is skipped. *)
Definition ABT_error_get_str (err : Z) (str len : bool) : Z * option string * option Z :=
  match abti_error_name err with
  | None => (ABT_ERR_OTHER, None, None)
  | Some name => (ABT_SUCCESS, if str then Some name else None,
                  if len then Some (Z.of_nat (String.length name)) else None)
  end.

Definition abti_xstream_state_name (x : Z) : string :=
  default "UNKNOWN" (name_in [(ABT_XSTREAM_STATE_RUNNING, "RUNNING"); (ABT_XSTREAM_STATE_TERMINATED, "TERMINATED")] x).
Definition abti_thread_state_name (x : Z) : string :=
  default "UNKNOWN" (name_in [(ABT_THREAD_STATE_READY, "READY"); (ABT_THREAD_STATE_RUNNING, "RUNNING"); (ABT_THREAD_STATE_BLOCKED, "BLOCKED"); (ABT_THREAD_STATE_TERMINATED, "TERMINATED")] x).
Definition abti_sched_predef_name (x : Z) : string :=
  default "UNKNOWN" (name_in [(ABT_SCHED_DEFAULT, "DEFAULT"); (ABT_SCHED_BASIC, "BASIC"); (ABT_SCHED_PRIO, "PRIO"); (ABT_SCHED_RANDWS, "RANDWS"); (ABT_SCHED_BASIC_WAIT, "BASIC_WAIT")] x).
Definition abti_pool_kind_name (x : Z) : string :=
  default "USER" (name_in [(ABT_POOL_FIFO, "FIFO"); (ABT_POOL_FIFO_WAIT, "FIFO_WAIT"); (ABT_POOL_RANDWS, "RANDWS")] x).
Definition abti_pool_access_name (x : Z) : string :=
  default "UNKNOWN" (name_in [(ABT_POOL_ACCESS_PRIV, "PRIV"); (ABT_POOL_ACCESS_SPSC, "SPSC"); (ABT_POOL_ACCESS_MPSC, "MPSC"); (ABT_POOL_ACCESS_SPMC, "SPMC"); (ABT_POOL_ACCESS_MPMC, "MPMC")] x).
Definition abti_thread_type_name (t : ABTI_thread_type) : string :=
  match t with
  | ABTI_THREAD_PRIMARY => "PRIMARY"
  | ABTI_THREAD_NAMED => "NAMED"
  | ABTI_THREAD_DETACHED => "DETACHED"
  | _ => "UNKNOWN"
  end.

(** ** Properties *)

Section env.
Implicit Types (env : environ) (s v : string).

Lemma env_long_same env name d : abti_env_long env name d = env_long env name d.
Proof. done. Qed.
Lemma clamp_long_bounds x : LONG_MIN ≤ clamp_long x ≤ LONG_MAX.
Proof. unfold clamp_long, LONG_MIN, LONG_MAX. repeat case_match; lia. Qed.
Lemma strtol_bounds v : LONG_MIN ≤ (strtol v).1 ≤ LONG_MAX.
Proof.
  assert (LONG_MIN ≤ 0 ≤ LONG_MAX) by (unfold LONG_MIN, LONG_MAX; lia).
  unfold strtol. repeat case_match; simpl; try done; apply clamp_long_bounds.
Qed.
(** A value from the environment is positive and fits a [long]. *)
Lemma env_long_range env name d :
  env_long env name d = d ∨ 0 < env_long env name d ≤ LONG_MAX.
Proof.
  unfold env_long. destruct (env name) as [[|c v]|]; [by left| |by left].
  pose proof (strtol_bounds (String c v)) as Hb. destruct (strtol (String c v)) as [x rest].
  destruct (_ && (x >? 0)) eqn:Hc; [|by left]. right. apply andb_true_iff in Hc as [_ ?]. simpl in Hb. lia.
Qed.

(** The number of PEs.  Whatever the environment and the machine, the
    rule gives between 2 and 256 PEs, unless [ABT_MAX_NUM_XSTREAMS] is the
    largest [long]: an explicit [ABT_RECONVERSE_NUM_PES] decides within these
    bounds; else one more than [ABT_MAX_NUM_XSTREAMS], at least 16; else the
    number of cores, between 16 and 32. *)
Theorem num_pes_rule_spec env cores :
  let over := env_long env "ABT_RECONVERSE_NUM_PES" 0 in
  let maxx := env_long env "ABT_MAX_NUM_XSTREAMS" 0 in
  (over ≤ 0 → maxx ≠ LONG_MAX) →
  ABTI_num_pes_rule env cores = Some (
    if bool_decide (0 < over) then Z.max 2 (Z.min over 256)
    else if bool_decide (0 < maxx) then Z.max 16 (Z.min (maxx + 1) 256)
    else Z.max 16 (Z.min cores 32)).
Proof.
  intros over maxx Hov. pose proof (env_long_range env "ABT_MAX_NUM_XSTREAMS" 0) as Hm. fold maxx in Hm.
  unfold ABTI_num_pes_rule. fold over maxx.
  assert (∀ n, Some (wraps32 (if (if n <? 2 then 2 else n) >? 256 then 256 else if n <? 2 then 2 else n)) =
    Some (Z.max 2 (Z.min n 256))) as Hfin.
  { intros n. f_equal. rewrite wraps32_small; repeat case_match; lia. }
  destruct (Z.leb_spec over 0).
  - rewrite bool_decide_false by lia. destruct (Z.gtb_spec maxx 0).
    + rewrite bool_decide_true by lia. unfold add_long.
      assert ((LONG_MIN <=? maxx + 1) && (maxx + 1 <=? LONG_MAX) = true) as ->
        by (specialize (Hov ltac:(lia)); unfold LONG_MIN, LONG_MAX in *; lia).
      cbn [mbind option_bind]. rewrite Hfin. f_equal. destruct (Z.ltb_spec (maxx + 1) 16); lia.
    + rewrite bool_decide_false by lia. cbn [mbind option_bind]. rewrite Hfin. f_equal.
      repeat case_match; lia.
  - rewrite bool_decide_true by lia. cbn [mbind option_bind]. by rewrite Hfin.
Qed.

(** A setting of [ABT_MAX_NUM_XSTREAMS] too large for a [long] (or equal
    to the largest one) makes the rule compute one more than the largest
    [long]: signed overflow. *)
Theorem num_pes_rule_overflow cores :
  ABTI_num_pes_rule (λ n, if String.eqb n "ABT_MAX_NUM_XSTREAMS" then Some "99999999999999999999" else None) cores
    = None.
Proof. done. Qed.

(** An information query gives the same answer before and after
    [ABT_init], for every query kind and environment: the sizes computed from
    the environment are those [ABT_init] stores. *)
Theorem info_query_stable env cores g k val :
  init_sizes env cores = Some g →
  ABT_info_query_config env cores (Some g) k val = ABT_info_query_config env cores None k val.
Proof.
  unfold init_sizes. destruct (ABTI_num_pes_rule env cores) as [n|] eqn:Hn; [|done]. simpl. change (2 * 1024 * 1024) with 2097152. intros [= <-].
  assert (abti_max_xstreams env cores None = abti_max_xstreams env cores
    (Some (mk_sizes n (if wrapu64 (env_long env "ABT_THREAD_STACKSIZE" 2097152) <? 16384 then 16384
      else wrapu64 (env_long env "ABT_THREAD_STACKSIZE" 2097152))))) as Hx by (simpl; by rewrite Hn).
  assert (abti_default_stacksize env None = abti_default_stacksize env
    (Some (mk_sizes n (if wrapu64 (env_long env "ABT_THREAD_STACKSIZE" 2097152) <? 16384 then 16384
      else wrapu64 (env_long env "ABT_THREAD_STACKSIZE" 2097152))))) as Hs.
  { simpl. rewrite env_long_same. change (2 * 1024 * 1024) with 2097152.
    pose proof (env_long_range env "ABT_THREAD_STACKSIZE" 2097152) as Hr. unfold LONG_MAX in Hr.
    rewrite (wrapu64_small (env_long _ _ _)) by lia.
    destruct (Z.ltb_spec (env_long env "ABT_THREAD_STACKSIZE" 2097152) 16384); apply wrapu64_small; lia. }
  unfold ABT_info_query_config. by rewrite Hx, Hs.
Qed.
End env.

Section names.
Lemma name_in_Some l x s : name_in l x = Some s → (x, s) ∈ l.
Proof.
  induction l as [|[c t] l IH]; [done|]. simpl. destruct (Z.eqb_spec x c) as [->|Hne].
  - intros [= ->]. by left.
  - intros Hs. right. auto.
Qed.
Lemma name_in_None l x : x ∉ l.*1 → name_in l x = None.
Proof.
  induction l as [|[c t] l IH]; [done|]. simpl. intros [Hne Hx]%not_elem_of_cons.
  destruct (Z.eqb_spec x c); [done|]. auto.
Qed.
Lemma name_in_elem l x : x ∈ l.*1 → is_Some (name_in l x).
Proof.
  induction l as [|[c t] l IH]; simpl; [by intros ?%elem_of_nil|].
  intros [->|Hx]%elem_of_cons; [rewrite Z.eqb_refl; eauto|]. destruct (x =? c); eauto.
Qed.

Lemma error_names_codes x : x ∈ error_names.*1 ↔ ABT_SUCCESS ≤ x ≤ ABT_ERR_INV_POOL_USER_DEF.
Proof.
  split.
  - intros Hx. assert (Forall (λ c, ABT_SUCCESS ≤ c ≤ ABT_ERR_INV_POOL_USER_DEF) error_names.*1) as Hf
      by (apply (bool_decide_unpack _); vm_compute; exact I).
    by eapply Forall_forall in Hf.
  - intros Hx. assert (Forall (λ c, c ∈ error_names.*1) (seqZ 0 58)) as Hf
      by (apply (bool_decide_unpack _); vm_compute; exact I).
    rewrite Forall_forall in Hf. apply Hf, elem_of_seqZ. unfold ABT_SUCCESS, ABT_ERR_INV_POOL_USER_DEF in Hx. lia.
Qed.

(** [ABT_error_get_str] knows exactly the codes from 0 to 57: for these
    it succeeds with the code's name and the name's length; every other code
    is [ABT_ERR_OTHER] and writes nothing; two codes never share a name. *)
Theorem error_get_str_spec err :
  (ABT_SUCCESS ≤ err ≤ ABT_ERR_INV_POOL_USER_DEF ∧ ∃ name, abti_error_name err = Some name ∧
     ABT_error_get_str err true true =
       (ABT_SUCCESS, Some name, Some (Z.of_nat (String.length name))) ∧
     ∀ err', abti_error_name err' = Some name → err' = err) ∨
  (¬ ABT_SUCCESS ≤ err ≤ ABT_ERR_INV_POOL_USER_DEF ∧
     ∀ str len, ABT_error_get_str err str len = (ABT_ERR_OTHER, None, None)).
Proof.
  unfold ABT_error_get_str, abti_error_name.
  destruct (decide (ABT_SUCCESS ≤ err ≤ ABT_ERR_INV_POOL_USER_DEF)) as [Hin|Hout]; [left|right]; (split; [done|]).
  - destruct (name_in_elem error_names err) as [name Hn]; [by apply error_names_codes|].
    exists name. rewrite Hn. split_and!; [done..|]. intros err' Hn'.
    apply name_in_Some in Hn, Hn'.
    assert (NoDup error_names.*2) as Hnd by (apply (bool_decide_unpack _); vm_compute; exact I).
    apply list_elem_of_lookup in Hn as [i Hi], Hn' as [j Hj].
    assert (j = i) as ->.
    { eapply (NoDup_lookup _ j i name Hnd); by rewrite list_lookup_fmap, ?Hi, ?Hj. }
    congruence.
  - intros str len. by rewrite name_in_None by (by rewrite error_names_codes).
Qed.
End names.


(** ** On a concrete environment *)

Definition small_env : environ := λ n, if String.eqb n "ABT_MAX_NUM_XSTREAMS" then Some "40" else None.
Lemma num_pes_rule_spec_witness : ABTI_num_pes_rule small_env 8 = Some 41.
Proof. apply (num_pes_rule_spec small_env 8). intros _. vm_compute. discriminate. Defined.
Lemma info_query_stable_witness :
  ABT_info_query_config small_env 8 (Some (mk_sizes 41 2097152)) 6 1 =
  ABT_info_query_config small_env 8 None 6 1.
Proof. apply (info_query_stable small_env 8 (mk_sizes 41 2097152) 6 1). vm_compute. reflexivity. Defined.
