(* ===== verification/Unsupported.v ===== *)
(** * Unsupported calls

    The interface functions this implementation does not support: each records
    itself (src/init.cpp) and answers [ABT_ERR_FEATURE_NA].  The record is the
    process-wide name of the first such call and the number of calls; the trace
    on standard error is left out. *)

From Stdlib Require Import Ascii String.
From S2P Require Import Prelude AbtTypes.
#[local] Open Scope string_scope.

Record notes : Type := mk_notes {
  g_first_unimplemented : option string;
  g_unimplemented_calls : Z;
}.
#[global] Instance eta_notes : Eta notes := λ n, mk_notes (g_first_unimplemented n) (g_unimplemented_calls n).
Definition no_notes : notes := mk_notes None 0.

(** the two atomic accesses of a call: [fetch_add], then [compare_exchange] from null *)
Definition count_call : M notes unit := modify (λ n, n <| g_unimplemented_calls ::= λ c, wrapu64 (c + 1) |>).
Definition name_call (name : string) : M notes unit :=
  modify (λ n, n <| g_first_unimplemented ::= λ f, match f with None => Some name | Some _ => f end |>).
Definition ABTI_note_unimplemented (name : string) : M notes Z :=
  count_call ;; name_call name ;; mret ABT_ERR_FEATURE_NA.
Definition ABTI_first_unimplemented : M notes (option string) := gets g_first_unimplemented.
Definition ABTI_unimplemented_count : M notes Z := gets g_unimplemented_calls.

(** ** The calls *)

Definition ABT_thread_get_stack : M notes Z := ABTI_note_unimplemented "ABT_thread_get_stack".
Definition ABT_thread_create_many : M notes Z := ABTI_note_unimplemented "ABT_thread_create_many".
Definition ABT_thread_revive : M notes Z := ABTI_note_unimplemented "ABT_thread_revive".
Definition ABT_thread_revive_to : M notes Z := ABTI_note_unimplemented "ABT_thread_revive_to".
Definition ABT_thread_cancel : M notes Z := ABTI_note_unimplemented "ABT_thread_cancel".
Definition ABT_self_resume_yield_to : M notes Z := ABTI_note_unimplemented "ABT_self_resume_yield_to".
Definition ABT_self_suspend_to : M notes Z := ABTI_note_unimplemented "ABT_self_suspend_to".
Definition ABT_self_resume_suspend_to : M notes Z := ABTI_note_unimplemented "ABT_self_resume_suspend_to".
Definition ABT_self_exit_to : M notes Z := ABTI_note_unimplemented "ABT_self_exit_to".
Definition ABT_self_resume_exit_to : M notes Z := ABTI_note_unimplemented "ABT_self_resume_exit_to".
Definition ABT_task_revive : M notes Z := ABTI_note_unimplemented "ABT_task_revive".
Definition ABT_task_cancel : M notes Z := ABTI_note_unimplemented "ABT_task_cancel".
Definition ABT_xstream_set_rank : M notes Z := ABTI_note_unimplemented "ABT_xstream_set_rank".
Definition ABT_xstream_revive : M notes Z := ABTI_note_unimplemented "ABT_xstream_revive".
Definition ABT_xstream_exit : M notes Z := ABTI_note_unimplemented "ABT_xstream_exit".
Definition ABT_xstream_cancel : M notes Z := ABTI_note_unimplemented "ABT_xstream_cancel".
Definition ABT_xstream_barrier_create : M notes Z := ABTI_note_unimplemented "ABT_xstream_barrier_create".
Definition ABT_xstream_barrier_free : M notes Z := ABTI_note_unimplemented "ABT_xstream_barrier_free".
Definition ABT_xstream_barrier_wait : M notes Z := ABTI_note_unimplemented "ABT_xstream_barrier_wait".
Definition ABT_unit_set_associated_pool : M notes Z := ABTI_note_unimplemented "ABT_unit_set_associated_pool".
Definition ABT_pool_user_def_create : M notes Z := ABTI_note_unimplemented "ABT_pool_user_def_create".
Definition ABT_pool_user_def_free : M notes Z := ABTI_note_unimplemented "ABT_pool_user_def_free".
Definition ABT_pool_user_def_set_init : M notes Z := ABTI_note_unimplemented "ABT_pool_user_def_set_init".
Definition ABT_pool_user_def_set_free : M notes Z := ABTI_note_unimplemented "ABT_pool_user_def_set_free".
Definition ABT_pool_user_def_set_get_size : M notes Z := ABTI_note_unimplemented "ABT_pool_user_def_set_get_size".
Definition ABT_pool_user_def_set_pop_wait : M notes Z := ABTI_note_unimplemented "ABT_pool_user_def_set_pop_wait".
Definition ABT_pool_user_def_set_pop_many : M notes Z := ABTI_note_unimplemented "ABT_pool_user_def_set_pop_many".
Definition ABT_pool_user_def_set_push_many : M notes Z := ABTI_note_unimplemented "ABT_pool_user_def_set_push_many".
Definition ABT_pool_user_def_set_print_all : M notes Z := ABTI_note_unimplemented "ABT_pool_user_def_set_print_all".
Definition ABT_info_print_task : M notes Z := ABTI_note_unimplemented "ABT_info_print_task".
Definition ABT_tool_register_thread_callback : M notes Z := ABTI_note_unimplemented "ABT_tool_register_thread_callback".
Definition ABT_tool_query_thread : M notes Z := ABTI_note_unimplemented "ABT_tool_query_thread".

Definition unsupported : list (M notes Z) :=
  [ABT_thread_get_stack; ABT_thread_create_many; ABT_thread_revive;
   ABT_thread_revive_to; ABT_thread_cancel; ABT_self_resume_yield_to;
   ABT_self_suspend_to; ABT_self_resume_suspend_to; ABT_self_exit_to;
   ABT_self_resume_exit_to; ABT_task_revive; ABT_task_cancel;
   ABT_xstream_set_rank; ABT_xstream_revive; ABT_xstream_exit;
   ABT_xstream_cancel; ABT_xstream_barrier_create; ABT_xstream_barrier_free;
   ABT_xstream_barrier_wait; ABT_unit_set_associated_pool; ABT_pool_user_def_create;
   ABT_pool_user_def_free; ABT_pool_user_def_set_init; ABT_pool_user_def_set_free;
   ABT_pool_user_def_set_get_size; ABT_pool_user_def_set_pop_wait; ABT_pool_user_def_set_pop_many;
   ABT_pool_user_def_set_push_many; ABT_pool_user_def_set_print_all; ABT_info_print_task;
   ABT_tool_register_thread_callback; ABT_tool_query_thread].

(** ** What the record says *)

(** The calls of several threads interleave at their two accesses: [counted]
    are the names that have been counted and not yet stored. *)
Record race : Type := mk_race { r_notes : notes; counted : list string; returned : nat }.
Inductive race_step : race → race → Prop :=
  | RCount name n n' l k : count_call n = Done tt n' → race_step (mk_race n l k) (mk_race n' (name :: l) k)
  | RName name n n' l1 l2 k : name_call name n = Done tt n' →
      race_step (mk_race n (l1 ++ name :: l2) k) (mk_race n' (l1 ++ l2) (S k)).

Lemma first_call_stays r r' name : rtc race_step r r' →
  g_first_unimplemented (r_notes r) = Some name → g_first_unimplemented (r_notes r') = Some name.
Proof.
  induction 1 as [|r1 r2 r3 Hs _ IH]; [done|]. intros Hn. apply IH.
  destruct Hs as [? n n' l k [= <-]|? n n' l1 l2 k [= <-]]; simpl in *; [exact Hn|]. by rewrite Hn.
Qed.
(** Every call that has returned or is under way is counted, once; a name is on
    record as soon as one call has returned, and it stays. *)
Theorem unsupported_calls_counted r : rtc race_step (mk_race no_notes [] 0) r →
  g_unimplemented_calls (r_notes r) = wrapu64 (Z.of_nat (returned r + length (counted r))) ∧
  (g_first_unimplemented (r_notes r) = None ↔ returned r = 0%nat) ∧
  ∀ r' name, rtc race_step r r' → g_first_unimplemented (r_notes r) = Some name → g_first_unimplemented (r_notes r') = Some name.
Proof.
  intros Hr. apply and_assoc. split.
  - eapply (rtc_ind_r (λ r, g_unimplemented_calls (r_notes r) = wrapu64 (Z.of_nat (returned r + length (counted r))) ∧
      (g_first_unimplemented (r_notes r) = None ↔ returned r = 0%nat))); [ | |exact Hr].
    { split; [reflexivity|]. simpl. tauto. }
    clear r Hr. intros r r' _ Hs [Hc Hf]. destruct Hs as [name n n' l k [= <-]|name n n' l1 l2 k [= <-]]; simpl in *.
    + split; [|done]. rewrite Hc. unfold wrapu64. rewrite Zplus_mod_idemp_l. f_equal. lia.
    + split; [rewrite Hc, !length_app; cbn [length]; f_equal; lia|]. split; [by destruct (g_first_unimplemented n)|lia].
  - intros r' name. apply first_call_stays.
Qed.
(** None of them does anything but say so. *)
Theorem unsupported_refused m n : m ∈ unsupported → ∃ n', m n = Done ABT_ERR_FEATURE_NA n'.
Proof.
  intros Hm. unfold unsupported in Hm.
  repeat (apply elem_of_cons in Hm as [->|Hm]; [by eexists|]). by apply elem_of_nil in Hm.
Qed.
