(* ===== verification/Thread.v ===== *)
(** * Threads and tasklets

    src/thread.cpp on the [world]: creation of ULTs and tasklets into a pool,
    blocking and making ready (with the deferred migration), termination and
    destruction, attributes, keys, and the queries.  The calling context (is it
    a PE, which thread runs on it) is an argument; output parameters are part of
    the result as in [Pool].  Joining, which waits, is in [ThreadJoin]. *)

From S2P Require Import Prelude AbtTypes Config Objects Storage PoolList Sleepers PoolMpsc Pool.

(** Where a call is made: [ABTI_on_pe()] and [ABTI_self_thread()]. *)
Record context : Type := mk_ctx {
  on_pe : bool;
  self_thread : option ptr;
}.

Section thread.
Context `{E : Ext}.

(** ** Objects *)

(** A thread object as the constructor leaves it. *)
Definition blank_thread : ABTI_thread :=
  mk_thread None None None false false None None ABT_UNIT_NULL ABTI_THREAD_PRIMARY None 0
    (mk_attr 0 None 0) 0 None None false [] [] false false None None false 0.
Definition put_thread (x : ABTI_thread) : M world ptr :=
  t ← new_addr; modify (λ w, w <| w_threads ::= insert t x |>) ;; mret t.
Definition ABTI_thread_release (t : ptr) : M world unit :=
  thread t ;; modify (λ w, w <| w_threads ::= delete t |>).
Definition default_attr (migr : Z) : ABTI_thread_attr := mk_attr 0 None migr.
Definition attr (a : ptr) : M world ABTI_thread_attr := λ w,
  match w_attrs w !! a with Some x => Done x w | None => Faulted BadDeref end.

Definition can_block (x : option ABTI_thread) : bool :=
  match x with Some x => non_null (cth x) && negb (is_task x) | None => false end.

(** ** Making ready, blocking *)

Definition uncount_blocked (t : ptr) : M world unit :=
  x ← thread t;
  set_thread t (λ x, x <| blocked_counted := false |>) ;;
  when (blocked_counted x) (
    match blocked_pool x with
    | Some p => set_pool p (λ o, o <| num_blocked ::= Z.pred |>)
    | None => fail BadDeref
    end).
Definition apply_migration (t : ptr) : M world unit :=
  x ← thread t;
  match migrate_to x with
  | Some p => set_thread t (λ x, x <| migrate_to := None |>) ;; ABTI_pool_associate t p
  | None => mret tt
  end.
Definition ABTI_thread_awaken_fn (t : ptr) : M world unit :=
  uncount_blocked t ;;
  apply_migration t ;;
  x ← thread t;
  match t_pool x with Some p => push p t | None => fail BadDeref end.

(** What [ABTI_thread_block] does before it suspends the caller. *)
Definition ABTI_thread_block (t : ptr) : M world unit :=
  x ← thread t;
  if decide (t_type x = ABTI_THREAD_SCHED) then mret tt else
  match t_pool x with
  | None => fail BadDeref
  | Some p =>
      set_pool p (λ o, o <| num_blocked ::= Z.succ |>) ;;
      set_thread t (λ x, x <| blocked_pool := Some p |> <| blocked_counted := true |>)
  end.

(** ** Creation *)

Definition new_thread (named : bool) (f a : Z) (at_ : ABTI_thread_attr) (id : Z) (task : bool) : ABTI_thread :=
  blank_thread <| t_type := if named then ABTI_THREAD_NAMED else ABTI_THREAD_DETACHED |>
    <| fn := Some f |> <| arg := a |> <| t_attr := at_ |> <| t_id := id |>
    <| freed_by_exit := negb named |> <| is_task := task |>.

(** [newthread] tells whether the caller wants a handle.  A new Converse
    thread is blocked, so awakening it runs [ABTI_thread_awaken_fn]; off a PE
    the same is done on a PE. *)
Definition thread_create_impl (h f a at_ : Z) (newthread : bool) (task : bool) : M world (Z * option Z) :=
  check_init (with_pool h (λ p,
    at_ ← (match ABTI_attr_get at_ with Some q => attr q | None => mret (default_attr ABT_TRUE) end);
    id ← fetch_id;
    t ← put_thread (new_thread newthread f a at_ id task);
    w ← get;
    c ← ext (CthCreate t (wraps32 (if stacksize at_ =? 0 then g_default_stacksize w else stacksize at_)));
    set_thread t (λ x, x <| cth := Some c |>) ;;
    ABTI_pool_associate t p ;;
    ABTI_thread_awaken_fn t ;;
    if (newthread : bool) then ok (ABTI_thread_handle (Some t)) else done_)).
Definition ABT_thread_create (h f a at_ : Z) (newthread : bool) : M world (Z * option Z) :=
  thread_create_impl h f a at_ newthread false.

(** A tasklet: the unit itself is the pool entry, there is no Converse thread. *)
Definition task_create_impl (h f a : Z) (newtask : bool) : M world (Z * option Z) :=
  check_init (with_pool h (λ p,
    id ← fetch_id;
    t ← put_thread (new_thread newtask f a (default_attr ABT_TRUE) id true <| tstate := CTH_STATE_READY |>);
    ABTI_pool_associate t p ;;
    push p t ;;
    if (newtask : bool) then ok (ABTI_thread_handle (Some t)) else done_)).
Definition ABT_task_create (h f a : Z) (newtask : bool) : M world (Z * option Z) :=
  task_create_impl h f a newtask.

(** ** The end of a thread *)

Definition key_dtor (i : nat) : M world (option Z) := gets (λ w, g_key_dtors w !! i ≫= id).
Fixpoint destroy_keys (t : ptr) (i : nat) (vals : list Z) : M world unit :=
  match vals with
  | [] => mret tt
  | v :: vals =>
      (if v =? 0 then mret tt else
       d ← key_dtor i;
       set_thread t (λ x, x <| t_keys ::= insert i 0 |>) ;;
       match d with Some d => ext_ (call_key_dtor d v) | None => mret tt end) ;;
      destroy_keys t (S i) vals
  end.
Definition run_key_destructors (t : ptr) : M world unit := x ← thread t; destroy_keys t 0 (t_keys x).

Definition ABTI_thread_destroy (ctx : context) (t : ptr) : M world unit :=
  ABTI_pool_disassociate t ;;
  x ← thread t;
  (match cth x with Some c => when (on_pe ctx) (ext_ (CthFree c)) | None => mret tt end) ;;
  ABTI_thread_release t.

(** ** Queries and settings *)

Definition map_state (t : ptr) : M world Z :=
  x ← thread t;
  if terminated x then mret ABT_THREAD_STATE_TERMINATED else
  w ← get;
  let st := match cth x with Some c => CthGetState c (w_ext w) | None => tstate x end in
  mret (if st =? CTH_STATE_RUNNING then ABT_THREAD_STATE_RUNNING
        else if st =? CTH_STATE_BLOCKED then ABT_THREAD_STATE_BLOCKED
        else if st =? CTH_STATE_TERMINATED then ABT_THREAD_STATE_TERMINATED
        else ABT_THREAD_STATE_READY).

Definition with_thread {A} (h : Z) (k : ptr → M world (Z * option A)) : M world (Z * option A) :=
  match ABTI_thread_get h with None => mret (ABT_ERR_INV_THREAD, None) | Some t => k t end.
(** [t ? (int)t->pool->id : -1] *)
Definition pool_id_of (p : option ptr) : M world Z :=
  match p with Some p => o ← pool p; mret (wraps32 (p_id o)) | None => mret (-1) end.
Definition as_bool (b : bool) : Z := if b then ABT_TRUE else ABT_FALSE.

Definition ABT_thread_get_id (h : Z) := with_thread h (λ t, x ← thread t; ok (t_id x)).
Definition ABT_thread_get_state (h : Z) := with_thread h (λ t, s ← map_state t; ok s).
Definition ABT_thread_get_last_xstream (h : Z) :=
  with_thread h (λ t, x ← thread t; ok (ABTI_xstream_handle (last_xstream x))).
Definition ABT_thread_get_last_pool (h : Z) :=
  with_thread h (λ t, x ← thread t; ok (ABTI_pool_handle (t_pool x))).
Definition ABT_thread_get_last_pool_id (h : Z) :=
  with_thread h (λ t, x ← thread t; i ← pool_id_of (t_pool x); ok i).
Definition ABT_thread_get_unit (h : Z) := with_thread h (λ t, u ← thread_to_unit (Some t); ok u).
Definition ABT_thread_set_associated_pool (h p : Z) : M world (Z * option unit) :=
  with_thread h (λ t, with_pool p (λ p, ABTI_pool_associate t p ;; done_)).
Definition ABT_thread_migrate_to_pool (h p : Z) : M world (Z * option unit) :=
  with_thread h (λ t, with_pool p (λ p, set_thread t (λ x, x <| migrate_to := Some p |>) ;; done_)).
Definition ABT_thread_migrate_to_sched (h s : Z) : M world (Z * option unit) :=
  match ABTI_sched_get s with
  | None => err ABT_ERR_INV_SCHED
  | Some s =>
      o ← sched s;
      match pools o with
      | [] => err ABT_ERR_INV_SCHED
      | p :: _ => ABT_thread_migrate_to_pool h (ABTI_pool_handle (Some p))
      end
  end.
Definition ABT_thread_set_migratable (h m : Z) : M world (Z * option unit) :=
  with_thread h (λ t, set_thread t (λ x, x <| t_attr ::= λ a, a <| migratable := m |> |>) ;; done_).
Definition ABT_thread_is_migratable (h : Z) := with_thread h (λ t, x ← thread t; ok (migratable (t_attr x))).
Definition ABT_thread_is_primary (h : Z) :=
  with_thread h (λ t, x ← thread t; ok (as_bool (bool_decide (t_type x = ABTI_THREAD_PRIMARY)))).
Definition ABT_thread_is_unnamed (h : Z) :=
  with_thread h (λ t, x ← thread t; ok (as_bool (bool_decide (t_type x = ABTI_THREAD_DETACHED)))).
Definition ABT_thread_equal (h1 h2 : Z) : M world (Z * option Z) := ok (as_bool (h1 =? h2)).
Definition ABT_thread_get_stacksize (h : Z) :=
  with_thread h (λ t, x ← thread t; w ← get;
    ok (if stacksize (t_attr x) =? 0 then g_default_stacksize w else stacksize (t_attr x))).
Definition ABT_thread_set_arg (h a : Z) : M world (Z * option unit) :=
  with_thread h (λ t, set_thread t (λ x, x <| arg := a |>) ;; done_).
Definition ABT_thread_get_arg (h : Z) := with_thread h (λ t, x ← thread t; ok (arg x)).
Definition ABT_thread_get_thread_func (h : Z) := with_thread h (λ t, x ← thread t; ok (default 0 (fn x))).

(** ** Attributes *)

Definition put_attr (a : ABTI_thread_attr) : M world ptr :=
  p ← new_addr; modify (λ w, w <| w_attrs ::= insert p a |>) ;; mret p.
Definition with_attr {A} (h : Z) (k : ptr → M world (Z * option A)) : M world (Z * option A) :=
  match ABTI_attr_get h with None => mret (ABT_ERR_INV_THREAD_ATTR, None) | Some a => k a end.
Definition set_attr (a : ptr) (f : ABTI_thread_attr → ABTI_thread_attr) : M world unit :=
  x ← attr a; modify (λ w, w <| w_attrs ::= insert a (f x) |>).

Definition ABT_thread_get_attr (h : Z) : M world (Z * option Z) :=
  with_thread h (λ t, x ← thread t; w ← get;
    a ← put_attr (if stacksize (t_attr x) =? 0 then t_attr x <| stacksize := g_default_stacksize w |> else t_attr x);
    ok a).
Definition ABT_thread_attr_create : M world (Z * option Z) := a ← put_attr (default_attr ABT_TRUE); ok a.
Definition ABT_thread_attr_free (h : Z) : M world (Z * option Z) :=
  with_attr h (λ a, attr a ;; modify (λ w, w <| w_attrs ::= delete a |>) ;; ok ABT_THREAD_ATTR_NULL).
Definition ABT_thread_attr_set_stack (h addr size : Z) : M world (Z * option unit) :=
  with_attr h (λ a, set_attr a (λ x, x <| stackaddr := if addr =? 0 then None else Some addr |>
    <| stacksize := size |>) ;; done_).
Definition ABT_thread_attr_get_stack (h : Z) : M world (Z * option (Z * Z)) :=
  with_attr h (λ a, x ← attr a; ok (default 0 (stackaddr x), stacksize x)).
Definition ABT_thread_attr_set_stacksize (h size : Z) : M world (Z * option unit) :=
  with_attr h (λ a, set_attr a (λ x, x <| stacksize := size |>) ;; done_).
Definition ABT_thread_attr_get_stacksize (h : Z) : M world (Z * option Z) :=
  with_attr h (λ a, x ← attr a; w ← get;
    ok (if stacksize x =? 0 then g_default_stacksize w else stacksize x)).
Definition ABT_thread_attr_set_migratable (h m : Z) : M world (Z * option unit) :=
  with_attr h (λ a, set_attr a (λ x, x <| migratable := m |>) ;; done_).

(** migration callbacks are accepted and never called *)
Definition ABT_thread_attr_set_callback (h cb arg : Z) : M world (Z * option unit) := done_.
Definition ABT_thread_set_callback (h cb arg : Z) : M world (Z * option unit) := done_.

(** The runtime's own detached ULTs, with an explicit stack size. *)
Definition ABTI_thread_create_internal (h f a size : Z) : M world Z :=
  r ← ABT_thread_attr_create;
  match r.2 with
  | None => mret r.1
  | Some at_ =>
      ABT_thread_attr_set_stacksize at_ size ;;
      c ← thread_create_impl h f a at_ false false;
      ABT_thread_attr_free at_ ;; mret c.1
  end.

(** ** Keys *)

Definition key (k : ptr) : M world ABTI_key := λ w,
  match w_keys w !! k with Some x => Done x w | None => Faulted BadDeref end.
Definition with_key {A} (h : Z) (k : ptr → M world (Z * option A)) : M world (Z * option A) :=
  match ABTI_key_get h with None => mret (ABT_ERR_INV_KEY, None) | Some p => k p end.
(** [v.resize(i + 1, d)] when [i] is past the end, then [v[i] = x] *)
Definition put_at {A} (d : A) (i : Z) (x : A) (v : list A) : list A :=
  <[Z.to_nat i := x]> (v ++ replicate (S (Z.to_nat i) - length v) d).

Definition ABT_thread_set_specific (h k value : Z) : M world (Z * option unit) :=
  with_thread h (λ t, with_key k (λ k,
    o ← key k; set_thread t (λ x, x <| t_keys ::= put_at 0 (k_id o) value |>) ;; done_)).
Definition ABT_thread_get_specific (h k : Z) : M world (Z * option Z) :=
  with_thread h (λ t, with_key k (λ k,
    o ← key k; x ← thread t; ok (default 0 (t_keys x !! Z.to_nat (k_id o))))).
Definition ABT_key_create (d : option Z) : M world (Z * option Z) :=
  check_init (
    k ← new_addr;
    i ← gets g_next_key;
    modify (λ w, w <| g_next_key ::= Z.succ |> <| w_keys ::= insert k (mk_key d i) |>
      <| g_key_dtors ::= put_at None i d |>) ;;
    ok k).
Definition ABT_key_free (h : Z) : M world (Z * option Z) :=
  with_key h (λ k,
    o ← key k;
    modify (λ w, w <| g_key_dtors ::= insert (Z.to_nat (k_id o)) None |> <| w_keys ::= delete k |>) ;;
    ok ABT_KEY_NULL).

(** The running thread, or the error for a caller that is not one. *)
Definition with_self {A} (ctx : context) (k : ptr → M world (Z * option A)) : M world (Z * option A) :=
  match self_thread ctx with
  | None => mret (if on_pe ctx then ABT_ERR_INV_THREAD else ABT_ERR_INV_XSTREAM, None)
  | Some t => k t
  end.
Definition ABT_key_set (ctx : context) (k value : Z) : M world (Z * option unit) :=
  with_self ctx (λ t, ABT_thread_set_specific (ABTI_thread_handle (Some t)) k value).
Definition ABT_key_get (ctx : context) (k : Z) : M world (Z * option Z) :=
  with_self ctx (λ t, ABT_thread_get_specific (ABTI_thread_handle (Some t)) k).

Definition ABT_self_set_specific (ctx : context) (k value : Z) := ABT_key_set ctx k value.
Definition ABT_self_get_specific (ctx : context) (k : Z) := ABT_key_get ctx k.

(** ** The running thread *)

Definition ABT_thread_self (ctx : context) : M world (Z * option Z) :=
  w ← get;
  if negb (g_initialized w) then mret (ABT_ERR_UNINITIALIZED, Some ABT_THREAD_NULL) else
  if negb (on_pe ctx) then mret (ABT_ERR_INV_XSTREAM, Some ABT_THREAD_NULL) else
  match self_thread ctx with
  | None => mret (ABT_ERR_INV_THREAD, Some ABT_THREAD_NULL)
  | Some t =>
      x ← thread t;
      if is_task x then mret (ABT_ERR_INV_THREAD, Some ABT_THREAD_NULL)
      else ok (ABTI_thread_handle (Some t))
  end.
Definition ABT_thread_self_id (ctx : context) : M world (Z * option Z) :=
  with_self ctx (λ t, x ← thread t;
    if is_task x then err (if on_pe ctx then ABT_ERR_INV_THREAD else ABT_ERR_INV_XSTREAM) else ok (t_id x)).
Definition ABT_self_get_thread_id (ctx : context) := ABT_thread_self_id ctx.
Definition ABT_self_get_thread (ctx : context) : M world (Z * option Z) :=
  w ← get;
  if negb (g_initialized w) then mret (ABT_ERR_UNINITIALIZED, Some ABT_THREAD_NULL) else
  if negb (on_pe ctx) then mret (ABT_ERR_INV_XSTREAM, Some ABT_THREAD_NULL) else
  match self_thread ctx with
  | None => mret (ABT_ERR_INV_THREAD, Some ABT_THREAD_NULL)
  | Some t => ok (ABTI_thread_handle (Some t))
  end.
Definition ABT_self_get_type (ctx : context) : M world (Z * option Z) :=
  w ← get;
  if negb (g_initialized w) then mret (ABT_ERR_UNINITIALIZED, Some ABT_UNIT_TYPE_EXT) else
  if negb (on_pe ctx) then mret (ABT_ERR_INV_XSTREAM, Some ABT_UNIT_TYPE_EXT) else
  match self_thread ctx with
  | None => ok ABT_UNIT_TYPE_EXT
  | Some t => x ← thread t; ok (if is_task x then ABT_UNIT_TYPE_TASK else ABT_UNIT_TYPE_THREAD)
  end.
Definition ABT_self_is_primary (ctx : context) : M world (Z * option Z) :=
  w ← get;
  if negb (g_initialized w) then mret (ABT_ERR_UNINITIALIZED, Some ABT_FALSE) else
  if negb (on_pe ctx) then mret (ABT_ERR_INV_XSTREAM, Some ABT_FALSE) else
  match self_thread ctx with
  | None => ok ABT_FALSE
  | Some t =>
      x ← thread t;
      if is_task x then mret (ABT_ERR_INV_THREAD, Some ABT_FALSE)
      else ok (as_bool (bool_decide (t_type x = ABTI_THREAD_PRIMARY)))
  end.
Definition ABT_self_is_unnamed (ctx : context) : M world (Z * option Z) :=
  with_self ctx (λ t, x ← thread t; ok (as_bool (bool_decide (t_type x = ABTI_THREAD_DETACHED)))).
Definition ABT_self_get_last_pool (ctx : context) : M world (Z * option Z) :=
  with_self ctx (λ t, x ← thread t; ok (ABTI_pool_handle (t_pool x))).
Definition ABT_self_get_last_pool_id (ctx : context) : M world (Z * option Z) :=
  with_self ctx (λ t, x ← thread t; i ← pool_id_of (t_pool x); ok i).
Definition ABT_self_set_associated_pool (ctx : context) (p : Z) : M world (Z * option unit) :=
  with_self ctx (λ t, ABT_thread_set_associated_pool (ABTI_thread_handle (Some t)) p).
Definition ABT_self_get_unit (ctx : context) : M world (Z * option Z) :=
  with_self ctx (λ t, ABT_thread_get_unit (ABTI_thread_handle (Some t))).
Definition ABT_self_set_arg (ctx : context) (a : Z) : M world (Z * option unit) :=
  with_self ctx (λ t, set_thread t (λ x, x <| arg := a |>) ;; done_).
Definition ABT_self_get_arg (ctx : context) : M world (Z * option Z) :=
  with_self ctx (λ t, x ← thread t; ok (arg x)).
Definition ABT_self_get_thread_func (ctx : context) : M world (Z * option Z) :=
  with_self ctx (λ t, x ← thread t; ok (default 0 (fn x))).

(** ** Tasklets *)

Definition with_task {A} (h : Z) (k : ptr → ABTI_thread → M world (Z * option A)) : M world (Z * option A) :=
  match ABTI_thread_get h with
  | None => err ABT_ERR_INV_TASK
  | Some t => x ← thread t; if is_task x then k t x else err ABT_ERR_INV_TASK
  end.
Definition ABT_task_self (ctx : context) : M world (Z * option Z) :=
  w ← get;
  if negb (g_initialized w) then mret (ABT_ERR_UNINITIALIZED, Some ABT_TASK_NULL) else
  if negb (on_pe ctx) then mret (ABT_ERR_INV_XSTREAM, Some ABT_TASK_NULL) else
  match self_thread ctx with
  | None => mret (ABT_ERR_INV_TASK, Some ABT_TASK_NULL)
  | Some t =>
      x ← thread t;
      if is_task x then ok (ABTI_thread_handle (Some t)) else mret (ABT_ERR_INV_TASK, Some ABT_TASK_NULL)
  end.
Definition ABT_task_self_id (ctx : context) : M world (Z * option Z) :=
  check_init (
    if negb (on_pe ctx) then err ABT_ERR_INV_XSTREAM else
    match self_thread ctx with
    | None => err ABT_ERR_INV_TASK
    | Some t => x ← thread t; if is_task x then ok (t_id x) else err ABT_ERR_INV_TASK
    end).
Definition ABT_task_get_xstream (h : Z) := with_task h (λ _ x, ok (ABTI_xstream_handle (last_xstream x))).
Definition ABT_task_get_state (h : Z) : M world (Z * option Z) :=
  with_task h (λ t _, s ← map_state t;
    ok (if s =? ABT_THREAD_STATE_READY then ABT_TASK_STATE_READY
        else if s =? ABT_THREAD_STATE_RUNNING then ABT_TASK_STATE_RUNNING
        else if s =? ABT_THREAD_STATE_TERMINATED then ABT_TASK_STATE_TERMINATED
        else ABT_TASK_STATE_RUNNING)).
Definition ABT_task_get_last_pool (h : Z) := with_task h (λ _ x, ok (ABTI_pool_handle (t_pool x))).
Definition ABT_task_get_last_pool_id (h : Z) := with_task h (λ _ x, i ← pool_id_of (t_pool x); ok i).
Definition ABT_task_set_migratable (h m : Z) : M world (Z * option unit) :=
  with_task h (λ t _, set_thread t (λ x, x <| t_attr ::= λ a, a <| migratable := m |> |>) ;; done_).
Definition ABT_task_is_migratable (h : Z) := with_task h (λ _ x, ok (migratable (t_attr x))).
Definition ABT_task_equal (h1 h2 : Z) : M world (Z * option Z) := ok (as_bool (h1 =? h2)).
Definition ABT_task_get_id (h : Z) := with_task h (λ _ x, ok (t_id x)).
Definition ABT_task_get_arg (h : Z) := with_task h (λ _ x, ok (arg x)).
End thread.
