(* ===== verification/ThreadSpec.v ===== *)
(** * What thread operations guarantee

    Over the abstract pools of [PoolWorld]: a created ULT or tasklet is the
    newest unit of its pool; making a thread ready queues it where its migration
    request says and undoes the count that blocking took; thread-specific data
    behave as a map from keys to values, and a finished thread's destructors run
    once each, in key order. *)

From S2P Require Import Prelude AbtTypes Config Objects Storage PoolList Sleepers PoolMpsc Pool.
From S2P Require Import PoolWorld PoolApi ConfigApi Thread.

(** ** Vectors grown on assignment *)

Section put_at.
Context {A : Type} (d : A).
Implicit Types (v : list A) (i : Z).

Lemma put_at_length i x v :
  length (put_at d i x v) = (length v `max` S (Z.to_nat i))%nat.
Proof. unfold put_at. rewrite length_insert, length_app, length_replicate. lia. Qed.
Lemma put_at_same i x v : put_at d i x v !! Z.to_nat i = Some x.
Proof.
  unfold put_at. apply list_lookup_insert_eq. rewrite length_app, length_replicate. lia.
Qed.
Lemma put_at_other i (j : nat) x v :
  j ≠ Z.to_nat i → default d (put_at d i x v !! j) = default d (v !! j).
Proof.
  intros Hj. unfold put_at. rewrite list_lookup_insert_ne by done.
  destruct (decide (j < length v)%nat).
  - by rewrite lookup_app_l.
  - rewrite lookup_app_r, (lookup_ge_None_2 v) by lia.
    destruct (replicate _ d !! _) eqn:Hr; [|done]. apply lookup_replicate in Hr as [-> _]. done.
Qed.
End put_at.

Section spec.
Context `{E : Ext}.
Implicit Types (w : world) (V : gmap Z (list ptr)) (l : list ptr) (p q t k : ptr).

(** ** The heap of threads *)

(** Every thread lies below the allocation mark, so a new one is at a new address. *)
Definition threads_below w : Prop := ∀ t, is_Some (w_threads w !! t) → t < w_brk w.

(** A new thread, linked nowhere, changes no pool. *)
Lemma add_thread_holds w V t x :
  pools_hold w V → w_threads w !! t = None → in_pool x = false → removed x = false →
  pools_hold (w <| w_threads ::= insert t x |>) V.
Proof.
  intros (C & Hok & ->) Ht Hin Hrm. pose proof Hok as [WP WA WM WD WS WI WB WL].
  assert (∀ p c, C !! p = Some c → t ∉ c) as Hnot.
  { intros p c Hc Htc. destruct (WP p c Hc) as (o & _ & _ & Hr & _).
    destruct (proj2 (rep_of_members _ _ _ Hr) t Htc) as (y & Hy & _). simpl in Hy. congruence. }
  assert (∀ p c u, C !! p = Some c → u ∈ c → (<[t := x]> (w_threads w)) !! u = w_threads w !! u) as Hsame.
  { intros p c u Hc Hu. apply lookup_insert_ne. intros <-. by eapply Hnot. }
  assert (∀ p c, C !! p = Some c → units (<[t := x]> (w_threads w)) c = units (w_threads w) c) as Hun.
  { intros p c Hc. apply units_ext. intros u Hu. unfold is_removed. by erewrite Hsame. }
  exists C. split; [split; simpl; try done|].
  - intros p c Hc. destruct (WP p c Hc) as (o & Ho & Hus & Hr & Hn). exists o.
    erewrite Hun by done. split_and!; [done..| |done]. eapply rep_of_stable; [exact Hr|done|].
    intros u Hu. simpl. by erewrite Hsame.
  - intros p c u y Hc Hu Hy. erewrite Hsame in Hy by done. by eapply WS.
  - intros u y. destruct (decide (t = u)) as [<-|].
    + rewrite lookup_insert_eq. intros. by simplify_eq.
    + rewrite lookup_insert_ne by done. apply WI.
  - apply map_fmap_ext. intros p c Hc. symmetry. by eapply Hun.
Qed.

Lemma holds_rest w w' V :
  pools_hold w V → w_pools w' = w_pools w → w_threads w' = w_threads w → w_brk w ≤ w_brk w' →
  pools_hold w' V.
Proof.
  intros (C & [WP WA WM WD WS WI WB WL] & ->) Ep Et Eb. exists C. rewrite <-Et. split; [|done].
  split; rewrite ?Ep, ?Et; try done.
  - intros p c Hc. destruct (WP p c Hc) as (o & ? & ? & Hr & ?). exists o.
    split_and!; [done..| |done]. eapply rep_of_stable; [exact Hr|done|]. simpl. by rewrite Et.
  - intros p Hp. specialize (WB p Hp). lia.
  - lia.
Qed.

Lemma holds_ext w V e : pools_hold w V → pools_hold (w <| w_ext := e |>) V.
Proof. intros Hh. by eapply holds_rest. Qed.

(** A field of a thread that is queued nowhere is set. *)
Lemma set_idle_holds w V t x y :
  pools_hold w V → w_threads w !! t = Some x → in_pool x = false → queue_of y = queue_of x →
  pools_hold (w <| w_threads ::= insert t y |>) V.
Proof. intros Hh Hx Hin Hq. eapply holds_other; [exact Hh|]. by eapply other_fields_thread. Qed.

(** The fields of a thread other than its place in a queue. *)
Definition thread_is w t (x : ABTI_thread) : Prop :=
  erase_queue <$> w_threads w !! t = Some (erase_queue x).
Lemma framed_thread p w w' t x :
  world_frame p w w' → w_threads w !! t = Some x → thread_is w' t x.
Proof.
  intros F Hx. pose proof (f_equal (.!! t) (wf_threads _ _ _ F)) as Hf. simpl in Hf.
  rewrite !lookup_fmap, Hx in Hf. exact Hf.
Qed.

(** ** Making ready *)

(** Where a thread made ready goes. *)
Definition destination (x : ABTI_thread) : option ptr :=
  match migrate_to x with Some p => Some p | None => t_pool x end.
(** The pools once a thread counted as blocked is not any more. *)
Definition uncounted (x : ABTI_thread) (P : gmap Z ABTI_pool) : gmap Z ABTI_pool :=
  match blocked_pool x with
  | Some b => if blocked_counted x then alter (λ o, o <| num_blocked ::= Z.pred |>) b P else P
  | None => P
  end.
(** A thread counted as blocked is counted in a pool that exists. *)
Definition block_ok w (x : ABTI_thread) : Prop :=
  blocked_counted x = true → ∃ b o, blocked_pool x = Some b ∧ w_pools w !! b = Some o.

Lemma uncount_blocked_spec w V t x :
  pools_hold w V → w_threads w !! t = Some x → in_pool x = false → block_ok w x →
  wp (uncount_blocked t) (λ _ w', pools_hold w' V ∧
    w' = w <| w_threads ::= insert t (x <| blocked_counted := false |>) |>
           <| w_pools ::= uncounted x |>) w.
Proof.
  intros Hh Hx Hin Hb. unfold uncount_blocked. wp_step. eapply wp_thread; [done|]. wp_step.
  eapply wp_set_thread; [done|].
  assert (pools_hold (w <| w_threads ::= insert t (x <| blocked_counted := false |>) |>) V) as Hh1.
  { by eapply set_idle_holds. }
  unfold uncounted. apply wp_when; intros Hc.
  - destruct (Hb Hc) as (b & o & Hbp & Ho). rewrite Hbp, Hc.
    eapply wp_mono; [by eapply set_pool_holds|]. intros [] w1 [Hh2 ->]. split; [done|].
    unfold upd. cbn. f_equal. apply map_eq. intros i. destruct (decide (i = b)) as [->|].
    + by rewrite lookup_insert_eq, lookup_alter_eq, Ho.
    + by rewrite lookup_insert_ne, lookup_alter_ne.
  - split; [done|]. rewrite Hc. by destruct (blocked_pool x).
Qed.

(** What making [t] ready leaves alone: the other threads that are queued
    nowhere, and which Converse threads run which. *)
Record left_alone t w w' : Prop := {
  la_cth : cth <$> w_threads w' = cth <$> w_threads w;
  la_idle t' : t' ≠ t → idle_in (w_threads w) t' → w_threads w' !! t' = w_threads w !! t';
}.
Lemma la_refl t w w' : w_threads w' = w_threads w → left_alone t w w'.
Proof. intros Et. split; by rewrite Et. Qed.
Lemma la_trans t w1 w2 w3 : left_alone t w1 w2 → left_alone t w2 w3 → left_alone t w1 w3.
Proof.
  intros [C1 I1] [C2 I2]. split; [congruence|]. intros t' Hne Hid. rewrite I2; [by apply I1|done|].
  unfold idle_in. by rewrite I1.
Qed.
Lemma la_insert t w w' x y :
  w_threads w !! t = Some x → cth y = cth x → w_threads w' = <[t := y]> (w_threads w) → left_alone t w w'.
Proof.
  intros Hx Hc Et. split; rewrite Et.
  - rewrite fmap_insert, Hc. apply insert_id. by rewrite lookup_fmap, Hx.
  - intros t' Hne _. by rewrite lookup_insert_ne.
Qed.
Lemma la_frame t p w w' : world_frame p w w' →
  (∀ t', t' ≠ t → idle_in (w_threads w) t' → w_threads w' !! t' = w_threads w !! t') → left_alone t w w'.
Proof.
  intros F Hid. split; [|done]. pose proof (f_equal (fmap cth) (wf_threads _ _ _ F)) as Hc. by rewrite <-!map_fmap_compose in Hc.
Qed.

Lemma apply_migration_spec w V t x p l :
  pools_hold w V → w_threads w !! t = Some x → in_pool x = false → can_leave w x →
  destination x = Some p → V !! p = Some l →
  wp (apply_migration t) (λ _ w', pools_hold w' V ∧ w_pools w' = w_pools w ∧ w_log w' = w_log w ∧ left_alone t w w' ∧
    ∃ x', w_threads w' !! t = Some x' ∧ t_pool x' = Some p ∧ queue_of x' = queue_of x ∧
      migrate_to x' = None ∧ blocked_counted x' = blocked_counted x) w.
Proof.
  intros Hh Hx Hin Hlv Hd Hl. unfold apply_migration, destination in *. wp_step.
  eapply wp_thread; [done|]. destruct (migrate_to x) as [m|] eqn:Hm.
  2:{ wp_step. split_and!; [done..|by apply la_refl|]. by exists x. }
  simplify_eq. wp_step. eapply wp_set_thread; [done|].
  set (x1 := x <| migrate_to := None |>). set (w1 := w <| w_threads ::= insert t x1 |>).
  assert (pools_hold w1 V) as Hh1 by (by eapply set_idle_holds).
  assert (w_threads w1 !! t = Some x1) as Hx1 by apply lookup_insert_eq.
  assert (left_alone t w w1) as A1 by (by eapply (la_insert t w w1 x x1)).
  destruct (decide (t_pool x = Some p)) as [Hp|Hp].
  - unfold ABTI_pool_associate. wp_step. eapply wp_thread; [done|]. rewrite decide_True by done.
    wp_step. split_and!; [done..|]. by exists x1.
  - destruct (hold_inv _ _ _ _ Hh Hl) as (_ & _ & o & _ & _ & _ & _ & Ho & Hu & _).
    eapply wp_mono; [by eapply (associate_spec w1 t x1 p o)|]. intros [] w2 (F & El & Et).
    split_and!; [by eapply holds_other|by rewrite (ot_pools _ _ F)|done| |].
    { eapply la_trans; [exact A1|]. eapply la_insert; [exact Hx1| |exact Et]; done. }
    eexists. split_and!; [rewrite Et; apply lookup_insert_eq|done..].
Qed.

Lemma awaken_holds w V t x p l :
  pools_hold w V → w_threads w !! t = Some x → in_pool x = false → removed x = false →
  can_leave w x → block_ok w x → destination x = Some p → V !! p = Some l →
  wp (ABTI_thread_awaken_fn t) (λ _ w', pools_hold w' (<[p := PoolSpec.push t l]> V) ∧
    erase_store <$> w_pools w' = erase_store <$> uncounted x (w_pools w) ∧
    w_log w' = w_log w ++ pool_wakes (w <| w_pools ::= uncounted x |>) p ∧ left_alone t w w' ∧
    ∃ x', w_threads w' !! t = Some x' ∧ t_pool x' = Some p ∧ migrate_to x' = None ∧
      blocked_counted x' = false) w.
Proof.
  intros Hh Hx Hin Hrm Hlv Hb Hd Hl. unfold ABTI_thread_awaken_fn. wp_step.
  eapply wp_mono; [by eapply uncount_blocked_spec|]. intros [] w1 [Hh1 ->]. wp_step.
  set (x1 := x <| blocked_counted := false |>).
  eapply wp_mono; [eapply (apply_migration_spec _ V t x1 p l); [exact Hh1|apply lookup_insert_eq|done| |done..]|].
  { intros q Hq. destruct (Hlv q Hq) as (o & Ho & Hu). simpl. unfold uncounted.
    destruct (blocked_pool x) as [b|], (blocked_counted x); eauto.
    destruct (decide (b = q)) as [->|]; [rewrite lookup_alter_eq, Ho|rewrite lookup_alter_ne by done]; eauto. }
  intros [] w2 (Hh2 & Ep & El & A2 & x2 & Hx2 & Hp2 & Hq2 & Hm2 & Hb2). wp_step.
  eapply wp_thread; [done|]. rewrite Hp2. unfold queue_of in Hq2. simplify_eq/=.
  eapply wp_mono; [eapply (push_holds w2 V p l t x2); [done..|congruence|congruence|done]|].
  intros [] w3 (Hh3 & F & El3 & Hid3). split_and!; [done| | | |].
  - by rewrite (wf_pools _ _ _ F), Ep.
  - rewrite El3, El. unfold pool_wakes. by rewrite Ep.
  - eapply la_trans; [|eapply la_trans; [exact A2|by eapply la_frame]].
    eapply (la_insert t w _ x x1); done.
  - pose proof (framed_thread _ _ _ _ _ F Hx2) as Hf. unfold thread_is in Hf.
    destruct (w_threads w3 !! t) as [x3|]; [|done]. exists x3. simpl in Hf.
    apply (inj Some) in Hf. split_and!; [done|..].
    + rewrite <-Hp2. exact (f_equal t_pool Hf).
    + rewrite <-Hm2. exact (f_equal migrate_to Hf).
    + transitivity (blocked_counted x2); [exact (f_equal blocked_counted Hf)|done].
Qed.

(** ** Blocking *)

Lemma erased_blocked (P P' : gmap Z ABTI_pool) :
  erase_store <$> P' = erase_store <$> P → num_blocked <$> P' = num_blocked <$> P.
Proof.
  intros Heq. apply (f_equal (fmap num_blocked)) in Heq. by rewrite <-!map_fmap_compose in Heq.
Qed.

Lemma block_holds w V t x p o :
  pools_hold w V → w_threads w !! t = Some x → in_pool x = false →
  t_type x ≠ ABTI_THREAD_SCHED → t_pool x = Some p → w_pools w !! p = Some o →
  wp (ABTI_thread_block t) (λ _ w', pools_hold w' V ∧
    w' = w <| w_pools ::= insert p (o <| num_blocked ::= Z.succ |>) |>
      <| w_threads ::= insert t (x <| blocked_pool := Some p |> <| blocked_counted := true |>) |>) w.
Proof.
  intros Hh Hx Hin Hty Hp Ho. unfold ABTI_thread_block. wp_step. eapply wp_thread; [done|].
  rewrite decide_False by done. rewrite Hp. wp_step.
  eapply wp_mono; [by eapply set_pool_holds|]. intros [] w1 [Hh1 ->].
  eapply wp_set_thread; [done|]. split; [|done].
  by eapply set_idle_holds.
Qed.

Lemma migrate_to_pool_holds w V t x q l :
  pools_hold w V → V !! q = Some l → 256 ≤ t → w_threads w !! t = Some x → in_pool x = false →
  wp (ABT_thread_migrate_to_pool t q) (λ r w', r = (ABT_SUCCESS, None) ∧ pools_hold w' V ∧
    w' = w <| w_threads ::= insert t (x <| migrate_to := Some q |>) |>) w.
Proof.
  intros Hh Hl Ht Hx Hin. unfold ABT_thread_migrate_to_pool, with_thread.
  rewrite thread_handle_get by done. eapply wp_with_pool; [done..|]. wp_step.
  eapply wp_set_thread; [done|]. wp_step. split_and!; [done| |done].
  by eapply set_idle_holds.
Qed.

(** C35: a ULT that blocks, is asked to migrate to [q] while blocked, and is
    then made ready becomes the newest unit of [q], associated with it; while
    it is blocked its old pool counts one blocked unit more, and afterwards
    every pool's count is what it was. *)
Theorem block_migrate_awaken w V t x p q l :
  pools_hold w V → V !! q = Some l → 256 ≤ t →
  w_threads w !! t = Some x → in_pool x = false → removed x = false →
  t_type x ≠ ABTI_THREAD_SCHED → t_pool x = Some p → can_leave w x →
  wp (ABTI_thread_block t) (λ _ w', num_blocked <$> w_pools w' =
    alter Z.succ p (num_blocked <$> w_pools w)) w ∧
  wp (ABTI_thread_block t ;; ABT_thread_migrate_to_pool t q ;; ABTI_thread_awaken_fn t)
    (λ _ w', pools_hold w' (<[q := l ++ [t]]> V) ∧
      num_blocked <$> w_pools w' = num_blocked <$> w_pools w ∧
      ∃ x', w_threads w' !! t = Some x' ∧ t_pool x' = Some q ∧ migrate_to x' = None ∧
        blocked_counted x' = false) w.
Proof.
  intros Hh Hl Ht Hx Hin Hrm Hty Hp Hlv. destruct (Hlv p Hp) as (o & Ho & Hu). split.
  { eapply wp_mono; [by eapply block_holds|]. intros [] w1 [_ ->]. simpl.
    rewrite fmap_insert. apply map_eq. intros i. destruct (decide (i = p)) as [->|].
    - by rewrite lookup_insert_eq, lookup_alter_eq, lookup_fmap, Ho.
    - by rewrite lookup_insert_ne, lookup_alter_ne. }
  wp_step. eapply wp_mono; [by eapply block_holds|]. intros [] w1 [Hh1 ->]. wp_step.
  eapply wp_mono; [eapply migrate_to_pool_holds; [done..|apply lookup_insert_eq|done]|].
  intros r w2 (_ & Hh2 & ->).
  eapply wp_mono; [eapply (awaken_holds _ V t _ q l); [done|apply lookup_insert_eq|done|done| | |done|done]|].
  - intros p' Hp'. simpl in *. simplify_eq. rewrite lookup_insert_eq. by eexists.
  - intros _. do 2 eexists. split; [done|]. apply lookup_insert_eq.
  - intros [] w3 (Hh3 & Ep & _ & _ & Hx3). split_and!; [done| |done].
    apply erased_blocked in Ep. rewrite Ep. unfold uncounted. simpl. apply map_eq. intros i.
    rewrite !lookup_fmap. destruct (decide (i = p)) as [->|].
    + rewrite lookup_alter_eq, lookup_insert_eq, Ho. simpl. f_equal. lia.
    + by rewrite lookup_alter_ne, lookup_insert_ne.
Qed.

(** ** Creation *)

(** [put_thread] at a new address, with the pools as they were. *)
Lemma put_thread_holds w V x :
  pools_hold w V → threads_below w → in_pool x = false → removed x = false →
  wp (put_thread x) (λ t w', t = w_brk w ∧ 256 ≤ t ∧ pools_hold w' V ∧ threads_below w' ∧
    w' = w <| w_brk ::= Z.succ |> <| w_threads ::= insert t x |>) w.
Proof.
  intros Hh Hb Hin Hrm. unfold put_thread. wp_step. unfold wp at 1, new_addr. wp_step. wp_step. wp_step.
  assert (256 ≤ w_brk w) by (destruct Hh as (C & Hok & _); by eapply wo_brk_low).
  split_and!; [done..| | |done].
  - apply add_thread_holds; [|simpl|done..].
    + eapply holds_rest; [exact Hh|done|done|simpl; lia].
    + apply eq_None_not_Some. intros ?%Hb. lia.
  - intros t [y Hy]. simpl in *. destruct (decide (w_brk w = t)) as [->|]; [lia|].
    rewrite lookup_insert_ne in Hy by done. specialize (Hb t ltac:(by eexists)). lia.
Qed.

(** A new thread object joins a pool, and is pushed. *)
Lemma associate_new_holds w V p l t x :
  pools_hold w V → V !! p = Some l → w_threads w !! t = Some x → in_pool x = false →
  t_pool x = None →
  wp (ABTI_pool_associate t p) (λ _ w', pools_hold w' V ∧ w_pools w' = w_pools w ∧ w_log w' = w_log w ∧
    w_threads w' !! t = Some (x <| t_unit := ABT_UNIT_NULL |> <| t_pool := Some p |>)) w.
Proof.
  intros Hh Hl Hx Hin Hn.
  destruct (hold_inv _ _ _ _ Hh Hl) as (_ & _ & o & _ & _ & _ & _ & Ho & Hu & _).
  eapply wp_mono; [eapply (associate_spec w t x p o); [done..| |done|done|congruence]|].
  { intros r Hr. congruence. }
  intros [] w1 (F & El & Et). split_and!; [by eapply holds_other|apply F|done|].
  rewrite Et. apply lookup_insert_eq.
Qed.
Lemma push_new_holds w V p l t x :
  pools_hold w V → V !! p = Some l → w_threads w !! t = Some x → in_pool x = false →
  removed x = false → t_pool x = Some p →
  wp (push p t) (λ _ w', pools_hold w' (<[p := l ++ [t]]> V) ∧ thread_is w' t x ∧
    w_log w' = w_log w ++ pool_wakes w p) w.
Proof.
  intros. eapply wp_mono; [by eapply push_holds|]. intros [] w' (? & ? & ? & _).
  split_and!; [done| |done]. by eapply framed_thread.
Qed.

Lemma queue_of_cth x c : queue_of (x <| cth := c |>) = queue_of x.
Proof. done. Qed.

(** Awakening a thread that is neither counted as blocked nor migrating is a push. *)
Lemma awaken_plain w t x p :
  w_threads w !! t = Some x → blocked_counted x = false → migrate_to x = None → t_pool x = Some p →
  ABTI_thread_awaken_fn t w = push p t w.
Proof.
  intros Hx Hb Hm Hp.
  assert (w <| w_threads ::= insert t (x <| blocked_counted := false |>) |> = w) as Hid.
  { destruct w, x. unfold upd in *. simpl in *. subst. by rewrite insert_id. }
  unfold ABTI_thread_awaken_fn, uncount_blocked, apply_migration, thread, set_thread, mbind, M_bind.
  rewrite Hx. cbv beta iota. rewrite Hx, Hb. cbv beta iota. rewrite Hid.
  unfold when, mret, M_ret. cbv beta iota. rewrite Hx. cbv beta iota. rewrite Hm.
  cbv beta iota. rewrite Hx. cbv beta iota. by rewrite Hp.
Qed.

Lemma wp_eq {A} (m m' : M world A) Q w : m w = m' w → wp m' Q w → wp m Q w.
Proof. unfold wp. by intros ->. Qed.
Lemma wp_check_init {A} w (k : M world (Z * option A)) Q :
  g_initialized w = true → wp k Q w → wp (check_init k) Q w.
Proof. intros Hi Hk. unfold check_init. wp_step. wp_step. rewrite Hi. done. Qed.

(** Creating a tasklet makes one new unit, the newest of the pool: it is
    ready, stackless, carries the function and argument given and a new id, and
    the caller gets its handle when it asked for one; idle consumers are woken
    as for any push. *)
Theorem task_create_appends w V p l f a named :
  g_initialized w = true → pools_hold w V → V !! p = Some l → threads_below w →
  wp (ABT_task_create p f a named) (λ r w',
    r = (ABT_SUCCESS, if named then Some (w_brk w) else None) ∧
    pools_hold w' (<[p := l ++ [w_brk w]]> V) ∧
    thread_is w' (w_brk w) (new_thread named f a (default_attr ABT_TRUE) (g_next_id w) true
      <| tstate := CTH_STATE_READY |> <| t_pool := Some p |>) ∧
    w_log w' = w_log w ++ pool_wakes w p) w.
Proof.
  intros Hi Hh Hl Hb. apply wp_check_init; [done|]. eapply wp_with_pool; [done..|].
  wp_step. unfold fetch_id, wp at 1. wp_step.
  eapply wp_mono; [apply (put_thread_holds _ V); [eapply holds_rest; [exact Hh|done..]|done..]|].
  intros t w1 (-> & Hge & Hh1 & _ & ->). wp_step.
  eapply wp_mono; [eapply associate_new_holds; [done|done|apply lookup_insert_eq|done..]|].
  intros [] w2 (Hh2 & Ep2 & El2 & Hx2). wp_step.
  eapply wp_mono; [by eapply push_new_holds|]. intros [] w3 (Hh3 & Hx3 & El3).
  assert (w_log w3 = w_log w ++ pool_wakes w p) as Elog.
  { rewrite El3, El2. unfold pool_wakes. by rewrite Ep2. }
  destruct named; wp_step; done.
Qed.

(** The stack size a ULT is created with: the attribute's, or the default when it is 0. *)
Definition effective_stacksize w (a : ABTI_thread_attr) : Z :=
  if stacksize a =? 0 then g_default_stacksize w else stacksize a.
(** The attributes a handle stands for; the null handle means the default ones. *)
Definition attr_of w (h : Z) (a : ABTI_thread_attr) : Prop :=
  match ABTI_attr_get h with
  | Some q => w_attrs w !! q = Some a
  | None => a = default_attr ABT_TRUE
  end.

(** What creating a ULT leaves alone. *)
Definition beside w : gmap Z ABTI_thread_attr * gmap Z ABTI_sched * bool := (w_attrs w, w_scheds w, g_initialized w).
Lemma beside_on_pool {A} p (m : M pst A) : preserves beside (on_pool p m).
Proof. intros w. unfold wlp, on_pool. destruct (w_pools w !! p); [|done]. by destruct (m _). Qed.
Lemma beside_ext {A} (f : ext_st → A * ext_st) : preserves beside (ext f).
Proof. intros w. unfold wlp, ext. by destruct (f _). Qed.
Lemma beside_attr a : preserves beside (attr a).
Proof. intros w. unfold wlp, attr. by destruct (_ !! a). Qed.
Lemma beside_new_addr : preserves beside new_addr.
Proof. by intros w. Qed.
Lemma beside_fetch_id : preserves beside fetch_id.
Proof. by intros w. Qed.
#[local] Hint Resolve beside_on_pool beside_ext beside_attr beside_new_addr beside_fetch_id : frame.
Lemma associate_beside t p : preserves beside (ABTI_pool_associate t p).
Proof. unfold ABTI_pool_associate, ABTI_pool_disassociate, pool_def, callee. solve_preserves. Qed.
Lemma awaken_beside t : preserves beside (ABTI_thread_awaken_fn t).
Proof.
  pose proof associate_beside.
  unfold ABTI_thread_awaken_fn, uncount_blocked, apply_migration, push, user_push, pool_def, callee. solve_preserves.
Qed.
Lemma create_beside h f a at_ named task : preserves beside (thread_create_impl h f a at_ named task).
Proof.
  pose proof associate_beside. pose proof awaken_beside.
  unfold thread_create_impl, check_init, with_pool, put_thread. solve_preserves.
Qed.

Lemma thread_create_holds w V p l f a at_ x named :
  g_initialized w = true → pools_hold w V → V !! p = Some l → threads_below w → attr_of w at_ x →
  wp (ABT_thread_create p f a at_ named) (λ r w',
    r = (ABT_SUCCESS, if named then Some (w_brk w) else None) ∧
    pools_hold w' (<[p := l ++ [w_brk w]]> V) ∧
    thread_is w' (w_brk w) (new_thread named f a x (g_next_id w) false
      <| cth := Some (CthCreate (w_brk w) (wraps32 (effective_stacksize w x)) (w_ext w)).1 |>
      <| t_pool := Some p |>) ∧
    w_log w' = w_log w ++ pool_wakes w p) w.
Proof.
  intros Hi Hh Hl Hb Ha. apply wp_check_init; [done|]. eapply wp_with_pool; [done..|]. wp_step.
  apply wp_mono with (Q := λ y w', y = x ∧ w' = w).
  { unfold attr_of in Ha. destruct (ABTI_attr_get at_) as [q|]; [|by wp_step].
    unfold wp, attr. by rewrite Ha. }
  intros y w0 [-> ->]. wp_step. unfold fetch_id, wp at 1. wp_step.
  eapply wp_mono; [apply (put_thread_holds _ V); [eapply holds_rest; [exact Hh|done..]|done..]|].
  intros t w1 (Ht & _ & Hh1 & _ & Hw1). change (t = w_brk w) in Ht. subst t.
  assert (w_threads w1 !! w_brk w = Some (new_thread named f a x (g_next_id w) false)) as Hx1
    by (rewrite Hw1; apply lookup_insert_eq).
  assert (g_default_stacksize w1 = g_default_stacksize w ∧ w_ext w1 = w_ext w ∧ w_log w1 = w_log w ∧
    w_pools w1 = w_pools w) as (Ed & Ee & El & Ep) by (by rewrite Hw1).
  clear Hw1. wp_step. wp_step. wp_step. apply wp_ext. wp_step.
  rewrite Ed, Ee. fold (effective_stacksize w x). generalize (wraps32 (effective_stacksize w x)) as n. intros n.
  eapply wp_set_thread; [exact Hx1|]. wp_step.
  apply (holds_ext _ _ (CthCreate (w_brk w) n (w_ext w)).2) in Hh1.
  eapply wp_mono; [eapply (associate_new_holds _ V); [|done|apply lookup_insert_eq|done..]|].
  { eapply set_idle_holds; [exact Hh1|exact Hx1|done|apply queue_of_cth]. }
  intros [] w2 (Hh2 & Ep2 & El2 & Hx2). wp_step. eapply wp_eq; [by eapply awaken_plain|].
  eapply wp_mono; [by eapply push_new_holds|]. intros [] w3 (Hh3 & Hx3 & El3).
  assert (w_log w3 = w_log w ++ pool_wakes w p) as Elog.
  { rewrite El3, El2. unfold pool_wakes. rewrite Ep2. cbn. by rewrite El, Ep. }
  destruct named; wp_step; done.
Qed.

(** Creating a ULT makes one new unit, the newest of the pool, backed by
    a Converse thread whose stack size is the attribute's or the default one;
    it carries the function, argument and attributes given and a new id.  No
    scheduler and no attribute object changes. *)
Theorem thread_create_appends w V p l f a at_ x named :
  g_initialized w = true → pools_hold w V → V !! p = Some l → threads_below w → attr_of w at_ x →
  wp (ABT_thread_create p f a at_ named) (λ r w', beside w' = beside w ∧
    r = (ABT_SUCCESS, if named then Some (w_brk w) else None) ∧
    pools_hold w' (<[p := l ++ [w_brk w]]> V) ∧
    thread_is w' (w_brk w) (new_thread named f a x (g_next_id w) false
      <| cth := Some (CthCreate (w_brk w) (wraps32 (effective_stacksize w x)) (w_ext w)).1 |>
      <| t_pool := Some p |>) ∧
    w_log w' = w_log w ++ pool_wakes w p) w.
Proof. intros. apply preserves_wp; [apply create_beside|by apply thread_create_holds]. Qed.

(** The attributes of the runtime's own ULTs live while one is created. *)
Lemma create_internal_holds w V p l f a size :
  g_initialized w = true → pools_hold w V → V !! p = Some l → threads_below w →
  wp (ABTI_thread_create_internal p f a size) (λ r w', r = ABT_SUCCESS ∧
    w_scheds w' = w_scheds w ∧ w_attrs w' = delete (w_brk w) (w_attrs w) ∧
    pools_hold w' (<[p := l ++ [w_brk w + 1]]> V) ∧ ∃ c e, c = (CthCreate (w_brk w + 1) (wraps32 (effective_stacksize w (mk_attr size None ABT_TRUE))) e).1 ∧
    thread_is w' (w_brk w + 1) (new_thread false f a (mk_attr size None ABT_TRUE) (g_next_id w) false
      <| cth := Some c |> <| t_pool := Some p |>)) w.
Proof.
  intros Hi Hh Hl Hb. assert (256 ≤ w_brk w) as Hlow by (destruct Hh as (C & Hok & _); apply (wo_brk_low _ _ Hok)).
  unfold ABTI_thread_create_internal, ABT_thread_attr_create, put_attr. wp_step. wp_step. wp_step. unfold wp at 1, new_addr.
  wp_step. wp_step. wp_step. wp_step. cbn [snd fst]. wp_step. unfold ABT_thread_attr_set_stacksize, with_attr, ABTI_attr_get.
  rewrite live_handle by done. wp_step. unfold set_attr. wp_step. unfold wp at 1, attr. simpl. rewrite lookup_insert_eq. wp_step. wp_step. wp_step.
  set (w1 := w <| w_brk ::= Z.succ |> <| w_attrs ::= insert (w_brk w) (default_attr ABT_TRUE) |>
    <| w_attrs ::= insert (w_brk w) (default_attr ABT_TRUE <| stacksize := size |>) |>).
  eapply wp_mono; [apply (preserves_wp beside); [apply create_beside|eapply (thread_create_holds w1 V p l f a (w_brk w) (mk_attr size None ABT_TRUE) false)]|].
  - done.
  - eapply holds_rest; [exact Hh|done|done|simpl; lia].
  - done.
  - intros t Ht. apply Hb in Ht. simpl. lia.
  - unfold attr_of, ABTI_attr_get. rewrite live_handle by done. simpl. apply lookup_insert_eq.
  - intros r w2 (Hbe & -> & Hh2 & Hx & _). injection Hbe as Ea Es Ei. unfold ABT_thread_attr_free, with_attr, ABTI_attr_get.
    rewrite live_handle by done. wp_step. wp_step. unfold wp at 1, attr. rewrite Ea. simpl. rewrite lookup_insert_eq.
    wp_step. wp_step. wp_step. wp_step. split_and!; [done|by simpl; rewrite Es| | |].
    + simpl. rewrite Ea. simpl. by rewrite !delete_insert_eq.
    + eapply holds_rest; [exact Hh2|done|done|simpl; lia].
    + eexists _, _. split; [reflexivity|]. exact Hx.
Qed.

(** ** Thread-specific data *)

(** The value a thread has under a key id. *)
Definition value_at (x : ABTI_thread) (i : Z) : Z := default 0 (t_keys x !! Z.to_nat i).
(** A key handle and the key it stands for. *)
Definition key_at w k (o : ABTI_key) : Prop := 256 ≤ k ∧ w_keys w !! k = Some o ∧ 0 ≤ k_id o.

Lemma key_handle_get k : 256 ≤ k → ABTI_key_get k = Some k.
Proof. intros. by apply thread_handle_get. Qed.
Lemma wp_key k o Q w : w_keys w !! k = Some o → Q o w → wp (key k) Q w.
Proof. unfold wp, key. by intros ->. Qed.

Lemma set_specific_spec w t x k o v :
  256 ≤ t → w_threads w !! t = Some x → key_at w k o →
  wp (ABT_thread_set_specific t k v) (λ r w', r = (ABT_SUCCESS, None) ∧
    w' = w <| w_threads ::= insert t (x <| t_keys ::= put_at 0 (k_id o) v |>) |>) w.
Proof.
  intros Ht Hx (Hk & Ho & _). unfold ABT_thread_set_specific, with_thread, with_key.
  rewrite thread_handle_get, key_handle_get by done. wp_step. eapply wp_key; [done|]. wp_step.
  eapply wp_set_thread; [done|]. by wp_step.
Qed.
Lemma get_specific_spec w t x k o :
  256 ≤ t → w_threads w !! t = Some x → key_at w k o →
  wp (ABT_thread_get_specific t k) (λ r w', r = (ABT_SUCCESS, Some (value_at x (k_id o))) ∧ w' = w) w.
Proof.
  intros Ht Hx (Hk & Ho & _). unfold ABT_thread_get_specific, with_thread, with_key.
  rewrite thread_handle_get, key_handle_get by done. wp_step. eapply wp_key; [done|]. wp_step.
  eapply wp_thread; [done|]. by wp_step.
Qed.

(** A value set under a key is the value read back under it, for that
    thread, through the thread's handle or by the thread itself; every other key
    of the thread keeps its value, and no other thread is changed. *)
Theorem key_set_get w t x k o k' o' v :
  256 ≤ t → w_threads w !! t = Some x → key_at w k o → key_at w k' o' →
  wp (ABT_key_set (mk_ctx true (Some t)) k v) (λ r w', r = (ABT_SUCCESS, None) ∧
    result (ABT_thread_get_specific t k') w' =
      Some (ABT_SUCCESS, Some (if decide (k_id o' = k_id o) then v else value_at x (k_id o'))) ∧
    ABT_key_get (mk_ctx true (Some t)) k' w' = ABT_thread_get_specific t k' w' ∧
    ∀ t', t' ≠ t → w_threads w' !! t' = w_threads w !! t') w.
Proof.
  intros Ht Hx Hk Hk'. pose proof Hk as (_ & _ & Hi). pose proof Hk' as (_ & _ & Hi').
  eapply wp_mono; [by eapply set_specific_spec|]. intros r w' [-> ->]. split_and!; [done| |done|].
  - apply wp_result. eapply wp_mono; [eapply get_specific_spec; [done|apply lookup_insert_eq|done]|].
    intros r w' [-> _]. do 2 f_equal. unfold value_at. case_decide as Hd.
    + cbn. rewrite Hd. by rewrite put_at_same.
    + cbn. apply put_at_other. lia.
  - intros t' Hne. cbn. by apply lookup_insert_ne.
Qed.

(** What the destructors of the values [vals], under keys [i] on, make of the
    outside world: each non-null value's destructor called on it, in key order. *)
Fixpoint destroyed (dtors : list (option Z)) (i : nat) (vals : list Z) (e : ext_st) : ext_st :=
  match vals with
  | [] => e
  | v :: vals => destroyed dtors (S i) vals
      (match (if v =? 0 then None else dtors !! i ≫= id) with Some d => call_key_dtor d v e | None => e end)
  end.

Lemma destroy_keys_spec vals : ∀ done w t x,
  w_threads w !! t = Some x → t_keys x = done ++ vals →
  wp (destroy_keys t (length done) vals) (λ _ w',
    w' = w <| w_threads ::= insert t (x <| t_keys := done ++ replicate (length vals) 0 |>) |>
           <| w_ext := destroyed (g_key_dtors w) (length done) vals (w_ext w) |>) w.
Proof.
  induction vals as [|v vals IH]; intros dn w t x Hx Hv; cbn [destroy_keys].
  { wp_step. destruct w, x. unfold upd in *. simpl in *. subst. by rewrite insert_id. }
  set (x1 := x <| t_keys := dn ++ 0 :: vals |>).
  set (e1 := match (if v =? 0 then None else g_key_dtors w !! length dn ≫= id) with
    Some d => call_key_dtor d v (w_ext w) | None => w_ext w end).
  wp_step.
  apply wp_mono with (Q := λ _ w', w' = w <| w_threads ::= insert t x1 |> <| w_ext := e1 |>).
  { destruct (Z.eqb_spec v 0) as [->|Hv0].
    { wp_step. destruct w, x. unfold upd in *. simpl in *. subst. by rewrite insert_id. }
    wp_step. unfold key_dtor. wp_step. wp_step. eapply wp_set_thread; [done|].
    assert (x <| t_keys ::= insert (length dn) 0 |> = x1) as ->.
    { destruct x. unfold x1, upd. simpl in *. subst.
      rewrite insert_app_r_alt, Nat.sub_diag by lia. done. }
    unfold e1. destruct (g_key_dtors w !! length dn ≫= id); [apply wp_ext_|wp_step]; by destruct w. }
  intros [] w1 ->.
  specialize (IH (dn ++ [0]) (w <| w_threads ::= insert t x1 |> <| w_ext := e1 |>) t x1).
  rewrite length_app, Nat.add_1_r in IH. eapply wp_mono; [apply IH|].
  - apply lookup_insert_eq.
  - cbn. by rewrite <-app_assoc.
  - intros [] w' ->. destruct w. unfold upd. cbn. rewrite insert_insert_eq, <-app_assoc. done.
Qed.

Lemma destroyed_nulls dtors vals : ∀ i e, Forall (λ v, v = 0) vals → destroyed dtors i vals e = e.
Proof.
  induction vals as [|v vals IH]; intros i e Hz; [done|].
  apply Forall_cons in Hz as [-> Hz]. by apply IH.
Qed.

(** When a thread ends, the destructor of each key with a non-null value
    is called once, on that value, in the order the keys were created, and every
    value is null afterwards, so a second run calls nothing. *)
Theorem key_destructors_run_once w t x :
  w_threads w !! t = Some x →
  wp (run_key_destructors t) (λ _ w',
    w_ext w' = destroyed (g_key_dtors w) 0 (t_keys x) (w_ext w) ∧
    (∃ x', w_threads w' !! t = Some x' ∧ Forall (λ v, v = 0) (t_keys x')) ∧
    wp (run_key_destructors t) (λ _ w'', w_ext w'' = w_ext w') w') w.
Proof.
  intros Hx. unfold run_key_destructors at 1. wp_step. eapply wp_thread; [done|].
  eapply wp_mono; [by apply (destroy_keys_spec (t_keys x) [])|]. intros [] w' ->. cbn.
  assert (Forall (λ v, v = 0) (replicate (length (t_keys x)) 0)) as Hz by by apply Forall_replicate.
  split_and!; [done| |].
  - eexists. split; [apply lookup_insert_eq|]. exact Hz.
  - unfold run_key_destructors. wp_step. eapply wp_thread; [apply lookup_insert_eq|].
    eapply wp_mono; [eapply (destroy_keys_spec _ []); [apply lookup_insert_eq|done]|].
    intros [] w'' ->. cbn. by apply destroyed_nulls.
Qed.

(** Keys created one after the other have different ids, and the
    destructor run for a key is the one it was created with. *)
Theorem key_create_fresh w d :
  g_initialized w = true → 0 ≤ g_next_key w → 256 ≤ w_brk w →
  wp (ABT_key_create d) (λ r w', ∃ k, r = (ABT_SUCCESS, Some k) ∧
    key_at w' k (mk_key d (g_next_key w)) ∧ g_next_key w' = g_next_key w + 1 ∧
    g_key_dtors w' !! Z.to_nat (g_next_key w) = Some d ∧
    ∀ i, i ≠ Z.to_nat (g_next_key w) →
      default None (g_key_dtors w' !! i) = default None (g_key_dtors w !! i)) w.
Proof.
  intros Hi Hn Hb. apply wp_check_init; [done|]. wp_step. unfold wp at 1, new_addr. wp_step. wp_step.
  wp_step. wp_step. wp_step. eexists. split_and!; [done| | | |].
  - split_and!; [done|cbn; apply lookup_insert_eq|done].
  - cbn. lia.
  - cbn. apply put_at_same.
  - intros i Hne. cbn. by apply put_at_other.
Qed.
End spec.
