(* ===== verification/ThreadJoin.v ===== *)
(** * Joining, freeing and terminating threads

    [ABTI_thread_join_impl], [ABT_thread_join], [ABT_thread_free] and
    [ABTI_thread_terminated] of src/thread.cpp on a machine that interleaves
    them.  A step is one look at [terminated], one critical section of [jm], one
    wake-up, or the last part of a call.  The critical section in which a thread
    terminates is two steps, because joiners read [terminated] without the lock.
    The awakening of a joiner is the step that ends its suspension; what its
    awaken callback does to the [world] then ([ABTI_thread_awaken_fn]: uncount,
    migrate, push) is one of the steps of the rest of the program, which may do
    that to any thread at any time, and is modelled with the termination itself in
    [Run] ([awaken_all]).  The rules of use of [tstep]: no call on a thread overlaps
    a free of it, and only the termination of the joined thread awakens a joiner.
    Agents are Converse threads; an agent's own ABT thread, if it has one, is
    given with it. *)

From S2P Require Import Prelude AbtTypes Config Objects Storage PoolList Sleepers PoolMpsc Pool.
From S2P Require Import Sched Sync Thread.

(** Where an agent is in a join of [t]; [fr]: the one of [ABT_thread_free].
    [TIdle r]: outside, [r] is what the last call returned. *)
Inductive tpoint : Type :=
  | TIdle (ret : option Z)
  | TStart (t : ptr) (fr : bool)
  | TCheck (t : ptr) (fr : bool)
  | TBlocked (t : ptr) (fr : bool)
  | TSpin (t : ptr) (fr : bool)
  | TDestroy (t : ptr).
Definition ttarget (p : tpoint) : option (ptr * bool) :=
  match p with
  | TIdle _ => None
  | TStart t fr | TCheck t fr | TBlocked t fr | TSpin t fr => Some (t, fr)
  | TDestroy t => Some (t, true)
  end.
(** What the end of a thread has still to do. *)
Inductive tend : Type :=
  | EMark
  | ETake
  | EWake (js : list Z)
  | ERetire.

Record tst `{Ext, Cth} : Type := mk_tst {
  tw : world;
  tcth : cth_st;
  (** each agent: its ABT thread and its point *)
  tcalls : gmap Z (option ptr * tpoint);
  ending : gmap Z tend;
}.
Arguments tst {_ _}.

Section tjoin.
Context `{E : Ext, C : Cth}.
#[global] Instance eta_tst : Eta tst := λ j, mk_tst _ _ (tw j) (tcth j) (tcalls j) (ending j).

Definition on_world {A} (m : M world A) : M tst A := λ j,
  match m (tw j) with Done v w => Done v (j <| tw := w |>) | Faulted f => Faulted f end.

(** ** The calls *)

(** [ABT_thread_join] and [ABT_thread_free] up to the join *)
Definition named (h : Z) (k : ptr → tpoint) : M world tpoint :=
  w ← get;
  if negb (g_initialized w) then mret (TIdle (Some ABT_ERR_UNINITIALIZED)) else
  match ABTI_thread_get h with
  | None => mret (TIdle (Some ABT_ERR_INV_THREAD))
  | Some t =>
      x ← thread t;
      mret (if decide (t_type x = ABTI_THREAD_NAMED) then k t else TIdle (Some ABT_ERR_INV_THREAD))
  end.
Definition ABT_thread_join (h : Z) : M world tpoint := named h (λ t, TStart t false).
(** [addr]: where the handle [h] is stored *)
Definition ABT_thread_free (addr h : Z) (self : option ptr) : M world tpoint :=
  named (if ABTI_is_null_handle addr then ABT_THREAD_NULL else h)
    (λ t, if decide (self = Some t) then TIdle (Some ABT_ERR_INV_THREAD) else TStart t true).
(** the same of a tasklet *)
Definition of_task (h : Z) (k : M world tpoint) : M world tpoint :=
  match ABTI_thread_get h with
  | None => mret (TIdle (Some ABT_ERR_INV_TASK))
  | Some t => x ← thread t; if is_task x then k else mret (TIdle (Some ABT_ERR_INV_TASK))
  end.
Definition ABT_task_join (h : Z) : M world tpoint := of_task h (ABT_thread_join h).
Definition ABT_task_free (addr h : Z) (self : option ptr) : M world tpoint :=
  if ABTI_is_null_handle addr then mret (TIdle (Some ABT_ERR_INV_TASK)) else of_task h (ABT_thread_free addr h self).

Definition after_join (t : ptr) (fr : bool) : tpoint := if fr then TDestroy t else TIdle (Some ABT_SUCCESS).
Definition self_can_block (self : option ptr) : M world bool :=
  match self with Some s => x ← thread s; mret (can_block (Some x)) | None => mret false end.
(** [pe]: is the caller on a PE *)
Definition tjoin_step (pe : bool) (self : option ptr) (a : Z) (p : tpoint) : M tst tpoint :=
  match p with
  | TIdle r => mret (TIdle r)
  | TStart t fr =>
      x ← on_world (thread t);
      if terminated x then mret (after_join t fr) else
      if decide (self = Some t) then mret (TIdle (Some ABT_ERR_INV_THREAD)) else
      b ← on_world (self_can_block self);
      mret (if (b : bool) then TCheck t fr else TSpin t fr)
  | TCheck t fr =>
      x ← on_world (thread t);
      if terminated x then mret (after_join t fr) else
      on_world (set_thread t (λ x, x <| t_joiners ::= λ l, l ++ [a] |>)) ;;
      on_world (s ← deref self; ABTI_thread_block s) ;;
      modify (λ j, j <| tcth ::= CthSuspendBlocked a |>) ;;
      mret (TBlocked t fr)
  | TBlocked t fr => mret (after_join t fr)
  | TSpin t fr => x ← on_world (thread t); mret (if terminated x then after_join t fr else TSpin t fr)
  | TDestroy t => on_world (ABTI_thread_destroy (mk_ctx pe self) t) ;; mret (TIdle (Some ABT_SUCCESS))
  end.
(** A held [jm] and a suspension hold an agent up. *)
Definition tenabled (a : Z) (p : tpoint) (j : tst) : bool :=
  match p with
  | TIdle _ => false
  | TCheck t _ => match ending j !! t with Some ETake => false | _ => true end
  | TBlocked _ _ => negb (is_blocked a (tcth j))
  | _ => true
  end.

(** ** The end of a thread *)

(** [ABTI_thread_terminated] in its parts *)
Definition term_mark (t : ptr) : M world unit := set_thread t (λ x, x <| terminated := true |>).
Definition term_take (t : ptr) : M world (list Z) :=
  x ← thread t; set_thread t (λ x, x <| t_joiners := [] |>) ;; mret (t_joiners x).
Definition term_retire (t : ptr) : M world unit :=
  x ← thread t;
  when (bool_decide (t_type x = ABTI_THREAD_DETACHED)) (ABTI_pool_disassociate t ;; ABTI_thread_release t).
Definition end_step (t : ptr) (e : tend) : M tst (option tend) :=
  match e with
  | EMark => on_world (term_mark t) ;; mret (Some ETake)
  | ETake => l ← on_world (term_take t); mret (Some (EWake l))
  | EWake (a :: l) => modify (λ j, j <| tcth ::= CthAwakenIfBlocked a |>) ;; mret (Some (EWake l))
  | EWake [] => mret (Some ERetire)
  | ERetire => on_world (term_retire t) ;; mret None
  end.

(** ** Steps *)

Definition same_join (x x' : ABTI_thread) : Prop :=
  terminated x' = terminated x ∧ t_joiners x' = t_joiners x ∧ t_type x' = t_type x.
Definition tunused (t : ptr) (j : tst) : Prop := ∀ a s p fr, tcalls j !! a = Some (s, p) → ttarget p ≠ Some (t, fr).
Definition tunfreed (t : ptr) (j : tst) : Prop := ∀ a s p, tcalls j !! a = Some (s, p) → ttarget p ≠ Some (t, true).
(** The rest of the program: it may change threads except how they are joined,
    create threads nobody has joined yet, and free threads that no call and no
    termination is using. *)
Record trely (j : tst) (w : world) : Prop := {
  tr_kept t x : w_threads (tw j) !! t = Some x → (¬ tunused t j ∨ is_Some (ending j !! t)) → is_Some (w_threads w !! t);
  tr_same t x x' : w_threads (tw j) !! t = Some x → w_threads w !! t = Some x' → same_join x x';
  tr_new t x' : w_threads (tw j) !! t = None → w_threads w !! t = Some x' →
    t_joiners x' = [] ∧ terminated x' = false ∧ ending j !! t = None;
}.
Inductive tstep (j : tst) : tst → Prop :=
  | tstep_env w : trely j w → tstep j (j <| tw := w |>)
  | tstep_join a s ret h m p : tcalls j !! a = Some (s, TIdle ret) →
      (∀ t, ABTI_thread_get h = Some t → tunfreed t j) →
      m ∈ [ABT_thread_join h; ABT_task_join h] → m (tw j) = Done p (tw j) →
      tstep j (j <| tcalls ::= insert a (s, p) |>)
  | tstep_free a s ret addr h m p : tcalls j !! a = Some (s, TIdle ret) →
      (∀ t, ABTI_thread_get h = Some t → tunused t j) →
      m ∈ [ABT_thread_free addr h s; ABT_task_free addr h s] → m (tw j) = Done p (tw j) →
      tstep j (j <| tcalls ::= insert a (s, p) |>)
  | tstep_call pe a s p p' j' : tcalls j !! a = Some (s, p) → tenabled a p j = true →
      tjoin_step pe s a p j = Done p' j' → tstep j (j' <| tcalls ::= insert a (s, p') |>)
  (** the function of [t] has returned *)
  | tstep_end t x : w_threads (tw j) !! t = Some x → terminated x = false → ending j !! t = None →
      tstep j (j <| ending ::= insert t EMark |>)
  | tstep_ending t e e' j' : ending j !! t = Some e → end_step t e j = Done e' j' →
      tstep j (j' <| ending ::= partial_alter (λ _, e') t |>).
Inductive tsteps (j0 : tst) : tst → Prop :=
  | tsteps_refl : tsteps j0 j0
  | tsteps_step j j' : tsteps j0 j → tstep j j' → tsteps j0 j'.
End tjoin.

(** ** Several at once

    [join h] and [free h] are what a call of [ABT_thread_join] and of
    [ABT_thread_free] does until it returns; the second gives the new value of the
    variable with the handle.  The list is the caller's array. *)
Section many.
Context {St : Type} (join : Z → M St Z) (free : Z → M St (Z * Z)).
Fixpoint ABT_thread_join_many (thread_list : list Z) : M St Z :=
  match thread_list with
  | [] => mret ABT_SUCCESS
  | h :: l => r ← join h; if negb (r =? ABT_SUCCESS) then mret r else ABT_thread_join_many l
  end.
Fixpoint ABT_thread_free_many (thread_list : list Z) : M St (Z * list Z) :=
  match thread_list with
  | [] => mret (ABT_SUCCESS, [])
  | h :: l =>
      r ← free h;
      if negb (r.1 =? ABT_SUCCESS) then mret (r.1, r.2 :: l) else
      rs ← ABT_thread_free_many l; mret (rs.1, r.2 :: rs.2)
  end.

(** Success means that each call succeeded; an error comes from the first that failed. *)
Lemma join_many_calls P l s : (∀ h s, h ∈ l → P s → wp (join h) (λ _ s', P s') s) → P s →
  wp (ABT_thread_join_many l) (λ r s', P s' ∧ (r = ABT_SUCCESS ∨ r ≠ ABT_SUCCESS ∧ ∃ h s1 s2, h ∈ l ∧ P s1 ∧ join h s1 = Done r s2)) s.
Proof.
  revert s. induction l as [|h l IH]; intros s Hj Hs; cbn [ABT_thread_join_many]; [by wp_step; auto|]. wp_step.
  destruct (wp_elim _ _ _ (Hj h s (list_elem_of_here _ _) Hs)) as (r & s1 & Hr & Hs1). eapply wp_intro; [exact Hr|]. destruct (Z.eqb_spec r ABT_SUCCESS) as [->|Hne]; simpl.
  - eapply wp_mono; [apply IH; [set_solver|done]|]. intros r s2 [? [?|(? & h' & ? & ? & ? & ?)]]; [by auto|]. split; [done|]. right. split; [done|]. exists h'. set_solver.
  - wp_step. split; [done|]. right. split; [done|]. exists h, s, s1. set_solver.
Qed.
(** The handles of the threads that were freed are null, the others untouched. *)
Lemma free_many_nulls l s : (∀ h s, wp (free h) (λ r _, r = (ABT_SUCCESS, ABT_THREAD_NULL) ∨ r.1 ≠ ABT_SUCCESS ∧ r.2 = h) s) →
  wp (ABT_thread_free_many l) (λ r _, ∃ n, (n ≤ length l)%nat ∧ r.2 = replicate n ABT_THREAD_NULL ++ drop n l ∧ (r.1 = ABT_SUCCESS ↔ n = length l)) s.
Proof.
  intros Hf. revert s. induction l as [|h l IH]; intros s; cbn [ABT_thread_free_many]; [wp_step; by exists 0%nat|]. wp_step.
  eapply wp_mono; [apply Hf|]. intros r s1 [->|[Hr Hv]]; simpl.
  - wp_step. eapply wp_mono; [apply IH|]. intros rs s2 (n & Hn & Hl & Hi). wp_step. exists (S n). simpl. rewrite Hl. split_and!; [lia|done|]. rewrite Hi. split; lia.
  - destruct (Z.eqb_spec r.1 ABT_SUCCESS); [done|]. simpl. wp_step. exists 0%nat. simpl. rewrite Hv. split_and!; [lia|done|]. done.
Qed.
End many.
