(* ===== verification/ThreadSafe.v ===== *)
(** * Joins of threads are safe

    The invariant of the machine of [ThreadJoin]: a joiner returns only after
    the thread terminated, no joiner is forgotten, a thread is destroyed only
    when it has terminated.  It holds for every interleaving; what a
    termination does with a thread that is freed under it is in
    [ThreadExamples]. *)

From S2P Require Import Prelude AbtTypes Config Objects Storage PoolList Sleepers PoolMpsc Pool.
From S2P Require Import Sched Sync Thread ThreadJoin.

(** What joins see of a thread. *)
Record joinable : Type := mk_joinable {
  jn_done : bool;
  jn_joiners : list Z;
  jn_type : ABTI_thread_type;
}.
Definition joinable_of (x : ABTI_thread) : joinable := mk_joinable (terminated x) (t_joiners x) (t_type x).

Section tsafe.
Context `{E : Ext, C : Cth} {HC : CthLaws}.
Implicit Types (j : tst) (w : world) (t : ptr) (s : option ptr) (a b : Z) (p q : tpoint) (x : ABTI_thread) (n : joinable).

Definition jview w : gmap Z joinable := joinable_of <$> w_threads w.
Lemma jview_lookup w t x : w_threads w !! t = Some x → jview w !! t = Some (joinable_of x).
Proof. intros Hx. unfold jview. by rewrite lookup_fmap, Hx. Qed.
Lemma jview_Some w t n : jview w !! t = Some n → ∃ x, w_threads w !! t = Some x ∧ n = joinable_of x.
Proof. unfold jview. rewrite lookup_fmap, fmap_Some. naive_solver. Qed.
Lemma jview_insert w t x : jview (w <| w_threads ::= insert t x |>) = <[t := joinable_of x]> (jview w).
Proof. unfold jview. simpl. apply fmap_insert. Qed.

(** ** What the calls do to that *)

Lemma set_thread_view t f : (∀ x, joinable_of (f x) = joinable_of x) → preserves jview (set_thread t f).
Proof.
  intros Hf. apply preserves_set_thread. intros w x Hx. rewrite jview_insert, Hf. apply insert_id. by apply jview_lookup.
Qed.
#[local] Hint Extern 1 (preserves jview (set_thread _ _)) => (by apply set_thread_view) : frame.

Lemma disassociate_view t : preserves jview (ABTI_pool_disassociate t).
Proof. unfold ABTI_pool_disassociate, pool_def, callee. solve_preserves. Qed.
Lemma block_view (s : ptr) : preserves jview (ABTI_thread_block s).
Proof. unfold ABTI_thread_block. solve_preserves. Qed.
Lemma can_block_view (self : option ptr) : preserves jview (self_can_block self).
Proof. unfold self_can_block. solve_preserves. Qed.

Lemma release_view t w : wlp (ABTI_thread_release t) (λ _ w', jview w' = delete t (jview w)) w.
Proof.
  unfold ABTI_thread_release. apply wlp_bind. unfold wlp at 1, thread. destruct (_ !! t); [|done]. apply wlp_modify.
  unfold jview. simpl. apply fmap_delete.
Qed.
Lemma destroy_view ctx t w : wlp (ABTI_thread_destroy ctx t) (λ _ w', jview w' = delete t (jview w)) w.
Proof.
  unfold ABTI_thread_destroy. apply wlp_bind. eapply wlp_mono; [apply disassociate_view|]. intros [] w1 E1.
  apply wlp_bind. eapply wlp_mono; [apply (preserves_thread jview)|]. intros x w2 E2. apply wlp_bind.
  assert (preserves jview match cth x with Some c => when (on_pe ctx) (ext_ (CthFree c)) | None => mret tt end) as Hh by solve_preserves.
  eapply wlp_mono; [apply Hh|]. intros [] w3 E3. eapply wlp_mono; [apply release_view|]. intros [] w4 E4. congruence.
Qed.
Lemma mark_view t w : wlp (term_mark t) (λ _ w', ∃ n, jview w !! t = Some n ∧
  jview w' = <[t := mk_joinable true (jn_joiners n) (jn_type n)]> (jview w)) w.
Proof.
  unfold term_mark, wlp, set_thread. destruct (w_threads w !! t) as [x|] eqn:Hx; [|done].
  exists (joinable_of x). split; [by apply jview_lookup|]. by rewrite jview_insert.
Qed.
Lemma take_view t w : wlp (term_take t) (λ l w', ∃ n, jview w !! t = Some n ∧ l = jn_joiners n ∧
  jview w' = <[t := mk_joinable (jn_done n) [] (jn_type n)]> (jview w)) w.
Proof.
  unfold term_take. apply wlp_bind. unfold wlp at 1, thread. destruct (w_threads w !! t) as [x|] eqn:Hx; [|done].
  apply wlp_bind. unfold wlp at 1, set_thread. rewrite Hx. apply wlp_ret.
  exists (joinable_of x). split; [by apply jview_lookup|]. by rewrite jview_insert.
Qed.
Lemma retire_view t w : wlp (term_retire t) (λ _ w', ∃ n, jview w !! t = Some n ∧
  jview w' = if decide (jn_type n = ABTI_THREAD_DETACHED) then delete t (jview w) else jview w) w.
Proof.
  unfold term_retire. apply wlp_bind. unfold wlp at 1, thread. destruct (w_threads w !! t) as [x|] eqn:Hx; [|done].
  unfold when. simpl. case_bool_decide as Hd.
  - apply wlp_bind. eapply wlp_mono; [apply disassociate_view|]. intros [] w1 E1.
    eapply wlp_mono; [apply release_view|]. intros [] w2 E2. exists (joinable_of x). split; [by apply jview_lookup|].
    by rewrite decide_True, E2, E1.
  - apply wlp_ret. exists (joinable_of x). split; [by apply jview_lookup|]. by rewrite decide_False.
Qed.

(** ** The invariant *)

Definition seen j t : option joinable := jview (tw j) !! t.
Definition asleep j a t : Prop := is_blocked a (tcth j) = true ∧ ∃ s fr, tcalls j !! a = Some (s, TBlocked t fr).
Definition is_done j t : Prop := ∃ n, seen j t = Some n ∧ jn_done n = true.
(** [a] is in the list of [t], or in the list its termination is awakening. *)
Definition expected j a t : Prop := ∃ n, seen j t = Some n ∧
  (a ∈ jn_joiners n ∧ (jn_done n = true → ending j !! t = Some ETake) ∨
   jn_done n = true ∧ ∃ l, ending j !! t = Some (EWake l) ∧ a ∈ l).
Record tinv j : Prop := {
  ti_live a s p t fr : tcalls j !! a = Some (s, p) → ttarget p = Some (t, fr) →
    ∃ n, seen j t = Some n ∧ jn_type n = ABTI_THREAD_NAMED;
  ti_alone a b s s' p q t fr : a ≠ b → tcalls j !! a = Some (s, p) → tcalls j !! b = Some (s', q) →
    ttarget p = Some (t, true) → ttarget q ≠ Some (t, fr);
  ti_blocked a s t fr : tcalls j !! a = Some (s, TBlocked t fr) →
    if is_blocked a (tcth j) then expected j a t else is_done j t;
  ti_destroy a s t : tcalls j !! a = Some (s, TDestroy t) → is_done j t;
  ti_list t n : seen j t = Some n → NoDup (jn_joiners n) ∧ ∀ a, a ∈ jn_joiners n → asleep j a t;
  ti_wake t l : ending j !! t = Some (EWake l) → NoDup l ∧ ∀ a, a ∈ l → asleep j a t;
  ti_end t e n : ending j !! t = Some e → seen j t = Some n →
    jn_done n = match e with EMark => false | _ => true end;
  ti_quiet t n : seen j t = Some n → jn_done n = true → ending j !! t ≠ Some ETake → jn_joiners n = [];
}.

Lemma asleep_other j a t s p : asleep j a t → tcalls j !! a = Some (s, p) → ∃ fr, p = TBlocked t fr.
Proof. intros (_ & s' & fr & Ha) Hp. exists fr. congruence. Qed.

(** ** Steps of agents *)

Lemma same_inv j j' : (∀ t, seen j' t = seen j t) → tcth j' = tcth j → tcalls j' = tcalls j → ending j' = ending j →
  tinv j → tinv j'.
Proof.
  intros Hs E1 E2 E3 [T1 T2 T3 T4 T5 T6 T7 T8].
  assert (∀ t, is_done j t → is_done j' t) as Hd by (intros t (n & ? & ?); exists n; by rewrite Hs).
  assert (∀ a t, expected j a t → expected j' a t) as Hx.
  { intros a t (n & ? & ?). exists n. by rewrite Hs, E3. }
  assert (∀ a t, asleep j a t → asleep j' a t) as Ha by (intros a t; unfold asleep; by rewrite E1, E2).
  split.
  - intros a s p t fr. rewrite E2, Hs. apply T1.
  - intros a b s s' p q t fr. rewrite E2. apply T2.
  - intros a s t fr. rewrite E1, E2. intros Hc. specialize (T3 _ _ _ _ Hc). destruct (is_blocked _ _); auto.
  - intros a s t. rewrite E2. intros Hc. eauto.
  - intros t n. rewrite Hs. intros Hn. destruct (T5 t n Hn). split; auto.
  - intros t l. rewrite E3. intros Hl. destruct (T6 t l Hl). split; auto.
  - intros t e n. rewrite E3, Hs. apply T7.
  - intros t n. rewrite E3, Hs. apply T8.
Qed.
Lemma view_inv j w : jview w = jview (tw j) → tinv j → tinv (j <| tw := w |>).
Proof. intros Hv. apply same_inv; try done. intros t. unfold seen. simpl. by rewrite Hv. Qed.

(** Only agent [a] moves on; it is not asleep. *)
Lemma move_inv j a s p p' : tcalls j !! a = Some (s, p) → (∀ t, ¬ asleep j a t) → (∀ t fr, p' ≠ TBlocked t fr) →
  (∀ t fr, ttarget p' = Some (t, fr) → (∃ n, seen j t = Some n ∧ jn_type n = ABTI_THREAD_NAMED) ∧
    ∀ b s' q f, b ≠ a → tcalls j !! b = Some (s', q) → fr || f = true → ttarget q ≠ Some (t, f)) →
  (∀ t, p' = TDestroy t → is_done j t) → tinv j → tinv (j <| tcalls ::= insert a (s, p') |>).
Proof.
  intros Ha Hna Hnb Ht Hd [T1 T2 T3 T4 T5 T6 T7 T8]. set (j' := j <| tcalls ::= _ |>).
  assert (∀ b, tcalls j' !! b = if decide (a = b) then Some (s, p') else tcalls j !! b) as Hc
    by (intros b; simpl; by rewrite lookup_insert).
  assert (∀ b t, asleep j b t → asleep j' b t) as Has.
  { intros b t Hb. pose proof Hb as (Hbl & s' & fr & Hcb). split; [done|]. exists s', fr. rewrite Hc.
    destruct (decide (a = b)) as [<-|]; [by apply Hna in Hb|done]. }
  split; try done.
  - intros b s' q t fr. rewrite Hc. destruct (decide (a = b)) as [<-|]; [|by apply T1].
    intros [= <- <-] Hq. by apply Ht in Hq as [? _].
  - intros b c s1 s2 q1 q2 t fr Hne. rewrite !Hc.
    destruct (decide (a = b)) as [<-|Hab], (decide (a = c)) as [<-|Hac]; [done| | |by apply T2].
    + intros [= <- <-] Hq2 Hq1. apply Ht in Hq1 as [_ Hq1]. by eapply (Hq1 c).
    + intros Hq1 [= <- <-] Htt Hq2. apply Ht in Hq2 as [_ Hq2]. eapply (Hq2 b _ _ true); try done. apply orb_true_r.
  - intros b s' t fr. rewrite Hc. destruct (decide (a = b)) as [<-|]; [|by apply T3].
    intros [= <- Hp]. by apply Hnb in Hp.
  - intros b s' t. rewrite Hc. destruct (decide (a = b)) as [<-|]; [|by apply T4]. intros [= <- Hp]. by apply Hd.
  - intros t n Hn. destruct (T5 t n Hn) as [? Hl]. split; [done|]. auto.
  - intros t l Hl. destruct (T6 t l Hl) as [? Hw]. split; [done|]. auto.
Qed.
(** The usual case: the call goes on or ends. *)
Lemma advance_inv j a s p p' : tcalls j !! a = Some (s, p) → (∀ t fr, p = TBlocked t fr → is_blocked a (tcth j) = false) →
  (∀ t fr, p' ≠ TBlocked t fr) → ttarget p' = None ∨ ttarget p' = ttarget p →
  (∀ t, p' = TDestroy t → is_done j t) → tinv j → tinv (j <| tcalls ::= insert a (s, p') |>).
Proof.
  intros Ha Hb Hnb Htt Hd HJ. eapply move_inv; try done.
  - intros t Hs. pose proof Hs as [Hbl _]. destruct (asleep_other _ _ _ _ _ Hs Ha) as [fr ->].
    specialize (Hb t fr eq_refl). congruence.
  - intros t fr Ht. destruct Htt as [Htt|Htt]; [congruence|]. rewrite Htt in Ht. split; [by eapply ti_live|].
    intros b s' q f Hne Hq Hor Hqt. destruct fr.
    + by eapply (ti_alone _ HJ a b).
    + simpl in Hor. subst f. by eapply (ti_alone _ HJ b a).
Qed.
Lemma after_join_cases t fr : (∀ t' fr', after_join t fr ≠ TBlocked t' fr') ∧
  (ttarget (after_join t fr) = None ∨ ttarget (after_join t fr) = Some (t, fr)) ∧
  ∀ t', after_join t fr = TDestroy t' → t' = t.
Proof. destruct fr; split_and!; naive_solver. Qed.
Lemma joined_inv j a s p t fr : tcalls j !! a = Some (s, p) → ttarget p = Some (t, fr) →
  (∀ t fr, p = TBlocked t fr → is_blocked a (tcth j) = false) → is_done j t →
  tinv j → tinv (j <| tcalls ::= insert a (s, after_join t fr) |>).
Proof.
  intros Ha Ht Hb Hd HJ. destruct (after_join_cases t fr) as (H1 & H2 & H3).
  eapply advance_inv; try done; [by rewrite Ht|]. by intros t' ->%H3.
Qed.

(** Agent [a] enters the list of [t] and sleeps. *)
Lemma tblock_inv j a s t fr n w : tcalls j !! a = Some (s, TCheck t fr) → seen j t = Some n → jn_done n = false →
  jview w = <[t := mk_joinable false (jn_joiners n ++ [a]) (jn_type n)]> (jview (tw j)) →
  tinv j → tinv (j <| tw := w |> <| tcth ::= CthSuspendBlocked a |> <| tcalls ::= insert a (s, TBlocked t fr) |>).
Proof.
  intros Ha Hn Hnd Hv HJ. pose proof HJ as [T1 T2 T3 T4 T5 T6 T7 T8]. set (j' := _ <| tcalls ::= _ |>).
  assert (∀ b, tcalls j' !! b = if decide (a = b) then Some (s, TBlocked t fr) else tcalls j !! b) as Hc
    by (intros b; simpl; by rewrite lookup_insert).
  assert (∀ t', seen j' t' = if decide (t = t') then Some (mk_joinable false (jn_joiners n ++ [a]) (jn_type n)) else seen j t') as Hs
    by (intros t'; unfold seen at 1; simpl; by rewrite Hv, lookup_insert).
  assert (is_blocked a (tcth j') = true) as Hba by apply suspend_blocks.
  assert (∀ b, a ≠ b → is_blocked b (tcth j') = is_blocked b (tcth j)) as Hbo by (intros; by apply suspend_other).
  assert (∀ t', ¬ asleep j a t') as Hna.
  { intros t' Hsl. destruct (asleep_other _ _ _ _ _ Hsl Ha) as [f Hf]. done. }
  assert (∀ b t', asleep j b t' → asleep j' b t') as Has.
  { intros b t' Hb. pose proof Hb as (Hbl & s' & f & Hcb). destruct (decide (a = b)) as [<-|Hne]; [by apply Hna in Hb|].
    split; [by rewrite Hbo|]. exists s', f. by rewrite Hc, decide_False. }
  assert (∀ t', is_done j t' → is_done j' t') as Hdn.
  { intros t' (n' & Hn' & Hd). exists n'. rewrite Hs. destruct (decide (t = t')) as [->|]; [congruence|done]. }
  assert (∀ b t', a ≠ b → expected j b t' → expected j' b t') as Hex.
  { intros b t' Hne (n' & Hn' & Hor). unfold expected. rewrite Hs. destruct (decide (t = t')) as [->|].
    - assert (n' = n) as -> by congruence. eexists. split; [done|]. left. simpl. split; [|done].
      destruct Hor as [[Hin _]|[? _]]; [|congruence]. apply elem_of_app. by left.
    - by exists n'. }
  split.
  - intros b s' q t' f. rewrite Hc, Hs. assert (∃ n0, seen j t = Some n0 ∧ jn_type n0 = ABTI_THREAD_NAMED) as (n0 & Hn0 & Hty)
      by (eapply T1; [exact Ha|done]). assert (n0 = n) as -> by congruence.
    destruct (decide (t = t')) as [->|Hnt]; [intros; eexists; split; [done|exact Hty]|].
    destruct (decide (a = b)) as [<-|]; [intros [= <- <-] Hq; simpl in Hq; congruence|]. by apply T1.
  - intros b c s1 s2 q1 q2 t' f Hne. rewrite !Hc. destruct (decide (a = b)) as [<-|], (decide (a = c)) as [<-|]; [done| | |by apply T2].
    + intros [= <- <-] Hq2 Hq1. eapply (T2 a c); [done..|]. exact Hq1.
    + intros Hq1 [= <- <-] Htt Hq2. by eapply (T2 b a).
  - intros b s' t' f. rewrite Hc. destruct (decide (a = b)) as [<-|Hne].
    + intros [= <- <- <-]. rewrite Hba. unfold expected. rewrite Hs, decide_True by done. eexists. split; [done|]. left.
      split; [|done]. simpl. apply elem_of_app. right. by left.
    + intros Hb. rewrite (Hbo b Hne). specialize (T3 _ _ _ _ Hb). destruct (is_blocked b (tcth j)); auto.
  - intros b s' t'. rewrite Hc. destruct (decide (a = b)) as [<-|]; [done|]. eauto.
  - intros t' n'. rewrite Hs. destruct (decide (t = t')) as [<-|]; [|intros Hn'; destruct (T5 _ _ Hn'); split; auto].
    intros [= <-]. simpl. destruct (T5 t n Hn) as [Hnd' Hl]. split.
    + apply NoDup_app. split_and!; [done| |apply NoDup_singleton]. intros b Hb ->%list_elem_of_singleton. by apply Hl, Hna in Hb.
    + intros b [Hb|Hb]%elem_of_app; [by apply Has, Hl|]. apply list_elem_of_singleton in Hb as ->. split; [done|].
      exists s, fr. by rewrite Hc, decide_True.
  - intros t' l Hl. destruct (T6 t' l Hl) as [? Hw]. split; auto.
  - intros t' e n' He. rewrite Hs. destruct (decide (t = t')) as [<-|]; [|by apply T7]. intros [= <-]. simpl.
    pose proof (T7 t e n He Hn) as H7. by rewrite Hnd in H7.
  - intros t' n'. rewrite Hs. destruct (decide (t = t')) as [<-|]; [by intros [= <-]|]. by apply T8.
Qed.

(** The thread is gone and the call over. *)
Lemma destroyed_inv j a s t w ret : tcalls j !! a = Some (s, TDestroy t) → jview w = delete t (jview (tw j)) →
  tinv j → tinv (j <| tw := w |> <| tcalls ::= insert a (s, TIdle ret) |>).
Proof.
  intros Ha Hv HJ. pose proof HJ as [T1 T2 T3 T4 T5 T6 T7 T8]. set (j' := _ <| tcalls ::= _ |>).
  assert (∀ b, tcalls j' !! b = if decide (a = b) then Some (s, TIdle ret) else tcalls j !! b) as Hc
    by (intros b; simpl; by rewrite lookup_insert).
  assert (∀ t', seen j' t' = if decide (t = t') then None else seen j t') as Hs
    by (intros t'; unfold seen at 1; simpl; by rewrite Hv, lookup_delete).
  assert (∀ b s' q f, a ≠ b → tcalls j !! b = Some (s', q) → ttarget q ≠ Some (t, f)) as Hal
    by (intros b s' q f Hne Hq; by eapply (T2 a b)).
  assert (∀ b s' q t' f, a ≠ b → tcalls j !! b = Some (s', q) → ttarget q = Some (t', f) → seen j' t' = seen j t') as Hsq.
  { intros b s' q t' f Hne Hq Htt. rewrite Hs. destruct (decide (t = t')) as [<-|]; [|done]. exfalso. by eapply Hal. }
  assert (∀ b t', asleep j b t' → asleep j' b t') as Has.
  { intros b t' Hb. pose proof Hb as (Hbl & s' & f & Hcb). split; [done|]. exists s', f. rewrite Hc.
    destruct (decide (a = b)) as [<-|]; [congruence|done]. }
  split.
  - intros b s' q t' f. rewrite Hc. destruct (decide (a = b)) as [<-|Hne]; [by intros [= <- <-]|]. intros Hq Htt.
    rewrite (Hsq b s' q t' f) by done. by eapply T1.
  - intros b c s1 s2 q1 q2 t' f Hne. rewrite !Hc.
    destruct (decide (a = b)) as [<-|], (decide (a = c)) as [<-|]; [done|by intros [= <- <-]|by intros _ [= <- <-]|by apply T2].
  - intros b s' t' f. rewrite Hc. destruct (decide (a = b)) as [<-|Hne]; [done|]. intros Hb. specialize (T3 _ _ _ _ Hb).
    pose proof (Hsq b s' _ t' f Hne Hb eq_refl) as Hst. change (tcth j') with (tcth j).
    destruct (is_blocked b (tcth j)); destruct T3 as (n & ? & ?); exists n; by rewrite Hst.
  - intros b s' t'. rewrite Hc. destruct (decide (a = b)) as [<-|Hne]; [done|]. intros Hb.
    pose proof (Hsq b s' _ t' true Hne Hb eq_refl) as Hst. destruct (T4 _ _ _ Hb) as (n & ? & ?). exists n. by rewrite Hst.
  - intros t' n. rewrite Hs. destruct (decide (t = t')); [done|]. intros Hn. destruct (T5 t' n Hn). split; auto.
  - intros t' l Hl. destruct (T6 t' l Hl). split; auto.
  - intros t' e n He. rewrite Hs. destruct (decide (t = t')); [done|]. by apply T7.
  - intros t' n. rewrite Hs. destruct (decide (t = t')); [done|]. by apply T8.
Qed.

(** ** Steps of terminating threads *)

(** What is expected of [t] and of the agents waiting for it changes, no more. *)
Lemma ending_inv j j' t n n' : tcalls j' = tcalls j → tcth j' = tcth j →
  (∀ t', t' ≠ t → ending j' !! t' = ending j !! t') → (∀ t', t' ≠ t → seen j' t' = seen j t') →
  seen j t = Some n → seen j' t = Some n' → jn_type n' = jn_type n → (jn_done n = true → jn_done n' = true) →
  (∀ a, expected j a t → expected j' a t) →
  NoDup (jn_joiners n') ∧ (∀ a, a ∈ jn_joiners n' → asleep j a t) →
  (∀ l, ending j' !! t = Some (EWake l) → NoDup l ∧ ∀ a, a ∈ l → asleep j a t) →
  (∀ e, ending j' !! t = Some e → jn_done n' = match e with EMark => false | _ => true end) →
  (jn_done n' = true → ending j' !! t ≠ Some ETake → jn_joiners n' = []) →
  tinv j → tinv j'.
Proof.
  intros Ec Eb He Hs Hn Hn' Hty Hdn Hex Hl Hw Hd Hq [T1 T2 T3 T4 T5 T6 T7 T8].
  assert (∀ b t', asleep j b t' → asleep j' b t') as Has by (intros b t'; unfold asleep; by rewrite Ec, Eb).
  assert (∀ t', is_done j t' → is_done j' t') as Hdone.
  { intros t' (m & Hm & Hmd). destruct (decide (t' = t)) as [->|]; [|exists m; by rewrite Hs].
    exists n'. split; [done|]. apply Hdn. congruence. }
  assert (∀ b t', expected j b t' → expected j' b t') as Hexp.
  { intros b t' Hb. destruct (decide (t' = t)) as [->|]; [by apply Hex|]. destruct Hb as (m & Hm & Hor).
    exists m. by rewrite Hs, He. }
  split.
  - intros b s p t' f. rewrite Ec. intros Hb Htt. destruct (T1 _ _ _ _ _ Hb Htt) as (m & Hm & Hmt).
    destruct (decide (t' = t)) as [->|]; [|exists m; by rewrite Hs]. exists n'. split; [done|]. congruence.
  - intros b c s1 s2 q1 q2 t' f. rewrite Ec. apply T2.
  - intros b s t' f. rewrite Ec, Eb. intros Hb. specialize (T3 _ _ _ _ Hb). destruct (is_blocked b (tcth j)); auto.
  - intros b s t'. rewrite Ec. eauto.
  - intros t' m Hm. destruct (decide (t' = t)) as [->|Hne].
    + assert (m = n') as -> by congruence. destruct Hl as [? Hl]. split; auto.
    + rewrite Hs in Hm by done. destruct (T5 _ _ Hm). split; auto.
  - intros t' l Hll. destruct (decide (t' = t)) as [->|Hne].
    + destruct (Hw _ Hll). split; auto.
    + rewrite He in Hll by done. destruct (T6 _ _ Hll). split; auto.
  - intros t' e m Hee Hm. destruct (decide (t' = t)) as [->|Hne].
    + assert (m = n') as -> by congruence. by apply Hd.
    + rewrite He in Hee by done. rewrite Hs in Hm by done. by eapply T7.
  - intros t' m Hm. destruct (decide (t' = t)) as [->|Hne].
    + assert (m = n') as -> by congruence. done.
    + rewrite Hs in Hm by done. rewrite He by done. by apply T8.
Qed.
(** Nobody is left waiting for [t]. *)
Lemma rest_inv j t e' : ending j !! t = Some (EWake []) ∧ e' = Some ERetire ∨ ending j !! t = Some ERetire ∧ e' = None →
  tinv j → tinv (j <| ending ::= partial_alter (λ _, e') t |>).
Proof.
  intros He [T1 T2 T3 T4 T5 T6 T7 T8]. set (j' := j <| ending ::= _ |>).
  assert (ending j' !! t = e') as Het by apply lookup_partial_alter_eq.
  assert (∀ t', t' ≠ t → ending j' !! t' = ending j !! t') as Heo by (intros; by apply lookup_partial_alter_ne).
  assert (∀ n, seen j t = Some n → jn_done n = true) as Hd.
  { intros n Hn. destruct He as [[He _]|[He _]]; exact (T7 t _ n He Hn). }
  assert (∀ a t', expected j a t' → expected j' a t') as Hex.
  { intros a t' (n & Hn & Hor). destruct (decide (t' = t)) as [->|]; [|exists n; by rewrite Heo].
    exfalso. destruct Hor as [[_ Hx]|(_ & l & Hl & Hin)]; [specialize (Hx (Hd n Hn)); naive_solver|].
    destruct He as [[He _]|[He _]]; rewrite He in Hl; simplify_eq. by apply elem_of_nil in Hin. }
  split; try done.
  - intros a s t' fr Ha. specialize (T3 _ _ _ _ Ha). change (tcth j') with (tcth j). destruct (is_blocked a (tcth j)); auto.
  - intros t' l Hl. destruct (decide (t' = t)) as [->|]; [|rewrite Heo in Hl by done; by apply T6]. naive_solver.
  - intros t' e n Hee Hn. destruct (decide (t' = t)) as [->|]; [|rewrite Heo in Hee by done; by eapply T7].
    rewrite (Hd n Hn). naive_solver.
  - intros t' n Hn Hdn Hne. destruct (decide (t' = t)) as [->|]; [|rewrite Heo in Hne by done; by apply (T8 t')].
    apply (T8 t n Hn Hdn). naive_solver.
Qed.
(** A thread that no call is on is freed. *)
Lemma dropped_inv j t w : jview w = delete t (jview (tw j)) → tunused t j → tinv j → tinv (j <| tw := w |>).
Proof.
  intros Hv Hun [T1 T2 T3 T4 T5 T6 T7 T8]. set (j' := j <| tw := w |>).
  assert (∀ t', seen j' t' = if decide (t = t') then None else seen j t') as Hs
    by (intros t'; unfold seen at 1; simpl; by rewrite Hv, lookup_delete).
  assert (∀ a s p t' fr, tcalls j !! a = Some (s, p) → ttarget p = Some (t', fr) → seen j' t' = seen j t') as Hst.
  { intros a s p t' fr Ha Ht. rewrite Hs. destruct (decide (t = t')) as [<-|]; [|done]. exfalso. by eapply Hun. }
  split; try done.
  - intros a s p t' fr Ha Ht. rewrite (Hst _ _ _ _ _ Ha Ht). by eapply T1.
  - intros a s t' fr Ha. specialize (T3 _ _ _ _ Ha). change (tcth j') with (tcth j). pose proof (Hst _ _ _ t' fr Ha eq_refl) as Est.
    destruct (is_blocked a (tcth j)); destruct T3 as (n & ? & ?); exists n; by rewrite Est.
  - intros a s t' Ha. destruct (T4 _ _ _ Ha) as (n & ? & ?). exists n. by rewrite (Hst _ _ _ t' true Ha).
  - intros t' n. rewrite Hs. destruct (decide (t = t')); [done|]. apply T5.
  - intros t' e n He. rewrite Hs. destruct (decide (t = t')); [done|]. by apply T7.
  - intros t' n. rewrite Hs. destruct (decide (t = t')); [done|]. by apply T8.
Qed.
(** One joiner is awakened. *)
Lemma twoken_inv j t a l : ending j !! t = Some (EWake (a :: l)) →
  tinv j → tinv (j <| tcth ::= CthAwakenIfBlocked a |> <| ending ::= partial_alter (λ _, Some (EWake l)) t |>).
Proof.
  intros He HJ. pose proof HJ as [T1 T2 T3 T4 T5 T6 T7 T8]. set (j' := _ <| ending ::= _ |>).
  assert (ending j' !! t = Some (EWake l)) as Het by apply lookup_partial_alter_eq.
  assert (∀ t', t' ≠ t → ending j' !! t' = ending j !! t') as Heo by (intros; by apply lookup_partial_alter_ne).
  assert (is_blocked a (tcth j') = false) as Hba by apply awaken_runs.
  assert (∀ b, a ≠ b → is_blocked b (tcth j') = is_blocked b (tcth j)) as Hbo by (intros; by apply awaken_other).
  destruct (T6 t _ He) as [[Hnin Hnd]%NoDup_cons Hw]. destruct (Hw a) as (_ & s & fr & Ha); [by left|].
  assert (∀ b t', b ≠ a → asleep j b t' → asleep j' b t') as Has.
  { intros b t' Hne [Hb Hc]. split; [by rewrite Hbo|done]. }
  destruct (T1 a s _ t fr Ha eq_refl) as (n & Hn & _). pose proof (T7 t _ n He Hn) as Hd. simpl in Hd.
  assert (∀ n', seen j t = Some n' → jn_joiners n' = []) as Hq.
  { intros n' Hn'. assert (n' = n) as -> by congruence. apply (T8 t n Hn Hd). by rewrite He. }
  assert (∀ b t', b ≠ a → expected j b t' → expected j' b t') as Hex.
  { intros b t' Hne (n' & Hn' & Hor). destruct (decide (t' = t)) as [->|]; [|exists n'; by rewrite Heo].
    exists n'. split; [done|]. right. destruct Hor as [[Hin _]|(Hd' & l' & Hl' & Hin)].
    - rewrite (Hq n' Hn') in Hin. by apply elem_of_nil in Hin.
    - split; [done|]. exists l. split; [done|]. rewrite He in Hl'. simplify_eq. by apply elem_of_cons in Hin as [|]. }
  split; try done.
  - intros b s' t' f Hb. destruct (decide (b = a)) as [->|Hne].
    + rewrite Hba. exists n. change (tcalls j') with (tcalls j) in Hb. assert (t' = t) as -> by congruence. done.
    + rewrite Hbo by done. specialize (T3 _ _ _ _ Hb). destruct (is_blocked b (tcth j)); [by apply Hex|done].
  - intros t' n' Hn'. destruct (T5 t' n' Hn') as [? Hl]. split; [done|]. intros b Hb. apply Has; [|by apply Hl].
    intros ->. pose proof (Hl a Hb) as Hsl. destruct (asleep_other _ _ _ _ _ Hsl Ha) as [f [= <-]].
    rewrite (Hq n' Hn') in Hb. by apply elem_of_nil in Hb.
  - intros t' l' Hl'. destruct (decide (t' = t)) as [->|Hne].
    + rewrite Het in Hl'. simplify_eq. split; [done|]. intros b Hb. apply Has; [by intros ->|]. apply Hw. by right.
    + rewrite Heo in Hl' by done. destruct (T6 _ _ Hl') as [? Hw']. split; [done|]. intros b Hb. apply Has; [|by apply Hw'].
      intros ->. destruct (asleep_other _ _ _ _ _ (Hw' a Hb) Ha) as [f [= <-]]. done.
  - intros t' e n' Hee Hn'. destruct (decide (t' = t)) as [->|]; [|rewrite Heo in Hee by done; by eapply T7].
    rewrite Het in Hee. simplify_eq. change (seen j t = Some n') in Hn'. congruence.
  - intros t' n' Hn' Hdn Hne. destruct (decide (t' = t)) as [->|]; [by apply Hq|]. rewrite Heo in Hne by done. by apply (T8 t').
Qed.

(** [t] is marked terminated; the lock is held. *)
Lemma tmark_inv j t w n : ending j !! t = Some EMark → seen j t = Some n →
  jview w = <[t := mk_joinable true (jn_joiners n) (jn_type n)]> (jview (tw j)) →
  tinv j → tinv (j <| tw := w |> <| ending ::= partial_alter (λ _, Some ETake) t |>).
Proof.
  intros He Hn Hv HJ. set (j' := _ <| ending ::= _ |>).
  assert (ending j' !! t = Some ETake) as Het by apply lookup_partial_alter_eq.
  assert (seen j' t = Some (mk_joinable true (jn_joiners n) (jn_type n))) as Hn'
    by (unfold seen; simpl; by rewrite Hv, lookup_insert_eq).
  eapply (ending_inv j j' t n); try done.
  - intros t' Hne. by apply lookup_partial_alter_ne.
  - intros t' Hne. unfold seen. simpl. by rewrite Hv, lookup_insert_ne.
  - intros a (m & Hm & Hor). assert (m = n) as -> by congruence. eexists. split; [exact Hn'|]. left. simpl.
    split; [|done]. destruct Hor as [[? _]|(_ & l & Hl & _)]; [done|]. congruence.
  - exact (ti_list _ HJ t n Hn).
  - intros l Hl. congruence.
  - intros e Hee. rewrite Het in Hee. by simplify_eq.
Qed.
(** The joiners leave the list of [t] and the lock is released. *)
Lemma ttake_inv j t w n : ending j !! t = Some ETake → seen j t = Some n →
  jview w = <[t := mk_joinable (jn_done n) [] (jn_type n)]> (jview (tw j)) →
  tinv j → tinv (j <| tw := w |> <| ending ::= partial_alter (λ _, Some (EWake (jn_joiners n))) t |>).
Proof.
  intros He Hn Hv HJ. set (j' := _ <| ending ::= _ |>). pose proof (ti_end _ HJ t _ n He Hn) as Hd. simpl in Hd.
  assert (ending j' !! t = Some (EWake (jn_joiners n))) as Het by apply lookup_partial_alter_eq.
  assert (seen j' t = Some (mk_joinable (jn_done n) [] (jn_type n))) as Hn'
    by (unfold seen; simpl; by rewrite Hv, lookup_insert_eq).
  eapply (ending_inv j j' t n); try done.
  - intros t' Hne. by apply lookup_partial_alter_ne.
  - intros t' Hne. unfold seen. simpl. by rewrite Hv, lookup_insert_ne.
  - intros a (m & Hm & Hor). assert (m = n) as -> by congruence. eexists. split; [exact Hn'|]. right. simpl.
    split; [done|]. eexists. split; [exact Het|]. destruct Hor as [[? _]|(_ & l & Hl & _)]; [done|]. congruence.
  - simpl. split; [constructor|]. by intros a ?%elem_of_nil.
  - intros l Hl. rewrite Het in Hl. simplify_eq. exact (ti_list _ HJ t n Hn).
  - intros e Hee. rewrite Het in Hee. by simplify_eq.
Qed.
Lemma tbegin_inv j t n : seen j t = Some n → jn_done n = false → ending j !! t = None →
  tinv j → tinv (j <| ending ::= insert t EMark |>).
Proof.
  intros Hn Hd He HJ. set (j' := _ <| ending ::= _ |>).
  assert (ending j' !! t = Some EMark) as Het by apply lookup_insert_eq.
  eapply (ending_inv j j' t n n); try done.
  - intros t' Hne. by apply lookup_insert_ne.
  - intros a (m & Hm & Hor). assert (m = n) as -> by congruence.
    exists n. split; [done|]. left. split; [|congruence]. destruct Hor as [[? _]|[? _]]; [done|congruence].
  - exact (ti_list _ HJ t n Hn).
  - intros l Hl. congruence.
  - intros e Hee. rewrite Het in Hee. by simplify_eq.
  - congruence.
Qed.
Lemma tenv_inv j w : trely j w → tinv j → tinv (j <| tw := w |>).
Proof.
  intros [R1 R2 R3] [T1 T2 T3 T4 T5 T6 T7 T8]. set (j' := j <| tw := w |>).
  assert (∀ t n n', seen j t = Some n → seen j' t = Some n' → n' = n) as Hsame.
  { intros t n n' (x & Hx & ->)%jview_Some (x' & Hx' & ->)%jview_Some. destruct (R2 t x x' Hx Hx') as (E1 & E2 & E3).
    unfold joinable_of. congruence. }
  assert (∀ t n, seen j t = Some n → ¬ tunused t j → seen j' t = Some n) as Hkeep.
  { intros t n Hn Hu. pose proof Hn as (x & Hx & _)%jview_Some. destruct (R1 t x Hx) as [x' Hx']; [by left|].
    apply jview_lookup in Hx'. rewrite <- (Hsame t n _ Hn Hx'). exact Hx'. }
  assert (∀ a s p t fr, tcalls j !! a = Some (s, p) → ttarget p = Some (t, fr) → ¬ tunused t j) as Huse.
  { intros a s p t fr Ha Ht Hu. by eapply Hu. }
  assert (∀ t n', seen j' t = Some n' → seen j t = Some n' ∨ jn_joiners n' = [] ∧ jn_done n' = false ∧ ending j !! t = None) as Hback.
  { intros t n' Hn'. destruct (seen j t) as [n|] eqn:Hn; [left; f_equal; symmetry; by eapply Hsame|]. right.
    apply jview_Some in Hn' as (x' & Hx' & ->). destruct (w_threads (tw j) !! t) as [x|] eqn:Hx.
    - apply jview_lookup in Hx. unfold seen in Hn. congruence.
    - by apply (R3 t x'). }
  split; try done.
  - intros a s p t fr Ha Ht. destruct (T1 _ _ _ _ _ Ha Ht) as (n & Hn & Hty). exists n. split; [|done].
    apply Hkeep; [done|]. by eapply Huse.
  - intros a s t fr Ha. specialize (T3 _ _ _ _ Ha). change (tcth j') with (tcth j).
    assert (¬ tunused t j) as Hu by (by eapply Huse).
    destruct (is_blocked a (tcth j)); destruct T3 as (n & ? & ?); exists n; split; auto.
  - intros a s t Ha. assert (¬ tunused t j) as Hu by (by eapply Huse). destruct (T4 _ _ _ Ha) as (n & ? & ?). exists n. auto.
  - intros t n' [Hn|(Hl & _)]%Hback; [by apply T5|]. rewrite Hl. split; [constructor|]. by intros a ?%elem_of_nil.
  - intros t e n' He [Hn|(_ & _ & Hnone)]%Hback; [by eapply T7|]. change (ending j') with (ending j) in He. congruence.
  - intros t n' [Hn|(Hl & _)]%Hback; [by apply T8|done].
Qed.
Lemma tenter_inv j a s ret t fr n : tcalls j !! a = Some (s, TIdle ret) → seen j t = Some n → jn_type n = ABTI_THREAD_NAMED →
  tunfreed t j → (fr = true → tunused t j) → tinv j → tinv (j <| tcalls ::= insert a (s, TStart t fr) |>).
Proof.
  intros Ha Hn Hty Hf Hu HJ. eapply move_inv; try done.
  - intros t' Hs. by destruct (asleep_other _ _ _ _ _ Hs Ha).
  - intros t' f [= <- <-]. split; [by exists n|]. intros b s' q f' Hne Hb Hor Hq. destruct fr; [by eapply (Hu eq_refl)|].
    simpl in Hor. subst f'. by eapply Hf.
Qed.
Lemma thread_Done t w x w' : thread t w = Done x w' → w' = w ∧ w_threads w !! t = Some x.
Proof. unfold thread. destruct (_ !! t); naive_solver. Qed.
(** What a call may make of an idle agent: an error, or the start of its join. *)
Definition enters h fr (p : tpoint) (w : world) : Prop :=
  (∃ r, p = TIdle r) ∨ ∃ t x, ABTI_thread_get h = Some t ∧ w_threads w !! t = Some x ∧ t_type x = ABTI_THREAD_NAMED ∧ p = TStart t fr.
Lemma named_enters h k fr p w w' : (∀ t, k t = TStart t fr ∨ ∃ r, k t = TIdle r) →
  named h k w = Done p w' → enters h fr p w.
Proof.
  intros Hk (w0 & w1 & [= <- <-] & Hn)%bind_Done. destruct (negb _); [injection Hn as <- <-; left; by eexists|].
  destruct (ABTI_thread_get h) as [t|] eqn:Ht; [|injection Hn as <- <-; left; by eexists].
  apply bind_Done in Hn as (x & w1 & [-> Hx]%thread_Done & [= <- <-]). destruct (decide _) as [Hty|]; [|left; by eexists].
  destruct (Hk t) as [-> | [r ->]]; [right; by exists t, x|left; by eexists].
Qed.
Lemma of_task_enters h k fr p w w' : (∀ w1, k w = Done p w1 → enters h fr p w) →
  of_task h k w = Done p w' → enters h fr p w.
Proof.
  intros Hk. unfold of_task. destruct (ABTI_thread_get h) as [t|] eqn:Ht; [|intros [= <- <-]; left; by eexists].
  intros (x & w1 & [-> Hx]%thread_Done & Hn)%bind_Done. destruct (is_task x); [by eapply Hk|]. injection Hn as <- <-. left. by eexists.
Qed.
Lemma free_enters addr h self p w w' : ABT_thread_free addr h self w = Done p w' → enters h true p w.
Proof.
  unfold ABT_thread_free. intros Hn. eapply named_enters in Hn as [[r ->]|(t & x & Ht & ?)].
  - left. by eexists.
  - destruct (ABTI_is_null_handle addr); [done|]. right. by exists t, x.
  - intros t. destruct (decide (self = Some t)); [right; by eexists|by left].
Qed.
Lemma enters_inv j a s ret h fr p : tcalls j !! a = Some (s, TIdle ret) →
  (∀ t, ABTI_thread_get h = Some t → tunfreed t j ∧ (fr = true → tunused t j)) → enters h fr p (tw j) → tinv j →
  tinv (j <| tcalls ::= insert a (s, p) |>).
Proof.
  intros Ha Hh [[r ->]|(t & x & Ht & Hx & Hty & ->)] HJ; [eapply advance_inv; try done; by left|].
  destruct (Hh t Ht) as [? ?]. eapply tenter_inv; try done; [by apply jview_lookup|exact Hty].
Qed.

(** ** All steps *)

Lemma on_world_Done {A} (m : M world A) j v j' : on_world m j = Done v j' → ∃ w, m (tw j) = Done v w ∧ j' = j <| tw := w |>.
Proof. unfold on_world. destruct (m (tw j)); naive_solver. Qed.
Lemma on_thread_Done t j x j' : on_world (thread t) j = Done x j' → j' = j ∧ seen j t = Some (joinable_of x).
Proof.
  intros (w & [-> Hx]%thread_Done & ->)%on_world_Done. split; [by destruct j|by apply jview_lookup].
Qed.

Lemma call_step_inv pe j a s p p' j' : tcalls j !! a = Some (s, p) → tenabled a p j = true →
  tjoin_step pe s a p j = Done p' j' → tinv j → tinv (j' <| tcalls ::= insert a (s, p') |>).
Proof.
  intros Ha Hen Hst HJ. destruct p as [r|t fr|t fr|t fr|t fr|t]; [done|..]; cbn [tjoin_step] in Hst.
  - apply bind_Done in Hst as (x & j1 & [-> Hn]%on_thread_Done & Hst). destruct (terminated x) eqn:Hterm.
    { injection Hst as <- <-. eapply joined_inv; try done. by exists (joinable_of x). }
    destruct (decide (s = Some t)); [injection Hst as <- <-; eapply advance_inv; try done; by left|].
    apply bind_Done in Hst as (b & j1 & (w & Hb & ->)%on_world_Done & Hst). injection Hst as <- <-.
    eapply (advance_inv (j <| tw := w |>)); try done; try (by destruct b); [by destruct b; right|].
    apply view_inv; [|done]. exact (wlp_Done _ _ _ _ _ (can_block_view s (tw j)) Hb).
  - apply bind_Done in Hst as (x & j1 & [-> Hn]%on_thread_Done & Hst). destruct (terminated x) eqn:Hterm.
    { injection Hst as <- <-. eapply joined_inv; try done. by exists (joinable_of x). }
    apply bind_Done in Hst as ([] & j1 & (w1 & H1 & ->)%on_world_Done & Hst).
    apply bind_Done in Hst as ([] & j1 & (w2 & H2 & ->)%on_world_Done & Hst). injection Hst as <- <-. simpl in H2.
    eapply (tblock_inv j a s t fr (joinable_of x) w2); [done|done|done| |done].
    assert (jview w2 = jview w1) as ->.
    { assert (preserves jview (s ← deref s; ABTI_thread_block s)) as Hh.
      { apply preserves_bind; [|apply block_view]. destruct s; [apply preserves_ret|apply preserves_fail]. }
      exact (wlp_Done _ _ _ _ _ (Hh w1) H2). }
    unfold set_thread in H1. apply jview_Some in Hn as (x' & Hx & Hjx). rewrite Hx in H1. injection H1 as <-.
    rewrite jview_insert. unfold joinable_of in *. simpl in *. injection Hjx as Ht Hj Hty. by rewrite <- Ht, <- Hj, <- Hty, Hterm.
  - injection Hst as <- <-. simpl in Hen. apply negb_true_iff in Hen. eapply joined_inv; try done.
    pose proof (ti_blocked _ HJ _ _ _ _ Ha) as Hb. by rewrite Hen in Hb.
  - apply bind_Done in Hst as (x & j1 & [-> Hn]%on_thread_Done & Hst). injection Hst as <- <-.
    destruct (terminated x) eqn:Hterm; [eapply joined_inv; try done; by exists (joinable_of x)|].
    eapply advance_inv; try done. by right.
  - apply bind_Done in Hst as ([] & j1 & (w & Hd & ->)%on_world_Done & Hst). injection Hst as <- <-.
    eapply destroyed_inv; [done| |done]. exact (wlp_Done _ _ _ _ _ (destroy_view _ t (tw j)) Hd).
Qed.
Lemma end_step_inv j t e e' j' : ending j !! t = Some e → end_step t e j = Done e' j' →
  tinv j → tinv (j' <| ending ::= partial_alter (λ _, e') t |>).
Proof.
  intros He Hst HJ. destruct e as [| |[|a l]|]; cbn [end_step] in Hst.
  - apply bind_Done in Hst as ([] & j1 & (w & Hm & ->)%on_world_Done & Hst). injection Hst as <- <-.
    destruct (wlp_Done _ _ _ _ _ (mark_view t (tw j)) Hm) as (n & Hn & Hv). by eapply tmark_inv.
  - apply bind_Done in Hst as (l & j1 & (w & Hm & ->)%on_world_Done & Hst). injection Hst as <- <-.
    destruct (wlp_Done _ _ _ _ _ (take_view t (tw j)) Hm) as (n & Hn & -> & Hv). by eapply ttake_inv.
  - injection Hst as <- <-. apply rest_inv; [by left|done].
  - injection Hst as <- <-. by apply twoken_inv.
  - apply bind_Done in Hst as ([] & j1 & (w & Hm & ->)%on_world_Done & Hst). injection Hst as <- <-.
    destruct (wlp_Done _ _ _ _ _ (retire_view t (tw j)) Hm) as (n & Hn & Hv).
    apply (rest_inv (j <| tw := w |>)); [by right|]. destruct (decide _) as [Hty|]; [|by apply view_inv].
    eapply dropped_inv; [done| |done]. intros a s p fr Ha Ht. destruct (ti_live _ HJ _ _ _ _ _ Ha Ht) as (m & Hm' & Hmt).
    unfold seen in Hm'. congruence.
Qed.
Lemma tstep_inv j j' : tinv j → tstep j j' → tinv j'.
Proof.
  intros HJ [w Hw|a s ret h m p Ha Hh Hm He|a s ret addr h m p Ha Hh Hm He|pe a s p p' j1 Ha Hen Hst|t x Hx Hd He|t e e' j1 He Hst].
  - by apply tenv_inv.
  - apply (enters_inv j a s ret h false); try done; [intros t Ht; by split; [apply Hh|]|].
    assert (∀ w, ABT_thread_join h (tw j) = Done p w → enters h false p (tw j)) as Hj
      by (intros w; apply named_enters; by left).
    apply elem_of_cons in Hm as [->| ->%list_elem_of_singleton]; [by eapply Hj|by eapply of_task_enters].
  - apply (enters_inv j a s ret h true); try done.
    + intros t Ht. specialize (Hh t Ht). split; [|done]. intros b s' q Hb. by eapply Hh.
    + apply elem_of_cons in Hm as [->| ->%list_elem_of_singleton]; [by eapply free_enters|]. unfold ABT_task_free in He.
      destruct (ABTI_is_null_handle addr); [injection He as <-; left; by eexists|].
      eapply of_task_enters; [|exact He]. intros w. apply free_enters.
  - by eapply call_step_inv.
  - eapply tbegin_inv; [by apply jview_lookup|done..].
  - by eapply end_step_inv.
Qed.

(** A program in which no thread is being joined and none is terminating. *)
Record unjoined j : Prop := {
  un_threads t x : w_threads (tw j) !! t = Some x → t_joiners x = [];
  un_calls a s p : tcalls j !! a = Some (s, p) → ∃ r, p = TIdle r;
  un_ending : ending j = ∅;
}.
Lemma unjoined_inv j : unjoined j → tinv j.
Proof.
  intros [U1 U2 U3]. assert (∀ t n, seen j t = Some n → jn_joiners n = []) as Hl.
  { intros t n (x & Hx & ->)%jview_Some. by apply (U1 t). }
  split.
  - intros a s p t fr Ha. by destruct (U2 _ _ _ Ha) as [r ->].
  - intros a b s s' p q t fr _ Ha. by destruct (U2 _ _ _ Ha) as [r ->].
  - intros a s t fr Ha. by destruct (U2 _ _ _ Ha).
  - intros a s t Ha. by destruct (U2 _ _ _ Ha).
  - intros t n Hn. rewrite (Hl t n Hn). split; [constructor|]. by intros a ?%elem_of_nil.
  - intros t l. by rewrite U3, lookup_empty.
  - intros t e n. by rewrite U3, lookup_empty.
  - intros t n Hn _ _. by eapply Hl.
Qed.

(** C15: joining threads.  For programs in which no join or free of a thread
    overlaps a free of the same thread, nobody else frees a thread that is being
    joined or is terminating, and nothing but the termination of the joined
    thread awakens a blocked joiner ([ABTI_thread_join_impl] does not look at
    [terminated] again after its wait, thread.cpp:155-156: an [ABT_thread_resume]
    of the joiner, or the late wake-up of C38, would end the join early):
    however the joins, frees and terminations interleave with each other and with
    the rest of the program, an agent about to destroy a thread, or past the wait
    of its join, finds it terminated; a joiner that is still blocked is in the
    thread's list, whose termination has not taken that list yet, or in the list
    the termination is awakening, so none is forgotten; and whoever is in a
    thread's list or being awakened for it is blocked in a join of that thread,
    so no other wait is ended by mistake. *)
Theorem thread_join_waits j0 j : unjoined j0 → tsteps j0 j →
  (∀ a s t fr, tcalls j !! a = Some (s, TBlocked t fr) → ∃ x, w_threads (tw j) !! t = Some x ∧
    if is_blocked a (tcth j) then
      a ∈ t_joiners x ∧ (terminated x = true → ending j !! t = Some ETake) ∨
      terminated x = true ∧ ∃ l, ending j !! t = Some (EWake l) ∧ a ∈ l
    else terminated x = true) ∧
  (∀ a s t, tcalls j !! a = Some (s, TDestroy t) → ∃ x, w_threads (tw j) !! t = Some x ∧ terminated x = true) ∧
  (∀ a t, (∃ x, w_threads (tw j) !! t = Some x ∧ a ∈ t_joiners x) ∨ (∃ l, ending j !! t = Some (EWake l) ∧ a ∈ l) →
    asleep j a t).
Proof.
  intros H0 Hst. assert (tinv j) as HJ.
  { induction Hst; [by apply unjoined_inv|]. by eapply tstep_inv; [apply IHHst|]. }
  split_and!.
  - intros a s t fr Ha. pose proof (ti_blocked _ HJ _ _ _ _ Ha) as Hb.
    destruct (is_blocked a (tcth j)); destruct Hb as (n & (x & Hx & ->)%jview_Some & Hb); by exists x.
  - intros a s t Ha. destruct (ti_destroy _ HJ _ _ _ Ha) as (n & (x & Hx & ->)%jview_Some & Hd). by exists x.
  - intros a t [(x & Hx & Hin)|(l & Hl & Hin)].
    + apply jview_lookup in Hx. by apply (ti_list _ HJ t _ Hx).
    + by apply (ti_wake _ HJ t l Hl).
Qed.
End tsafe.
