(* ===== verification/Timer.v ===== *)
(** * Timers

    [ABT_timer_*] of src/misc.cpp.  Times are [double]s read from
    [CmiWallTimer]; differences are binary64 differences.  An output pointer is
    a [bool]: whether it is not null. *)

From Stdlib Require Import SpecFloat.
From S2P Require Import Prelude AbtTypes Objects Storage PoolList Sleepers PoolMpsc Pool.

Record ABTI_timer : Type := mk_timer {
  tm_start : double;
  tm_end : double;
}.
#[global] Instance eta_timer : Eta ABTI_timer := λ t, mk_timer (tm_start t) (tm_end t).

(** Timer objects, the allocator ([tm_oom]: [new (std::nothrow)] fails) and
    the runtime's clock. *)
Record tst `{Ext} : Type := mk_tst {
  tm_heap : gmap Z ABTI_timer;
  tm_brk : Z;
  tm_oom : bool;
  tm_ext : ext_st;
}.
Arguments tst {_}.

Section timer.
Context `{E : Ext}.
#[global] Instance eta_tst : Eta tst := λ s, mk_tst _ (tm_heap s) (tm_brk s) (tm_oom s) (tm_ext s).

Definition zero : double := S754_zero false.
Definition abti_timer_get (h : Z) : option ptr := if ABTI_is_null_handle h then None else Some h.
Definition timer (t : ptr) : M tst ABTI_timer := λ s,
  match tm_heap s !! t with Some x => Done x s | None => Faulted BadDeref end.
Definition set_timer (t : ptr) (f : ABTI_timer → ABTI_timer) : M tst unit :=
  x ← timer t; modify (λ s, s <| tm_heap ::= insert t (f x) |>).
Definition clock : M tst double := λ s,
  let '(d, e) := CmiWallTimer (tm_ext s) in Done d (s <| tm_ext := e |>).
(** [new (std::nothrow) ABTI_timer(x)]: [None] when memory is exhausted *)
Definition new_timer (x : ABTI_timer) : M tst (option ptr) :=
  s ← get;
  if tm_oom s then mret None else
  modify (λ s, s <| tm_heap ::= insert (tm_brk s) x |> <| tm_brk ::= Z.succ |>) ;; mret (Some (tm_brk s)).
Definition with_timer {A} (h : Z) (k : ptr → M tst (Z * option A)) : M tst (Z * option A) :=
  match abti_timer_get h with None => mret (ABT_ERR_INV_TIMER, None) | Some t => k t end.

Definition ABT_get_wtime : M tst double := clock.

(** The handle is cleared first, so a failure after that leaves it null. *)
Definition ABT_timer_create (newtimer : bool) : M tst (Z * option Z) :=
  if negb newtimer then mret (ABT_ERR_TIMER, None) else
  t ← new_timer (mk_timer zero zero);
  match t with
  | None => mret (ABT_ERR_MEM, Some ABT_TIMER_NULL)
  | Some t => mret (ABT_SUCCESS, Some t)
  end.
Definition ABT_timer_dup (h : Z) (newtimer : bool) : M tst (Z * option Z) :=
  if negb newtimer then mret (ABT_ERR_TIMER, None) else
  match abti_timer_get h with
  | None => mret (ABT_ERR_INV_TIMER, Some ABT_TIMER_NULL)
  | Some src =>
      x ← timer src;
      t ← new_timer x;
      match t with
      | None => mret (ABT_ERR_MEM, Some ABT_TIMER_NULL)
      | Some t => mret (ABT_SUCCESS, Some t)
      end
  end.
Definition ABT_timer_free (ptr_ok : bool) (h : Z) : M tst (Z * option Z) :=
  if negb ptr_ok then mret (ABT_ERR_TIMER, None) else
  with_timer h (λ t,
    timer t ;; modify (λ s, s <| tm_heap ::= delete t |>) ;; mret (ABT_SUCCESS, Some ABT_TIMER_NULL)).
Definition ABT_timer_start (h : Z) : M tst (Z * option unit) :=
  with_timer h (λ t, d ← clock; set_timer t (λ x, x <| tm_start := d |>) ;; mret (ABT_SUCCESS, None)).
Definition ABT_timer_stop (h : Z) : M tst (Z * option unit) :=
  with_timer h (λ t, d ← clock; set_timer t (λ x, x <| tm_end := d |>) ;; mret (ABT_SUCCESS, None)).
Definition ABT_timer_read (h : Z) (secs : bool) : M tst (Z * option double) :=
  with_timer h (λ t,
    if negb secs then mret (ABT_ERR_TIMER, None) else
    x ← timer t; mret (ABT_SUCCESS, Some (dsub (tm_end x) (tm_start x)))).
Definition ABT_timer_stop_and_read (h : Z) (secs : bool) : M tst (Z * option double) :=
  with_timer h (λ t,
    if negb secs then mret (ABT_ERR_TIMER, None) else
    d ← clock; set_timer t (λ x, x <| tm_end := d |>) ;;
    x ← timer t; mret (ABT_SUCCESS, Some (dsub (tm_end x) (tm_start x)))).
(** [secs] is the number the time is added to *)
Definition ABT_timer_stop_and_add (h : Z) (secs : option double) : M tst (Z * option double) :=
  with_timer h (λ t,
    match secs with
    | None => mret (ABT_ERR_TIMER, None)
    | Some sum =>
        d ← clock; set_timer t (λ x, x <| tm_end := d |>) ;;
        x ← timer t; mret (ABT_SUCCESS, Some (dadd sum (dsub (tm_end x) (tm_start x))))
    end).

Fixpoint overhead_loop (n : nat) (h : Z) (sum : double) : M tst double :=
  match n with
  | O => mret sum
  | S n =>
      ABT_timer_start h ;; ABT_timer_stop h ;;
      r ← ABT_timer_read h true;
      overhead_loop n h (dadd sum (default zero r.2))
  end.
Definition overhead_iter : nat := 5000.
Definition ABT_timer_get_overhead (overhead : bool) : M tst (Z * option double) :=
  if negb overhead then mret (ABT_ERR_TIMER, None) else
  r ← ABT_timer_create true;
  if negb (r.1 =? ABT_SUCCESS) then mret (r.1, None) else
  let h := default 0 r.2 in
  sum ← overhead_loop overhead_iter h zero;
  ABT_timer_free true h ;;
  mret (ABT_SUCCESS, Some (SFdiv 53 1024 sum (binary_normalize 53 1024 (Z.of_nat overhead_iter) 0 false))).

(** ** What a timer measures *)

(** The clock's next two readings. *)
Definition reading (e : ext_st) : double := (CmiWallTimer e).1.
Definition later (e : ext_st) : ext_st := (CmiWallTimer e).2.

Lemma timer_handle t : 256 ≤ t → abti_timer_get t = Some t.
Proof. intros. unfold abti_timer_get, ABTI_is_null_handle. by destruct (Z.ltb_spec t 256); [lia|]. Qed.
Lemma wp_timer t x Q s : tm_heap s !! t = Some x → Q x s → wp (timer t) Q s.
Proof. unfold wp, timer. by intros ->. Qed.
Lemma wp_clock Q s : Q (reading (tm_ext s)) (s <| tm_ext := later (tm_ext s) |>) → wp clock Q s.
Proof. unfold wp, clock, reading, later. by destruct (CmiWallTimer (tm_ext s)). Qed.
Lemma wp_set_timer t x f (Q : unit → tst → Prop) s :
  tm_heap s !! t = Some x → Q tt (s <| tm_heap ::= insert t (f x) |>) → wp (set_timer t f) Q s.
Proof. intros Hx HQ. unfold set_timer. wp_step. eapply wp_timer; [done|]. by wp_step. Qed.

Lemma start_spec t x s (Q : Z * option unit → tst → Prop) :
  256 ≤ t → tm_heap s !! t = Some x →
  Q (ABT_SUCCESS, None) (s <| tm_ext ::= later |> <| tm_heap ::= insert t (x <| tm_start := reading (tm_ext s) |>) |>) →
  wp (ABT_timer_start t) Q s.
Proof.
  intros Ht Hx HQ. unfold ABT_timer_start, with_timer. rewrite timer_handle by done.
  wp_step. apply wp_clock. wp_step. eapply wp_set_timer; [done|]. by wp_step.
Qed.
Lemma stop_spec t x s (Q : Z * option unit → tst → Prop) :
  256 ≤ t → tm_heap s !! t = Some x →
  Q (ABT_SUCCESS, None) (s <| tm_ext ::= later |> <| tm_heap ::= insert t (x <| tm_end := reading (tm_ext s) |>) |>) →
  wp (ABT_timer_stop t) Q s.
Proof.
  intros Ht Hx HQ. unfold ABT_timer_stop, with_timer. rewrite timer_handle by done.
  wp_step. apply wp_clock. wp_step. eapply wp_set_timer; [done|]. by wp_step.
Qed.
Lemma read_spec t x s (Q : Z * option double → tst → Prop) :
  256 ≤ t → tm_heap s !! t = Some x → Q (ABT_SUCCESS, Some (dsub (tm_end x) (tm_start x))) s →
  wp (ABT_timer_read t true) Q s.
Proof.
  intros Ht Hx HQ. unfold ABT_timer_read, with_timer. rewrite timer_handle by done. cbn [negb].
  wp_step. eapply wp_timer; [done|]. by wp_step.
Qed.

(** The sum of [n] differences of consecutive readings. *)
Fixpoint measured (n : nat) (e : ext_st) (sum : double) : double * ext_st :=
  match n with
  | O => (sum, e)
  | S n => measured n (later (later e)) (dadd sum (dsub (reading (later e)) (reading e)))
  end.
Lemma overhead_loop_spec n : ∀ t x sum s,
  256 ≤ t → tm_heap s !! t = Some x →
  wp (overhead_loop n t sum) (λ r s', r = (measured n (tm_ext s) sum).1 ∧
    tm_ext s' = (measured n (tm_ext s) sum).2 ∧ tm_oom s' = tm_oom s ∧ tm_brk s' = tm_brk s ∧
    is_Some (tm_heap s' !! t) ∧ delete t (tm_heap s') = delete t (tm_heap s)) s.
Proof.
  induction n as [|n IH]; intros t x sum s Ht Hx; cbn [overhead_loop measured].
  { wp_step. split_and!; eauto. }
  wp_step. eapply start_spec; [done..|]. wp_step. eapply stop_spec; [done|apply lookup_insert_eq|].
  wp_step. eapply read_spec; [done|apply lookup_insert_eq|]. cbn [snd default].
  eapply wp_mono; [eapply IH; [done|apply lookup_insert_eq]|].
  intros r s' (-> & He & Ho & Hb & Hs & Hd). cbn in *. split_and!; try done.
  rewrite Hd. by rewrite !delete_insert_eq.
Qed.

(** Timers measure with the clock and leave nothing behind.  Reading a
    timer started and then stopped gives the difference of the two clock
    readings; [ABT_timer_get_overhead] terminates with the mean of 5000 such
    differences, and the timer it used is freed again; when memory is exhausted it
    reports [ABT_ERR_MEM] and changes nothing. *)
Theorem timer_measures s t x :
  256 ≤ t → tm_heap s !! t = Some x → 256 ≤ tm_brk s → tm_heap s !! tm_brk s = None →
  wp (ABT_timer_start t ;; ABT_timer_stop t ;; ABT_timer_read t true) (λ r _,
    r = (ABT_SUCCESS, Some (dsub (reading (later (tm_ext s))) (reading (tm_ext s))))) s ∧
  wp (ABT_timer_get_overhead true) (λ r s',
    if tm_oom s then r = (ABT_ERR_MEM, None) ∧ s' = s
    else tm_heap s' = tm_heap s ∧ r = (ABT_SUCCESS,
      Some (SFdiv 53 1024 (measured 5000 (tm_ext s) zero).1 (binary_normalize 53 1024 5000 0 false)))) s.
Proof.
  intros Ht Hx Hb Hn. split.
  - wp_step. eapply start_spec; [done..|]. wp_step. eapply stop_spec; [done|apply lookup_insert_eq|].
    by eapply read_spec; [done|apply lookup_insert_eq|].
  - unfold ABT_timer_get_overhead, ABT_timer_create, new_timer. cbn [negb]. wp_step. wp_step. wp_step. wp_step.
    destruct (tm_oom s) eqn:Ho; [by repeat wp_step|]. wp_step. wp_step. wp_step. wp_step. cbn [fst snd default].
    change (negb (ABT_SUCCESS =? ABT_SUCCESS)) with false. cbv iota. wp_step.
    eapply wp_mono; [eapply (overhead_loop_spec overhead_iter); [done|apply lookup_insert_eq]|].
    intros r s' (-> & He & _ & _ & [y Hy] & Hd). unfold ABT_timer_free, with_timer. cbn [negb].
    rewrite timer_handle by done. wp_step. wp_step. eapply wp_timer; [done|]. wp_step. wp_step. wp_step. wp_step.
    split; [|done]. unfold default, id in *. cbn in *. rewrite Hd, delete_insert_eq. by apply delete_id.
Qed.
End timer.

(** ** Deadlines

    [realtime_to_wall] of src/sync.cpp: the deadline of a timed wait, a point of
    [CLOCK_REALTIME] in seconds and nanoseconds, on the runtime's clock.  [now]
    and [now_ns] are what [clock_gettime] answered, [wall] what [CmiWallTimer]
    did. *)
Definition of_long (n : Z) : double := binary_normalize 53 1024 n 0 false.
(** the double nearest to [1e-9] *)
Definition nano : double := S754_finite false 4835703278458517 (-82).
Definition realtime_to_wall (now now_ns abs abs_ns : Z) (wall : double) : double :=
  dadd wall (dadd (of_long (abs - now)) (SFmul 53 1024 (of_long (abs_ns - now_ns)) nano)).

(** A deadline that is now is now on the other clock, exactly; a whole number of
    seconds is added as it is. *)
Lemma realtime_now now ns b m e : realtime_to_wall now ns now ns (S754_finite b m e) = S754_finite b m e.
Proof. unfold realtime_to_wall. by rewrite !Z.sub_diag. Qed.
Lemma realtime_seconds now ns k b m e :
  realtime_to_wall now ns (now + k) ns (S754_finite b m e) = dadd (S754_finite b m e) (of_long k).
Proof.
  unfold realtime_to_wall. rewrite Z.sub_diag. replace (now + k - now) with k by lia.
  change (SFmul 53 1024 (of_long 0) nano) with (S754_zero false). by destruct (of_long k) as [[]|[]| |[]].
Qed.
Example realtime_half : realtime_to_wall 100 700000000 101 200000000 (of_long 5) = S754_finite false 6192449487634432 (-50).
Proof. vm_compute. reflexivity. Qed.
