(* ===== verification/Xstream.v ===== *)
(** * Execution streams

    src/xstream.cpp: an execution stream is a lease of a PE of the Reconverse
    runtime.  The state is the [world] with the stream objects, the rank table
    of [ABTI_global], the thread-local variables of every PE and the queue of
    each PE, which messages and scheduler tables travel through.  This file has
    the leases, the message handlers, the idle hook, the scheduler change, the
    bindings, the queries, and the calls of src/thread.cpp that need a stream.
    Joining and freeing, which wait for another PE, are in [XstreamJoin]. *)

From Stdlib Require Import SpecFloat.
From S2P Require Import Prelude AbtTypes Config Objects Storage PoolList Sleepers PoolMpsc Pool.
From S2P Require Import Sched Sync Thread.

(** ** The queue of a PE *)

(** What a PE's scheduler polls: its built-in queues when nothing is leased,
    those of a leased PE, or these and a predefined scheduler. *)
Inductive table : Type :=
  | TDefault
  | TBuiltins
  | TSched (s : ptr).
(** [ABTI_pe_msg] for each handler, and the installation of a table. *)
Inductive msg : Type :=
  | MLease (xs : ptr)
  | MAffinity (xs : ptr) (cpuid : Z)
  | MRelease (xs : ptr)
  | MTable (t : table).

(** The runtime: a queue per PE, and the CPU bindings of the system. *)
Class Csd : Type := {
  csd_st : Type;
  (** what PE [r] has still to handle, oldest first *)
  pending : Z → csd_st → list msg;
  CmiPushPE : Z → msg → csd_st → csd_st;
  (** PE [r] takes the oldest entry off *)
  CsdTake : Z → csd_st → csd_st;
  (** binding the calling PE to a CPU *)
  CmiSetCPUAffinity : Z → csd_st → csd_st;
  (** the CPUs the process may use, and those of a thread; [None]: the call fails *)
  sched_getaffinity : csd_st → option (list Z);
  pthread_getaffinity : Z → csd_st → option (list Z);
}.
Class CsdLaws `{Csd} : Prop := {
  push_here r m c : pending r (CmiPushPE r m c) = pending r c ++ [m];
  push_there r r' m c : r ≠ r' → pending r' (CmiPushPE r m c) = pending r' c;
  take_here r c : pending r (CsdTake r c) = tail (pending r c);
  take_there r r' c : r ≠ r' → pending r' (CsdTake r c) = pending r' c;
  bind_pending r n c : pending r (CmiSetCPUAffinity n c) = pending r c;
}.

(** ** Streams and PEs *)

Record ABTI_xstream : Type := mk_xstream {
  x_rank : Z;
  x_state : Z;
  main_sched : option ptr;
  primary : bool;
  cpubind : Z;
  affinity : list Z;
  (** [thread] once [thread_known] *)
  x_thread : option Z;
  finishing : bool;
  finished : bool;
  (** whether [jm] is locked *)
  jm : bool;
  x_joiners : list Z;
}.
#[global] Instance eta_xstream : Eta ABTI_xstream := λ x,
  mk_xstream (x_rank x) (x_state x) (main_sched x) (primary x) (cpubind x) (affinity x) (x_thread x)
    (finishing x) (finished x) (jm x) (x_joiners x).

(** The thread-local variables of a PE, its table, whether it sleeps when
    idle, its pthread, and the schedulers whose runner has been started on it
    and has not ended. *)
Record pe : Type := mk_pe {
  tls_xstream : option ptr;
  tls_held : option ptr;
  direct_count : Z;
  last_chain : Z;
  yielding : bool;
  p_table : table;
  sleep_on_idle : bool;
  p_thread : Z;
  runners : list ptr;
}.
#[global] Instance eta_pe : Eta pe := λ p,
  mk_pe (tls_xstream p) (tls_held p) (direct_count p) (last_chain p) (yielding p) (p_table p)
    (sleep_on_idle p) (p_thread p) (runners p).

Record xst `{Ext, Csd, Cth} : Type := mk_xst {
  xw : world;
  xheap : gmap Z ABTI_xstream;
  (** [ABTI_global] *)
  num_pes : Z;
  direct_burst : Z;
  xstreams : list (option ptr);
  primary_xstream : option ptr;
  primary_thread : option ptr;
  pes : gmap Z pe;
  csd : csd_st;
  xcth : cth_st;
}.
Arguments xst {_ _ _}.

(** Where a call is made: the PE's rank, and the thread running on it. *)
Record caller : Type := mk_caller {
  my_pe : option Z;
  my_self : option ptr;
}.
Definition ctx_of (c : caller) : context := mk_ctx (non_null (my_pe c)) (my_self c).

Section xstream.
Context `{E : Ext, R : Csd, C : Cth}.
#[global] Instance eta_xst : Eta xst := λ s,
  mk_xst _ _ _ (xw s) (xheap s) (num_pes s) (direct_burst s) (xstreams s) (primary_xstream s)
    (primary_thread s) (pes s) (csd s) (xcth s).

(** ** Accesses *)

Definition lift {A} (m : M world A) : M xst A := λ s,
  match m (xw s) with
  | Done a w => Done a (s <| xw := w |>)
  | Faulted f => Faulted f
  end.
Definition xstream (x : ptr) : M xst ABTI_xstream := λ s,
  match xheap s !! x with Some o => Done o s | None => Faulted BadDeref end.
Definition set_xstream (x : ptr) (f : ABTI_xstream → ABTI_xstream) : M xst unit := λ s,
  match xheap s !! x with
  | Some o => Done tt (s <| xheap ::= insert x (f o) |>)
  | None => Faulted BadDeref
  end.
Definition this_pe (r : Z) : M xst pe := λ s,
  match pes s !! r with Some p => Done p s | None => Faulted BadDeref end.
Definition set_pe (r : Z) (f : pe → pe) : M xst unit := λ s,
  match pes s !! r with
  | Some p => Done tt (s <| pes ::= insert r (f p) |>)
  | None => Faulted BadDeref
  end.
Definition send_pe_msg (r : Z) (m : msg) : M xst unit := modify (λ s, s <| csd ::= CmiPushPE r m |>).
Definition CsdSchedTableInstall (r : Z) (t : table) : M xst unit := send_pe_msg r (MTable t).
(** [ABTI_sched_build_table]: one entry, the scheduler's poll *)
Definition ABTI_sched_build_table (s : ptr) : table := TSched s.

Definition xcheck_init {A} (k : M xst (Z * option A)) : M xst (Z * option A) :=
  s ← get; if g_initialized (xw s) then k else err ABT_ERR_UNINITIALIZED.
Definition with_xstream {A} (h : Z) (k : ptr → M xst (Z * option A)) : M xst (Z * option A) :=
  match ABTI_xstream_get h with Some x => k x | None => err ABT_ERR_INV_XSTREAM end.

(** ** Leases *)

(** the rank of the first free entry of [l], whose first entry has rank [r] *)
Fixpoint first_free (r : Z) (l : list (option ptr)) : option Z :=
  match l with
  | [] => None
  | None :: _ => Some r
  | Some _ :: l => first_free (r + 1) l
  end.
Definition lease_rank (want n : Z) (l : list (option ptr)) : option Z :=
  if want <? 0 then first_free 1 (take (Z.to_nat (n - 1)) (drop 1 l))
  else if (want <=? 0) || (want >=? n) || non_null (mjoin (l !! Z.to_nat want)) then None
  else Some want.

Definition new_xstream (r : Z) (s : ptr) (prim : bool) : ABTI_xstream :=
  mk_xstream r ABT_XSTREAM_STATE_RUNNING (Some s) prim (-1) [] None false false false [].
Definition put_xstream (o : ABTI_xstream) : M xst ptr :=
  x ← lift new_addr; modify (λ s, s <| xheap ::= insert x o |>) ;; mret x.

Definition ABTI_xstream_lease (s : ptr) (want : Z) : M xst (Z * option ptr) :=
  g ← get;
  match lease_rank want (num_pes g) (xstreams g) with
  | None => mret (ABT_ERR_INV_XSTREAM_RANK, None)
  | Some r =>
      x ← put_xstream (new_xstream r s false);
      lift (set_sched s (λ o, o <| used_by := Some x |>)) ;;
      modify (λ g, g <| xstreams ::= insert (Z.to_nat r) (Some x) |>) ;;
      mret (ABT_SUCCESS, Some x)
  end.
(** the lease first, then the table: the PE knows its stream before the new
    table can pop a unit *)
Definition ABTI_xstream_install (x : ptr) : M xst unit :=
  o ← xstream x;
  send_pe_msg (x_rank o) (MLease x) ;;
  s ← deref (main_sched o);
  d ← lift (sched s);
  CsdSchedTableInstall (x_rank o) (if user_def d then TBuiltins else ABTI_sched_build_table s).

(** [ABT_xstream_create] and [ABT_xstream_create_with_rank] after their checks *)
Definition create_leased (hs want : Z) : M xst (Z * option Z) :=
  r ← (match ABTI_sched_get hs with
       | None => r ← lift (ABTI_sched_create_predef ABT_SCHED_DEFAULT 0 None); mret r.1
       | Some s => d ← lift (sched s);
                   mret (if non_null (used_by d) then (ABT_ERR_INV_SCHED, None) else (ABT_SUCCESS, Some s))
       end);
  match r.2 with
  | None => err r.1
  | Some s =>
      l ← ABTI_xstream_lease s want;
      match l.2 with
      | None => err l.1
      | Some x => ABTI_xstream_install x ;; ok (ABTI_xstream_handle (Some x))
      end
  end.
(** [newxstream]: the address the handle is stored at *)
Definition ABT_xstream_create (hs newxstream : Z) : M xst (Z * option Z) :=
  xcheck_init (if ABTI_is_null_handle newxstream then err ABT_ERR_INV_ARG else create_leased hs (-1)).
Definition ABT_xstream_create_basic (pd num_pools : Z) (arr : option (list Z)) (newxstream : Z) :
    M xst (Z * option Z) :=
  xcheck_init (
    r ← lift (ABTI_sched_create_predef pd num_pools arr);
    match r.1.2 with
    | None => err r.1.1
    | Some s => ABT_xstream_create (ABTI_sched_handle (Some s)) newxstream
    end).
Definition ABT_xstream_create_with_rank (hs rank : Z) : M xst (Z * option Z) :=
  xcheck_init (create_leased hs rank).

(** ** On the PE *)

(** The runner of a user scheduler: a Converse thread that executes [def.run]. *)
Definition ABTI_start_runner (r : Z) (s : ptr) : M xst unit :=
  u ← lift (ext (CthCreate s (1024 * 1024)));
  lift (set_sched s (λ o, o <| runner := Some u |>)) ;;
  set_pe r (λ p, p <| runners ::= λ l, l ++ [s] |>).
(** give the lease back: the default table, and behind it the message the
    joiner waits for *)
Definition ABTI_xstream_release (r : Z) (x : ptr) : M xst unit :=
  set_pe r (λ p, p <| tls_xstream := None |> <| sleep_on_idle := true |>) ;;
  CsdSchedTableInstall r TDefault ;;
  send_pe_msg r (MRelease x).
(** [sched_runner] from the return of [def.run] on; the whole of it, with the
    descriptor that wraps the runner, is in [Run] *)
Definition runner_end (r : Z) (s : ptr) : M xst unit :=
  lift (set_sched s (λ o, o <| runner := None |>)) ;;
  set_pe r (λ p, p <| runners ::= filter (λ q, q ≠ s) |>) ;;
  p ← this_pe r;
  match tls_xstream p with
  | Some x => o ← xstream x; when (bool_decide (main_sched o = Some s)) (ABTI_xstream_release r x)
  | None => mret tt
  end.

Definition lease_handler (r : Z) (x : ptr) : M xst unit :=
  set_pe r (λ p, p <| tls_xstream := Some x |>) ;;
  p ← this_pe r;
  set_xstream x (λ o, o <| x_thread := Some (p_thread p) |> <| x_state := ABT_XSTREAM_STATE_RUNNING |>) ;;
  set_pe r (λ p, p <| sleep_on_idle := false |>) ;;
  o ← xstream x;
  when (0 <=? cpubind o) (modify (λ s, s <| csd ::= CmiSetCPUAffinity (cpubind o) |>)) ;;
  s ← deref (main_sched o);
  d ← lift (sched s);
  when (user_def d) (ABTI_start_runner r s).
Definition affinity_handler (cpuid : Z) : M xst unit :=
  when (0 <=? cpuid) (modify (λ s, s <| csd ::= CmiSetCPUAffinity cpuid |>)).

(** [release_handler] in its parts: up to the lock of [jm]; the lock and the
    store of [finished]; the joiners taken, [jm] unlocked; each joiner awakened. *)
Definition release_begin (x : ptr) : M xst unit :=
  o ← xstream x;
  s ← deref (main_sched o);
  lift (set_sched s (λ d, d <| used_by := None |>)) ;;
  set_xstream x (λ o, o <| x_state := ABT_XSTREAM_STATE_TERMINATED |>).
Definition release_publish (x : ptr) : M xst unit :=
  set_xstream x (λ o, o <| jm := true |> <| finished := true |>).
Definition release_take (x : ptr) : M xst (list Z) :=
  o ← xstream x;
  set_xstream x (λ o, o <| x_joiners := [] |> <| jm := false |>) ;;
  mret (x_joiners o).
Definition awaken (j : Z) : M xst unit := modify (λ s, s <| xcth ::= CthAwakenIfBlocked j |>).

Fixpoint drained (ps : list ptr) : M world bool :=
  match ps with
  | [] => mret true
  | p :: ps =>
      n ← size p;
      if negb (n =? 0) then mret false else
      o ← pool p;
      if (num_scheds o <=? 1) && negb (num_blocked o =? 0) then mret false else drained ps
  end.
Definition pools_drained (r : Z) (s : ptr) : M xst bool :=
  p ← this_pe r;
  if non_null (tls_held p) then mret false else d ← lift (sched s); lift (drained (pools d)).

(** the constant [0.002] *)
Definition two_ms : double :=
  SFdiv 53 1024 (binary_normalize 53 1024 2 0 false) (binary_normalize 53 1024 1000 0 false).

(** [CcdPROCESSOR_STILL_IDLE]: the unit to run, if any.  [others]: what the
    rest of the program does to the pools while the PE sleeps. *)
Definition ABTI_xstream_idle_hook (r : Z) (others : M world unit) : M xst (option ptr) :=
  p ← this_pe r;
  match tls_xstream p with
  | None => mret None
  | Some x =>
      o ← xstream x;
      s ← deref (main_sched o);
      d ← lift (sched s);
      if user_def d then mret None else
      b ← (if finishing o then pools_drained r s else mret false);
      if (b : bool) then ABTI_xstream_release r x ;; mret None else
      match pools d with
      | p0 :: _ =>
          if negb (predef d =? ABT_SCHED_BASIC_WAIT) then mret None else
          q ← lift (pool p0);
          match (if user q then def q ≫= p_pop_timedwait else None) with
          | Some _ => now ← lift (ext CmiWallTimer); lift (pop_timedwait r p0 (dadd now two_ms) others)
          | None =>
              match tls_held p with
              | Some t => set_pe r (λ p, p <| tls_held := None |>) ;; mret (Some t)
              | None =>
                  lift (on_pool p0 (add_sleeper r) ;;
                    t ← pop r p0;
                    t ← (match t with Some _ => mret t | None => others ;; pop r p0 end);
                    on_pool p0 (remove_sleeper r) ;; mret t)
              end
          end
      | [] => mret None
      end
  end.

(** ** Changing the scheduler *)

Definition ABT_xstream_set_main_sched (c : caller) (h hs : Z) : M xst (Z * option unit) :=
  xcheck_init (with_xstream h (λ x,
    match ABTI_sched_get hs with
    | None => err ABT_ERR_INV_SCHED
    | Some s =>
        d ← lift (sched s);
        if non_null (used_by d) && negb (bool_decide (used_by d = Some x)) then err ABT_ERR_INV_SCHED else
        o ← xstream x;
        if decide (main_sched o = Some s) then done_ else
        set_xstream x (λ o, o <| main_sched := Some s |>) ;;
        lift (set_sched s (λ d, d <| used_by := Some x |>)) ;;
        old ← (match main_sched o with
               | Some old => lift (set_sched old (λ d, d <| used_by := None |>) ;;
                                   od ← sched old; mret (Some (old, od)))
               | None => mret None
               end);
        let leave := match old with
                     | Some (old, od) =>
                         when (user_def od)
                           (lift (set_sched old (λ d, d <| request ::= λ r, Z.lor r ABTI_SCHED_REQ_EXIT |>)))
                     | None => mret tt
                     end in
        (if user_def d then
           CsdSchedTableInstall (x_rank o) TBuiltins ;; leave ;;
           if decide (my_pe c = Some (x_rank o)) then ABTI_start_runner (x_rank o) s
           else send_pe_msg (x_rank o) (MLease x)
         else leave ;; CsdSchedTableInstall (x_rank o) (ABTI_sched_build_table s)) ;;
        (** the caller, if it lives in one of the old pools, moves to pools[0] *)
        (match my_self c, old, pools d with
         | Some t, Some (_, od), p0 :: _ =>
             lift (th ← thread t;
                   when (bool_decide (Exists (λ p, t_pool th = Some p) (pools od))) (ABTI_pool_associate t p0))
         | _, _, _ => mret tt
         end) ;;
        (match old with
         | Some (old, od) => when (truthy (s_automatic od)) (lift (ABTI_sched_destroy old))
         | None => mret tt
         end) ;;
        done_
    end)).
Definition ABT_xstream_set_main_sched_basic (c : caller) (h pd num_pools : Z) (arr : option (list Z)) :
    M xst (Z * option unit) :=
  r ← lift (ABTI_sched_create_predef pd num_pools arr);
  match r.1.2 with
  | None => err r.1.1
  | Some s => ABT_xstream_set_main_sched c h (ABTI_sched_handle (Some s))
  end.

(** ** Queries *)

Definition ABT_xstream_get_rank (h : Z) : M xst (Z * option Z) :=
  with_xstream h (λ x, o ← xstream x; ok (x_rank o)).
Definition ABT_xstream_get_main_sched (h : Z) : M xst (Z * option Z) :=
  with_xstream h (λ x, o ← xstream x; ok (ABTI_sched_handle (main_sched o))).
Definition ABT_xstream_get_main_pools (h max_pools : Z) : M xst (Z * option (list Z)) :=
  with_xstream h (λ x,
    o ← xstream x; s ← deref (main_sched o); d ← lift (sched s);
    ok ((λ p, ABTI_pool_handle (Some p)) <$> take (Z.to_nat max_pools) (pools d))).
Definition ABT_xstream_get_state (h : Z) : M xst (Z * option Z) :=
  with_xstream h (λ x, o ← xstream x; ok (x_state o)).
Definition ABT_xstream_equal (h1 h2 : Z) : M xst (Z * option Z) :=
  ok (if h1 =? h2 then ABT_TRUE else ABT_FALSE).
Definition ABT_xstream_get_num : M xst (Z * option Z) :=
  xcheck_init (s ← get; ok (Z.of_nat (length (filter (λ x, non_null x = true) (xstreams s))))).
Definition ABT_xstream_is_primary (h : Z) : M xst (Z * option Z) :=
  with_xstream h (λ x, o ← xstream x; ok (if primary o then ABT_TRUE else ABT_FALSE)).

(** ** Bindings *)

Definition CPU_SETSIZE : Z := 1024.
Definition cpu_allowed (s : xst) (n : Z) : bool :=
  (0 <=? n) && (n <? CPU_SETSIZE) &&
  match sched_getaffinity (csd s) with Some l => bool_decide (n ∈ l) | None => false end.
Definition ABT_xstream_set_cpubind (h cpuid : Z) : M xst (Z * option unit) :=
  with_xstream h (λ x,
    o ← xstream x;
    s ← get;
    if negb (cpu_allowed s cpuid) then err ABT_ERR_OTHER else
    set_xstream x (λ o, o <| cpubind := cpuid |>) ;;
    send_pe_msg (x_rank o) (MAffinity x cpuid) ;; done_).

(** the pthread of PE [r], recorded when it started *)
Definition pe_thread (r : Z) (s : xst) : option Z :=
  if (0 <=? r) && (r <? num_pes s) then p_thread <$> pes s !! r else None.
Definition ABTI_xstream_os_affinity (c : caller) (x : ptr) : M xst (Z * option (list Z)) :=
  o ← xstream x;
  s ← get;
  let t := match x_thread o with
           | Some t => Some t
           | None =>
               match pe_thread (x_rank o) s with
               | Some t => Some t
               | None => if decide (my_pe c = Some (x_rank o)) then p_thread <$> pes s !! x_rank o else None
               end
           end in
  match t ≫= λ t, pthread_getaffinity t (csd s) with
  | None | Some [] => err ABT_ERR_FEATURE_NA
  | Some l => ok l
  end.
Definition ABT_xstream_get_cpubind (c : caller) (h : Z) : M xst (Z * option Z) :=
  with_xstream h (λ x,
    o ← xstream x;
    if 0 <=? cpubind o then ok (cpubind o) else
    r ← ABTI_xstream_os_affinity c x;
    match r.2 with
    | Some (n :: _) => ok n
    | _ => err r.1
    end).
Definition ABT_xstream_set_affinity (h num_cpuids : Z) (cpuids : list Z) : M xst (Z * option unit) :=
  with_xstream h (λ x,
    xstream x ;;
    let l := take (Z.to_nat num_cpuids) cpuids in
    set_xstream x (λ o, o <| affinity := l |>) ;;
    if num_cpuids >? 0 then
      s ← get;
      match List.find (cpu_allowed s) l with
      | Some n => ABT_xstream_set_cpubind h n
      | None => n ← deref (head l); ABT_xstream_set_cpubind h n
      end
    else done_).
Definition ABT_xstream_get_affinity (c : caller) (h max_cpuids : Z) : M xst (Z * option (list Z * Z)) :=
  with_xstream h (λ x,
    o ← xstream x;
    r ← (match affinity o with
         | [] => ABTI_xstream_os_affinity c x
         | l => ok l
         end);
    match r.2 with
    | Some l => ok (take (Z.to_nat max_cpuids) l, wraps32 (Z.of_nat (length l)))
    | None => err r.1
    end).

(** ** Threads and streams *)

(** [x->main_sched->pools[0]], or nothing *)
Definition main_pool (x : ptr) : M xst (option ptr) :=
  o ← xstream x;
  match main_sched o with
  | None => mret None
  | Some s => d ← lift (sched s); mret (head (pools d))
  end.
Definition into_main_pool {A} (h : Z) (k : Z → M world (Z * option A)) : M xst (Z * option A) :=
  with_xstream h (λ x,
    p ← main_pool x;
    match p with Some _ => lift (k (ABTI_pool_handle p)) | None => err ABT_ERR_INV_XSTREAM end).
Definition ABT_thread_create_on_xstream (h f a at_ : Z) (newthread : bool) : M xst (Z * option Z) :=
  into_main_pool h (λ p, ABT_thread_create p f a at_ newthread).
Definition ABT_task_create_on_xstream (h f a : Z) (newtask : bool) : M xst (Z * option Z) :=
  into_main_pool h (λ p, task_create_impl p f a newtask).
Definition ABT_thread_migrate_to_xstream (th h : Z) : M xst (Z * option unit) :=
  into_main_pool h (λ p, ABT_thread_migrate_to_pool th p).

(** the main pool of the first stream whose rank is not [avoid] *)
Fixpoint other_pool (avoid : Z) (l : list (option ptr)) : M xst (option ptr) :=
  match l with
  | [] => mret None
  | None :: l => other_pool avoid l
  | Some x :: l =>
      o ← xstream x;
      if x_rank o =? avoid then other_pool avoid l else
      p ← main_pool x;
      match p with Some _ => mret p | None => other_pool avoid l end
  end.
(** the stream of the calling PE *)
Definition my_xstream (c : caller) (s : xst) : option ptr := r ← my_pe c; p ← pes s !! r; tls_xstream p.
Definition ABT_thread_migrate (c : caller) (h : Z) : M xst (Z * option unit) :=
  match ABTI_thread_get h with
  | None => err ABT_ERR_INV_THREAD
  | Some t =>
      th ← lift (thread t);
      s ← get;
      avoid ← (match last_xstream th with
               | Some x => o ← xstream x; mret (x_rank o)
               | None => match my_xstream c s with
                         | Some x => o ← xstream x; mret (x_rank o)
                         | None => mret (-1)
                         end
               end);
      p ← other_pool avoid (xstreams s);
      match p with
      | None => err ABT_ERR_MIGRATION_TARGET
      | Some p => lift (set_thread t (λ x, x <| migrate_to := Some p |>)) ;; done_
      end
  end.
(** the handle is written even on failure *)
Definition ABT_self_get_xstream (c : caller) : M xst (Z * option Z) :=
  s ← get;
  if negb (g_initialized (xw s)) then mret (ABT_ERR_UNINITIALIZED, Some ABT_XSTREAM_NULL) else
  match my_xstream c s with
  | None => mret (ABT_ERR_INV_XSTREAM, Some ABT_XSTREAM_NULL)
  | Some x => ok (ABTI_xstream_handle (Some x))
  end.
Definition ABT_self_get_xstream_rank (c : caller) : M xst (Z * option Z) :=
  xcheck_init (s ← get;
    match my_xstream c s with None => err ABT_ERR_INV_XSTREAM | Some x => o ← xstream x; ok (x_rank o) end).
Definition ABT_self_on_primary_xstream (c : caller) : M xst (Z * option Z) :=
  s ← get;
  if negb (g_initialized (xw s)) then mret (ABT_ERR_UNINITIALIZED, Some ABT_FALSE) else
  if is_null (my_pe c) then mret (ABT_ERR_INV_XSTREAM, Some ABT_FALSE) else
  match my_xstream c s with
  | None => ok ABT_FALSE
  | Some x => o ← xstream x; ok (if primary o then ABT_TRUE else ABT_FALSE)
  end.
Definition ABT_xstream_self (c : caller) : M xst (Z * option Z) := ABT_self_get_xstream c.
Definition ABT_xstream_self_rank (c : caller) : M xst (Z * option Z) := ABT_self_get_xstream_rank c.
End xstream.
