(* ===== verification/XstreamJoin.v ===== *)
(** * Joining and freeing execution streams

    [join_impl] and [ABT_xstream_free] of src/xstream.cpp wait for the stream's
    PE, which gives its lease back through its own message queue.  Threads and
    PEs therefore run on a machine that interleaves them: a step is one access
    of a thread inside these calls to the shared fields, one message handled by
    a PE (the release handler in its parts), a PE's decision to release its
    lease, the end of a user scheduler's loop, the creation of a stream, or
    anything else the program does to the [world].

    The key of a thread is its Converse thread.  The count of blocked threads
    of the joiner's pool ([ABTI_thread_block]) is in [Thread], not here, and what
    the awaken callback of an awakened joiner does (uncount, migrate, push:
    [Run.awaken_fn]) is a step of the rest of the program.  Nothing but the release
    handler awakens a joiner. *)

From S2P Require Import Prelude AbtTypes Config Objects Storage PoolList Sleepers PoolMpsc Pool.
From S2P Require Import Sched Sync Thread Xstream.

(** ** The calls *)

(** Where a thread is in [join_impl] of stream [x]; [fr]: the join is the one
    of [ABT_xstream_free], whose last three points follow it.  [JIdle r]:
    outside, [r] is what the last call returned. *)
Inductive point : Type :=
  | JIdle (ret : option Z)
  | JStart (x : ptr) (fr : bool)
  | JFast (x : ptr) (fr : bool)
  | JFinish (x : ptr) (fr : bool)
  | JRequest (x : ptr) (fr : bool)
  | JLock (x : ptr) (fr : bool)
  | JCheck (x : ptr) (fr : bool)
  | JBlocked (x : ptr) (fr : bool)
  | JSpin (x : ptr) (fr : bool)
  | FSched (x : ptr)
  | FSlot (x : ptr)
  | FDelete (x : ptr).
(** the stream of the call, and whether it frees it *)
Definition target (p : point) : option (ptr * bool) :=
  match p with
  | JIdle _ => None
  | JStart x fr | JFast x fr | JFinish x fr | JRequest x fr | JLock x fr | JCheck x fr
  | JBlocked x fr | JSpin x fr => Some (x, fr)
  | FSched x | FSlot x | FDelete x => Some (x, true)
  end.
Definition joined (x : ptr) (fr : bool) : point := if fr then FSched x else JIdle (Some ABT_SUCCESS).

(** What the release handler of a PE has still to do. *)
Inductive rest : Type :=
  | RLock (x : ptr)
  | RTake (x : ptr)
  | RWake (js : list Z).

Record jst `{Ext, Csd, Cth} : Type := mk_jst {
  jx : xst;
  (** each thread: whether it can block, and its point *)
  calls : gmap Z (bool * point);
  mid : gmap Z rest;
}.
Arguments jst {_ _ _}.

Section join.
Context `{E : Ext, R : Csd, C : Cth}.
#[global] Instance eta_jst : Eta jst := λ j, mk_jst _ _ _ (jx j) (calls j) (mid j).

(** What a call does before [join_impl]: an error, or the start of the join. *)
Definition entry {A} (h : Z) (s : xst) (k : ptr → A) (ret : Z → A) : A :=
  if negb (g_initialized (xw s)) then ret ABT_ERR_UNINITIALIZED else
  match ABTI_xstream_get h with Some x => k x | None => ret ABT_ERR_INV_XSTREAM end.
Definition ABT_xstream_join (h : Z) (s : xst) : point := entry h s (λ x, JStart x false) (λ r, JIdle (Some r)).
(** [addr]: the address the handle [h] is stored at *)
Definition ABT_xstream_free (addr h : Z) (s : xst) : point :=
  entry (if ABTI_is_null_handle addr then ABT_XSTREAM_NULL else h) s (λ x, JStart x true) (λ r, JIdle (Some r)).

(** [ABT_xstream_free] after the join *)
Definition free_sched (x : ptr) : M xst point :=
  o ← xstream x;
  (match main_sched o with
   | Some s => d ← lift (sched s); when (truthy (s_automatic d)) (lift (ABTI_sched_destroy s))
   | None => mret tt
   end) ;;
  mret (FSlot x).
Definition free_slot (x : ptr) : M xst point :=
  o ← xstream x;
  modify (λ s, s <| xstreams ::= insert (Z.to_nat (x_rank o)) None |>) ;;
  mret (FDelete x).
Definition free_delete (x : ptr) : M xst point :=
  xstream x ;; modify (λ s, s <| xheap ::= delete x |>) ;; mret (JIdle (Some ABT_SUCCESS)).

(** One step of thread [a] in [join_impl] and after it; [c] is where it runs. *)
Definition join_step (c : caller) (ult : bool) (a : Z) (p : point) : M xst point :=
  match p with
  | JIdle r => mret (JIdle r)
  | JStart x fr =>
      o ← xstream x;
      s ← get;
      mret (if primary o || bool_decide (my_xstream c s = Some x) then JIdle (Some ABT_ERR_INV_XSTREAM)
            else JFast x fr)
  | JFast x fr => o ← xstream x; mret (if finished o then joined x fr else JFinish x fr)
  | JFinish x fr => set_xstream x (λ o, o <| finishing := true |>) ;; mret (JRequest x fr)
  | JRequest x fr =>
      o ← xstream x;
      (match main_sched o with
       | Some s => lift (set_sched s (λ d, d <| request ::= λ r, Z.lor r ABTI_SCHED_REQ_FINISH |>))
       | None => mret tt
       end) ;;
      mret (if ult then JLock x fr else JSpin x fr)
  | JLock x fr => set_xstream x (λ o, o <| jm := true |>) ;; mret (JCheck x fr)
  | JCheck x fr =>
      o ← xstream x;
      if finished o then set_xstream x (λ o, o <| jm := false |>) ;; mret (joined x fr)
      else
        set_xstream x (λ o, o <| x_joiners ::= λ l, l ++ [a] |> <| jm := false |>) ;;
        modify (λ s, s <| xcth ::= CthSuspendBlocked a |>) ;;
        mret (JBlocked x fr)
  | JBlocked x fr => mret (joined x fr)
  | JSpin x fr => o ← xstream x; mret (if finished o then joined x fr else JSpin x fr)
  | FSched x => free_sched x
  | FSlot x => free_slot x
  | FDelete x => free_delete x
  end.
Definition locked (x : ptr) (s : xst) : bool := default false (jm <$> xheap s !! x).
(** A locked [jm] and a suspension hold a thread up. *)
Definition enabled (a : Z) (p : point) (s : xst) : bool :=
  match p with
  | JIdle _ => false
  | JLock x _ => negb (locked x s)
  | JBlocked _ _ => negb (is_blocked a (xcth s))
  | _ => true
  end.

(** What a PE does with the message [m] it has taken. *)
Definition handle (r : Z) (m : msg) : M xst unit :=
  modify (λ s, s <| csd ::= CsdTake r |>) ;;
  match m with
  | MLease x => lease_handler r x
  | MAffinity _ n => affinity_handler n
  | MTable t => set_pe r (λ p, p <| p_table := t |>)
  | MRelease x => release_begin x
  end.
Definition after_handle (r : Z) (m : msg) (md : gmap Z rest) : gmap Z rest :=
  match m with MRelease x => <[r := RLock x]> md | _ => md end.
(** ** Steps *)

(** The rest of the program may do anything to the [world] except free or
    re-purpose the main scheduler of a stream that still exists. *)
Record rely (h : gmap Z ABTI_xstream) (w w' : world) : Prop := {
  rl_scheds x o s d : h !! x = Some o → main_sched o = Some s → w_scheds w !! s = Some d →
    ∃ d', w_scheds w' !! s = Some d' ∧ used_by d' = used_by d ∧ user_def d' = user_def d ∧
      s_automatic d' = s_automatic d;
  rl_brk : w_brk w ≤ w_brk w';
}.
(** No thread is inside a call on [x] (that would free it). *)
Definition unused (x : ptr) (j : jst) : Prop := ∀ a u p fr, calls j !! a = Some (u, p) → target p ≠ Some (x, fr).
Definition unfreed (x : ptr) (j : jst) : Prop := ∀ a u p, calls j !! a = Some (u, p) → target p ≠ Some (x, true).

(** [gap]: threads may read [finished] in the moment between its publication
    and the unlock of [jm]. *)
Definition reads_early (p : point) (j : jst) : Prop :=
  match p with
  | JFast x _ | JSpin x _ => ∃ r, mid j !! r = Some (RTake x)
  | _ => False
  end.

Inductive jstep (gap : bool) (j : jst) : jst → Prop :=
  | step_env w : rely (xheap (jx j)) (xw (jx j)) w → jstep gap j (j <| jx ::= λ s, s <| xw := w |> |>)
  (** [ABT_xstream_create], [ABT_xstream_create_with_rank] on a scheduler of
      which no stream is left *)
  | step_create s want r x' : 256 ≤ s → is_Some (w_scheds (xw (jx j)) !! s) →
      (∀ x o, xheap (jx j) !! x = Some o → main_sched o ≠ Some s) →
      create_leased s want (jx j) = Done r x' → jstep gap j (j <| jx := x' |>)
  | step_bind x n r x' : is_Some (xheap (jx j) !! x) → unfreed x j →
      ABT_xstream_set_cpubind x n (jx j) = Done r x' → jstep gap j (j <| jx := x' |>)
  (** a thread enters a call *)
  | step_join a u ret h : calls j !! a = Some (u, JIdle ret) →
      (∀ x, ABTI_xstream_get h = Some x → is_Some (xheap (jx j) !! x) ∧ unfreed x j) →
      jstep gap j (j <| calls ::= insert a (u, ABT_xstream_join h (jx j)) |>)
  | step_free a u ret addr h : calls j !! a = Some (u, JIdle ret) →
      (∀ x, ABTI_xstream_get h = Some x → is_Some (xheap (jx j) !! x) ∧ unused x j) →
      jstep gap j (j <| calls ::= insert a (u, ABT_xstream_free addr h (jx j)) |>)
  | step_call a u p c p' x' : calls j !! a = Some (u, p) → enabled a p (jx j) = true →
      (gap = false → ¬ reads_early p j) →
      join_step c u a p (jx j) = Done p' x' →
      jstep gap j (j <| jx := x' |> <| calls ::= insert a (u, p') |>)
  (** PEs other than the primary's *)
  | step_msg r m l x' : 1 ≤ r < num_pes (jx j) → mid j !! r = None → pending r (csd (jx j)) = m :: l →
      handle r m (jx j) = Done tt x' →
      jstep gap j (j <| jx := x' |> <| mid ::= after_handle r m |>)
  | step_publish r x x' : mid j !! r = Some (RLock x) → locked x (jx j) = false →
      release_publish x (jx j) = Done tt x' → jstep gap j (j <| jx := x' |> <| mid ::= insert r (RTake x) |>)
  | step_take r x l x' : mid j !! r = Some (RTake x) → release_take x (jx j) = Done l x' →
      jstep gap j (j <| jx := x' |> <| mid ::= insert r (RWake l) |>)
  | step_wake r a l x' : mid j !! r = Some (RWake (a :: l)) → awaken a (jx j) = Done tt x' →
      jstep gap j (j <| jx := x' |> <| mid ::= insert r (RWake l) |>)
  | step_woken r : mid j !! r = Some (RWake []) → jstep gap j (j <| mid ::= delete r |>)
  (** the idle hook of a predefined scheduler gives the lease back *)
  | step_release r p x o s d x' : 1 ≤ r < num_pes (jx j) → mid j !! r = None → pes (jx j) !! r = Some p →
      tls_xstream p = Some x → xheap (jx j) !! x = Some o → finishing o = true →
      main_sched o = Some s → w_scheds (xw (jx j)) !! s = Some d → user_def d = false →
      ABTI_xstream_release r x (jx j) = Done tt x' → jstep gap j (j <| jx := x' |>)
  | step_runner r p s x' : 1 ≤ r < num_pes (jx j) → mid j !! r = None → pes (jx j) !! r = Some p → s ∈ runners p →
      runner_end r s (jx j) = Done tt x' → jstep gap j (j <| jx := x' |>).
Inductive jsteps (gap : bool) (j0 : jst) : jst → Prop :=
  | jsteps_refl : jsteps gap j0 j0
  | jsteps_step j j' : jsteps gap j0 j → jstep gap j j' → jsteps gap j0 j'.
End join.
