(* ===== verification/XstreamSafe.v ===== *)
(** * Streams are freed only when nothing uses them

    The invariant of the machine of [XstreamJoin]: for each PE, where its lease
    stands (its queue, its table, its thread-local stream and what its release
    handler has still to do move through a fixed sequence of phases); for each
    stream, that its scheduler exists, that it is registered and who waits for
    it; for each thread in a call, that its stream exists, and that freeing
    starts only after the release handler is done with the stream. *)

From S2P Require Import Prelude AbtTypes Config Objects Storage PoolList Sleepers PoolMpsc Pool.
From S2P Require Import Sched Sync Thread Xstream XstreamJoin.

(** ** Phases of a lease *)

(** The messages that move a lease on. *)
Definition is_ctl (m : msg) : bool := match m with MAffinity _ _ => false | _ => true end.
Definition ctl (q : list msg) : list msg := filter (λ m, is_ctl m = true) q.

Lemma ctl_app q m : ctl (q ++ [m]) = ctl q ++ (if is_ctl m then [m] else []).
Proof.
  unfold ctl. rewrite filter_app. f_equal. destruct (is_ctl m) eqn:Hm.
  - by rewrite filter_cons_True.
  - by rewrite filter_cons_False by congruence.
Qed.
Lemma ctl_cons m q : ctl (m :: q) = (if is_ctl m then [m] else []) ++ ctl q.
Proof.
  unfold ctl. destruct (is_ctl m) eqn:Hm.
  - by rewrite filter_cons_True.
  - by rewrite filter_cons_False by congruence.
Qed.

(** The handler of an earlier lease may still be awakening joiners. *)
Definition waking (m : option rest) : Prop := m = None ∨ ∃ l, m = Some (RWake l).

(** The PE of stream [x], whose table is [tb] and whose runners are [rs] while
    it is leased: its stream, table, runners and queue, the rest of its handler
    and whether the stream is finished. *)
Inductive lease (x : ptr) (tb : table) (rs : list ptr) :
    option ptr → table → list ptr → list msg → option rest → bool → Prop :=
  | l_sent m : waking m → lease x tb rs None TDefault [] [MLease x; MTable tb] m false
  | l_entered : lease x tb rs (Some x) TDefault rs [MTable tb] None false
  | l_running : lease x tb rs (Some x) tb rs [] None false
  | l_left_early : lease x tb rs None TDefault [] [MTable tb; MTable TDefault; MRelease x] None false
  | l_left : lease x tb rs None tb [] [MTable TDefault; MRelease x] None false
  | l_swapped : lease x tb rs None TDefault [] [MRelease x] None false
  | l_handler : lease x tb rs None TDefault [] [] (Some (RLock x)) false
  | l_published : lease x tb rs None TDefault [] [] (Some (RTake x)) true
  | l_done m : waking m → lease x tb rs None TDefault [] [] m true.
Definition vacant (t : option ptr) (T : table) (rn : list ptr) (q : list msg) (m : option rest) : Prop :=
  t = None ∧ T = TDefault ∧ rn = [] ∧ q = [] ∧ waking m.
#[export] Hint Constructors lease : core.

Definition table_of (s : ptr) (d : ABTI_sched) : table := if user_def d then TBuiltins else TSched s.
Definition runners_of (s : ptr) (d : ABTI_sched) : list ptr := if user_def d then [s] else [].

Section safe.
Context `{E : Ext, R : Csd, C : Cth} {HC : CthLaws} {HR : CsdLaws}.
Implicit Types (j : jst) (x y : ptr) (a b r : Z) (o : ABTI_xstream) (p q : point).

(** ** The invariant *)

Definition stream j x : option ABTI_xstream := xheap (jx j) !! x.
Definition sched_at j s : option ABTI_sched := w_scheds (xw (jx j)) !! s.
Definition slot j r : option ptr := mjoin (xstreams (jx j) !! Z.to_nat r).
Definition queue j r : list msg := ctl (pending r (csd (jx j))).
Definition at_ j a p : Prop := ∃ u, calls j !! a = Some (u, p).
Definition waits j a : bool := is_blocked a (xcth (jx j)).
Definition in_range j r : Prop := 1 ≤ r < num_pes (jx j).

(** The release handler is done with [x]. *)
Definition settled j x : Prop := ∃ o,
  stream j x = Some o ∧ primary o = false ∧ finished o = true ∧ x_joiners o = [] ∧
  ∀ r, mid j !! r ≠ Some (RTake x) ∧ mid j !! r ≠ Some (RLock x).

(** What a blocked joiner waits in. *)
Definition queued j a x : Prop := ∃ o, stream j x = Some o ∧
  (a ∈ x_joiners o ∨ settled j x ∧ ∃ l, mid j !! x_rank o = Some (RWake l) ∧ a ∈ l).
Definition call_ok j a p : Prop :=
  match p with
  | JIdle _ => True
  | JStart x _ | JFast x _ | JFinish x _ | JRequest x _ | JLock x _ | JCheck x _ | JSpin x _ => is_Some (stream j x)
  | JBlocked x _ => if waits j a then queued j a x else settled j x
  | FSched x => settled j x ∧ ∃ o s, stream j x = Some o ∧ main_sched o = Some s ∧ is_Some (sched_at j s)
  | FSlot x => settled j x
  | FDelete x => settled j x ∧ ∀ r, in_range j r → slot j r ≠ Some x
  end.

Record stream_ok j x o : Prop := {
  so_addr : 256 ≤ x < w_brk (xw (jx j));
  so_sched : ∃ s, main_sched o = Some s ∧
    (is_Some (sched_at j s) ∨ ∃ a, at_ j a (FSlot x) ∨ at_ j a (FDelete x));
  so_primary : primary o = true → finished o = false;
  so_registered : primary o = false →
    in_range j (x_rank o) ∧ (slot j (x_rank o) = Some x ∨ ∃ a, at_ j a (FDelete x));
  so_taken : finished o = true → x_joiners o = [] ∨ ∃ r, mid j !! r = Some (RTake x);
  so_nodup : NoDup (x_joiners o);
  so_joiners a : a ∈ x_joiners o → waits j a = true ∧ ∃ fr, at_ j a (JBlocked x fr);
}.
Record lock_ok j x o : Prop := {
  lo_check a fr : at_ j a (JCheck x fr) → jm o = true;
  lo_take r : mid j !! r = Some (RTake x) → jm o = true;
  lo_excl a fr r : at_ j a (JCheck x fr) → mid j !! r ≠ Some (RTake x);
  lo_one a b fr fr' : at_ j a (JCheck x fr) → at_ j b (JCheck x fr') → a = b;
}.
Definition rank_ok j r : Prop := ∃ pr, pes (jx j) !! r = Some pr ∧
  match slot j r with
  | Some x => ∃ o s tb rs, stream j x = Some o ∧ x_rank o = r ∧ primary o = false ∧ main_sched o = Some s ∧
      lease x tb rs (tls_xstream pr) (p_table pr) (runners pr) (queue j r) (mid j !! r) (finished o) ∧
      (finished o = false → ∃ d, sched_at j s = Some d ∧ tb = table_of s d ∧ rs = runners_of s d)
  | None => vacant (tls_xstream pr) (p_table pr) (runners pr) (queue j r) (mid j !! r)
  end.
Definition woken j r a : Prop := waits j a = true ∧ ∃ x fr o,
  at_ j a (JBlocked x fr) ∧ stream j x = Some o ∧ x_rank o = r ∧ settled j x.
Definition alone j : Prop := ∀ a b u v p q x fr, a ≠ b → calls j !! a = Some (u, p) →
  calls j !! b = Some (v, q) → target p = Some (x, true) → target q ≠ Some (x, fr).

Record jinv j : Prop := {
  ji_size : length (xstreams (jx j)) = Z.to_nat (num_pes (jx j));
  ji_brk : 256 ≤ w_brk (xw (jx j));
  ji_call a u p : calls j !! a = Some (u, p) → call_ok j a p;
  ji_alone : alone j;
  ji_stream x o : stream j x = Some o → stream_ok j x o;
  ji_sched x y o o' s : stream j x = Some o → stream j y = Some o' →
    main_sched o = Some s → main_sched o' = Some s → x = y;
  ji_lock x o : stream j x = Some o → lock_ok j x o;
  ji_rank r : in_range j r → rank_ok j r;
  ji_mid r m : mid j !! r = Some m → in_range j r;
  ji_woken r l : mid j !! r = Some (RWake l) → NoDup l ∧ ∀ a, a ∈ l → woken j r a;
}.

(** ** Steps that stay in one place *)

Definition fixed o := (x_rank o, main_sched o, primary o, finished o).
Definition core o := (fixed o, x_joiners o).

(** Thread [A], stream [X] and PE [K] aside, nothing of the above changes. *)
Record confined (A X K : option Z) j j' : Prop := {
  cf_calls b : Some b ≠ A → calls j' !! b = calls j !! b;
  cf_waits b : Some b ≠ A → waits j' b = waits j b;
  cf_stream y : Some y ≠ X → core <$> stream j' y = core <$> stream j y;
  cf_num : num_pes (jx j') = num_pes (jx j);
  cf_size : length (xstreams (jx j')) = length (xstreams (jx j));
  cf_brk : w_brk (xw (jx j)) ≤ w_brk (xw (jx j'));
  cf_fixed r y : in_range j r → Some r ≠ K → slot j r = Some y → fixed <$> stream j' y = fixed <$> stream j y;
  cf_sched y o s d : Some y ≠ X ∨ finished o = false → stream j y = Some o → main_sched o = Some s → sched_at j s = Some d →
    ∃ d', sched_at j' s = Some d' ∧ user_def d' = user_def d;
  cf_pe r pr : in_range j r → Some r ≠ K → pes (jx j) !! r = Some pr → ∃ pr', pes (jx j') !! r = Some pr' ∧
    tls_xstream pr' = tls_xstream pr ∧ p_table pr' = p_table pr ∧ runners pr' = runners pr;
  cf_queue r : in_range j r → Some r ≠ K → queue j' r = queue j r;
  cf_mid r : Some r ≠ K → mid j' !! r = mid j !! r;
  cf_slot r : in_range j r → Some r ≠ K → slot j' r = slot j r;
  (** at [K] too, for other streams and threads *)
  cf_mid_to r y : Some y ≠ X → (mid j' !! r = Some (RTake y) → mid j !! r = Some (RTake y)) ∧
    (mid j' !! r = Some (RLock y) → mid j !! r = Some (RLock y));
  cf_mid_of r y : Some y ≠ X → mid j !! r = Some (RTake y) → mid j' !! r = Some (RTake y);
  cf_slot_of r y : in_range j r → Some y ≠ X → slot j r = Some y ↔ slot j' r = Some y;
  cf_list r l b : Some b ≠ A → mid j !! r = Some (RWake l) → b ∈ l →
    ∃ l', mid j' !! r = Some (RWake l') ∧ b ∈ l';
  (** what [A] was doing *)
  cf_blocked a x fr : A = Some a → at_ j a (JBlocked x fr) → waits j a = true → X = Some x;
  cf_drop a x : A = Some a → at_ j a (FSlot x) → at_ j' a (FDelete x);
  cf_delete a x : A = Some a → at_ j a (FDelete x) → X = Some x;
}.

Section local.
Context (A X K : option Z) (j j' : jst) (CF : confined A X K j j').

Lemma cf_range r : in_range j' r ↔ in_range j r.
Proof. unfold in_range. by rewrite (cf_num _ _ _ _ _ CF). Qed.
Lemma core_eq o o' : core o' = core o →
  x_rank o' = x_rank o ∧ main_sched o' = main_sched o ∧ primary o' = primary o ∧ finished o' = finished o ∧
  x_joiners o' = x_joiners o.
Proof. unfold core, fixed. by intros [= -> -> -> -> ->]. Qed.
Lemma cf_to y o : Some y ≠ X → stream j y = Some o → ∃ o', stream j' y = Some o' ∧ core o' = core o.
Proof.
  intros Hy Ho. pose proof (cf_stream _ _ _ _ _ CF y Hy) as Hc. rewrite Ho in Hc. simpl in Hc.
  by apply fmap_Some in Hc as (o' & ? & ?); eauto.
Qed.
Lemma cf_from y o' : Some y ≠ X → stream j' y = Some o' → ∃ o, stream j y = Some o ∧ core o' = core o.
Proof.
  intros Hy Ho. pose proof (cf_stream _ _ _ _ _ CF y Hy) as Hc. rewrite Ho in Hc. simpl in Hc.
  symmetry in Hc. by apply fmap_Some in Hc as (o & ? & ?); eauto.
Qed.
Lemma at_keep b p : Some b ≠ A → at_ j b p → at_ j' b p.
Proof. intros Hb [u Hu]. exists u. by rewrite (cf_calls _ _ _ _ _ CF). Qed.
Lemma settled_keep y : Some y ≠ X → settled j y → settled j' y.
Proof.
  intros Hy (o & Ho & Hp & Hf & Hj & Hm). destruct (cf_to y o Hy Ho) as (o' & Ho' & Hc).
  apply core_eq in Hc as (_ & _ & Ep & Ef & Ej). exists o'. split_and!; try congruence.
  intros r. destruct (cf_mid_to _ _ _ _ _ CF r y Hy), (Hm r). split; intros ?; tauto.
Qed.
Lemma queued_keep b y : Some b ≠ A → Some y ≠ X → queued j b y → queued j' b y.
Proof.
  intros Hb Hy (o & Ho & Hor). destruct (cf_to y o Hy Ho) as (o' & Ho' & Hc).
  apply core_eq in Hc as (Er & _ & _ & _ & Ej). exists o'. split; [done|]. rewrite Er, Ej.
  destruct Hor as [?|(Hs & l & Hl & Hbl)]; [by left|right]. split; [by apply settled_keep|].
  by eapply cf_list.
Qed.
Lemma sched_keep y s o : Some y ≠ X ∨ finished o = false → stream j y = Some o → main_sched o = Some s →
  is_Some (sched_at j s) → is_Some (sched_at j' s).
Proof.
  intros Hy Ho Hs [d Hd]. destruct (cf_sched _ _ _ _ _ CF y o s d Hy Ho Hs Hd) as (d' & -> & _). done.
Qed.
Lemma call_keep b p : Some b ≠ A → (∀ x fr, target p = Some (x, fr) → Some x ≠ X) →
  call_ok j b p → call_ok j' b p.
Proof.
  intros Hb Hx. assert (∀ x, Some x ≠ X → is_Some (stream j x) → is_Some (stream j' x)) as Hl.
  { intros x Hn [o Ho]. destruct (cf_to x o Hn Ho) as (? & -> & _). done. }
  destruct p as [|x fr|x fr|x fr|x fr|x fr|x fr|x fr|x fr|x|x|x]; simpl in *; try specialize (Hx x _ eq_refl);
    try (by apply Hl); [done| | | |].
  - rewrite (cf_waits _ _ _ _ _ CF b Hb). destruct (waits j b); [by apply queued_keep|by apply settled_keep].
  - intros [Hs (o & s & Ho & Hms & Hsc)]. split; [by apply settled_keep|].
    destruct (cf_to x o Hx Ho) as (o' & Ho' & Hc). apply core_eq in Hc as (_ & Em & _).
    exists o', s. split_and!; [done|congruence|]. eapply sched_keep; eauto.
  - by apply settled_keep.
  - intros [Hs Hr]. split; [by apply settled_keep|]. intros r Hr' Hsl. rewrite cf_range in Hr'.
    apply (Hr r Hr'). by apply (cf_slot_of _ _ _ _ _ CF r x Hr' Hx).
Qed.
Lemma stream_keep y o' : Some y ≠ X → (∀ o, stream j y = Some o → stream_ok j y o) →
  stream j' y = Some o' → stream_ok j' y o'.
Proof.
  intros Hy Hok Ho'. destruct (cf_from y o' Hy Ho') as (o & Ho & Hc).
  apply core_eq in Hc as (Er & Em & Ep & Ef & Ej). destruct (Hok o Ho) as [S1 S2 S3 S4 S5 S6 S7].
  assert (∀ a, at_ j a (FDelete y) → at_ j' a (FDelete y)) as Hdel.
  { intros a Ha. apply at_keep; [|done]. intros <-. by apply Hy, (eq_sym (cf_delete _ _ _ _ _ CF a y eq_refl Ha)). }
  split; rewrite ?Er, ?Em, ?Ep, ?Ef, ?Ej; [| |done| | |done|].
  - pose proof (cf_brk _ _ _ _ _ CF). lia.
  - destruct S2 as (s & Hs & [Hl|[a [Ha|Ha]]]); exists s; (split; [done|]).
    + left. eapply sched_keep; eauto.
    + right. exists a. destruct (decide (Some a = A)) as [Heq|Hne].
      * right. by eapply cf_drop.
      * left. by apply at_keep.
    + right. exists a. right. by apply Hdel.
  - intros Hp. destruct (S4 Hp) as [Hr Hor]. split; [by rewrite cf_range|].
    destruct Hor as [Hsl|[a Ha]]; [left; by apply (cf_slot_of _ _ _ _ _ CF _ y Hr Hy)|right; exists a; by apply Hdel].
  - intros Hf. destruct (S5 Hf) as [?|[r Hr]]; [by left|right]. exists r. by eapply cf_mid_of.
  - intros a Ha. destruct (S7 a Ha) as [Hw [fr Hat]]. assert (Some a ≠ A) as Hne.
    { intros <-. by apply Hy, (eq_sym (cf_blocked _ _ _ _ _ CF a y fr eq_refl Hat Hw)). }
    rewrite (cf_waits _ _ _ _ _ CF a Hne). split; [done|]. exists fr. by apply at_keep.
Qed.
Lemma rank_keep r : in_range j r → Some r ≠ K → rank_ok j r → rank_ok j' r.
Proof.
  intros Hr HK (pr & Hp & Hm). destruct (cf_pe _ _ _ _ _ CF r pr Hr HK Hp) as (pr' & Hp' & Et & Etb & Ern).
  exists pr'. split; [done|]. rewrite Et, Etb, Ern, (cf_slot _ _ _ _ _ CF), (cf_queue _ _ _ _ _ CF), (cf_mid _ _ _ _ _ CF) by done.
  destruct (slot j r) as [x|] eqn:Hs; [|done]. destruct Hm as (o & s & tb & rs & Ho & Er & Epr & Ems & Hl & Hd).
  pose proof (cf_fixed _ _ _ _ _ CF r x Hr HK Hs) as Hfix. rewrite Ho in Hfix. simpl in Hfix.
  apply fmap_Some in Hfix as (o' & Ho' & Hfix). unfold fixed in Hfix. simplify_eq Hfix. intros E1 E2 E3 E4.
  exists o', s, tb, rs. rewrite <- E1, <- E2, <- E3, <- E4. split_and!; [done..|].
  intros Hf. destruct (Hd Hf) as (d & Hd1 & -> & ->).
  destruct (cf_sched _ _ _ _ _ CF x o s d (or_intror Hf) Ho Ems Hd1) as (d' & Hd' & Eu).
  exists d'. unfold table_of, runners_of. by rewrite Eu.
Qed.

(** What remains to be shown of a step: the thread, the threads of the stream,
    the stream, the PE, and the locks. *)
Lemma jinv_local : jinv j →
  (∀ a u p, A = Some a → calls j' !! a = Some (u, p) → call_ok j' a p) →
  alone j' →
  (∀ b u p x fr, Some b ≠ A → calls j !! b = Some (u, p) → X = Some x → target p = Some (x, fr) → call_ok j' b p) →
  (∀ x o, X = Some x → stream j' x = Some o → stream_ok j' x o ∧
    ∀ y o' s, y ≠ x → stream j' y = Some o' → main_sched o = Some s → main_sched o' ≠ Some s) →
  (∀ x o, stream j' x = Some o → lock_ok j' x o) →
  (∀ r, K = Some r → in_range j r ∧ rank_ok j' r) →
  (∀ r l, mid j' !! r = Some (RWake l) → NoDup l ∧ ∀ a, a ∈ l → woken j' r a) →
  jinv j'.
Proof.
  intros [J1 J2 J3 J4 J5 J6 J7 J8 J9 J10] OA OL OT OX OK OR OW. split.
  - by rewrite (cf_size _ _ _ _ _ CF), (cf_num _ _ _ _ _ CF).
  - pose proof (cf_brk _ _ _ _ _ CF). lia.
  - intros b u p Hb. destruct (decide (Some b = A)) as [Heq|Hne]; [by eapply OA|].
    pose proof (cf_calls _ _ _ _ _ CF b Hne) as Ec. rewrite Hb in Ec. symmetry in Ec.
    destruct (target p) as [[x fr]|] eqn:Ht.
    + destruct (decide (Some x = X)) as [HX|HX]; [by eapply OT|].
      apply call_keep; [done| |by eapply J3]. intros ? ? ?. simplify_eq. done.
    + apply call_keep; [done|by rewrite Ht|by eapply J3].
  - done.
  - intros y o Ho. destruct (decide (Some y = X)) as [Heq|Hne]; [by eapply OX|].
    by eapply stream_keep; [|auto|].
  - intros x y o o' s Hx Hy Hs Hs'. destruct (decide (x = y)) as [|Hne]; [done|]. exfalso.
    destruct (decide (Some x = X)) as [Heq|HnX].
    + by eapply (proj2 (OX x o (eq_sym Heq) Hx)).
    + destruct (decide (Some y = X)) as [Heq|HnY].
      * by eapply (proj2 (OX y o' (eq_sym Heq) Hy)).
      * destruct (cf_from x o HnX Hx) as (o1 & H1 & C1), (cf_from y o' HnY Hy) as (o2 & H2 & C2).
        apply core_eq in C1 as (_ & E1 & _), C2 as (_ & E2 & _). apply Hne. apply (J6 x y o1 o2 s); [done|done|congruence..].
  - done.
  - intros r Hr. rewrite cf_range in Hr. destruct (decide (Some r = K)) as [Heq|Hne]; [by apply OR|].
    apply rank_keep; auto.
  - intros r m Hm. rewrite cf_range. destruct (decide (Some r = K)) as [Heq|Hne]; [by apply OR|].
    rewrite (cf_mid _ _ _ _ _ CF) in Hm by done. by eapply J9.
  - done.
Qed.

Lemma woken_keep :
  (∀ r l, mid j' !! r = Some (RWake l) → ∃ l0, mid j !! r = Some (RWake l0) ∧ l `sublist_of` l0 ∧
    ∀ a, A = Some a → a ∉ l) →
  (∀ b x o fr, X = Some x → Some b ≠ A → at_ j b (JBlocked x fr) → stream j x = Some o → settled j x →
    settled j' x ∧ ∃ o', stream j' x = Some o' ∧ x_rank o' = x_rank o) →
  jinv j → ∀ r l, mid j' !! r = Some (RWake l) → NoDup l ∧ ∀ a, a ∈ l → woken j' r a.
Proof.
  intros Hl HX HJ r l Hm. destruct (Hl r l Hm) as (l0 & Hm0 & Hsub & HA).
  destruct (ji_woken _ HJ r l0 Hm0) as [Hnd Hw]. split; [by eapply sublist_NoDup|].
  intros a Ha. assert (Some a ≠ A) as Hne by (intros <-; by eapply HA).
  destruct (Hw a) as (Ew & x & fr & o & Hat & Ho & Er & Hs); [by eapply elem_of_sublist|].
  split; [by rewrite (cf_waits _ _ _ _ _ CF)|].
  assert (settled j' x ∧ ∃ o', stream j' x = Some o' ∧ x_rank o' = x_rank o) as (Hs' & o' & Ho' & Er').
  { destruct (decide (Some x = X)) as [HXx|HXx]; [by eapply HX|]. split; [by apply settled_keep|].
    destruct (cf_to x o HXx Ho) as (o' & ? & Hc). apply core_eq in Hc. naive_solver. }
  exists x, fr, o'. split_and!; [by apply at_keep|done|congruence|done].
Qed.
Lemma locks_keep (L : option Z) :
  (∀ y o', Some y ≠ L → stream j' y = Some o' → ∃ o, stream j y = Some o ∧ jm o' = jm o) →
  (∀ b x fr, Some x ≠ L → at_ j' b (JCheck x fr) → at_ j b (JCheck x fr)) →
  (∀ r x, Some x ≠ L → mid j' !! r = Some (RTake x) → mid j !! r = Some (RTake x)) →
  (∀ x o, L = Some x → stream j' x = Some o → lock_ok j' x o) →
  jinv j → ∀ x o, stream j' x = Some o → lock_ok j' x o.
Proof.
  intros Hs Hc Hm HL HJ x o' Ho'. destruct (decide (Some x = L)) as [Heq|Hne]; [by apply HL|].
  destruct (Hs x o' Hne Ho') as (o & Ho & Ej). destruct (ji_lock _ HJ x o Ho) as [L1 L2 L3 L4].
  split; rewrite ?Ej; naive_solver.
Qed.
End local.

Lemma alone_insert j a u p p' :
  calls j !! a = Some (u, p) → target p' = None ∨ target p' = target p → alone j →
  alone (j <| calls ::= insert a (u, p') |>).
Proof.
  intros Ha Hp Hal b c v v' q q' x fr Hne Hb Hc Ht Ht'. simpl in *.
  rewrite lookup_insert in Hb, Hc. destruct (decide (a = b)) as [<-|Hba], (decide (a = c)) as [<-|Hca];
    simplify_eq.
  - destruct Hp as [Hp|Hp]; [congruence|]. by apply (Hal a c _ _ p q' x fr Hne Ha Hc); [congruence|].
  - destruct Hp as [Hp|Hp]; [congruence|]. by apply (Hal b a _ _ q p x fr Hne Hb Ha Ht); congruence.
  - by apply (Hal b c _ _ _ _ x fr Hne Hb Hc).
Qed.
Lemma at_insert j a u p b q : b ≠ a → at_ (j <| calls ::= insert a (u, p) |>) b q ↔ at_ j b q.
Proof. intros Hne. unfold at_. simpl. by rewrite lookup_insert_ne. Qed.
Lemma at_inserted j a u p q : at_ (j <| calls ::= insert a (u, p) |>) a q ↔ p = q.
Proof.
  unfold at_. simpl. rewrite lookup_insert_eq. split; [by intros [? [= -> ->]]|]. intros ->. eauto.
Qed.
Lemma at_call j a u p q : calls j !! a = Some (u, p) → at_ j a q → q = p.
Proof. intros Ha [v Hv]. congruence. Qed.

(** ** The environment *)

Lemma env_inv j w : rely (xheap (jx j)) (xw (jx j)) w → jinv j → jinv (j <| jx ::= λ g, g <| xw := w |> |>).
Proof.
  intros [Hr Hb] HJ. set (j' := j <| jx ::= _ |>).
  assert (confined None None None j j') as CF.
  { split; try done; try (by eauto); try tauto.
    intros y o s d _ Ho Hs Hd. destruct (Hr y o s d Ho Hs Hd) as (d' & ? & _ & ? & _). eauto. }
  apply (jinv_local _ _ _ _ _ CF HJ); try done.
  - apply (ji_alone _ HJ).
  - intros x o Ho. destruct (ji_lock _ HJ x o Ho) as [? ? ? ?]. by split.
  - intros r l Hl. apply (woken_keep _ _ _ _ _ CF); [|done|done|done]. intros r0 l0 Hl0. by exists l0.
Qed.

(** ** Threads *)

(** Entering a call. *)
Lemma start_inv j a u ret x fr :
  calls j !! a = Some (u, JIdle ret) → is_Some (stream j x) → unfreed x j → (fr = true → unused x j) →
  jinv j → jinv (j <| calls ::= insert a (u, JStart x fr) |>).
Proof.
  intros Ha Hx Hfree Hun HJ. set (j' := j <| calls ::= _ |>).
  assert (∀ p, at_ j a p → p = JIdle ret) as Hid by (intros p; by eapply at_call).
  assert (confined (Some a) None None j j') as CF.
  { split; try done; try (by eauto); try tauto.
    - intros b Hb. simpl. rewrite lookup_insert_ne; [done|congruence].
    - intros b y fr' [= <-] Hat. by apply Hid in Hat.
    - intros b y [= <-] Hat. by apply Hid in Hat.
    - intros b y [= <-] Hat. by apply Hid in Hat. }
  apply (jinv_local _ _ _ _ _ CF HJ); try done.
  - intros b v p [= <-]. simpl. rewrite lookup_insert_eq. by intros [= <- <-].
  - intros b c v v' q q' y f Hne. simpl. rewrite !lookup_insert.
    destruct (decide (a = b)) as [<-|Hba], (decide (a = c)) as [<-|Hca]; [done|..].
    + intros [= <- <-] Hc [= <- ->] Ht. by eapply (Hun eq_refl).
    + intros Hb [= <- <-] Ht [= <- ->]. by eapply Hfree.
    + apply (ji_alone _ HJ b c); done.
  - apply (locks_keep j j' None); try done; [eauto|]. intros b y f _ Hat.
    destruct (decide (b = a)) as [->|Hne]; [by apply at_inserted in Hat|by apply at_insert in Hat].
  - intros r l Hl. apply (woken_keep _ _ _ _ _ CF); [|done|done|done]. intros r0 l0 Hl0. exists l0.
    split_and!; [done..|]. intros b [= <-] Hin.
    destruct (ji_woken _ HJ r0 l0 Hl0) as [_ Hw]. destruct (Hw a Hin) as (_ & y & f & o & Hat & _).
    by apply Hid in Hat.
Qed.

Lemma mid_slot j r m x : jinv j → mid j !! r = Some m → m = RLock x ∨ m = RTake x →
  slot j r = Some x ∧ ∃ o, stream j x = Some o ∧ x_rank o = r ∧ (m = RLock x → finished o = false).
Proof.
  intros HJ Hm Hor. destruct (ji_rank _ HJ r (ji_mid _ HJ r m Hm)) as (pr & Hp & Hs). rewrite Hm in Hs.
  assert (¬ waking (Some m)) as Hw by (intros [?|[l Hl]]; [done|]; destruct Hor; congruence).
  destruct (slot j r) as [y|]; [|by destruct Hs as (_ & _ & _ & _ & ?)].
  destruct Hs as (o & s & tb & rs & Ho & Er & _ & _ & Hl & _).
  inversion Hl; subst; try done; destruct Hor as [?|?]; simplify_eq;
    (split; [done|]); exists o; (split_and!; [done|done|]); intros ?; congruence.
Qed.
Lemma finished_settled j x o : jinv j → stream j x = Some o → finished o = true →
  (∀ r, mid j !! r ≠ Some (RTake x)) → settled j x.
Proof.
  intros HJ Ho Hf Ht. destruct (ji_stream _ HJ x o Ho) as [_ _ S3 _ S5 _ _].
  exists o. split_and!; [done| |done| |].
  - destruct (primary o); [|done]. rewrite S3 in Hf; done.
  - destruct (S5 Hf) as [|[r Hr]]; [done|]. by apply Ht in Hr.
  - intros r. split; [apply Ht|]. intros Hm. destruct (mid_slot j r _ x HJ Hm) as (_ & o' & Ho' & _ & Hf'); [by left|].
    specialize (Hf' eq_refl). congruence.
Qed.
(** Returning from the join, into the rest of the free. *)
Lemma joined_ok j a u p x fr : jinv j → calls j !! a = Some (u, p) → target p = Some (x, fr) →
  p ≠ FSlot x → p ≠ FDelete x → settled j x → call_ok j a (joined x fr).
Proof.
  intros HJ Ha Ht Hp1 Hp2 Hs. destruct fr; [|done]. simpl. split; [done|].
  destruct Hs as (o & Ho & _). destruct (ji_stream _ HJ x o Ho) as [_ (s & Hs & Hor) _ _ _ _ _].
  exists o, s. split_and!; [done..|]. destruct Hor as [|[b Hb]]; [done|]. exfalso.
  assert (∃ q, at_ j b q ∧ q ≠ p ∧ target q = Some (x, true)) as (q & [v Hq] & Hne & Ht').
  { destruct Hb; eexists; (split; [done|]); split; [congruence|done|congruence|done]. }
  assert (a ≠ b) as Hab by (intros ->; congruence).
  by apply (ji_alone _ HJ a b u v p q x true).
Qed.

(** The PEs, queues and blocked threads are the same, and of the streams all
    but the lock. *)
Record same_core (g g' : xst) : Prop := {
  sc_stream x : core <$> xheap g' !! x = core <$> xheap g !! x;
  sc_sched s : user_def <$> w_scheds (xw g') !! s = user_def <$> w_scheds (xw g) !! s;
  sc_brk : w_brk (xw g') = w_brk (xw g);
  sc_rest : num_pes g' = num_pes g ∧ xstreams g' = xstreams g ∧ pes g' = pes g ∧ csd g' = csd g ∧ xcth g' = xcth g;
}.
Definition before_free (p : point) : bool := match p with FSlot _ | FDelete _ => false | _ => true end.

Lemma woken_awake j r l a p : jinv j → mid j !! r = Some (RWake l) → (∀ q, at_ j a q → q = p) →
  (∀ x fr, p = JBlocked x fr → waits j a = false) → a ∉ l.
Proof.
  intros HJ Hl Hid Hb Hin. destruct (ji_woken _ HJ r l Hl) as [_ Hw].
  destruct (Hw a Hin) as (Hw1 & y & f & o & Hat & _). apply Hid in Hat as <-. by rewrite (Hb y f) in Hw1.
Qed.
Lemma check_insert j a u p b x fr : p ≠ JCheck x fr →
  at_ (j <| calls ::= insert a (u, p) |>) b (JCheck x fr) → b ≠ a ∧ at_ j b (JCheck x fr).
Proof.
  intros Hp Hat. destruct (decide (b = a)) as [->|Hne]; [by apply at_inserted in Hat|].
  by rewrite at_insert in Hat.
Qed.

Lemma agent_inv j a u p p' g : same_core (jx j) g → calls j !! a = Some (u, p) →
  before_free p = true → before_free p' = true → (∀ x fr, p' ≠ JBlocked x fr) →
  (∀ x fr, p = JBlocked x fr → waits j a = false) → target p' = None ∨ target p' = target p →
  call_ok j a p' →
  (∀ x o, stream (j <| jx := g |>) x = Some o → lock_ok (j <| jx := g |> <| calls ::= insert a (u, p') |>) x o) →
  jinv j → jinv (j <| jx := g |> <| calls ::= insert a (u, p') |>).
Proof.
  intros [Q1 Q3 Q4 (Q5 & Q6 & Q7 & Q8 & Q9)] Ha Hp Hp' Hnb Hb Ht Hok HL HJ. set (j' := _ <| calls ::= _ |>).
  assert (∀ q, at_ j a q → q = p) as Hid by (intros q; by eapply at_call).
  assert (∀ s d, sched_at j s = Some d → ∃ d', sched_at j' s = Some d' ∧ user_def d' = user_def d) as Hsc.
  { intros s d Hd. specialize (Q3 s). unfold sched_at in *. rewrite Hd in Q3. simpl in Q3.
    by apply fmap_Some in Q3 as (d' & ? & ?); eauto. }
  assert (confined (Some a) None None j j') as CF.
  { unfold j'. split; try done; try (by eauto); try tauto.
    - intros b Hne. simpl. rewrite lookup_insert_ne; [done|congruence].
    - intros b Hne. unfold waits. simpl. by rewrite Q9.
    - intros. simpl. by rewrite Q6.
    - simpl. lia.
    - intros r y _ _ _. specialize (Q1 y). unfold stream in *. simpl.
      destruct (xheap g !! y), (xheap (jx j) !! y); try done. simpl in *. f_equal. unfold core in *. congruence.
    - intros r pr _ _ Hpr. simpl. rewrite Q7. eauto.
    - intros. unfold queue. simpl. by rewrite Q8.
    - intros. unfold slot. simpl. by rewrite Q6.
    - intros. unfold slot. simpl. by rewrite Q6.
    - intros b x fr [= <-] Hat Hw. apply Hid in Hat as <-. by rewrite (Hb x fr) in Hw.
    - intros b x [= <-] Hat. by apply Hid in Hat as <-.
    - intros b x [= <-] Hat. by apply Hid in Hat as <-. }
  apply (jinv_local _ _ _ _ _ CF HJ); try done.
  - intros b v q [= <-]. simpl. rewrite lookup_insert_eq. intros [= <- <-].
    destruct p' as [|x fr|x fr|x fr|x fr|x fr|x fr|x fr|x fr|x|x|x]; try done; simpl in Hok |- *.
    all: try (destruct Hok as [o Ho]; by destruct (cf_to _ _ _ _ _ CF x o ltac:(done) Ho) as (? & -> & _)).
    + by destruct (Hnb x fr).
    + destruct Hok as [Hset (o & s & Ho & Hs & Hl)]. split; [by apply (settled_keep _ _ _ _ _ CF)|].
      destruct (cf_to _ _ _ _ _ CF x o ltac:(done) Ho) as (o' & Ho' & Hc). apply core_eq in Hc as (_ & Em & _).
      exists o', s. split_and!; [done|congruence|]. destruct Hl as [d Hd]. destruct (Hsc s d Hd) as (? & -> & _). done.
  - by eapply (alone_insert (j <| jx := g |>)), (ji_alone _ HJ).
  - intros r l Hl. apply (woken_keep _ _ _ _ _ CF); [|done|done|done]. intros r0 l0 Hl0. exists l0.
    split_and!; [done..|]. intros b [= <-]. by eapply woken_awake.
Qed.

(** The lock too is as it was. *)
Lemma quiet_inv j a u p p' g : same_core (jx j) g → (∀ x, jm <$> xheap g !! x = jm <$> xheap (jx j) !! x) →
  calls j !! a = Some (u, p) → before_free p = true → before_free p' = true → (∀ x fr, p' ≠ JBlocked x fr) →
  (∀ x fr, p' ≠ JCheck x fr) →
  (∀ x fr, p = JBlocked x fr → waits j a = false) → target p' = None ∨ target p' = target p → call_ok j a p' →
  jinv j → jinv (j <| jx := g |> <| calls ::= insert a (u, p') |>).
Proof.
  intros Hsc Hjm Ha Hp Hp' Hnb Hnc Hb Ht Hok HJ. eapply agent_inv; [done..| |done]. set (j' := _ <| calls ::= _ |>).
  apply (locks_keep j j' None); try done.
  - intros y o' _ Ho'. specialize (Hjm y). unfold stream in *. simpl in Ho'. rewrite Ho' in Hjm. simpl in Hjm.
    symmetry in Hjm. by apply fmap_Some in Hjm as (o & ? & ?); eauto.
  - intros b y f _ Hat. by apply check_insert in Hat as [_ Hat].
Qed.
(** One stream's lock changes. *)
Lemma set_core g x o o' : xheap g !! x = Some o → core o' = core o → same_core g (g <| xheap ::= insert x o' |>).
Proof.
  intros Ho Hc. split; [|done..]. intros y. simpl. rewrite lookup_insert.
  destruct (decide (x = y)) as [<-|]; [|done]. rewrite Ho. simpl. by rewrite Hc.
Qed.
Lemma lock_inv j a u p p' x o o' : stream j x = Some o → core o' = core o → calls j !! a = Some (u, p) →
  before_free p = true → before_free p' = true → (∀ x fr, p' ≠ JBlocked x fr) → (∀ y fr, y ≠ x → p' ≠ JCheck y fr) →
  (∀ x fr, p = JBlocked x fr → waits j a = false) → target p' = None ∨ target p' = target p → call_ok j a p' →
  lock_ok (j <| calls ::= insert a (u, p') |>) x o' →
  jinv j → jinv (j <| jx ::= λ g, g <| xheap ::= insert x o' |> |> <| calls ::= insert a (u, p') |>).
Proof.
  intros Ho Hc Ha Hp Hp' Hnb Hnc Hb Ht Hok HL HJ.
  apply (agent_inv j a u p p'); [by eapply set_core|done..| |done]. set (j' := _ <| calls ::= _ |>).
  apply (locks_keep j j' (Some x)); try done.
  - intros y o1 Hne Ho1. exists o1. unfold stream in *. simpl in Ho1.
    rewrite lookup_insert_ne in Ho1 by congruence. done.
  - intros b y f Hne Hat. assert (p' ≠ JCheck y f) by (apply Hnc; congruence).
    by apply check_insert in Hat as [_ Hat].
  - intros y o1 [= <-] Ho1. unfold stream in Ho1. simpl in Ho1. rewrite lookup_insert_eq in Ho1. simplify_eq.
    destruct HL. by split.
Qed.

(** A thread joins the list of an unfinished stream and blocks. *)
Lemma block_inv j a u x fr o : stream j x = Some o → finished o = false → calls j !! a = Some (u, JCheck x fr) →
  jinv j → jinv (j <| jx ::= λ g, g <| xheap ::= insert x (o <| x_joiners ::= λ l, l ++ [a] |> <| jm := false |>) |>
    <| xcth ::= CthSuspendBlocked a |> |> <| calls ::= insert a (u, JBlocked x fr) |>).
Proof.
  intros Ho Hf Ha HJ. set (j' := _ <| calls ::= _ |>). set (o' := _ <| jm := false |>) in j'.
  assert (∀ q, at_ j a q → q = JCheck x fr) as Hid by (intros q; by eapply at_call).
  assert (stream j' x = Some o') as Ho' by apply lookup_insert_eq.
  assert (∀ y, y ≠ x → stream j' y = stream j y) as Hst by (intros; by apply lookup_insert_ne).
  assert (¬ settled j x) as Hns by (intros (o1 & ? & _ & ? & _); congruence).
  assert (waits j' a = true) as Hwa by apply suspend_blocks.
  assert (confined (Some a) (Some x) None j j') as CF.
  { split; try done; try (by eauto); try tauto.
    - intros b Hne. simpl. rewrite lookup_insert_ne; [done|congruence].
    - intros b Hne. apply suspend_other. congruence.
    - intros y Hy. rewrite Hst; [done|congruence].
    - intros r y _ _ Hs. destruct (decide (y = x)) as [->|]; [|by rewrite Hst]. by rewrite Ho, Ho'.
    - intros b y f [= <-] Hat. by apply Hid in Hat.
    - intros b y [= <-] Hat. by apply Hid in Hat.
    - intros b y [= <-] Hat. by apply Hid in Hat. }
  apply (jinv_local _ _ _ _ _ CF HJ).
  - intros b v q [= <-]. simpl. rewrite lookup_insert_eq. intros [= <- <-]. simpl. rewrite Hwa.
    exists o'. split; [done|]. left. simpl. apply elem_of_app. right. by left.
  - eapply (alone_insert (j <| jx ::= _ |>)); [done|by right|]. apply (ji_alone _ HJ).
  - intros b v q y f Hne Hb [= <-] Ht. pose proof (ji_call _ HJ b v q Hb) as Hok.
    destruct q; simpl in *; simplify_eq; try (by rewrite Ho'); try done; [|by destruct Hok..].
    rewrite (cf_waits _ _ _ _ _ CF b Hne). destruct (waits j b); [|done].
    destruct Hok as (o1 & Ho1 & [Hin|[Hs _]]); [|done]. simplify_eq. exists o'. split; [done|]. left. simpl. set_solver.
  - intros y o1 [= <-] Ho1. simplify_eq. destruct (ji_stream _ HJ x o Ho) as [S1 S2 S3 S4 S5 S6 S7]. split.
    + split; try done.
      * destruct S2 as (s & Hs & Hor). exists s. split; [done|]. destruct Hor as [|[b Hb]]; [by left|right].
        exists b. assert (b ≠ a) as Hne by (intros ->; destruct Hb as [Hb|Hb]; by apply Hid in Hb).
        unfold j'. by rewrite !at_insert.
      * intros Hp. destruct (S4 Hp) as [? Hor]. split; [done|]. destruct Hor as [|[b Hb]]; [by left|right].
        exists b. assert (b ≠ a) as Hne by (intros ->; by apply Hid in Hb). unfold j'. by rewrite at_insert.
      * simpl. congruence.
      * simpl. apply NoDup_app. split_and!; [done| |apply NoDup_singleton].
        intros b Hb ->%list_elem_of_singleton. destruct (S7 a Hb) as [_ [f Hat]]. by apply Hid in Hat.
      * simpl. intros b [Hb| ->%list_elem_of_singleton]%elem_of_app.
        -- destruct (S7 b Hb) as [Hw [f Hat]]. assert (b ≠ a) as Hne by (intros ->; by apply Hid in Hat).
           rewrite (cf_waits _ _ _ _ _ CF) by congruence. split; [done|]. exists f. unfold j'. by rewrite at_insert.
        -- split; [done|]. exists fr. by apply at_inserted.
    + intros y o1 s Hy Hy1 Hs Hs'. rewrite Hst in Hy1 by done. apply Hy, (ji_sched _ HJ y x o1 o s); done.
  - apply (locks_keep j j' (Some x)); try done.
    + intros y o1 Hne Ho1. rewrite Hst in Ho1 by congruence. eauto.
    + intros b y f _ Hat. by apply check_insert in Hat as [_ Hat].
    + intros y o1 [= <-] Ho1. simplify_eq. destruct (ji_lock _ HJ x o Ho) as [L1 L2 L3 L4].
      assert (∀ b f, ¬ at_ j' b (JCheck x f)) as Hno.
      { intros b f Hat. apply check_insert in Hat as [Hne Hat]; [|done]. apply Hne, (L4 b a f fr Hat). by exists u. }
      split; [by intros b f Hat%Hno| |by intros b f r Hat%Hno|by intros b c f f' Hat%Hno].
      intros r Hr. exfalso. eapply (L3 a fr r); [by exists u|done].
  - done.
  - intros r l Hl. apply (woken_keep _ _ _ _ _ CF); [|by intros; congruence|done|done].
    intros r0 l0 Hl0. exists l0. split_and!; [done..|]. intros b [= <-]. by eapply woken_awake.
Qed.

(** ** Freeing *)

(** Code that leaves the schedulers alone and allocates nothing. *)
Definition kept_part (w : world) : gmap Z ABTI_sched * Z := (w_scheds w, w_brk w).
Lemma drop_pools_kept ps : preserves kept_part (drop_pools ps).
Proof.
  induction ps as [|q ps IH]; cbn [drop_pools]; [apply preserves_ret|]. apply preserves_bind; [|done].
  unfold drop_pool, size, pool_def, callee, ABTI_pool_destroy, delete_pool. solve_preserves.
Qed.
Lemma destroy_wlp s w : wlp (ABTI_sched_destroy s)
  (λ _ w', w_scheds w' = delete s (w_scheds w) ∧ w_brk w' = w_brk w) w.
Proof.
  unfold ABTI_sched_destroy. apply wlp_bind. unfold wlp at 1, sched. destruct (w_scheds w !! s) as [d|]; [|done].
  set (m := match _ with Some _ => _ | None => _ end).
  assert (preserves kept_part (m ;; drop_pools (pools d))) as Hk.
  { apply preserves_bind; [|intros; apply drop_pools_kept]. unfold m. solve_preserves. }
  specialize (Hk w). unfold wlp, mbind, M_bind in *. destruct (m w) as [v w1|]; [|done].
  destruct (drop_pools (pools d) w1) as [v' w2|]; [|done]. injection Hk as E1 E2. simpl. by rewrite E1, E2.
Qed.

(** Nobody else is in a call on the stream being freed. *)
Lemma free_alone j a u p x b v q fr : jinv j → calls j !! a = Some (u, p) → target p = Some (x, true) → b ≠ a →
  calls j !! b = Some (v, q) → target q = Some (x, fr) → False.
Proof. intros HJ Ha Ht Hne Hb Hq. by apply (ji_alone _ HJ a b u v p q x fr). Qed.
(** The steps of a free from the join on: [x] is settled and only changes in
    the table of ranks and in its scheduler. *)
Lemma freeing_inv j a u p p' x g K o :
  calls j !! a = Some (u, p) → p = FSched x ∧ p' = FSlot x ∨ p = FSlot x ∧ p' = FDelete x →
  settled j x → stream j x = Some o →
  let j' := j <| jx := g |> <| calls ::= insert a (u, p') |> in
  confined (Some a) (Some x) K j j' → xheap g = xheap (jx j) →
  (slot j' (x_rank o) = Some x ∨ p' = FDelete x) → call_ok j' a p' →
  (∀ r, K = Some r → in_range j r ∧ rank_ok j' r) →
  jinv j → jinv j'.
Proof.
  intros Ha Hpp Hset Ho j' CF Hh Hsl Hok HK HJ.
  assert (∀ q, at_ j a q → q = p) as Hid by (intros q; by eapply at_call).
  assert (target p = Some (x, true)) as Ht by (by destruct Hpp as [[-> _]|[-> _]]).
  assert (at_ j' a p') as Hat' by (by apply at_inserted).
  assert (∀ y, stream j' y = stream j y) as Hst by (intros y; unfold stream; simpl; by rewrite Hh).
  assert (settled j' x) as Hset'.
  { destruct Hset as (o1 & Ho1 & ? & ? & ? & ?). exists o1. by rewrite Hst. }
  apply (jinv_local _ _ _ _ _ CF HJ).
  - intros b v q [= <-]. simpl. rewrite lookup_insert_eq. by intros [= <- <-].
  - eapply (alone_insert (j <| jx := g |>)); [done|right; by destruct Hpp as [[-> ->]|[-> ->]]|]. apply (ji_alone _ HJ).
  - intros b v q y f Hne Hb [= <-] Hq. exfalso. eapply (free_alone j a u p x b v q f); try done. congruence.
  - intros y o1 [= <-] Ho1. rewrite Hst in Ho1. simplify_eq.
    destruct (ji_stream _ HJ x o Ho) as [S1 S2 S3 S4 S5 S6 S7]. split.
    + split; try done.
      * pose proof (cf_brk _ _ _ _ _ CF). lia.
      * destruct S2 as (s & Hs & _). exists s. split; [done|]. right. exists a. naive_solver.
      * intros Hp. destruct (S4 Hp) as [Hr _]. split; [by apply (cf_range _ _ _ _ _ CF)|].
        destruct Hsl as [|Hd]; [by left|right]. exists a. by rewrite <- Hd.
      * destruct Hset as (o1 & Ho1 & _ & _ & Hj & _). simplify_eq. rewrite Hj. by intros b ?%elem_of_nil.
    + intros y o1 s Hy Hy1 Hs Hs'. rewrite Hst in Hy1. apply Hy, (ji_sched _ HJ y x o1 o s); done.
  - apply (locks_keep j j' None); try done.
    + intros y o1 _ Ho1. rewrite Hst in Ho1. eauto.
    + intros b y f _ Hat. apply check_insert in Hat as [_ Hat]; [done|]. by destruct Hpp as [[_ ->]|[_ ->]].
  - done.
  - intros r l Hl. apply (woken_keep _ _ _ _ _ CF); [| |done|done].
    + intros r0 l0 Hl0. exists l0. split_and!; [done..|]. intros b [= <-]. eapply woken_awake; [done..|].
      intros y f Heq. rewrite Heq in Hpp. by destruct Hpp as [[? _]|[? _]].
    + intros b y o1 f [= <-] Hne [v Hb]. exfalso. eapply (free_alone j a u p x b); try done. congruence.
Qed.

Lemma drop_sched_inv j a u x w' s o : calls j !! a = Some (u, FSched x) → stream j x = Some o →
  main_sched o = Some s → (∀ s', s' ≠ s → w_scheds w' !! s' = sched_at j s') → w_brk w' = w_brk (xw (jx j)) →
  jinv j → jinv (j <| jx ::= λ g, g <| xw := w' |> |> <| calls ::= insert a (u, FSlot x) |>).
Proof.
  intros Ha Ho Hs Hsc Hb HJ. pose proof (ji_call _ HJ _ _ _ Ha) as [Hset _].
  assert (∀ q, at_ j a q → q = FSched x) as Hid by (intros q; by eapply at_call).
  destruct (ji_stream _ HJ x o Ho) as [_ _ _ S4 _ _ _].
  assert (primary o = false ∧ finished o = true) as [Hpr Hfin] by (destruct Hset as (o1 & ? & ? & ? & _); split; congruence).
  eapply (freeing_inv j a u _ _ x _ None); try done; [naive_solver|..].
  - split; try done; try (by eauto); try tauto.
    + intros b Hne. simpl. rewrite lookup_insert_ne; [done|congruence].
    + simpl. lia.
    + intros y o1 s1 d Hor Hy Hs1 Hd. assert (y ≠ x) as Hne by (intros ->; destruct Hor; congruence).
      exists d. split; [|done]. unfold sched_at. simpl. rewrite Hsc; [done|].
      intros ->. by apply Hne, (ji_sched _ HJ y x o1 o s).
    + intros b y f [= <-] Hat. by apply Hid in Hat.
    + intros b y [= <-] Hat. by apply Hid in Hat.
    + intros b y [= <-] Hat. by apply Hid in Hat.
  - left. destruct (S4 Hpr) as [_ [|[b Hb']]]; [done|]. exfalso. destruct (decide (b = a)) as [->|Hne].
    + by apply Hid in Hb'.
    + destruct Hb' as [v Hb']. by eapply (free_alone j a u _ x b).
Qed.
Lemma slot_insert j r r' v : in_range j r → in_range j r' → length (xstreams (jx j)) = Z.to_nat (num_pes (jx j)) →
  mjoin (<[Z.to_nat r' := v]> (xstreams (jx j)) !! Z.to_nat r) = if decide (r = r') then v else slot j r.
Proof.
  unfold in_range. intros Hr Hr' Hl. destruct (decide (r = r')) as [->|Hne].
  - rewrite list_lookup_insert_eq by lia. done.
  - rewrite list_lookup_insert_ne by lia. done.
Qed.
Lemma slot_rank j r x : jinv j → in_range j r → slot j r = Some x → ∃ o, stream j x = Some o ∧ x_rank o = r.
Proof. intros HJ Hr Hs. destruct (ji_rank _ HJ r Hr) as (pr & _ & Hm). rewrite Hs in Hm. naive_solver. Qed.

Lemma clear_slot_inv j a u x o : calls j !! a = Some (u, FSlot x) → stream j x = Some o →
  jinv j → jinv (j <| jx ::= λ g, g <| xstreams ::= insert (Z.to_nat (x_rank o)) None |> |>
    <| calls ::= insert a (u, FDelete x) |>).
Proof.
  intros Ha Ho HJ. pose proof (ji_call _ HJ _ _ _ Ha) as Hset. simpl in Hset. set (j' := _ <| calls ::= _ |>).
  assert (∀ q, at_ j a q → q = FSlot x) as Hid by (intros q; by eapply at_call).
  destruct (ji_stream _ HJ x o Ho) as [_ _ _ S4 _ _ _]. pose proof (ji_size _ HJ) as Hlen.
  assert (primary o = false ∧ finished o = true ∧ ∀ r, mid j !! r ≠ Some (RTake x)) as (Hpr & Hfin & Hmid).
  { destruct Hset as (o1 & ? & ? & ? & _ & Hm). split_and!; [congruence..|]. intros r. apply Hm. }
  destruct (S4 Hpr) as [Hr Hsl]. assert (slot j (x_rank o) = Some x) as Hslot.
  { destruct Hsl as [|[b Hb]]; [done|]. exfalso. destruct (decide (b = a)) as [->|Hne]; [by apply Hid in Hb|].
    destruct Hb as [v Hb]. by eapply (free_alone j a u _ x b). }
  assert (∀ r, in_range j r → slot j' r = if decide (r = x_rank o) then None else slot j r) as Hs'.
  { intros r Hr'. unfold slot at 1. simpl. by apply slot_insert. }
  eapply (freeing_inv j a u _ _ x _ (Some (x_rank o)) o); try done; [naive_solver| |by right|..].
  - split; try done; try (by eauto); try tauto.
    + intros b Hne. simpl. rewrite lookup_insert_ne; [done|congruence].
    + simpl. apply length_insert.
    + intros r Hr' Hne. rewrite Hs' by done. rewrite decide_False; [done|congruence].
    + intros r y Hr' Hy. rewrite Hs' by done. destruct (decide (r = x_rank o)) as [->|]; [|done].
      rewrite Hslot. split; congruence.
    + intros b y f [= <-] Hat. by apply Hid in Hat.
    + intros b y [= <-] Hat. apply Hid in Hat. simplify_eq. by apply at_inserted.
    + intros b y [= <-] Hat. by apply Hid in Hat.
  - split; [done|]. intros r Hr'. change (in_range j r) in Hr'. rewrite Hs' by done. case_decide as Hd; [done|].
    intros Hs. destruct (slot_rank j r x HJ Hr' Hs) as (o1 & ? & ?). apply Hd. congruence.
  - intros r [= <-]. split; [done|]. destruct (ji_rank _ HJ _ Hr) as (pr & Hp & Hm). exists pr. split; [done|].
    rewrite Hs', decide_True by done. rewrite Hslot in Hm. destruct Hm as (o1 & s & tb & rs & Ho1 & _ & _ & _ & Hl & _).
    simplify_eq. rewrite Hfin in Hl. change (queue j' (x_rank o)) with (queue j (x_rank o)).
    change (mid j') with (mid j). unfold vacant. inversion Hl; subst; [exfalso; by eapply Hmid|done].
Qed.
Lemma delete_inv j a u x : calls j !! a = Some (u, FDelete x) →
  jinv j → jinv (j <| jx ::= λ g, g <| xheap ::= delete x |> |> <| calls ::= insert a (u, JIdle (Some ABT_SUCCESS)) |>).
Proof.
  intros Ha HJ. pose proof (ji_call _ HJ _ _ _ Ha) as [Hset Hsl]. set (j' := _ <| calls ::= _ |>).
  assert (∀ q, at_ j a q → q = FDelete x) as Hid by (intros q; by eapply at_call).
  assert (stream j' x = None) as Hx by apply lookup_delete_eq.
  assert (∀ y, y ≠ x → stream j' y = stream j y) as Hst by (intros; by apply lookup_delete_ne).
  assert (confined (Some a) (Some x) None j j') as CF.
  { split; try done; try (by eauto); try tauto.
    - intros b Hne. simpl. rewrite lookup_insert_ne; [done|congruence].
    - intros y Hy. rewrite Hst; [done|congruence].
    - intros r y Hr _ Hs. rewrite Hst; [done|]. intros ->. by apply (Hsl r Hr).
    - intros b y f [= <-] Hat. by apply Hid in Hat.
    - intros b y [= <-] Hat. by apply Hid in Hat.
    - intros b y [= <-] Hat. by apply Hid in Hat as [= ->]. }
  apply (jinv_local _ _ _ _ _ CF HJ); try done.
  - intros b v q [= <-]. simpl. rewrite lookup_insert_eq. by intros [= <- <-].
  - eapply (alone_insert (j <| jx ::= _ |>)); [done|by left|]. apply (ji_alone _ HJ).
  - intros b v q y f Hne Hb [= <-] Hq. exfalso. eapply (free_alone j a u _ x b v q f); try done. congruence.
  - intros y o [= <-]. by rewrite Hx.
  - apply (locks_keep j j' (Some x)); try done.
    + intros y o Hne Ho. rewrite Hst in Ho by congruence. eauto.
    + intros b y f _ Hat. by apply check_insert in Hat as [_ Hat].
    + intros y o [= <-]. by rewrite Hx.
  - intros r l Hl. apply (woken_keep _ _ _ _ _ CF); [| |done|done].
    + intros r0 l0 Hl0. exists l0. split_and!; [done..|]. intros b [= <-]. by eapply woken_awake.
    + intros b y o f [= <-] Hne [v Hb]. exfalso. eapply (free_alone j a u _ x b); try done. congruence.
Qed.

(** ** A step of a thread *)

(** A call that fails at once, or starts its join. *)
Lemma entry_inv j a u ret h fr :
  calls j !! a = Some (u, JIdle ret) →
  (∀ x, ABTI_xstream_get h = Some x → is_Some (stream j x) ∧ unfreed x j ∧ (fr = true → unused x j)) →
  jinv j → jinv (j <| calls ::= insert a (u, entry h (jx j) (λ x, JStart x fr) (λ r, JIdle (Some r))) |>).
Proof.
  intros Ha Hx HJ. assert (∀ v, jinv (j <| calls ::= insert a (u, JIdle v) |>)) as Hi.
  { intros v. assert (j <| jx := jx j |> = j) as Hj by (by destruct j). rewrite <- Hj.
    eapply quiet_inv; try done. by left. }
  unfold entry. destruct (negb _); [apply Hi|]. destruct (ABTI_xstream_get h) as [x|]; [|apply Hi].
  destruct (Hx x eq_refl) as (H1 & H2 & H3). by eapply start_inv.
Qed.

Lemma not_early j p x fr : ¬ reads_early p j → p = JFast x fr ∨ p = JSpin x fr → ∀ r, mid j !! r ≠ Some (RTake x).
Proof. intros Hn [-> | ->] r Hr; apply Hn; simpl; eauto. Qed.

Lemma joined_target x fr : target (joined x fr) = None ∨ target (joined x fr) = Some (x, fr).
Proof. destruct fr; [by right|by left]. Qed.

Lemma thread_step_inv j a u p c p' g :
  calls j !! a = Some (u, p) → enabled a p (jx j) = true → ¬ reads_early p j →
  join_step c u a p (jx j) = Done p' g → jinv j → jinv (j <| jx := g |> <| calls ::= insert a (u, p') |>).
Proof.
  intros Ha Hen Hre Hs HJ. pose proof (ji_call _ HJ _ _ _ Ha) as Hok.
  assert (∀ x fr o, target p = Some (x, fr) → p ≠ FSlot x → p ≠ FDelete x → stream j x = Some o → finished o = true →
    (∀ r, mid j !! r ≠ Some (RTake x)) → call_ok j a (joined x fr)) as Hjoin.
  { intros. eapply joined_ok; eauto. by eapply finished_settled. }
  destruct p as [|x fr|x fr|x fr|x fr|x fr|x fr|x fr|x fr|x|x|x]; [done|..];
    cbn [join_step] in Hs; unfold free_sched, free_slot, free_delete, mbind, M_bind, mret, M_ret, xstream, set_xstream, get, modify in Hs.
  - destruct (xheap (jx j) !! x) as [o|] eqn:Ho; simplify_eq.
    eapply quiet_inv; try done; case_match; try done; auto.
  - destruct (xheap (jx j) !! x) as [o|] eqn:Ho; simplify_eq. pose proof (not_early _ _ _ _ Hre (or_introl eq_refl)).
    destruct (finished o) eqn:Hf; eapply quiet_inv; try done; try (by destruct fr); auto;
      [apply joined_target|by eapply Hjoin].
  - destruct (xheap (jx j) !! x) as [o|] eqn:Ho; simplify_eq. eapply (quiet_inv j a u); try done.
    + by eapply set_core.
    + intros y. simpl. rewrite lookup_insert. case_decide; [subst; by rewrite Ho|done].
    + by right.
  - destruct (xheap (jx j) !! x) as [o|] eqn:Ho; simplify_eq.
    assert (same_core (jx j) g ∧ xheap g = xheap (jx j) ∧ p' = if u then JLock x fr else JSpin x fr) as (Hsc & Hh & ->).
    { destruct (main_sched o) as [s|]; [|simplify_eq; by repeat split].
      unfold lift, set_sched in Hs. destruct (w_scheds (xw (jx j)) !! s) as [d|] eqn:Hd; simplify_eq.
      split_and!; [|done..]. split; try done. intros s'. simpl. rewrite lookup_insert. case_decide; [subst; by rewrite Hd|done]. }
    destruct u; eapply quiet_inv; try done; try (by rewrite Hh); by right.
  - destruct (xheap (jx j) !! x) as [o|] eqn:Ho; simplify_eq. simpl in Hen. unfold locked in Hen. rewrite Ho in Hen.
    simpl in Hen. apply negb_true_iff in Hen. destruct (ji_lock _ HJ x o Ho) as [L1 L2 L3 L4].
    eapply (lock_inv j a u _ _ x o); try done; [congruence|by right|].
    assert (∀ b f, b ≠ a → ¬ at_ (j <| calls ::= insert a (u, JCheck x fr) |>) b (JCheck x f)) as Hno.
    { intros b f Hne Hat. rewrite at_insert in Hat by done. apply L1 in Hat. congruence. }
    split; [done|done| |].
    + intros b f r _ Hr. apply L2 in Hr. congruence.
    + intros b b' f f' Hb Hb'. destruct (decide (b = a)) as [->|]; [|by apply Hno in Hb].
      destruct (decide (b' = a)) as [->|]; [done|by apply Hno in Hb'].
  - destruct (xheap (jx j) !! x) as [o|] eqn:Ho; simplify_eq. destruct (ji_lock _ HJ x o Ho) as [L1 L2 L3 L4].
    destruct (finished o) eqn:Hf; rewrite Ho in Hs; simplify_eq; [|by apply block_inv].
    eapply (lock_inv j a u _ _ x o); try done; try (by destruct fr); [apply joined_target|..].
    + eapply Hjoin; try done. intros r Hr. eapply L3; [by exists u|done].
    + assert (∀ b f, ¬ at_ (j <| calls ::= insert a (u, joined x fr) |>) b (JCheck x f)) as Hno.
      { intros b f Hat. apply check_insert in Hat as [Hne Hat]; [|by destruct fr].
        apply Hne, (L4 b a f fr Hat). by exists u. }
      split; [by intros b f Hat%Hno| |by intros b f r Hat%Hno|by intros b c' f f' Hat%Hno].
      intros r Hr. exfalso. eapply (L3 a fr r); [by exists u|done].
  - simplify_eq. simpl in Hen, Hok. unfold waits in Hok. apply negb_true_iff in Hen. rewrite Hen in Hok.
    eapply quiet_inv; try done; try (by destruct fr); [apply joined_target|by eapply joined_ok].
  - destruct (xheap (jx j) !! x) as [o|] eqn:Ho; simplify_eq. pose proof (not_early _ _ _ _ Hre (or_intror eq_refl)).
    destruct (finished o) eqn:Hf; eapply quiet_inv; try done; try (by destruct fr); auto;
      [apply joined_target|by eapply Hjoin].
  - destruct (xheap (jx j) !! x) as [o|] eqn:Ho; simplify_eq.
    destruct (ji_stream _ HJ x o Ho) as [_ (s & Hms & _) _ _ _ _ _]. rewrite Hms in Hs.
    unfold lift, sched in Hs. destruct (w_scheds (xw (jx j)) !! s) as [d|] eqn:Hd; simplify_eq.
    pose proof (destroy_wlp s (xw (jx j))) as Hw. unfold when in Hs. destruct (truthy (s_automatic d)).
    + unfold wlp in Hw. simpl in Hs. destruct (ABTI_sched_destroy s (xw (jx j))) as [v w'|]; simplify_eq.
      destruct Hw as [E1 E2]. eapply (drop_sched_inv j a u x w' s o); try done.
      intros s' Hne. rewrite E1. by apply lookup_delete_ne.
    + simpl in Hs. simplify_eq. by eapply (drop_sched_inv j a u x (xw (jx j)) s o).
  - destruct (xheap (jx j) !! x) as [o|] eqn:Ho; simplify_eq. by apply clear_slot_inv.
  - destruct (xheap (jx j) !! x) as [o|] eqn:Ho; simplify_eq. by apply delete_inv.
Qed.
End safe.
