(* ===== verification/XstreamPe.v ===== *)
(** * Leases move through their phases

    The steps of the machine of [XstreamJoin] that PEs take, and the creation
    of streams, preserve the invariant of [XstreamSafe]. *)

From S2P Require Import Prelude AbtTypes Config Objects Storage PoolList Sleepers PoolMpsc Pool.
From S2P Require Import Sched Sync Thread Xstream XstreamJoin XstreamSafe.

Section pe.
Context `{E : Ext, R : Csd, C : Cth} {HC : CthLaws} {HR : CsdLaws}.
Implicit Types (j : jst) (x y : ptr) (a b r : Z) (o : ABTI_xstream) (p q : point).

(** ** Steps of one PE *)

(** Only PE [r], its queue, and fields of streams and schedulers that the
    invariant does not mention change. *)
Record local_to (r : Z) (g g' : xst) : Prop := {
  lt_stream x : core <$> xheap g' !! x = core <$> xheap g !! x;
  lt_jm x : jm <$> xheap g' !! x = jm <$> xheap g !! x;
  lt_sched s : user_def <$> w_scheds (xw g') !! s = user_def <$> w_scheds (xw g) !! s;
  lt_brk : w_brk (xw g') = w_brk (xw g);
  lt_pe r' : r' ≠ r → pes g' !! r' = pes g !! r';
  lt_queue r' : r' ≠ r → pending r' (csd g') = pending r' (csd g);
  lt_rest : num_pes g' = num_pes g ∧ xstreams g' = xstreams g ∧ xcth g' = xcth g;
}.
Lemma local_trans r g1 g2 g3 : local_to r g1 g2 → local_to r g2 g3 → local_to r g1 g3.
Proof.
  intros [A1 A2 A3 A4 A5 A6 A7] [B1 B2 B3 B4 B5 B6 B7]. split; intros; try congruence.
  - by rewrite B5, A5.
  - by rewrite B6, A6.
  - destruct A7 as (? & ? & ?), B7 as (? & ? & ?). split_and!; congruence.
Qed.
Lemma local_refl r g : local_to r g g.
Proof. by split. Qed.

Lemma pe_inv j r g : local_to r (jx j) g → (in_range j r → rank_ok (j <| jx := g |>) r) →
  jinv j → jinv (j <| jx := g |>).
Proof.
  intros [Q1 Q2 Q3 Q4 Q5 Q6 (Q7 & Q8 & Q9)] Hok HJ. set (j' := j <| jx := g |>).
  assert (∃ K, K = Some r ∧ in_range j r ∨ K = None ∧ ¬ in_range j r) as [K HK].
  { destruct (decide (1 ≤ r < num_pes (jx j))); eauto. }
  assert (∀ r', in_range j r' → Some r' ≠ K → r' ≠ r) as Hne by (intros r' Hr' Hk ->; naive_solver).
  assert (confined None None K j j') as CF.
  { unfold j'. split; try done; try (by eauto); try tauto.
    - intros b _. unfold waits. simpl. by rewrite Q9.
    - simpl. by rewrite Q8.
    - simpl. lia.
    - intros r' y _ _ _. specialize (Q1 y). unfold stream in *. simpl.
      destruct (xheap g !! y), (xheap (jx j) !! y); try done. simpl in *. f_equal. unfold core in *. congruence.
    - intros y o s d _ _ _ Hd. specialize (Q3 s). unfold sched_at in *. rewrite Hd in Q3. simpl in Q3.
      by apply fmap_Some in Q3 as (d' & ? & ?); eauto.
    - intros r' pr Hr' Hk Hpr. simpl. rewrite Q5 by (by apply Hne). eauto.
    - intros r' Hr' Hk. unfold queue. simpl. by rewrite Q6 by (by apply Hne).
    - intros. unfold slot. simpl. by rewrite Q8.
    - intros. unfold slot. simpl. by rewrite Q8. }
  apply (jinv_local _ _ _ _ _ CF HJ); try done.
  - apply (ji_alone _ HJ).
  - apply (locks_keep j j' None); try done.
    intros y o' _ Ho'. specialize (Q2 y). unfold stream in *. simpl in Ho'. rewrite Ho' in Q2. simpl in Q2.
    symmetry in Q2. by apply fmap_Some in Q2 as (o & ? & ?); eauto.
  - intros r' ->. naive_solver.
  - intros r' l Hl. apply (woken_keep _ _ _ _ _ CF); [|done|done|done]. intros r0 l0 Hl0. by exists l0.
Qed.

(** The stream of a PE that has one, seen through [rank_ok]. *)
Definition leased_at j r x o s d pr tb rs : Prop :=
  pes (jx j) !! r = Some pr ∧ slot j r = Some x ∧ stream j x = Some o ∧ x_rank o = r ∧ primary o = false ∧
  main_sched o = Some s ∧ sched_at j s = Some d ∧ tb = table_of s d ∧ rs = runners_of s d.
Lemma leased_elim j r : rank_ok j r → (∃ pr, pes (jx j) !! r = Some pr ∧ slot j r = None ∧
    vacant (tls_xstream pr) (p_table pr) (runners pr) (queue j r) (mid j !! r)) ∨
  (∃ x o s d pr tb rs, leased_at j r x o s d pr tb rs ∧ finished o = false ∧
    lease x tb rs (tls_xstream pr) (p_table pr) (runners pr) (queue j r) (mid j !! r) false) ∨
  (∃ x o pr, pes (jx j) !! r = Some pr ∧ slot j r = Some x ∧ stream j x = Some o ∧ x_rank o = r ∧
    finished o = true ∧ tls_xstream pr = None ∧ p_table pr = TDefault ∧ runners pr = [] ∧ queue j r = [] ∧
    (mid j !! r = Some (RTake x) ∨ waking (mid j !! r))).
Proof.
  intros (pr & Hp & Hm). destruct (slot j r) as [x|] eqn:Hs; [|left; eauto].
  destruct Hm as (o & s & tb & rs & Ho & Er & Epr & Ems & Hl & Hd). right. destruct (finished o) eqn:Hf; [right|left].
  - exists x, o, pr. inversion Hl; subst; split_and!; try done; auto.
  - destruct (Hd eq_refl) as (d & Hd1 & Htb & Hrs). exists x, o, s, d, pr, tb, rs. by split_and!.
Qed.
Lemma leased_intro j r x o s d pr tb rs : leased_at j r x o s d pr tb rs → finished o = false →
  lease x tb rs (tls_xstream pr) (p_table pr) (runners pr) (queue j r) (mid j !! r) false → rank_ok j r.
Proof.
  intros (Hp & Hs & Ho & Er & Epr & Ems & Hd & Htb & Hrs) Hf Hl. exists pr. split; [done|]. rewrite Hs.
  exists o, s, tb, rs. rewrite Hf. split_and!; try done. eauto.
Qed.
(** The next message of a PE is one that its phase allows. *)
Lemma msg_leased j r m l : jinv j → in_range j r → mid j !! r = None → pending r (csd (jx j)) = m :: l →
  is_ctl m = true → ∃ x o s d pr tb rs, leased_at j r x o s d pr tb rs ∧ finished o = false ∧
    lease x tb rs (tls_xstream pr) (p_table pr) (runners pr) (m :: ctl l) None false.
Proof.
  intros HJ Hr Hmid Hq Hm. assert (queue j r = m :: ctl l) as Hq' by (unfold queue; by rewrite Hq, ctl_cons, Hm).
  destruct (leased_elim j r (ji_rank _ HJ r Hr)) as [(pr & _ & _ & _ & _ & _ & Hq0 & _)|[Hx|Hx]]; [congruence| |].
  - destruct Hx as (x & o & s & d & pr & tb & rs & H1 & H2 & H3). rewrite Hq', Hmid in H3. eauto 12.
  - destruct Hx as (x & o & pr & _ & _ & _ & _ & _ & _ & _ & _ & Hq0 & _). congruence.
Qed.

(** ** The handlers *)

Lemma wp_this_pe r pr (Q : pe → xst → Prop) g : pes g !! r = Some pr → Q pr g → wp (this_pe r) Q g.
Proof. unfold wp, this_pe. by intros ->. Qed.
Lemma wp_set_pe r pr f (Q : unit → xst → Prop) g :
  pes g !! r = Some pr → Q tt (g <| pes ::= insert r (f pr) |>) → wp (set_pe r f) Q g.
Proof. unfold wp, set_pe. by intros ->. Qed.
Lemma wp_xstream x o (Q : ABTI_xstream → xst → Prop) g : xheap g !! x = Some o → Q o g → wp (xstream x) Q g.
Proof. unfold wp, xstream. by intros ->. Qed.
Lemma wp_set_xstream x o f (Q : unit → xst → Prop) g :
  xheap g !! x = Some o → Q tt (g <| xheap ::= insert x (f o) |>) → wp (set_xstream x f) Q g.
Proof. unfold wp, set_xstream. by intros ->. Qed.
Lemma wp_lift {A} (m : M world A) (Q : A → xst → Prop) g :
  wp m (λ v w, Q v (g <| xw := w |>)) (xw g) → wp (lift m) Q g.
Proof. unfold wp, lift. by destruct (m (xw g)). Qed.

Lemma local_pe r f pr g : pes g !! r = Some pr → local_to r g (g <| pes ::= insert r (f pr) |>).
Proof. intros Hp. split; try done. intros r' Hne. simpl. by rewrite lookup_insert_ne. Qed.
Lemma local_stream r x o o' g : xheap g !! x = Some o → core o' = core o → jm o' = jm o →
  local_to r g (g <| xheap ::= insert x o' |>).
Proof.
  intros Ho Hc Hj. split; try done; intros y; simpl; rewrite lookup_insert; case_decide; try done; subst y;
    rewrite Ho; simpl; congruence.
Qed.
Lemma local_sched r s d d' g : w_scheds (xw g) !! s = Some d → user_def d' = user_def d →
  local_to r g (g <| xw ::= λ w, w <| w_scheds ::= insert s d' |> |>).
Proof.
  intros Hd Hu. split; try done. intros s'. simpl. rewrite lookup_insert. case_decide; [|done]. subst.
  rewrite Hd. simpl. congruence.
Qed.
Lemma local_bind r n g : local_to r g (g <| csd ::= CmiSetCPUAffinity n |>).
Proof. split; try done. intros r' _. simpl. apply bind_pending. Qed.
Lemma local_push r m g : local_to r g (g <| csd ::= CmiPushPE r m |>).
Proof. split; try done. intros r' Hne. simpl. by apply push_there. Qed.
Lemma local_take r g : local_to r g (g <| csd ::= CsdTake r |>).
Proof. split; try done. intros r' Hne. simpl. by apply take_there. Qed.

Lemma start_runner_wp r s d pr g (Q : unit → xst → Prop) :
  w_scheds (xw g) !! s = Some d → pes g !! r = Some pr →
  (∀ g', local_to r g g' → csd g' = csd g → pes g' !! r = Some (pr <| runners ::= λ l, l ++ [s] |>) → Q tt g') →
  wp (ABTI_start_runner r s) Q g.
Proof.
  intros Hd Hp HQ. unfold ABTI_start_runner. wp_step. apply wp_lift, wp_ext. wp_step. apply wp_lift.
  eapply wp_set_sched; [exact Hd|]. eapply wp_set_pe; [exact Hp|]. apply HQ; [|done|simpl; apply lookup_insert_eq].
  eapply local_trans; [|eapply local_pe; exact Hp].
  split; try done. intros s'. simpl. rewrite lookup_insert. case_decide; [|done]. subst. by rewrite Hd.
Qed.
Lemma lease_handler_wp r x o s d pr g (Q : unit → xst → Prop) :
  pes g !! r = Some pr → xheap g !! x = Some o → main_sched o = Some s → w_scheds (xw g) !! s = Some d →
  (∀ g' pr', local_to r g g' → pending r (csd g') = pending r (csd g) → pes g' !! r = Some pr' →
    tls_xstream pr' = Some x → p_table pr' = p_table pr → runners pr' = runners pr ++ runners_of s d → Q tt g') →
  wp (lease_handler r x) Q g.
Proof.
  intros Hp Ho Hs Hd HQ. unfold lease_handler. wp_step. eapply wp_set_pe; [done|]. wp_step.
  eapply wp_this_pe; [apply lookup_insert_eq|]. wp_step. eapply wp_set_xstream; [exact Ho|].
  wp_step. eapply wp_set_pe; [apply lookup_insert_eq|]. wp_step. eapply wp_xstream; [apply lookup_insert_eq|].
  wp_step. set (o1 := _ <| x_state := _ |>). set (g1 := _ <| pes ::= _ |>).
  set (pr1 := pr <| tls_xstream := Some x |> <| sleep_on_idle := false |>).
  assert (local_to r g g1) as Hl1.
  { eapply local_trans; [by eapply (local_pe r (λ z, z <| tls_xstream := Some x |>))|].
    eapply local_trans; [eapply (local_stream r x o o1); [exact Ho|done..]|].
    eapply (local_pe r (λ z, z <| sleep_on_idle := false |>)). apply lookup_insert_eq. }
  assert (pes g1 !! r = Some pr1) as Hp1 by apply lookup_insert_eq.
  assert (∀ g2, local_to r g1 g2 → pending r (csd g2) = pending r (csd g1) → pes g2 = pes g1 →
    xw g2 = xw g1 → wp (s ← deref (main_sched o1); d ← lift (sched s); when (user_def d) (ABTI_start_runner r s)) Q g2) as Hrest.
  { intros g2 Hl2 Hq2 Hp2 Hw2. wp_step. change (main_sched o1) with (main_sched o). rewrite Hs. simpl. wp_step. wp_step.
    apply wp_lift. eapply wp_sched; [rewrite Hw2; exact Hd|]. unfold runners_of in HQ. wp_step.
    - rewrite H in HQ. eapply start_runner_wp; [simpl; rewrite Hw2; exact Hd|simpl; rewrite Hp2; exact Hp1|].
      intros g3 Hl3 Hq3 Hp3. eapply (HQ g3); [|by rewrite Hq3|exact Hp3|done..].
      eapply local_trans; [exact Hl1|]. eapply local_trans; [exact Hl2|]. by destruct g2.
    - rewrite H in HQ. eapply (HQ _ pr1); [|done|simpl; by rewrite Hp2|done|done|by rewrite app_nil_r].
      eapply local_trans; [exact Hl1|]. by destruct g2. }
  wp_step.
  - wp_step. apply Hrest; [apply local_bind|apply bind_pending|done|done].
  - apply Hrest; [apply local_refl|done..].
Qed.

Lemma leased_local j r g x o s d pr tb rs pr' : local_to r (jx j) g → leased_at j r x o s d pr tb rs →
  finished o = false → pes g !! r = Some pr' →
  ∃ o' d', leased_at (j <| jx := g |>) r x o' s d' pr' tb rs ∧ finished o' = false.
Proof.
  intros [Q1 _ Q3 _ _ _ (_ & Q8 & _)] (Hp & Hs & Ho & Er & Epr & Ems & Hd & Htb & Hrs) Hf Hp'.
  specialize (Q1 x). specialize (Q3 s). unfold stream, sched_at in *. rewrite Ho in Q1. rewrite Hd in Q3.
  apply fmap_Some in Q1 as (o' & Ho' & Hc). apply fmap_Some in Q3 as (d' & Hd' & Hu).
  symmetry in Hc. apply core_eq in Hc as (? & ? & ? & ? & ?). exists o', d'.
  split; [|congruence]. unfold leased_at, stream, slot, sched_at, table_of, runners_of in *. simpl. rewrite Q8, <- Hu.
  split_and!; congruence.
Qed.
(** The phase of the PE of a stream moves on. *)
Lemma lease_inv j r g x o s d pr tb rs pr' : jinv j → in_range j r → local_to r (jx j) g →
  leased_at j r x o s d pr tb rs → finished o = false → pes g !! r = Some pr' → mid j !! r = None →
  lease x tb rs (tls_xstream pr') (p_table pr') (runners pr') (ctl (pending r (csd g))) None false →
  jinv (j <| jx := g |>).
Proof.
  intros HJ Hr Hl Hat Hf Hp' Hmid Hlease. destruct (leased_local _ _ _ _ _ _ _ _ _ _ _ Hl Hat Hf Hp') as (o' & d' & Hat' & Hf').
  apply (pe_inv j r); [done| |done]. intros _. eapply leased_intro; [exact Hat'|done|].
  change (mid (j <| jx := g |>)) with (mid j). rewrite Hmid. exact Hlease.
Qed.
Lemma rank_same j r g pr pr' : local_to r (jx j) g → pes (jx j) !! r = Some pr → pes g !! r = Some pr' →
  tls_xstream pr' = tls_xstream pr → p_table pr' = p_table pr → runners pr' = runners pr →
  ctl (pending r (csd g)) = queue j r → rank_ok j r → rank_ok (j <| jx := g |>) r.
Proof.
  intros [Q1 _ Q3 _ _ _ (_ & Q8 & _)] Hp Hp' Et ET Er Hq (pr0 & Hp0 & Hm). simplify_eq. exists pr'. split; [done|].
  assert (slot (j <| jx := g |>) r = slot j r) as -> by (unfold slot; simpl; by rewrite Q8).
  change (queue (j <| jx := g |>) r) with (ctl (pending r (csd g))). change (mid (j <| jx := g |>)) with (mid j).
  rewrite Et, ET, Er, Hq. destruct (slot j r) as [x|]; [|done].
  destruct Hm as (o & s & tb & rs & Ho & H1 & H2 & H3 & H4 & H5). specialize (Q1 x). unfold stream in *. rewrite Ho in Q1.
  apply fmap_Some in Q1 as (o' & Ho' & Hc). symmetry in Hc. apply core_eq in Hc as (C1 & C2 & C3 & C4 & _).
  exists o', s, tb, rs. rewrite C1, C2, C3, C4. split_and!; try done. intros Hf. destruct (H5 Hf) as (d & Hd & -> & ->).
  specialize (Q3 s). unfold sched_at in *. rewrite Hd in Q3. apply fmap_Some in Q3 as (d' & Hd' & Hu).
  exists d'. unfold table_of, runners_of. by rewrite Hu.
Qed.

(** A message other than a release. *)
Lemma msg_inv j r m l : jinv j → in_range j r → mid j !! r = None → pending r (csd (jx j)) = m :: l →
  (∀ x, m ≠ MRelease x) → wp (handle r m) (λ _ g, jinv (j <| jx := g |>)) (jx j).
Proof.
  intros HJ Hr Hmid Hq Hnr. set (g0 := jx j <| csd ::= CsdTake r |>).
  assert (local_to r (jx j) g0) as Hl0 by apply local_take.
  assert (pending r (csd g0) = l) as Hq0 by (simpl; by rewrite take_here, Hq).
  unfold handle. wp_step. wp_step. fold g0. destruct m as [x|x n|x|t]; [..|by destruct (Hnr x)|].
  - destruct (msg_leased j r _ l HJ Hr Hmid Hq eq_refl) as (x' & o & s & d & pr & tb & rs & Hat & Hf & Hl).
    assert (x' = x ∧ p_table pr = TDefault ∧ runners pr = [] ∧ ctl l = [MTable tb]) as (-> & ET & Ern & Ectl)
      by (by inversion Hl).
    pose proof Hat as (Hp & _ & Ho & _ & _ & Hms & Hd & _ & Hrs).
    eapply lease_handler_wp; [exact Hp|exact Ho|exact Hms|exact Hd|]. intros g pr' Hl1 Hq1 Hp1 Ht1 HT1 Hr1.
    eapply lease_inv; [done|done|by eapply local_trans|exact Hat|done|exact Hp1|done|].
    rewrite Ht1, HT1, Hr1, Hq1, Hq0, ET, Ern, Ectl, <- Hrs. constructor.
  - assert (∀ g, local_to r g0 g → pending r (csd g) = l → pes g = pes g0 → jinv (j <| jx := g |>)) as Hgo.
    { intros g Hl1 Hq1 Hp1. apply (pe_inv j r); [by eapply local_trans| |done]. intros _.
      destruct (ji_rank _ HJ r Hr) as (pr & Hp & Hm). eapply rank_same; [by eapply local_trans|exact Hp|by rewrite Hp1|done..| |].
      - rewrite Hq1. unfold queue. by rewrite Hq, ctl_cons.
      - by exists pr. }
    unfold affinity_handler. wp_step; [wp_step|]; apply Hgo; try done; [apply local_bind|].
    simpl. by rewrite bind_pending.
  - destruct (msg_leased j r _ l HJ Hr Hmid Hq eq_refl) as (x' & o & s & d & pr & tb & rs & Hat & Hf & Hl).
    pose proof Hat as (Hp & _). eapply wp_set_pe; [exact Hp|]. set (g := g0 <| pes ::= _ |>).
    eapply (lease_inv j r g x' o s d pr tb rs (pr <| p_table := t |>)); try done; [|apply lookup_insert_eq|].
    + eapply local_trans; [exact Hl0|]. by eapply (local_pe r (λ z, z <| p_table := t |>)).
    + change (csd g) with (csd g0). rewrite Hq0. simpl. clear -Hl. inversion Hl; subst; constructor.
Qed.

(** ** Giving a lease back *)

Lemma entered_leased j r pr x : jinv j → in_range j r → pes (jx j) !! r = Some pr →
  tls_xstream pr = Some x ∨ runners pr ≠ [] →
  ∃ y o s d tb rs, leased_at j r y o s d pr tb rs ∧ finished o = false ∧ mid j !! r = None ∧
    tls_xstream pr = Some y ∧ runners pr = rs ∧
    (p_table pr = TDefault ∧ queue j r = [MTable tb] ∨ p_table pr = tb ∧ queue j r = []).
Proof.
  intros HJ Hr Hp Hor. destruct (leased_elim j r (ji_rank _ HJ r Hr)) as [(pr' & Hp' & _ & E1 & _ & E2 & _)|[Hx|Hx]].
  - simplify_eq. by destruct Hor; congruence.
  - destruct Hx as (y & o & s & d & pr' & tb & rs & Hat & Hf & Hl). pose proof Hat as (Hp' & _). simplify_eq.
    exists y, o, s, d, tb, rs. inversion Hl; subst; destruct Hor; try congruence; split_and!; auto; congruence.
  - destruct Hx as (y & o & pr' & Hp' & _ & _ & _ & _ & E1 & _ & E2 & _). simplify_eq. by destruct Hor; congruence.
Qed.
Lemma release_wp r x pr g (Q : unit → xst → Prop) : pes g !! r = Some pr →
  (∀ g', local_to r g g' → pes g' !! r = Some (pr <| tls_xstream := None |> <| sleep_on_idle := true |>) →
    pending r (csd g') = pending r (csd g) ++ [MTable TDefault; MRelease x] → Q tt g') →
  wp (ABTI_xstream_release r x) Q g.
Proof.
  intros Hp HQ. unfold ABTI_xstream_release, CsdSchedTableInstall, send_pe_msg. wp_step.
  eapply wp_set_pe; [done|]. wp_step. wp_step. wp_step. apply HQ.
  - eapply local_trans; [by eapply (local_pe r (λ z, z <| tls_xstream := None |> <| sleep_on_idle := true |>))|].
    eapply local_trans; apply local_push.
  - apply lookup_insert_eq.
  - simpl. by rewrite !push_here, <- app_assoc.
Qed.
(** The lease is given back from its running phases. *)
Lemma left_inv j r g x o s d pr tb rs g' : jinv j → in_range j r → leased_at j r x o s d pr tb rs →
  finished o = false → mid j !! r = None →
  p_table pr = TDefault ∧ queue j r = [MTable tb] ∨ p_table pr = tb ∧ queue j r = [] →
  local_to r (jx j) g → csd g = csd (jx j) → local_to r g g' →
  pes g' !! r = Some (pr <| runners := [] |> <| tls_xstream := None |> <| sleep_on_idle := true |>) →
  pending r (csd g') = pending r (csd g) ++ [MTable TDefault; MRelease x] → jinv (j <| jx := g' |>).
Proof.
  intros HJ Hr Hat Hf Hmid Hph Hl1 Hc Hl2 Hp Hq. eapply lease_inv; [done|done|by eapply local_trans|exact Hat|done|exact Hp|done|].
  rewrite Hq, Hc. change [MTable TDefault; MRelease x] with ([MTable TDefault] ++ [MRelease x]).
  rewrite app_assoc, !ctl_app. simpl. change (ctl (pending r (csd (jx j)))) with (queue j r).
  destruct Hph as [[-> ->]|[-> ->]]; simpl; constructor.
Qed.
Lemma release_inv j r pr x o s d : jinv j → in_range j r → pes (jx j) !! r = Some pr → tls_xstream pr = Some x →
  stream j x = Some o → main_sched o = Some s → sched_at j s = Some d → user_def d = false →
  wp (ABTI_xstream_release r x) (λ _ g, jinv (j <| jx := g |>)) (jx j).
Proof.
  intros HJ Hr Hp Ht Ho Hs Hd Hu. destruct (entered_leased j r pr x HJ Hr Hp) as
    (y & o' & s' & d' & tb & rs & Hat & Hf & Hmid & Ht' & Hrn & Hph); [by left|].
  pose proof Hat as (_ & _ & Ho' & _ & _ & Hs' & Hd' & _ & Hrs). simplify_eq.
  eapply release_wp; [exact Hp|]. intros g' Hl Hp' Hq.
  eapply (left_inv j r (jx j) x o s d pr); try done. rewrite Hp'. f_equal.
  unfold runners_of in Hrs. rewrite Hu in Hrs. destruct pr. simpl in *. by subst.
Qed.
Lemma runner_inv j r pr s : jinv j → in_range j r → pes (jx j) !! r = Some pr → s ∈ runners pr →
  wp (runner_end r s) (λ _ g, jinv (j <| jx := g |>)) (jx j).
Proof.
  intros HJ Hr Hp Hin. destruct (entered_leased j r pr 0 HJ Hr Hp) as
    (x & o & s' & d & tb & rs & Hat & Hf & Hmid & Ht & Hrn & Hph).
  { right. intros Heq. rewrite Heq in Hin. by apply elem_of_nil in Hin. }
  pose proof Hat as (_ & _ & Ho & _ & _ & Hs & Hd & _ & Hrs).
  assert (s' = s ∧ runners pr = [s]) as [-> Hrn1].
  { subst rs. rewrite Hrs in Hin |- *. unfold runners_of in *. destruct (user_def d).
    - apply list_elem_of_singleton in Hin. by subst.
    - by apply elem_of_nil in Hin. }
  unfold runner_end. wp_step. apply wp_lift. eapply wp_set_sched; [exact Hd|]. wp_step. eapply wp_set_pe; [exact Hp|].
  set (g := _ <| pes ::= _ |>). set (pr1 := pr <| runners := [] |>).
  assert (pes g !! r = Some pr1) as Hp1.
  { unfold g, pr1. simpl. rewrite lookup_insert_eq. f_equal.
    assert (filter (λ q : Z, q ≠ s) (runners pr) = []) as Hnil by (rewrite Hrn1; apply filter_none; set_solver).
    clear -Hnil. destruct pr. unfold upd. simpl in *. by rewrite Hnil. }
  assert (local_to r (jx j) g) as Hl1.
  { eapply local_trans; [eapply (local_sched r s d (d <| runner := None |>)); [exact Hd|done]|].
    by eapply (local_pe r (λ z, z <| runners ::= filter (λ q : Z, q ≠ s) |>)). }
  wp_step. eapply wp_this_pe; [exact Hp1|]. change (tls_xstream pr1) with (tls_xstream pr). rewrite Ht.
  wp_step. eapply wp_xstream; [exact Ho|]. rewrite Hs, bool_decide_true by done. simpl.
  eapply release_wp; [exact Hp1|]. intros g' Hl2 Hp2 Hq2. by eapply (left_inv j r g x o s d pr).
Qed.

(** ** The release handler *)

(** A part of the handler on PE [r]: the stream's object and the rest of the
    handler change, the stream is not settled yet. *)
Record handler_step j r x o o' (m' : rest) (g : xst) : Prop := {
  hs_slot : slot j r = Some x;
  hs_range : in_range j r;
  hs_stream : stream j x = Some o;
  hs_open : ¬ settled j x;
  hs_heap : xheap g = <[x := o']> (xheap (jx j));
  hs_fixed : x_rank o' = x_rank o ∧ main_sched o' = main_sched o ∧ primary o' = primary o;
  hs_sched s : user_def <$> w_scheds (xw g) !! s = user_def <$> w_scheds (xw (jx j)) !! s;
  hs_brk : w_brk (xw g) = w_brk (xw (jx j));
  hs_queue r' : r' ≠ r → pending r' (csd g) = pending r' (csd (jx j));
  hs_rest : num_pes g = num_pes (jx j) ∧ xstreams g = xstreams (jx j) ∧ pes g = pes (jx j) ∧ xcth g = xcth (jx j);
  hs_mid : mid j !! r = None ∨ mid j !! r = Some (RLock x) ∨ mid j !! r = Some (RTake x);
  hs_mid' : m' = RLock x ∨ m' = RTake x ∨ m' = RWake (x_joiners o);
}.

Lemma handler_inv j r x o o' m' g : handler_step j r x o o' m' g → jinv j →
  let j' := j <| jx := g |> <| mid ::= insert r m' |> in
  (finished o' = true → x_joiners o' = [] ∨ m' = RTake x) → (x_joiners o' = x_joiners o ∨ x_joiners o' = []) →
  rank_ok j' r → lock_ok j' x o' →
  (∀ b fr, at_ j b (JBlocked x fr) → waits j b = true → b ∈ x_joiners o → queued j' b x) →
  (m' = RWake (x_joiners o) → settled j' x) →
  jinv j'.
Proof.
  intros [H1 H2 H3 H4 H5 (F1 & F2 & F3) H7 H8 H9 (R1 & R2 & R3 & R4) H11 H12] HJ j' Hfin Hjn Hrk Hlk Hwait Hwk.
  assert (stream j' x = Some o') as Ho' by (unfold stream; simpl; rewrite H5; apply lookup_insert_eq).
  assert (∀ y, y ≠ x → stream j' y = stream j y) as Hst.
  { intros y Hne. unfold stream. simpl. rewrite H5. by apply lookup_insert_ne. }
  assert (∀ b, waits j' b = waits j b) as Hw by (intros b; unfold waits; simpl; by rewrite R4).
  assert (∀ r', slot j' r' = slot j r') as Hsl by (intros r'; unfold slot; simpl; by rewrite R2).
  assert (∀ s d, sched_at j s = Some d → ∃ d', sched_at j' s = Some d' ∧ user_def d' = user_def d) as Hsc.
  { intros s d Hd. specialize (H7 s). unfold sched_at in *. rewrite Hd in H7. simpl in H7.
    by apply fmap_Some in H7 as (d' & ? & ?); eauto. }
  assert (confined None (Some x) (Some r) j j') as CF.
  { unfold j'. split; try done; try (by eauto); try tauto.
    - intros y Hy. rewrite Hst; [done|congruence].
    - simpl. by rewrite R2.
    - simpl. lia.
    - intros r' y Hr' Hne Hs. rewrite Hst; [done|]. intros ->.
      destruct (slot_rank j r' x HJ Hr' Hs) as (o1 & ? & ?), (slot_rank j r x HJ H2 H1) as (o2 & ? & ?). congruence.
    - intros r' pr _ _ Hpr. simpl. rewrite R3. eauto.
    - intros r' _ Hne. unfold queue. simpl. by rewrite H9 by congruence.
    - intros r' Hne. simpl. rewrite lookup_insert_ne; [done|congruence].
    - intros r' y Hy. simpl. rewrite lookup_insert. case_decide; [|done]. subst. split; intros; destruct H12 as [->|[->| ->]]; congruence.
    - intros r' y Hy. simpl. rewrite lookup_insert. case_decide; [|done]. subst. intros Hm. destruct H11 as [?|[?|?]]; congruence.
    - intros r' y _ _. by rewrite Hsl.
    - intros r' l b _ Hm Hin. simpl. rewrite lookup_insert_ne; [eauto|]. intros ->. destruct H11 as [?|[?|?]]; congruence. }
  apply (jinv_local _ _ _ _ _ CF HJ); try done.
  - apply (ji_alone _ HJ).
  - intros b u q y f _ Hb [= <-] Ht. pose proof (ji_call _ HJ b u q Hb) as Hok.
    destruct q; simpl in *; simplify_eq; try (by rewrite Ho'); try done; [|by destruct Hok..].
    rewrite Hw. destruct (waits j b) eqn:Hwb; [|done].
    destruct Hok as (o1 & Ho1 & [Hin|[Hs _]]); [|done]. simplify_eq. eapply Hwait; [by exists u|done|done].
  - intros y o1 [= <-] Ho1. simplify_eq. destruct (ji_stream _ HJ x o H3) as [S1 S2 S3 S4 S5 S6 S7]. split.
    + split; rewrite ?F1, ?F2, ?F3.
      * simpl. lia.
      * destruct S2 as (s & Hs & Hor). exists s. split; [done|]. destruct Hor as [[d Hd]|?]; [left|by right].
        destruct (Hsc s d Hd) as (? & -> & _). done.
      * intros Hp. exfalso. destruct (ji_rank _ HJ r H2) as (pr & _ & Hm). rewrite H1 in Hm.
        destruct Hm as (o1 & s & tb & rs & ? & _ & ? & _). congruence.
      * intros Hp. destruct (S4 Hp) as [Hr' Hor]. unfold in_range. simpl. rewrite R1. split; [done|]. by rewrite Hsl.
      * intros Hf. destruct (Hfin Hf) as [|Hm]; [by left|right]. exists r. simpl. rewrite lookup_insert_eq. congruence.
      * destruct Hjn as [-> | ->]; [done|constructor].
      * destruct Hjn as [-> | ->]; [|by intros ? ?%elem_of_nil]. intros b Hb. rewrite Hw. by apply S7.
    + intros y o1 s Hy Hy1 Hs Hs'. rewrite Hst in Hy1 by done. apply Hy, (ji_sched _ HJ y x o1 o s); congruence.
  - apply (locks_keep j j' (Some x)); try done.
    + intros y o1 Hne Ho1. rewrite Hst in Ho1 by congruence. eauto.
    + intros r' y Hne. simpl. rewrite lookup_insert. case_decide; [|done]. destruct H12 as [->|[->| ->]]; congruence.
    + intros y o1 [= <-] Ho1. by simplify_eq.
  - intros r' [= <-]. done.
  - intros r' l Hl. destruct (decide (r' = r)) as [->|Hne].
    + simpl in Hl. rewrite lookup_insert_eq in Hl. destruct H12 as [->|[->| ->]]; simplify_eq.
      destruct (ji_stream _ HJ x o H3) as [_ _ _ _ _ S6 S7]. split; [done|]. intros b Hb.
      destruct (S7 b Hb) as [Hwb [f Hat]]. split; [by rewrite Hw|]. exists x, f, o'. split_and!; [done|done| |by apply Hwk].
      rewrite F1. by destruct (slot_rank j r x HJ H2 H1) as (o2 & ? & ?); simplify_eq.
    + simpl in Hl. rewrite lookup_insert_ne in Hl by done. destruct (ji_woken _ HJ r' l Hl) as [Hnd Hwo].
      split; [done|]. intros b Hb. destruct (Hwo b Hb) as (Hwb & y & f & o1 & Hat & Ho1 & Er & Hset).
      assert (y ≠ x) as Hyx by (intros ->; done). split; [by rewrite Hw|]. exists y, f, o1.
      split_and!; [done|by rewrite Hst|done|]. eapply (settled_keep _ _ _ _ _ CF); [congruence|done].
Qed.

Lemma begin_inv j r x l : jinv j → in_range j r → mid j !! r = None → pending r (csd (jx j)) = MRelease x :: l →
  wp (handle r (MRelease x)) (λ _ g, jinv (j <| jx := g |> <| mid ::= insert r (RLock x) |>)) (jx j).
Proof.
  intros HJ Hr Hmid Hq.
  destruct (msg_leased j r _ l HJ Hr Hmid Hq eq_refl) as (y & o & s & d & pr & tb & rs & Hat & Hf & Hl).
  assert (y = x ∧ tls_xstream pr = None ∧ p_table pr = TDefault ∧ runners pr = [] ∧ ctl l = []) as (-> & Et & ET & Ern & Ectl)
    by (by inversion Hl).
  pose proof Hat as (Hp & Hs & Ho & Er & Epr & Hms & Hd & _).
  unfold handle, release_begin. wp_step. wp_step. wp_step. eapply wp_xstream; [exact Ho|]. wp_step. rewrite Hms. cbn [deref]. wp_step.
  wp_step. apply wp_lift. eapply wp_set_sched; [exact Hd|]. eapply wp_set_xstream; [exact Ho|].
  set (g := _ <| xheap ::= _ |>). set (o' := _ <| x_state := _ |>) in g.
  eapply (handler_inv j r x o o'); [split; try done|done|..].
  - intros (o1 & ? & _ & ? & _). unfold stream in *. congruence.
  - intros s'. unfold sched_at in Hd. simpl. rewrite lookup_insert. case_decide; [|done]. subst. by rewrite Hd.
  - intros r' Hne. simpl. by apply take_there.
  - auto.
  - auto.
  - simpl. congruence.
  - by left.
  - exists pr. split; [done|]. change (slot _ r) with (slot j r). rewrite Hs. exists o', s, tb, rs.
    split_and!; [apply lookup_insert_eq|done..| |].
    + change (finished o') with (finished o). rewrite Hf. unfold queue. simpl. rewrite take_here, Hq, lookup_insert_eq. simpl.
      rewrite Et, ET, Ern, Ectl. constructor.
    + intros _. exists (d <| used_by := None |>). split; [apply lookup_insert_eq|].
      by destruct Hat as (_ & _ & _ & _ & _ & _ & _ & ? & ?).
  - destruct (ji_lock _ HJ x o Ho) as [L1 L2 L3 L4].
    assert (∀ r', mid j !! r' ≠ Some (RTake x)) as Hnt.
    { intros r' Hr'. destruct (mid_slot j r' _ x HJ Hr') as (Hs' & o1 & Ho1 & Er' & _); [by right|].
      unfold stream in *. assert (r' = r) as -> by congruence. congruence. }
    split; [done| | |done].
    + intros r'. simpl. rewrite lookup_insert. case_decide; [done|]. by intros ?%Hnt.
    + intros b f r' Hat'. simpl. rewrite lookup_insert. case_decide; [done|]. apply Hnt.
  - intros b f _ _ Hin. exists o'. split; [apply lookup_insert_eq|by left].
  - done.
Qed.

(** The PE of a handler that still has the stream. *)
Lemma handler_at j r m x : jinv j → mid j !! r = Some m → m = RLock x ∨ m = RTake x →
  in_range j r ∧ slot j r = Some x ∧ ∃ o s pr tb rs, stream j x = Some o ∧ x_rank o = r ∧ primary o = false ∧
    main_sched o = Some s ∧ pes (jx j) !! r = Some pr ∧ (m = RLock x → finished o = false) ∧ (m = RTake x → finished o = true) ∧
    (∀ m' f, m' = Some (RTake x) ∧ f = true ∨ waking m' ∧ f = true →
      lease x tb rs (tls_xstream pr) (p_table pr) (runners pr) (queue j r) m' f).
Proof.
  intros HJ Hm Hor. destruct (mid_slot j r m x HJ Hm Hor) as (Hs & _). pose proof (ji_mid _ HJ r m Hm) as Hr.
  split_and!; [done|done|]. destruct (ji_rank _ HJ r Hr) as (pr & Hp & Hk). rewrite Hs, Hm in Hk.
  destruct Hk as (o & s & tb & rs & Ho & Er & Epr & Hms & Hl & _). exists o, s, pr, tb, rs.
  assert (¬ waking (Some m)) as Hw by (intros [?|[k Hk]]; [done|]; destruct Hor; congruence).
  inversion Hl; subst; try done; split_and!; try done; try (destruct Hor; congruence);
    intros m' f [[-> ->]|[? ->]]; by constructor.
Qed.
Lemma publish_inv j r x : jinv j → mid j !! r = Some (RLock x) → locked x (jx j) = false →
  wp (release_publish x) (λ _ g, jinv (j <| jx := g |> <| mid ::= insert r (RTake x) |>)) (jx j).
Proof.
  intros HJ Hm Hlk. destruct (handler_at j r _ x HJ Hm) as
    (Hr & Hs & o & s & pr & tb & rs & Ho & Er & Epr & Hms & Hp & Hf & _ & Hl); [by left|].
  specialize (Hf eq_refl). unfold locked in Hlk. unfold stream in Ho. rewrite Ho in Hlk. simpl in Hlk.
  unfold release_publish. eapply wp_set_xstream; [exact Ho|]. set (g := _ <| xheap ::= _ |>).
  set (o' := _ <| finished := true |>) in g. destruct (ji_lock _ HJ x o Ho) as [L1 L2 L3 L4].
  eapply (handler_inv j r x o o'); [split; try done|done|..].
  - intros (o1 & ? & _ & ? & _). unfold stream in *. congruence.
  - auto.
  - auto.
  - by right.
  - by left.
  - exists pr. split; [done|]. change (slot _ r) with (slot j r). rewrite Hs. exists o', s, tb, rs.
    split_and!; [apply lookup_insert_eq|done..| |done]. simpl. rewrite lookup_insert_eq. apply Hl. by left.
  - assert (∀ b f, ¬ at_ j b (JCheck x f)) as Hno by (intros b f Hat; apply L1 in Hat; congruence).
    split; [done|done|by intros b f r' Hat%Hno|by intros b c f f' Hat%Hno].
  - intros b f _ _ Hin. exists o'. split; [apply lookup_insert_eq|by left].
  - done.
Qed.
Lemma take_inv j r x : jinv j → mid j !! r = Some (RTake x) →
  wp (release_take x) (λ l g, jinv (j <| jx := g |> <| mid ::= insert r (RWake l) |>)) (jx j).
Proof.
  intros HJ Hm. destruct (handler_at j r _ x HJ Hm) as
    (Hr & Hs & o & s & pr & tb & rs & Ho & Er & Epr & Hms & Hp & _ & Hf & Hl); [by right|].
  specialize (Hf eq_refl). unfold stream in Ho. destruct (ji_lock _ HJ x o Ho) as [L1 L2 L3 L4].
  unfold release_take. wp_step. eapply wp_xstream; [exact Ho|]. wp_step. eapply wp_set_xstream; [exact Ho|]. wp_step.
  set (g := _ <| xheap ::= _ |>). set (o' := _ <| jm := false |>) in g.
  assert (∀ r', r' ≠ r → mid j !! r' ≠ Some (RTake x) ∧ mid j !! r' ≠ Some (RLock x)) as Hother.
  { intros r' Hne. split; intros Hr'; [assert (RTake x = RLock x ∨ RTake x = RTake x) as Hor by (by right)
      |assert (RLock x = RLock x ∨ RLock x = RTake x) as Hor by (by left)];
      destruct (mid_slot j r' _ x HJ Hr' Hor) as (_ & o1 & Ho1 & Er' & _); unfold stream in *; congruence. }
  set (j' := j <| jx := g |> <| mid ::= _ |>).
  assert (∀ r', mid j' !! r' ≠ Some (RTake x) ∧ mid j' !! r' ≠ Some (RLock x)) as Hmid'.
  { intros r'. simpl. rewrite lookup_insert. case_decide; [done|]. by apply Hother. }
  assert (settled j' x) as Hset.
  { exists o'. split_and!; [apply lookup_insert_eq|done|done|done|done]. }
  eapply (handler_inv j r x o o'); [split; try done|done|..].
  - intros (o1 & _ & _ & _ & _ & Hno). by destruct (Hno r) as [[] _].
  - auto.
  - auto.
  - by left.
  - by right.
  - exists pr. split; [done|]. change (slot _ r) with (slot j r). rewrite Hs. exists o', s, tb, rs.
    split_and!; [apply lookup_insert_eq|done..| |].
    + simpl. rewrite lookup_insert_eq, Hf. apply Hl. right. split; [right; eauto|done].
    + simpl. congruence.
  - assert (∀ b f, ¬ at_ j b (JCheck x f)) as Hno by (intros b f Hat; by apply (L3 b f r Hat)).
    split; [by intros b f Hat%Hno|by intros r' ?%(proj1 (Hmid' r'))|by intros b f r' Hat%Hno|by intros b c f f' Hat%Hno].
  - intros b f _ _ Hin. exists o'. split; [apply lookup_insert_eq|right]. split; [done|]. exists (x_joiners o).
    split; [|done]. simpl. rewrite Er. apply lookup_insert_eq.
  - done.
Qed.

(** ** Awakening the joiners *)

(** PE [r] goes through its list. *)
Lemma waking_rank j r l m' : rank_ok j r → mid j !! r = Some (RWake l) → waking m' → ∀ j', jx j' = jx j ∨ (∃ f, jx j' = jx j <| xcth ::= f |>) →
  mid j' !! r = m' → rank_ok j' r.
Proof.
  intros (pr & Hp & Hm) Hmid Hw j' Hx Hm'.
  assert (pes (jx j') = pes (jx j) ∧ slot j' r = slot j r ∧ (∀ y, stream j' y = stream j y) ∧ queue j' r = queue j r ∧
    ∀ s, sched_at j' s = sched_at j s) as (E1 & E2 & E3 & E4 & E5).
  { unfold slot, stream, queue, sched_at. by destruct Hx as [-> |[f ->]]. }
  exists pr. rewrite E1, E2, E4, Hm'. split; [done|]. rewrite Hmid in Hm. destruct (slot j r) as [x|].
  - destruct Hm as (o & s & tb & rs & Ho & Er & Epr & Hms & Hl & Hd). exists o, s, tb, rs. rewrite E3, E5.
    split_and!; try done. inversion Hl; subst; by constructor.
  - destruct Hm as (? & ? & ? & ? & _). by split_and!.
Qed.
Lemma wake_inv j r a l : jinv j → mid j !! r = Some (RWake (a :: l)) →
  wp (awaken a) (λ _ g, jinv (j <| jx := g |> <| mid ::= insert r (RWake l) |>)) (jx j).
Proof.
  intros HJ Hm. unfold awaken. wp_step. set (j' := _ <| mid ::= _ |>).
  destruct (ji_woken _ HJ r _ Hm) as [[Hal Hnd]%NoDup_cons Hwo].
  destruct (Hwo a) as (Hwa & x & fr & o & Hat & Ho & Er & Hset); [by left|].
  assert (∀ q, at_ j a q → q = JBlocked x fr) as Hid by (destruct Hat as [u Hu]; intros q; by eapply at_call).
  assert (∀ b, b ≠ a → waits j' b = waits j b) as Hw by (intros b Hne; by apply awaken_other).
  assert (∀ r' y, (mid j' !! r' = Some (RTake y) ↔ mid j !! r' = Some (RTake y)) ∧
    (mid j' !! r' = Some (RLock y) ↔ mid j !! r' = Some (RLock y))) as Hmm.
  { intros r' y. simpl. rewrite lookup_insert. case_decide; [subst; rewrite Hm; split; split; congruence|done]. }
  assert (∀ y, settled j y → settled j' y) as Hst.
  { intros y (o1 & ? & ? & ? & ? & Hno). exists o1. split_and!; try done. intros r'. rewrite (proj1 (Hmm r' y)), (proj2 (Hmm r' y)). apply Hno. }
  assert (∀ r' l0 b, b ≠ a → mid j !! r' = Some (RWake l0) → b ∈ l0 → ∃ l', mid j' !! r' = Some (RWake l') ∧ b ∈ l') as Hls.
  { intros r' l0 b Hne Hr' Hin. simpl. rewrite lookup_insert. case_decide; [|eauto]. subst. exists l. split; [done|].
    rewrite Hm in Hr'. simplify_eq. apply elem_of_cons in Hin. naive_solver. }
  assert (confined (Some a) (Some x) (Some r) j j') as CF.
  { split; try done; try (by eauto); try tauto.
    - intros b Hne. apply Hw. congruence.
    - intros r' Hne. simpl. rewrite lookup_insert_ne; [done|congruence].
    - intros r' y _. split; apply Hmm.
    - intros r' y _. apply Hmm.
    - intros r' l0 b Hne. apply Hls. congruence.
    - intros b y f [= <-] Hb _. apply Hid in Hb. congruence.
    - intros b y [= <-] Hb. by apply Hid in Hb.
    - intros b y [= <-] Hb. by apply Hid in Hb. }
  apply (jinv_local _ _ _ _ _ CF HJ).
  - intros b u q [= <-] Hb. assert (q = JBlocked x fr) as -> by (apply Hid; by exists u). simpl.
    assert (waits j' a = false) as -> by apply awaken_runs. by apply Hst.
  - apply (ji_alone _ HJ).
  - intros b u q y f Hne Hb [= <-] Ht. pose proof (ji_call _ HJ b u q Hb) as Hok.
    destruct q; simpl in *; simplify_eq; try done; [| |by apply Hst|].
    + rewrite Hw by congruence. destruct (waits j b); [|by apply Hst]. destruct Hok as (o1 & Ho1 & Hor). exists o1.
      split; [done|]. destruct Hor as [|(Hs & l0 & Hl0 & Hin)]; [by left|right]. split; [by apply Hst|].
      eapply Hls; [congruence|done|done].
    + destruct Hok as [Hs Hex]. split; [by apply Hst|done].
    + destruct Hok as [Hs Hex]. split; [by apply Hst|done].
  - intros y o1 [= <-] Ho1. assert (o1 = o) as -> by (change (stream j x = Some o1) in Ho1; congruence).
    destruct (ji_stream _ HJ x o Ho) as [S1 S2 S3 S4 S5 S6 S7].
    assert (x_joiners o = []) as Hj by (destruct Hset as (o1 & ? & _ & _ & ? & _); congruence).
    split; [|by intros y o1 s Hy Hy1 Hs Hs'; apply Hy, (ji_sched _ HJ y x o1 o s)].
    split; try done; rewrite ?Hj; [by left|by intros ? ?%elem_of_nil].
  - apply (locks_keep j j' None); try done; [eauto|]. intros r' y _. apply Hmm.
  - intros r' [= <-]. pose proof (ji_mid _ HJ r _ Hm) as Hr. split; [done|].
    eapply (waking_rank j r); [by apply (ji_rank _ HJ)|done| |right; by eexists|apply lookup_insert_eq]. right. eauto.
  - apply (woken_keep _ _ _ _ _ CF); [| |done].
    + intros r0 l0. simpl. rewrite lookup_insert. case_decide.
      * intros [= <-]. subst. exists (a :: l). split_and!; [done|by apply sublist_cons|]. by intros b [= <-].
      * intros Hl0. exists l0. split_and!; [done..|]. intros b [= <-] Hin.
        destruct (ji_woken _ HJ r0 l0 Hl0) as [_ Hw0]. destruct (Hw0 a Hin) as (_ & y & f & o1 & Hb & Ho1 & Er1 & _).
        apply Hid in Hb. by simplify_eq.
    + intros b y o1 f [= <-] _ _ Ho1 Hs. split; [by apply Hst|]. eauto.
Qed.
Lemma woken_inv j r : jinv j → mid j !! r = Some (RWake []) → jinv (j <| mid ::= delete r |>).
Proof.
  intros HJ Hm. set (j' := j <| mid ::= _ |>).
  assert (∀ r', mid j' !! r' = if decide (r = r') then None else mid j !! r') as Hmid.
  { intros r'. simpl. apply lookup_delete. }
  assert (confined None None (Some r) j j') as CF.
  { split; try done; try (by eauto); try tauto.
    - intros r' Hne. rewrite Hmid, decide_False; [done|congruence].
    - intros r' y _. rewrite Hmid. case_decide; [done|tauto].
    - intros r' y _. rewrite Hmid. case_decide; [subst; congruence|done].
    - intros r' l b _ Hl Hin. rewrite Hmid. case_decide; [|eauto]. subst. rewrite Hm in Hl. simplify_eq. by apply elem_of_nil in Hin. }
  apply (jinv_local _ _ _ _ _ CF HJ); try done.
  - apply (ji_alone _ HJ).
  - apply (locks_keep j j' None); try done; [eauto|]. intros r' y _. rewrite Hmid. by case_decide.
  - intros r' [= <-]. pose proof (ji_mid _ HJ r _ Hm) as Hr. split; [done|].
    eapply (waking_rank j r); [by apply (ji_rank _ HJ)|done| |by left|by rewrite Hmid, decide_True]. by left.
  - apply (woken_keep _ _ _ _ _ CF); [|done|done]. intros r0 l0. rewrite Hmid. case_decide; [done|].
    intros Hl0. by exists l0.
Qed.

(** ** Bindings and creation *)

Lemma jx_id j : j <| jx := jx j |> = j.
Proof. by destruct j. Qed.
Lemma bind_inv j x n v g : jinv j → is_Some (stream j x) → ABT_xstream_set_cpubind x n (jx j) = Done v g →
  jinv (j <| jx := g |>).
Proof.
  intros HJ [o Ho] Hg. destruct (ji_stream _ HJ x o Ho) as [[Hx _] _ _ _ _ _ _].
  unfold ABT_xstream_set_cpubind, with_xstream, ABTI_xstream_get, ABTI_obj, ABTI_is_null_handle in Hg.
  destruct (Z.ltb_spec x 256); [lia|]. unfold stream in Ho.
  unfold mbind, M_bind, xstream, set_xstream, get, send_pe_msg, modify, mret, M_ret in Hg. rewrite Ho in Hg.
  destruct (cpu_allowed (jx j) n); simpl in Hg; [rewrite Ho in Hg|]; simplify_eq; [|by rewrite jx_id].
  set (g := _ <| csd ::= _ |>). assert (local_to (x_rank o) (jx j) g) as Hl.
  { eapply local_trans; [eapply (local_stream _ x o (o <| cpubind := n |>)); done|apply local_push]. }
  apply (pe_inv j (x_rank o)); [done| |done]. intros Hr.
  destruct (ji_rank _ HJ _ Hr) as (pr & Hp & Hm). eapply (rank_same j _ g pr pr); try done; [|by exists pr].
  simpl. rewrite push_here, ctl_app. simpl. by rewrite app_nil_r.
Qed.

Lemma first_free_spec l : ∀ r r', first_free r l = Some r' →
  r ≤ r' < r + Z.of_nat (length l) ∧ l !! Z.to_nat (r' - r) = Some None ∧
  ∀ i, r ≤ i < r' → ∃ x, l !! Z.to_nat (i - r) = Some (Some x).
Proof.
  induction l as [|[x|] l IH]; intros r r' Hf; simpl in Hf; [done| |].
  - destruct (IH (r + 1) r' Hf) as (H1 & H2 & H3). simpl. split_and!; [lia|lia| |].
    + replace (Z.to_nat (r' - r)) with (S (Z.to_nat (r' - (r + 1)))) by lia. done.
    + intros i Hi. destruct (decide (i = r)) as [->|]; [rewrite Z.sub_diag; by exists x|].
      destruct (H3 i) as [y Hy]; [lia|]. exists y. by replace (Z.to_nat (i - r)) with (S (Z.to_nat (i - (r + 1)))) by lia.
  - simplify_eq. rewrite Z.sub_diag. simpl. split_and!; [lia|lia|done|]. intros i Hi. lia.
Qed.
Lemma lease_rank_free want n l r : length l = Z.to_nat n → lease_rank want n l = Some r →
  1 ≤ r < n ∧ l !! Z.to_nat r = Some None ∧ (0 ≤ want → r = want) ∧
  (want < 0 → ∀ i, 1 ≤ i < r → ∃ x, l !! Z.to_nat i = Some (Some x)).
Proof.
  intros Hlen. unfold lease_rank. destruct (Z.ltb_spec want 0) as [Hw|Hw].
  - intros Hf. apply first_free_spec in Hf as (H1 & H2 & H3). rewrite length_take, length_drop in H1.
    assert (∀ i v, 1 ≤ i < n → take (Z.to_nat (n - 1)) (drop 1 l) !! Z.to_nat (i - 1) = Some v → l !! Z.to_nat i = Some v) as Hl.
    { intros i v Hi Hv. rewrite lookup_take, decide_True in Hv by lia. rewrite lookup_drop in Hv.
      by replace (Z.to_nat i) with (1 + Z.to_nat (i - 1))%nat by lia. }
    split_and!; [lia|lia|apply Hl; [lia|done]|lia|]. intros _ i Hi. destruct (H3 i Hi) as [x Hx]. exists x. apply Hl; [lia|done].
  - destruct (Z.leb_spec want 0); [done|]. destruct (Z.geb_spec want n); [done|]. simpl.
    destruct (l !! Z.to_nat want) as [v|] eqn:Hv; [|apply lookup_ge_None in Hv; lia].
    destruct v; [done|]. intros [= <-]. split_and!; [lia|lia|done|done|lia].
Qed.
Lemma target_live j a q x fr : call_ok j a q → target q = Some (x, fr) → is_Some (stream j x).
Proof.
  assert (settled j x → is_Some (stream j x)) as Hs by (intros (o & -> & _); done).
  intros Hok Ht. destruct q; simpl in *; simplify_eq; try done; [|naive_solver..].
  destruct (waits j a); [|naive_solver]. destruct Hok as (o & -> & _). done.
Qed.

(** What a lease of rank [r] to scheduler [s] leaves. *)
Definition after_create (g : xst) (s r : Z) (d : ABTI_sched) : xst :=
  let x := w_brk (xw g) in
  g <| xw := xw g <| w_brk ::= Z.succ |> <| w_scheds ::= insert s (d <| used_by := Some x |>) |> |>
    <| xheap ::= insert x (new_xstream r s false) |>
    <| xstreams ::= insert (Z.to_nat r) (Some x) |>
    <| csd ::= λ c, CmiPushPE r (MTable (table_of s d)) (CmiPushPE r (MLease x) c) |>.
Lemma create_spec s want g d : 256 ≤ s → w_scheds (xw g) !! s = Some d →
  create_leased s want g =
    if non_null (used_by d) then Done (ABT_ERR_INV_SCHED, None) g else
    match lease_rank want (num_pes g) (xstreams g) with
    | None => Done (ABT_ERR_INV_XSTREAM_RANK, None) g
    | Some r => Done (ABT_SUCCESS, Some (w_brk (xw g))) (after_create g s r d)
    end.
Proof.
  intros Hs Hd. assert (∀ w, g <| xw := w |> = mk_xst _ _ _ w (xheap g) (num_pes g) (direct_burst g) (xstreams g)
    (primary_xstream g) (primary_thread g) (pes g) (csd g) (xcth g)) as Hg by done.
  unfold create_leased, ABTI_sched_get, ABTI_obj, ABTI_is_null_handle. destruct (Z.ltb_spec s 256); [lia|].
  unfold mbind, M_bind, lift, sched. rewrite Hd. assert (g <| xw := xw g |> = g) as -> by (by destruct g).
  destruct (non_null (used_by d)); [done|]. simpl. unfold ABTI_xstream_lease, mbind, M_bind, get.
  destruct (lease_rank want (num_pes g) (xstreams g)) as [r|]; [|done].
  unfold put_xstream, mbind, M_bind, lift, new_addr, modify, mret, M_ret. simpl.
  unfold set_sched. simpl. rewrite Hd. simpl. unfold ABTI_xstream_install, mbind, M_bind, xstream. simpl.
  rewrite lookup_insert_eq. simpl. unfold send_pe_msg, modify, lift, sched, CsdSchedTableInstall, send_pe_msg, modify. simpl.
  rewrite lookup_insert_eq. simpl. done.
Qed.
Lemma create_inv j s want d v g : jinv j → 256 ≤ s → sched_at j s = Some d →
  (∀ x o, stream j x = Some o → main_sched o ≠ Some s) →
  create_leased s want (jx j) = Done v g → jinv (j <| jx := g |>).
Proof.
  intros HJ Hs Hd Hno Hg. rewrite (create_spec s want (jx j) d Hs Hd) in Hg.
  destruct (non_null (used_by d)); [simplify_eq; by rewrite jx_id|].
  destruct (lease_rank want _ _) as [r|] eqn:Hr; simplify_eq; [|by rewrite jx_id].
  destruct (lease_rank_free _ _ _ _ (ji_size _ HJ) Hr) as (Hrange & Hfree & _). clear Hr.
  assert (slot j r = None) as Hsl by (unfold slot; by rewrite Hfree).
  set (x := w_brk (xw (jx j))). set (j' := j <| jx := _ |>).
  assert (stream j x = None) as Hx.
  { destruct (stream j x) as [o|] eqn:Ho; [|done]. destruct (ji_stream _ HJ x o Ho) as [? _ _ _ _ _ _]. lia. }
  assert (stream j' x = Some (new_xstream r s false)) as Hx' by apply lookup_insert_eq.
  assert (∀ y, y ≠ x → stream j' y = stream j y) as Hst by (intros; by apply lookup_insert_ne).
  assert (∀ b q fr, at_ j b q → target q ≠ Some (x, fr)) as Hat.
  { intros b q fr [u Hb] Ht. destruct (target_live j b q x fr) as [o Ho]; [by eapply ji_call|done|congruence]. }
  assert (∀ r', mid j !! r' ≠ Some (RTake x) ∧ mid j !! r' ≠ Some (RLock x)) as Hmid.
  { intros r'. split; intros Hm; destruct (mid_slot j r' _ x HJ Hm) as (_ & o & ? & _); auto; congruence. }
  assert (∀ s' d', sched_at j s' = Some d' → ∃ d2, sched_at j' s' = Some d2 ∧ user_def d2 = user_def d') as Hsc.
  { intros s' d' Hd'. unfold sched_at in *. simpl. rewrite lookup_insert. case_decide; [|eauto]. subst. simplify_eq. eauto. }
  assert (∀ r', in_range j r' → slot j' r' = if decide (r' = r) then Some x else slot j r') as Hslot.
  { intros r' Hr'. unfold slot at 1. simpl. apply slot_insert; [done|done|apply (ji_size _ HJ)]. }
  assert (confined None (Some x) (Some r) j j') as CF.
  { split; try done; try (by eauto); try tauto.
    - intros y Hy. rewrite Hst; [done|congruence].
    - simpl. apply length_insert.
    - simpl. lia.
    - intros r' y Hr' Hne Hy. rewrite Hst; [done|]. intros ->. destruct (slot_rank j r' x HJ Hr' Hy) as (o & ? & _). congruence.
    - intros r' _ Hne. unfold queue. simpl. by rewrite !push_there by congruence.
    - intros r' Hr' Hne. rewrite Hslot, decide_False by (done || congruence). done.
    - intros r' y Hr' Hy. rewrite Hslot by done. case_decide; [|done]. subst r'. rewrite Hsl. split; congruence. }
  apply (jinv_local _ _ _ _ _ CF HJ); try done.
  - apply (ji_alone _ HJ).
  - intros b u q y fr _ Hb [= <-] Ht. exfalso. eapply (Hat b q fr); [by exists u|done].
  - intros y o [= <-] Ho. simplify_eq. split.
    + split; simpl; try done.
      * pose proof (ji_brk _ HJ). lia.
      * exists s. split; [done|left]. by destruct (Hsc s d Hd) as (? & -> & _).
      * intros _. split; [done|left]. by rewrite Hslot, decide_True.
      * constructor.
      * by intros ? ?%elem_of_nil.
    + intros y o s' Hy Hy1 [= <-]. rewrite Hst in Hy1 by done. by eapply Hno.
  - apply (locks_keep j j' (Some x)); try done.
    + intros y o Hne Ho. rewrite Hst in Ho by congruence. eauto.
    + intros y o [= <-] Ho. assert (∀ b fr, ¬ at_ j' b (JCheck x fr)) as Hnc.
      { intros b fr Hb. by apply (Hat b (JCheck x fr) fr Hb). }
      split; [by intros b fr Hb%Hnc|by intros r' ?%(proj1 (Hmid r'))|by intros b fr r' Hb%Hnc|by intros b c fr fr' Hb%Hnc].
  - intros r' [= <-]. split; [done|]. destruct (ji_rank _ HJ r Hrange) as (pr & Hp & Hm). rewrite Hsl in Hm.
    destruct Hm as (E1 & E2 & E3 & E4 & Hw). exists pr. split; [done|]. rewrite Hslot, decide_True by done.
    exists (new_xstream r s false), s, (table_of s d), (runners_of s d). split_and!; [done..| |].
    + unfold queue in *. simpl. rewrite !push_here, !ctl_app, E1, E2, E3, E4. simpl. by constructor.
    + intros _. eexists. split; [apply lookup_insert_eq|done].
  - apply (woken_keep _ _ _ _ _ CF); [|intros b y o fr [= <-]; congruence|done]. intros r0 l0 Hl0. by exists l0.
Qed.

(** ** All steps *)

Lemma jstep_inv j j' : jinv j → jstep false j j' → jinv j'.
Proof.
  intros HJ Hst. destruct Hst as [w Hw|s want v g Hs [d Hd] Hno Hg|x n v g Hx Hf Hg|a u ret h Ha Hx
    |a u ret addr h Ha Hx|a u p c p' g Ha Hen Hre Hg|r m l g Hr1 Hm Hq Hg|r x g Hm Hlk Hg|r x l g Hm Hg|r a l g Hm Hg
    |r Hm|r pr x o s d g Hr1 Hm Hp Ht Ho Hfin Hs Hd Hu Hg|r pr s g Hr1 Hm Hp Hin Hg].
  - by apply env_inv.
  - by eapply create_inv.
  - by eapply bind_inv.
  - eapply entry_inv; try done. intros x Hh. by destruct (Hx x Hh).
  - eapply entry_inv; try done. intros x Hh. destruct (ABTI_is_null_handle addr); [done|]. destruct (Hx x Hh) as [? Hun].
    split_and!; [done| |done]. intros b v q Hb. by eapply Hun.
  - eapply thread_step_inv; try done. by apply Hre.
  - destruct m as [y|y n|y|t].
    all: try (refine (wp_Done (handle r _) (λ _ g, jinv (j <| jx := g |>)) _ _ _ _ Hg); by eapply msg_inv).
    refine (wp_Done _ _ _ _ _ (begin_inv j r y l HJ Hr1 Hm Hq) Hg).
  - refine (wp_Done _ _ _ _ _ (publish_inv j r x HJ Hm Hlk) Hg).
  - refine (wp_Done _ _ _ _ _ (take_inv j r x HJ Hm) Hg).
  - refine (wp_Done _ _ _ _ _ (wake_inv j r a l HJ Hm) Hg).
  - by apply woken_inv.
  - eapply (wp_Done (ABTI_xstream_release r x) (λ _ g, jinv (j <| jx := g |>))); [by eapply release_inv|exact Hg].
  - eapply (wp_Done (runner_end r s) (λ _ g, jinv (j <| jx := g |>))); [by eapply runner_inv|exact Hg].
Qed.
Lemma jsteps_inv j0 j : jinv j0 → jsteps false j0 j → jinv j.
Proof. intros H0. induction 1; [done|]. by eapply jstep_inv. Qed.
End pe.
