(* ===== verification/XstreamSpec.v ===== *)
(** * What the streams promise

    From the state [ABT_init] leaves, whatever threads and PEs do: no PE and no
    thread in a call reaches a freed stream or scheduler, joins return only when
    the stream has finished, and no joiner is left blocked.  Then the ranks that
    leases give, and when the idle hook gives a lease back. *)

From S2P Require Import Prelude AbtTypes Config Objects Storage PoolList Sleepers PoolMpsc Pool.
From S2P Require Import PoolWorld ConfigApi Sched SchedLife Sync Thread ThreadSpec Xstream XstreamJoin XstreamSafe XstreamPe.

Section spec.
Context `{E : Ext, R : Csd, C : Cth} {HC : CthLaws} {HR : CsdLaws}.
Implicit Types (j : jst) (x y : ptr) (a b r : Z) (o : ABTI_xstream) (p q : point).

(** ** After initialization *)

(** The primary stream [x0] with its scheduler; every other PE is free. *)
Record booted x0 s0 d0 j : Prop := {
  bt_size : length (xstreams (jx j)) = Z.to_nat (num_pes (jx j));
  bt_primary : xheap (jx j) = {[ x0 := new_xstream 0 s0 true ]};
  bt_addr : 256 ≤ x0 < w_brk (xw (jx j));
  bt_sched : w_scheds (xw (jx j)) !! s0 = Some d0;
  bt_slots r : in_range j r → slot j r = None;
  bt_pes r : in_range j r → ∃ pr, pes (jx j) !! r = Some pr ∧ tls_xstream pr = None ∧ p_table pr = TDefault ∧
    runners pr = [] ∧ pending r (csd (jx j)) = [];
  bt_calls a u p : calls j !! a = Some (u, p) → p = JIdle None;
  bt_mid : mid j = ∅;
}.
Lemma booted_inv x0 s0 d0 j : booted x0 s0 d0 j → jinv j.
Proof.
  intros [B1 B2 B3 B4 B5 B6 B7 B8].
  assert (∀ x o, stream j x = Some o → x = x0 ∧ o = new_xstream 0 s0 true) as Hs.
  { intros x o Ho. unfold stream in Ho. rewrite B2 in Ho. by apply lookup_singleton_Some in Ho as [-> <-]. }
  assert (∀ r m, mid j !! r ≠ Some m) as Hm by (intros r m; by rewrite B8, lookup_empty).
  assert (∀ a p, at_ j a p → p = JIdle None) as Hat by (intros a p [u Hu]; by eapply B7).
  split.
  - done.
  - lia.
  - intros a u p Ha. by rewrite (B7 a u p Ha).
  - intros a b u v p q x fr _ Ha Hb. rewrite (B7 a u p Ha). done.
  - intros x o Ho. destruct (Hs x o Ho) as [-> ->]. split; try done.
    + exists s0. split; [done|left]. unfold sched_at. by rewrite B4.
    + constructor.
    + by intros a ?%elem_of_nil.
  - intros x y o o' s Hx Hy _ _. destruct (Hs x o Hx), (Hs y o' Hy). congruence.
  - intros x o Ho. split; try (by intros; exfalso; eapply Hm); by intros a *; intros Ha%Hat.
  - intros r Hr. destruct (B6 r Hr) as (pr & Hp & E1 & E2 & E3 & E4). exists pr. split; [done|]. rewrite B5 by done.
    unfold vacant, queue. rewrite E4. split_and!; try done. left. by rewrite B8, lookup_empty.
  - intros r m Hr. by apply Hm in Hr.
  - intros r l Hr. by apply Hm in Hr.
Qed.

(** ** No dangling streams or schedulers *)




(** The PE of stream [x] has given it back: it has swapped to its default table,
    runs no unit, runner or message of [x] and has forgotten it. *)
Definition given_back j o : Prop := ∃ pr, pes (jx j) !! x_rank o = Some pr ∧ tls_xstream pr = None ∧
  p_table pr = TDefault ∧ runners pr = [] ∧ queue j (x_rank o) = [] ∧ waking (mid j !! x_rank o).
Lemma settled_given_back j a u p x fr o : jinv j → calls j !! a = Some (u, p) → target p = Some (x, fr) →
  (∀ y, p ≠ FDelete y) → stream j x = Some o → finished o = true → (∀ r, mid j !! r ≠ Some (RTake x)) →
  given_back j o.
Proof.
  intros HJ Ha Ht Hnd Ho Hf Hmid. destruct (ji_stream _ HJ x o Ho) as [_ _ S3 S4 _ _ _].
  assert (primary o = false) as Hp by (destruct (primary o); [by rewrite S3 in Hf|done]).
  destruct (S4 Hp) as [Hr Hor]. assert (slot j (x_rank o) = Some x) as Hsl.
  { destruct Hor as [|[b [v Hb]]]; [done|]. exfalso. destruct (decide (a = b)) as [->|Hne].
    - assert (p = FDelete x) as -> by congruence. by eapply Hnd.
    - by eapply (ji_alone _ HJ b a). }
  destruct (leased_elim j _ (ji_rank _ HJ _ Hr)) as [Hx|[Hx|Hx]].
  - destruct Hx as (pr & _ & ? & _). congruence.
  - destruct Hx as (y & o' & s & d & pr & tb & rs & (_ & ? & ? & _) & ? & _). congruence.
  - destruct Hx as (y & o' & pr & Hp' & ? & Ho' & _ & _ & E1 & E2 & E3 & E4 & Hor'). simplify_eq.
    exists pr. split_and!; try done. destruct Hor' as [Hm|]; [|done]. by destruct (Hmid (x_rank o)).
Qed.

(** C14: joining.  A thread that waits in a join of [x] by blocking and runs
    again finds [x] finished, and one that waits by polling [finished] and sees
    it set goes on: in both cases the PE has swapped back to its default table,
    runs no unit, runner or message of [x] and has forgotten it.  A joiner still
    blocked is in the stream's list and the stream's handler has not taken that
    list yet, or it is in the list the handler is awakening: no joiner is
    forgotten.  This holds for every interleaving of threads and PEs under the
    rules of C13 (no look at [finished] between its store in the release handler
    and the end of the handler's critical section, one free with no other call
    on the stream, main schedulers left alone), if nothing but the release
    handler awakens a blocked joiner: [join_impl] does not look at [finished]
    again after its wait (xstream.cpp:310-311), so that a late wake-up (C38)
    would end it early. *)
Theorem join_waits_for_release x0 s0 d0 j0 j a u p x fr :
  booted x0 s0 d0 j0 → jsteps false j0 j → calls j !! a = Some (u, p) → p = JBlocked x fr ∨ p = JSpin x fr →
  ∃ o, stream j x = Some o ∧
    match p with
    | JBlocked _ _ =>
        if is_blocked a (xcth (jx j)) then
          a ∈ x_joiners o ∧ (finished o = true → mid j !! x_rank o = Some (RTake x)) ∨
          finished o = true ∧ ∃ l, mid j !! x_rank o = Some (RWake l) ∧ a ∈ l
        else finished o = true ∧ given_back j o
    | _ => finished o = true → ¬ reads_early p j → given_back j o
    end.
Proof.
  intros H0 Hs Ha Hp. assert (jinv j) as HJ by (eapply jsteps_inv; [by eapply booted_inv|done]).
  pose proof (ji_call _ HJ _ _ _ Ha) as Hok. destruct Hp as [->| ->]; simpl in Hok.
  - fold (waits j a). destruct (waits j a) eqn:Hw.
    + destruct Hok as (o & Ho & Hor). exists o. split; [done|]. destruct Hor as [Hin|[Hset Hl]].
      * left. split; [done|]. intros Hf. destruct (ji_stream _ HJ x o Ho) as [_ _ _ _ S5 _ _].
        destruct (S5 Hf) as [Hnil|[r Hr]]; [rewrite Hnil in Hin; by apply elem_of_nil in Hin|].
        destruct (mid_slot j r _ x HJ Hr) as (_ & o' & Ho' & <- & _); [by right|]. by simplify_eq.
      * right. destruct Hset as (o' & Ho' & _ & Hf & _). simplify_eq. done.
    + destruct Hok as (o & Ho & _ & Hf & _ & Hmid). exists o. split; [done|]. split; [done|].
      eapply settled_given_back; [done|exact Ha|done..|]. intros r. apply Hmid.
  - destruct Hok as [o Ho]. exists o. split; [done|]. intros Hf Hre.
    eapply settled_given_back; [done|exact Ha|done..|]. intros r Hr. apply Hre. by exists r.
Qed.

(** ** Ranks *)

Lemma first_free_none l : ∀ r, first_free r l = None → ∀ i, (i < length l)%nat → ∃ x, l !! i = Some (Some x).
Proof.
  induction l as [|[x|] l IH]; intros r Hf i Hi; simpl in *; [lia| |done].
  destruct i as [|i]; [by exists x|]. apply (IH _ Hf). lia.
Qed.
Lemma lease_rank_none want n l : length l = Z.to_nat n → lease_rank want n l = None →
  (want < 0 → ∀ r, 1 ≤ r < n → ∃ x, l !! Z.to_nat r = Some (Some x)) ∧
  (0 ≤ want → want = 0 ∨ n ≤ want ∨ ∃ x, l !! Z.to_nat want = Some (Some x)).
Proof.
  intros Hlen. unfold lease_rank. destruct (Z.ltb_spec want 0) as [Hw|Hw]; intros Hf.
  - split; [|lia]. intros _ r Hr. destruct (first_free_none _ _ Hf (Z.to_nat (r - 1))) as [x Hx].
    { rewrite length_take, length_drop. lia. }
    exists x. rewrite lookup_take, decide_True, lookup_drop in Hx by lia.
    by replace (Z.to_nat r) with (1 + Z.to_nat (r - 1))%nat by lia.
  - split; [lia|]. intros _. destruct (Z.leb_spec want 0); [left; lia|]. destruct (Z.geb_spec want n); [right; left; lia|].
    simpl in Hf. destruct (l !! Z.to_nat want) as [[x|]|] eqn:Hv; simpl in Hf; try done. right. right. by exists x.
Qed.

(** C16: leases.  Creating a stream on an unused scheduler, for a rank or (below
    zero) for any: it takes the requested rank, or the lowest free one from 1 up,
    registers the new stream there and nowhere else, marks the scheduler used and
    queues the lease and then the table on that PE; it fails exactly when the
    rank is out of range or taken, or all are, and then nothing changes. *)
Theorem xstream_create_rank s want g d :
  g_initialized (xw g) = true → 256 ≤ s → w_scheds (xw g) !! s = Some d → used_by d = None →
  length (xstreams g) = Z.to_nat (num_pes g) →
  let taken r := ∃ x, xstreams g !! Z.to_nat r = Some (Some x) in
  wp (ABT_xstream_create_with_rank s want) (λ v g',
    v = (ABT_ERR_INV_XSTREAM_RANK, None) ∧ g' = g ∧
      (if want <? 0 then ∀ r, 1 ≤ r < num_pes g → taken r else want = 0 ∨ num_pes g ≤ want ∨ taken want) ∨
    ∃ r x, v = (ABT_SUCCESS, Some x) ∧ 1 ≤ r < num_pes g ∧ ¬ taken r ∧
      (if want <? 0 then ∀ i, 1 ≤ i < r → taken i else r = want) ∧
      xstreams g' = <[Z.to_nat r := Some x]> (xstreams g) ∧ xheap g' = <[x := new_xstream r s false]> (xheap g) ∧
      used_by <$> w_scheds (xw g') !! s = Some (Some x) ∧
      pending r (csd g') = pending r (csd g) ++ [MLease x; MTable (table_of s d)]) g.
Proof.
  intros Hi Hs Hd Hu Hlen taken. unfold ABT_xstream_create_with_rank, xcheck_init. wp_step. wp_step. rewrite Hi.
  unfold wp. rewrite (create_spec s want g d Hs Hd), Hu. simpl. destruct (lease_rank want _ _) as [r|] eqn:Hr.
  - right. destruct (lease_rank_free _ _ _ _ Hlen Hr) as (H1 & H2 & H3 & H4). exists r, (w_brk (xw g)).
    split_and!; try first [done|lia].
    + intros [x Hx]. congruence.
    + destruct (Z.ltb_spec want 0); [by apply H4|by apply H3].
    + simpl. by rewrite lookup_insert_eq.
    + simpl. by rewrite !push_here, <- app_assoc.
  - left. split_and!; [done|done|]. destruct (lease_rank_none _ _ _ Hlen Hr) as [H1 H2].
    destruct (Z.ltb_spec want 0); [by apply H1|by apply H2].
Qed.

(** ** The idle hook *)

(** Nothing queued in [p], nor blocked if no other scheduler has it. *)
Definition empty_pool (w : world) (V : gmap Z (list ptr)) (k : ptr) : Prop :=
  V !! k = Some [] ∧ ∀ po, w_pools w !! k = Some po → num_scheds po ≤ 1 → num_blocked po = 0.
Lemma drained_holds w V ps : pools_hold w V → (∀ k, k ∈ ps → is_Some (V !! k)) →
  wp (drained ps) (λ (b : bool) w', w' = w ∧ (b = true ↔ ∀ k, k ∈ ps → empty_pool w V k)) w.
Proof.
  intros Hh. induction ps as [|k ps IH]; intros HV; cbn [drained].
  { wp_step. split; [done|]. split; [|done]. by intros _ k ?%elem_of_nil. }
  destruct (HV k) as [l Hl]; [by left|].
  destruct (hold_inv _ _ _ _ Hh Hl) as (C' & c & po & _ & _ & _ & _ & Hpo & _).
  wp_step. eapply wp_mono; [by eapply size_holds|]. intros n w' [-> ->].
  assert (∀ b : bool, b = false → ¬ empty_pool w V k → w = w ∧ (b = true ↔ ∀ k', k' ∈ k :: ps → empty_pool w V k')) as Hno.
  { intros b -> Hk. split; [done|]. split; [done|]. intros Hall. destruct Hk. apply Hall. by left. }
  destruct l as [|t l]; simpl; [|wp_step; apply Hno; [done|]; intros [? _]; congruence].
  wp_step. eapply wp_pool; [done|]. destruct (Z.leb_spec (num_scheds po) 1); simpl.
  - destruct (Z.eqb_spec (num_blocked po) 0); simpl.
    + eapply wp_mono; [apply IH; intros; apply HV; by right|]. intros b w' [-> Hb]. split; [done|]. rewrite Hb.
      split; [|intros Hall k' Hk; apply Hall; by right]. intros Hall k' [->|Hk]%elem_of_cons; [|by apply Hall].
      split; [done|]. intros. congruence.
    + wp_step. apply Hno; [done|]. intros [_ Hk]. specialize (Hk po Hpo). lia.
  - eapply wp_mono; [apply IH; intros; apply HV; by right|]. intros b w' [-> Hb]. split; [done|]. rewrite Hb.
    split; [|intros Hall k' Hk; apply Hall; by right]. intros Hall k' [->|Hk]%elem_of_cons; [|by apply Hall].
    split; [done|]. intros. simplify_eq. lia.
Qed.

(** C17: when the idle hook of a stream with a predefined, spinning scheduler
    runs after a join was requested, it gives the lease back (forgets the stream,
    queues the default table and behind it the release) exactly when no unit is
    parked on the PE, every pool is empty and no pool that only this scheduler
    has holds a blocked thread; otherwise it changes nothing. *)
Theorem idle_hook_releases r others g V pr x o s d :
  pools_hold (xw g) V → pes g !! r = Some pr → tls_xstream pr = Some x → xheap g !! x = Some o →
  main_sched o = Some s → w_scheds (xw g) !! s = Some d → user_def d = false → predef d ≠ ABT_SCHED_BASIC_WAIT →
  (∀ k, k ∈ pools d → is_Some (V !! k)) → finishing o = true →
  let idle := tls_held pr = None ∧ ∀ k, k ∈ pools d → empty_pool (xw g) V k in
  wp (ABTI_xstream_idle_hook r others) (λ t g', t = None ∧
    (idle ∧ xheap g' = xheap g ∧ xw g' = xw g ∧ (tls_xstream <$> pes g' !! r) = Some None ∧
       pending r (csd g') = pending r (csd g) ++ [MTable TDefault; MRelease x] ∨ ¬ idle ∧ g' = g)) g.
Proof.
  intros Hh Hp Ht Ho Hs Hd Hu Hpd HV Hf idle. assert (g <| xw := xw g |> = g) as Hid by (by destruct g).
  unfold ABTI_xstream_idle_hook. wp_step. eapply wp_this_pe; [exact Hp|]. rewrite Ht. wp_step.
  eapply wp_xstream; [exact Ho|]. wp_step. rewrite Hs. cbn [deref]. wp_step. wp_step. apply wp_lift.
  eapply wp_sched; [exact Hd|]. rewrite Hu, Hf, Hid. wp_step.
  eapply (wp_mono _ (λ (b : bool) g', g' = g ∧ (b = true ↔ idle))).
  - unfold pools_drained. wp_step. eapply wp_this_pe; [exact Hp|]. unfold idle. destruct (tls_held pr) as [t|]; simpl.
    { wp_step. split; [done|]. split; [done|]. by intros [? _]. }
    wp_step. apply wp_lift. eapply wp_sched; [exact Hd|]. rewrite Hid. apply wp_lift.
    eapply wp_mono; [by apply drained_holds|]. intros b w' [-> Hb]. rewrite Hid. split; [done|]. rewrite Hb. naive_solver.
  - intros b g' [-> Hb]. destruct b.
    + unfold ABTI_xstream_release, CsdSchedTableInstall, send_pe_msg. wp_step. wp_step. eapply wp_set_pe; [exact Hp|].
      wp_step. wp_step. wp_step. wp_step. split; [done|left]. split_and!; [by apply Hb..|done|done| |].
      * simpl. by rewrite lookup_insert_eq.
      * simpl. by rewrite !push_here, <- app_assoc.
    + assert (¬ idle) as Hni by (intros ?%Hb; done). destruct (pools d); [by wp_step; auto|].
      rewrite (proj2 (Z.eqb_neq _ _) Hpd). cbn [negb]. wp_step. auto.
Qed.

(** ** Replacing the main scheduler *)


End spec.
