(* ===== verification/RunOnPe.v ===== *)
(** * Running a function on a PE

    [ABTI_run_on_pe] and [run_handler] of src/xstream.cpp: a thread that is on no
    PE sends a function to one and waits until its handler has run it.  The flag
    the caller polls lives in the caller's stack frame and the handler stores to
    it through the message, so the flag must outlive the store; the machine keeps
    frames and messages in heaps where using freed memory is a fault.  Steps are
    the sending of a message, one look at the flag, the function, the store, and
    the freeing of the message. *)

From S2P Require Import Prelude.

(** ** The code *)

(** [ABTI_run_msg] *)
Record run_msg : Type := mk_run_msg {
  m_fn : Z;
  m_arg : Z;
  m_done : ptr;
}.
(** A caller: outside, or polling its flag; [m] is ghost, the message it sent. *)
Inductive rpoint : Type :=
  | RIdle
  | RPoll (d m : ptr).
(** [run_handler] on a PE: the message it has run, before the store to the
    flag, before [CmiFree]. *)
Inductive hpoint : Type :=
  | HIdle
  | HStore (m : ptr)
  | HFree (m : ptr).

(** [sys]: what the functions work on.  [frames]: the [done] flags of the calls
    that have not returned; [msgs]: the messages; [inbox]: the messages of each
    PE.  [ran] and [returned] are ghost: the messages whose functions have run,
    and where, and the calls that have returned. *)
Record rst (S : Type) : Type := mk_rst {
  sys : S;
  frames : gmap Z Z;
  msgs : gmap Z run_msg;
  inbox : gmap Z (list ptr);
  next_addr : Z;
  callers : gmap Z rpoint;
  handlers : gmap Z hpoint;
  ran : list (ptr * Z);
  returned : list ptr;
}.
Arguments mk_rst {S}. Arguments sys {S}. Arguments frames {S}. Arguments msgs {S}. Arguments inbox {S}. Arguments next_addr {S}.
Arguments callers {S}. Arguments handlers {S}. Arguments ran {S}. Arguments returned {S}.

Section machine.
(** [num_pes]: of the runtime; [call r f x]: what calling the function [f] on
    [x] does on PE [r]. *)
Context {S : Type} (num_pes : Z) (call : Z → Z → Z → S → S).
#[global] Instance eta_rst : Eta (rst S) := λ j,
  mk_rst (sys j) (frames j) (msgs j) (inbox j) (next_addr j) (callers j) (handlers j) (ran j) (returned j).
Implicit Types (j : rst S).

(** a worker PE, if there is one *)
Definition worker : Z := if num_pes >? 1 then 1 else 0.
Definition queued_at j (r : Z) : list ptr := default [] (inbox j !! r).

(** [ABTI_run_on_pe] up to the wait: the frame, the message, [CmiPushPE] *)
Definition run_send (f x : Z) : M (rst S) rpoint := λ j,
  let d := next_addr j in
  let m := d + 1 in
  Done (RPoll d m) (j <| next_addr := m + 1 |> <| frames ::= insert d 0 |> <| msgs ::= insert m (mk_run_msg f x d) |>
    <| inbox ::= insert worker (queued_at j worker ++ [m]) |>).
(** one look at the flag; the frame goes when the call returns *)
Definition run_poll (d m : ptr) : M (rst S) rpoint := λ j,
  match frames j !! d with
  | None => Faulted BadDeref
  | Some v => if v =? 0 then Done (RPoll d m) j else Done RIdle (j <| frames ::= delete d |> <| returned ::= cons m |>)
  end.
(** [run_handler], on the oldest message of PE [r], in its parts *)
Definition run_handler (r : Z) (h : hpoint) : M (rst S) hpoint := λ j,
  match h with
  | HIdle =>
      match queued_at j r with
      | [] => Done HIdle j
      | m :: l =>
          match msgs j !! m with
          | None => Faulted BadDeref
          | Some x => Done (HStore m) (j <| sys ::= call r (m_fn x) (m_arg x) |> <| inbox ::= insert r l |> <| ran ::= cons (m, r) |>)
          end
      end
  | HStore m =>
      match x ← msgs j !! m; v ← frames j !! m_done x; Some x with
      | None => Faulted BadDeref
      | Some x => Done (HFree m) (j <| frames ::= insert (m_done x) 1 |>)
      end
  | HFree m =>
      match msgs j !! m with
      | None => Faulted BadDeref
      | Some _ => Done HIdle (j <| msgs ::= delete m |>)
      end
  end.

Inductive rstep j : rst S → Prop :=
  | rstep_call a f x p j' : callers j !! a = Some RIdle → run_send f x j = Done p j' → rstep j (j' <| callers ::= insert a p |>)
  | rstep_poll a d m p j' : callers j !! a = Some (RPoll d m) → run_poll d m j = Done p j' → rstep j (j' <| callers ::= insert a p |>)
  | rstep_handler r h h' j' : handlers j !! r = Some h → run_handler r h j = Done h' j' → rstep j (j' <| handlers ::= insert r h' |>)
  (** whatever else happens *)
  | rstep_env s : rstep j (j <| sys := s |>).
Definition rstart (s : S) (threads pes : gset Z) : rst S :=
  mk_rst s ∅ ∅ ∅ 256 (gset_to_gmap RIdle threads) (gset_to_gmap HIdle pes) [] [].

(** the worker handling its messages *)
Inductive handles j : rst S → Prop :=
  | handles_step h h' j' : handlers j !! worker = Some h → run_handler worker h j = Done h' j' →
      handles j (j' <| handlers ::= insert worker h' |>).

(** ** Every message has its caller *)

(** [m] is the message of a call that polls a clear flag. *)
Definition awaited j (m : ptr) : Prop :=
  ∃ x a, msgs j !! m = Some x ∧ callers j !! a = Some (RPoll (m_done x) m) ∧ frames j !! m_done x = Some 0.
Record rinv j : Prop := {
  ri_queue r m : m ∈ queued_at j r → r = worker ∧ awaited j m ∧ m ∉ (ran j).*1;
  ri_store r m : handlers j !! r = Some (HStore m) → r = worker ∧ awaited j m ∧ (m, r) ∈ ran j;
  ri_free r m : handlers j !! r = Some (HFree m) → r = worker ∧ is_Some (msgs j !! m) ∧ (m, r) ∈ ran j;
  ri_call a d m : callers j !! a = Some (RPoll d m) → m = d + 1 ∧ m < next_addr j ∧
    (frames j !! d = Some 0 ∧ (m ∈ queued_at j worker ∨ handlers j !! worker = Some (HStore m)) ∨
     frames j !! d = Some 1 ∧ (m, worker) ∈ ran j);
  ri_one a b d d' m : callers j !! a = Some (RPoll d m) → callers j !! b = Some (RPoll d' m) → a = b;
  ri_ran m r : (m, r) ∈ ran j → r = worker ∧ m < next_addr j;
  ri_returned m : m ∈ returned j → (m, worker) ∈ ran j ∧ ∀ a d, callers j !! a ≠ Some (RPoll d m);
  ri_msgs m : is_Some (msgs j !! m) → m < next_addr j ∧
    (m ∈ queued_at j worker ∨ handlers j !! worker = Some (HStore m) ∨ handlers j !! worker = Some (HFree m));
  ri_frames d : is_Some (frames j !! d) → d < next_addr j;
  ri_queue_nd : NoDup (queued_at j worker);
  ri_ran_nd : NoDup (ran j).*1;
  ri_returned_nd : NoDup (returned j);
}.
Lemma in_ran j m r : (m, r) ∈ ran j → m ∈ (ran j).*1.
Proof. intros Hm. apply list_elem_of_fmap. by exists (m, r). Qed.
Lemma queued_insert j r l r' : queued_at (j <| inbox ::= insert r l |>) r' = if decide (r' = r) then l else queued_at j r'.
Proof. unfold queued_at. simpl. case_decide as Hr; [subst; by rewrite lookup_insert_eq|by rewrite lookup_insert_ne]. Qed.

Lemma pe_start_inv s threads pes : rinv (rstart s threads pes).
Proof.
  assert (∀ (D : gset Z) (A : Type) (p q : A) i, gset_to_gmap p D !! i = Some q → p = q) as Hg.
  { intros D A p q i. rewrite lookup_gset_to_gmap_Some. by intros [_ ?]. }
  split; unfold rstart, queued_at; simpl; intros; rewrite ?lookup_empty in *; try constructor;
    repeat match goal with H : gset_to_gmap _ _ !! _ = Some _ |- _ => apply Hg in H; try done end; try set_solver.
  all: try (by match goal with H : is_Some None |- _ => destruct H end).
Qed.
Lemma awaited_ext j j' m : awaited j m → msgs j' !! m = msgs j !! m → (∀ a d, callers j !! a = Some (RPoll d m) → callers j' !! a = Some (RPoll d m)) →
  (∀ d, frames j !! d = Some 0 → m = d + 1 → frames j' !! d = Some 0) → rinv j → awaited j' m.
Proof.
  intros (x & a & Hx & Ha & Hd) Hm Hc Hf HI. exists x, a. split_and!; [congruence|by apply Hc|].
  apply Hf; [done|]. by destruct (ri_call _ HI _ _ _ Ha).
Qed.
Lemma awaited_call j a d m : rinv j → callers j !! a = Some (RPoll d m) → awaited j m → frames j !! d = Some 0.
Proof.
  intros HI Ha (x & b & _ & Hb & Hx). pose proof (ri_one _ HI _ _ _ _ _ Ha Hb) as ->. rewrite Ha in Hb. by injection Hb as ->.
Qed.

Lemma pe_env_inv j s : rinv j → rinv (j <| sys := s |>).
Proof. by intros []. Qed.
Lemma pe_call_inv j a f x p j' : rinv j → callers j !! a = Some RIdle → run_send f x j = Done p j' → rinv (j' <| callers ::= insert a p |>).
Proof.
  intros HI Ha [= <- <-]. set (d := next_addr j). set (m := d + 1).
  assert (msgs j !! m = None ∧ frames j !! d = None ∧ msgs j !! d = None) as (Hm & Hd & _).
  { split_and!; apply eq_None_not_Some; intros Hs; [apply (ri_msgs _ HI) in Hs as [? _]|apply (ri_frames _ HI) in Hs|apply (ri_msgs _ HI) in Hs as [? _]]; unfold m, d in *; lia. }
  set (j' := _ <| callers ::= _ |>).
  assert (∀ b, b ≠ a → callers j' !! b = callers j !! b) as Hother by (intros; unfold j'; simpl; by rewrite lookup_insert_ne).
  assert (∀ b d' m', callers j !! b = Some (RPoll d' m') → b ≠ a ∧ m' < m ∧ d' ≠ d) as Hold.
  { intros b d' m' Hb. destruct (ri_call _ HI _ _ _ Hb) as (? & ? & _). split_and!; [congruence|unfold m, d; lia..]. }
  assert (∀ m', m' ≠ m → awaited j m' → awaited j' m') as Haw.
  { intros m' Hne Hw. apply (awaited_ext j); [done|unfold j'; simpl; by rewrite lookup_insert_ne| | |done].
    - intros b d' Hb. rewrite Hother; [done|]. by apply (Hold _ _ _ Hb).
    - intros d' Hd' ->. unfold j'. simpl. rewrite lookup_insert_ne; [done|]. congruence. }
  assert (∀ r, queued_at j' r = if decide (r = worker) then queued_at j worker ++ [m] else queued_at j r) as Hq.
  { intros r. unfold j', queued_at. simpl. case_decide as Hr; [subst; by rewrite lookup_insert_eq|by rewrite lookup_insert_ne]. }
  assert (∀ m', is_Some (msgs j !! m') → m' ≠ m) as Hne by (intros m' [? Hs] ->; congruence).
  assert (∀ m', awaited j m' → m' ≠ m) as Hnw by (intros m' (y & _ & Hy & _); apply Hne; eauto).
  assert (∀ b d' m', callers j' !! b = Some (RPoll d' m') → b = a ∧ d' = d ∧ m' = m ∨ b ≠ a ∧ callers j !! b = Some (RPoll d' m')) as Hcall.
  { intros b d' m'. destruct (decide (b = a)) as [->|Hb]; [|rewrite Hother by done; by right]. unfold j'. simpl.
    rewrite lookup_insert_eq. intros [= <- <-]. by left. }
  split.
  - intros r m'. rewrite Hq. case_decide as Hr.
    + subst r. intros [Hm'| ->%list_elem_of_singleton]%elem_of_app.
      * destruct (ri_queue _ HI _ _ Hm') as (_ & Hw & Hn). split_and!; [done|by apply Haw; [apply Hnw|]|done].
      * split_and!; [done|..].
        -- exists (mk_run_msg f x d), a. unfold j'. simpl. by rewrite !lookup_insert_eq.
        -- intros ((q & r) & Hqm & Hr)%list_elem_of_fmap. apply (ri_ran _ HI) in Hr as [_ ?]. simpl in Hqm. unfold m, d in *. lia.
    + intros Hm'. by destruct (ri_queue _ HI _ _ Hm') as (-> & _).
  - intros r m' Hh. destruct (ri_store _ HI r m' Hh) as (-> & Hw & ?). split_and!; [done|by apply Haw; [apply Hnw|]|done].
  - intros r m' Hh. destruct (ri_free _ HI r m' Hh) as (-> & Hw & ?). split_and!; [done| |done]. unfold j'. simpl.
    rewrite lookup_insert_ne; [done|]. intros ->. by apply Hne in Hw.
  - intros b d' m' [(-> & -> & ->)|[Hb Hcb]]%Hcall.
    + unfold j' at 1 2. simpl. rewrite lookup_insert_eq. split_and!; [done|lia|]. left. split; [done|]. left. rewrite Hq, decide_True by done. set_solver.
    + destruct (Hold _ _ _ Hcb) as (_ & ? & ?). destruct (ri_call _ HI _ _ _ Hcb) as (-> & ? & Hs). unfold j' at 1 2 4. simpl.
      rewrite lookup_insert_ne by congruence. split_and!; [done|lia|]. rewrite Hq, decide_True by done. set_solver.
  - intros b c d1 d2 m' [(-> & -> & ->)|[Hb Hcb]]%Hcall [(-> & -> & ?)|[Hc Hcc]]%Hcall; [done| | |by eapply (ri_one _ HI)].
    + apply Hold in Hcc. lia.
    + apply Hold in Hcb. lia.
  - intros m' r Hr. destruct (ri_ran _ HI _ _ Hr) as [-> ?]. split; [done|]. unfold j'. simpl. unfold m, d. lia.
  - intros m' Hm'. destruct (ri_returned _ HI _ Hm') as [Hr Hn]. split; [done|]. intros b d' [(_ & _ & ->)|[_ Hcb]]%Hcall; [|by eapply Hn].
    apply (ri_ran _ HI) in Hr as [_ ?]. unfold m, d in *. lia.
  - intros m'. rewrite Hq, decide_True by done. unfold j' at 1 2 3 4. simpl. destruct (decide (m' = m)) as [->|Hm'].
    + intros _. split; [lia|]. left. set_solver.
    + rewrite lookup_insert_ne by done. intros Hs%(ri_msgs _ HI). unfold m, d in *. set_solver by lia.
  - intros d'. unfold j'. simpl. destruct (decide (d' = d)) as [->|]; [unfold m; lia|]. rewrite lookup_insert_ne by done.
    intros ?%(ri_frames _ HI). unfold m, d. lia.
  - rewrite Hq, decide_True by done. apply NoDup_app. split_and!; [apply (ri_queue_nd _ HI)| |apply NoDup_singleton].
    intros m' Hm' ->%list_elem_of_singleton. destruct (ri_queue _ HI _ _ Hm') as (_ & Hw%Hnw & _). done.
  - apply (ri_ran_nd _ HI).
  - apply (ri_returned_nd _ HI).
Qed.

Lemma poll_inv j a d m p j' : rinv j → callers j !! a = Some (RPoll d m) → run_poll d m j = Done p j' → rinv (j' <| callers ::= insert a p |>).
Proof.
  intros HI Ha. unfold run_poll. destruct (ri_call _ HI _ _ _ Ha) as (Hmd & Hlt & [[Hf Hm]|[Hf Hm]]); rewrite Hf; simpl.
  { intros [= <- <-]. replace (j <| callers ::= _ |>) with j; [done|]. destruct j. unfold upd. simpl in *. by rewrite insert_id. }
  intros [= <- <-]. set (j' := _ <| callers ::= _ |>).
  assert (∀ b d' m', callers j' !! b = Some (RPoll d' m') → b ≠ a ∧ m' ≠ m ∧ callers j !! b = Some (RPoll d' m')) as Hcall.
  { intros b d' m'. unfold j'. simpl. destruct (decide (b = a)) as [->|Hb]; [by rewrite lookup_insert_eq|]. rewrite lookup_insert_ne by done.
    intros Hb'. split_and!; [done| |done]. intros ->. by apply Hb, (ri_one _ HI _ _ _ _ _ Hb' Ha). }
  assert (∀ m', awaited j m' → awaited j' m') as Haw.
  { intros m' Hw. apply (awaited_ext j); [done|done| |intros d' Hd' _|done].
    - intros b d' Hb. unfold j'. simpl. rewrite lookup_insert_ne; [done|]. intros <-. rewrite Ha in Hb. injection Hb as <- <-.
      apply (awaited_call _ a d m HI Ha) in Hw. congruence.
    - unfold j'. simpl. rewrite lookup_delete_ne; [done|]. congruence. }
  split.
  - intros r m' Hm'. destruct (ri_queue _ HI r m' Hm') as (? & ? & ?). auto.
  - intros r m' Hm'. destruct (ri_store _ HI r m' Hm') as (? & ? & ?). auto.
  - intros r m' Hm'. destruct (ri_free _ HI r m' Hm') as (? & ? & ?). auto.
  - intros b d' m' (_ & Hne & Hb)%Hcall. destruct (ri_call _ HI _ _ _ Hb) as (-> & ? & Hs). unfold j'. simpl.
    rewrite lookup_delete_ne; [done|]. intros ->. congruence.
  - intros b c d1 d2 m' (_ & _ & Hb)%Hcall (_ & _ & Hc)%Hcall. by eapply (ri_one _ HI).
  - apply (ri_ran _ HI).
  - intros m' [->|Hr]%elem_of_cons.
    + split; [done|]. by intros b d' (_ & ? & _)%Hcall.
    + destruct (ri_returned _ HI _ Hr) as [? Hn]. split; [done|]. intros b d' (_ & _ & Hb)%Hcall. by eapply Hn.
  - apply (ri_msgs _ HI).
  - intros d' [v Hv]. unfold j' in Hv. simpl in Hv. apply lookup_delete_Some in Hv as [_ Hv]. apply (ri_frames _ HI). eauto.
  - apply (ri_queue_nd _ HI).
  - apply (ri_ran_nd _ HI).
  - constructor; [|apply (ri_returned_nd _ HI)]. intros Hr. destruct (ri_returned _ HI _ Hr) as [_ Hn]. by eapply Hn.
Qed.

(** *** The handler *)

Lemma queue_msg j r m : rinv j → m ∈ queued_at j r → ∃ x, msgs j !! m = Some x.
Proof. intros HI Hm. destruct (ri_queue _ HI _ _ Hm) as (_ & (x & _ & Hx & _) & _). eauto. Qed.
Lemma handler_runs j r h : rinv j → handlers j !! r = Some h → ∃ h' j', run_handler r h j = Done h' j'.
Proof.
  intros HI Hr. destruct h as [|m|m]; simpl.
  - destruct (queued_at j r) as [|m l] eqn:Hq; [eauto|]. destruct (queue_msg j r m HI) as [x ->]; [rewrite Hq; set_solver|eauto].
  - destruct (ri_store _ HI _ _ Hr) as (_ & (x & a & Hx & _ & Hd) & _). rewrite Hx. simpl. rewrite Hd. simpl. eauto.
  - destruct (ri_free _ HI _ _ Hr) as (_ & [x ->] & _). eauto.
Qed.
Lemma pe_begin_inv j r h j' : rinv j → handlers j !! r = Some HIdle → run_handler r HIdle j = Done h j' → rinv (j' <| handlers ::= insert r h |>).
Proof.
  intros HI Hr. simpl. destruct (queued_at j r) as [|m l] eqn:Hq.
  { intros [= <- <-]. replace (j <| handlers ::= _ |>) with j; [done|]. destruct j. unfold upd. simpl in *. by rewrite insert_id. }
  destruct (msgs j !! m) as [x|] eqn:Hx; [|done]. intros [= <- <-]. set (j' := _ <| handlers ::= _ |>).
  destruct (ri_queue _ HI r m) as (-> & Hw & Hn); [rewrite Hq; set_solver|].
  assert (∀ m', awaited j m' → awaited j' m') as Haw by (intros m' Hw'; by apply (awaited_ext j)).
  assert (queued_at j' worker = l) as Hql by (unfold j', queued_at; simpl; by rewrite lookup_insert_eq).
  assert (∀ r, handlers j' !! r = if decide (r = worker) then Some (HStore m) else handlers j !! r) as Hh.
  { intros r. unfold j'. simpl. case_decide as Hd; [by rewrite Hd, lookup_insert_eq|by rewrite lookup_insert_ne]. }
  pose proof (ri_queue_nd _ HI) as Hnd. rewrite Hq in Hnd. apply NoDup_cons in Hnd as [Hml Hnd].
  split.
  - intros r m' Hm'. destruct (decide (r = worker)) as [->|Hr'].
    + rewrite Hql in Hm'. destruct (ri_queue _ HI worker m') as (_ & Hw' & Hn'); [rewrite Hq; set_solver|].
      split_and!; [done|by apply Haw|]. unfold j'. simpl. intros [->|?]%elem_of_cons; done.
    + unfold j', queued_at in Hm'. simpl in Hm'. rewrite lookup_insert_ne in Hm' by done. by destruct (ri_queue _ HI r m' Hm') as [? _].
  - intros r m'. rewrite Hh. case_decide as Hd.
    + intros [= ->]. subst r. split_and!; [done|by apply Haw|]. unfold j'. simpl. set_solver.
    + intros Hm'. by destruct (ri_store _ HI r m' Hm') as [? _].
  - intros r m'. rewrite Hh. case_decide as Hd; [done|]. intros Hm'. by destruct (ri_free _ HI r m' Hm') as [? _].
  - intros a d m' Ha. destruct (ri_call _ HI _ _ _ Ha) as (? & ? & Hs). split_and!; [done..|]. rewrite Hql, Hh, decide_True by done.
    destruct Hs as [[Hf [Hm'|Hm']]|[Hf Hm']].
    + left. split; [done|]. rewrite Hq in Hm'. apply elem_of_cons in Hm' as [->|?]; [by right|by left].
    + congruence.
    + right. split; [done|]. unfold j'. simpl. set_solver.
  - apply (ri_one _ HI).
  - intros m' r [[= -> ->]|Hr']%elem_of_cons; [|by apply (ri_ran _ HI)]. split; [done|]. apply (ri_msgs _ HI). eauto.
  - intros m' Hm'. destruct (ri_returned _ HI _ Hm') as [? Hn']. split; [|done]. unfold j'. simpl. set_solver.
  - intros m' Hm'. destruct (ri_msgs _ HI m' Hm') as [? Hs]. split; [done|]. rewrite Hql, Hh, decide_True by done.
    destruct Hs as [Hs|[?|?]]; [|congruence..]. rewrite Hq in Hs. apply elem_of_cons in Hs as [->|?]; auto.
  - apply (ri_frames _ HI).
  - by rewrite Hql.
  - unfold j'. simpl. constructor; [done|apply (ri_ran_nd _ HI)].
  - apply (ri_returned_nd _ HI).
Qed.

Lemma store_inv j r m h j' : rinv j → handlers j !! r = Some (HStore m) → run_handler r (HStore m) j = Done h j' →
  rinv (j' <| handlers ::= insert r h |>).
Proof.
  intros HI Hr. destruct (ri_store _ HI _ _ Hr) as (-> & (x & a & Hx & Ha & Hd) & Hm). simpl. rewrite Hx. simpl. rewrite Hd. simpl.
  intros [= <- <-]. set (j' := _ <| handlers ::= _ |>).
  assert (∀ r, handlers j' !! r = if decide (r = worker) then Some (HFree m) else handlers j !! r) as Hh.
  { intros r. unfold j'. simpl. case_decide as He; [by rewrite He, lookup_insert_eq|by rewrite lookup_insert_ne]. }
  assert (∀ m', m' ≠ m → awaited j m' → awaited j' m') as Haw.
  { intros m' Hne Hw. apply (awaited_ext j); [done|done|done| |done]. intros d' Hd' ->. unfold j'. simpl. rewrite lookup_insert_ne; [done|].
    destruct (ri_call _ HI _ _ _ Ha) as [Hmd _]. intros <-. by apply Hne. }
  pose proof (in_ran _ _ _ Hm) as Hmr.
  split.
  - intros r m' Hm'. destruct (ri_queue _ HI r m' Hm') as (? & ? & Hn). split_and!; [done| |done]. apply Haw; [|done]. by intros ->.
  - intros r m'. rewrite Hh. case_decide as He; [done|]. intros Hm'. by destruct (ri_store _ HI r m' Hm') as [? _].
  - intros r m'. rewrite Hh. case_decide as He; [|intros Hm'; by destruct (ri_free _ HI r m' Hm') as [? _]].
    intros [= <-]. rewrite He. unfold j'. simpl. eauto.
  - intros b d m' Hb. destruct (ri_call _ HI _ _ _ Hb) as (Hmd & ? & Hs). split_and!; [done..|]. unfold j'. simpl.
    destruct (decide (d = m_done x)) as [->|Hne].
    + rewrite lookup_insert_eq. right. split; [done|]. destruct (ri_call _ HI _ _ _ Ha) as (Hmd' & _). congruence.
    + rewrite lookup_insert_ne by done. rewrite lookup_insert_eq. destruct Hs as [[? [?|Hs]]|?]; [by left; auto| |by right].
      rewrite Hr in Hs. injection Hs as ->. destruct (ri_call _ HI _ _ _ Ha) as (Hmd' & _). exfalso. apply Hne. lia.
  - apply (ri_one _ HI).
  - apply (ri_ran _ HI).
  - apply (ri_returned _ HI).
  - intros m' Hm'. destruct (ri_msgs _ HI m' Hm') as [? Hs]. split; [done|]. rewrite Hh, decide_True by done.
    destruct Hs as [?|[Hs|Hs]]; [by left| |congruence]. right. right. congruence.
  - intros d. unfold j'. simpl. destruct (decide (d = m_done x)) as [->|]; [intros _; apply (ri_frames _ HI); eauto|].
    rewrite lookup_insert_ne by done. apply (ri_frames _ HI).
  - apply (ri_queue_nd _ HI).
  - apply (ri_ran_nd _ HI).
  - apply (ri_returned_nd _ HI).
Qed.
Lemma free_inv j r m h j' : rinv j → handlers j !! r = Some (HFree m) → run_handler r (HFree m) j = Done h j' →
  rinv (j' <| handlers ::= insert r h |>).
Proof.
  intros HI Hr. destruct (ri_free _ HI _ _ Hr) as (-> & [x Hx] & Hm). simpl. rewrite Hx. intros [= <- <-]. set (j' := _ <| handlers ::= _ |>).
  assert (∀ r, handlers j' !! r = if decide (r = worker) then Some HIdle else handlers j !! r) as Hh.
  { intros r. unfold j'. simpl. case_decide as He; [by rewrite He, lookup_insert_eq|by rewrite lookup_insert_ne]. }
  assert (∀ m', m' ≠ m → awaited j m' → awaited j' m') as Haw.
  { intros m' Hne Hw. apply (awaited_ext j); [done| |done|done|done]. unfold j'. simpl. by rewrite lookup_delete_ne. }
  pose proof (in_ran _ _ _ Hm) as Hmr.
  split.
  - intros r m' Hm'. destruct (ri_queue _ HI r m' Hm') as (? & ? & Hn). split_and!; [done| |done]. apply Haw; [|done]. by intros ->.
  - intros r m'. rewrite Hh. case_decide as He; [done|]. intros Hm'. by destruct (ri_store _ HI r m' Hm') as [? _].
  - intros r m'. rewrite Hh. case_decide as He; [done|]. intros Hm'. by destruct (ri_free _ HI r m' Hm') as [? _].
  - intros b d m' Hb. destruct (ri_call _ HI _ _ _ Hb) as (Hmd & ? & Hs). split_and!; [done..|]. rewrite Hh, decide_True by done.
    destruct Hs as [[? [?|Hs]]|?]; [by left; auto|congruence|by right].
  - apply (ri_one _ HI).
  - apply (ri_ran _ HI).
  - apply (ri_returned _ HI).
  - intros m' Hm'. unfold j' in Hm'. simpl in Hm'. destruct (decide (m' = m)) as [->|Hne]; [rewrite lookup_delete_eq in Hm'; by destruct Hm'|].
    rewrite lookup_delete_ne in Hm' by done. destruct (ri_msgs _ HI m' Hm') as [? Hs]. split; [done|].
    destruct Hs as [?|[Hs|Hs]]; [by left|congruence|]. rewrite Hr in Hs. by injection Hs as [= ->].
  - apply (ri_frames _ HI).
  - apply (ri_queue_nd _ HI).
  - apply (ri_ran_nd _ HI).
  - apply (ri_returned_nd _ HI).
Qed.
Lemma pe_handler_inv j r h h' j' : rinv j → handlers j !! r = Some h → run_handler r h j = Done h' j' → rinv (j' <| handlers ::= insert r h' |>).
Proof. destruct h; [apply pe_begin_inv|apply store_inv|apply free_inv]. Qed.
Lemma rstep_inv j j' : rinv j → rstep j j' → rinv j'.
Proof.
  intros HI [a f x p j1 Ha Hs|a d m p j1 Ha Hs|r h h' j1 Hr Hs|s].
  - by eapply pe_call_inv.
  - by eapply poll_inv.
  - by eapply pe_handler_inv.
  - by apply pe_env_inv.
Qed.
Lemma reach_inv s threads pes j : rtc rstep (rstart s threads pes) j → rinv j.
Proof. apply (rtc_ind_r rinv); [apply pe_start_inv|]. intros j1 j2 _ Hs HI. by eapply rstep_inv. Qed.

(** The worker gets through its messages. *)
Lemma handles_rstep j j' : handles j j' → rstep j j'.
Proof. intros [h h' j1 Hh Hs]. by eapply rstep_handler. Qed.
Lemma handles_one j h : rinv j → handlers j !! worker = Some h → ∃ j', handles j j' ∧ rinv j' ∧ callers j' = callers j ∧
  match h with
  | HIdle => ∀ m l, queued_at j worker = m :: l → queued_at j' worker = l ∧ handlers j' !! worker = Some (HStore m)
  | HStore m => queued_at j' worker = queued_at j worker ∧ handlers j' !! worker = Some (HFree m)
  | HFree _ => queued_at j' worker = queued_at j worker ∧ handlers j' !! worker = Some HIdle
  end.
Proof.
  intros HI Hh. destruct (handler_runs j worker h HI Hh) as (h' & j1 & Hs). exists (j1 <| handlers ::= insert worker h' |>).
  split; [by econstructor|]. split; [by eapply pe_handler_inv|]. simpl. rewrite lookup_insert_eq.
  destruct h as [|m|m]; simpl in Hs.
  - destruct (queued_at j worker) as [|m l] eqn:Hq; [by injection Hs as <- <-|]. destruct (msgs j !! m) as [x|]; [|done]. injection Hs as <- <-.
    split; [done|]. intros ? ? [= <- <-]. split; [|done]. unfold queued_at. simpl. by rewrite lookup_insert_eq.
  - destruct (msgs j !! m) as [x|]; [|done]. simpl in Hs. destruct (frames j !! m_done x); [|done]. by injection Hs as <- <-.
  - destruct (msgs j !! m); [|done]. by injection Hs as <- <-.
Qed.

Lemma handles_idle j h : rinv j → handlers j !! worker = Some h →
  ∃ j', rtc handles j j' ∧ rinv j' ∧ callers j' = callers j ∧ queued_at j' worker = queued_at j worker ∧ handlers j' !! worker = Some HIdle.
Proof.
  assert (∀ j m, rinv j → handlers j !! worker = Some (HFree m) →
    ∃ j', rtc handles j j' ∧ rinv j' ∧ callers j' = callers j ∧ queued_at j' worker = queued_at j worker ∧ handlers j' !! worker = Some HIdle) as Hf.
  { intros j1 m HI Hh. destruct (handles_one j1 _ HI Hh) as (j2 & H2 & ? & ? & ? & ?). exists j2. split_and!; [by apply rtc_once|done..]. }
  intros HI Hh. destruct h as [|m|m]; [by exists j; split_and!| |by eapply Hf].
  destruct (handles_one j _ HI Hh) as (j2 & H2 & HI2 & Hc & Hq & Hh2). destruct (Hf j2 m HI2 Hh2) as (j3 & ? & ? & ? & ? & ?).
  exists j3. split_and!; [by eapply rtc_l|done|congruence|congruence|done].
Qed.
Lemma handles_all j h : rinv j → handlers j !! worker = Some h →
  ∃ j', rtc handles j j' ∧ rinv j' ∧ callers j' = callers j ∧ queued_at j' worker = [] ∧ handlers j' !! worker = Some HIdle.
Proof.
  remember (queued_at j worker) as l eqn:Hl. revert j h Hl. induction l as [|m l IH]; intros j h Hl HI Hh;
    destruct (handles_idle j h HI Hh) as (j1 & H1 & HI1 & Hc1 & Hq1 & Hh1); rewrite <-Hl in Hq1; [by exists j1|].
  destruct (handles_one j1 _ HI1 Hh1) as (j2 & H2 & HI2 & Hc2 & Hn). destruct (Hn m l Hq1) as [Hq2 Hh2].
  destruct (IH j2 _ (eq_sym Hq2) HI2 Hh2) as (j3 & H3 & ? & Hc3 & ? & ?). exists j3.
  split_and!; [|done|congruence|done|done]. etrans; [exact H1|]. by eapply rtc_l.
Qed.
Lemma worker_stays s threads pes j : worker ∈ pes → rtc rstep (rstart s threads pes) j → is_Some (handlers j !! worker).
Proof.
  intros Hp. apply (rtc_ind_r (λ j, is_Some (handlers j !! worker))).
  - exists HIdle. unfold rstart. simpl. by apply lookup_gset_to_gmap_Some.
  - intros j1 j2 _ Hst Hs. destruct Hst as [a f x p j' _ Hst|a d m p j' _ Hst|r h h' j' _ Hst|s']; simpl; [..|done].
    + by injection Hst as _ <-.
    + unfold run_poll in Hst. destruct (frames j1 !! d) as [v|]; [|done]. destruct (v =? 0); by injection Hst as _ <-.
    + destruct (decide (r = worker)) as [->|]; [rewrite lookup_insert_eq; eauto|]. rewrite lookup_insert_ne by done.
      destruct h as [|m|m]; simpl in Hst; repeat case_match; simplify_eq; done.
Qed.

(** C21: a function handed to [ABTI_run_on_pe] runs exactly once, on the worker PE,
    before the call returns, however calls, handlers and polls interleave; the
    handler never touches a message that was freed or the flag of a call that has
    returned; and whenever the worker gets through the messages it has, each call
    that waits then returns at its next look at its flag. *)
Theorem run_on_pe_served s threads pes j : worker ∈ pes → rtc rstep (rstart s threads pes) j →
  (∀ r h, handlers j !! r = Some h → ∃ h' j', run_handler r h j = Done h' j') ∧
  (∀ m, m ∈ returned j → (m, worker) ∈ ran j) ∧ NoDup (ran j).*1 ∧ NoDup (returned j) ∧
  (∀ a d m, callers j !! a = Some (RPoll d m) →
     (∃ p j', run_poll d m j = Done p j' ∧ (p = RIdle → (m, worker) ∈ ran j)) ∧
     ∃ j', rtc handles j j' ∧ ∃ j'', run_poll d m j' = Done RIdle j'').
Proof.
  intros Hp Hr. pose proof (reach_inv _ _ _ _ Hr) as HI. destruct (worker_stays _ _ _ _ Hp Hr) as [h Hh]. split_and!.
  - intros r h'. by apply handler_runs.
  - intros m Hm. by apply (ri_returned _ HI).
  - apply (ri_ran_nd _ HI).
  - apply (ri_returned_nd _ HI).
  - intros a d m Ha. split.
    + unfold run_poll. destruct (ri_call _ HI _ _ _ Ha) as (_ & _ & [[-> _]|[-> ?]]); simpl; [|by eauto]. by exists (RPoll d m), j.
    + destruct (handles_all j h HI Hh) as (j' & Hh' & HI' & Hc & Hq & Hw). exists j'. split; [done|]. rewrite <-Hc in Ha.
      unfold run_poll. destruct (ri_call _ HI' _ _ _ Ha) as (_ & _ & [[_ [Hm|Hm]]|[-> _]]); [|congruence|simpl; eauto].
      rewrite Hq in Hm. by apply elem_of_nil in Hm.
Qed.
End machine.

(** ** Runs

    Two threads call while a third PE is idle; the worker is at the first
    message. *)

Inductive rlabel : Type :=
  | RCall (a f x : Z)
  | RLook (a : Z)
  | RHandle (r : Z).
Section runs.
Context {S : Type} (num_pes : Z) (call : Z → Z → Z → S → S).
Definition rdo (l : rlabel) (j : rst S) : option (rst S) :=
  match l with
  | RCall a f x =>
      match callers j !! a, run_send num_pes f x j with
      | Some RIdle, Done p j' => Some (j' <| callers ::= insert a p |>)
      | _, _ => None
      end
  | RLook a =>
      match callers j !! a with
      | Some (RPoll d m) => match run_poll d m j with Done p j' => Some (j' <| callers ::= insert a p |>) | _ => None end
      | _ => None
      end
  | RHandle r =>
      match handlers j !! r with
      | Some h => match run_handler call r h j with Done h' j' => Some (j' <| handlers ::= insert r h' |>) | _ => None end
      | _ => None
      end
  end.
Lemma rdo_sound l j j' : rdo l j = Some j' → rstep num_pes call j j'.
Proof.
  destruct l as [a f x|a|r]; cbn [rdo]; intros Hd.
  - destruct (callers j !! a) as [[]|] eqn:Ha; try done. destruct (run_send num_pes f x j) as [p j1|] eqn:Hs; [|done]. injection Hd as <-. by eapply rstep_call.
  - destruct (callers j !! a) as [[|d m]|] eqn:Ha; try done. destruct (run_poll d m j) as [p j1|] eqn:Hs; [|done]. injection Hd as <-. by eapply rstep_poll.
  - destruct (handlers j !! r) as [h|] eqn:Hr; [|done]. destruct (run_handler call r h j) as [h' j1|] eqn:Hs; [|done]. injection Hd as <-. by eapply rstep_handler.
Qed.
Fixpoint rrun (ls : list rlabel) (j : rst S) : option (rst S) :=
  match ls with [] => Some j | l :: ls => j' ← rdo l j; rrun ls j' end.
Lemma rrun_reach ls j j' : rrun ls j = Some j' → rtc (rstep num_pes call) j j'.
Proof.
  revert j. induction ls as [|l ls IH]; intros j; simpl; [by intros [= ->]|]. destruct (rdo l j) as [j1|] eqn:Hl; [|done]. simpl.
  intros Hr. eapply rtc_l; [by eapply rdo_sound|by apply IH].
Qed.
End runs.

(** the functions add their argument to a number *)
Definition add_call (r f x s : Z) : Z := s + x.
Definition two_calls : rst Z :=
  default (rstart 0 ∅ ∅) (rrun 3 add_call [RCall 10 0 5; RCall 11 0 7; RHandle 1; RLook 10] (rstart 0 {[ 10; 11 ]} {[ 0; 1; 2 ]})).
Lemma run_on_pe_served_witness :
  callers two_calls !! 10 = Some (RPoll 256 257) ∧ handlers two_calls !! 1 = Some (HStore 257) ∧ queued_at two_calls 1 = [259] ∧ sys two_calls = 5 ∧
  (∃ p j', run_poll 256 257 two_calls = Done p j' ∧ (p = RIdle → (257, 1) ∈ ran two_calls)) ∧
  ∃ j', rtc (handles 3 add_call) two_calls j' ∧ ∃ j'', run_poll 256 257 j' = Done RIdle j''.
Proof.
  assert (rtc (rstep 3 add_call) (rstart 0 {[ 10; 11 ]} {[ 0; 1; 2 ]}) two_calls) as Hr.
  { apply (rrun_reach 3 add_call [RCall 10 0 5; RCall 11 0 7; RHandle 1; RLook 10]). vm_compute. reflexivity. }
  do 4 (split; [vm_compute; reflexivity|]).
  assert (worker 3 ∈ ({[ 0; 1; 2 ]} : gset Z)) as Hw by (change (worker 3) with 1; set_solver).
  apply (proj2 (proj2 (proj2 (proj2 (run_on_pe_served 3 add_call 0 {[ 10; 11 ]} {[ 0; 1; 2 ]} two_calls Hw Hr)))) 10 256 257).
  vm_compute. reflexivity.
Defined.
