(* ===== verification/Run.v ===== *)
(** * Running units

    What a PE does with a unit it has popped (src/pool.cpp), how threads start,
    end, yield and suspend (src/thread.cpp), and schedulers that run as units of
    a pool (src/sched.cpp).  The program's own functions and the switch to
    another stack are arguments: [call f a c] is the function [f] run on [a] by
    the caller [c], [resume k] is what happens from the switch to the Converse
    thread [k] until it comes back. *)

From S2P Require Import Prelude AbtTypes Config Objects Storage PoolList Sleepers PoolMpsc Pool.
From S2P Require Import Sched Sync Thread ThreadJoin Xstream.

Section run.
Context `{E : Ext, R : Csd, C : Cth}.

(** ** A popped unit *)

(** The awaken function that [CthSetAwakenFn] has given the Converse thread of
    thread [t]: that of the runner of a user scheduler queues its token for its
    PE.  [me]: the rank of the caller. *)
Definition runner_awaken_fn (me k : Z) (t : ptr) : M xst unit :=
  lift (uncount_blocked t) ;;
  x ← lift (thread t);
  r ← (match last_xstream x with Some xs => o ← xstream xs; mret (x_rank o) | None => mret me end);
  lift (emit (CthTokenPushed r k)).
Definition awaken_fn (me k : Z) (t : ptr) : M xst unit :=
  x ← lift (thread t);
  if decide (t_type x = ABTI_THREAD_SCHED) then runner_awaken_fn me k t else lift (ABTI_thread_awaken_fn t).
(** The thread that Converse thread [k] runs, if it is one of the library's. *)
Definition thread_on (k : Z) (w : world) : option ptr :=
  fst <$> head (filter (λ tc, tc.2 = Some k) (map_to_list (cth <$> w_threads w))).
(** [CthAwakenIfBlocked], with the awaken function it calls; whether [k] was
    blocked. *)
Definition awaken_if_blocked (me k : Z) : M xst bool :=
  g ← get;
  if negb (is_blocked k (xcth g)) then mret false else
  awaken k ;;
  (match thread_on k (xw g) with Some t => awaken_fn me k t | None => mret tt end) ;;
  mret true.

Fixpoint awaken_all (me : Z) (l : list Z) : M xst unit :=
  match l with [] => mret tt | j :: l => awaken_if_blocked me j ;; awaken_all me l end.
(** without anybody in between; the interleaving is in [ThreadJoin] *)
Definition ABTI_thread_terminated (me : Z) (t : ptr) : M xst unit :=
  lift (term_mark t) ;; l ← lift (term_take t); awaken_all me l ;; lift (term_retire t).

(** the ULT a unit that [c] resumes comes back to *)
Definition parent_of (c : caller) : M xst (option Z) :=
  match my_self c with
  | None => mret None
  | Some s => x ← lift (thread s); mret (if is_task x then None else cth x)
  end.
Section program.
Context (call : Z → Z → caller → M xst unit) (resume : Z → M xst unit).

Definition ABTI_pool_run_thread (c : caller) (t : ptr) : M xst unit :=
  g ← get;
  lift (set_thread t (λ x, x <| last_xstream := my_xstream c g |>)) ;;
  p ← parent_of c;
  lift (set_thread t (λ x, x <| t_parent := p |>)) ;;
  x ← lift (thread t);
  match cth x with
  | None =>
      (** a tasklet runs on this stack *)
      lift (set_thread t (λ x, x <| tstate := CTH_STATE_RUNNING |>)) ;;
      f ← deref (fn x);
      call f (arg x) (mk_caller (my_pe c) (Some t)) ;;
      lift (set_thread t (λ x, x <| tstate := CTH_STATE_TERMINATED |>)) ;;
      ABTI_thread_terminated (default 0 (my_pe c)) t
  | Some k => resume k
  end.
(** [thread_main]: [ABT_thread_exit] leaves [call] early and goes on behind it *)
Definition thread_main (c : caller) (t : ptr) : M xst unit :=
  x ← lift (thread t);
  f ← deref (fn x);
  call f (arg x) c ;;
  lift (run_key_destructors t).

Definition ABTI_poll_pool (c : caller) (r : Z) (p : ptr) : M xst Z :=
  t ← lift (pop r p);
  match t with
  | None => mret 0
  | Some t => lift (emit (CsdReleaseIdle r)) ;; ABTI_pool_run_thread c t ;; mret 1
  end.
Fixpoint all_empty_pools (ps : list ptr) : M world bool :=
  match ps with
  | [] => mret true
  | p :: ps => n ← size p; if n =? 0 then all_empty_pools ps else mret false
  end.
(** a pool of scheduler [s] yields nothing while an earlier one holds work *)
Definition ABTI_poll_pool_prio (c : caller) (r : Z) (s : ptr) (idx : nat) : M xst Z :=
  d ← lift (sched s);
  b ← lift (all_empty_pools (take idx (pools d)));
  if negb b then mret 0 else p ← deref (pools d !! idx); ABTI_poll_pool c r p.

Definition ABT_xstream_run_unit (c : caller) (u : Z) : M xst (Z * option unit) :=
  r ← lift (ABT_unit_get_thread u);
  match r.2 with
  | None => err r.1
  | Some h =>
      match ABTI_thread_get h with
      | None => err ABT_ERR_INV_UNIT
      | Some t => ABTI_pool_run_thread c t ;; done_
      end
  end.
Definition ABT_self_schedule (c : caller) (h hp : Z) : M xst (Z * option unit) :=
  match ABTI_thread_get h with
  | None => err ABT_ERR_INV_THREAD
  | Some t =>
      ult ← (match my_self c with Some s => x ← lift (thread s); mret (non_null (cth x)) | None => mret false end);
      if negb (non_null (my_pe c) && ult) then err ABT_ERR_INV_THREAD else
      if decide (my_self c = Some t) then err ABT_ERR_INV_THREAD else
      (match ABTI_pool_get hp with Some p => lift (ABTI_pool_associate t p) | None => mret tt end) ;;
      ABTI_pool_run_thread c t ;; done_
  end.
End program.

(** ** Yielding and suspending *)

(** [yield]: the other threads run, and the caller goes on where it returns. *)
Definition ABT_thread_yield (c : caller) (yield : M xst caller) : M xst (Z * option unit) :=
  xcheck_init (
    b ← (match my_self c with Some t => x ← lift (thread t); mret (negb (is_task x)) | None => mret false end);
    if negb b then done_ else
    r ← deref (my_pe c);
    set_pe r (λ p, p <| yielding := true |>) ;;
    c' ← yield;
    r' ← deref (my_pe c');
    set_pe r' (λ p, p <| yielding := false |>) ;; done_).
(** the hint who should run next is not used *)
Definition ABT_thread_yield_to (c : caller) (h : Z) := ABT_thread_yield c.
Definition ABT_self_yield (c : caller) := ABT_thread_yield c.
Definition ABT_self_yield_to (c : caller) (h : Z) := ABT_thread_yield c.
Definition no_self (c : caller) : Z := if non_null (my_pe c) then ABT_ERR_INV_THREAD else ABT_ERR_INV_XSTREAM.
(** up to the switch; the thread's key is its Converse thread *)
Definition ABT_self_suspend (c : caller) : M xst (Z * option unit) :=
  xcheck_init (
    match my_self c with
    | None => err (no_self c)
    | Some t =>
        x ← lift (thread t);
        if negb (can_block (Some x)) then err ABT_ERR_INV_THREAD else
        lift (ABTI_thread_block t) ;;
        k ← deref (cth x);
        modify (λ g, g <| xcth ::= CthSuspendBlocked k |>) ;; done_
    end).
(** [me]: the rank of the caller *)
Definition ABT_thread_resume (me h : Z) : M xst (Z * option unit) :=
  match ABTI_thread_get h with
  | None => err ABT_ERR_INV_THREAD
  | Some t =>
      x ← lift (thread t);
      k ← deref (cth x);
      b ← awaken_if_blocked me k;
      if (b : bool) then done_ else err ABT_ERR_THREAD
  end.
Definition ABT_thread_create_to (c : caller) (h f a at_ : Z) (newthread : bool) (yield : M xst caller) : M xst (Z * option Z) :=
  r ← lift (thread_create_impl h f a at_ newthread false);
  if negb (r.1 =? ABT_SUCCESS) then mret r else
  b ← lift (self_can_block (my_self c));
  if (b : bool) then y ← ABT_thread_yield c yield; mret (y.1, r.2) else mret r.

(** [None]: the call does not return, [thread_main] goes on behind the function.
    Only [thread_main] has set the jump's target: a tasklet and the runner of a
    user scheduler have none. *)
Definition ABT_thread_exit (c : caller) : M xst (option Z) :=
  g ← get;
  if negb (g_initialized (xw g)) then mret (Some ABT_ERR_UNINITIALIZED) else
  match my_self c with
  | None => mret (Some (no_self c))
  | Some t =>
      x ← lift (thread t);
      if decide (t_type x = ABTI_THREAD_PRIMARY) then mret (Some ABT_ERR_INV_THREAD) else
      if non_null (cth x) && negb (bool_decide (t_type x = ABTI_THREAD_SCHED)) then mret None else fail BadDeref
  end.
Definition ABT_self_exit (c : caller) := ABT_thread_exit c.

(** ** The loop of a user scheduler *)

(** its descriptor, while the loop runs *)
Definition ABTI_thread_wrap_runner (c : caller) (k : Z) (p : option ptr) : M xst ptr :=
  g ← get;
  lift (id ← fetch_id;
        put_thread (blank_thread <| cth := Some k |> <| t_type := ABTI_THREAD_SCHED |>
          <| t_attr := mk_attr 0 None ABT_FALSE |> <| t_id := id |> <| t_pool := p |>
          <| last_xstream := my_xstream c g |>)).

(** [k]: the runner's Converse thread; [loop]: the user's [def.run].  The
    descriptor is deleted once the loop has returned. *)
Definition sched_runner (loop : Z → caller → M xst unit) (r k : Z) (s : ptr) : M xst unit :=
  d ← lift (sched s);
  me ← ABTI_thread_wrap_runner (mk_caller (Some r) None) k (head (pools d));
  loop (ABTI_sched_handle (Some s)) (mk_caller (Some r) (Some me)) ;;
  lift (ABTI_thread_release me) ;;
  runner_end r s.
(** A call off the PEs is made on one, while the caller waits: [RunOnPe] has the
    messages. *)
Definition ABTI_run_on_pe {A} (f : Z → M xst A) : M xst A := g ← get; f (if num_pes g >? 1 then 1 else 0).

(** [tls_runner], [self]: the runner of a user scheduler on this PE, if there is
    one, and the Converse thread that calls; [poll r] is [CsdSchedulePoll] on PE
    [r], a sweep of the runtime's own queues. *)
Definition ABT_xstream_check_events (poll : Z → M xst unit) (c : caller) (tls_runner : option Z) (self sched : Z) : M xst (Z * option unit) :=
  match my_pe c with Some r => when (bool_decide (tls_runner = Some self)) (poll r) | None => mret tt end ;; done_.
(** What [ABTI_run_on_pe] carries to create a thread: a request in the frame of
    the caller, with the result of [thread_create_impl] once it has run.  The
    functions that [RunOnPe] calls work on the world and on these requests. *)
Record create_req2 : Type := mk_create_req2 {
  r_pool : Z; r_fn : Z; r_arg : Z; r_attr : Z; r_out : bool; r_is_task : bool; r_ret : option (Z * option Z) }.
#[global] Instance eta_req2 : Eta create_req2 := λ q,
  mk_create_req2 (r_pool q) (r_fn q) (r_arg q) (r_attr q) (r_out q) (r_is_task q) (r_ret q).
Definition create_on_pe2 (a : ptr) : M (world * gmap Z create_req2) unit := λ s,
  match s.2 !! a with
  | None => Faulted BadDeref
  | Some q =>
      match thread_create_impl (r_pool q) (r_fn q) (r_arg q) (r_attr q) (r_out q) (r_is_task q) s.1 with
      | Done c w => Done tt (w, <[a := q <| r_ret := Some c |>]> s.2)
      | Faulted f => Faulted f
      end
  end.

(** ** Stacked schedulers *)

Section stacked.
(** [run] runs a unit, [wait] is what the others do while the PE waits, [loop]
    the loop of a user scheduler *)
Context (run : ptr → M world unit) (wait : M world unit) (loop : ptr → M world unit).

Fixpoint each (f : ptr → M world unit) (ps : list ptr) : M world unit :=
  match ps with [] => mret tt | p :: ps => f p ;; each f ps end.
(** only blocked ULTs are left: hold the PE until one of them is pushed back *)
Definition hold_pe (r : Z) (ps : list ptr) : M world unit :=
  each (λ p, on_pool p (add_sleeper r)) ps ;;
  b ← all_empty_pools ps;
  when b wait ;;
  each (λ p, on_pool p (remove_sleeper r)) ps.
(** at most [fuel] units and waits *)
Fixpoint stacked_loop (fuel : nat) (r : Z) (s : ptr) : M world unit :=
  d ← sched s;
  if truthy (Z.land (request d) ABTI_SCHED_REQ_EXIT) then mret tt else
  t ← ABTI_sched_pop_by_policy r s;
  match t with
  | Some t => match fuel with O => fail OutOfFuel | S fuel => run t ;; stacked_loop fuel r s end
  | None =>
      b ← sched_has_unit s;
      if negb b then mret tt else
      match fuel with O => fail OutOfFuel | S fuel => hold_pe r (pools d) ;; stacked_loop fuel r s end
  end.
Definition stacked_sched_main (fuel : nat) (r : Z) (s : ptr) : M world unit :=
  d ← sched s;
  (if user_def d then loop s else stacked_loop fuel r s) ;;
  set_sched s (λ d, d <| s_in_pool := false |>).
End stacked.

(** [main]: the address of [stacked_sched_main] *)
Definition ABTI_sched_add_to_pool (main : Z) (s parent : ptr) : M world Z :=
  d ← sched s;
  if s_in_pool d || non_null (used_by d) then mret ABT_ERR_INV_SCHED else
  set_sched s (λ d, d <| s_in_pool := true |>) ;;
  r ← ABTI_thread_create_internal (ABTI_pool_handle (Some parent)) main s (1024 * 1024);
  when (negb (r =? ABT_SUCCESS)) (set_sched s (λ d, d <| s_in_pool := false |>)) ;;
  mret r.
Definition ABT_pool_add_sched (main : Z) (hp hs : Z) : M world Z :=
  match ABTI_pool_get hp, ABTI_sched_get hs with
  | None, _ => mret ABT_ERR_INV_POOL
  | _, None => mret ABT_ERR_INV_SCHED
  | Some p, Some s => ABTI_sched_add_to_pool main s p
  end.
End run.
