(* ===== verification/Ready.v ===== *)
(** * Making joiners ready

    [CthAwakenIfBlocked] of src/thread.cpp on the joiners of a unit that has
    ended: each joiner that sleeps is counted as blocked no longer, moved to the
    pool it was asked to migrate to, and pushed; and what the end of the unit
    then does to its descriptor. *)

From S2P Require Import Prelude AbtTypes Config Objects Storage PoolList Sleepers PoolMpsc Pool PoolWorld.
From S2P Require Import Sched Sync Thread ThreadSpec ThreadJoin Xstream XstreamJoin XstreamSafe XstreamPe Run.

Section ready.
Context `{E : Ext, R : Csd, C : Cth} {HC : CthLaws}.
Implicit Types (w : world) (g : xst) (V : gmap Z (list ptr)) (l : list ptr) (p t j : ptr) (x y : ABTI_thread) (k : Z).

(** ** Descriptors that are queued nowhere *)

Lemma delete_thread_holds w V t : pools_hold w V → idle_in (w_threads w) t →
  pools_hold (w <| w_threads ::= delete t |>) V.
Proof.
  intros (Q & Hok & ->) Hid. pose proof Hok as [WP WA WM WD WS WI WB WL].
  assert (∀ p c, Q !! p = Some c → t ∉ c) as Hnot by (intros p c Hc; by eapply idle_not_linked).
  assert (∀ p c u, Q !! p = Some c → u ∈ c → delete t (w_threads w) !! u = w_threads w !! u) as Hsame.
  { intros p c u Hc Hu. apply lookup_delete_ne. intros <-. by eapply Hnot. }
  assert (∀ p c, Q !! p = Some c → units (delete t (w_threads w)) c = units (w_threads w) c) as Hun.
  { intros p c Hc. apply units_ext. intros u Hu. unfold is_removed. by erewrite Hsame. }
  exists Q. split; [split; simpl; try done|].
  - intros p c Hc. destruct (WP p c Hc) as (o & Ho & Hus & Hr & Hn). exists o.
    erewrite Hun by done. split_and!; [done..| |done]. eapply rep_of_stable; [exact Hr|done|].
    intros u Hu. simpl. by erewrite Hsame.
  - intros p c u y Hc Hu Hy. erewrite Hsame in Hy by done. by eapply WS.
  - intros u y Hy. apply lookup_delete_Some in Hy as [_ Hy]. by apply WI.
  - apply map_fmap_ext. intros p c Hc. symmetry. by eapply Hun.
Qed.

(** ** Which thread sleeps *)

Lemma thread_on_thread k w j : thread_on k w = Some j → cth <$> w_threads w !! j = Some (Some k).
Proof.
  unfold thread_on. destruct (filter _ _) as [|[j' c] f] eqn:Hf; [done|]. intros [= ->].
  assert ((j, c) ∈ filter (λ tc : Z * option Z, tc.2 = Some k) (map_to_list (cth <$> w_threads w))) as Hin by (rewrite Hf; by left).
  apply list_elem_of_filter in Hin as [Hc Hin]. simpl in Hc. apply elem_of_map_to_list in Hin. subst c. by rewrite lookup_fmap in Hin.
Qed.
Lemma thread_on_same k w w' : cth <$> w_threads w' = cth <$> w_threads w → thread_on k w' = thread_on k w.
Proof. unfold thread_on. by intros ->. Qed.

(** Thread [j], [x], sleeps on Converse thread [k] and will go to pool [p]. *)
Record asleep w V k j x p : Prop := {
  as_on : thread_on k w = Some j;
  as_thread : w_threads w !! j = Some x;
  as_type : t_type x ≠ ABTI_THREAD_SCHED;
  as_idle : in_pool x = false ∧ removed x = false;
  as_leave : can_leave w x;
  as_block : block_ok w x;
  as_goes : destination x = Some p;
  as_pool : is_Some (V !! p);
}.
(** The pools of [w] are those of [w'], blocked counts and queues aside. *)
Definition alike w w' : Prop := ∀ q o, w_pools w !! q = Some o →
  ∃ o', w_pools w' !! q = Some o' ∧ user o' = user o ∧ def o' = def o.
Lemma asleep_kept w w' V V' k j x p j' : asleep w V k j x p → left_alone j' w w' → j ≠ j' → alike w w' →
  (∀ q, is_Some (V !! q) → is_Some (V' !! q)) → asleep w' V' k j x p.
Proof.
  intros [A1 A2 A3 A4 A5 A6 A7 A8] [L1 L2] Hne Hp HV. split; try done.
  - by rewrite (thread_on_same k w w').
  - rewrite L2; [done|done|by exists x].
  - intros q Hq. destruct (A5 q Hq) as (o & Ho & Hu). destruct (Hp q o Ho) as (o' & Ho' & E1 & E2).
    exists o'. by rewrite E1, E2.
  - intros Hb. destruct (A6 Hb) as (b & o & ? & Ho). destruct (Hp b o Ho) as (o' & ? & _). by exists b, o'.
  - by apply HV.
Qed.
Lemma uncounted_alike x (P : gmap Z ABTI_pool) q o : P !! q = Some o →
  ∃ o', uncounted x P !! q = Some o' ∧ user o' = user o ∧ def o' = def o.
Proof.
  intros Ho. unfold uncounted. destruct (blocked_pool x) as [b|], (blocked_counted x); eauto.
  destruct (decide (b = q)) as [->|]; [rewrite lookup_alter_eq, Ho|rewrite lookup_alter_ne by done]; eauto.
Qed.
Lemma erased_alike (w' : world) (P : gmap Z ABTI_pool) q o : erase_store <$> w_pools w' = erase_store <$> P → P !! q = Some o →
  ∃ o', w_pools w' !! q = Some o' ∧ user o' = user o ∧ def o' = def o.
Proof.
  intros Heq Ho. pose proof (f_equal (.!! q) Heq) as Hlk. simpl in Hlk. rewrite !lookup_fmap, Ho in Hlk.
  destruct (w_pools w' !! q) as [o'|]; [|done]. simpl in Hlk. apply (inj Some) in Hlk.
  exists o'. split_and!; [done|exact (f_equal user Hlk)|exact (f_equal def Hlk)].
Qed.

(** ** Awakening one thread *)

Lemma awaken_one me g V k j x p l : pools_hold (xw g) V → asleep (xw g) V k j x p → is_blocked k (xcth g) = true →
  V !! p = Some l →
  wp (awaken_if_blocked me k) (λ b g', b = true ∧ pools_hold (xw g') (<[p := l ++ [j]]> V) ∧
    xcth g' = CthAwakenIfBlocked k (xcth g) ∧
    erase_store <$> w_pools (xw g') = erase_store <$> uncounted x (w_pools (xw g)) ∧
    left_alone j (xw g) (xw g') ∧ alike (xw g) (xw g')) g.
Proof.
  intros Hh [A1 A2 A3 [A4 A4'] A5 A6 A7 A8] Hb Hl. unfold awaken_if_blocked. wp_step. wp_step. rewrite Hb. cbn [negb].
  wp_step. unfold awaken. apply wp_modify. wp_step. rewrite A1. unfold awaken_fn. wp_step. apply wp_lift.
  eapply wp_thread; [exact A2|]. rewrite decide_False by done. apply wp_lift. simpl.
  eapply wp_mono; [by eapply (awaken_holds (xw g) V j x p l)|]. intros [] w' (Hh' & Ep & _ & La & _). wp_step.
  split_and!; [done|exact Hh'|done|exact Ep|exact La|].
  intros q o Ho. destruct (uncounted_alike x _ q o Ho) as (o1 & Ho1 & E1 & E2).
  destruct (erased_alike w' _ q o1 Ep Ho1) as (o2 & Ho2 & E3 & E4). exists o2. simpl. split_and!; [done|congruence..].
Qed.

(** ** Awakening the joiners *)

(** The threads of the joiners [ks], the pools when they have been pushed in
    turn, and the pool objects when they are counted as blocked no longer. *)
Definition joining w (ks : list Z) : list (ptr * ABTI_thread) :=
  omap (λ k, j ← thread_on k w; x ← w_threads w !! j; Some (j, x)) ks.
Definition readied V (js : list (ptr * ABTI_thread)) : gmap Z (list ptr) :=
  foldl (λ V jx, match destination jx.2 with Some p => <[p := default [] (V !! p) ++ [jx.1]]> V | None => V end) V js.
Definition uncount_all (P : gmap Z ABTI_pool) (js : list (ptr * ABTI_thread)) : gmap Z ABTI_pool :=
  foldl (λ P jx, uncounted jx.2 P) P js.
Definition all_asleep g V (ks : list Z) : Prop :=
  NoDup ks ∧ ∀ k, k ∈ ks → is_blocked k (xcth g) = true ∧ ∃ j x p, asleep (xw g) V k j x p.

Lemma asleep_owner w V k j x p : asleep w V k j x p → cth x = Some k.
Proof. intros [A1 A2 _ _ _ _ _ _]. apply thread_on_thread in A1. rewrite A2 in A1. by simplify_eq/=. Qed.
Lemma asleep_apart w V V' k k' j j' x x' p p' : asleep w V k j x p → asleep w V' k' j' x' p' → k ≠ k' → j ≠ j'.
Proof.
  intros Ha Hb Hne ->. apply Hne. pose proof (asleep_owner _ _ _ _ _ _ Ha) as E1. pose proof (asleep_owner _ _ _ _ _ _ Hb) as E2.
  pose proof (as_thread _ _ _ _ _ _ Ha). pose proof (as_thread _ _ _ _ _ _ Hb). congruence.
Qed.
Lemma joining_same w w' ks : (∀ k, k ∈ ks → ∃ j V x p V', asleep w V k j x p ∧ asleep w' V' k j x p) → joining w' ks = joining w ks.
Proof.
  induction ks as [|k ks IH]; intros Hs; [done|]. unfold joining. cbn [omap list_omap].
  destruct (Hs k) as (j & V & x & p & V' & Ha & Hb); [by left|].
  rewrite (as_on _ _ _ _ _ _ Ha), (as_on _ _ _ _ _ _ Hb). cbn [mbind option_bind].
  rewrite (as_thread _ _ _ _ _ _ Ha), (as_thread _ _ _ _ _ _ Hb). cbn [mbind option_bind]. f_equal. apply IH.
  intros k' Hk'. apply Hs. by right.
Qed.
Lemma erase_uncounted x (P : gmap Z ABTI_pool) : erase_store <$> uncounted x P = uncounted x (erase_store <$> P).
Proof.
  unfold uncounted. destruct (blocked_pool x) as [b|], (blocked_counted x); try done. apply map_eq. intros q.
  rewrite lookup_fmap. destruct (decide (b = q)) as [->|].
  - rewrite !lookup_alter_eq, lookup_fmap. by destruct (P !! q).
  - by rewrite !lookup_alter_ne, lookup_fmap.
Qed.
Lemma erase_uncount_all js : ∀ P, erase_store <$> uncount_all P js = uncount_all (erase_store <$> P) js.
Proof. induction js as [|jx js IH]; intros P; [done|]. simpl. fold (uncount_all (uncounted jx.2 P) js). by rewrite IH, erase_uncounted. Qed.

(** All joiners are made ready, in turn. *)
Lemma awaken_all_ready me ks : ∀ g V, pools_hold (xw g) V → all_asleep g V ks →
  wp (awaken_all me ks) (λ _ g', pools_hold (xw g') (readied V (joining (xw g) ks)) ∧
    (∀ k, is_blocked k (xcth g') = if decide (k ∈ ks) then false else is_blocked k (xcth g)) ∧
    erase_store <$> w_pools (xw g') = erase_store <$> uncount_all (w_pools (xw g)) (joining (xw g) ks) ∧
    alike (xw g) (xw g') ∧
    ∀ t, idle_in (w_threads (xw g)) t → (∀ k, k ∈ ks → thread_on k (xw g) ≠ Some t) →
      w_threads (xw g') !! t = w_threads (xw g) !! t) g.
Proof.
  induction ks as [|k ks IH]; intros g V Hh [Hnd Hs]; cbn [awaken_all].
  { wp_step. split_and!; [done| |done|by intros q o Ho; exists o|done].
    intros k. by rewrite decide_False by apply not_elem_of_nil. }
  destruct (Hs k) as (Hb & j & x & p & Ha); [by left|]. destruct (as_pool _ _ _ _ _ _ Ha) as [l Hl].
  apply NoDup_cons in Hnd as [Hk Hnd].
  wp_step. eapply wp_mono; [by eapply awaken_one|]. intros b g1 (_ & Hh1 & Ec & Ep & La & Hal).
  set (V1 := <[p := l ++ [j]]> V) in *.
  assert (∀ k', k' ∈ ks → is_blocked k' (xcth g1) = true ∧ ∃ j' x' p', asleep (xw g) V k' j' x' p' ∧ asleep (xw g1) V1 k' j' x' p') as Hs1.
  { intros k' Hk'. destruct (Hs k') as (Hb' & j' & x' & p' & Ha'); [by right|]. assert (k ≠ k') as Hne by (intros ->; done). split.
    - by rewrite Ec, awaken_other.
    - exists j', x', p'. split; [done|]. eapply asleep_kept; [exact Ha'|exact La| |exact Hal|].
      + by eapply asleep_apart.
      + intros q Hq. unfold V1. destruct (decide (p = q)) as [->|]; [rewrite lookup_insert_eq; eauto|by rewrite lookup_insert_ne]. }
  assert (joining (xw g1) ks = joining (xw g) ks) as Ej.
  { apply joining_same. intros k' Hk'. destruct (Hs1 k' Hk') as (_ & j' & x' & p' & ? & ?). eauto 10. }
  assert (joining (xw g) (k :: ks) = (j, x) :: joining (xw g) ks) as Ejk.
  { unfold joining. cbn [omap list_omap]. by rewrite (as_on _ _ _ _ _ _ Ha); cbn [mbind option_bind]; rewrite (as_thread _ _ _ _ _ _ Ha). }
  eapply wp_mono; [apply (IH g1 V1 Hh1)|].
  { split; [done|]. intros k' Hk'. destruct (Hs1 k' Hk') as (? & j' & x' & p' & ? & ?). eauto 10. }
  intros [] g2 (Hh2 & Hb2 & Ep2 & Hal2 & Hid2). rewrite Ejk. rewrite Ej in Hh2, Ep2. split_and!.
  - simpl. rewrite (as_goes _ _ _ _ _ _ Ha), Hl. exact Hh2.
  - intros k'. rewrite Hb2, Ec. destruct (decide (k' ∈ ks)); [by rewrite decide_True by (by right)|].
    destruct (decide (k = k')) as [<-|]; [rewrite decide_True by (by left); apply awaken_runs|].
    rewrite decide_False by set_solver. by apply awaken_other.
  - rewrite Ep2, erase_uncount_all, Ep, <-erase_uncount_all. done.
  - intros q o Ho. destruct (Hal q o Ho) as (o1 & Ho1 & ? & ?). destruct (Hal2 q o1 Ho1) as (o2 & ? & ? & ?).
    exists o2. split_and!; [done|congruence..].
  - intros t Hid Ht. assert (t ≠ j) as Hne by (intros ->; apply (Ht k); [by left|apply Ha]).
    assert (w_threads (xw g1) !! t = w_threads (xw g) !! t) as E1 by (by apply La). rewrite Hid2; [done| |].
    + unfold idle_in. by rewrite E1.
    + intros k' Hk'. rewrite (thread_on_same k' (xw g) (xw g1)) by apply La. apply Ht. by right.
Qed.

(** ** The end of a unit *)

(** The unit [t] without a stack of its own, [x] when its function was done in
    [g], has ended, and [g'] is what is left.  [V]: what the pools held. *)
Record retired V t x g g' : Prop := {
  (** every joiner is ready, nobody else became so *)
  rt_woken k : is_blocked k (xcth g') = if decide (k ∈ t_joiners x) then false else is_blocked k (xcth g);
  (** the joiners are queued, in turn, behind what the pools held *)
  rt_pools : pools_hold (xw g') (readied V (joining (xw g) (t_joiners x)));
  (** and counted as blocked no longer *)
  rt_counts : num_blocked <$> w_pools (xw g') = num_blocked <$> uncount_all (w_pools (xw g)) (joining (xw g) (t_joiners x));
  rt_thread : w_threads (xw g') !! t = if decide (t_type x = ABTI_THREAD_DETACHED) then None
    else Some (x <| terminated := true |> <| t_joiners := [] |>);
  rt_other u : u ≠ t → idle_in (w_threads (xw g)) u → (∀ k, k ∈ t_joiners x → thread_on k (xw g) ≠ Some u) →
    w_threads (xw g') !! u = w_threads (xw g) !! u;
}.

(** A change of a thread that runs on no Converse thread. *)
Lemma joiners_kept g g1 V ks t x y : w_threads (xw g) !! t = Some x → cth x = None → cth y = None → xcth g1 = xcth g →
  w_threads (xw g1) = <[t := y]> (w_threads (xw g)) → w_pools (xw g1) = w_pools (xw g) → all_asleep g V ks →
  all_asleep g1 V ks ∧ joining (xw g1) ks = joining (xw g) ks ∧ ∀ k, k ∈ ks → thread_on k (xw g1) ≠ Some t.
Proof.
  intros Hx Hc Hcy Ecth Et Ep [Hnd Hs].
  assert (left_alone t (xw g) (xw g1)) as La by (eapply la_insert; [exact Hx| |exact Et]; congruence).
  assert (∀ k, k ∈ ks → ∃ j x p, asleep (xw g) V k j x p ∧ asleep (xw g1) V k j x p) as Hb.
  { intros k Hk. destruct (Hs k Hk) as (_ & j & z & p & Ha). exists j, z, p. split; [done|].
    eapply asleep_kept; [exact Ha|exact La| |intros q o Ho; exists o; by rewrite Ep|done].
    intros ->. pose proof (asleep_owner _ _ _ _ _ _ Ha). pose proof (as_thread _ _ _ _ _ _ Ha). congruence. }
  split_and!.
  - split; [done|]. intros k Hk. rewrite Ecth. split; [by apply Hs|]. destruct (Hb k Hk) as (j & z & p & _ & ?). eauto.
  - apply joining_same. intros k Hk. destruct (Hb k Hk) as (j & z & p & ? & ?). eauto 10.
  - intros k Hk Hon. apply thread_on_thread in Hon. rewrite Et, lookup_insert_eq in Hon. simpl in Hon. congruence.
Qed.

Lemma terminated_retires me V t x g :
  pools_hold (xw g) V → w_threads (xw g) !! t = Some x → in_pool x = false → removed x = false → can_leave (xw g) x →
  cth x = None → all_asleep g V (t_joiners x) →
  wp (ABTI_thread_terminated me t) (λ _ g', retired V t x g g') g.
Proof.
  intros Hh Hx Hin Hrm Hl Hc Hs. unfold ABTI_thread_terminated, term_mark. wp_step. apply wp_lift. eapply wp_set_thread; [done|].
  unfold term_take. wp_step. apply wp_lift. wp_step. eapply wp_thread; [simpl; apply lookup_insert_eq|]. wp_step.
  eapply wp_set_thread; [simpl; apply lookup_insert_eq|]. wp_step. wp_step.
  set (y := x <| terminated := true |> <| t_joiners := [] |>).
  match goal with |- wp _ _ ?g1' => set (g1 := g1') end.
  assert (w_threads (xw g1) = <[t := y]> (w_threads (xw g))) as Et1 by (simpl; by rewrite insert_insert_eq).
  destruct (joiners_kept g g1 V (t_joiners x) t x y Hx Hc Hc eq_refl Et1 eq_refl Hs) as (Hs1 & Ej & Hnot).
  assert (pools_hold (xw g1) V) as Hh1.
  { eapply holds_other; [exact Hh|]. by refine (moved_thread (xw g) (xw g1) t x y Hx Hin _ _ _ Et1). }
  simpl t_joiners. eapply wp_mono; [by apply (awaken_all_ready me (t_joiners x) g1 V)|].
  intros [] g2 (Hh2 & Hb2 & Ep2 & Hal2 & Hid2). rewrite Ej in Hh2, Ep2.
  assert (w_threads (xw g1) !! t = Some y) as Hy1 by (rewrite Et1; apply lookup_insert_eq).
  assert (w_threads (xw g2) !! t = Some y) as Hy2 by (rewrite Hid2; [done|by exists y|done]).
  assert (can_leave (xw g2) y) as Hl2.
  { intros q Hq. destruct (Hl q Hq) as (o & Ho & Hu). destruct (Hal2 q o Ho) as (o' & Ho' & E1 & E2). exists o'. by rewrite E1, E2. }
  assert (∀ u, u ≠ t → idle_in (w_threads (xw g)) u → (∀ k, k ∈ t_joiners x → thread_on k (xw g) ≠ Some u) →
    w_threads (xw g2) !! u = w_threads (xw g) !! u) as Hother.
  { intros u Hu Hidu Hnu. assert (w_threads (xw g1) !! u = w_threads (xw g) !! u) as E1 by (by rewrite Et1, lookup_insert_ne).
    rewrite Hid2; [done|unfold idle_in; by rewrite E1|]. intros k Hk. rewrite (thread_on_same k (xw g) (xw g1)); [by apply Hnu|].
    rewrite Et1, fmap_insert. apply insert_id. rewrite lookup_fmap, Hx. done. }
  apply erased_blocked in Ep2. apply wp_lift. unfold term_retire. wp_step. eapply wp_thread; [exact Hy2|].
  unfold when. change (t_type y) with (t_type x). case_bool_decide as Hd.
  - wp_step. eapply wp_mono; [by apply (disassociate_spec _ t y)|]. intros [] w3 (F & _ & Et3).
    unfold ABTI_thread_release. wp_step. eapply wp_thread; [rewrite Et3; apply lookup_insert_eq|]. apply wp_modify.
    assert (pools_hold w3 (readied V (joining (xw g) (t_joiners x)))) as Hh3 by (by eapply holds_other).
    split; simpl.
    + exact Hb2.
    + apply delete_thread_holds; [done|]. rewrite Et3. eexists. rewrite lookup_insert_eq. done.
    + by rewrite (ot_pools _ _ F).
    + rewrite lookup_delete_eq. by rewrite decide_True.
    + intros u Hu ??. rewrite lookup_delete_ne, Et3, lookup_insert_ne by done. by apply Hother.
  - wp_step. split; simpl; [exact Hb2|exact Hh2|exact Ep2| |done]. rewrite Hy2. by rewrite decide_False.
Qed.
End ready.
