(* ===== verification/RunSpec.v ===== *)
(** * What running promises

    A scheduler that runs as a unit of a pool ends once it has drained its
    pools, and a PE that polls a tasklet runs it once and retires it. *)

From S2P Require Import Prelude AbtTypes Config Objects Storage PoolList Sleepers PoolMpsc Pool PoolWorld ConfigApi.
From S2P Require Import Sched SchedSpec Sync Thread ThreadSpec ThreadJoin Xstream XstreamJoin XstreamSafe XstreamPe Run Ready.

Section stacked.
Context `{E : Ext}.
Implicit Types (w : world) (V : gmap Z (list ptr)) (l ps : list ptr) (p q t : ptr).

(** ** The pools of a stacked scheduler *)

(** a scheduler waits for the blocked units of a pool it consumes alone *)
Definition blocked_left w p : bool :=
  from_option (λ o, ((access o =? ABT_POOL_ACCESS_PRIV) || (num_scheds o =? 1)) && (num_blocked o >? 0)) false (w_pools w !! p).
Definition blocked_of w : gmap Z Z := num_blocked <$> w_pools w.

Lemma any_unit_holds w V ps : pools_hold w V → (∀ p, p ∈ ps → is_Some (V !! p)) →
  wp (any_unit ps) (λ b w', w' = w ∧ b = existsb (λ p, negb (bool_decide (V !! p = Some [])) || blocked_left w p) ps) w.
Proof.
  intros Hh. induction ps as [|p ps IH]; intros HV; cbn [any_unit existsb]; [by wp_step|].
  destruct (HV p) as [l Hl]; [by left|].
  destruct (hold_inv _ _ _ _ Hh Hl) as (C & c & o & _ & _ & _ & _ & Ho & _).
  wp_step. eapply wp_mono; [by eapply size_holds|]. intros n w' [-> ->]. rewrite Hl.
  destruct l as [|t l]; simpl length.
  - rewrite bool_decide_eq_true_2 by done. change (Z.of_nat 0 >? 0) with false. cbv iota. cbn [negb orb]. wp_step. eapply wp_pool; [done|].
    unfold blocked_left at 1. rewrite Ho. simpl from_option. destruct (_ && _); [by wp_step|]. apply IH. intros. apply HV. by right.
  - rewrite bool_decide_eq_false_2 by done. destruct (Z.gtb_spec (Z.of_nat (S (length l))) 0); [|lia]. by wp_step.
Qed.
Lemma all_empty_pools_holds w V ps : pools_hold w V → all_empty V ps → wp (all_empty_pools ps) (λ b w', w' = w ∧ b = true) w.
Proof.
  intros Hh. induction ps as [|p ps IH]; intros He; cbn [all_empty_pools]; [by wp_step|].
  wp_step. eapply wp_mono; [eapply size_holds; [done|apply He; by left]|]. intros n w' [-> ->]. cbn [length Z.of_nat Z.eqb].
  apply IH. intros q Hq. apply He. by right.
Qed.

(** ** Parking *)

(** only sleeper masks differ *)
Definition erase_mask (o : ABTI_pool) : ABTI_pool := o <| smask := [] |> <| nsleepers := 0 |>.
Record parks w w' : Prop := {
  pk_pools : erase_mask <$> w_pools w' = erase_mask <$> w_pools w;
  pk_threads : w_threads w' = w_threads w;
  pk_scheds : w_scheds w' = w_scheds w;
  pk_ext : w_ext w' = w_ext w;
}.
Lemma parks_trans w1 w2 w3 : parks w1 w2 → parks w2 w3 → parks w1 w3.
Proof. intros [] []. split; congruence. Qed.

(** parking on a pool, or leaving it, as [each] does it for all pools *)
Definition parking (f : ptr → M world unit) : Prop := ∀ w V p l, pools_hold w V → V !! p = Some l →
  wp (f p) (λ _ w', pools_hold w' V ∧ parks w w') w.
Lemma mask_parks (m : M pst unit) (g : Z → Z) w V p l :
  pools_hold w V → V !! p = Some l →
  (∀ s, masks_wf (smask (this s)) → wp m (λ _ s', masks_wf (smask (this s')) ∧
    this s' = this s <| smask := smask (this s') |> <| nsleepers ::= g |> ∧ heap s' = heap s ∧ evs s' = evs s) s) →
  wp (on_pool p m) (λ _ w', pools_hold w' V ∧ parks w w') w.
Proof.
  intros Hh Hl Hm. destruct (hold_inv _ _ _ _ Hh Hl) as (C & c & o & _ & _ & _ & _ & Ho & _ & _ & _ & Hwf).
  eapply wp_on_pool; [done|]. eapply wp_mono; [by apply Hm|]. intros [] s' (Hwf' & Ht & Hheap & Hev).
  assert (put_pst p s' w = w <| w_pools ::= insert p (this s') |>) as -> by (destruct w; unfold put_pst, upd; simpl in *; congruence).
  split; [eapply holds_put_pool; [done..|by rewrite Ht|by rewrite Ht|done|by rewrite Ht|by rewrite Ht]|].
  split; [|done..]. simpl. rewrite fmap_insert. apply insert_id. by rewrite lookup_fmap, Ho, Ht.
Qed.
Lemma add_sleeper_parks r : 0 ≤ r < 256 → parking (λ p, on_pool p (add_sleeper r)).
Proof.
  intros Hr w V p l Hh Hl. apply (mask_parks _ Z.succ w V p l Hh Hl). intros s Hs.
  eapply wp_mono; [by apply add_sleeper_spec|]. naive_solver.
Qed.
Lemma remove_sleeper_parks r : 0 ≤ r < 256 → parking (λ p, on_pool p (remove_sleeper r)).
Proof.
  intros Hr w V p l Hh Hl. apply (mask_parks _ Z.pred w V p l Hh Hl). intros s Hs.
  eapply wp_mono; [by apply remove_sleeper_spec|]. naive_solver.
Qed.
Lemma each_parks f ps : parking f → ∀ w V, pools_hold w V → (∀ p, p ∈ ps → is_Some (V !! p)) →
  wp (each f ps) (λ _ w', pools_hold w' V ∧ parks w w') w.
Proof.
  intros Hf. induction ps as [|p ps IH]; intros w V Hh HV; cbn [each]; [by wp_step|].
  destruct (HV p) as [l Hl]; [by left|]. wp_step. eapply wp_mono; [by eapply Hf|]. intros [] w1 [Hh1 P1].
  eapply wp_mono; [apply IH; [done|intros; apply HV; by right]|]. intros [] w2 [Hh2 P2]. split; [done|by eapply parks_trans].
Qed.

(** ** Draining *)

(** [m] ends in [Q], unless its fuel runs out. *)
Definition ends {St A} (m : M St A) (Q : A → St → Prop) (w : St) : Prop :=
  match m w with Done v w' => Q v w' | Faulted OutOfFuel => True | Faulted _ => False end.
Lemma wp_ends {St A} (m : M St A) Q (w : St) : wp m Q w → ends m Q w.
Proof. unfold wp, ends. by destruct (m w). Qed.
Lemma ends_bind {St A B} (m : M St A) (k : A → M St B) Q (w : St) : ends m (λ v, ends (k v) Q) w → ends (m ≫= k) Q w.
Proof. unfold ends, mbind, M_bind. by destruct (m w). Qed.
Lemma ends_mono {St A} (m : M St A) (Q Q' : A → St → Prop) (w : St) : ends m Q w → (∀ v (u : St), Q v u → Q' v u) → ends m Q' w.
Proof. unfold ends. destruct (m w) as [|[]]; naive_solver. Qed.

Section drain.
Context (me : Z) (s : ptr) (ps : list ptr).
Definition exits (d : ABTI_sched) : Prop := truthy (Z.land (request d) ABTI_SCHED_REQ_EXIT) = true.
(** The pools [ps] of the predefined scheduler [s] hold [V], and PE [me] may run
    all of it. *)
Record serving w V : Prop := {
  sv_holds : pools_hold w V;
  sv_sched : ∃ d, w_scheds w !! s = Some d ∧ pools d = ps ∧ predef d ≠ ABT_SCHED_RANDWS ∧ user_def d = false;
  sv_pools p : p ∈ ps → is_Some (V !! p);
  sv_resume : resumable me w V ps;
}.
Lemma serving_parks w w' V : serving w V → pools_hold w' V → parks w w' →
  serving w' V ∧ blocked_of w' = blocked_of w ∧ (∀ p, blocked_left w' p = blocked_left w p).
Proof.
  intros [Hh Hs Hp Hr] Hh' [Ep Et Es Ee]. split_and!.
  - split; [done|by rewrite Es|done|]. intros p l t ? ? ?. unfold pinned_in. rewrite Et, Ee. by eapply Hr.
  - unfold blocked_of. transitivity (num_blocked <$> (erase_mask <$> w_pools w)); [rewrite <-Ep|]; by rewrite <-map_fmap_compose.
  - intros p. unfold blocked_left. pose proof (f_equal (.!! p) Ep) as Hq. simpl in Hq. rewrite !lookup_fmap in Hq.
    destruct (w_pools w' !! p) as [o'|], (w_pools w !! p) as [o|]; try done. simpl in *. apply (inj Some) in Hq.
    pose proof (f_equal access Hq) as Ha. pose proof (f_equal num_scheds Hq) as Hn. pose proof (f_equal num_blocked Hq) as Hb.
    simpl in Ha, Hn, Hb. by rewrite Ha, Hn, Hb.
Qed.
(** [V'] has the same pools as [V] and no other units *)
Definition within V V' : Prop :=
  ∀ q l, V !! q = Some l → ∃ l', V' !! q = Some l' ∧ l' ⊆ l.
Lemma first_of_within V t V' : first_of V ps t V' → within V V'.
Proof.
  intros (i & p & l & Hi & Hl & He & ->) q l' Hq. destruct (decide (p = q)) as [<-|].
  - exists l. rewrite lookup_insert_eq. split; [done|]. assert (l' = t :: l) as -> by congruence. set_solver.
  - exists l'. by rewrite lookup_insert_ne.
Qed.
(** What a pop does to the world. *)
Record popped_world w w' : Prop := {
  po_scheds : w_scheds w' = w_scheds w;
  po_threads : erase_queue <$> w_threads w' = erase_queue <$> w_threads w;
  po_pools : erase_store <$> w_pools w' = erase_store <$> w_pools w;
  po_ext : w_ext w' = w_ext w;
}.
Lemma popped_blocked w w' p : popped_world w w' → blocked_left w' p = blocked_left w p.
Proof.
  intros [_ _ Ep _]. unfold blocked_left. pose proof (f_equal (.!! p) Ep) as Hq. simpl in Hq. rewrite !lookup_fmap in Hq.
  destruct (w_pools w' !! p) as [o'|], (w_pools w !! p) as [o|]; try done. simpl in *. apply (inj Some) in Hq.
  pose proof (f_equal access Hq) as Ha. pose proof (f_equal num_scheds Hq) as Hn. pose proof (f_equal num_blocked Hq) as Hb.
  simpl in Ha, Hn, Hb. by rewrite Ha, Hn, Hb.
Qed.
Lemma popped_blocked_of w w' : popped_world w w' → blocked_of w' = blocked_of w.
Proof.
  intros [_ _ Ep _]. unfold blocked_of. transitivity (num_blocked <$> (erase_store <$> w_pools w)); [rewrite <-Ep|]; by rewrite <-map_fmap_compose.
Qed.
Lemma serving_pop w w' V V' : serving w V → within V V' → pools_hold w' V' → popped_world w w' →
  serving w' V' ∧ blocked_of w' = blocked_of w.
Proof.
  intros [Hh Hs Hp Hr] Hin Hh' [Es Et Ep Ee]. split; [split|].
  - done.
  - by rewrite Es.
  - intros q Hq. destruct (Hp q Hq) as [l Hl]. destruct (Hin q l Hl) as (l' & ? & _). by exists l'.
  - intros q l' t Hq Hl' Ht. destruct (Hp q Hq) as [l Hl]. destruct (Hin q l Hl) as (l0 & Hl0 & Hsub).
    rewrite <-(Hr q l t Hq Hl) by (apply Hsub; congruence). unfold pinned_in, pin_at. rewrite Ee.
    pose proof (f_equal (.!! t) Et) as Ht'. simpl in Ht'. rewrite !lookup_fmap in Ht'.
    destruct (w_threads w !! t), (w_threads w' !! t); try done. simpl in Ht'. apply (inj Some) in Ht'.
    simpl. by rewrite <-(pinned_elsewhere_ok me (w_ext w)), Ht', (pinned_elsewhere_ok me (w_ext w)).
  - by apply popped_blocked_of.
Qed.
Definition drained_pools w V : Prop := all_empty V ps ∧ existsb (blocked_left w) ps = false.

Lemma has_unit_blocked w V : serving w V → all_empty V ps →
  wp (sched_has_unit s) (λ b w', w' = w ∧ b = existsb (blocked_left w) ps) w.
Proof.
  intros Hs He. unfold sched_has_unit. wp_step. destruct (sv_sched _ _ Hs) as (d & Hd & Ep & _). eapply wp_sched; [exact Hd|].
  rewrite Ep. eapply wp_mono; [apply (any_unit_holds _ V); apply Hs|]. intros b w' [-> ->]. split; [done|].
  clear Hs Ep. induction ps as [|p l IH]; [done|]. cbn [existsb].
  rewrite (bool_decide_eq_true_2 (V !! p = Some [])) by (apply He; by left). cbn [negb orb]. f_equal. apply IH.
  intros q Hq. apply He. by right.
Qed.
Lemma serving_policy w V : serving w V →
  wp (ABTI_sched_pop_by_policy me s) (λ r w', popped_world w w' ∧
    match r with
    | None => all_empty V ps ∧ serving w' V
    | Some t => ∃ V', first_of V ps t V' ∧ serving w' V' ∧ idle_in (w_threads w') t
    end) w.
Proof.
  intros Hs. destruct (sv_sched _ _ Hs) as (d & Hd & Ep & Hpd & _).
  eapply wp_mono; [apply (policy_pop me w V s d); [apply Hs|exact Hd|done|rewrite Ep; apply Hs|rewrite Ep; apply Hs]|].
  rewrite Ep. intros r w1 (Hres & Es & Et & Eq & Ee). assert (popped_world w w1) as Hpo by done. split; [done|].
  destruct r as [t|].
  - destruct Hres as (V1 & Hf & Hh1 & Hid). exists V1. split_and!; [done| |done].
    by eapply (serving_pop w w1 V); [|eapply first_of_within| |].
  - destruct Hres as [He Hh1]. split; [done|]. eapply (serving_pop w w1 V); [done|by intros q l ?; exists l|done..].
Qed.

Context (run : ptr → M world unit) (wait : M world unit) (loop : ptr → M world unit).
(** What a unit that runs, and a wait, leave is [Q]. *)
Definition runs_to (Q : world → gmap Z (list ptr) → world → gmap Z (list ptr) → Prop) : Prop :=
  ∀ w V0 V t, first_of V0 ps t V → serving w V → idle_in (w_threads w) t →
  wp (run t) (λ _ w', ∃ V', serving w' V' ∧ Q w V0 w' V') w.
Definition waits_to (Q : world → gmap Z (list ptr) → world → gmap Z (list ptr) → Prop) : Prop :=
  ∀ w V, serving w V → all_empty V ps → existsb (blocked_left w) ps = true →
  wp wait (λ _ w', ∃ V', serving w' V' ∧ Q w V w' V') w.
(** what is left to do, from the queued units, the blocked counts and the rest of
    the program *)
Definition nearer (todo : gmap Z (list ptr) → gmap Z Z → ext_st → nat) w V w' V' : Prop :=
  (todo V' (blocked_of w') (w_ext w') < todo V (blocked_of w) (w_ext w))%nat.
Context (Hme : 0 ≤ me < 256).

(** Sleeper masks do not matter to [Q]. *)
Definition mask_blind (Q : world → gmap Z (list ptr) → world → gmap Z (list ptr) → Prop) : Prop :=
  ∀ w V w1 w2 V' w', parks w w1 → Q w1 V w2 V' → parks w2 w' →
    blocked_of w1 = blocked_of w → blocked_of w' = blocked_of w2 → Q w V w' V'.
Lemma nearer_blind todo : mask_blind (nearer todo).
Proof. intros w V w1 w2 V' w' P1 Hl P2 B1 B2. unfold nearer in *. by rewrite B2, <-B1, (pk_ext _ _ P2), <-(pk_ext _ _ P1). Qed.
Lemma hold_pe_to Q w V : mask_blind Q → waits_to Q → serving w V → all_empty V ps → existsb (blocked_left w) ps = true →
  wp (hold_pe wait me ps) (λ _ w', ∃ V', serving w' V' ∧ Q w V w' V') w.
Proof.
  intros HQ Hwait Hs He Hb. unfold hold_pe. wp_step.
  eapply wp_mono; [apply each_parks; [by apply add_sleeper_parks|apply Hs|apply Hs]|]. intros [] w1 [Hh1 P1].
  destruct (serving_parks _ _ _ Hs Hh1 P1) as (Hs1 & B1 & L1). wp_step.
  eapply wp_mono; [by apply (all_empty_pools_holds _ V); [|apply He]|]. intros b w' [-> ->]. unfold when. wp_step.
  eapply wp_mono; [eapply Hwait; [done|done|]|].
  { rewrite <-Hb. clear -L1. induction ps as [|p l IH]; simpl; congruence. }
  intros [] w2 (V2 & Hs2 & Hlt).
  eapply wp_mono; [apply each_parks; [by apply remove_sleeper_parks|apply Hs2|apply Hs2]|]. intros [] w3 [Hh3 P3].
  destruct (serving_parks _ _ _ Hs2 Hh3 P3) as (Hs3 & B3 & _). exists V2. split; [done|]. by eapply HQ.
Qed.

(** The loop leaves: an exit was requested, or the pools are drained. *)
Definition stops w V : Prop := ∃ d, w_scheds w !! s = Some d ∧ (exits d ∨ drained_pools w V).
Lemma popped_stops w w1 V : popped_world w w1 → (∃ d, w_scheds w !! s = Some d ∧ ¬ exits d) → stops w1 V ↔ drained_pools w V.
Proof.
  intros Hpo (d & Hd & Hne). unfold stops, drained_pools. rewrite (po_scheds _ _ Hpo), Hd.
  assert (existsb (blocked_left w1) ps = existsb (blocked_left w) ps) as ->.
  { induction ps as [|p l IH]; [done|]. simpl. by rewrite (popped_blocked w w1), IH. }
  naive_solver.
Qed.

Lemma stops_at_once fuel w V : serving w V → stops w V →
  wp (stacked_loop run wait fuel me s) (λ _ w', serving w' V ∧ popped_world w w' ∧ stops w' V) w.
Proof.
  intros Hs (d & Hd & Hor). assert (popped_world w w) as Hrefl by done.
  destruct fuel; cbn [stacked_loop]; wp_step; (eapply wp_sched; [exact Hd|]); (destruct (truthy _) eqn:He; [wp_step; split_and!; [done..|]; exists d; auto|]); wp_step.
  all: destruct Hor as [Hx|[Hemp Hb]]; [unfold exits in Hx; congruence|].
  all: eapply wp_mono; [by apply serving_policy|]; intros [t|] w1 [Hpo Hres].
  1,3: destruct Hres as (V' & (i & p & l & Hi & Hl & _ & _) & _); apply list_elem_of_lookup_2 in Hi; rewrite (Hemp p Hi) in Hl; simplify_eq.
  all: destruct Hres as [_ Hs1]; wp_step; eapply wp_mono; [by apply (has_unit_blocked w1 V)|]; intros b w' [-> ->].
  all: assert (stops w1 V) as Hst by (apply (popped_stops w w1 V Hpo); [exists d; split; [done|unfold exits; congruence]|done]).
  all: pose proof Hst as (d' & Hd' & [Hx|[_ ->]]); [rewrite (po_scheds _ _ Hpo) in Hd'; unfold exits in Hx; congruence|].
  all: cbn [negb]; by wp_step.
Qed.
Lemma loop_ends fuel : runs_to (λ _ _ _ _, True) → waits_to (λ _ _ _ _, True) → ∀ w V, serving w V →
  ends (stacked_loop run wait fuel me s) (λ _ w', ∃ V', serving w' V' ∧ stops w' V') w.
Proof.
  intros Hrun Hwait. induction fuel as [|fuel IH]; intros w V Hs.
  all: destruct (sv_sched _ _ Hs) as (d & Hd & Eps & _).
  all: cbn [stacked_loop]; apply ends_bind, wp_ends; (eapply wp_sched; [exact Hd|]).
  all: destruct (truthy _) eqn:He; [apply wp_ends; wp_step; exists V; split; [done|]; exists d; auto|].
  all: apply ends_bind, wp_ends; (eapply wp_mono; [by apply serving_policy|]); intros [t|] w1 [Hpo Hres].
  - done.
  - destruct Hres as [Hemp Hs1]. apply ends_bind, wp_ends. eapply wp_mono; [by apply (has_unit_blocked w1 V)|].
    intros b w' [-> ->]. destruct (existsb _ _) eqn:Hb; [done|]. cbn [negb]. apply wp_ends. wp_step. exists V. split; [done|].
    exists d. rewrite (po_scheds _ _ Hpo). split; [done|]. by right.
  - destruct Hres as (V1 & Hf & Hs1 & Hid). apply ends_bind, wp_ends. eapply wp_mono; [by eapply Hrun|].
    intros [] w2 (V2 & Hs2 & _). by eapply IH.
  - destruct Hres as [Hemp Hs1]. apply ends_bind, wp_ends. eapply wp_mono; [by apply (has_unit_blocked w1 V)|].
    intros b w' [-> ->]. destruct (existsb _ _) eqn:Hb.
    + cbn [negb]. rewrite Eps. apply ends_bind, wp_ends. eapply wp_mono; [by apply (hold_pe_to (λ _ _ _ _, True) w1 V)|].
      intros [] w2 (V2 & Hs2 & _). by eapply IH.
    + cbn [negb]. apply wp_ends. wp_step. exists V. split; [done|]. exists d. rewrite (po_scheds _ _ Hpo). split; [done|]. by right.
Qed.
Lemma loop_drains todo fuel : runs_to (nearer todo) → waits_to (nearer todo) → ∀ w V, serving w V →
  (todo V (blocked_of w) (w_ext w) ≤ fuel)%nat →
  wp (stacked_loop run wait fuel me s) (λ _ w', ∃ V', serving w' V' ∧ stops w' V') w.
Proof.
  intros Hrun Hwait. induction fuel as [|fuel IH]; intros w V Hs Hf.
  all: destruct (sv_sched _ _ Hs) as (d & Hd & Eps & _).
  all: cbn [stacked_loop]; wp_step; (eapply wp_sched; [exact Hd|]).
  all: destruct (truthy _) eqn:He; [wp_step; exists V; split; [done|]; exists d; auto|].
  all: wp_step; (eapply wp_mono; [by apply serving_policy|]); intros [t|] w1 [Hpo Hres].
  1,3: destruct Hres as (V1 & Hfo & Hs1 & Hid); destruct (wp_elim _ _ _ (Hrun w1 V V1 t Hfo Hs1 Hid)) as (u & w2 & Hr & V2 & Hs2 & Hlt);
    unfold nearer in Hlt; rewrite (popped_blocked_of w w1), (po_ext _ _ Hpo) in Hlt by done; try (exfalso; lia).
  - wp_step. eapply wp_intro; [exact Hr|]. apply (IH w2 V2 Hs2). lia.
  - destruct Hres as [Hemp Hs1]. wp_step. eapply wp_mono; [by apply (has_unit_blocked w1 V)|].
    intros b w' [-> ->]. destruct (existsb _ _) eqn:Hb.
    + exfalso. destruct (wp_elim _ _ _ (Hwait w1 V Hs1 Hemp Hb)) as (u & w2 & _ & V2 & _ & Hlt).
      unfold nearer in Hlt. rewrite (popped_blocked_of w w1), (po_ext _ _ Hpo) in Hlt by done. lia.
    + cbn [negb]. wp_step. exists V. split; [done|]. exists d. rewrite (po_scheds _ _ Hpo). split; [done|]. by right.
  - destruct Hres as [Hemp Hs1]. wp_step. eapply wp_mono; [by apply (has_unit_blocked w1 V)|].
    intros b w' [-> ->]. destruct (existsb _ _) eqn:Hb.
    + cbn [negb]. rewrite Eps. wp_step. eapply wp_mono; [apply (hold_pe_to (nearer todo) w1 V); [apply nearer_blind|done..]|].
      intros [] w2 (V2 & Hs2 & Hlt). unfold nearer in Hlt. rewrite (popped_blocked_of w w1), (po_ext _ _ Hpo) in Hlt by done.
      apply (IH w2 V2 Hs2). lia.
    + cbn [negb]. wp_step. exists V. split; [done|]. exists d. rewrite (po_scheds _ _ Hpo). split; [done|]. by right.
Qed.

(** C19: a stacked scheduler, of a predefined policy other than RANDWS (which may
    look at an empty pool while another holds work) and with units that no other
    PE has to run, ends when its pools are drained, and not before.  Run as a
    unit by PE [me], it runs the units of its pools in the order of its policy and
    holds the PE while only blocked units are left; units and waits may do
    anything that keeps the pools in order, a wait may time out with nothing
    changed.  (1) When it returns, an exit was requested or every pool is empty
    and those it alone consumes have no blocked units, and it is marked as in no
    pool; it can fail to return only by running and waiting for ever (fuel).
    (2) If it may stop at the start, it returns having run nothing.  (3) If every
    unit run and every wait, time-outs included, lowers some measure of queues,
    blocked counts and the rest of the program, it returns, within as many turns
    as the measure says. *)
Theorem stacked_sched_drains fuel w V : serving w V →
  let main := stacked_sched_main run wait loop fuel me s in
  let ended := λ (_ : unit) w', ∃ V' d, pools_hold w' V' ∧ w_scheds w' !! s = Some d ∧ s_in_pool d = false ∧
    (exits d ∨ drained_pools w' V') in
  (runs_to (λ _ _ _ _, True) → waits_to (λ _ _ _ _, True) → ends main ended w) ∧
  (stops w V → wp main (λ u w', ended u w' ∧ pools_hold w' V ∧ w_ext w' = w_ext w ∧ blocked_of w' = blocked_of w) w) ∧
  (∀ todo, runs_to (nearer todo) → waits_to (nearer todo) → (todo V (blocked_of w) (w_ext w) ≤ fuel)%nat → wp main ended w).
Proof.
  intros Hs main ended. destruct (sv_sched _ _ Hs) as (d0 & Hd0 & _ & _ & Hu).
  assert (∀ w' V', serving w' V' → stops w' V' → wp (set_sched s (λ d, d <| s_in_pool := false |>)) (λ u w2, ended u w2 ∧
    pools_hold w2 V' ∧ w_ext w2 = w_ext w' ∧ blocked_of w2 = blocked_of w') w') as Hend.
  { intros w' V' Hs' (d & Hd & Hor). eapply wp_set_sched; [exact Hd|].
    assert (pools_hold (w' <| w_scheds ::= insert s (d <| s_in_pool := false |>) |>) V') as Hh
      by (eapply holds_other; [apply Hs'|]; by apply other_fields_rest).
    split_and!; [|done..]. exists V', (d <| s_in_pool := false |>). split_and!; [done|apply lookup_insert_eq|done|exact Hor]. }
  unfold main, stacked_sched_main. split_and!.
  - intros Hrun Hwait. apply ends_bind, wp_ends. eapply wp_sched; [exact Hd0|]. rewrite Hu. apply ends_bind.
    eapply ends_mono; [by apply (loop_ends fuel Hrun Hwait w V)|]. intros [] w1 (V1 & Hs1 & Hst). apply wp_ends.
    eapply wp_mono; [by apply (Hend w1 V1)|]. by intros ?? [? _].
  - intros Hst. wp_step. eapply wp_sched; [exact Hd0|]. rewrite Hu. wp_step.
    eapply wp_mono; [by apply (stops_at_once fuel w V)|]. intros [] w1 (Hs1 & Hpo & Hst1).
    eapply wp_mono; [by apply (Hend w1 V)|]. intros u w2 (He & Hh & Ee & Eb).
    by rewrite Ee, Eb, (po_ext _ _ Hpo), (popped_blocked_of w w1).
  - intros todo Hrun Hwait Hf. wp_step. eapply wp_sched; [exact Hd0|]. rewrite Hu. wp_step.
    eapply wp_mono; [by apply (loop_drains todo fuel Hrun Hwait w V)|]. intros [] w1 (V1 & Hs1 & Hst).
    eapply wp_mono; [by apply (Hend w1 V1)|]. by intros ?? [? _].
Qed.
End drain.
End stacked.

(** ** Putting a scheduler into a pool *)

Section add.
Context `{E : Ext}.
Implicit Types (w : world) (V : gmap Z (list ptr)) (l : list ptr) (p s : ptr).

(** Adding a scheduler to a pool.  One that is in a pool or drives a stream
    is refused and nothing changes.  Otherwise the newest unit of the pool is a
    new detached ULT with a stack of 1 MiB that will run [stacked_sched_main] on
    the scheduler, and the scheduler is marked; the temporary attribute object
    is gone. *)
Theorem add_sched_spec main w V p l s d :
  g_initialized w = true → pools_hold w V → V !! p = Some l → threads_below w →
  256 ≤ s → w_scheds w !! s = Some d →
  let t := w_brk w + 1 in let at_ := mk_attr (1024 * 1024) None ABT_TRUE in
  wp (ABT_pool_add_sched main p s) (λ r w',
    if s_in_pool d || non_null (used_by d) then r = ABT_ERR_INV_SCHED ∧ w' = w else
    r = ABT_SUCCESS ∧ pools_hold w' (<[p := l ++ [t]]> V) ∧
    w_scheds w' = <[s := d <| s_in_pool := true |>]> (w_scheds w) ∧ w_attrs w' = delete (w_brk w) (w_attrs w) ∧
    ∃ c e, c = (CthCreate t (1024 * 1024) e).1 ∧
      thread_is w' t (new_thread false main s at_ (g_next_id w) false <| cth := Some c |> <| t_pool := Some p |>)) w.
Proof.
  intros Hi Hh Hl Hb Hs Hd. simpl. unfold ABT_pool_add_sched, ABTI_sched_get. rewrite (hold_handle _ _ _ _ Hh Hl), live_handle by done.
  unfold ABTI_sched_add_to_pool. wp_step. eapply wp_sched; [done|]. destruct (_ || _); [by wp_step|]. wp_step.
  eapply wp_set_sched; [done|]. wp_step. change (ABTI_pool_handle (Some p)) with p.
  eapply wp_mono; [apply (create_internal_holds _ V p l)|].
  - done.
  - eapply holds_rest; [exact Hh|done|done|simpl; lia].
  - done.
  - exact Hb.
  - intros r w2 (-> & Es & Ea & Hh2 & c & e & -> & Hx). wp_step. unfold when. cbn [negb Z.eqb ABT_SUCCESS]. wp_step. wp_step.
    split_and!; [done|exact Hh2|exact Es|exact Ea|]. eexists _, e. by split.
Qed.
End add.

(** ** A tasklet *)

Section tasklet.
Context `{E : Ext, R : Csd, C : Cth} {HC : CthLaws}.
Implicit Types (g : xst) (V : gmap Z (list ptr)) (l : list ptr) (p t : ptr) (x : ABTI_thread).

(** The function of tasklet [t] starts in [g1], where [t] is [x1]: it is off the
    queue of [p] and running, and nothing but queues has changed since [g]. *)
Record started V p l t x g g1 x1 : Prop := {
  sd_holds : pools_hold (xw g1) (<[p := l]> V);
  sd_thread : w_threads (xw g1) !! t = Some x1;
  sd_idle : in_pool x1 = false ∧ removed x1 = false;
  sd_running : tstate x1 = CTH_STATE_RUNNING;
  sd_fields : t_pool x1 = t_pool x ∧ t_type x1 = t_type x ∧ t_joiners x1 = t_joiners x ∧ cth x1 = None;
  sd_alone : left_alone t (xw g) (xw g1);
  sd_pools : erase_store <$> w_pools (xw g1) = erase_store <$> w_pools (xw g);
  sd_cth : xcth g1 = xcth g;
}.
(** It has returned in [g2], the pools holding [V2] and its joiners asleep. *)
Record returned V2 t x2 g2 : Prop := {
  rn_holds : pools_hold (xw g2) V2;
  rn_thread : w_threads (xw g2) !! t = Some x2;
  rn_idle : in_pool x2 = false ∧ removed x2 = false;
  rn_leave : can_leave (xw g2) x2;
  rn_cth : cth x2 = None;
  rn_joiners : all_asleep g2 V2 (t_joiners x2);
}.
Lemma returned_retires me V2 t x2 g2 : returned V2 t x2 g2 →
  let y := x2 <| tstate := CTH_STATE_TERMINATED |> in
  wp (ABTI_thread_terminated me t) (λ _ g', retired V2 t y g2 g') (g2 <| xw ::= λ w, w <| w_threads ::= insert t y |> |>).
Proof.
  intros [Hh Hx [Hin Hrm] Hl Hc Hs] y. set (g3 := g2 <| xw ::= _ |>).
  assert (w_threads (xw g3) = <[t := y]> (w_threads (xw g2))) as Et by done.
  destruct (joiners_kept g2 g3 V2 (t_joiners x2) t x2 y Hx Hc Hc eq_refl Et eq_refl Hs) as (Hs3 & Ej & _).
  eapply wp_mono; [apply (terminated_retires me V2 t y g3)|].
  - eapply holds_other; [exact Hh|]. by refine (moved_thread (xw g2) (xw g3) t x2 y Hx Hin _ _ _ Et).
  - rewrite Et. apply lookup_insert_eq.
  - done.
  - done.
  - exact Hl.
  - exact Hc.
  - exact Hs3.
  - intros [] g4 [R1 R2 R3 R4 R5]. change (t_joiners y) with (t_joiners x2) in *. rewrite Ej in R2, R3.
    split; [done..|]. intros u Hu Hid Hnu.
    assert (w_threads (xw g3) !! u = w_threads (xw g2) !! u) as E1 by (by rewrite Et, lookup_insert_ne).
    rewrite R5; [done|done|unfold idle_in; by rewrite E1|]. intros k Hk. rewrite (thread_on_same k (xw g2) (xw g3)); [by apply Hnu|].
    rewrite Et, fmap_insert. apply insert_id. rewrite lookup_fmap, Hx. done.
Qed.

(** C20: a PE that polls a pool whose oldest unit is a tasklet runs it once.  The
    tasklet leaves the queue, its function is called on its argument, with the
    tasklet as the calling unit and in the state RUNNING.  When that call has
    returned, with the threads that joined the tasklet asleep, each of them is
    made ready and nobody else: it is counted as blocked no longer and queued in
    the pool it belongs to (or was asked to migrate to), in the order of the
    joins, behind what the pools held; a named tasklet is left terminated, a
    detached one is freed.  The callers' interleaving with the end of the unit is
    the subject of C15. *)
Theorem poll_runs_tasklet call resume c r p g V t l x f (Ψ : ABTI_thread → gmap Z (list ptr) → xst → Prop) :
  pools_hold (xw g) V → V !! p = Some (t :: l) → pinned_in r (xw g) t = false →
  w_threads (xw g) !! t = Some x → cth x = None → fn x = Some f → my_self c = None →
  (∀ g1 x1, started V p l t x g g1 x1 →
    wp (call f (arg x) (mk_caller (my_pe c) (Some t))) (λ _ g2, ∃ x2 V2, returned V2 t x2 g2 ∧ Ψ x2 V2 g2) g1) →
  wp (ABTI_poll_pool call resume c r p) (λ n g', n = 1 ∧ ∃ x2 V2 g2, Ψ x2 V2 g2 ∧
    retired V2 t (x2 <| tstate := CTH_STATE_TERMINATED |>) g2 g') g.
Proof.
  intros Hh Hl Hpin Hx Hc Hf Hself Hcall. unfold ABTI_poll_pool. wp_step. apply wp_lift.
  eapply wp_mono; [by eapply pop_holds|]. intros u w1 (l' & Hu & Hh1 & F & Hid & Hsame).
  assert (u = Some t ∧ l' = l) as [-> ->] by (destruct (consumer_of (xw g) p); simpl in Hu; rewrite Hpin in Hu; by simplify_eq).
  destruct (Hid t eq_refl) as (y & Hy & Hin & Hrm). pose proof (framed_thread _ _ _ _ _ F Hx) as Hfr.
  unfold thread_is in Hfr. rewrite Hy in Hfr. simpl in Hfr. apply (inj Some) in Hfr.
  wp_step. apply wp_lift. apply wp_emit. wp_step. unfold ABTI_pool_run_thread, parent_of. rewrite Hself.
  wp_step. wp_step. wp_step. apply wp_lift. eapply wp_set_thread; [simpl; exact Hy|]. wp_step. wp_step. wp_step. apply wp_lift.
  eapply wp_set_thread; [simpl; apply lookup_insert_eq|]. wp_step. apply wp_lift.
  eapply wp_thread; [simpl; apply lookup_insert_eq|].
  assert (cth y = cth x ∧ fn y = fn x ∧ arg y = arg x ∧ t_pool y = t_pool x ∧ t_type y = t_type x ∧ t_joiners y = t_joiners x)
    as (Ec & Ef & Ea & Epl & Ety & Ej).
  { split_and!; [exact (f_equal cth Hfr)|exact (f_equal fn Hfr)|exact (f_equal arg Hfr)|exact (f_equal t_pool Hfr)|
      exact (f_equal t_type Hfr)|exact (f_equal t_joiners Hfr)]. }
  simpl cth. rewrite Ec, Hc. wp_step. apply wp_lift. eapply wp_set_thread; [simpl; apply lookup_insert_eq|].
  simpl fn. rewrite Ef, Hf. wp_step. cbn [deref]. wp_step. wp_step. simpl arg. rewrite Ea.
  match goal with |- wp _ _ ?g1' => set (g1 := g1') end.
  assert (∃ y1, w_threads (xw g1) = <[t := y1]> (w_threads w1) ∧ queue_of y1 = queue_of y ∧ tstate y1 = CTH_STATE_RUNNING ∧
    t_pool y1 = t_pool y ∧ t_type y1 = t_type y ∧ t_joiners y1 = t_joiners y ∧ cth y1 = cth y)
    as (y1 & Et & Eq1 & Es1 & Ep1 & Et1 & Ej1 & Ec1) by (eexists; split; [simpl; by rewrite !insert_insert_eq|done]).
  assert (xcth g1 = xcth g ∧ w_pools (xw g1) = w_pools w1 ∧ w_brk (xw g1) = w_brk w1) as (Ecg & Epg & Ebg) by done.
  assert (in_pool y1 = false ∧ removed y1 = false) as Hid1 by (unfold queue_of in Eq1; simplify_eq; split; congruence).
  clearbody g1. eapply wp_mono; [apply (Hcall g1 y1)|].
  - split; [|by rewrite Et, lookup_insert_eq|done|done|split_and!; congruence| |by rewrite Epg; apply F|done].
    + eapply holds_other; [exact Hh1|]. by refine (moved_thread w1 (xw g1) t y y1 Hy Hin Eq1 Epg Ebg Et).
    + eapply (la_trans t (xw g) w1 (xw g1)); [by eapply la_frame; [exact F|]; intros; apply Hsame|].
      by eapply (la_insert t w1 (xw g1) y y1).
  - intros [] g2 (x2 & V2 & Hret & HΨ). wp_step. apply wp_lift. eapply wp_set_thread; [apply Hret|].
    eapply wp_mono; [by apply (returned_retires _ V2)|]. intros [] g4 Hr. wp_step. split; [done|]. by exists x2, V2, g2.
Qed.
End tasklet.
