(* ===== verification/Yield.v ===== *)
(** * Yielding to the next unit

    [ABTI_choose_fn] of src/xstream.cpp runs on the stack of a suspending ULT
    and says where the PE goes next: back to the ULT that resumed it, directly
    to the next unit of the PE's scheduler, or to the scheduling thread.  A unit
    that has been popped and cannot be switched to is parked on the PE.  The
    counters printed by [ABT_finalize] are left out. *)

From S2P Require Import Prelude AbtTypes Config Objects Storage PoolList Sleepers PoolMpsc Pool.
From S2P Require Import PoolWorld PoolApi Sched SchedSpec Sync Thread Xstream XstreamPe.

(** The Converse threads: whether one is the main thread of a PE, and marking a
    ready one as running ([None]: it is not ready). *)
Class Switch `{Cth} : Type := {
  CthIsPeMainThread : Z → cth_st → bool;
  CthClaimReady : Z → cth_st → option cth_st;
}.
(** What the suspending thread switches to. *)
Inductive next : Type :=
  | ToThread (c : Z)
  | ToScheduler.

Section yield.
Context `{E : Ext, R : Csd, C : Cth} {W : Switch}.

(** the end of a chain of direct switches *)
Definition to_scheduler (r : Z) : M xst next :=
  set_pe r (λ p, p <| last_chain := direct_count p |> <| direct_count := 0 |>) ;; mret ToScheduler.
Definition park (r : Z) (t : ptr) : M xst next :=
  set_pe r (λ p, p <| tls_held := Some t |>) ;; to_scheduler r.
(** index of the pool [p] among those of a scheduler, their number when absent *)
Definition rank_of (p : option ptr) (ps : list ptr) : nat :=
  match p with Some p => index_of p ps | None => length ps end.
(** The unit [y] comes from a later pool than that of the yielding thread [x]. *)
Definition lower (yl : bool) (x y : ABTI_thread) (ps : list ptr) : bool :=
  yl && negb (bool_decide (t_pool y = t_pool x)) && (rank_of (t_pool x) ps <? rank_of (t_pool y) ps)%nat.

(** The unit [t] that a suspending thread [x] has popped on stream [xs]. *)
Definition switch_to (r : Z) (x : ABTI_thread) (xs s t : ptr) : M xst next :=
  p ← this_pe r;
  y ← lift (thread t);
  d ← lift (sched s);
  if lower (yielding p) x y (pools d) then park r t else
  g ← get;
  match cth y with
  | None => park r t
  | Some c =>
      if CthIsPeMainThread c (xcth g) then park r t else
      match CthClaimReady c (xcth g) with
      | None => fail (Aborted "yield-to-next popped a ULT that is not READY"%string)
      | Some k =>
          modify (λ g, g <| xcth := k |>) ;;
          set_pe r (λ p, p <| direct_count := wrapu32 (direct_count p + 1) |>) ;;
          lift (set_thread t (λ y, y <| last_xstream := Some xs |> <| t_parent := None |>)) ;;
          mret (ToThread c)
      end
  end.

(** [me]: the suspending thread, if it is one of the library's. *)
Definition ABTI_choose_fn (r : Z) (me : option ptr) : M xst next :=
  x ← (match me with Some t => x ← lift (thread t); mret (Some x) | None => mret None end);
  match x ≫= t_parent with
  | Some c => mret (ToThread c)
  | None =>
      p ← this_pe r;
      g ← get;
      if direct_burst g =? 0 then to_scheduler r else
      match x, tls_xstream p with
      | Some x, Some xs =>
          o ← xstream xs;
          match main_sched o with
          | None => to_scheduler r
          | Some s =>
              d ← lift (sched s);
              if negb (user_def d) && is_null (tls_held p) && (direct_count p <? direct_burst g) &&
                 negb (finishing o) && (Z.land (request d) ABTI_SCHED_REQ_EXIT =? 0) then
                t ← lift (ABTI_sched_pop_by_policy r s);
                match t with
                | Some t => switch_to r x xs s t
                | None => to_scheduler r
                end
              else to_scheduler r
          end
      | _, _ => to_scheduler r
      end
  end.

(** ** What a suspending thread switches to *)

Implicit Types (V : gmap Z (list ptr)) (g : xst) (p : pe) (x y : ABTI_thread).

(** The PE may switch directly. *)
Definition chains g p (o : ABTI_xstream) (d : ABTI_sched) : bool :=
  negb (direct_burst g =? 0) && (negb (user_def d) && is_null (tls_held p) && (direct_count p <? direct_burst g) &&
    negb (finishing o) && (Z.land (request d) ABTI_SCHED_REQ_EXIT =? 0)).
(** Why the popped unit [y] is parked. *)
Definition unswitchable g p x y (ps : list ptr) : bool :=
  lower (yielding p) x y ps || match cth y with Some c => CthIsPeMainThread c (xcth g) | None => true end.
(** The state of PE [r] after a choice: the chain grows by one within its
    bound, or ends and is reported. *)
Definition chained g p (n : next) (p' : pe) : Prop :=
  match n with
  | ToScheduler => direct_count p' = 0 ∧ last_chain p' = direct_count p
  | ToThread _ => direct_count p' = direct_count p + 1 ∧ direct_count p' ≤ direct_burst g
  end.

Lemma to_scheduler_wp r g p : pes g !! r = Some p →
  wp (to_scheduler r) (λ n g', n = ToScheduler ∧
    g' = g <| pes ::= insert r (p <| last_chain := direct_count p |> <| direct_count := 0 |>) |>) g.
Proof. intros Hp. unfold to_scheduler. wp_step. eapply wp_set_pe; [exact Hp|]. by wp_step. Qed.
Lemma park_wp r t g p : pes g !! r = Some p →
  wp (park r t) (λ n g', n = ToScheduler ∧ ∃ p', g' = g <| pes ::= insert r p' |> ∧
    tls_held p' = Some t ∧ chained g p ToScheduler p') g.
Proof.
  intros Hp. unfold park. wp_step. eapply wp_set_pe; [exact Hp|]. eapply wp_mono; [apply to_scheduler_wp; simpl; by rewrite lookup_insert_eq|].
  intros n g' [-> ->]. split; [done|].
  exists (p <| tls_held := Some t |> <| last_chain := direct_count p |> <| direct_count := 0 |>). split; [|done].
  destruct g. unfold upd. simpl. by rewrite insert_insert_eq.
Qed.

Lemma switch_wp r x xs s t g V p d y :
  pools_hold (xw g) V → pes g !! r = Some p → w_scheds (xw g) !! s = Some d → w_threads (xw g) !! t = Some y →
  in_pool y = false → 0 ≤ direct_count p < direct_burst g → direct_burst g < 2 ^ 32 →
  (∀ c, cth y = Some c → is_Some (CthClaimReady c (xcth g))) →
  wp (switch_to r x xs s t) (λ n g', ∃ p' y', pools_hold (xw g') V ∧ pes g' !! r = Some p' ∧ chained g p n p' ∧
    w_threads (xw g') !! t = Some y' ∧ cth y' = cth y ∧ t_pool y' = t_pool y ∧
    if unswitchable g p x y (pools d) then n = ToScheduler ∧ tls_held p' = Some t
    else tls_held p' = tls_held p ∧ last_xstream y' = Some xs ∧ t_parent y' = None ∧ ∃ c, n = ToThread c ∧ cth y = Some c) g.
Proof.
  intros Hh Hp Hs Ht Hin Hc Hb Hcl. assert (g <| xw := xw g |> = g) as Hid by (by destruct g).
  assert (∀ n g' p', n = ToScheduler → g' = g <| pes ::= insert r p' |> → tls_held p' = Some t → chained g p ToScheduler p' →
    ∃ p' y', pools_hold (xw g') V ∧ pes g' !! r = Some p' ∧ chained g p n p' ∧ w_threads (xw g') !! t = Some y' ∧
      cth y' = cth y ∧ t_pool y' = t_pool y ∧ n = ToScheduler ∧ tls_held p' = Some t) as Hpark.
  { intros n g' p' -> -> Hheld Hch. exists p', y. simpl. rewrite lookup_insert_eq. done. }
  unfold switch_to, unswitchable. wp_step. eapply wp_this_pe; [exact Hp|]. wp_step. apply wp_lift. eapply wp_thread; [exact Ht|].
  rewrite Hid. wp_step. apply wp_lift. eapply wp_sched; [exact Hs|]. rewrite Hid.
  destruct (lower _ _ _ _); cbn [orb].
  { eapply wp_mono; [by eapply park_wp|]. intros n g' (-> & p' & -> & ? & ?). by eapply Hpark. }
  wp_step. wp_step. destruct (cth y) as [c|] eqn:Hcth.
  2:{ eapply wp_mono; [by eapply park_wp|]. intros n g' (-> & p' & -> & ? & ?). by eapply Hpark. }
  destruct (CthIsPeMainThread c (xcth g)).
  { eapply wp_mono; [by eapply park_wp|]. intros n g' (-> & p' & -> & ? & ?). by eapply Hpark. }
  destruct (Hcl c eq_refl) as [k ->]. wp_step. wp_step. wp_step. eapply wp_set_pe; [exact Hp|]. wp_step. apply wp_lift.
  eapply wp_set_thread; [exact Ht|]. wp_step.
  eexists _, _. split; [|split; [simpl; by rewrite lookup_insert_eq|]].
  { eapply holds_other; [exact Hh|]. eapply (other_fields_thread _ t y); [exact Ht|done|done]. }
  split. { simpl. rewrite wrapu32_small by lia. split; lia. }
  split; [simpl; by rewrite lookup_insert_eq|]. by split_and!; try exists c.
Qed.

(** Every unit queued for the scheduler can be resumed. *)
Definition claimable g V (ps : list ptr) : Prop := ∀ k l t y c, k ∈ ps → V !! k = Some l → t ∈ l →
  w_threads (xw g) !! t = Some y → cth y = Some c → is_Some (CthClaimReady c (xcth g)).

(** C18: yielding to the next unit.  Consider a PE whose main scheduler has a
    policy other than RANDWS (which may take a unit from another pool than the
    first non-empty one, sched.cpp:161-167), where no queued unit is pinned to
    another PE and every queued ULT can be claimed for a switch.  A ULT that
    suspends there, and was not resumed by another ULT, takes the oldest unit of
    the first non-empty pool when the scheduler is predefined, direct switches
    are on, the chain is shorter than its bound, nothing is parked and the
    scheduler is not finishing.  It switches to that unit, which then belongs to the stream, has
    no parent and, if the ULT is yielding, comes from no later pool than its
    own; or, when that is not possible (a tasklet, a main thread of a PE, a later
    pool), parks it and goes to the scheduler.  No unit is lost, the chain
    never exceeds the bound, and the scheduler is told the length of the chain. *)
Theorem yield_next_unit r me g V p x xs o s d :
  pools_hold (xw g) V → pes g !! r = Some p → w_threads (xw g) !! me = Some x → t_parent x = None →
  tls_xstream p = Some xs → xheap g !! xs = Some o → main_sched o = Some s → w_scheds (xw g) !! s = Some d →
  predef d ≠ ABT_SCHED_RANDWS → (∀ k, k ∈ pools d → is_Some (V !! k)) → resumable r (xw g) V (pools d) →
  claimable g V (pools d) → 0 ≤ direct_count p → direct_burst g < 2 ^ 32 →
  wp (ABTI_choose_fn r (Some me)) (λ n g', ∃ p', pes g' !! r = Some p' ∧ chained g p n p' ∧
    if chains g p o d then
      n = ToScheduler ∧ all_empty V (pools d) ∧ pools_hold (xw g') V ∧ tls_held p' = None ∨
      ∃ t V' y, first_of V (pools d) t V' ∧ pools_hold (xw g') V' ∧ w_threads (xw g') !! t = Some y ∧
        if unswitchable g p x y (pools d) then n = ToScheduler ∧ tls_held p' = Some t
        else tls_held p' = None ∧ last_xstream y = Some xs ∧ t_parent y = None ∧
          (∃ c, n = ToThread c ∧ cth y = Some c) ∧
          (yielding p = true → (rank_of (t_pool y) (pools d) ≤ rank_of (t_pool x) (pools d))%nat)
    else n = ToScheduler ∧ xw g' = xw g ∧ tls_held p' = tls_held p) g.
Proof.
  intros Hh Hp Hx Hpar Hxs Ho Hs Hd Hpd HV Hr Hcl Hc0 Hb. assert (g <| xw := xw g |> = g) as Hid by (by destruct g).
  assert (chains g p o d = false → wp (to_scheduler r) (λ n g', ∃ p', pes g' !! r = Some p' ∧ chained g p n p' ∧
    n = ToScheduler ∧ xw g' = xw g ∧ tls_held p' = tls_held p) g) as Hno.
  { intros _. eapply wp_mono; [by apply to_scheduler_wp|]. intros n g' [-> ->]. eexists. simpl.
    rewrite lookup_insert_eq. split; [reflexivity|]. done. }
  unfold ABTI_choose_fn. wp_step. wp_step. apply wp_lift. eapply wp_thread; [exact Hx|]. wp_step. rewrite Hid. simpl. rewrite Hpar.
  wp_step. eapply wp_this_pe; [exact Hp|]. wp_step. wp_step. unfold chains in *.
  destruct (direct_burst g =? 0); cbn [negb andb] in *; [by apply Hno|]. rewrite Hxs. wp_step.
  eapply wp_xstream; [exact Ho|]. rewrite Hs. wp_step. apply wp_lift. eapply wp_sched; [exact Hd|]. rewrite Hid.
  destruct (_ && _) eqn:Hch; [|by apply Hno]. clear Hno. repeat apply andb_prop in Hch as [Hch ?].
  assert (tls_held p = None) as Hheld by (by destruct (tls_held p)).
  wp_step. apply wp_lift. eapply wp_mono; [by apply policy_pop|]. intros [t|] w' (Hres & Hsc & Hth & _).
  - destruct Hres as (V' & Hf & Hh' & (y & Hy & Hin & _)). pose proof Hf as (i & k & l & Hk & Hl & _).
    destruct (erased_lookup _ _ _ _ Hth Hy) as (y0 & Hy0 & He).
    eapply wp_mono; [eapply (switch_wp r x xs s t (g <| xw := w' |>) V' p d y); try done; simpl|].
    + by rewrite Hsc.
    + lia.
    + intros c Hcth. eapply (Hcl k (t :: l) t y0); [by eapply list_elem_of_lookup_2|done|by left|done|].
      by rewrite <- (f_equal cth He : cth y = cth y0).
    + intros n g' (p' & y' & Hh2 & Hp' & Hch' & Hy' & Ec & Ep & Hn). exists p'. split_and!; [done..|].
      right. exists t, V', y'. split_and!; [done..|].
      assert (unswitchable g p x y' (pools d) = unswitchable (g <| xw := w' |>) p x y (pools d)) as ->
        by (unfold unswitchable, lower; by rewrite Ec, Ep).
      destruct (unswitchable _ _ _ _ _) eqn:Hun; [done|]. destruct Hn as (Eh & El & Et & c & -> & Hcth).
      split_and!; [congruence|done|done|exists c; split; congruence|]. intros Hyl.
      apply orb_false_iff in Hun as [Hun _]. unfold lower in Hun. rewrite Hyl, Ep in *. simpl in Hun.
      destruct (bool_decide (t_pool y = t_pool x)) eqn:Hsame; [apply bool_decide_eq_true in Hsame; by rewrite Hsame|].
      simpl in Hun. apply Nat.ltb_ge in Hun. done.
  - destruct Hres as [He Hh']. eapply wp_mono; [apply to_scheduler_wp; exact Hp|]. intros n g' [-> ->]. eexists. simpl.
    rewrite lookup_insert_eq. split; [reflexivity|]. split; [done|]. left. done.
Qed.
End yield.
