(* ===== verification/Init.v ===== *)
(** * Initialization and finalization

    src/init.cpp: the process with the library's global object, the reference
    count of [ABT_init], and the start of the runtime.  [ABT_init] is modelled up
    to the state its callers see; what the runtime itself does when it starts (one
    pthread per PE, empty queues) is [CsdStart].  [ABT_finalize] lets the
    other threads run until the primary stream's pools are empty: [others] is what
    one yield lets them do. *)

From Stdlib Require Import Ascii String.
From S2P Require Import Prelude AbtTypes Config Objects Storage PoolList Sleepers PoolMpsc Pool.
From S2P Require Import Info Sched Sync Thread Xstream.

(** ** The process *)

Record process `{Ext, Csd, Cth} : Type := mk_process {
  px : xst;
  (** [ABTI_g] is not null *)
  has_global : bool;
  g_init_refs : Z;
  g_runtime_started : bool;
  g_runtime_pid : Z;
}.
Arguments process {_ _ _}.

(** Starting the runtime with [n] PEs: its queues, and the pthread of each PE. *)
Class Start `{Csd} : Type := {
  CsdStart : Z → csd_st;
  pthread_of : Z → Z;
}.
Class StartLaws `{Start} : Prop := start_empty n r : pending r (CsdStart n) = [].

(** [strtoul(v, nullptr, 10)] *)
Definition ULONG_MAX : Z := 2 ^ 64 - 1.
Definition strtoul (v : string) : Z :=
  let s := skip_space v in
  let '(neg, s) := match s with
                   | String "+"%char s' => (false, s')
                   | String "-"%char s' => (true, s')
                   | _ => (false, s)
                   end in
  let n := (digits 0 s).1 in
  if n >? ULONG_MAX then ULONG_MAX else if neg : bool then wrapu64 (- n) else n.
Definition burst (env : environ) : Z :=
  match env "ABT_RECONVERSE_YIELD_TO_NEXT"%string with
  | None | Some EmptyString => 16
  | Some v => wrapu32 (strtoul v)
  end.

Section init.
Context `{E : Ext, R : Csd, C : Cth} {B : Start}.
#[global] Instance eta_process : Eta process := λ p,
  mk_process _ _ _ (px p) (has_global p) (g_init_refs p) (g_runtime_started p) (g_runtime_pid p).

Definition on_x {A} (m : M xst A) : M process A := λ p,
  match m (px p) with Done v g => Done v (p <| px := g |>) | Faulted f => Faulted f end.
Definition ABTI_initialized (p : process) : bool := has_global p && g_initialized (xw (px p)).
Definition ABT_initialized (p : process) : Z := if ABTI_initialized p then ABT_SUCCESS else ABT_ERR_UNINITIALIZED.

(** ** ABT_init *)

(** [new ABTI_global()] and its sizes *)
Definition new_global (sz : sizes) (k : Z) (g : xst) : xst :=
  g <| xw ::= λ w, w <| g_initialized := false |> <| g_next_id := 1 |> <| g_next_key := 0 |>
                     <| g_num_user_pools := 0 |> <| g_units := ∅ |> <| g_default_stacksize := default_stacksize sz |> |>
    <| num_pes := Info.num_pes sz |> <| direct_burst := k |>
    <| xstreams := replicate (Z.to_nat (Info.num_pes sz)) None |> <| primary_xstream := None |> <| primary_thread := None |>.
(** the PEs after [per_pe_setup]; those above rank 0 sleep when idle *)
Definition started_pe (r : Z) : pe := mk_pe None None 0 0 false TDefault (0 <? r) (pthread_of r) [].
Definition started_pes (n : nat) : gmap Z pe := list_to_map ((λ r, (Z.of_nat r, started_pe (Z.of_nat r))) <$> seq 0 n).
Definition start_runtime (n pid : Z) (p : process) : process :=
  p <| px ::= λ g, g <| pes := started_pes (Z.to_nat n) |> <| csd := CsdStart n |> |>
    <| g_runtime_started := true |> <| g_runtime_pid := pid |>.
(** the runtime a forked child has inherited is given up *)
Definition forked (pid : Z) (p : process) : bool :=
  has_global p && g_runtime_started p && negb (pid =? g_runtime_pid p).
Definition start_over (p : process) : process :=
  p <| has_global := false |> <| g_runtime_started := false |> <| g_init_refs := 0 |>.

(** [ABTI_thread_wrap_primary] *)
Definition wrapped_primary (c id : Z) : ABTI_thread :=
  blank_thread <| cth := Some c |> <| t_type := ABTI_THREAD_PRIMARY |> <| t_attr := mk_attr 0 None ABT_TRUE |> <| t_id := id |>.
Definition ABTI_thread_wrap_primary (c : Z) (p : ptr) : M world ptr :=
  id ← fetch_id; t ← put_thread (wrapped_primary c id); ABTI_pool_associate t p ;; mret t.

(** the primary stream on PE 0; [c] is the Converse thread of the caller *)
Definition init_primary (c : Z) : M xst unit :=
  r ← lift (ABTI_sched_create_predef ABT_SCHED_DEFAULT 0 None);
  s ← deref r.1.2;
  x ← put_xstream (new_xstream 0 s true);
  lift (set_sched s (λ d, d <| used_by := Some x |>)) ;;
  modify (λ g, g <| xstreams ::= insert 0%nat (Some x) |> <| primary_xstream := Some x |>) ;;
  set_pe 0 (λ p, p <| tls_xstream := Some x |>) ;;
  d ← lift (sched s);
  p0 ← deref (head (pools d));
  t ← lift (ABTI_thread_wrap_primary c p0);
  modify (λ g, g <| primary_thread := Some t |>) ;;
  CsdSchedTableInstall 0 (ABTI_sched_build_table s) ;;
  set_pe 0 (λ p, p <| sleep_on_idle := false |>) ;;
  modify (λ g, g <| xw ::= λ w, w <| g_initialized := true |> |>).

Definition ABT_init (env : environ) (cores pid c : Z) : M process Z :=
  p ← get;
  if ABTI_initialized p then modify (λ p, p <| g_init_refs ::= λ n, wraps32 (n + 1) |>) ;; mret ABT_SUCCESS else
  when (forked pid p) (modify start_over) ;;
  p ← get;
  (if has_global p then mret tt else
   match init_sizes env cores with
   | None => fail (Aborted "maxx + 1"%string)
   | Some sz =>
       modify (λ p, p <| px ::= new_global sz (burst env) |> <| has_global := true |>) ;;
       modify (start_runtime (Info.num_pes sz) pid)
   end) ;;
  on_x (init_primary c) ;;
  modify (λ p, p <| g_init_refs := 1 |>) ;; mret ABT_SUCCESS.

(** ** ABT_finalize *)

Definition queued (r : Z) (x : ptr) : M xst Z :=
  p ← this_pe r;
  o ← xstream x;
  s ← deref (main_sched o);
  d ← lift (sched s);
  n ← lift (sum_pools (λ _ n, n) (pools d));
  mret (wrapu64 ((if non_null (tls_held p) then 1 else 0) + n)).
(** [CthYield] until nothing is queued, at most [fuel] times *)
Fixpoint drain (fuel : nat) (r : Z) (x : ptr) (others : M xst unit) : M xst unit :=
  n ← queued r x;
  if n =? 0 then mret tt else
  match fuel with
  | O => fail OutOfFuel
  | S fuel => others ;; drain fuel r x others
  end.

(** the primary thread and stream go *)
Definition fini_primary (r : Z) (x t : ptr) : M xst unit :=
  modify (λ g, g <| xw ::= λ w, w <| g_initialized := false |> |>) ;;
  lift (ABTI_pool_disassociate t ;; thread t ;; modify (λ w, w <| w_threads ::= delete t |>)) ;;
  modify (λ g, g <| primary_thread := None |>) ;;
  o ← xstream x;
  s ← deref (main_sched o);
  lift (set_sched s (λ d, d <| used_by := None |>) ;; ABTI_sched_destroy s) ;;
  modify (λ g, g <| xstreams ::= insert 0%nat None |> <| primary_xstream := None |>) ;;
  set_pe r (λ p, p <| tls_xstream := None |>) ;;
  modify (λ g, g <| xheap ::= delete x |>) ;;
  CsdSchedTableInstall 0 TDefault.

(** a secondary stream is left *)
Definition secondary (g : xst) : bool :=
  existsb non_null (take (Z.to_nat (num_pes g - 1)) (drop 1 (xstreams g))).
Definition ABT_finalize (c : caller) (fuel : nat) (others : M xst unit) : M process Z :=
  p ← get;
  if negb (ABTI_initialized p) then mret ABT_ERR_UNINITIALIZED else
  if g_init_refs p >? 1 then modify (λ p, p <| g_init_refs ::= Z.pred |>) ;; mret ABT_SUCCESS else
  let g := px p in
  match my_pe c with
  | None => mret ABT_ERR_INV_XSTREAM
  | Some r =>
      if negb (bool_decide (my_xstream c g = primary_xstream g)) then mret ABT_ERR_INV_XSTREAM else
      if negb (bool_decide (my_self c = primary_thread g)) then mret ABT_ERR_INV_THREAD else
      if secondary g then mret ABT_ERR_INV_XSTREAM else
      modify (λ p, p <| g_init_refs := 0 |>) ;;
      x ← deref (primary_xstream g);
      t ← deref (primary_thread g);
      on_x (drain fuel r x others) ;;
      on_x (fini_primary r x t) ;;
      mret ABT_SUCCESS
  end.

(** ** Exit of the process *)

Fixpoint ask_exit (l : list (option ptr)) : M xst unit :=
  match l with
  | [] => mret tt
  | None :: l => ask_exit l
  | Some x :: l =>
      o ← xstream x;
      (match main_sched o with
       | Some s => d ← lift (sched s); when (user_def d) (lift (set_sched s (λ d, d <| request ::= λ q, Z.lor q ABTI_SCHED_REQ_EXIT |>)))
       | None => mret tt
       end) ;;
      ask_exit l
  end.
Definition shutdown_runtime (r : option Z) : M process unit :=
  p ← get;
  if negb (g_runtime_started p && bool_decide (r = Some 0)) then mret tt else
  when (has_global p) (on_x (g ← get; ask_exit (xstreams g))) ;;
  modify (λ p, p <| g_runtime_started := false |>).
End init.

(** ** Handlers

    Every PE registers its handlers, counting from what the runtime has
    registered on it before; the first one publishes the indices and the others
    compare. *)

Record handlers : Type := mk_handlers {
  h_lease : Z;
  h_affinity : Z;
  h_run : Z;
  h_release : Z;
}.
#[global] Instance eta_handlers : Eta handlers := λ h, mk_handlers (h_lease h) (h_affinity h) (h_run h) (h_release h).
Definition unset : handlers := mk_handlers (-1) (-1) (-1) (-1).
(** [compare_exchange] from -1; anything else that is there already has to be [v] *)
Definition publish (get_ : handlers → Z) (set_ : Z → handlers → handlers) (v : Z) : M handlers unit :=
  h ← get;
  if get_ h =? -1 then modify (set_ v) else
  if get_ h =? v then mret tt else fail (Aborted "abt: handler indices differ across PEs").
(** [n]: the index the next handler of the calling PE gets *)
Definition ABTI_register_handlers (n : Z) : M handlers unit :=
  publish h_lease (λ v h, h <| h_lease := v |>) n ;;
  publish h_affinity (λ v h, h <| h_affinity := v |>) (n + 1) ;;
  publish h_run (λ v h, h <| h_run := v |>) (n + 2) ;;
  publish h_release (λ v h, h <| h_release := v |>) (n + 3).
