(* ===== verification/InitSpec.v ===== *)
(** * What initialization and finalization promise

    The state [ABT_init] leaves is the one the theorems of [XstreamSpec] start
    from; finalizing undoes it; nested initializations are only counted; a
    refused finalization changes nothing; and draining ends. *)

From S2P Require Import Prelude AbtTypes Config Objects Storage PoolList Sleepers PoolMpsc Pool.
From S2P Require Import PoolWorld PoolApi ConfigApi Info Sched SchedSpec SchedLife Sync Thread ThreadSpec.
From S2P Require Import Xstream XstreamJoin XstreamSafe XstreamPe XstreamSpec Init.

Section spec.
Context `{E : Ext, R : Csd, C : Cth} {B : Start} {HC : CthLaws} {HR : CsdLaws} {HB : StartLaws}.
Implicit Types (w : world) (V : gmap Z (list ptr)) (g : xst) (p : process) (env : environ).

Lemma rule_range env cores n : ABTI_num_pes_rule env cores = Some n → 2 ≤ n ≤ 256.
Proof.
  unfold ABTI_num_pes_rule. intros (m & _ & [= <-])%bind_Some.
  assert (∀ k, 2 ≤ k ≤ 256 → 2 ≤ wraps32 k ≤ 256) as Hw by (intros k Hk; rewrite wraps32_small; lia).
  apply Hw. destruct (m <? 2) eqn:H1; simpl; [lia|]. destruct (m >? 256) eqn:H2; lia.
Qed.

(** ** Exact effects *)

(** The scheduler and the pool of the primary stream. *)
Definition first_pool w : ABTI_pool := made_pool ABT_POOL_FIFO (g_next_id w) <| num_scheds ::= Z.succ |>.
Lemma create_default w :
  wp (ABTI_sched_create_predef ABT_SCHED_DEFAULT 0 None) (λ r w', let s := w_brk w in
    r = (ABT_SUCCESS, Some s, None) ∧ w_brk w' = s + 2 ∧ w_threads w' = w_threads w ∧
    w_pools w' = <[s + 1 := first_pool w]> (w_pools w) ∧
    w_scheds w' = <[s := new_sched ABT_SCHED_DEFAULT [s + 1]]> (w_scheds w) ∧
    g_initialized w' = g_initialized w) w.
Proof.
  unfold wp, ABTI_sched_create_predef, own_pool, ABTI_pool_create_builtin, put_pool, own_pools, fetch_id, new_addr.
  unfold mbind, M_bind, mret, M_ret, modify, add_scheds, set_pool. simpl.
  unfold mbind, M_bind, mret, M_ret. simpl. rewrite lookup_insert_eq. cbn [w_brk].
  replace (w_brk w + 1) with (Z.succ (w_brk w)) by lia. split_and!; try done; simpl; [lia|].
  rewrite insert_insert_eq. unfold first_pool, made_pool. change (ABT_POOL_ACCESS_MPMC <=? ABT_POOL_ACCESS_MPSC) with false. reflexivity.
Qed.
Lemma create_default_holds w V : pools_hold w V →
  wp (ABTI_sched_create_predef ABT_SCHED_DEFAULT 0 None) (λ r w', let s := w_brk w in
    r = (ABT_SUCCESS, Some s, None) ∧ w_brk w' = s + 2 ∧ w_threads w' = w_threads w ∧
    w_pools w' = <[s + 1 := first_pool w]> (w_pools w) ∧
    w_scheds w' = <[s := new_sched ABT_SCHED_DEFAULT [s + 1]]> (w_scheds w) ∧
    g_initialized w' = g_initialized w ∧ pools_hold w' (<[s + 1 := []]> V)) w.
Proof.
  intros Hh. eapply wp_mono; [eapply wp_and; [apply create_default|]|].
  { apply (create_predef_holds w V ABT_SCHED_DEFAULT 0 None); [done|by vm_compute|lia|done]. }
  intros r w' [(Hr & Hb & Ht & Hp & Hs & Hi) (cs & _ & Hs' & Hlen & _ & _ & Hh' & _)]. split_and!; try done.
  rewrite Hs in Hs'. assert (fill (handles_of ABT_SCHED_DEFAULT 0 None) cs = [w_brk w + 1]) as Hf.
  { apply (f_equal (lookup (w_brk w))) in Hs'. rewrite !lookup_insert_eq in Hs'. injection Hs' as Hs'. done. }
  destruct cs as [|c [|]]; [done| |done]. change (fill (handles_of ABT_SCHED_DEFAULT 0 None) [c]) with [c] in Hf.
  injection Hf as ->. assert (empties [w_brk w + 1] ∪ V = <[w_brk w + 1 := []]> V) as <-; [|done].
  apply map_eq. intros q. rewrite lookup_union, empties_lookup, lookup_insert.
  destruct (decide (w_brk w + 1 = q)) as [->|Hne].
  - rewrite decide_True by (by left). by destruct (V !! q).
  - rewrite decide_False; [by destruct (V !! q)|]. intros ->%list_elem_of_singleton. done.
Qed.

Lemma wp_on_x {A} (m : M xst A) (Q : A → process → Prop) p :
  wp m (λ v g, Q v (p <| px := g |>)) (px p) → wp (on_x m) Q p.
Proof. unfold wp, on_x. by destruct (m (px p)). Qed.

(** The state [ABT_init] leaves, with the primary stream's scheduler, pool,
    object and thread at the next addresses. *)
Record primary_up c g pr V g' : Prop := {
  pu_streams : xheap g' = <[w_brk (xw g) + 2 := new_xstream 0 (w_brk (xw g)) true]> (xheap g);
  pu_scheds : w_scheds (xw g') = <[w_brk (xw g) := new_sched ABT_SCHED_DEFAULT [w_brk (xw g) + 1]
    <| used_by := Some (w_brk (xw g) + 2) |>]> (w_scheds (xw g));
  pu_pools : w_pools (xw g') = <[w_brk (xw g) + 1 := first_pool (xw g)]> (w_pools (xw g));
  pu_thread : ∃ y, w_threads (xw g') = <[w_brk (xw g) + 3 := y]> (w_threads (xw g)) ∧ in_pool y = false ∧
    t_pool y = Some (w_brk (xw g) + 1) ∧ cth y = Some c ∧ t_type y = ABTI_THREAD_PRIMARY;
  pu_holds : pools_hold (xw g') (<[w_brk (xw g) + 1 := []]> V);
  pu_brk : w_brk (xw g') = w_brk (xw g) + 4;
  pu_init : g_initialized (xw g') = true;
  pu_slots : xstreams g' = <[0%nat := Some (w_brk (xw g) + 2)]> (xstreams g);
  pu_primary : primary_xstream g' = Some (w_brk (xw g) + 2) ∧ primary_thread g' = Some (w_brk (xw g) + 3);
  pu_pes : pes g' = <[0 := pr <| tls_xstream := Some (w_brk (xw g) + 2) |> <| sleep_on_idle := false |>]> (pes g);
  pu_csd : csd g' = CmiPushPE 0 (MTable (TSched (w_brk (xw g)))) (csd g);
  pu_rest : num_pes g' = num_pes g ∧ xcth g' = xcth g;
}.
(** A thread of no pool joins a built-in one. *)
Lemma associate_fresh w t x k o : w_threads w !! t = Some x → t_pool x = None → w_pools w !! k = Some o → user o = false →
  wp (ABTI_pool_associate t k) (λ _ w', w_brk w' = w_brk w ∧ w_pools w' = w_pools w ∧ w_scheds w' = w_scheds w ∧
    w_threads w' = <[t := x <| t_unit := ABT_UNIT_NULL |> <| t_pool := None |> <| t_pool := Some k |>]> (w_threads w)) w.
Proof.
  intros Hx Hn Ho Hu. unfold ABTI_pool_associate. wp_step. eapply wp_thread; [exact Hx|]. rewrite Hn, decide_False by done.
  unfold ABTI_pool_disassociate. wp_step. wp_step. eapply wp_thread; [exact Hx|]. rewrite Hn. wp_step. wp_step.
  eapply wp_set_thread; [exact Hx|]. wp_step. eapply wp_set_thread; [simpl; by rewrite lookup_insert_eq|]. wp_step.
  eapply wp_pool; [exact Ho|]. rewrite Hu. unfold when. wp_step. split_and!; [done..|]. simpl. by rewrite insert_insert_eq.
Qed.
Lemma wrap_primary_spec w V c k o : pools_hold w V → threads_below w → V !! k = Some [] → w_pools w !! k = Some o → user o = false →
  wp (ABTI_thread_wrap_primary c k) (λ t w', t = w_brk w ∧ pools_hold w' V ∧ w_brk w' = w_brk w + 1 ∧
    w_pools w' = w_pools w ∧ w_scheds w' = w_scheds w ∧
    ∃ y, w_threads w' = <[t := y]> (w_threads w) ∧ in_pool y = false ∧ t_pool y = Some k ∧ cth y = Some c ∧
      t_type y = ABTI_THREAD_PRIMARY) w.
Proof.
  intros Hh Hb Hk Ho Hu. unfold ABTI_thread_wrap_primary. wp_step. unfold wp at 1, fetch_id. set (w1 := w <| g_next_id ::= _ |>).
  assert (pools_hold w1 V) as Hh1 by (eapply holds_other; [exact Hh|]; by apply other_fields_rest).
  wp_step. eapply wp_mono; [by apply (put_thread_holds w1 V)|]. intros t w2 (Ht & _ & Hh2 & _ & ->).
  set (w2 := w1 <| w_brk ::= _ |> <| w_threads ::= _ |>) in *.
  assert (w_threads w2 !! t = Some (wrapped_primary c (g_next_id w))) as Hx by apply lookup_insert_eq.
  wp_step. eapply wp_mono.
  { apply wp_and; [eapply (associate_new_holds w2 V k [] t); [exact Hh2|exact Hk|exact Hx|done|done]|].
    exact (associate_fresh w2 t _ k o Hx eq_refl Ho Hu). }
  intros [] w3 [(Hh3 & _) (Eb & Ep & Es & Et)]. wp_step.
  split; [exact Ht|]. split; [exact Hh3|]. split; [rewrite Eb; unfold w2, w1; simpl; lia|]. split; [exact Ep|]. split; [exact Es|].
  eexists. split; [rewrite Et; simpl; by rewrite insert_insert_eq|]. done.
Qed.

Lemma init_primary_up c g pr V : pools_hold (xw g) V → threads_below (xw g) → pes g !! 0 = Some pr →
  wp (init_primary c) (λ _ g', primary_up c g pr V g') g.
Proof.
  intros Hh Hb Hpr. unfold init_primary. wp_step. apply wp_lift. eapply wp_mono; [by apply create_default_holds|].
  intros r w1 (-> & Eb & Et & Ep & Es & Ei & Hh1). cbn [fst snd deref]. set (s := w_brk (xw g)) in *.
  wp_step. wp_step. wp_step. unfold put_xstream. wp_step. apply wp_lift. unfold wp at 1, new_addr. wp_step. wp_step. wp_step.
  simpl xw. rewrite Eb. wp_step. apply wp_lift. eapply wp_set_sched; [simpl; rewrite Es; apply lookup_insert_eq|].
  wp_step. wp_step. wp_step. eapply wp_set_pe; [exact Hpr|]. wp_step. apply wp_lift.
  eapply wp_sched; [simpl; apply lookup_insert_eq|]. cbn [pools new_sched head]. wp_step. eapply wp_deref; [reflexivity|].
  wp_step. apply wp_lift. set (w2 := _ <| w_scheds ::= _ |>).
  eapply wp_mono; [eapply (wrap_primary_spec w2 (<[s + 1 := []]> V) c (s + 1) (first_pool (xw g)))|].
  - eapply holds_rest; [exact Hh1|done|done|simpl; lia].
  - intros t [y Hy]. simpl in Hy. rewrite Et in Hy. specialize (Hb t ltac:(by eexists)). simpl. unfold s in *. lia.
  - apply lookup_insert_eq.
  - simpl. rewrite Ep. apply lookup_insert_eq.
  - done.
  - intros t w3 (-> & Hh3 & Eb3 & Ep3 & Es3 & y & Et3 & Hin & Htp & Hc & Hty). wp_step. wp_step.
    unfold CsdSchedTableInstall, send_pe_msg. wp_step. wp_step. wp_step.
    eapply wp_set_pe; [simpl; apply lookup_insert_eq|]. wp_step.
    split; simpl; rewrite ?Eb3, ?Ep3, ?Es3; try done.
    + unfold w2. simpl. rewrite Es, insert_insert_eq. done.
    + exists y. rewrite Et3. unfold w2. simpl. rewrite Et, Eb. replace (w_brk (xw g) + 3) with (Z.succ (s + 2)) by (unfold s; lia). done.
    + eapply holds_rest; [exact Hh3|done|done|simpl; lia].
    + unfold w2. simpl. rewrite Eb. unfold s. lia.
    + split; [done|]. rewrite Eb. f_equal. unfold s. lia.
    + by rewrite insert_insert_eq.
Qed.

(** ** Initialization *)

Lemma started_lookup n r : 0 ≤ r < n → started_pes (Z.to_nat n) !! r = Some (started_pe r).
Proof.
  intros Hr. unfold started_pes. apply elem_of_list_to_map_1.
  - rewrite <- list_fmap_compose. apply NoDup_fmap_2; [intros i j; simpl; lia|apply NoDup_seq].
  - apply list_elem_of_fmap. exists (Z.to_nat r). rewrite Z2Nat.id by lia. split; [done|]. apply elem_of_seq. lia.
Qed.
(** The first initialization of a process. *)
Definition fresh_global (sz : sizes) env pid p : process :=
  start_runtime (Info.num_pes sz) pid (p <| px ::= new_global sz (burst env) |> <| has_global := true |>).
Lemma fresh_holds sz env pid p V : pools_hold (xw (px p)) V → pools_hold (xw (px (fresh_global sz env pid p))) V.
Proof. intros Hh. eapply holds_rest; [exact Hh|done|done|simpl; lia]. Qed.
Lemma init_fresh env cores pid c p V sz :
  has_global p = false → pools_hold (xw (px p)) V → threads_below (xw (px p)) → init_sizes env cores = Some sz →
  wp (ABT_init env cores pid c) (λ r p', r = ABT_SUCCESS ∧ has_global p' = true ∧ g_init_refs p' = 1 ∧
    primary_up c (px (fresh_global sz env pid p)) (started_pe 0) V (px p')) p ∧ 2 ≤ Info.num_pes sz.
Proof.
  intros Hg Hh Hb Hsz. assert (2 ≤ Info.num_pes sz) as Hn.
  { unfold init_sizes in Hsz. apply bind_Some in Hsz as (n & Hn%rule_range & [= <-]). simpl. lia. }
  split; [|done]. unfold ABT_init. wp_step. wp_step. unfold ABTI_initialized, forked. rewrite Hg. simpl andb. unfold when.
  wp_step. wp_step. wp_step. wp_step. rewrite Hg, Hsz. wp_step. wp_step. wp_step. wp_step.
  wp_step. fold (fresh_global sz env pid p). apply wp_on_x.
  eapply wp_mono; [eapply (init_primary_up c _ (started_pe 0) V)|].
  - by apply fresh_holds.
  - exact Hb.
  - apply started_lookup. lia.
  - intros [] g' Hup. wp_step. wp_step. wp_step. done.
Qed.

(** C22: initialization.  The first [ABT_init] of a process succeeds, counts one
    reference, gives the library between 2 and 256 PEs with the primary stream
    on PE 0 and every other PE free, its queue empty: the state from which
    streams are safe ([streams_never_dangle]). *)
Theorem init_boots env cores pid c p V sz (calls : gmap Z (bool * point)) :
  has_global p = false → pools_hold (xw (px p)) V → threads_below (xw (px p)) → xheap (px p) = ∅ →
  init_sizes env cores = Some sz → (∀ a u q, calls !! a = Some (u, q) → q = JIdle None) →
  wp (ABT_init env cores pid c) (λ r p', r = ABT_SUCCESS ∧ ABTI_initialized p' = true ∧ g_init_refs p' = 1 ∧
    num_pes (px p') = Info.num_pes sz ∧ 2 ≤ num_pes (px p') ≤ 256 ∧
    ∃ x s d, primary_xstream (px p') = Some x ∧ booted x s d (mk_jst _ _ _ (px p') calls ∅)) p.
Proof.
  intros Hg Hh Hb Hx Hsz Hcalls. assert (2 ≤ Info.num_pes sz ≤ 256) as Hn.
  { unfold init_sizes in Hsz. by apply bind_Some in Hsz as (n & Hn%rule_range & [= <-]). }
  eapply wp_mono; [by apply (init_fresh env cores pid c p V sz)|]. set (g := px (fresh_global sz env pid p)).
  intros r p' (-> & Hg' & Hr & Hup). destruct (pu_rest _ _ _ _ _ Hup) as [Enum _].
  change (num_pes g) with (Info.num_pes sz) in Enum.
  split_and!; [done|unfold ABTI_initialized; by rewrite Hg', (pu_init _ _ _ _ _ Hup)|done|done|lia|lia|].
  destruct (pu_primary _ _ _ _ _ Hup) as [Ep _]. eexists _, _, _. split; [exact Ep|].
  assert (256 ≤ w_brk (xw g)) by (destruct Hh as (Cs & Hok & _); exact (wo_brk_low _ _ Hok)).
  split; simpl.
  - rewrite (pu_slots _ _ _ _ _ Hup), length_insert, Enum. apply length_replicate.
  - rewrite (pu_streams _ _ _ _ _ Hup). change (xheap g) with (xheap (px p)). rewrite Hx. apply insert_empty.
  - rewrite (pu_brk _ _ _ _ _ Hup). change (w_brk (xw g)) with (w_brk (xw (px p))) in *. lia.
  - rewrite (pu_scheds _ _ _ _ _ Hup). apply lookup_insert_eq.
  - unfold in_range. simpl. intros r Hr'. unfold slot. simpl. rewrite (pu_slots _ _ _ _ _ Hup), list_lookup_insert_ne by lia.
    change (xstreams g) with (replicate (Z.to_nat (Info.num_pes sz)) (None : option ptr)).
    by rewrite lookup_replicate_2 by lia.
  - unfold in_range. simpl. intros r Hr'. exists (started_pe r). rewrite (pu_pes _ _ _ _ _ Hup), (pu_csd _ _ _ _ _ Hup).
    rewrite lookup_insert_ne, push_there by lia. change (pes g) with (started_pes (Z.to_nat (Info.num_pes sz))).
    rewrite started_lookup by lia. split_and!; try done. apply start_empty.
  - done.
  - done.
Qed.

(** ** Finalization *)

(** A built-in pool that nobody uses goes with its only scheduler. *)
Lemma destroy_own w s k o d : w_scheds w !! s = Some d → user_def d = false → pools d = [k] → w_pools w !! k = Some o →
  user o = false → num_scheds o = 1 → p_automatic o = ABT_TRUE → count o = 0 → num_blocked o = 0 →
  wp (ABTI_sched_destroy s) (λ _ w', w_scheds w' = delete s (w_scheds w) ∧ w_pools w' = delete k (w_pools w) ∧
    w_threads w' = w_threads w ∧ w_brk w' = w_brk w ∧ g_initialized w' = g_initialized w) w.
Proof.
  intros Hs Hu Hps Ho Huo Hn Ha Hc Hb. unfold ABTI_sched_destroy. wp_step. eapply wp_sched; [exact Hs|]. rewrite Hu, Hps.
  wp_step. wp_step. wp_step. cbn [drop_pools]. wp_step. unfold drop_pool. wp_step. eapply wp_pool; [exact Ho|]. wp_step.
  eapply wp_set_pool; [exact Ho|]. rewrite Hn, Ha. change ((1 - 1 =? 0) && truthy ABT_TRUE) with true. cbv iota.
  unfold size. wp_step. wp_step. eapply wp_pool; [simpl; apply lookup_insert_eq|]. simpl user. rewrite Huo. wp_step.
  simpl count. rewrite Hc, Hb. change ((if 0 >? 0 then 0 else 0) =? 0) with true. cbn [andb Z.eqb]. unfold when, ABTI_pool_destroy.
  wp_step. eapply wp_pool; [simpl; apply lookup_insert_eq|]. simpl user. rewrite Huo. wp_step. wp_step. unfold delete_pool.
  wp_step. eapply wp_pool; [simpl; apply lookup_insert_eq|]. wp_step. wp_step. wp_step. simpl. by rewrite delete_insert_eq.
Qed.
Lemma queued_none r x g pr o s d V : pes g !! r = Some pr → tls_held pr = None → xheap g !! x = Some o → main_sched o = Some s →
  w_scheds (xw g) !! s = Some d → pools_hold (xw g) V → (∀ k, k ∈ pools d → V !! k = Some []) →
  wp (queued r x) (λ n g', n = 0 ∧ g' = g) g.
Proof.
  intros Hp Hheld Ho Hs Hd Hh HV. assert (g <| xw := xw g |> = g) as Hid by (by destruct g). unfold queued. wp_step.
  eapply wp_this_pe; [exact Hp|]. wp_step. eapply wp_xstream; [exact Ho|]. rewrite Hs. cbn [deref]. wp_step. wp_step. wp_step.
  apply wp_lift. eapply wp_sched; [exact Hd|]. rewrite Hid. wp_step. apply wp_lift.
  eapply wp_mono; [apply (sum_pools_holds _ _ V); [exact Hh|intros k Hk; rewrite HV by done; by eexists]|].
  intros n w' [-> ->]. rewrite Hid, Hheld. wp_step. split; [|done]. simpl.
  assert (∀ ps, (∀ k, k ∈ ps → V !! k = Some []) → foldr (λ k n, wrapu64 (from_option (λ _ : ABTI_pool,
    Z.of_nat (length (default [] (V !! k)))) 0 (w_pools (xw g) !! k) + n)) 0 ps = 0) as Hz.
  { induction ps as [|k ps IH]; intros Hps; simpl; [done|]. rewrite Hps by (by left). rewrite IH by (intros; apply Hps; by right).
    by destruct (w_pools (xw g) !! k). }
  by rewrite Hz.
Qed.
Lemma fini_primary_spec c g pr V g' : primary_up c g pr V g' → w_pools (xw g) !! (w_brk (xw g) + 1) = None →
  w_threads (xw g) !! (w_brk (xw g) + 3) = None → w_scheds (xw g) !! w_brk (xw g) = None → xheap g !! (w_brk (xw g) + 2) = None →
  wp (fini_primary 0 (w_brk (xw g) + 2) (w_brk (xw g) + 3)) (λ _ g2, xheap g2 = xheap g ∧ w_pools (xw g2) = w_pools (xw g) ∧
    w_threads (xw g2) = w_threads (xw g) ∧ w_scheds (xw g2) = w_scheds (xw g) ∧ w_brk (xw g2) = w_brk (xw g) + 4 ∧
    g_initialized (xw g2) = false ∧ xstreams g2 = <[0%nat := None]> (xstreams g) ∧ primary_xstream g2 = None ∧
    primary_thread g2 = None ∧ tls_xstream <$> pes g2 !! 0 = Some None) g'.
Proof.
  intros Hup Fp Ft Fs Fx. destruct (pu_thread _ _ _ _ _ Hup) as (y & Et & Hin & Htp & _). unfold fini_primary.
  wp_step. wp_step. wp_step. apply wp_lift. wp_step. unfold ABTI_pool_disassociate. wp_step.
  eapply wp_thread; [simpl; rewrite Et; apply lookup_insert_eq|]. rewrite Htp. wp_step. wp_step.
  eapply wp_pool; [simpl; rewrite (pu_pools _ _ _ _ _ Hup); apply lookup_insert_eq|].
  change (user (first_pool (xw g))) with false. unfold when at 1. simpl (false && _). cbv iota. wp_step.
  eapply wp_set_thread; [simpl; rewrite Et; apply lookup_insert_eq|]. wp_step.
  eapply wp_thread; [simpl; apply lookup_insert_eq|]. wp_step. wp_step. wp_step. wp_step.
  eapply wp_xstream; [simpl; rewrite (pu_streams _ _ _ _ _ Hup); apply lookup_insert_eq|]. cbn [main_sched new_xstream deref].
  wp_step. wp_step. wp_step. apply wp_lift. wp_step.
  eapply wp_set_sched; [simpl; rewrite (pu_scheds _ _ _ _ _ Hup); apply lookup_insert_eq|].
  eapply wp_mono; [eapply (destroy_own _ _ (w_brk (xw g) + 1) (first_pool (xw g)))|].
  { simpl. apply lookup_insert_eq. }
  1-2: done.
  { simpl. rewrite (pu_pools _ _ _ _ _ Hup). apply lookup_insert_eq. }
  1-5: done.
  intros [] w2 (Es & Ep & Et2 & Eb & Ei). wp_step. wp_step. wp_step.
  eapply wp_set_pe; [simpl; rewrite (pu_pes _ _ _ _ _ Hup); apply lookup_insert_eq|]. wp_step. wp_step.
  unfold CsdSchedTableInstall, send_pe_msg. wp_step. simpl in *.
  rewrite Es, Ep, Et2, Eb, Ei, (pu_streams _ _ _ _ _ Hup), (pu_pools _ _ _ _ _ Hup), (pu_scheds _ _ _ _ _ Hup), Et, (pu_slots _ _ _ _ _ Hup).
  rewrite !insert_insert_eq, !delete_insert_eq, !delete_id by done.
  rewrite list_insert_insert_eq, lookup_insert_eq. split_and!; try done. exact (pu_brk _ _ _ _ _ Hup).
Qed.

Definition scheds_below w : Prop := ∀ s, is_Some (w_scheds w !! s) → s < w_brk w.
Lemma no_secondary x n m : existsb non_null (take m (drop 1 (<[0%nat := x]> (replicate n (None : option ptr))))) = false.
Proof.
  destruct n as [|n]; simpl; [by destruct m|]. rewrite drop_0. revert m. induction n as [|n IH]; intros [|m]; simpl; auto.
Qed.
Lemma drained_now fuel r x others g : wp (queued r x) (λ n g', n = 0 ∧ g' = g) g → wp (drain fuel r x others) (λ _ g', g' = g) g.
Proof.
  intros Hq. destruct fuel; cbn [drain]; wp_step; (eapply wp_mono; [exact Hq|]); intros n g' [-> ->]; cbn [Z.eqb]; by wp_step.
Qed.

(** C23: initialization and finalization undo each other.  [ABT_init] on a
    process without the library, then [ABT_finalize] by the primary thread:
    both succeed, the library is not initialized, no stream, scheduler, pool or
    thread is left that was not there before, and every rank is free. *)
Theorem init_finalize env cores pid c p V sz fuel others :
  has_global p = false → pools_hold (xw (px p)) V → threads_below (xw (px p)) → scheds_below (xw (px p)) →
  xheap (px p) = ∅ → init_sizes env cores = Some sz →
  wp (r ← ABT_init env cores pid c; p1 ← get;
      f ← ABT_finalize (mk_caller (Some 0) (primary_thread (px p1))) fuel others; mret (r, f))
    (λ r p', let w := xw (px p) in let w' := xw (px p') in
      r = (ABT_SUCCESS, ABT_SUCCESS) ∧ ABTI_initialized p' = false ∧ g_init_refs p' = 0 ∧
      xheap (px p') = ∅ ∧ w_pools w' = w_pools w ∧ w_threads w' = w_threads w ∧ w_scheds w' = w_scheds w ∧
      pools_hold w' V ∧ xstreams (px p') = replicate (Z.to_nat (Info.num_pes sz)) None) p.
Proof.
  intros Hg Hh Hb Hsb Hx Hsz. wp_step. eapply wp_mono; [by apply (init_fresh env cores pid c p V sz)|].
  set (g := px (fresh_global sz env pid p)). intros r p1 (-> & Hg' & Hr & Hup). wp_step. wp_step. wp_step.
  assert (w_brk (xw g) = w_brk (xw (px p)) ∧ w_pools (xw g) = w_pools (xw (px p)) ∧ w_threads (xw g) = w_threads (xw (px p)) ∧
    w_scheds (xw g) = w_scheds (xw (px p)) ∧ xheap g = xheap (px p)) as (Eb & Ep & Et & Es & Ex) by done.
  assert (w_pools (xw g) !! (w_brk (xw g) + 1) = None) as Fp.
  { apply eq_None_not_Some. intros Hs. destruct Hh as (Cs & Hok & _). rewrite Ep, Eb in Hs. apply (wo_brk _ _ Hok) in Hs. lia. }
  assert (w_threads (xw g) !! (w_brk (xw g) + 3) = None) as Ft.
  { apply eq_None_not_Some. rewrite Et, Eb. intros Hs%Hb. lia. }
  assert (w_scheds (xw g) !! w_brk (xw g) = None) as Fs.
  { apply eq_None_not_Some. rewrite Es, Eb. intros Hs%Hsb. lia. }
  assert (xheap g !! (w_brk (xw g) + 2) = None) as Fx by (by rewrite Ex, Hx, lookup_empty).
  destruct (pu_primary _ _ _ _ _ Hup) as [Epx Ept].
  unfold ABT_finalize. wp_step. wp_step. unfold ABTI_initialized at 1. rewrite Hg', (pu_init _ _ _ _ _ Hup), Hr. simpl.
  unfold my_xstream. simpl. rewrite (pu_pes _ _ _ _ _ Hup), lookup_insert_eq. simpl. rewrite Epx, Ept, !bool_decide_eq_true_2 by done.
  simpl negb. cbv iota. unfold secondary. rewrite (pu_slots _ _ _ _ _ Hup). change (xstreams g) with (replicate (Z.to_nat (Info.num_pes sz)) (None : option ptr)).
  rewrite no_secondary. wp_step. wp_step. wp_step. eapply wp_deref; [done|]. wp_step. eapply wp_deref; [done|]. wp_step.
  apply wp_on_x.
  eapply wp_mono; [apply drained_now; eapply (queued_none 0 (w_brk (xw g) + 2))|].
  { simpl. rewrite (pu_pes _ _ _ _ _ Hup). apply lookup_insert_eq. }
  { done. }
  { simpl. rewrite (pu_streams _ _ _ _ _ Hup). apply lookup_insert_eq. }
  { done. }
  { simpl. rewrite (pu_scheds _ _ _ _ _ Hup). apply lookup_insert_eq. }
  { exact (pu_holds _ _ _ _ _ Hup). }
  { intros k ->%list_elem_of_singleton. apply lookup_insert_eq. }
  intros [] g1 ->. wp_step. apply wp_on_x. eapply wp_mono; [exact (fini_primary_spec c g _ V _ Hup Fp Ft Fs Fx)|].
  intros [] g2 (E1 & E2 & E3 & E4 & E5 & E6 & E7 & E8 & E9 & E10). wp_step. wp_step. simpl.
  split_and!; try done; try congruence.
  - unfold ABTI_initialized. simpl. by rewrite E6, andb_false_r.
  - eapply holds_rest; [exact Hh|congruence|congruence|]. rewrite E5, Eb. lia.
  - rewrite E7. apply list_insert_id, lookup_replicate_2. unfold init_sizes in Hsz.
    apply bind_Some in Hsz as (n & Hn%rule_range & [= <-]). simpl. lia.
Qed.

(** A finalization that is refused (not initialized, not on the primary
    stream, not by the primary thread, or with secondary streams left) changes
    nothing. *)
Theorem finalize_refused p ca fuel others e p' :
  ABT_finalize ca fuel others p = Done e p' → e ≠ ABT_SUCCESS → p' = p.
Proof.
  unfold ABT_finalize. intros (p0 & p1 & [= <- <-] & Hf)%bind_Done He.
  repeat (case_match; try (injection Hf as <- <-; done)).
  all: try (apply bind_Done in Hf as ([] & p1 & [= <-] & [= <- <-]); done).
  repeat (apply bind_Done in Hf as (? & ? & _ & Hf)). by injection Hf as <- <-.
Qed.

(** ** Nesting *)

Fixpoint many (n : nat) (m : M process Z) : M process (list Z) :=
  match n with O => mret [] | S n => r ← m; l ← many n m; mret (r :: l) end.
Lemma init_again env cores pid c p : ABTI_initialized p = true →
  ABT_init env cores pid c p = Done ABT_SUCCESS (p <| g_init_refs ::= λ n, wraps32 (n + 1) |>).
Proof. intros Hi. unfold ABT_init, get, mbind, M_bind. rewrite Hi. done. Qed.
Lemma finalize_nested ca fuel others p : ABTI_initialized p = true → 1 < g_init_refs p →
  ABT_finalize ca fuel others p = Done ABT_SUCCESS (p <| g_init_refs ::= Z.pred |>).
Proof.
  intros Hi Hr. unfold ABT_finalize, get, mbind, M_bind. rewrite Hi. simpl. by destruct (Z.gtb_spec (g_init_refs p) 1); [|lia].
Qed.
Lemma many_init env cores pid c n : ∀ p, ABTI_initialized p = true → 0 ≤ g_init_refs p → g_init_refs p + Z.of_nat n < 2 ^ 31 →
  many n (ABT_init env cores pid c) p = Done (replicate n ABT_SUCCESS) (p <| g_init_refs ::= Z.add (Z.of_nat n) |>).
Proof.
  induction n as [|n IH]; intros p Hi H0 Hn; cbn [many replicate].
  { unfold mret, M_ret. f_equal. by destruct p. }
  unfold mbind, M_bind. rewrite init_again by done. rewrite IH; [|done|simpl; rewrite wraps32_small; lia..].
  unfold mret, M_ret. f_equal. destruct p as [x h r st pid']. unfold upd. simpl in *. f_equal. rewrite wraps32_small; lia.
Qed.
Lemma many_finalize ca fuel others n : ∀ p, ABTI_initialized p = true → Z.of_nat n < g_init_refs p →
  many n (ABT_finalize ca fuel others) p = Done (replicate n ABT_SUCCESS) (p <| g_init_refs ::= λ r, r - Z.of_nat n |>).
Proof.
  induction n as [|n IH]; intros p Hi Hn; cbn [many replicate].
  { unfold mret, M_ret. f_equal. destruct p as [x h r st pid']. unfold upd. simpl. f_equal. lia. }
  unfold mbind, M_bind. rewrite finalize_nested by (done || lia). rewrite IH; [|done|simpl; lia].
  unfold mret, M_ret. f_equal. destruct p as [x h r st pid']. unfold upd. simpl in *. f_equal. lia.
Qed.
(** Nested initializations.  On an initialized process any number of further
    [ABT_init]s, followed by as many [ABT_finalize]s from whatever thread, all
    succeed and leave the process as it was. *)
Theorem init_nests env cores pid c ca fuel others n p :
  ABTI_initialized p = true → 1 ≤ g_init_refs p → g_init_refs p + Z.of_nat n < 2 ^ 31 →
  wp (a ← many n (ABT_init env cores pid c); b ← many n (ABT_finalize ca fuel others); mret (a, b))
    (λ r p', r = (replicate n ABT_SUCCESS, replicate n ABT_SUCCESS) ∧ p' = p) p.
Proof.
  intros Hi H1 Hn. unfold wp, mbind, M_bind. rewrite many_init by (done || lia). rewrite many_finalize; [|done|simpl; lia].
  simpl. split; [done|]. destruct p as [x h r st pid']. unfold upd. simpl. f_equal. lia.
Qed.

(** ** Draining *)

(** While every yield lets the others run one queued unit at least, as many
    yields as there were units are enough. *)
Theorem drain_ends (I : xst → Prop) r x others :
  (∀ g, I g → wp (queued r x) (λ n g', 0 ≤ n ∧ g' = g) g) →
  (∀ g n, I g → result (queued r x) g = Some n → 0 < n →
    wp others (λ _ g', I g' ∧ ∃ m, result (queued r x) g' = Some m ∧ m < n) g) →
  ∀ fuel g n, I g → result (queued r x) g = Some n → (Z.to_nat n ≤ fuel)%nat →
  wp (drain fuel r x others) (λ _ g', I g' ∧ result (queued r x) g' = Some 0) g.
Proof.
  intros Hq Ho. induction fuel as [|fuel IH]; intros g n Hg Hn Hf; cbn [drain]; wp_step;
    (destruct (wp_elim _ _ _ (Hq g Hg)) as (m & g' & Hm & Hm0 & ->)); unfold wp at 1; rewrite Hm;
    (assert (m = n) as -> by (unfold result in Hn; rewrite Hm in Hn; by injection Hn)).
  - assert (n = 0) as -> by lia. cbn [Z.eqb]. by wp_step.
  - destruct (Z.eqb_spec n 0) as [->|Hne]; [by wp_step|]. wp_step.
    eapply wp_mono; [eapply Ho; [done|done|lia]|]. intros [] g1 (Hg1 & m & Hm1 & Hlt).
    eapply IH; [done|done|]. lia.
Qed.
(** ** Exit of the process *)

Definition told (q : Z) : Prop := truthy (Z.land q ABTI_SCHED_REQ_EXIT) = true.
Lemma told_exit q : told (Z.lor q ABTI_SCHED_REQ_EXIT).
Proof.
  assert (Z.land (Z.lor q ABTI_SCHED_REQ_EXIT) ABTI_SCHED_REQ_EXIT = ABTI_SCHED_REQ_EXIT) as He.
  { apply Z.bits_inj'. intros n _. rewrite Z.land_spec, Z.lor_spec. by destruct (Z.testbit q n), (Z.testbit ABTI_SCHED_REQ_EXIT n). }
  unfold told. by rewrite He.
Qed.
(** schedulers that were told stay told *)
Definition asked (g g' : xst) : Prop := xheap g' = xheap g ∧ ∀ s d, w_scheds (xw g) !! s = Some d →
  ∃ d', w_scheds (xw g') !! s = Some d' ∧ user_def d' = user_def d ∧ (told (request d) → told (request d')).
Lemma asked_trans g1 g2 g3 : asked g1 g2 → asked g2 g3 → asked g1 g3.
Proof.
  intros [E1 A1] [E2 A2]. split; [congruence|]. intros s d Hd. destruct (A1 s d Hd) as (d' & Hd' & Eu & Ht).
  destruct (A2 s d' Hd') as (d'' & Hd'' & Eu' & Ht'). exists d''. split_and!; [done|congruence|auto].
Qed.
Lemma asked_set g s d : w_scheds (xw g) !! s = Some d →
  asked g (g <| xw := xw g <| w_scheds ::= insert s (d <| request ::= λ q, Z.lor q ABTI_SCHED_REQ_EXIT |>) |> |>).
Proof.
  intros Hs. split; [done|]. intros s' d' Hd'. simpl. destruct (decide (s = s')) as [<-|].
  - rewrite lookup_insert_eq. eexists. split_and!; [done|simpl; congruence|]. intros _. apply told_exit.
  - rewrite lookup_insert_ne by done. by exists d'.
Qed.
Definition live_mains (l : list (option ptr)) (g : xst) : Prop := ∀ x, Some x ∈ l →
  ∃ o, xheap g !! x = Some o ∧ ∀ s, main_sched o = Some s → is_Some (w_scheds (xw g) !! s).
Lemma live_mains_asked l g g' : live_mains l g → asked g g' → live_mains l g'.
Proof.
  intros Hl [Ex Ha] x Hx. destruct (Hl x Hx) as (o & Ho & Hs). exists o. rewrite Ex. split; [done|]. intros s Hm.
  destruct (Hs s Hm) as [d Hd]. destruct (Ha s d Hd) as (d' & Hd' & _). by exists d'.
Qed.
Lemma ask_exit_asks l : ∀ g, live_mains l g → wp (ask_exit l) (λ _ g', asked g g' ∧
  ∀ x o s d, Some x ∈ l → xheap g !! x = Some o → main_sched o = Some s → w_scheds (xw g') !! s = Some d → user_def d = true →
    told (request d)) g.
Proof.
  induction l as [|[x|] l IH]; intros g Hl; cbn [ask_exit].
  - wp_step. split; [split; [done|intros s d Hd; by exists d]|]. intros x o s d Hx. by apply elem_of_nil in Hx.
  - destruct (Hl x) as (o & Ho & Hs); [by left|]. wp_step. eapply wp_xstream; [exact Ho|]. wp_step.
    apply wp_mono with (Q := λ _ g1, asked g g1 ∧ ∀ s d, main_sched o = Some s → w_scheds (xw g1) !! s = Some d → user_def d = true → told (request d)).
    { destruct (main_sched o) as [s|]; [|wp_step; split; [split; [done|intros s d Hd; by exists d]|done]].
      destruct (Hs s eq_refl) as [d Hd]. wp_step. apply wp_lift. eapply wp_sched; [exact Hd|].
      assert (g <| xw := xw g |> = g) as -> by (by destruct g). destruct (user_def d) eqn:Hu; unfold when.
      - apply wp_lift. eapply wp_set_sched; [exact Hd|]. split; [by apply asked_set|]. intros s' d' [= <-]. simpl.
        rewrite lookup_insert_eq. intros [= <-] _. apply told_exit.
      - wp_step. split; [split; [done|intros s' d' Hd'; by exists d']|]. intros s' d' [= <-]. congruence. }
    intros [] g1 [A1 Hdone]. eapply wp_mono; [apply (IH g1)|].
    { eapply live_mains_asked; [|exact A1]. intros y Hy. apply Hl. by right. }
    intros [] g2 [A2 Hrest]. split; [by eapply asked_trans|]. intros y o' s d Hy Ho' Hm Hd Hu.
    apply elem_of_cons in Hy as [[= ->]|Hy]; [|by eapply (Hrest y); [|rewrite (proj1 A1)|..]].
    assert (o' = o) as -> by congruence. destruct (Hs s Hm) as [d0 Hd0]. destruct (proj2 A1 s d0 Hd0) as (d1 & Hd1 & _).
    destruct (proj2 A2 s d1 Hd1) as (d2 & Hd2 & Eu & Ht). assert (d2 = d) as -> by congruence. apply Ht, (Hdone s d1 Hm Hd1). congruence.
  - eapply wp_mono; [apply IH; intros x Hx; apply Hl; by right|]. intros [] g' [A H]. split; [done|].
    intros x o s d [Hx|Hx]%elem_of_cons; [done|by eapply H].
Qed.

(** When the process exits, every user-defined scheduler that drives a stream is
    told to stop, so that its loop returns and its PE takes part in the shutdown of
    the runtime. *)
Theorem shutdown_stops_schedulers p : g_runtime_started p = true → has_global p = true → live_mains (xstreams (px p)) (px p) →
  wp (shutdown_runtime (Some 0)) (λ _ p', g_runtime_started p' = false ∧
    ∀ x o s d, Some x ∈ xstreams (px p) → xheap (px p) !! x = Some o → main_sched o = Some s → 256 ≤ s →
      w_scheds (xw (px p')) !! s = Some d → user_def d = true →
      result (ABT_sched_has_to_stop s) (xw (px p')) = Some (ABT_SUCCESS, Some ABT_TRUE)) p.
Proof.
  intros Hst Hg Hl. unfold shutdown_runtime. wp_step. wp_step. rewrite Hst, Hg. cbn [andb negb bool_decide].
  rewrite bool_decide_eq_true_2 by done. cbn [negb]. unfold when. wp_step. apply wp_on_x. wp_step. wp_step.
  eapply wp_mono; [by apply ask_exit_asks|]. intros [] g' [_ Hdone]. wp_step. split; [done|].
  intros x o s d Hx Ho Hm Hs Hd Hu. simpl in *. apply wp_result. unfold ABT_sched_has_to_stop, with_sched, ABTI_sched_get.
  rewrite live_handle by done. wp_step. eapply wp_sched; [exact Hd|]. rewrite (Hdone x o s d Hx Ho Hm Hd Hu). by wp_step.
Qed.
End spec.

(** ** Handlers *)

(** The accesses of [ABTI_register_handlers] on a PE that counts from [n]. *)
Definition accesses (n : Z) : list (M handlers unit) :=
  [publish h_lease (λ v h, h <| h_lease := v |>) n; publish h_affinity (λ v h, h <| h_affinity := v |>) (n + 1);
   publish h_run (λ v h, h <| h_run := v |>) (n + 2); publish h_release (λ v h, h <| h_release := v |>) (n + 3)].
Fixpoint in_turn (l : list (M handlers unit)) : M handlers unit :=
  match l with [] => mret tt | m :: l => m ;; in_turn l end.
Definition numbered_from (n : Z) (h : handlers) : Prop :=
  h_lease h ∈ [-1; n] ∧ h_affinity h ∈ [-1; n + 1] ∧ h_run h ∈ [-1; n + 2] ∧ h_release h ∈ [-1; n + 3].
Lemma publish_from n m h : 0 ≤ n → m ∈ accesses n → numbered_from n h → wp m (λ _ h', numbered_from n h') h.
Proof.
  intros Hn Hm (H1 & H2 & H3 & H4). unfold accesses in Hm.
  repeat (apply elem_of_cons in Hm as [->|Hm]; [|]); [..|by apply elem_of_nil in Hm].
  all: unfold publish; wp_step; wp_step.
  all: match goal with |- context [?a =? -1] => destruct (Z.eqb_spec a (-1)) as [He|He] end;
    [wp_step; unfold numbered_from; simpl; set_solver|].
  all: match goal with |- context [?a =? ?b] => destruct (Z.eqb_spec a b) as [|Hne]; [by wp_step|] end; exfalso; set_solver.
Qed.
(** PEs that count from the same index agree, however their accesses interleave. *)
Theorem handlers_agree n l : 0 ≤ n → (∀ m, m ∈ l → m ∈ accesses n) → wp (in_turn l) (λ _ h, numbered_from n h) unset.
Proof.
  intros Hn. assert (numbered_from n unset) as Hu by (unfold numbered_from; simpl; set_solver). revert Hu. generalize unset as h.
  induction l as [|m l IH]; intros h Hh Hl; cbn [in_turn]; [by wp_step|]. wp_step.
  eapply wp_mono; [apply (publish_from n m h); [done|apply Hl; by left|done]|]. intros [] h' Hh'. apply IH; [done|].
  intros m' Hm'. apply Hl. by right.
Qed.
(** A PE that counts from another index stops the program. *)
Theorem handlers_differ n k : 0 ≤ n → k ≠ n →
  (ABTI_register_handlers n ;; ABTI_register_handlers k) unset = Faulted (Aborted "abt: handler indices differ across PEs").
Proof.
  intros Hn Hk. unfold ABTI_register_handlers, publish, mbind, M_bind, get, modify, unset. simpl.
  destruct (Z.eqb_spec n (-1)); [lia|]. destruct (Z.eqb_spec n k); [lia|]. done.
Qed.
