(* ===== verification/Print.v ===== *)
(** * Diagnostics

    The printing functions of src/misc.cpp.  A call returns its code, the stream
    it wrote to and the text; numbers are printed in decimal, a pointer the way the
    C library does ([fmt_p]). *)

From Stdlib Require Import Ascii String.
From stdpp Require Import pretty.
From S2P Require Import Prelude AbtTypes Config Objects Storage PoolList Sleepers PoolMpsc Pool PoolWorld.
From S2P Require Import Info Sched Sync Unsupported Thread Xstream XstreamJoin XstreamSafe XstreamPe Init InitSpec.
#[local] Open Scope string_scope.

Definition nl : string := String "010"%char EmptyString.
Definition dec (x : Z) : string := pretty x.
Definition flag (b : bool) : string := dec (of_bool b).
Fixpoint texts (l : list string) : string := match l with [] => EmptyString | s :: l => s +:+ texts l end.

Section print.
Context `{E : Ext, R : Csd, C : Cth}.
(** the C library's [%p], and the address of [stdout] *)
Context (fmt_p : Z → string) (stdout : Z).
Definition ptr_text (p : option ptr) : string := fmt_p (default 0%Z p).
Definition abti_stream (fp : Z) : Z := if (fp =? 0)%Z then stdout else fp.

(** ** One line per object *)

Definition abti_print_pool_line (prefix : string) (p : option ptr) : M xst string :=
  match p with
  | None => mret (texts [prefix; "pool: (null)"; nl])
  | Some p =>
      n ← lift (size p);
      o ← lift (pool p);
      mret (texts [prefix; "pool: handle="; fmt_p p; " id="; dec (p_id o); " kind="; abti_pool_kind_name (kind o);
        " access="; abti_pool_access_name (access o); " automatic="; dec (p_automatic o);
        " user_defined="; flag (user o); " size="; dec n; " blocked="; dec (num_blocked o);
        " total="; dec (wrapu64 (n + (if (num_blocked o >? 0)%Z then num_blocked o else 0%Z)));
        " num_scheds="; dec (num_scheds o); nl])
  end.
Definition rank_or (x : option ptr) : M xst Z :=
  match x with Some x => o ← xstream x; mret (x_rank o) | None => mret (-1)%Z end.
Definition abti_print_sched_line (prefix : string) (s : option ptr) : M xst string :=
  match s with
  | None => mret (texts [prefix; "sched: (null)"; nl])
  | Some s =>
      d ← lift (sched s);
      r ← rank_or (used_by d);
      mret (texts [prefix; "sched: handle="; fmt_p s; " predef="; abti_sched_predef_name (predef d);
        " user_def="; flag (user_def d); " automatic="; dec (s_automatic d); " event_freq="; dec (event_freq d);
        " num_pools="; dec (Z.of_nat (length (pools d))); " used_by_rank="; dec r; nl])
  end.
Definition abti_print_xstream_line (prefix : string) (x : option ptr) : M xst string :=
  match x with
  | None => mret (texts [prefix; "xstream: (null)"; nl])
  | Some x =>
      o ← xstream x;
      mret (texts [prefix; "xstream: handle="; fmt_p x; " rank="; dec (x_rank o); " state="; abti_xstream_state_name (x_state o);
        " primary="; flag (primary o); " cpubind="; dec (cpubind o); " finishing="; flag (finishing o);
        " finished="; flag (finished o); nl])
  end.
(** [dflt]: the default stack size *)
Definition abti_print_thread_line (dflt : Z) (prefix : string) (t : option ptr) : M xst string :=
  match t with
  | None => mret (texts [prefix; "thread: (null)"; nl])
  | Some t =>
      st ← lift (ABT_thread_get_state (ABTI_thread_handle (Some t)));
      x ← lift (thread t);
      r ← rank_or (last_xstream x);
      mret (texts [prefix; "thread: handle="; fmt_p t; " id="; dec (t_id x); " type="; abti_thread_type_name (t_type x);
        " state="; abti_thread_state_name (default (-1)%Z st.2); " pool="; ptr_text (t_pool x); " last_xstream_rank="; dec r;
        " stacksize="; dec (if (stacksize (t_attr x) =? 0)%Z then dflt else stacksize (t_attr x));
        " migratable="; dec (migratable (t_attr x)); nl])
  end.

(** ** The interface *)

(** the text goes to [fp]; the call succeeds *)
Definition to_stream (fp : Z) (m : M xst string) : M xst (Z * (Z * string)) := s ← m; mret (ABT_SUCCESS, (abti_stream fp, s)).
Definition ABT_info_print_xstream (fp h : Z) := to_stream fp (abti_print_xstream_line EmptyString (ABTI_xstream_get h)).
Definition ABT_info_print_sched (fp h : Z) := to_stream fp (abti_print_sched_line EmptyString (ABTI_sched_get h)).
Definition ABT_info_print_pool (fp h : Z) := to_stream fp (abti_print_pool_line EmptyString (ABTI_pool_get h)).
Definition ABT_info_print_thread (dflt fp h : Z) := to_stream fp (abti_print_thread_line dflt EmptyString (ABTI_thread_get h)).
Definition ABT_info_print_thread_attr (dflt fp h : Z) : M xst (Z * (Z * string)) :=
  to_stream fp (match ABTI_attr_get h with
    | None => mret (texts ["thread_attr: (null)"; nl])
    | Some a =>
        x ← lift (attr a);
        mret (texts ["thread_attr: handle="; fmt_p a; " stacksize="; dec (if (stacksize x =? 0)%Z then dflt else stacksize x);
          " stackaddr="; ptr_text (stackaddr x); " migratable="; dec (migratable x); nl])
    end).
Definition ABTI_NO_UNWIND_MSG : string :=
  texts ["abt-reconverse: stack unwinding is not available in this build "; "(ABT_INFO_QUERY_KIND_ENABLED_STACK_UNWIND == ABT_FALSE)"; nl].
Definition ABT_info_print_thread_stack (dflt fp h : Z) :=
  to_stream fp (s ← abti_print_thread_line dflt EmptyString (ABTI_thread_get h); mret (s +:+ ABTI_NO_UNWIND_MSG)).
Definition ABT_info_print_thread_stacks_in_pool (fp h : Z) :=
  to_stream fp (s ← abti_print_pool_line EmptyString (ABTI_pool_get h); mret (s +:+ ABTI_NO_UNWIND_MSG)).
(** [cb]: the callback, once the text is written *)
Definition ABT_info_trigger_print_all_thread_stacks (fp : Z) (cb : option (Z → Z → M xst unit)) (a : Z) : M xst (Z * (Z * string)) :=
  r ← to_stream fp (mret ABTI_NO_UNWIND_MSG);
  (match cb with Some f => f ABT_FALSE a | None => mret tt end) ;;
  mret r.

(** ** The whole process *)

Fixpoint pool_lines (ps : list ptr) : M xst string :=
  match ps with
  | [] => mret EmptyString
  | p :: ps => s ← abti_print_pool_line "          " (Some p); t ← pool_lines ps; mret (s +:+ t)
  end.
Fixpoint slot_lines (i : nat) (l : list (option ptr)) : M xst string :=
  match l with
  | [] => mret EmptyString
  | None :: l => t ← slot_lines (S i) l; mret (texts ["  ["; dec (Z.of_nat i); "] (free)"; nl; t])
  | Some x :: l =>
      s1 ← abti_print_xstream_line (texts ["  ["; dec (Z.of_nat i); "] "]) (Some x);
      o ← xstream x;
      s2 ← abti_print_sched_line "        " (main_sched o);
      s3 ← (match main_sched o with Some s => d ← lift (sched s); pool_lines (pools d) | None => mret EmptyString end);
      t ← slot_lines (S i) l;
      mret (texts [s1; s2; s3; t])
  end.
Definition ABT_info_print_all_xstreams (fp : Z) : M process (Z * (Z * string)) :=
  p ← get;
  if negb (has_global p) then mret (ABT_SUCCESS, (abti_stream fp, texts ["abt-reconverse: not initialized, no xstreams"; nl])) else
  on_x (to_stream fp (
    g ← get;
    t ← slot_lines 0 (xstreams g);
    mret (texts ["# of xstreams: "; dec (Z.of_nat (length (xstreams g))); " slots"; nl; t]))).
Definition global_sizes (p : process) : option sizes :=
  if has_global p then Some (mk_sizes (Xstream.num_pes (px p)) (g_default_stacksize (xw (px p)))) else None.
Definition ABT_info_print_config (env : environ) (cores fp : Z) (n : notes) : M process (Z * (Z * string)) :=
  p ← get;
  match abti_max_xstreams env cores (global_sizes p) with
  | None => fail (Aborted "maxx + 1")
  | Some k =>
      mret (ABT_SUCCESS, (abti_stream fp, texts (
        ["Argobots-on-Reconverse shim, "; dec k; " PEs, stacksize "; dec (abti_default_stacksize env (global_sizes p)); nl;
         "  initialized: "; (if ABTI_initialized p then "yes" else "no"); nl;
         "  tool interface: disabled, stack unwinding: disabled, tasklets: unsupported"; nl;
         "  migration: enabled, external threads: enabled, stackable schedulers: unsupported"; nl] ++
        (if has_global p then
           ["  unimplemented calls so far: "; dec (g_unimplemented_calls n)] ++
           match g_first_unimplemented n with Some f => [", first: "; f] | None => [] end ++ [nl]
         else []))))
  end.

(** ** Printing is safe *)

(** Everything the report looks at is alive. *)
Definition pool_alive (g : xst) (p : ptr) : Prop :=
  ∃ o, w_pools (xw g) !! p = Some o ∧ (user o = true → ∃ d f, def o = Some d ∧ p_get_size d = Some f).
Definition sched_alive (g : xst) (s : ptr) : Prop :=
  ∃ d, w_scheds (xw g) !! s = Some d ∧ (∀ y, used_by d = Some y → is_Some (xheap g !! y)) ∧ ∀ p, p ∈ pools d → pool_alive g p.
Definition slots_alive (g : xst) (l : list (option ptr)) : Prop :=
  ∀ x, Some x ∈ l → ∃ o, xheap g !! x = Some o ∧ ∀ s, main_sched o = Some s → sched_alive g s.
(** [m] neither fails nor changes anything *)
Definition reads_only {S A} (m : M S A) (s : S) : Prop := wp m (λ _ s', s' = s) s.

Lemma reads_bind {S A B} (m : M S A) (k : A → M S B) s : reads_only m s → (∀ v, reads_only (k v) s) → reads_only (m ≫= k) s.
Proof. intros Hm Hk. apply wp_bind. eapply wp_mono; [exact Hm|]. intros v s' ->. apply Hk. Qed.
Lemma reads_ret {S A} (v : A) (s : S) : reads_only (mret v) s.
Proof. by unfold reads_only; wp_step. Qed.
Lemma reads_lift {A} (m : M world A) g : reads_only m (xw g) → reads_only (lift m) g.
Proof. intros Hm. apply wp_lift. eapply wp_mono; [exact Hm|]. intros v w ->. by destruct g. Qed.
Lemma reads_on_x {A} (m : M xst A) p : reads_only m (px p) → reads_only (on_x m) p.
Proof. intros Hm. apply wp_on_x. eapply wp_mono; [exact Hm|]. intros v w ->. by destruct p. Qed.
Lemma reads_pool g p : pool_alive g p → reads_only (pool p) (xw g) ∧ reads_only (size p) (xw g).
Proof.
  intros (o & Ho & Hd). split; [by eapply wp_pool|]. unfold reads_only, size. wp_step. eapply wp_pool; [done|].
  destruct (user o); [|by wp_step]. destruct (Hd eq_refl) as (d & f & Hdef & Hf). wp_step. unfold pool_def. wp_step.
  eapply wp_pool; [done|]. rewrite Hdef. wp_step. wp_step. rewrite Hf. unfold callee. wp_step. wp_step. by wp_step.
Qed.
Lemma pool_line_reads g prefix p : pool_alive g p → reads_only (abti_print_pool_line prefix (Some p)) g.
Proof.
  intros [H1 H2]%reads_pool. apply reads_bind; [by apply reads_lift|]. intros n.
  apply reads_bind; [by apply reads_lift|]. intros o. apply reads_ret.
Qed.
Lemma reads_xstream g x o : xheap g !! x = Some o → reads_only (xstream x) g.
Proof. intros Ho. by eapply wp_xstream. Qed.
Lemma sched_line_reads g prefix s : sched_alive g s → reads_only (abti_print_sched_line prefix (Some s)) g.
Proof.
  intros (d & Hd & Hy & _). unfold reads_only. cbn [abti_print_sched_line]. wp_step. apply wp_lift. eapply wp_sched; [exact Hd|].
  assert (g <| xw := xw g |> = g) as -> by (by destruct g). apply reads_bind; [|intros; apply reads_ret]. unfold rank_or.
  destruct (used_by d) as [y|]; [|apply reads_ret]. destruct (Hy y eq_refl) as [o Ho].
  apply reads_bind; [by eapply reads_xstream|intros; apply reads_ret].
Qed.
Lemma pool_lines_read g ps : (∀ p, p ∈ ps → pool_alive g p) → reads_only (pool_lines ps) g.
Proof.
  induction ps as [|p ps IH]; intros Hp; cbn [pool_lines]; [apply reads_ret|].
  apply reads_bind; [apply pool_line_reads, Hp; by left|]. intros t.
  apply reads_bind; [apply IH; intros; apply Hp; by right|intros; apply reads_ret].
Qed.
Lemma slot_lines_read g l : slots_alive g l → ∀ i, reads_only (slot_lines i l) g.
Proof.
  induction l as [|[x|] l IH]; intros Hl i; cbn [slot_lines].
  - apply reads_ret.
  - destruct (Hl x) as (o & Ho & Hs); [by left|].
    apply reads_bind; [apply reads_bind; [by eapply reads_xstream|intros; apply reads_ret]|]. intros s1.
    unfold reads_only. wp_step. eapply wp_xstream; [exact Ho|].
    apply reads_bind.
    { destruct (main_sched o) as [s|]; [by apply sched_line_reads, Hs|apply reads_ret]. }
    intros s2. apply reads_bind.
    { destruct (main_sched o) as [s|]; [|apply reads_ret]. destruct (Hs s eq_refl) as (d & Hd & _ & Hp). unfold reads_only. wp_step.
      apply wp_lift. eapply wp_sched; [exact Hd|]. assert (g <| xw := xw g |> = g) as -> by (by destruct g). by apply pool_lines_read. }
    intros s3. apply reads_bind; [|intros; apply reads_ret]. apply IH. intros y Hy. apply Hl. by right.
  - apply reads_bind; [|intros; apply reads_ret]. apply IH. intros y Hy. apply Hl. by right.
Qed.
(** The report on all streams neither fails nor changes anything, while the
    streams in the slots, their schedulers and pools are alive. *)
Theorem print_all_safe fp p : slots_alive (px p) (xstreams (px p)) → reads_only (ABT_info_print_all_xstreams fp) p.
Proof.
  intros Hl. unfold ABT_info_print_all_xstreams, reads_only. wp_step. wp_step. destruct (has_global p); simpl; [|by wp_step].
  apply reads_on_x. unfold to_stream. apply reads_bind; [|intros; apply reads_ret]. unfold reads_only. wp_step. wp_step.
  apply reads_bind; [by apply slot_lines_read|intros; apply reads_ret].
Qed.
End print.
