(* ===== verification/ThreadExamples.v ===== *)
(** * Concrete threads, keys and timers

    The theorems of [ThreadSpec] on worlds built from those of [PoolExamples], and
    that of [Timer] on a timer that runs on its clock. *)

From Stdlib Require Import SpecFloat.
From S2P Require Import Prelude AbtTypes Config Objects Storage PoolList Sleepers PoolMpsc Pool.
From S2P Require Import PoolWorld PoolApi UserPool PoolExamples Thread ThreadSpec Timer.

(** The worlds of [PoolExamples] put their threads above the allocation mark;
    here the mark is above them. *)
Definition lift (w : world) : world := w <| w_brk := 2000 |>.
Lemma lift_holds V : pools_hold two_pools V → pools_hold (lift two_pools) V.
Proof. intros Hh. eapply holds_rest; [exact Hh|done..]. Qed.
Lemma lift_below : threads_below (lift two_pools).
Proof.
  intros t [x Hx]. revert t x Hx.
  apply (proj1 (map_Forall_lookup (λ (t : Z) (_ : ABTI_thread), t < 2000) _)).
  apply (bool_decide_unpack _). vm_compute. exact I.
Qed.

(** Thread 1000 runs and belongs to pool 256. *)
Definition running : world := run (ABTI_pool_associate 1000 256) (lift two_pools).
Definition running_1000 : ABTI_thread := toy_thread ABTI_THREAD_NAMED 1 <| t_pool := Some 256 |>.
Lemma running_hold : pools_hold running (<[257 := []]> (<[256 := []]> ∅)).
Proof.
  assert (wp (ABTI_pool_associate 1000 256) (λ _ w', pools_hold w' (<[257 := []]> (<[256 := []]> ∅)))
    (lift two_pools)) as Hwp.
  { eapply wp_mono; [eapply (associate_new_holds _ (<[257 := []]> (<[256 := []]> ∅)) 256 [] 1000
      (toy_thread ABTI_THREAD_NAMED 1)); [apply lift_holds, two_pools_hold|done|vm_compute; reflexivity|done..]|].
    by intros [] w' (? & _). }
  apply wp_run in Hwp as [_ Hwp]. exact Hwp.
Qed.
Lemma running_can_leave : can_leave running running_1000.
Proof.
  intros q [= <-]. eexists. split; [vm_compute; reflexivity|]. discriminate.
Qed.

Lemma block_migrate_awaken_witness :
  wp (ABTI_thread_block 1000) (λ _ w', num_blocked <$> w_pools w' =
    alter Z.succ 256 (num_blocked <$> w_pools running)) running ∧
  wp (ABTI_thread_block 1000 ;; ABT_thread_migrate_to_pool 1000 257 ;; ABTI_thread_awaken_fn 1000)
    (λ _ w', pools_hold w' (<[257 := [1000]]> (<[257 := []]> (<[256 := []]> ∅))) ∧
      num_blocked <$> w_pools w' = num_blocked <$> w_pools running ∧
      ∃ x', w_threads w' !! 1000 = Some x' ∧ t_pool x' = Some 257 ∧ migrate_to x' = None ∧
        blocked_counted x' = false) running.
Proof.
  apply (block_migrate_awaken running (<[257 := []]> (<[256 := []]> ∅)) 1000 running_1000 256 257 []);
    [apply running_hold|reflexivity|lia|vm_compute; reflexivity|reflexivity..|discriminate|reflexivity|
     apply running_can_leave].
Defined.

Lemma task_create_appends_witness :
  wp (ABT_task_create 256 5 6 true) (λ r w', r = (ABT_SUCCESS, Some (w_brk (lift two_pools))) ∧
    pools_hold w' (<[256 := [] ++ [w_brk (lift two_pools)]]> (<[257 := []]> (<[256 := []]> ∅))) ∧
    thread_is w' (w_brk (lift two_pools))
      (new_thread true 5 6 (default_attr ABT_TRUE) (g_next_id (lift two_pools)) true
        <| tstate := CTH_STATE_READY |> <| t_pool := Some 256 |>) ∧
    w_log w' = w_log (lift two_pools) ++ pool_wakes (lift two_pools) 256) (lift two_pools).
Proof.
  apply (task_create_appends (lift two_pools) (<[257 := []]> (<[256 := []]> ∅)) 256 [] 5 6 true);
    [reflexivity|apply lift_holds, two_pools_hold|reflexivity|apply lift_below].
Defined.

Lemma thread_create_appends_witness :
  wp (ABT_thread_create 257 5 6 0 false) (λ r w', beside w' = beside (lift two_pools) ∧ r = (ABT_SUCCESS, None) ∧
    pools_hold w' (<[257 := [] ++ [w_brk (lift two_pools)]]> (<[257 := []]> (<[256 := []]> ∅))) ∧
    thread_is w' (w_brk (lift two_pools))
      (new_thread false 5 6 (default_attr ABT_TRUE) (g_next_id (lift two_pools)) false
        <| cth := Some (CthCreate (w_brk (lift two_pools)) (wraps32
             (effective_stacksize (lift two_pools) (default_attr ABT_TRUE))) (w_ext (lift two_pools))).1 |>
        <| t_pool := Some 257 |>) ∧
    w_log w' = w_log (lift two_pools) ++ pool_wakes (lift two_pools) 257) (lift two_pools).
Proof.
  apply (thread_create_appends (lift two_pools) (<[257 := []]> (<[256 := []]> ∅)) 257 [] 5 6 0
    (default_attr ABT_TRUE) false);
    [reflexivity|apply lift_holds, two_pools_hold|reflexivity|apply lift_below|reflexivity].
Defined.

(** Two keys, the second with a destructor, and values under both. *)
Definition keyed : world :=
  run (ABT_key_create None ;; ABT_key_create (Some 77) ;;
       ABT_thread_set_specific 1000 2000 11 ;; ABT_thread_set_specific 1000 2001 22) (lift two_pools).
Definition keyed_1000 : ABTI_thread := toy_thread ABTI_THREAD_NAMED 1 <| t_keys := [11; 22] |>.

Lemma key_set_get_witness :
  wp (ABT_key_set (mk_ctx true (Some 1000)) 2001 33) (λ r w', r = (ABT_SUCCESS, None) ∧
    result (ABT_thread_get_specific 1000 2000) w' = Some (ABT_SUCCESS, Some 11) ∧
    ABT_key_get (mk_ctx true (Some 1000)) 2000 w' = ABT_thread_get_specific 1000 2000 w' ∧
    ∀ t', t' ≠ 1000 → w_threads w' !! t' = w_threads keyed !! t') keyed.
Proof.
  apply (key_set_get keyed 1000 keyed_1000 2001 (mk_key (Some 77) 1) 2000 (mk_key None 0) 33);
    [lia|vm_compute; reflexivity|split_and!; [lia|vm_compute; reflexivity|simpl; lia]..].
Defined.

Lemma key_destructors_run_once_witness :
  wp (run_key_destructors 1000) (λ _ w',
    w_ext w' = destroyed (g_key_dtors keyed) 0 [11; 22] (w_ext keyed) ∧
    (∃ x', w_threads w' !! 1000 = Some x' ∧ Forall (λ v, v = 0) (t_keys x')) ∧
    wp (run_key_destructors 1000) (λ _ w'', w_ext w'' = w_ext w') w') keyed.
Proof. apply (key_destructors_run_once keyed 1000 keyed_1000). vm_compute. reflexivity. Defined.
(** Only the second key's destructor runs, on its value. *)
Example keyed_destroyed : toy_units (destroyed (g_key_dtors keyed) 0 [11; 22] (w_ext keyed)) = {[ 77 := [22] ]}.
Proof. vm_compute. reflexivity. Qed.

Lemma key_create_fresh_witness :
  wp (ABT_key_create (Some 88)) (λ r w', ∃ k, r = (ABT_SUCCESS, Some k) ∧
    key_at w' k (mk_key (Some 88) (g_next_key keyed)) ∧ g_next_key w' = g_next_key keyed + 1 ∧
    g_key_dtors w' !! Z.to_nat (g_next_key keyed) = Some (Some 88) ∧
    ∀ i, i ≠ Z.to_nat (g_next_key keyed) →
      default None (g_key_dtors w' !! i) = default None (g_key_dtors keyed !! i)) keyed.
Proof. apply (key_create_fresh keyed (Some 88)); [reflexivity|vm_compute; discriminate..]. Defined.

(** ** A timer *)

Definition timers : tst := mk_tst toy {[ 256 := mk_timer zero zero ]} 257 false (mk_toy ∅ 0).
Lemma timer_measures_witness :
  wp (ABT_timer_start 256 ;; ABT_timer_stop 256 ;; ABT_timer_read 256 true) (λ r _,
    r = (ABT_SUCCESS, Some (dsub (reading (later (tm_ext timers))) (reading (tm_ext timers))))) timers ∧
  wp (ABT_timer_get_overhead true) (λ r s', tm_heap s' = tm_heap timers ∧ r = (ABT_SUCCESS,
    Some (SFdiv 53 1024 (measured 5000 (tm_ext timers) zero).1 (binary_normalize 53 1024 5000 0 false)))) timers.
Proof.
  apply (timer_measures timers 256 (mk_timer zero zero)); [lia|reflexivity|simpl; lia|].
  vm_compute. reflexivity.
Defined.
Example timer_second : result (ABT_timer_start 256 ;; ABT_timer_stop 256 ;; ABT_timer_read 256 true) timers =
  Some (ABT_SUCCESS, Some (seconds 1)).
Proof. vm_compute. reflexivity. Qed.
