(* ===== verification/XstreamExamples.v ===== *)
(** * Concrete execution streams

    A runtime with three PEs, a stream on the first and executable schedules of
    the machine of [XstreamJoin]; the theorems of [XstreamSpec] on them, and
    executions in which a freed stream or scheduler is used. *)

From S2P Require Import Prelude AbtTypes Config Objects Storage PoolList Sleepers PoolMpsc Pool.
From S2P Require Import PoolWorld PoolApi UserPool PoolExamples Sched Sync SyncExamples Thread ThreadSpec.
From S2P Require Import Xstream XstreamJoin XstreamSafe XstreamPe XstreamSpec.

(** ** A runtime *)

Record toy_queues : Type := mk_queues {
  tq_pending : gmap Z (list msg);
  tq_bound : list Z;
}.
Definition tq_get (r : Z) (c : toy_queues) : list msg := default [] (tq_pending c !! r).
Definition tq_set (r : Z) (l : list msg) (c : toy_queues) : toy_queues :=
  mk_queues (<[r := l]> (tq_pending c)) (tq_bound c).
#[export] Instance toy_csd : Csd := {|
  csd_st := toy_queues;
  pending := tq_get;
  CmiPushPE r m c := tq_set r (tq_get r c ++ [m]) c;
  CsdTake r c := tq_set r (tail (tq_get r c)) c;
  CmiSetCPUAffinity n c := mk_queues (tq_pending c) (n :: tq_bound c);
  sched_getaffinity _ := Some [0; 1; 2; 3];
  pthread_getaffinity t _ := Some [t];
|}.
#[export] Instance toy_csd_laws : CsdLaws.
Proof.
  split; intros; simpl; unfold tq_get, tq_set; simpl;
    rewrite ?lookup_insert_eq, ?lookup_insert_ne by done; reflexivity.
Qed.

(** ** The state after initialization *)

(** Scheduler 260 (pools 256 to 258) runs on the primary stream 400; 300 is free. *)
Definition primary_sched : ABTI_sched := new_sched ABT_SCHED_BASIC [256] <| used_by := Some 400 |>.
Definition other_sched : ABTI_sched := new_sched ABT_SCHED_BASIC [257].
Definition stream_world : world :=
  two_pools <| w_scheds := {[ 260 := primary_sched; 300 := other_sched ]} |> <| w_brk := 500 |>.
Definition free_pe (r : Z) : pe := mk_pe None None 0 0 false TDefault true r [].
Definition three_pes : xst :=
  mk_xst _ _ _ stream_world {[ 400 := new_xstream 0 260 true ]} 3 64 [Some 400; None; None] (Some 400) None
    {[ 0 := free_pe 0 <| tls_xstream := Some 400 |>; 1 := free_pe 1; 2 := free_pe 2 ]}
    (mk_queues ∅ []) ∅.
(** Threads 1 and 2 can block, thread 3 is not one of the library's. *)
Definition start : jst :=
  mk_jst _ _ _ three_pes {[ 1 := (true, JIdle None); 2 := (true, JIdle None); 3 := (false, JIdle None) ]} ∅.

Lemma start_booted : booted 400 260 primary_sched start.
Proof.
  split; try (vm_compute; (reflexivity || (split; congruence))).
  - intros r Hr. unfold in_range in Hr. simpl in Hr. assert (r = 1 ∨ r = 2) as [->| ->] by lia; reflexivity.
  - intros r Hr. unfold in_range in Hr. simpl in Hr.
    assert (r = 1 ∨ r = 2) as [->| ->] by lia; eexists; (split; [reflexivity|]); split_and!; reflexivity.
  - intros a u p Ha. simpl in Ha. repeat (apply lookup_insert_Some in Ha as [[_ [= _ <-]]|[_ Ha]]; [done|]).
    apply lookup_singleton_Some in Ha as [_ [= _ <-]]. done.
Qed.

(** ** Schedules *)

(** The steps of [jstep] but the unrelated ones, chosen by name. *)
Inductive jlabel : Type :=
  | LCreate (s want : Z)
  | LJoin (a x : Z)
  | LFree (a x : Z)
  | LCall (a : Z) (on : option Z)
  | LMsg (r : Z)
  | LPublish (r : Z)
  | LTake (r : Z)
  | LWake (r : Z)
  | LRelease (r : Z).
Definition in_pes (r : Z) (j : jst) : bool := (1 <=? r) && (r <? num_pes (jx j)).
Definition all_values {A} (f : A → bool) (m : gmap Z A) : bool := forallb (λ v, f v.2) (map_to_list m).
Lemma all_values_lookup {A} (f : A → bool) m k v : all_values f m = true → m !! k = Some v → f v = true.
Proof.
  unfold all_values. rewrite forallb_forall. intros Hf Hk. apply (Hf (k, v)), list_elem_of_In, elem_of_map_to_list, Hk.
Qed.
Definition no_call (P : ptr * bool → bool) (j : jst) : bool :=
  all_values (λ v, match target v.2 with Some t => P t | None => true end) (calls j).
Definition early (p : point) (j : jst) : bool :=
  match p with
  | JFast x _ | JSpin x _ => negb (all_values (λ v, match v with RTake y => negb (y =? x) | _ => true end) (mid j))
  | _ => false
  end.
Definition idle_release (r : Z) (j : jst) : option ptr :=
  p ← pes (jx j) !! r; x ← tls_xstream p; o ← xheap (jx j) !! x; s ← main_sched o; d ← w_scheds (xw (jx j)) !! s;
  if finishing o && negb (user_def d) then Some x else None.
Definition done_with {A} (m : M xst A) (j : jst) (k : A → xst → jst) : option jst :=
  match m (jx j) with Done v g => Some (k v g) | Faulted _ => None end.
Definition jdo (gap : bool) (l : jlabel) (j : jst) : option jst :=
  match l with
  | LCreate s want =>
      if (256 <=? s) && bool_decide (is_Some (w_scheds (xw (jx j)) !! s)) &&
         all_values (λ o, negb (bool_decide (main_sched o = Some s))) (xheap (jx j))
      then done_with (create_leased s want) j (λ _ g, j <| jx := g |>) else None
  | LJoin a x =>
      match calls j !! a with
      | Some (u, JIdle _) =>
          if bool_decide (is_Some (xheap (jx j) !! x)) && no_call (λ t, negb (t.2 && (t.1 =? x))) j
          then Some (j <| calls ::= insert a (u, ABT_xstream_join x (jx j)) |>) else None
      | _ => None
      end
  | LFree a x =>
      match calls j !! a with
      | Some (u, JIdle _) =>
          if bool_decide (is_Some (xheap (jx j) !! x)) && no_call (λ t, negb (t.1 =? x)) j
          then Some (j <| calls ::= insert a (u, ABT_xstream_free 4096 x (jx j)) |>) else None
      | _ => None
      end
  | LCall a on =>
      match calls j !! a with
      | Some (u, p) =>
          if enabled a p (jx j) && (gap || negb (early p j))
          then done_with (join_step (mk_caller on None) u a p) j (λ p' g, j <| jx := g |> <| calls ::= insert a (u, p') |>)
          else None
      | None => None
      end
  | LMsg r =>
      match mid j !! r, pending r (csd (jx j)) with
      | None, m :: _ =>
          if in_pes r j then done_with (handle r m) j (λ _ g, j <| jx := g |> <| mid ::= after_handle r m |>) else None
      | _, _ => None
      end
  | LPublish r =>
      match mid j !! r with
      | Some (RLock x) =>
          if locked x (jx j) then None
          else done_with (release_publish x) j (λ _ g, j <| jx := g |> <| mid ::= insert r (RTake x) |>)
      | _ => None
      end
  | LTake r =>
      match mid j !! r with
      | Some (RTake x) => done_with (release_take x) j (λ l g, j <| jx := g |> <| mid ::= insert r (RWake l) |>)
      | _ => None
      end
  | LWake r =>
      match mid j !! r with
      | Some (RWake (a :: l)) => done_with (awaken a) j (λ _ g, j <| jx := g |> <| mid ::= insert r (RWake l) |>)
      | Some (RWake []) => Some (j <| mid ::= delete r |>)
      | _ => None
      end
  | LRelease r =>
      match mid j !! r, idle_release r j with
      | None, Some x =>
          if in_pes r j then done_with (ABTI_xstream_release r x) j (λ _ g, j <| jx := g |>) else None
      | _, _ => None
      end
  end.
Fixpoint jrun (gap : bool) (ls : list jlabel) (j : jst) : option jst :=
  match ls with
  | [] => Some j
  | l :: ls => j' ← jdo gap l j; jrun gap ls j'
  end.

Lemma done_with_Some {A} (m : M xst A) j k j' : done_with m j k = Some j' → ∃ v g, m (jx j) = Done v g ∧ j' = k v g.
Proof. unfold done_with. destruct (m (jx j)); naive_solver. Qed.
Lemma no_call_lookup P j a u p t : no_call P j = true → calls j !! a = Some (u, p) → target p = Some t → P t = true.
Proof. intros Hn Ha Ht. apply (all_values_lookup _ _ _ _ Hn) in Ha. simpl in Ha. by rewrite Ht in Ha. Qed.
Lemma early_reads p j : early p j = false → ¬ reads_early p j.
Proof.
  assert (∀ x, all_values (λ v, match v with RTake y => negb (y =? x) | _ => true end) (mid j) = true →
    ¬ ∃ r, mid j !! r = Some (RTake x)) as Hx.
  { intros x Ha [r Hr]. apply (all_values_lookup _ _ _ _ Ha) in Hr. simpl in Hr. by rewrite Z.eqb_refl in Hr. }
  destruct p; simpl; try tauto; rewrite negb_false_iff; apply Hx.
Qed.
Lemma xstream_get_self h x : ABTI_xstream_get h = Some x → x = h.
Proof. unfold ABTI_xstream_get, ABTI_obj. case_match; naive_solver. Qed.
Lemma jdo_sound gap l j j' : jdo gap l j = Some j' → jstep gap j j'.
Proof.
  destruct l as [s want|a x|a x|a on|r|r|r|r|r]; simpl.
  - destruct (_ && _) eqn:Hb; [|done]. intros (v & g & Hm & ->)%done_with_Some.
    apply andb_prop in Hb as [[H1 H2%bool_decide_eq_true]%andb_prop H3]. eapply (step_create _ _ s want v); [lia|done| |done].
    intros x o Ho. apply (all_values_lookup _ _ _ _ H3) in Ho. by apply negb_true_iff, bool_decide_eq_false in Ho.
  - destruct (calls j !! a) as [[u [r| | | | | | | | | | |]]|] eqn:Ha; try done. destruct (_ && _) eqn:Hb; [|done]. intros [= <-].
    apply andb_prop in Hb as [H1%bool_decide_eq_true H2]. eapply step_join; [done|]. intros y ->%xstream_get_self.
    split; [done|]. intros b v p Hp Ht. eapply no_call_lookup in Ht; [|done..]. simpl in Ht. by rewrite Z.eqb_refl in Ht.
  - destruct (calls j !! a) as [[u [r| | | | | | | | | | |]]|] eqn:Ha; try done. destruct (_ && _) eqn:Hb; [|done]. intros [= <-].
    apply andb_prop in Hb as [H1%bool_decide_eq_true H2]. eapply step_free; [done|]. intros y ->%xstream_get_self.
    split; [done|]. intros b v p fr Hp Ht. eapply no_call_lookup in Ht; [|done..]. simpl in Ht. by rewrite Z.eqb_refl in Ht.
  - destruct (calls j !! a) as [[u p]|] eqn:Ha; [|done]. destruct (_ && _) eqn:Hb; [|done].
    intros (v & g & Hm & ->)%done_with_Some. apply andb_prop in Hb as [H1 H2]. eapply step_call; [done..| |done].
    intros ->. apply early_reads. by apply negb_true_iff in H2.
  - destruct (mid j !! r) eqn:Hm; [done|]. destruct (tq_get r _) as [|m l] eqn:Hq; [done|].
    destruct (in_pes r j) eqn:Hr; [|done]. intros ([] & g & Hh & ->)%done_with_Some. unfold in_pes in Hr.
    eapply (step_msg _ _ r m); [lia|done..].
  - destruct (mid j !! r) as [[x|x|js]|] eqn:Hm; try done. destruct (locked x (jx j)) eqn:Hl; [done|].
    intros ([] & g & Hh & ->)%done_with_Some. by eapply step_publish.
  - destruct (mid j !! r) as [[x|x|js]|] eqn:Hm; try done.
    intros (v & g & Hh & ->)%done_with_Some. by eapply step_take.
  - destruct (mid j !! r) as [[x|x|[|a js]]|] eqn:Hm; try done.
    + intros [= <-]. by apply step_woken.
    + intros ([] & g & Hh & ->)%done_with_Some. by eapply step_wake.
  - destruct (mid j !! r) eqn:Hm; [done|]. destruct (idle_release r j) as [x|] eqn:Hi; [|done].
    destruct (in_pes r j) eqn:Hr; [|done]. intros ([] & g & Hh & ->)%done_with_Some. unfold in_pes in Hr.
    unfold idle_release in Hi. apply bind_Some in Hi as (p & Hp & (y & Hy & (o & Ho & (s & Hs & (d & Hd & Hi)%bind_Some)%bind_Some)%bind_Some)%bind_Some).
    destruct (_ && _) eqn:Hb; [|done]. apply andb_prop in Hb as [Hf Hu%negb_true_iff]. simplify_eq. eapply (step_release _ _ r p x); try done. lia.
Qed.
Lemma jrun_sound gap ls : ∀ j j' j0, jsteps gap j0 j → jrun gap ls j = Some j' → jsteps gap j0 j'.
Proof.
  induction ls as [|l ls IH]; simpl; intros j j' j0 H0 Hr; [by simplify_eq|].
  apply bind_Some in Hr as (j1 & H1%jdo_sound & Hr). eapply IH; [|exact Hr]. by eapply jsteps_step.
Qed.
(** What a schedule leaves, the start when it does not run. *)
Definition after (gap : bool) (ls : list jlabel) : jst := default start (jrun gap ls start).
Lemma after_steps gap ls : jsteps gap start (after gap ls).
Proof.
  unfold after. destruct (jrun gap ls start) as [j|] eqn:Hr; [|constructor]. by eapply jrun_sound; [constructor|].
Qed.

(** ** Executions *)

(** Stream 500 is leased on PE 1 with scheduler 300; PE 1 gives its lease back. *)
Definition lease : list jlabel := [LCreate 300 1; LMsg 1; LMsg 1].
Definition give_back : list jlabel := [LRelease 1; LMsg 1; LMsg 1].
Definition calling (a : Z) (on : option Z) (n : nat) : list jlabel := replicate n (LCall a on).
(** Thread 1 joins it and blocks; then the lease ends, the joiner is awakened. *)
Definition blocked_join : list jlabel := lease ++ [LJoin 1 500] ++ calling 1 (Some 0) 6.
Definition full_join : list jlabel := blocked_join ++ give_back ++ [LPublish 1; LTake 1; LWake 1; LWake 1].
(** Thread 3 frees it, waiting by polling, and sees [finished] between its
    store and the end of the handler's critical section. *)
Definition spinning_free : list jlabel :=
  lease ++ [LFree 3 500] ++ calling 3 None 4 ++ give_back ++ [LPublish 1] ++ calling 3 None 4.


Lemma join_waits_for_release_witness :
  let j := after false full_join in
  is_blocked 1 (xcth (jx (after false blocked_join))) = true ∧ is_blocked 1 (xcth (jx j)) = false ∧
  ∃ o, stream j 500 = Some o ∧
    if is_blocked 1 (xcth (jx j)) then
      1 ∈ x_joiners o ∧ (finished o = true → mid j !! x_rank o = Some (RTake 500)) ∨
      finished o = true ∧ ∃ l, mid j !! x_rank o = Some (RWake l) ∧ 1 ∈ l
    else finished o = true ∧ given_back j o.
Proof.
  split; [vm_compute; reflexivity|]. split; [vm_compute; reflexivity|].
  apply (join_waits_for_release 400 260 primary_sched start (after false full_join) 1 true (JBlocked 500 false) 500 false);
    [exact start_booted|apply after_steps|vm_compute; reflexivity|by left].
Defined.

Lemma xstream_create_rank_witness :
  let taken r := ∃ x, xstreams three_pes !! Z.to_nat r = Some (Some x) in
  wp (ABT_xstream_create_with_rank 300 2) (λ v g',
    v = (ABT_ERR_INV_XSTREAM_RANK, None) ∧ g' = three_pes ∧ (2 = 0 ∨ num_pes three_pes ≤ 2 ∨ taken 2) ∨
    ∃ r x, v = (ABT_SUCCESS, Some x) ∧ 1 ≤ r < num_pes three_pes ∧ ¬ taken r ∧ r = 2 ∧
      xstreams g' = <[Z.to_nat r := Some x]> (xstreams three_pes) ∧
      xheap g' = <[x := new_xstream r 300 false]> (xheap three_pes) ∧
      used_by <$> w_scheds (xw g') !! 300 = Some (Some x) ∧
      pending r (csd g') = pending r (csd three_pes) ++ [MLease x; MTable (table_of 300 other_sched)]) three_pes.
Proof.
  apply (xstream_create_rank 300 2 three_pes other_sched); [reflexivity|lia|reflexivity|reflexivity|reflexivity].
Defined.

(** PE 1 after a join was requested: the pool of its stream is empty. *)
Definition joining : xst := jx (after false (lease ++ [LJoin 1 500] ++ calling 1 (Some 0) 4)).
Definition joining_pe : pe := free_pe 1 <| tls_xstream := Some 500 |> <| p_table := TSched 300 |> <| sleep_on_idle := false |>.
Definition joining_stream : ABTI_xstream := new_xstream 1 300 false <| x_thread := Some 1 |> <| finishing := true |>.
Abbreviation no_units := (<[257 := []]> (<[256 := []]> (∅ : gmap Z (list ptr)))).
Lemma joining_holds : pools_hold (xw joining) no_units.
Proof.
  eapply holds_rest; [exact two_pools_hold|vm_compute..]; [reflexivity|reflexivity|congruence].
Qed.

Definition joining_sched : ABTI_sched :=
  other_sched <| used_by := Some 500 |> <| request := ABTI_SCHED_REQ_FINISH |>.
Lemma idle_hook_releases_witness :
  let idle := tls_held joining_pe = None ∧ ∀ k, k ∈ pools joining_sched → empty_pool (xw joining) no_units k in
  result (ABTI_xstream_idle_hook 1 (mret tt)) joining = Some None ∧
  wp (ABTI_xstream_idle_hook 1 (mret tt)) (λ t g', t = None ∧
    (idle ∧ xheap g' = xheap joining ∧ xw g' = xw joining ∧ (tls_xstream <$> pes g' !! 1) = Some None ∧
       pending 1 (csd g') = pending 1 (csd joining) ++ [MTable TDefault; MRelease 500] ∨ ¬ idle ∧ g' = joining)) joining.
Proof.
  split; [vm_compute; reflexivity|].
  refine (idle_hook_releases 1 (mret tt) joining no_units joining_pe 500 joining_stream 300 joining_sched
    joining_holds _ _ _ _ _ _ _ _ _).
  1-6: vm_compute; reflexivity.
  - vm_compute. congruence.
  - intros k [->|[]%elem_of_nil]%elem_of_cons. by exists [].
  - reflexivity.
Defined.

(** ** Freed objects that are still used *)

(** C24: the release handler stores [finished] before it takes the joiners and
    unlocks [jm].  A thread that waits by polling [finished] (one that cannot
    block, in [ABT_xstream_free]) can see the store, return and delete the
    stream in between; the rest of the handler then works on freed memory. *)
Theorem release_uses_freed_stream :
  ∃ j, jsteps true start j ∧ calls j !! 3 = Some (false, JIdle (Some ABT_SUCCESS)) ∧
    mid j !! 1 = Some (RTake 500) ∧ release_take 500 (jx j) = Faulted BadDeref.
Proof.
  exists (after true spinning_free). split; [apply after_steps|]. split_and!; vm_compute; reflexivity.
Qed.


(** The release handler marks the main scheduler unused although the stream
    still names it, so [ABT_sched_free] frees it after a join, and
    [ABT_xstream_free] then reads the freed scheduler. *)
Theorem free_reads_freed_sched :
  let j := after false (full_join ++ [LCall 1 (Some 0); LFree 1 500] ++ calling 1 (Some 0) 2) in
  calls j !! 1 = Some (true, FSched 500) ∧
  wp (lift (ABT_sched_free 4096 300)) (λ r g', r.1 = ABT_SUCCESS ∧
    join_step (mk_caller (Some 0) None) true 1 (FSched 500) g' = Faulted BadDeref) (jx j).
Proof. vm_compute. split_and!; reflexivity. Qed.
