(* ===== verification/SwitchExamples.v ===== *)
(** * Concrete joins and switches of threads

    Schedules of the machine of [ThreadJoin], one of them with a thread freed
    while it terminates, and a yield on a PE with two queued threads. *)

From S2P Require Import Prelude AbtTypes Config Objects Storage PoolList Sleepers PoolMpsc Pool.
From S2P Require Import PoolWorld PoolApi UserPool PoolExamples Sched SchedSpec SchedLife SchedExamples Sync SyncExamples.
From S2P Require Import Thread ThreadJoin ThreadSafe Xstream XstreamPe XstreamExamples Yield.

(** ** Joins *)

(** Agents 1 and 2 run the threads 1000 and 1001 of pool 256; 1001 will join 1000. *)
Definition in_256 (t : ptr) (w : world) : world := w <| w_threads ::= alter (λ x, x <| t_pool := Some 256 |>) t |>.
Definition before_join : tst :=
  mk_tst _ _ (in_256 1001 (in_256 1000 two_pools)) (∅ : gset Z)
    {[ 1 := (Some 1000, TIdle None); 2 := (Some 1001, TIdle None) ]} ∅.
Lemma before_join_unjoined : unjoined before_join.
Proof.
  split.
  - intros t x Hx. revert t x Hx. apply (proj1 (map_Forall_lookup (λ (_ : Z) x, t_joiners x = []) _)).
    apply (bool_decide_unpack _). vm_compute. exact I.
  - intros a s p Ha. simpl in Ha. apply lookup_insert_Some in Ha as [[_ [= _ <-]]|[_ Ha]]; [by eexists|].
    apply lookup_singleton_Some in Ha as [_ [= _ <-]]. by eexists.
  - done.
Qed.

(** One step of an agent, one step of a termination. *)
Definition step_agent (a : Z) (j : tst) : option tst :=
  match tcalls j !! a with
  | Some (s, p) =>
      if tenabled a p j then
        match tjoin_step true s a p j with
        | Done p' j' => Some (j' <| tcalls ::= insert a (s, p') |>)
        | Faulted _ => None
        end
      else None
  | None => None
  end.
Definition step_end (t : ptr) (j : tst) : option tst :=
  match ending j !! t with
  | Some e =>
      match end_step t e j with
      | Done e' j' => Some (j' <| ending ::= partial_alter (λ _, e') t |>)
      | Faulted _ => None
      end
  | None =>
      match w_threads (tw j) !! t with
      | Some x => if terminated x then None else Some (j <| ending ::= insert t EMark |>)
      | None => None
      end
  end.
(** [inl a]: agent [a]; [inr t]: the end of thread [t]. *)
Fixpoint schedule (ls : list (Z + Z)) (j : tst) : option tst :=
  match ls with
  | [] => Some j
  | l :: ls => j' ← match l with inl a => step_agent a j | inr t => step_end t j end; schedule ls j'
  end.
Lemma step_agent_sound a j j' : step_agent a j = Some j' → tstep j j'.
Proof.
  unfold step_agent. destruct (tcalls j !! a) as [[s p]|] eqn:Ha; [|done]. destruct (tenabled a p j) eqn:He; [|done].
  destruct (tjoin_step true s a p j) as [p' j1|] eqn:Hs; [|done]. intros [= <-]. by eapply tstep_call.
Qed.
Lemma step_end_sound t j j' : step_end t j = Some j' → tstep j j'.
Proof.
  unfold step_end. destruct (ending j !! t) as [e|] eqn:He.
  - destruct (end_step t e j) as [e' j1|] eqn:Hs; [|done]. intros [= <-]. by eapply tstep_ending.
  - destruct (w_threads (tw j) !! t) as [x|] eqn:Hx; [|done]. destruct (terminated x) eqn:Ht; [done|].
    intros [= <-]. by eapply tstep_end.
Qed.
Lemma schedule_sound ls : ∀ j0 j j', tsteps j0 j → schedule ls j = Some j' → tsteps j0 j'.
Proof.
  induction ls as [|l ls IH]; simpl; intros j0 j j' H0 Hs; [by simplify_eq|]. apply bind_Some in Hs as (j1 & H1 & Hs).
  eapply IH; [|exact Hs]. eapply tsteps_step; [exact H0|]. destruct l; [by apply step_agent_sound in H1|by apply step_end_sound in H1].
Qed.

(** Agent 2 frees thread 1000. *)
Definition freeing : tst := before_join <| tcalls ::= insert 2 (Some 1001, TStart 1000 true) |>.
Lemma freeing_steps : tsteps before_join freeing.
Proof.
  eapply tsteps_step; [apply tsteps_refl|]. eapply (tstep_free before_join 2 _ _ 4096 1000); [reflexivity| |by left|vm_compute; reflexivity].
  intros t _ a s p fr Ha. destruct (un_calls _ before_join_unjoined _ _ _ Ha) as [r ->]. done.
Qed.
Definition after_sched (ls : list (Z + Z)) : tst := default freeing (schedule ls freeing).
Lemma after_sched_steps ls : tsteps before_join (after_sched ls).
Proof.
  unfold after_sched. destruct (schedule ls freeing) as [j|] eqn:Hs; [|apply freeing_steps].
  eapply schedule_sound; [apply freeing_steps|done].
Qed.
(** It blocks; 1000 terminates and awakens it. *)
Definition joined_up : list (Z + Z) := [inl 2; inl 2] ++ replicate 4 (inr 1000).
(** It runs on before the termination has finished. *)
Definition freed_early : list (Z + Z) := joined_up ++ [inl 2; inl 2; inr 1000].

Lemma thread_join_waits_witness :
  let j := after_sched joined_up in
  tcalls j !! 2 = Some (Some 1001, TBlocked 1000 true) ∧ is_blocked 2 (tcth (after_sched [inl 2; inl 2])) = true ∧
  is_blocked 2 (tcth j) = false ∧
  (∀ a s t fr, tcalls j !! a = Some (s, TBlocked t fr) → ∃ x, w_threads (tw j) !! t = Some x ∧
    if is_blocked a (tcth j) then
      a ∈ t_joiners x ∧ (terminated x = true → ending j !! t = Some ETake) ∨
      terminated x = true ∧ ∃ l, ending j !! t = Some (EWake l) ∧ a ∈ l
    else terminated x = true).
Proof.
  split; [vm_compute; reflexivity|]. split; [vm_compute; reflexivity|]. split; [vm_compute; reflexivity|].
  exact (proj1 (thread_join_waits before_join (after_sched joined_up) before_join_unjoined (after_sched_steps joined_up))).
Defined.

(** C26: a thread that terminates is read after its joiners were awakened.  A
    joiner that was awakened by [ABTI_thread_terminated] can destroy the thread
    and return before that function reads the thread's type. *)
Theorem terminated_reads_freed_thread :
  ∃ j, tsteps before_join j ∧ tcalls j !! 2 = Some (Some 1001, TIdle (Some ABT_SUCCESS)) ∧
    ending j !! 1000 = Some ERetire ∧ term_retire 1000 (tw j) = Faulted BadDeref.
Proof.
  exists (after_sched freed_early). split; [apply after_sched_steps|]. split_and!; vm_compute; reflexivity.
Qed.

(** ** Switches *)

#[export] Instance toy_switch : Switch := {| CthIsPeMainThread c _ := c =? 4; CthClaimReady c s := Some s |}.
(** Thread 1002 yields on PE 0; 1000 and 1001 wait in the second pool. *)
Definition yielding_pe : pe := free_pe 0 <| tls_xstream := Some 400 |> <| yielding := true |>.
Definition busy : xst :=
  mk_xst _ _ _ (polling ABT_SCHED_BASIC) {[ 400 := new_xstream 0 2000 true ]} 3 16 [Some 400; None; None] (Some 400) None
    {[ 0 := yielding_pe ]} (mk_queues ∅ []) (∅ : gset Z).
Lemma yield_next_unit_witness :
  result (ABTI_choose_fn 0 (Some 1002)) busy = Some (ToThread 1) ∧
  wp (ABTI_choose_fn 0 (Some 1002)) (λ n g', ∃ p', pes g' !! 0 = Some p' ∧ chained busy yielding_pe n p' ∧
    if chains busy yielding_pe (new_xstream 0 2000 true) (new_sched ABT_SCHED_BASIC [257; 256]) then
      n = ToScheduler ∧ all_empty queues [257; 256] ∧ pools_hold (xw g') queues ∧ tls_held p' = None ∨
      ∃ t V' y, first_of queues [257; 256] t V' ∧ pools_hold (xw g') V' ∧ w_threads (xw g') !! t = Some y ∧
        if unswitchable busy yielding_pe (toy_thread ABTI_THREAD_NAMED 3) y [257; 256] then n = ToScheduler ∧ tls_held p' = Some t
        else tls_held p' = None ∧ last_xstream y = Some 400 ∧ t_parent y = None ∧
          (∃ c, n = ToThread c ∧ cth y = Some c) ∧
          (yielding yielding_pe = true → (rank_of (t_pool y) ([257; 256])%Z ≤ rank_of (t_pool (toy_thread ABTI_THREAD_NAMED 3)) ([257; 256])%Z)%nat)
    else n = ToScheduler ∧ xw g' = xw busy ∧ tls_held p' = tls_held yielding_pe) busy.
Proof.
  split; [vm_compute; reflexivity|].
  refine (yield_next_unit 0 1002 busy queues yielding_pe (toy_thread ABTI_THREAD_NAMED 3) 400 (new_xstream 0 2000 true) 2000
    (new_sched ABT_SCHED_BASIC [257; 256]) (polling_hold _) _ _ _ _ _ _ _ _ polling_known _ _ _ _);
    try (vm_compute; (reflexivity || congruence)).
  - by apply polling_resumable.
  - intros k l t y c _ _ _ _ _. by eexists.
Defined.
