(* ===== verification/InitExamples.v ===== *)
(** * Concrete initializations

    The theorems of [InitSpec] on a process that has not used the library yet. *)

From Stdlib Require Import String.
From S2P Require Import Prelude AbtTypes Config Objects Storage PoolList Sleepers PoolMpsc Pool.
From S2P Require Import PoolWorld PoolApi UserPool PoolExamples Info Sched SchedSpec SchedLife Sync SyncExamples Thread ThreadSpec.
From S2P Require Import Xstream XstreamJoin XstreamSafe XstreamPe XstreamSpec XstreamExamples Init InitSpec.

#[export] Instance toy_start : Start := {| CsdStart _ := mk_queues ∅ []; pthread_of r := 7000 + r |}.
#[export] Instance toy_start_laws : StartLaws.
Proof. done. Qed.

(** The addresses below 2000 are in use; nothing is set in the environment. *)
Definition first_world : world := boot <| w_brk := 2000 |> <| g_initialized := false |>.
Definition first_xst : xst := mk_xst _ _ _ first_world ∅ 0 0 [] None None ∅ (mk_queues ∅ []) (∅ : gset Z).
Definition first_process : process := mk_process _ _ _ first_xst false 0 false 0.
Definition no_env : environ := λ _, None.
Definition first_sizes : sizes := mk_sizes 16 (2 * 1024 * 1024).
Lemma first_holds : pools_hold first_world ∅.
Proof. eapply holds_rest; [exact boot_holds|done|done|vm_compute; congruence]. Qed.
Lemma first_below : threads_below first_world.
Proof.
  intros t [x Hx]. revert t x Hx. apply (proj1 (map_Forall_lookup (λ (t : Z) (_ : ABTI_thread), t < 2000) _)).
  apply (bool_decide_unpack _). vm_compute. exact I.
Qed.
(** After the first initialization. *)
Definition second_process : process := run (ABT_init no_env 4 100 1) first_process.

Lemma init_boots_witness :
  wp (ABT_init no_env 4 100 1) (λ r p', r = ABT_SUCCESS ∧ ABTI_initialized p' = true ∧ g_init_refs p' = 1 ∧
    num_pes (px p') = 16 ∧ 2 ≤ num_pes (px p') ≤ 256 ∧
    ∃ x s d, primary_xstream (px p') = Some x ∧ booted x s d (mk_jst _ _ _ (px p') ∅ ∅)) first_process.
Proof.
  apply (init_boots no_env 4 100 1 first_process ∅ first_sizes ∅);
    [reflexivity|exact first_holds|exact first_below|reflexivity|vm_compute; reflexivity|].
  intros a u q Ha. by rewrite lookup_empty in Ha.
Defined.
Lemma init_finalize_witness :
  wp (r ← ABT_init no_env 4 100 1; p1 ← get;
      f ← ABT_finalize (mk_caller (Some 0) (primary_thread (px p1))) 0 (mret tt); mret (r, f))
    (λ r p', let w := xw (px first_process) in let w' := xw (px p') in
      r = (ABT_SUCCESS, ABT_SUCCESS) ∧ ABTI_initialized p' = false ∧ g_init_refs p' = 0 ∧
      xheap (px p') = ∅ ∧ w_pools w' = w_pools w ∧ w_threads w' = w_threads w ∧ w_scheds w' = w_scheds w ∧
      pools_hold w' ∅ ∧ xstreams (px p') = replicate (Z.to_nat 16) None) first_process.
Proof.
  apply (init_finalize no_env 4 100 1 first_process ∅ first_sizes 0 (mret tt));
    [reflexivity|exact first_holds|exact first_below| |reflexivity|vm_compute; reflexivity].
  intros s [d Hd]. simpl in Hd. by rewrite lookup_empty in Hd.
Defined.
Lemma finalize_refused_witness :
  ABT_finalize (mk_caller (Some 1) None) 0 (mret tt) second_process = Done ABT_ERR_INV_XSTREAM second_process.
Proof.
  destruct (ABT_finalize (mk_caller (Some 1) None) 0 (mret tt) second_process) as [e p'|] eqn:He.
  - assert (e = ABT_ERR_INV_XSTREAM) as ->.
    { apply (f_equal (λ o, match o with Done e _ => Some e | Faulted _ => None end)) in He. vm_compute in He. by injection He as <-. }
    by rewrite (finalize_refused _ _ _ _ _ _ He).
  - apply (f_equal (λ o, match o with Done e _ => Some e | Faulted _ => None end)) in He. vm_compute in He. done.
Defined.
Lemma init_nests_witness :
  wp (a ← many 3 (ABT_init no_env 4 100 1); b ← many 3 (ABT_finalize (mk_caller None None) 0 (mret tt)); mret (a, b))
    (λ r p', r = (replicate 3 ABT_SUCCESS, replicate 3 ABT_SUCCESS) ∧ p' = second_process) second_process.
Proof.
  apply (init_nests no_env 4 100 1 (mk_caller None None) 0 (mret tt) 3 second_process); vm_compute; (reflexivity || congruence).
Defined.
