(* ===== verification/RunExamples.v ===== *)
(** * Concrete runs

    A stacked scheduler with two queued threads, and a tasklet that a
    thread has joined. *)

From S2P Require Import Prelude AbtTypes Config Objects Storage PoolList Sleepers PoolMpsc Pool.
From S2P Require Import PoolWorld PoolApi UserPool PoolExamples Sched SchedSpec SchedLife SchedExamples Sync SyncExamples.
From S2P Require Import Thread ThreadSpec ThreadJoin Xstream XstreamPe XstreamExamples Run Ready RunSpec ThreadExamples.

(** ** A stacked scheduler *)

(** Running a unit leaves a trace; while the PE waits, others finish the blocked
    units. *)
Definition traced (t : ptr) : M world unit := emit (CsdReleaseIdle t).
Definition unblocked (o : ABTI_pool) : ABTI_pool := o <| num_blocked := 0 |>.
Definition finish_blocked : M world unit := set_pool 257 unblocked ;; set_pool 256 unblocked.
Definition left_in (V : gmap Z (list ptr)) (B : gmap Z Z) (p : ptr) : nat :=
  (length (default [] (V !! p)) + Z.to_nat (default 0%Z (B !! p)))%nat.
Definition left_over (V : gmap Z (list ptr)) (B : gmap Z Z) : nat := (left_in V B 257 + left_in V B 256)%nat.
Abbreviation prio := (new_sched ABT_SCHED_PRIO [257; 256] <| s_in_pool := true |>).
Definition stacked : world := polling ABT_SCHED_PRIO <| w_scheds := {[ 2000 := prio ]} |>.

Lemma pinned_scheds (w : world) m me t : pinned_in me (w <| w_scheds := m |>) t = pinned_in me w t.
Proof. done. Qed.
Lemma stacked_serving : serving 0 2000 [257; 256] stacked queues.
Proof.
  split; [apply holds_scheds, polling_hold|exists prio; done|apply polling_known|].
  intros p l t Hp Hl Ht. unfold stacked. rewrite pinned_scheds.
  exact (polling_resumable ABT_SCHED_PRIO [257; 256] ltac:(done) p l t Hp Hl Ht).
Qed.
Definition work (V : gmap Z (list ptr)) (B : gmap Z Z) (e : ext_st) : nat := left_over V B.
Lemma traced_less : runs_to 0 2000 [257; 256] traced (nearer work).
Proof.
  intros w V0 V t (i & p & l & Hi & Hl & _ & ->) [Hh Hs Hp Hr] _. apply wp_emit. eexists. split.
  - split; [|done|exact Hp|exact Hr]. eapply holds_other; [exact Hh|]. by apply other_fields_rest.
  - unfold nearer, work. change (blocked_of (w <| w_log ::= λ l, l ++ [CsdReleaseIdle t] |>)) with (blocked_of w). unfold left_over, left_in.
    assert (p = 257 ∨ p = 256) as [-> | ->] by (destruct i as [|[|i]]; simpl in Hi; naive_solver).
    + rewrite lookup_insert_eq, (lookup_insert_ne _ 257 256), Hl by done. simpl. lia.
    + rewrite lookup_insert_eq, (lookup_insert_ne _ 256 257), Hl by done. simpl. lia.
Qed.
Lemma finish_blocked_less : waits_to 0 2000 [257; 256] finish_blocked (nearer work).
Proof.
  intros w V [Hh Hs Hp Hr] He Hb.
  destruct (Hp 257) as [l1 H1]; [set_solver|]. destruct (Hp 256) as [l2 H2]; [set_solver|].
  destruct (hold_inv _ _ _ _ Hh H1) as (_ & _ & o1 & _ & _ & _ & _ & Ho1 & _).
  destruct (hold_inv _ _ _ _ Hh H2) as (_ & _ & o2 & _ & _ & _ & _ & Ho2 & _).
  unfold finish_blocked. wp_step. eapply wp_mono; [by eapply set_pool_holds|]. intros [] w1 [Hh1 ->].
  assert (w_pools (w <| w_pools ::= insert 257 (unblocked o1) |>) !! 256 = Some o2) as Ho2' by (simpl; by rewrite lookup_insert_ne).
  eapply wp_mono; [by eapply set_pool_holds|]. intros [] w2 [Hh2 ->]. exists V. split.
  - split; [done|done|done|exact Hr].
  - assert (0 < num_blocked o1 ∨ 0 < num_blocked o2) as Hpos.
    { simpl in Hb. unfold blocked_left in Hb. rewrite Ho1, Ho2 in Hb. simpl in Hb.
      rewrite orb_false_r, orb_true_iff, !andb_true_iff, !Z.gtb_lt in Hb. tauto. }
    unfold nearer, work, left_over, left_in, blocked_of. rewrite !lookup_fmap. simpl.
    rewrite lookup_insert_eq, (lookup_insert_ne _ 256 257), lookup_insert_eq, Ho1, Ho2 by done. simpl. lia.
Qed.
Lemma any_of_less run : runs_to 0 2000 [257; 256] run (nearer work) → runs_to 0 2000 [257; 256] run (λ _ _ _ _, True).
Proof. intros Hr w V0 V t ???. eapply wp_mono; [by eapply Hr|]. intros [] w' (V' & ? & _). by exists V'. Qed.
(** A wait that times out with nothing changed. *)
Lemma timeout_waits : waits_to 0 2000 [257; 256] (mret tt) (λ _ _ _ _, True).
Proof. intros w V Hs _ _. wp_step. by exists V. Qed.

Abbreviation ended := (λ (_ : unit) w', ∃ V' d, pools_hold w' V' ∧ w_scheds w' !! 2000 = Some d ∧ s_in_pool d = false ∧
  (exits d ∨ drained_pools [257; 256] w' V')).
Lemma stacked_sched_drains_witness :
  wp (stacked_sched_main traced finish_blocked traced 2 0 2000) ended stacked ∧
  ends (stacked_sched_main traced (mret tt) traced 7 0 2000) ended stacked ∧
  w_log (run (stacked_sched_main traced finish_blocked traced 2 0 2000) stacked) =
    w_log stacked ++ [CsdReleaseIdle 1000; CsdReleaseIdle 1001].
Proof.
  split; [|split; [|vm_compute; reflexivity]].
  - destruct (stacked_sched_drains 0 2000 [257; 256] traced finish_blocked traced ltac:(lia) 2 stacked queues stacked_serving)
      as (_ & _ & Ht). apply (Ht work traced_less finish_blocked_less). apply (bool_decide_unpack _). vm_compute. exact I.
  - destruct (stacked_sched_drains 0 2000 [257; 256] traced (mret tt) traced ltac:(lia) 7 stacked queues stacked_serving)
      as (Hsafe & _). exact (Hsafe (any_of_less traced traced_less) timeout_waits).
Defined.

(** Scheduler 300 is put into pool 256 and, once it is there, refused. *)
Definition with_sched300 (b : bool) : world :=
  ThreadExamples.lift two_pools <| w_scheds := {[ 300 := new_sched ABT_SCHED_BASIC [257] <| s_in_pool := b |> ]} |>.
Lemma add_sched_spec_witness :
  result (ABT_pool_add_sched 9 256 300) (with_sched300 false) = Some ABT_SUCCESS ∧
  result (ABT_pool_add_sched 9 256 300) (with_sched300 true) = Some ABT_ERR_INV_SCHED ∧
  wp (ABT_pool_add_sched 9 256 300) (λ r w', r = ABT_ERR_INV_SCHED ∧ w' = with_sched300 true) (with_sched300 true).
Proof.
  split; [vm_compute; reflexivity|]. split; [vm_compute; reflexivity|].
  refine (add_sched_spec 9 (with_sched300 true) (<[257 := []]> (<[256 := []]> ∅)) 256 [] 300
    (new_sched ABT_SCHED_BASIC [257] <| s_in_pool := true |>) _ _ _ _ _ _).
  - reflexivity.
  - apply holds_scheds, ThreadExamples.lift_holds, two_pools_hold.
  - reflexivity.
  - exact ThreadExamples.lift_below.
  - lia.
  - reflexivity.
Defined.

(** ** A tasklet *)

(** Thread 1001, on Converse thread 2, has joined it from pool 257 and is blocked. *)
Definition tasklet : ABTI_thread :=
  toy_thread ABTI_THREAD_NAMED 1 <| cth := None |> <| is_task := true |> <| fn := Some 77 |> <| arg := 5 |> <| t_joiners := [2] |>.
Definition tasklet_joiner : ABTI_thread := toy_thread ABTI_THREAD_NAMED 2 <| t_pool := Some 257 |>.
Definition with_tasklet : world :=
  run (ABTI_thread_block 1001) (two_pools <| w_threads ::= insert 1000 tasklet |> <| w_threads ::= insert 1001 tasklet_joiner |>).
Lemma with_tasklet_hold : pools_hold with_tasklet (<[257 := []]> (<[256 := []]> ∅)).
Proof.
  set (w1 := two_pools <| w_threads ::= insert 1000 tasklet |>). set (w2 := w1 <| w_threads ::= insert 1001 tasklet_joiner |>).
  assert (pools_hold w1 (<[257 := []]> (<[256 := []]> ∅))) as H1.
  { eapply holds_other; [exact two_pools_hold|]. eapply other_fields_thread; [vm_compute; reflexivity|done|done]. }
  assert (pools_hold w2 (<[257 := []]> (<[256 := []]> ∅))) as H2.
  { eapply holds_other; [exact H1|]. eapply other_fields_thread; [vm_compute; reflexivity|done|done]. }
  assert (is_Some (w_pools w2 !! 257)) as [o Ho] by (vm_compute; by eexists).
  unfold with_tasklet. fold w1 w2.
  destruct (wp_run _ _ _ (block_holds w2 _ 1001 tasklet_joiner 257 o H2 eq_refl eq_refl ltac:(done) eq_refl Ho)) as (? & Hh & _).
  exact Hh.
Qed.
Definition tasked : world := run (ABT_pool_push_thread 256 1000) with_tasklet.
Lemma tasked_hold : pools_hold tasked (<[256 := [1000]]> (<[257 := []]> (<[256 := []]> ∅))).
Proof.
  destruct (wp_run _ _ _ (push_thread_holds with_tasklet _ 256 [] 1000 tasklet with_tasklet_hold eq_refl ltac:(lia) eq_refl eq_refl eq_refl
    (in_no_pool_can_leave with_tasklet tasklet eq_refl))) as (r & _ & Hh' & _). exact Hh'.
Qed.
(** PE 1 polls. *)
Definition before_poll : xst :=
  mk_xst _ _ _ tasked ∅ 3 16 [None; None; None] None None {[ 1 := free_pe 1 ]} (mk_queues ∅ []) ({[2]} : gset Z).
(** the function records its argument *)
Definition recorded (f a : Z) (c : caller) : M xst unit := Xstream.lift (emit (CsdReleaseIdle a)).
Abbreviation polled := (ABTI_poll_pool recorded (λ _, mret tt) (mk_caller (Some 1) None) 1 256).
Abbreviation joiner_asleep := (default tasklet (w_threads tasked !! 1001)).
Lemma recorded_returns g1 x1 :
  started (<[256 := [1000]]> (<[257 := []]> (<[256 := []]> ∅))) 256 [] 1000 (default tasklet (w_threads tasked !! 1000)) before_poll g1 x1 →
  returned (<[256 := []]> (<[256 := [1000]]> (<[257 := []]> (<[256 := []]> ∅)))) 1000 x1
    (g1 <| xw ::= λ w, w <| w_log ::= λ l, l ++ [CsdReleaseIdle 5] |> |>).
Proof.
  intros [D1 D2 D3 D4 (Ep & Et & Ej & Ec) D6 D7 D8]. set (g2 := g1 <| xw ::= _ |>).
  assert (alike tasked (xw g1)) as Hal by (intros q o; by apply erased_alike).
  split; [|done|done| |done|].
  - eapply holds_other; [exact D1|]. by apply other_fields_rest.
  - intros q Hq. rewrite Ep in Hq. assert (q = 256) as -> by (vm_compute in Hq; congruence).
    assert (is_Some (w_pools tasked !! 256)) as [o Ho] by (vm_compute; by eexists).
    destruct (Hal 256 o Ho) as (o' & Ho' & Eu & _). exists o'. split; [exact Ho'|]. rewrite Eu. vm_compute in Ho. by simplify_eq.
  - rewrite Ej. assert (t_joiners (default tasklet (w_threads tasked !! 1000)) = [2]) as -> by (vm_compute; reflexivity).
    split; [apply NoDup_singleton|]. intros k ->%list_elem_of_singleton. split; [change (xcth g2) with (xcth g1); by rewrite D8|].
    exists 1001, joiner_asleep, 257. apply (asleep_kept tasked (xw g2) (<[256 := [1000]]> (<[257 := []]> (<[256 := []]> ∅))) _ 2 1001 _ 257 1000).
    + split; [vm_compute; reflexivity|vm_compute; reflexivity|vm_compute; congruence|vm_compute; by split| | |vm_compute; reflexivity|by eexists].
      * intros q Hq. assert (q = 257) as -> by (vm_compute in Hq; congruence).
        assert (is_Some (w_pools tasked !! 257)) as [o Ho] by (vm_compute; by eexists).
        exists o. split; [exact Ho|]. vm_compute in Ho. by simplify_eq.
      * intros _. exists 257. assert (is_Some (w_pools tasked !! 257)) as [o Ho] by (vm_compute; by eexists).
        exists o. split; [vm_compute; reflexivity|exact Ho].
    + destruct D6. by split.
    + done.
    + exact Hal.
    + intros q Hq. destruct (decide (q = 256)) as [->|]; [rewrite lookup_insert_eq; eauto|by rewrite lookup_insert_ne].
Qed.
Lemma poll_runs_tasklet_witness :
  is_blocked 2 (xcth before_poll) = true ∧
  (num_blocked <$> w_pools tasked !! 257) = Some 1 ∧
  w_log (xw (run polled before_poll)) = w_log tasked ++ [CsdReleaseIdle 1; CsdReleaseIdle 5] ∧
  result (Xstream.lift (size 257)) (run polled before_poll) = Some 1 ∧
  wp polled (λ n g', n = 1 ∧ ∃ x2 V2 g2, t_joiners x2 = [2] ∧
    retired V2 1000 (x2 <| tstate := CTH_STATE_TERMINATED |>) g2 g') before_poll.
Proof.
  split_and!; [vm_compute; reflexivity..|].
  refine (poll_runs_tasklet recorded (λ _, mret tt) (mk_caller (Some 1) None) 1 256 before_poll _ 1000 []
    (default tasklet (w_threads tasked !! 1000)) 77 (λ x _ _, t_joiners x = [2]) tasked_hold _ _ _ _ _ _ _).
  1-6: vm_compute; reflexivity.
  intros g1 x1 Hst. apply wp_lift, wp_emit. eexists x1, _. split; [by apply recorded_returns|].
  destruct (sd_fields _ _ _ _ _ _ _ _ Hst) as (_ & _ & -> & _). vm_compute. reflexivity.
Defined.
